(** * tntorch.tensor: a shallow embedding of the tensor-network engine

    The Python class [Tensor] of [tntorch/tensor.py] keeps an N-dimensional
    array as a list of cores (3-index TT cores or 2-index CP factors) and an
    optional Tucker factor per axis.  This development embeds the torch
    primitives the class uses (dense row-major arrays with their shape), the
    methods of the class, and proves the properties the specification states
    about them.

    Array entries are floating-point numbers in the program.  They are taken
    here in an arbitrary commutative ring (the reals are the intended
    instance, the integers serve for evaluation), so every equality below is
    an exact algebraic one: rounding is outside the model. *)

From Stdlib Require Import List Arith Lia ZArith Ring Bool PeanoNat.
Import ListNotations.

Set Implicit Arguments.

(** ** Exceptions *)

Inductive exn : Type :=
| ValueError
| IndexError
| AssertionError
| RuntimeError
| ZeroDivisionError
| TypeError.

Inductive result (A : Type) : Type :=
| Ok (a : A)
| Raise (e : exn).

Arguments Ok {A} a.
Arguments Raise {A} e.

Definition bind {A B : Type} (c : result A) (k : A -> result B) : result B :=
  match c with
  | Ok a => k a
  | Raise e => Raise e
  end.

Notation "x <- c ;; k" := (bind c (fun x => k))
  (at level 61, c at next level, right associativity).
Notation "' p <- c ;; k" := (bind c (fun x => let p := x in k))
  (at level 61, p pattern, c at next level, right associativity).

Definition raises {A : Type} (c : result A) : Prop :=
  exists e, c = Raise e.

Definition is_ok {A : Type} (c : result A) : bool :=
  match c with Ok _ => true | Raise _ => false end.

Fixpoint foldM {A S : Type} (f : S -> A -> result S) (l : list A) (s : S)
  : result S :=
  match l with
  | [] => Ok s
  | a :: l' => s' <- f s a ;; foldM f l' s'
  end.

Fixpoint mapM {A B : Type} (f : A -> result B) (l : list A) : result (list B) :=
  match l with
  | [] => Ok []
  | a :: l' => b <- f a ;; bs <- mapM f l' ;; Ok (b :: bs)
  end.

(** Python's [assert]. *)
Definition assert (b : bool) : result unit :=
  if b then Ok tt else Raise AssertionError.

(** Python's [a // b] on non-negative integers. *)
Definition floordiv (a b : nat) : result nat :=
  if b =? 0 then Raise ZeroDivisionError else Ok (a / b).

(** Python's [l[n]] and [l[-1]]. *)
Definition get_item {A : Type} (l : list A) (n : nat) : result A :=
  match nth_error l n with
  | Some x => Ok x
  | None => Raise IndexError
  end.

Definition get_last {A : Type} (l : list A) : result A :=
  match l with
  | [] => Raise IndexError
  | _ => get_item l (length l - 1)
  end.

(** Python's [l[n] = v]. *)
Fixpoint set_item {A : Type} (l : list A) (n : nat) (v : A)
  : result (list A) :=
  match l, n with
  | [], _ => Raise IndexError
  | _ :: l', 0 => Ok (v :: l')
  | x :: l', S n' => r <- set_item l' n' v ;; Ok (x :: r)
  end.

Definition set_last {A : Type} (l : list A) (v : A) : result (list A) :=
  match l with
  | [] => Raise IndexError
  | _ => set_item l (length l - 1) v
  end.

(** ** Shapes and row-major offsets *)

Definition numel (s : list nat) : nat := fold_right Nat.mul 1 s.

Fixpoint ravel (s idx : list nat) : nat :=
  match s, idx with
  | _ :: s', i :: idx' => i * numel s' + ravel s' idx'
  | _, _ => 0
  end.

Fixpoint in_range (s idx : list nat) : bool :=
  match s, idx with
  | [], [] => true
  | n :: s', i :: idx' => (i <? n) && in_range s' idx'
  | _, _ => false
  end.

Fixpoint unravel (s : list nat) (k : nat) : list nat :=
  match s with
  | [] => []
  | _ :: s' => (k / numel s') :: unravel s' (k mod numel s')
  end.

(** All multi-indices of a shape, in row-major order. *)
Fixpoint indices (s : list nat) : list (list nat) :=
  match s with
  | [] => [[]]
  | n :: s' => flat_map (fun i => map (cons i) (indices s')) (seq 0 n)
  end.

(** The size list of [torch.reshape], where [-1] (here [None]) stands for
    the one size to be inferred. *)
Definition sizes : Type := list (option nat).

Definition known_numel (s : sizes) : nat :=
  fold_right (fun o acc => match o with Some n => n * acc | None => acc end) 1 s.

Definition count_infer (s : sizes) : nat :=
  length (filter (fun o => match o with None => true | Some _ => false end) s).

Definition fill_infer (s : sizes) (v : nat) : list nat :=
  map (fun o => match o with Some n => n | None => v end) s.

(** [infer_size] of torch: with no [-1] the sizes must multiply to the number
    of elements; with one [-1] the other sizes must have a non-zero product
    that divides it. *)
Definition infer_size (s : sizes) (n : nat) : result (list nat) :=
  match count_infer s with
  | 0 => if known_numel s =? n then Ok (fill_infer s 0) else Raise RuntimeError
  | 1 => if known_numel s =? 0 then Raise RuntimeError
         else if n mod known_numel s =? 0
              then Ok (fill_infer s (n / known_numel s))
              else Raise RuntimeError
  | _ => Raise RuntimeError
  end.

Definition exact (s : list nat) : sizes := map Some s.

Arguments exact : simpl never.

Section TensorNetwork.

(** ** The ring of entries *)

Variable R : Type.
Variables (rO rI : R) (radd rmul rsub : R -> R -> R) (ropp : R -> R).
Hypothesis Rth : ring_theory rO rI radd rmul rsub ropp (@eq R).

Add Ring Rring : Rth.

Infix "+!" := radd (at level 50, left associativity).
Infix "*!" := rmul (at level 40, left associativity).
Infix "-!" := rsub (at level 50, left associativity).

(** [rsum n f] is the sum of [f 0], ..., [f (n-1)]. *)
Fixpoint rsum (n : nat) (f : nat -> R) : R :=
  match n with
  | 0 => rO
  | S m => rsum m f +! f m
  end.

Definition delta (i j : nat) : R := if i =? j then rI else rO.

(** ** Dense arrays (torch tensors)

    A torch tensor is its shape and its entries in row-major order. *)

Record tensor : Type := mkT { tshape : list nat; tdata : list R }.

(** [tab s f] lists [f idx] for every multi-index of shape [s], row-major. *)
Fixpoint tab (s : list nat) (f : list nat -> R) : list R :=
  match s with
  | [] => [f []]
  | n :: s' => flat_map (fun i => tab s' (fun idx => f (i :: idx))) (seq 0 n)
  end.

Definition build (s : list nat) (f : list nat -> R) : tensor := mkT s (tab s f).

Definition get (t : tensor) (idx : list nat) : R :=
  nth (ravel (tshape t) idx) (tdata t) rO.

(** A well-formed tensor holds as many entries as its shape says. *)
Definition wf (t : tensor) : Prop := length (tdata t) = numel (tshape t).

Definition wfb (t : tensor) : bool := length (tdata t) =? numel (tshape t).

(** [t.dim()] *)
Definition tdim (t : tensor) : nat := length (tshape t).

(** [t.shape[k]] and [t.shape[-k]] (for [k] within the dimensions). *)
Definition sh (t : tensor) (k : nat) : nat := nth k (tshape t) 0.
Definition shr (t : tensor) (k : nat) : nat := nth (tdim t - k) (tshape t) 0.

(** Index functions on 1, 2 and 3 indices. *)
Definition ix1 (f : nat -> R) (idx : list nat) : R :=
  match idx with [a] => f a | _ => rO end.
Definition ix2 (f : nat -> nat -> R) (idx : list nat) : R :=
  match idx with [a; b] => f a b | _ => rO end.
Definition ix3 (f : nat -> nat -> nat -> R) (idx : list nat) : R :=
  match idx with [a; b; c] => f a b c | _ => rO end.

Definition build1 (a : nat) (f : nat -> R) : tensor := build [a] (ix1 f).
Definition build2 (a b : nat) (f : nat -> nat -> R) : tensor :=
  build [a; b] (ix2 f).
Definition build3 (a b c : nat) (f : nat -> nat -> nat -> R) : tensor :=
  build [a; b; c] (ix3 f).

(** [torch.zeros(s)], [torch.ones(s)], [torch.eye(n)] *)
Definition zeros (s : list nat) : tensor := build s (fun _ => rO).
Definition ones (s : list nat) : tensor := build s (fun _ => rI).
Definition eye (n : nat) : tensor := build2 n n delta.

(** [torch.reshape(t, s)]: the entries stay, the shape changes. *)
Definition reshape (t : tensor) (s : sizes) : result tensor :=
  s' <- infer_size s (numel (tshape t)) ;;
  Ok (mkT s' (tdata t)).

(** [t * c] for a scalar [c] (also the in-place [t.data *= c]). *)
Definition scale (c : R) (t : tensor) : tensor :=
  mkT (tshape t) (map (fun x => x *! c) (tdata t)).

(** *** The contractions of [torch.einsum] the class uses.
    Sizes carrying one label must agree. *)

(** ['ai,ibj->abj'] *)
Definition einsum_ai_ibj_abj (x y : tensor) : result tensor :=
  match tshape x, tshape y with
  | [a; i], [i'; b; j] =>
      if i =? i'
      then Ok (build3 a b j (fun p q r =>
                 rsum i (fun k => get x [p; k] *! get y [k; q; r])))
      else Raise RuntimeError
  | _, _ => Raise RuntimeError
  end.

(** ['ai,bi->abi'] *)
Definition einsum_ai_bi_abi (x y : tensor) : result tensor :=
  match tshape x, tshape y with
  | [a; i], [b; i'] =>
      if i =? i'
      then Ok (build3 a b i (fun p q r => get x [p; r] *! get y [q; r]))
      else Raise RuntimeError
  | _, _ => Raise RuntimeError
  end.

(** ['ai,bi->ab'] *)
Definition einsum_ai_bi_ab (x y : tensor) : result tensor :=
  match tshape x, tshape y with
  | [a; i], [b; i'] =>
      if i =? i'
      then Ok (build2 a b (fun p q =>
                 rsum i (fun k => get x [p; k] *! get y [q; k])))
      else Raise RuntimeError
  | _, _ => Raise RuntimeError
  end.

(** ['jk,aj->ak'] *)
Definition einsum_jk_aj_ak (x y : tensor) : result tensor :=
  match tshape x, tshape y with
  | [j; k], [a; j'] =>
      if j =? j'
      then Ok (build2 a k (fun p q =>
                 rsum j (fun m => get x [m; q] *! get y [p; m])))
      else Raise RuntimeError
  | _, _ => Raise RuntimeError
  end.

(** ['ijk,aj->iak'] *)
Definition einsum_ijk_aj_iak (x y : tensor) : result tensor :=
  match tshape x, tshape y with
  | [i; j; k], [a; j'] =>
      if j =? j'
      then Ok (build3 i a k (fun p q r =>
                 rsum j (fun m => get x [p; m; r] *! get y [q; m])))
      else Raise RuntimeError
  | _, _ => Raise RuntimeError
  end.

(** [t[..., None]]: a trailing axis of size one. *)
Definition unsqueeze_last (t : tensor) : tensor :=
  mkT (tshape t ++ [1]) (tdata t).

(** [t[None, :, :]]: a leading axis of size one. *)
Definition unsqueeze_first (t : tensor) : tensor :=
  mkT (1 :: tshape t) (tdata t).

(** [torch.sum(t, dim=-1)] *)
Definition sum_last (t : tensor) : result tensor :=
  match rev (tshape t) with
  | [] => Raise RuntimeError
  | k :: pre =>
      Ok (build (rev pre) (fun idx => rsum k (fun m => get t (idx ++ [m]))))
  end.

(** [t[..., 0]] *)
Definition select_last0 (t : tensor) : result tensor :=
  match rev (tshape t) with
  | [] => Raise IndexError
  | k :: pre =>
      if k =? 0 then Raise IndexError
      else Ok (build (rev pre) (fun idx => get t (idx ++ [0])))
  end.

(** ** Naive TT formatting: [_full_rank_tt] *)

(** One pass of the loop [for n in range(1, N)]: the state is the list of
    cores built so far and the current unfolding [resh]. *)
Definition full_rank_step (shape : list nat) (st : list tensor * tensor)
  (n : nat) : result (list tensor * tensor) :=
  let '(res, resh) := st in
  if sh resh 0 <? sh resh 1 then
    q <- floordiv (sh resh 0) (nth (n - 1) shape 0) ;;
    core <- reshape (eye (sh resh 0))
              (exact [q; nth (n - 1) shape 0; sh resh 0]) ;;
    q' <- floordiv (sh resh 1) (nth n shape 0) ;;
    resh' <- reshape resh (exact [sh resh 0 * nth n shape 0; q']) ;;
    Ok (res ++ [core], resh')
  else
    q <- floordiv (sh resh 0) (nth (n - 1) shape 0) ;;
    core <- reshape resh (exact [q; nth (n - 1) shape 0; sh resh 1]) ;;
    q' <- floordiv (sh resh 1) (nth n shape 0) ;;
    resh' <- reshape (eye (sh resh 1))
               (exact [sh resh 1 * nth n shape 0; q']) ;;
    Ok (res ++ [core], resh').

Definition _full_rank_tt (data : tensor) : result (list tensor) :=
  let shape := tshape data in
  let N := tdim data in
  match shape with
  | [] => Raise IndexError
  | s0 :: _ =>
      resh <- reshape data [Some s0; None] ;;
      '(res, resh) <- foldM (full_rank_step shape) (seq 1 (N - 1)) ([], resh) ;;
      q <- floordiv (sh resh 0) (nth (N - 1) shape 0) ;;
      core <- reshape resh (exact [q; nth (N - 1) shape 0; 1]) ;;
      Ok (res ++ [core])
  end.

(** ** The class [Tensor]

    [cores] and [Us] are the two attributes the methods below read and
    write; [Us[n]] is [None] when axis [n] has no Tucker factor.  The
    attribute [idxs] only labels entries for mask indexing and is left out. *)

Record Tensor : Type := mkTensor {
  cores : list tensor;
  Us : list (option tensor)
}.

(** [t.dim()] *)
Definition dim (t : Tensor) : nat := length (cores t).

(** The checks of [__init__] on an explicit list of cores:
    every core has 2 or 3 dimensions ... *)
Definition core_dims_ok (data : list tensor) : bool :=
  forallb (fun d => (2 <=? tdim d) && (tdim d <=? 3)) data.

(** ... and consecutive cores agree on their rank. *)
Fixpoint core_ranks_ok (data : list tensor) : bool :=
  match data with
  | c :: ((c' :: _) as rest) =>
      negb (((tdim c' =? 3) && negb (shr c 1 =? sh c' 0))
            || ((tdim c' =? 2) && negb (shr c 1 =? sh c' 1)))
      && core_ranks_ok rest
  | _ => true
  end.

(** The loop "Check factor shapes": [Us[n]] is read for every axis. *)
Fixpoint check_factors (cs : list tensor) (us : list (option tensor))
  : result unit :=
  match cs with
  | [] => Ok tt
  | c :: cs' =>
      match us with
      | [] => Raise IndexError
      | None :: us' => check_factors cs' us'
      | Some u :: us' =>
          _ <- assert (tdim u =? 2) ;;
          _ <- assert (shr c 2 =? sh u 1) ;;
          check_factors cs' us'
      end
  end.

(** [Tensor(data, Us=Us)] for a list of cores [data] and no other option. *)
Definition Tensor_of_cores (data : list tensor)
  (us : option (list (option tensor))) : result Tensor :=
  if negb (core_dims_ok data) then Raise ValueError
  else if negb (core_ranks_ok data) then Raise ValueError
  else
    let us' := match us with
               | None => repeat None (length data)
               | Some l => l
               end in
    _ <- check_factors data us' ;;
    Ok (mkTensor data us').

(** The property [shape]. *)
Fixpoint shape_of (cs : list tensor) (us : list (option tensor))
  : result (list nat) :=
  match cs with
  | [] => Ok []
  | c :: cs' =>
      match us with
      | [] => Raise IndexError
      | None :: us' => s <- shape_of cs' us' ;; Ok (shr c 2 :: s)
      | Some u :: us' => s <- shape_of cs' us' ;; Ok (sh u 0 :: s)
      end
  end.

Definition shape (t : Tensor) : result (list nat) := shape_of (cores t) (Us t).

(** The property [ranks_tt]. *)
Definition ranks_tt (t : Tensor) : result (list nat) :=
  match cores t with
  | [] => Raise IndexError
  | c0 :: _ =>
      Ok ((if tdim c0 =? 2 then sh c0 1 else sh c0 0)
            :: map (fun c => shr c 1) (cores t))
  end.

(** The property [ranks_tucker]. *)
Definition ranks_tucker (t : Tensor) : list nat :=
  map (fun c => shr c 2) (cores t).

(** [decompress_tucker_factors()] with [dim='all']: every Tucker factor is
    contracted into its core.  [.clone()] copies a value and is the identity
    here, so [_clone] makes no difference. *)
Fixpoint decompress_cores (cs : list tensor) (us : list (option tensor))
  : result (list tensor) :=
  match cs with
  | [] => Ok []
  | c :: cs' =>
      match us with
      | [] => Raise IndexError
      | None :: us' => r <- decompress_cores cs' us' ;; Ok (c :: r)
      | Some u :: us' =>
          c' <- (if tdim c =? 2 then einsum_jk_aj_ak c u
                 else einsum_ijk_aj_iak c u) ;;
          r <- decompress_cores cs' us' ;;
          Ok (c' :: r)
      end
  end.

Definition decompress_tucker_factors (t : Tensor) : result Tensor :=
  cs <- decompress_cores (cores t) (Us t) ;;
  Tensor_of_cores cs None.

(** ** Decompression: [torch()] *)

(** One pass of the loop over the cores; [n] is the position of [core] and
    [N] the number of cores. *)
Definition torch_step (N : nat) (factor : tensor) (nc : nat * tensor)
  : result tensor :=
  let '(n, core) := nc in
  f <- (if tdim core =? 2 then
          if n <? N - 1 then einsum_ai_bi_abi factor core
          else r <- einsum_ai_bi_ab factor core ;; Ok (unsqueeze_last r)
        else einsum_ai_ibj_abj factor core) ;;
  reshape f [None; Some (shr f 1)].

Definition torch (self : Tensor) : result tensor :=
  t <- decompress_tucker_factors self ;;
  r <- ranks_tt self ;;
  let shape := map (fun c => shr c 2) (cores t) in
  let factor := ones [1; nth 0 r 0] in
  factor <- foldM (torch_step (dim t)) (combine (seq 0 (dim t)) (cores t))
              factor ;;
  factor <- (if 1 <? shr factor 1 then sum_last factor
             else select_last0 factor) ;;
  reshape factor (exact shape).

(** ** More torch primitives *)

(** Replace, insert and remove one position of a multi-index. *)
Fixpoint upd (l : list nat) (d v : nat) : list nat :=
  match l, d with
  | [], _ => []
  | _ :: l', 0 => v :: l'
  | x :: l', S d' => x :: upd l' d' v
  end.

Fixpoint ins (l : list nat) (d v : nat) : list nat :=
  match d, l with
  | 0, _ => v :: l
  | S d', x :: l' => x :: ins l' d' v
  | S _, [] => [v]
  end.

Fixpoint del (l : list nat) (d : nat) : list nat :=
  match l, d with
  | [], _ => []
  | _ :: l', 0 => l'
  | x :: l', S d' => x :: del l' d'
  end.

Definition shape_eqb (s1 s2 : list nat) : bool :=
  if list_eq_dec Nat.eq_dec s1 s2 then true else false.

(** [torch.cat([x, y], dim=d)]: the shapes must agree except along [d]. *)
Definition cat (x y : tensor) (d : nat) : result tensor :=
  if (d <? tdim x) && shape_eqb (upd (tshape x) d 0) (upd (tshape y) d 0)
  then Ok (build (upd (tshape x) d (sh x d + sh y d))
             (fun idx => if nth d idx 0 <? sh x d then get x idx
                         else get y (upd idx d (nth d idx 0 - sh x d))))
  else Raise RuntimeError.

(** [torch.sum(t, dim=d, keepdim=True)] and [torch.sum(t, dim=d)] *)
Definition sum_keep (t : tensor) (d : nat) : result tensor :=
  if d <? tdim t
  then Ok (build (upd (tshape t) d 1)
             (fun idx => rsum (sh t d) (fun m => get t (upd idx d m))))
  else Raise IndexError.

Definition sum_drop (t : tensor) (d : nat) : result tensor :=
  if d <? tdim t
  then Ok (build (del (tshape t) d)
             (fun idx => rsum (sh t d) (fun m => get t (ins idx d m))))
  else Raise IndexError.

(** [t.t()] of a matrix and [t.permute(0, 2, 1)] of a 3-index array *)
Definition transpose (t : tensor) : result tensor :=
  match tshape t with
  | [a; b] => Ok (build2 b a (fun i j => get t [j; i]))
  | _ => Raise RuntimeError
  end.

Definition permute021 (t : tensor) : result tensor :=
  match tshape t with
  | [a; b; c] => Ok (build3 a c b (fun i j k => get t [i; k; j]))
  | _ => Raise RuntimeError
  end.

(** [t[:-1, :, :]] and [t[0, :, :]] *)
Definition drop_last_row (t : tensor) : result tensor :=
  match tshape t with
  | [a; b; c] => Ok (build3 (a - 1) b c (fun i j k => get t [i; j; k]))
  | _ => Raise IndexError
  end.

Definition select_first0 (t : tensor) : result tensor :=
  match tshape t with
  | [a; b; c] =>
      if a =? 0 then Raise IndexError
      else Ok (build2 b c (fun j k => get t [0; j; k]))
  | _ => Raise IndexError
  end.

(** [t.repeat] with as many repetition counts as [t] has axes. *)
Fixpoint zip_with (f : nat -> nat -> nat) (l1 l2 : list nat) : list nat :=
  match l1, l2 with
  | x :: l1', y :: l2' => f x y :: zip_with f l1' l2'
  | _, _ => []
  end.

Definition trepeat (t : tensor) (reps : list nat) : result tensor :=
  if length reps =? tdim t
  then Ok (build (zip_with Nat.mul reps (tshape t))
             (fun idx => get t (zip_with Nat.modulo idx (tshape t))))
  else Raise RuntimeError.

(** Broadcasting of two sizes: equal, or one of them is 1. *)
Definition bsize (a b : nat) : result nat :=
  if a =? b then Ok a
  else if a =? 1 then Ok b
  else if b =? 1 then Ok a
  else Raise RuntimeError.

(** Shapes are aligned on their last axis; the lists here are reversed. *)
Fixpoint bshape_rev (s1 s2 : list nat) : result (list nat) :=
  match s1, s2 with
  | [], _ => Ok s2
  | _, [] => Ok s1
  | a :: s1', b :: s2' =>
      c <- bsize a b ;; r <- bshape_rev s1' s2' ;; Ok (c :: r)
  end.

Definition bshape (s1 s2 : list nat) : result (list nat) :=
  r <- bshape_rev (rev s1) (rev s2) ;; Ok (rev r).

(** The index of the operand of shape [s] an index of the broadcast shape
    reads: the trailing positions, with 0 wherever [s] has size 1. *)
Definition bidx (s idx : list nat) : list nat :=
  zip_with (fun n i => if n =? 1 then 0 else i) s
    (skipn (length idx - length s) idx).

(** [x + y] and [x * y] on torch tensors *)
Definition badd (x y : tensor) : result tensor :=
  s <- bshape (tshape x) (tshape y) ;;
  Ok (build s (fun idx => get x (bidx (tshape x) idx)
                          +! get y (bidx (tshape y) idx))).

Definition bmul (x y : tensor) : result tensor :=
  s <- bshape (tshape x) (tshape y) ;;
  Ok (build s (fun idx => get x (bidx (tshape x) idx)
                          *! get y (bidx (tshape y) idx))).

(** ['ijk,abc->iajbkc'] *)
Definition einsum_ijk_abc_iajbkc (x y : tensor) : result tensor :=
  match tshape x, tshape y with
  | [i; j; k], [a; b; c] =>
      Ok (build [i; a; j; b; k; c]
            (fun idx => match idx with
                        | [p; q; r; s; u; v] =>
                            get x [p; r; u] *! get y [q; s; v]
                        | _ => rO
                        end))
  | _, _ => Raise RuntimeError
  end.

(** ['ij,ik->ijk'] *)
Definition einsum_ij_ik_ijk (x y : tensor) : result tensor :=
  match tshape x, tshape y with
  | [i; j], [i'; k] =>
      if i =? i'
      then Ok (build3 i j k (fun p q r => get x [p; q] *! get y [p; r]))
      else Raise RuntimeError
  | _, _ => Raise RuntimeError
  end.

(** [a[:, None, :, :, None]] and [b[None, :, :, None, :]] *)
Definition kron_view_a (a : tensor) : result tensor :=
  match tshape a with
  | [i; j; k] => Ok (mkT [i; 1; j; k; 1] (tdata a))
  | _ => Raise IndexError
  end.

Definition kron_view_b (b : tensor) : result tensor :=
  match tshape b with
  | [i; j; k] => Ok (mkT [1; i; j; 1; k] (tdata b))
  | _ => Raise IndexError
  end.

(** [_core_kron(a, b)] *)
Definition _core_kron (a b : tensor) : result tensor :=
  va <- kron_view_a a ;;
  vb <- kron_view_b b ;;
  c <- bmul va vb ;;
  reshape c [Some (sh a 0 * sh b 0); None; Some (shr a 1 * shr b 1)].

(** [_cp_to_tt(factor)]: a TT core is returned as it is; a CP factor of
    shape [(I, R)] is laid on the diagonals of a core of shape [(R, I, R)]:
    [core = zeros(R, R + 1, I); core[:, 0, :] = factor.t()], reshaped to
    [(R + 1, R, I)], permuted and cut. *)
Definition _cp_to_tt (factor : tensor) : result tensor :=
  match tshape factor with
  | [_; _; _] => Ok factor
  | [i; r] =>
      ft <- transpose factor ;;
      let core := build3 r (r + 1) i
                    (fun a j b => if j =? 0 then get ft [a; b] else rO) in
      core <- reshape core (exact [r + 1; r; i]) ;;
      core <- permute021 core ;;
      drop_last_row core
  | _ => Raise IndexError
  end.

(** ** Copies, repetition and broadcasting *)

(** [clone()]: the loop reads [self.Us[n]] for every axis, then the
    constructor runs on the copied cores and factors. *)
Fixpoint clone_Us (cs : list tensor) (us : list (option tensor))
  : result (list (option tensor)) :=
  match cs with
  | [] => Ok []
  | _ :: cs' =>
      match us with
      | [] => Raise IndexError
      | u :: us' => r <- clone_Us cs' us' ;; Ok (u :: r)
      end
  end.

Definition clone (self : Tensor) : result Tensor :=
  us <- clone_Us (cores self) (Us self) ;;
  Tensor_of_cores (cores self) (Some us).

(** The last loop of [repeat]: axis [n] is repeated [rep[n]] times, on the
    Tucker factor when there is one and on the core otherwise. *)
Fixpoint repeat_axes (cs : list tensor) (us : list (option tensor))
  (rep : list nat) : result (list tensor * list (option tensor)) :=
  match cs, us, rep with
  | [], _, _ => Ok ([], [])
  | c :: cs', u :: us', r :: rep' =>
      '(c1, u1) <- match u with
                   | Some U => U' <- trepeat U [r; 1] ;; Ok (c, Some U')
                   | None =>
                       c' <- (if tdim c =? 3 then trepeat c [1; r; 1]
                              else trepeat c [r; 1]) ;;
                       Ok (c', None)
                   end ;;
      '(cs1, us1) <- repeat_axes cs' us' rep' ;;
      Ok (c1 :: cs1, u1 :: us1)
  | _, _, _ => Raise IndexError
  end.

(** [self.repeat] with the arguments [rep] *)
Definition Tensor_repeat (self : Tensor) (rep : list nat) : result Tensor :=
  _ <- assert (dim self <=? length rep) ;;
  _ <- assert (forallb (fun r => 1 <=? r) rep) ;;
  t <- clone self ;;
  extra <- (if dim self <? length rep
            then cl <- get_last (cores self) ;;
                 Ok (map (fun r => ones [r; shr cl 1]) (skipn (dim self) rep))
            else Ok []) ;;
  '(cs, us) <- repeat_axes (cores t) (Us t) rep ;;
  Ok (mkTensor (cs ++ extra) (us ++ map (fun _ => None) extra)).

(** [int(round(max(sh2 / sh1, 1)))]: the quotient of two sizes, rounded to
    the nearest integer and to the even one on a tie, and at least 1. *)
Definition round_half_even (a b : nat) : nat :=
  let q := a / b in
  let r := a mod b in
  if 2 * r <? b then q
  else if b <? 2 * r then q + 1
  else if Nat.even q then q else q + 1.

Definition repeat_factor (sh1 sh2 : nat) : result nat :=
  if sh1 =? 0 then Raise ZeroDivisionError
  else if sh2 <=? sh1 then Ok 1
  else Ok (round_half_even sh2 sh1).

Fixpoint repeat_factors (s1 s2 : list nat) : result (list nat) :=
  match s1, s2 with
  | a :: s1', b :: s2' =>
      f <- repeat_factor a b ;; r <- repeat_factors s1' s2' ;; Ok (f :: r)
  | _, _ => Ok []
  end.

(** [_broadcast(a, b)] *)
Definition _broadcast (a b : Tensor) : result (Tensor * Tensor) :=
  sa <- shape a ;;
  sb <- shape b ;;
  if shape_eqb sa sb then Ok (a, b)
  else if negb (dim a =? dim b) then Raise ValueError
  else
    ra <- repeat_factors sa sb ;;
    result1 <- Tensor_repeat a ra ;;
    rb <- repeat_factors sb sa ;;
    result2 <- Tensor_repeat b rb ;;
    Ok (result1, result2).

(** ** Addition and multiplication *)

(** The right operand of [+] and [*]: a network, a number, or [None]. *)
Inductive operand : Type :=
| OTensor (t : Tensor)
| OScalar (c : R)
| ONone.

(** [Tensor([torch.ones([1, self.shape[n], 1]) ...])] with its first core
    multiplied by [factor]: the constant network of [__add__]. *)
Definition constant_like (self : Tensor) (factor : R) : result Tensor :=
  s <- shape self ;;
  other <- Tensor_of_cores (map (fun n => ones [1; n; 1]) s) None ;;
  c0 <- get_item (cores other) 0 ;;
  cs <- set_item (cores other) 0 (scale factor c0) ;;
  Ok (mkTensor cs (Us other)).

(** Both cores of an axis as 3-index arrays: CP with CP keeps the CP
    factors under a unit axis, every other pair goes to TT. *)
Definition lift_pair (core1 core2 : tensor) : result (tensor * tensor) :=
  if (tdim core1 =? 2) && (tdim core2 =? 2)
  then Ok (unsqueeze_first core1, unsqueeze_first core2)
  else c1 <- _cp_to_tt core1 ;; c2 <- _cp_to_tt core2 ;; Ok (c1, c2).

(** [torch.einsum('ijk,aj->iak', (core, U))] where [U] was read from a list
    of optional factors. *)
Definition apply_factor (core : tensor) (u : option tensor) : result tensor :=
  match u with
  | Some u => einsum_ijk_aj_iak core u
  | None => Raise TypeError
  end.

(** One pass of the main loop of [__add__]. *)
Definition add_axis (self this other : Tensor) (n : nat)
  : result (tensor * option tensor) :=
  core1 <- get_item (cores this) n ;;
  core2 <- get_item (cores other) n ;;
  '(core1, core2) <- lift_pair core1 core2 ;;
  tu <- get_item (Us this) n ;;
  ou <- get_item (Us other) n ;;
  match tu, ou with
  | Some _, Some u2 =>
      slice1 <- cat core1 (zeros [sh core2 0; sh core1 1; sh core1 2]) 0 ;;
      slice1 <- cat slice1
                  (zeros [sh core1 0 + sh core2 0; sh core1 1; sh core2 2]) 2 ;;
      slice2 <- cat (zeros [sh core1 0; sh core2 1; sh core2 2]) core2 0 ;;
      slice2 <- cat (zeros [sh core1 0 + sh core2 0; sh core2 1; sh core1 2])
                  slice2 2 ;;
      c <- cat slice1 slice2 1 ;;
      su <- get_item (Us self) n ;;
      u <- match su with
           | Some u1 => cat u1 u2 1
           | None => Raise TypeError
           end ;;
      Ok (c, Some u)
  | _, _ =>
      core1 <- match tu with
               | Some _ => su <- get_item (Us self) n ;; apply_factor core1 su
               | None => Ok core1
               end ;;
      core2 <- match ou with
               | Some u2 => einsum_ijk_aj_iak core2 u2
               | None => Ok core2
               end ;;
      s <- shape this ;;
      sn <- get_item s n ;;
      column1 <- cat core1 (zeros [sh core2 0; sn; sh core1 2]) 0 ;;
      column2 <- cat (zeros [sh core1 0; sn; sh core2 2]) core2 0 ;;
      c <- cat column1 column2 2 ;;
      Ok (c, None)
  end.

(** Is axis [n] a CP factor in both operands? *)
Definition both_cp (this other : Tensor) (n : nat) : result bool :=
  c1 <- get_item (cores this) n ;;
  c2 <- get_item (cores other) n ;;
  Ok ((tdim c1 =? 2) && (tdim c2 =? 2)).

(** The loop "Set up cores that should be CP cores". *)
Definition add_fix_cp (this other : Tensor) (cs : list tensor) (n : nat)
  : result (list tensor) :=
  b <- both_cp this other n ;;
  if b then
    c <- get_item cs n ;;
    c' <- sum_drop c 0 ;;
    set_item cs n c'
  else Ok cs.

(** [self + other] for a network [other]. *)
Definition add_tensors (self other : Tensor) : result Tensor :=
  if dim self =? 1 then
    a <- decompress_tucker_factors self ;;
    a0 <- get_item (cores a) 0 ;;
    b <- decompress_tucker_factors other ;;
    b0 <- get_item (cores b) 0 ;;
    c <- badd a0 b0 ;;
    Tensor_of_cores [c] None
  else
    '(this, other) <- _broadcast self other ;;
    cus <- mapM (add_axis self this other) (seq 0 (dim this)) ;;
    let cs := map fst cus in
    let us := map snd cus in
    (* first core *)
    b0 <- both_cp this other 0 ;;
    cs <- (if negb b0
           then c <- get_item cs 0 ;; c' <- sum_keep c 0 ;; set_item cs 0 c'
           else Ok cs) ;;
    (* last core *)
    l1 <- get_last (cores this) ;;
    l2 <- get_last (cores other) ;;
    cs <- (if negb ((tdim l1 =? 2) && (tdim l2 =? 2))
           then c <- get_last cs ;; c' <- sum_keep c 2 ;; set_last cs c'
           else Ok cs) ;;
    cs <- foldM (add_fix_cp this other) (seq 0 (dim this)) cs ;;
    Tensor_of_cores cs (Some us).

(** [self.__add__(other)] *)
Definition __add__ (self : Tensor) (other : operand) : result Tensor :=
  match other with
  | OTensor t => add_tensors self t
  | OScalar c => other <- constant_like self c ;; add_tensors self other
  | ONone => Raise TypeError
  end.

(** [self.__radd__(other)] *)
Definition __radd__ (self : Tensor) (other : operand) : result Tensor :=
  match other with
  | ONone => Ok self
  | _ => __add__ self other
  end.

(** One pass of the loop of [__mul__]. *)
Definition mul_axis (this other : Tensor) (n : nat)
  : result (tensor * option tensor) :=
  tc <- get_item (cores this) n ;;
  oc <- get_item (cores other) n ;;
  '(core1, core2) <- lift_pair tc oc ;;
  tu <- get_item (Us this) n ;;
  ou <- get_item (Us other) n ;;
  in_factors <- match tu, ou with
                | Some _, Some _ =>
                    s <- shape this ;;
                    sn <- get_item s n ;;
                    Ok (sh tc 1 * sh oc 1 <? sn)
                | _, _ => Ok false
                end ;;
  '(c, u) <-
    (if in_factors : bool then
       p <- einsum_ijk_abc_iajbkc core1 core2 ;;
       c <- reshape p (exact [sh core1 0 * sh core2 0;
                              sh core1 1 * sh core2 1;
                              sh core1 2 * sh core2 2]) ;;
       pu <- match tu, ou with
             | Some u1, Some u2 => einsum_ij_ik_ijk u1 u2
             | _, _ => Raise TypeError
             end ;;
       u <- reshape pu [Some (match tu with Some u1 => sh u1 0 | None => 0 end);
                        None] ;;
       Ok (c, Some u)
     else
       core1 <- match tu with
                | Some u1 => einsum_ijk_aj_iak core1 u1
                | None => Ok core1
                end ;;
       core2 <- match ou with
                | Some u2 => einsum_ijk_aj_iak core2 u2
                | None => Ok core2
                end ;;
       c <- _core_kron core1 core2 ;;
       Ok (c, None)) ;;
  if (tdim tc =? 2) && (tdim oc =? 2)
  then c' <- select_first0 c ;; Ok (c', u)
  else Ok (c, u).

(** [self * other] for a network [other]. *)
Definition mul_tensors (self other : Tensor) : result Tensor :=
  '(this, other) <- _broadcast self other ;;
  cus <- mapM (mul_axis this other) (seq 0 (dim this)) ;;
  Tensor_of_cores (map fst cus) (Some (map snd cus)).

(** [self.__mul__(other)] *)
Definition __mul__ (self : Tensor) (other : operand) : result Tensor :=
  match other with
  | OTensor t => mul_tensors self t
  | OScalar c =>
      r <- clone self ;;
      c0 <- get_item (cores r) 0 ;;
      cs <- set_item (cores r) 0 (scale c c0) ;;
      Ok (mkTensor cs (Us r))
  | ONone => Raise TypeError
  end.

(** ** Orthogonalization and rounding *)

(** *** What the class takes from outside

    [torch.qr], and from other modules of the package [tn.truncated_svd] and
    [tn.relative_error], are parameters; so are the division, square root
    and comparison of numbers, which a ring does not have. *)

Variable rdiv : R -> R -> R.
Variable rsqrt : R -> R.
Variable rltb : R -> R -> bool.

(** [torch.qr(m)] returns [(Q, R)]. *)
Variable qr : tensor -> result (tensor * tensor).

(** The error budget of [tn.truncated_svd]: [eps=] (relative) or [delta=]
    (absolute). *)
Inductive budget : Type :=
| BEps (eps : R)
| BDelta (delta : R).

(** [tn.truncated_svd(m, eps= / delta=, rmax=, left_ortho=)] returns
    [(left, right)]. *)
Variable truncated_svd :
  tensor -> budget -> option nat -> bool -> result (tensor * tensor).

(** [tn.relative_error(gt, approx)] *)
Variable relative_error : Tensor -> Tensor -> result R.

(** Modelled from the spec: [tn.left_unfolding] and [tn.right_unfolding]
    live in another module of the package; the specification describes an
    unfolding as the reshaping of a core into a matrix by grouping indices
    to one side: all but the last for the left unfolding, all but the first
    for the right one. *)
Definition left_unfolding (core : tensor) : result tensor :=
  reshape core [None; Some (shr core 1)].

Definition right_unfolding (core : tensor) : result tensor :=
  reshape core [Some (sh core 0); None].

(** [torch.mm(x, y)] *)
Definition mm (x y : tensor) : result tensor :=
  match tshape x, tshape y with
  | [a; i], [i'; b] =>
      if i =? i'
      then Ok (build2 a b (fun p q =>
                 rsum i (fun k => get x [p; k] *! get y [k; q])))
      else Raise RuntimeError
  | _, _ => Raise RuntimeError
  end.

(** [torch.einsum('ijk,kl', (x, y))], with the implicit output ['ijl'] *)
Definition einsum_ijk_kl (x y : tensor) : result tensor :=
  match tshape x, tshape y with
  | [i; j; k], [k'; l] =>
      if k =? k'
      then Ok (build3 i j l (fun p q r =>
                 rsum k (fun m => get x [p; q; m] *! get y [m; r])))
      else Raise RuntimeError
  | _, _ => Raise RuntimeError
  end.

(** [t.transpose(1, 0)[:, :, None]] *)
Definition transpose_unsqueeze (t : tensor) : result tensor :=
  t' <- transpose t ;; Ok (unsqueeze_last t').

(** The number [n] as an entry. *)
Definition of_nat (n : nat) : R := rsum n (fun _ => rI).

(** [torch.norm(t)]: the Frobenius norm. *)
Definition norm (t : tensor) : R :=
  rsqrt (rsum (length (tdata t)) (fun k => nth k (tdata t) rO *! nth k (tdata t) rO)).

(** [max(1, x)] of Python: [x] when [1 < x], else [1]. *)
Definition max1 (x : R) : R := if rltb rI x then x else rI.

(** The argument [rmax]: absent, one number, or a list. *)
Inductive rank_arg : Type :=
| RInt (n : nat)
| RList (l : list (option nat)).

(** [if not hasattr(rmax, '__len__'): rmax = [rmax] * n] *)
Definition expand_rmax (rmax : option rank_arg) (n : nat) : list (option nat) :=
  match rmax with
  | None => repeat None n
  | Some (RInt r) => repeat (Some r) n
  | Some (RList l) => l
  end.

(** [self._cp_to_tt()]: every CP factor of the network becomes a TT core. *)
Definition cp_to_tt_all (self : Tensor) : result Tensor :=
  c0 <- get_item (cores self) 0 ;;
  cs <- (if tdim c0 =? 2 then set_item (cores self) 0 (unsqueeze_first c0)
         else Ok (cores self)) ;;
  cs <- foldM (fun cs mu => c <- get_item cs mu ;;
                            c' <- _cp_to_tt c ;;
                            set_item cs mu c')
          (seq 1 (length cs - 2)) cs ;;
  cl <- get_last cs ;;
  cs <- (if tdim cl =? 2
         then c' <- transpose_unsqueeze cl ;; set_last cs c'
         else Ok cs) ;;
  Ok (mkTensor cs (Us self)).

(** [factor_orthogonalize(mu)] *)
Definition factor_orthogonalize (self : Tensor) (mu : nat) : result Tensor :=
  u <- get_item (Us self) mu ;;
  match u with
  | None => Ok self
  | Some u =>
      '(Q, Rf) <- qr u ;;
      us <- set_item (Us self) mu (Some Q) ;;
      c <- get_item (cores self) mu ;;
      c' <- (if tdim c =? 2 then einsum_jk_aj_ak c Rf
             else einsum_ijk_aj_iak c Rf) ;;
      cs <- set_item (cores self) mu c' ;;
      Ok (mkTensor cs us)
  end.

(** [left_orthogonalize(mu)]: the new state of the network and the factor
    [R] it returns. *)
Definition left_orthogonalize (self : Tensor) (mu : Z)
  : result (Tensor * tensor) :=
  _ <- assert ((0 <=? mu)%Z && (mu <? Z.of_nat (dim self) - 1)%Z) ;;
  let mu := Z.to_nat mu in
  self <- factor_orthogonalize self mu ;;
  c <- get_item (cores self) mu ;;
  lu <- left_unfolding c ;;
  '(Q, Rf) <- qr lu ;;
  c' <- reshape Q (exact (removelast (tshape c) ++ [sh Q 1])) ;;
  cs <- set_item (cores self) mu c' ;;
  cn <- get_item cs (mu + 1) ;;
  rightcoreR <- right_unfolding cn ;;
  p <- mm Rf rightcoreR ;;
  cn' <- reshape p (exact (sh Rf 0 :: tl (tshape cn))) ;;
  cs <- set_item cs (mu + 1) cn' ;;
  Ok (mkTensor cs (Us self), Rf).

(** [right_orthogonalize(mu)]: the new state and the factor [L]. *)
Definition right_orthogonalize (self : Tensor) (mu : Z)
  : result (Tensor * tensor) :=
  _ <- assert ((1 <=? mu)%Z && (mu <? Z.of_nat (dim self))%Z) ;;
  let mu := Z.to_nat mu in
  self <- factor_orthogonalize self mu ;;
  c <- get_item (cores self) mu ;;
  ru <- right_unfolding c ;;
  rut <- transpose ru ;;
  '(Q, L) <- qr rut ;;
  L <- transpose L ;;
  Q <- transpose Q ;;
  c' <- reshape Q (exact (sh Q 0 :: tl (tshape c))) ;;
  cs <- set_item (cores self) mu c' ;;
  cp <- get_item cs (mu - 1) ;;
  leftcoreL <- left_unfolding cp ;;
  p <- mm leftcoreL L ;;
  cp' <- reshape p (exact (removelast (tshape cp) ++ [sh L 1])) ;;
  cs <- set_item cs (mu - 1) cp' ;;
  Ok (mkTensor cs (Us self), L).

(** [orthogonalize(mu)]: the new state and the pair [(R, L)]. *)
Definition orthogonalize (self : Tensor) (mu : Z)
  : result (Tensor * (tensor * tensor)) :=
  let mu := if (mu <? 0)%Z then (mu + Z.of_nat (dim self))%Z else mu in
  self <- cp_to_tt_all self ;;
  '(self, Rf) <- foldM (fun st i => r <- left_orthogonalize (fst st) (Z.of_nat i) ;; Ok r)
                   (seq 0 (Z.to_nat mu)) (self, ones [1; 1]) ;;
  '(self, L) <- foldM (fun st i => r <- right_orthogonalize (fst st) (Z.of_nat i) ;; Ok r)
                  (rev (seq (Z.to_nat (mu + 1)) (dim self - Z.to_nat (mu + 1))))
                  (self, ones [1; 1]) ;;
  Ok (self, (Rf, L)).

(** One pass of the sweep of [round_tt], on the core [mu]. *)
Definition round_tt_step (delta : R) (rmax : list (option nat))
  (self : Tensor) (mu : nat) : result Tensor :=
  c <- get_item (cores self) mu ;;
  M <- right_unfolding c ;;
  rm <- get_item rmax (mu - 1) ;;
  '(lft, rgt) <- truncated_svd M (BDelta delta) rm false ;;
  c' <- reshape rgt [None; Some (sh c 1); Some (sh c 2)] ;;
  cs <- set_item (cores self) mu c' ;;
  cp <- get_item cs (mu - 1) ;;
  cp' <- einsum_ijk_kl cp lft ;;
  cs <- set_item cs (mu - 1) cp' ;;
  Ok (mkTensor cs (Us self)).

(** [round_tt(eps, rmax)] *)
Definition round_tt (self : Tensor) (eps : R) (rmax : option rank_arg)
  : result Tensor :=
  let N := dim self in
  let rmax := expand_rmax rmax (N - 1) in
  _ <- assert (length rmax =? N - 1) ;;
  self <- cp_to_tt_all self ;;
  '(self, _) <- orthogonalize self (Z.of_nat N - 1) ;;
  cl <- get_last (cores self) ;;
  let delta := rdiv eps (max1 (rsqrt (of_nat (N - 1)))) *! norm cl in
  foldM (round_tt_step delta rmax) (rev (seq 1 (N - 1))) self.

(** One pass of the sweep of [round_tucker], on the axis [mu]; [ndim] is
    [len(dim)]. *)
Definition round_tucker_step (eps : R) (ndim : nat) (rmax : list (option nat))
  (self : Tensor) (mu : nat) : result Tensor :=
  u <- get_item (Us self) mu ;;
  u <- match u with
       | Some u => Ok u
       | None => s <- shape self ;; sn <- get_item s mu ;; Ok (eye sn)
       end ;;
  c <- get_item (cores self) mu ;;
  (* Send non-orthogonality to factor *)
  cp <- permute021 c ;;
  m <- reshape cp [None; Some (sh c 1)] ;;
  '(Q, Rf) <- qr m ;;
  q3 <- reshape Q [Some (sh c 0); Some (sh c 2); None] ;;
  c <- permute021 q3 ;;
  rt <- transpose Rf ;;
  u <- mm u rt ;;
  (* Split factor according to error budget *)
  rm <- get_item rmax mu ;;
  '(lft, rgt) <- truncated_svd u (BEps (rdiv eps (rsqrt (of_nat ndim)))) rm true ;;
  (* Push the (non-orthogonal) remainder to the core *)
  c <- einsum_ijk_aj_iak c rgt ;;
  cs <- set_item (cores self) mu c ;;
  us <- set_item (Us self) mu (Some lft) ;;
  let self := mkTensor cs us in
  (* Prepare next iteration *)
  if 0 <? mu
  then r <- right_orthogonalize self (Z.of_nat mu) ;; Ok (fst r)
  else Ok self.

(** [round_tucker(eps, rmax)] with [dim='all'] *)
Definition round_tucker (self : Tensor) (eps : R) (rmax : option rank_arg)
  : result Tensor :=
  let N := dim self in
  let rmax := expand_rmax rmax N in
  _ <- assert (length rmax =? N) ;;
  cs <- foldM (fun cs m => c <- get_item cs m ;;
                           c' <- _cp_to_tt c ;;
                           set_item cs m c')
          (seq 0 N) (cores self) ;;
  '(self, _) <- orthogonalize (mkTensor cs (Us self)) (-1) ;;
  foldM (round_tucker_step eps N rmax) (rev (seq 0 N)) self.

(** [round(eps, rmax)] *)
Definition round (self : Tensor) (eps : R) (rmax : option rank_arg)
  : result Tensor :=
  copy <- clone self ;;
  self <- round_tt self eps rmax ;;
  reached <- relative_error copy self ;;
  if rltb reached eps
  then round_tucker self (rdiv (rI +! eps) (rI +! reached) -! rI) rmax
  else Ok self.

(** [tucker_core()] *)
Definition tucker_core (self : Tensor) : result tensor :=
  t <- Tensor_of_cores (cores self) None ;;
  torch t.

(** ** The constructor [__init__]

    The constructor is followed with a log of the decomposition routines it
    runs on the data, in the order it runs them. *)

Inductive work : Type :=
| WFullRankTT     (* [_full_rank_tt(data)] *)
| WRoundTucker    (* [self.round_tucker(rmax=ranks_tucker)] *)
| WRoundTT        (* [self.round_tt(rmax=ranks_tt)] *)
| WTuckerCore     (* [self.tucker_core()] *)
| WInitHOSVD      (* the eigenvectors of the Gram matrices *)
| WALS            (* the sweeps of alternating least squares *)
| WRound.         (* [self.round(eps)] *)

Definition traced (A : Type) : Type := (list work * result A)%type.

Definition tbind {A B : Type} (c : traced A) (k : A -> traced B) : traced B :=
  match c with
  | (w, Ok a) => let '(w', r) := k a in (w ++ w', r)
  | (w, Raise e) => (w, Raise e)
  end.

Definition lift {A : Type} (c : result A) : traced A := ([], c).

(** Run [c] and log it as [w]. *)
Definition working {A : Type} (w : work) (c : result A) : traced A := ([w], c).

Notation "x <~ c ;; k" := (tbind c (fun x => k))
  (at level 61, c at next level, right associativity).

(** The argument [data]: a list of cores, a dense array, or anything else. *)
Inductive data_arg : Type :=
| DCores (l : list tensor)
| DArray (a : tensor)
| DOther.

Record init_args : Type := mkArgs {
  a_data : data_arg;
  a_Us : option (list (option tensor));
  a_ranks_cp : option rank_arg;
  a_ranks_tucker : option rank_arg;
  a_ranks_tt : option rank_arg;
  a_eps : option R
}.

(** The numerical kernels of the CP fit are parameters: the initial factors
    from the eigenvectors of each unfolding's Gram matrix
    ([torch.symeig]), the random initial factors ([torch.randn]), and the
    sweeps of least-squares solves ([torch.gesv]) from initial factors. *)
Variable hosvd_init : tensor -> nat -> result (list tensor).
Variable randn_cores : list nat -> nat -> list tensor.
Variable als_sweeps : tensor -> nat -> list tensor -> result (list tensor).

(** The branch [if ranks_cp is not None] of the constructor, from the
    assertion on: the cores and factors it leaves in [self]. *)
Definition init_cp (data : tensor) (us : list (option tensor))
  (ranks_cp : rank_arg) (ranks_tucker : option rank_arg)
  : traced Tensor :=
  r <~ lift (match ranks_cp with
             | RInt r => Ok r
             | RList _ => Raise AssertionError
             end) ;;
  st <~ match ranks_tucker with
        | Some rt =>
            cs <~ working WFullRankTT (_full_rank_tt data) ;;
            self <~ working WRoundTucker
                      (round_tucker (mkTensor cs us) (rO) (Some rt)) ;;
            core <~ working WTuckerCore (tucker_core self) ;;
            lift (Ok (core, mkTensor (randn_cores (tshape core) r) (Us self)))
        | None =>
            cs <~ working WInitHOSVD (hosvd_init data r) ;;
            lift (Ok (data, mkTensor cs us))
        end ;;
  cs <~ working WALS (als_sweeps (fst st) r (cores (snd st))) ;;
  lift (Ok (mkTensor cs (Us (snd st)))).

(** [Tensor(data, Us=, ranks_cp=, ranks_tucker=, ranks_tt=, eps=)] *)
Definition Tensor_init (a : init_args) : traced Tensor :=
  (* the cores, for a list; the array and its dimension otherwise *)
  st <~ lift (match a_data a with
              | DCores data =>
                  if negb (core_dims_ok data) then Raise ValueError
                  else if negb (core_ranks_ok data) then Raise ValueError
                  else Ok (data, length data)
              | DArray data => Ok ([], tdim data)
              | DOther => Raise ValueError
              end) ;;
  let '(cs, N) := st in
  let us := match a_Us a with
            | None => repeat None N
            | Some l => l
            end in
  (* [self] and the list that the check of the factor shapes reads *)
  st <~ match a_data a with
        | DArray data =>
            let data := if tdim data =? 0
                        then mkT [1] (tdata data) else data in
            match a_ranks_cp a with
            | Some rcp =>
                _ <~ lift (match a_ranks_tt a with
                           | Some _ => Raise ValueError
                           | None => Ok tt
                           end) ;;
                self <~ init_cp data us rcp (a_ranks_tucker a) ;;
                lift (Ok (self, Us self))
            | None =>
                cs <~ working WFullRankTT (_full_rank_tt data) ;;
                let self := mkTensor cs (repeat None (tdim data)) in
                self <~ match a_ranks_tucker a with
                        | Some rt => working WRoundTucker
                                       (round_tucker self rO (Some rt))
                        | None => lift (Ok self)
                        end ;;
                self <~ match a_ranks_tt a with
                        | Some rt => working WRoundTT
                                       (round_tt self rO (Some rt))
                        | None => lift (Ok self)
                        end ;;
                lift (Ok (self, us))
            end
        | _ => lift (Ok (mkTensor cs us, us))
        end ;;
  let '(self, us_checked) := st in
  (* Check factor shapes *)
  _ <~ lift (check_factors (cores self) us_checked) ;;
  (* [idxs] defaults to the ranges of [self.shape] *)
  _ <~ lift (shape self) ;;
  match a_eps a with
  | Some eps =>
      match a_ranks_cp a, a_ranks_tucker a, a_ranks_tt a with
      | None, None, None => working WRound (round self eps None)
      | _, _, _ => lift (Raise ValueError)
      end
  | None => lift (Ok self)
  end.

(** ** Networks as objects

    A [Tensor] of the program is an object whose attributes [cores] and
    [Us] refer to Python lists, and a list may be changed in place.  Where
    it matters which lists a method writes to, the lists are kept in a store
    and an object holds the two positions of its lists.  The arrays in the
    lists are values: [repeat] and [clone] of torch make new arrays. *)

Record store : Type := mkStore {
  core_lists : list (list tensor);
  factor_lists : list (list (option tensor))
}.

Record object : Type := mkObject {
  cores_ref : nat;
  Us_ref : nat
}.

Definition read_cores (h : store) (o : object) : result (list tensor) :=
  get_item (core_lists h) (cores_ref o).

Definition read_Us (h : store) (o : object)
  : result (list (option tensor)) :=
  get_item (factor_lists h) (Us_ref o).

Definition write_cores (h : store) (o : object) (l : list tensor)
  : result store :=
  ls <- set_item (core_lists h) (cores_ref o) l ;;
  Ok (mkStore ls (factor_lists h)).

Definition write_Us (h : store) (o : object) (l : list (option tensor))
  : result store :=
  ls <- set_item (factor_lists h) (Us_ref o) l ;;
  Ok (mkStore (core_lists h) ls).

(** The network an object stands for in a store. *)
Definition load (h : store) (o : object) : result Tensor :=
  cs <- read_cores h o ;;
  us <- read_Us h o ;;
  Ok (mkTensor cs us).

(** A new object with lists of its own. *)
Definition new_object (h : store) (t : Tensor) : store * object :=
  (mkStore (core_lists h ++ [cores t]) (factor_lists h ++ [Us t]),
   mkObject (length (core_lists h)) (length (factor_lists h))).

(** [self.clone()]: the copy has new lists. *)
Definition obj_clone (h : store) (self : object) : result (store * object) :=
  s <- load h self ;;
  t <- clone s ;;
  Ok (new_object h t).

(** One pass of the loop of [repeat] that adds the trailing axes:
    [t.cores.append(torch.ones(rep[n], self.cores[-1].shape[-1]))] and
    [t.Us.append(None)]. *)
Definition append_axis (self t : object) (rep : list nat) (h : store)
  (n : nat) : result store :=
  r <- get_item rep n ;;
  self_cores <- read_cores h self ;;
  cl <- get_last self_cores ;;
  cs <- read_cores h t ;;
  h <- write_cores h t (cs ++ [ones [r; shr cl 1]]) ;;
  us <- read_Us h t ;;
  write_Us h t (us ++ [None]).

(** One pass of the last loop of [repeat]: [t.Us[n]] or [t.cores[n]] is
    replaced by its repetition. *)
Definition repeat_axis (t : object) (rep : list nat) (h : store) (n : nat)
  : result store :=
  us <- read_Us h t ;;
  u <- get_item us n ;;
  match u with
  | Some U =>
      r <- get_item rep n ;;
      U' <- trepeat U [r; 1] ;;
      us' <- set_item us n (Some U') ;;
      write_Us h t us'
  | None =>
      cs <- read_cores h t ;;
      c <- get_item cs n ;;
      r <- get_item rep n ;;
      c' <- (if tdim c =? 3 then trepeat c [1; r; 1]
             else trepeat c [r; 1]) ;;
      cs' <- set_item cs n c' ;;
      write_cores h t cs'
  end.

(** [self.repeat] with the arguments [rep], on objects: the method works on
    the copy [t] and returns it. *)
Definition obj_repeat (h : store) (self : object) (rep : list nat)
  : result (store * object) :=
  s <- load h self ;;
  _ <- assert (dim s <=? length rep) ;;
  _ <- assert (forallb (fun r => 1 <=? r) rep) ;;
  '(h, t) <- obj_clone h self ;;
  s <- load h self ;;
  h <- (if dim s <? length rep
        then foldM (append_axis self t rep)
               (seq (dim s) (length rep - dim s)) h
        else Ok h) ;;
  s <- load h self ;;
  h <- foldM (repeat_axis t rep) (seq 0 (dim s)) h ;;
  Ok (h, t).

(** ** Indexing: [_process_key] and [__getitem__]

    A key is a tuple of integers, slices, index arrays (lists of integers),
    [None] and [Ellipsis].  A mask tensor as key and a 2-D array as key are
    not followed here. *)

Inductive key_item : Type :=
| KInt (i : Z)
| KSlice (start stop step : option Z)
| KIndex (l : list Z)
| KNone
| KEllipsis.

(** [slice(None)] *)
Definition full_slice : key_item := KSlice None None None.

Definition is_none (k : key_item) : bool :=
  match k with KNone => true | _ => false end.

Definition is_ellipsis (k : key_item) : bool :=
  match k with KEllipsis => true | _ => false end.

(** The first [Ellipsis] of the key becomes [fill] full slices. *)
Fixpoint expand_ellipsis (key : list key_item) (fill : nat)
  : list key_item :=
  match key with
  | [] => []
  | KEllipsis :: rest => repeat full_slice fill ++ rest
  | k :: rest => k :: expand_ellipsis rest fill
  end.

(** [_process_key(key)], for a key that is a tuple.  A list times a
    negative number is the empty list in Python. *)
Definition _process_key (self : Tensor) (key : list key_item)
  : result (list key_item) :=
  let nonecount := length (filter is_none key) in
  let N := Z.of_nat (dim self) in
  let key := expand_ellipsis key
               (Z.to_nat (N - (Z.of_nat (length key) - Z.of_nat nonecount)
                          + 1)) in
  if existsb is_ellipsis key then Raise IndexError
  else
    let missing := (N - (Z.of_nat (length key) - Z.of_nat nonecount))%Z in
    if (missing <? 0)%Z then Raise IndexError
    else Ok (key ++ repeat full_slice (Z.to_nat missing)).

(** *** Indexing one axis of a torch tensor *)

(** An integer index on an axis of size [s]: negative integers count from
    the end. *)
Definition norm_index (s : nat) (i : Z) : result nat :=
  if ((i <? - Z.of_nat s) || (Z.of_nat s <=? i))%Z then Raise IndexError
  else Ok (Z.to_nat (if (i <? 0)%Z then i + Z.of_nat s else i)%Z).

(** Python's [slice.indices]: a bound is counted from the end when it is
    negative and brought into the range; the range is [0 .. s] for a
    positive step and [-1 .. s-1] for a negative one. *)
Definition clamp_bound (s : nat) (lower upper : Z) (b : Z) : Z :=
  if (b <? 0)%Z then Z.max (b + Z.of_nat s) lower else Z.min b upper.

Definition slice_start (s : nat) (start : option Z) (step : Z) : Z :=
  let lower := if (step <? 0)%Z then (-1)%Z else 0%Z in
  let upper := if (step <? 0)%Z then (Z.of_nat s - 1)%Z else Z.of_nat s in
  match start with
  | None => if (step <? 0)%Z then upper else lower
  | Some b => clamp_bound s lower upper b
  end.

Definition slice_stop (s : nat) (stop : option Z) (step : Z) : Z :=
  let lower := if (step <? 0)%Z then (-1)%Z else 0%Z in
  let upper := if (step <? 0)%Z then (Z.of_nat s - 1)%Z else Z.of_nat s in
  match stop with
  | None => if (step <? 0)%Z then lower else upper
  | Some b => clamp_bound s lower upper b
  end.

Definition slice_length (start stop step : Z) : nat :=
  if (0 <? step)%Z
  then if (start <? stop)%Z then Z.to_nat ((stop - start - 1) / step + 1)
       else 0
  else if (stop <? start)%Z
       then Z.to_nat ((start - stop - 1) / (- step) + 1)
       else 0.

(** The positions a slice selects on an axis of size [s], for a step that
    is not zero. *)
Definition slice_positions (s : nat) (start stop : option Z) (step : Z)
  : list nat :=
  let a := slice_start s start step in
  let b := slice_stop s stop step in
  map (fun j => Z.to_nat (a + Z.of_nat j * step))
    (seq 0 (slice_length a b step)).

Definition step_of (step : option Z) : Z :=
  match step with None => 1%Z | Some c => c end.

(** What an index selects on an axis of size [s] of a torch tensor: one
    position, or a list of positions.  torch accepts no slice step below
    one. *)
Definition torch_select (s : nat) (k : key_item) : result (nat + list nat) :=
  match k with
  | KInt i => n <- norm_index s i ;; Ok (inl n)
  | KSlice start stop step =>
      if (step_of step <=? 0)%Z then Raise ValueError
      else Ok (inr (slice_positions s start stop (step_of step)))
  | KIndex l => pos <- mapM (norm_index s) l ;; Ok (inr pos)
  | KNone | KEllipsis => Raise TypeError
  end.

(** The position [i] of axis [d]: the axis goes. *)
Definition select (t : tensor) (d i : nat) : tensor :=
  build (del (tshape t) d) (fun idx => get t (ins idx d i)).

(** The positions [pos] of axis [d]: the axis has one entry for each. *)
Definition take (t : tensor) (d : nat) (pos : list nat) : tensor :=
  build (upd (tshape t) d (length pos))
    (fun idx => get t (upd idx d (nth (nth d idx 0) pos 0))).

Definition index_axis (t : tensor) (d : nat) (k : key_item) : result tensor :=
  x <- torch_select (nth d (tshape t) 0) k ;;
  match x with
  | inl i => Ok (select t d i)
  | inr pos => Ok (take t d pos)
  end.

(** [t[..., k, :]] and [U[k, :]] *)
Definition index_mid (t : tensor) (k : key_item) : result tensor :=
  if tdim t <? 2 then Raise IndexError else index_axis t (tdim t - 2) k.

Definition index_rows (u : tensor) (k : key_item) : result tensor :=
  if tdim u <? 2 then Raise IndexError else index_axis u 0 k.

(** *** The contractions of [__getitem__] *)

(** A contraction of two operands, given the shapes it accepts. *)
Definition einsum_by (x y : tensor)
  (f : list nat -> list nat -> option tensor) : result tensor :=
  match f (tshape x) (tshape y) with
  | Some r => Ok r
  | None => Raise RuntimeError
  end.

(** ['i,ai->ai'] *)
Definition einsum_i_ai_ai (x y : tensor) : result tensor :=
  einsum_by x y (fun sx sy =>
    match sx, sy with
    | [i], [a; i'] =>
        if i =? i' then Some (build2 a i (fun p q => get x [q] *! get y [p; q]))
        else None
    | _, _ => None
    end).

(** ['ij,aj->iaj'] *)
Definition einsum_ij_aj_iaj (x y : tensor) : result tensor :=
  einsum_by x y (fun sx sy =>
    match sx, sy with
    | [i; j], [a; j'] =>
        if j =? j'
        then Some (build3 i a j (fun p q r => get x [p; r] *! get y [q; r]))
        else None
    | _, _ => None
    end).

(** ['i,iaj->iaj'] *)
Definition einsum_i_iaj_iaj (x y : tensor) : result tensor :=
  einsum_by x y (fun sx sy =>
    match sx, sy with
    | [i], [i'; a; j] =>
        if i =? i'
        then Some (build3 i a j (fun p q r => get x [p] *! get y [p; q; r]))
        else None
    | _, _ => None
    end).

(** ['ij,jak->iak'] *)
Definition einsum_ij_jak_iak (x y : tensor) : result tensor :=
  einsum_by x y (fun sx sy =>
    match sx, sy with
    | [i; j], [j'; a; k] =>
        if j =? j'
        then Some (build3 i a k (fun p q r =>
                     rsum j (fun m => get x [p; m] *! get y [m; q; r])))
        else None
    | _, _ => None
    end).

(** ['ijk,j->ik'] *)
Definition einsum_ijk_j_ik (x y : tensor) : result tensor :=
  einsum_by x y (fun sx sy =>
    match sx, sy with
    | [i; j; k], [j'] =>
        if j =? j'
        then Some (build2 i k (fun p r =>
                     rsum j (fun m => get x [p; m; r] *! get y [m])))
        else None
    | _, _ => None
    end).

(** ['ji,j->i'] *)
Definition einsum_ji_j_i (x y : tensor) : result tensor :=
  einsum_by x y (fun sx sy =>
    match sx, sy with
    | [j; i], [j'] =>
        if j =? j'
        then Some (build1 i (fun p =>
                     rsum j (fun m => get x [m; p] *! get y [m])))
        else None
    | _, _ => None
    end).

(** ['ai,ai->ai'] *)
Definition einsum_ai_ai_ai (x y : tensor) : result tensor :=
  einsum_by x y (fun sx sy =>
    match sx, sy with
    | [a; i], [a'; i'] =>
        if (a =? a') && (i =? i')
        then Some (build2 a i (fun p q => get x [p; q] *! get y [p; q]))
        else None
    | _, _ => None
    end).

(** ['ai,iaj->iaj'] *)
Definition einsum_ai_iaj_iaj (x y : tensor) : result tensor :=
  einsum_by x y (fun sx sy =>
    match sx, sy with
    | [a; i], [i'; a'; j] =>
        if (a =? a') && (i =? i')
        then Some (build3 i a j (fun p q r => get x [q; p] *! get y [p; q; r]))
        else None
    | _, _ => None
    end).

(** ['iaj,aj->iaj'] *)
Definition einsum_iaj_aj_iaj (x y : tensor) : result tensor :=
  einsum_by x y (fun sx sy =>
    match sx, sy with
    | [i; a; j], [a'; j'] =>
        if (a =? a') && (j =? j')
        then Some (build3 i a j (fun p q r => get x [p; q; r] *! get y [q; r]))
        else None
    | _, _ => None
    end).

(** [torch.sum(a1[:, :, :, None] * a2.permute(1, 0, 2)[None, :, :, :],
    dim=2)], which is ['iaj,jak->iak']: the product is broadcast over the
    shapes [(i, a, j, 1)] and [(1, a', j', k)]. *)
Definition sum_iaj_jak_iak (x y : tensor) : result tensor :=
  match tshape x, tshape y with
  | [i; a; j], [j'; a'; k] =>
      a'' <- bsize a a' ;;
      j'' <- bsize j j' ;;
      Ok (build3 i a'' k (fun p q r =>
            rsum j'' (fun m =>
              get x [p; if a =? 1 then 0 else q; if j =? 1 then 0 else m]
              *! get y [if j' =? 1 then 0 else m;
                        if a' =? 1 then 0 else q; r])))
  | _, _ => Raise RuntimeError
  end.

(** ['i,i->i'] *)
Definition einsum_i_i_i (x y : tensor) : result tensor :=
  einsum_by x y (fun sx sy =>
    match sx, sy with
    | [i], [i'] =>
        if i =? i' then Some (build1 i (fun p => get x [p] *! get y [p]))
        else None
    | _, _ => None
    end).

(** ['i,ij->ij'] *)
Definition einsum_i_ij_ij (x y : tensor) : result tensor :=
  einsum_by x y (fun sx sy =>
    match sx, sy with
    | [i], [i'; j] =>
        if i =? i'
        then Some (build2 i j (fun p q => get x [p] *! get y [p; q]))
        else None
    | _, _ => None
    end).

(** ['ij,j->ij'] *)
Definition einsum_ij_j_ij (x y : tensor) : result tensor :=
  einsum_by x y (fun sx sy =>
    match sx, sy with
    | [i; j], [j'] =>
        if j =? j'
        then Some (build2 i j (fun p q => get x [p; q] *! get y [q]))
        else None
    | _, _ => None
    end).

(** ['ij,jk->ik'] *)
Definition einsum_ij_jk_ik (x y : tensor) : result tensor :=
  einsum_by x y (fun sx sy =>
    match sx, sy with
    | [i; j], [j'; k] =>
        if j =? j'
        then Some (build2 i k (fun p q =>
                     rsum j (fun m => get x [p; m] *! get y [m; q])))
        else None
    | _, _ => None
    end).

(** ['ai,i->ai'] *)
Definition einsum_ai_i_ai (x y : tensor) : result tensor :=
  einsum_by x y (fun sx sy =>
    match sx, sy with
    | [a; i], [i'] =>
        if i =? i'
        then Some (build2 a i (fun p q => get x [p; q] *! get y [q]))
        else None
    | _, _ => None
    end).

(** ['ai,ij->iaj'] *)
Definition einsum_ai_ij_iaj (x y : tensor) : result tensor :=
  einsum_by x y (fun sx sy =>
    match sx, sy with
    | [a; i], [i'; j] =>
        if i =? i'
        then Some (build3 i a j (fun p q r => get x [q; p] *! get y [p; r]))
        else None
    | _, _ => None
    end).

(** ['iaj,j->ai'] *)
Definition einsum_iaj_j_ai (x y : tensor) : result tensor :=
  einsum_by x y (fun sx sy =>
    match sx, sy with
    | [i; a; j], [j'] =>
        if j =? j'
        then Some (build2 a i (fun q p =>
                     rsum j (fun m => get x [p; q; m] *! get y [m])))
        else None
    | _, _ => None
    end).

(** ['iaj,jk->iak'] *)
Definition einsum_iaj_jk_iak (x y : tensor) : result tensor :=
  einsum_by x y (fun sx sy =>
    match sx, sy with
    | [i; a; j], [j'; k] =>
        if j =? j'
        then Some (build3 i a k (fun p q r =>
                     rsum j (fun m => get x [p; q; m] *! get y [m; r])))
        else None
    | _, _ => None
    end).

(** *** The loop of [__getitem__] *)

Inductive mode : Type := MIndex | MNone | MInt | MSlice.

(** The dictionary [factors], the lists [cores] and [Us] under
    construction, [counter] and [last_mode]. *)
Record getitem_state : Type := mkState {
  f_int : option tensor;
  f_index : option tensor;
  index_done : bool;
  g_cores : list tensor;
  g_Us : list (option tensor);
  counter : nat;
  last_mode : option mode
}.

(** [join_cores(c1, c2)] *)
Definition join_cores (c1 c2 : tensor) : result tensor :=
  match tdim c1, tdim c2 with
  | 1, 2 => einsum_i_ai_ai c1 c2
  | 2, 2 => einsum_ij_aj_iaj c1 c2
  | 1, 3 => einsum_i_iaj_iaj c1 c2
  | 2, 3 => einsum_ij_jak_iak c1 c2
  | _, _ => Raise ValueError
  end.

(** The first half of [insert_core]: a pending index factor, joined with a
    pending integer factor, becomes a core. *)
Definition flush_index (st : getitem_state) : result getitem_state :=
  match f_index st with
  | None => Ok st
  | Some fi =>
      fi' <- match f_int st with
             | Some fn => join_cores fn fi
             | None => Ok fi
             end ;;
      Ok (mkState None None true (g_cores st ++ [fi']) (g_Us st ++ [None])
            (counter st) (last_mode st))
  end.

(** The second half of [insert_core(factors, core, key, U)]. *)
Definition append_core (st : getitem_state) (core : tensor) (key : key_item)
  (U : option tensor) : result getitem_state :=
  '(c, u) <- match f_int st, U with
             | Some fn, None =>
                 ck <- index_mid core key ;;
                 c <- join_cores fn ck ;; Ok (c, None)
             | Some fn, Some U =>
                 c <- join_cores fn core ;;
                 u <- index_rows U key ;; Ok (c, Some u)
             | None, None =>
                 ck <- index_mid core key ;; Ok (ck, None)
             | None, Some U =>
                 u <- index_rows U key ;; Ok (core, Some u)
             end ;;
  Ok (mkState None (f_index st) (index_done st) (g_cores st ++ [c])
        (g_Us st ++ [u]) (counter st) (last_mode st)).

(** [insert_core(factors, core, key, U)] *)
Definition insert_core (st : getitem_state)
  (arg : option (tensor * key_item * option tensor))
  : result getitem_state :=
  st <- flush_index st ;;
  match arg with
  | None => Ok st
  | Some (core, key, U) => append_core st core key U
  end.

(** [get_key(counter, key)] *)
Definition get_key (self : Tensor) (counter : nat) (key : key_item)
  : result tensor :=
  u <- get_item (Us self) counter ;;
  c <- get_item (cores self) counter ;;
  match u with
  | None => index_mid c key
  | Some U =>
      sl <- index_rows U key ;;
      if tdim sl =? 1
      then if tdim c =? 3 then einsum_ijk_j_ik c sl else einsum_ji_j_i c sl
      else if tdim c =? 3 then einsum_ijk_aj_iak c sl
           else einsum_jk_aj_ak c sl
  end.

(** [torch.eye(r)[:, None, :]] *)
Definition eye_core (r : nat) : tensor :=
  build3 r 1 r (fun i _ j => delta i j).

(** Two index factors on consecutive axes. *)
Definition merge_index (a1 a2 : tensor) : result tensor :=
  match tdim a1, tdim a2 with
  | 2, 2 => einsum_ai_ai_ai a1 a2
  | 2, 3 => einsum_ai_iaj_iaj a1 a2
  | 3, 2 => einsum_iaj_aj_iaj a1 a2
  | 3, 3 => sum_iaj_jak_iak a1 a2
  | _, _ => Ok a1
  end.

(** Two integer factors on consecutive axes. *)
Definition merge_int (c1 c2 : tensor) : result tensor :=
  match tdim c1, tdim c2 with
  | 1, 1 => einsum_i_i_i c1 c2
  | 1, 2 => einsum_i_ij_ij c1 c2
  | 2, 1 => einsum_ij_j_ij c1 c2
  | 2, 2 => einsum_ij_jk_ik c1 c2
  | _, _ => Ok c1
  end.

Definition key_length (k : key_item) : nat :=
  match k with KIndex l => length l | _ => 0 end.

(** One pass of the loop over the key. *)
Definition getitem_step (self : Tensor) (st : getitem_state)
  (k : key_item) : result getitem_state :=
  match k with
  | KEllipsis => Raise IndexError
  | KNone =>
      r <- ranks_tt self ;;
      rc <- get_item r (counter st) ;;
      st <- insert_core st (Some (eye_core rc, full_slice, None)) ;;
      Ok (mkState (f_int st) (f_index st) (index_done st) (g_cores st)
            (g_Us st) (counter st) (Some MNone))
  | KSlice _ _ _ =>
      c <- get_item (cores self) (counter st) ;;
      u <- get_item (Us self) (counter st) ;;
      st <- insert_core st (Some (c, k, u)) ;;
      Ok (mkState (f_int st) (f_index st) (index_done st) (g_cores st)
            (g_Us st) (counter st + 1) (Some MSlice))
  | KIndex _ =>
      if index_done st then Raise IndexError
      else
        fi <- match f_index st with
              | None => get_key self (counter st) k
              | Some a1 =>
                  if negb (shr a1 2 =? key_length k) then Raise ValueError
                  else a2 <- get_key self (counter st) k ;; merge_index a1 a2
              end ;;
        Ok (mkState (f_int st) (Some fi) (index_done st) (g_cores st)
              (g_Us st) (counter st + 1) (Some MIndex))
  | KInt _ =>
      st <- match last_mode st with
            | Some MIndex => insert_core st None
            | _ => Ok st
            end ;;
      fn <- match f_int st with
            | None => get_key self (counter st) k
            | Some c1 => c2 <- get_key self (counter st) k ;; merge_int c1 c2
            end ;;
      Ok (mkState (Some fn) (f_index st) (index_done st) (g_cores st)
            (g_Us st) (counter st + 1) (Some MInt))
  end.

(** The pending integer factor goes into the last core. *)
Definition absorb_int (c fn : tensor) : result tensor :=
  match tdim c, tdim fn with
  | 2, 1 => einsum_ai_i_ai c fn
  | 2, 2 => einsum_ai_ij_iaj c fn
  | 3, 1 => einsum_iaj_j_ai c fn
  | 3, 2 => einsum_iaj_jk_iak c fn
  | _, _ => Ok c
  end.

(** [torch.sum(t)] and [torch.squeeze(t)] of a tensor with one entry: a
    tensor without axes. *)
Definition sum_all (t : tensor) : tensor :=
  mkT [] [rsum (length (tdata t)) (fun k => nth k (tdata t) rO)].

Definition squeeze_all (t : tensor) : tensor := mkT [] (tdata t).

(** [__getitem__] returns a number (a torch tensor without axes) when every
    axis is indexed by an integer, and a network otherwise. *)
Inductive item : Type :=
| Number (x : tensor)
| Network (t : Tensor).

Definition finish (st : getitem_state) : result item :=
  match last_mode st with
  | Some MIndex =>
      st <- insert_core st None ;;
      t <- Tensor_of_cores (g_cores st) (Some (g_Us st)) ;;
      Ok (Network t)
  | Some MInt =>
      match f_int st with
      | None => Raise TypeError
      | Some fn =>
          if 0 <? length (g_cores st)
          then cl <- get_last (g_cores st) ;;
               cl' <- absorb_int cl fn ;;
               cs <- set_last (g_cores st) cl' ;;
               t <- Tensor_of_cores cs (Some (g_Us st)) ;;
               Ok (Network t)
          else if 1 <? numel (tshape fn) then Ok (Number (sum_all fn))
               else Ok (Number (squeeze_all fn))
      end
  | _ =>
      t <- Tensor_of_cores (g_cores st) (Some (g_Us st)) ;;
      Ok (Network t)
  end.

Definition __getitem__ (self : Tensor) (key : list key_item) : result item :=
  key <- _process_key self key ;;
  st <- foldM (getitem_step self) key
          (mkState None None false [] [] 0 None) ;;
  finish st.

(** ** Subtraction, negation and the Boolean operators *)

(** [-1*other]: a network goes through [__rmul__], that is through
    [other * -1]; a number is multiplied; [None] has no product. *)
Definition minus_operand (other : operand) : result operand :=
  match other with
  | OTensor t => t' <- __mul__ t (OScalar (ropp rI)) ;; Ok (OTensor t')
  | OScalar c => Ok (OScalar (ropp rI *! c))
  | ONone => Raise TypeError
  end.

(** [self.__rmul__(other)]: [self * other] *)
Definition __rmul__ (self : Tensor) (other : operand) : result Tensor :=
  __mul__ self other.

(** [self.__sub__(other)]: [self + -1*other] *)
Definition __sub__ (self : Tensor) (other : operand) : result Tensor :=
  o <- minus_operand other ;;
  __add__ self o.

(** [self.__rsub__(other)]: [-1*self + other] *)
Definition __rsub__ (self : Tensor) (other : operand) : result Tensor :=
  m <- __rmul__ self (OScalar (ropp rI)) ;;
  __add__ m other.

(** [self.__neg__()]: [-1*self] *)
Definition __neg__ (self : Tensor) : result Tensor :=
  __rmul__ self (OScalar (ropp rI)).

(** [self.__invert__()]: [1 - self], which Python hands to [__rsub__] *)
Definition __invert__ (self : Tensor) : result Tensor :=
  __rsub__ self (OScalar rI).

(** [self.__and__(other)]: [self*other] *)
Definition __and__ (self : Tensor) (other : operand) : result Tensor :=
  __mul__ self other.

(** [self.__or__(other)]: [self+other - self*other] *)
Definition __or__ (self : Tensor) (other : operand) : result Tensor :=
  s <- __add__ self other ;;
  p <- __mul__ self other ;;
  __sub__ s (OTensor p).

(** [self.__xor__(other)]: [self+other - 2*self*other] *)
Definition __xor__ (self : Tensor) (other : operand) : result Tensor :=
  s <- __add__ self other ;;
  d <- __rmul__ self (OScalar (rI +! rI)) ;;
  p <- __mul__ d other ;;
  __sub__ s (OTensor p).

(** ** The cast to the TT format *)

(** [self.tt()]: the Tucker factors are contracted into a copy of the
    network, then every CP factor of the copy becomes a TT core. *)
Definition Tensor_tt (self : Tensor) : result Tensor :=
  t <- decompress_tucker_factors self ;;
  cp_to_tt_all t.

(** ** Quantities used in the statements *)

(** Products of the leading and of the trailing sizes of a shape. *)
Definition Pn (sp : list nat) (n : nat) : nat := numel (firstn n sp).
Definition Qn (sp : list nat) (n : nat) : nat := numel (skipn n sp).

(** The rank of the unfolding that separates the first [n] axes from the
    others: the bond rank of a TT format that does not compress. *)
Definition tt_rank (sp : list nat) (n : nat) : nat :=
  Nat.min (Pn sp n) (Qn sp n).

Definition positive (sp : list nat) : Prop := Forall (fun n => 0 < n) sp.

(** The state of [_full_rank_tt] once [m] cores are built, for the array
    [data]: [F] is what the decompression loop makes of those cores, and
    [F] times the pending unfolding [resh] is still the array. *)
Definition fr_inv (data : tensor) (m : nat) (st : list tensor * tensor)
  (F : tensor) : Prop :=
  let sp := tshape data in
  let r := tt_rank sp m in
  let s := nth m sp 0 in
  map tshape (fst st)
  = map (fun k => [tt_rank sp k; nth k sp 0; tt_rank sp (S k)]) (seq 0 m)
  /\ Forall wf (fst st)
  /\ foldM (torch_step (length sp)) (combine (seq 0 m) (fst st)) (ones [1; 1])
     = Ok F
  /\ wf F /\ tshape F = [Pn sp m; r]
  /\ wf (snd st) /\ tshape (snd st) = [r * s; Qn sp (S m)]
  /\ forall p i q, p < Pn sp m -> i < s -> q < Qn sp (S m) ->
       rsum r (fun a => get F [p; a] *! get (snd st) [a * s + i; q])
       = nth ((p * s + i) * Qn sp (S m) + q) (tdata data) rO.

(** A traced computation that ends in an exception. *)
Definition traises {A : Type} (c : traced A) : Prop :=
  exists w e, c = (w, Raise e).

(** Does the call supply a rank option? *)
Definition has_rank_option (a : init_args) : bool :=
  match a_ranks_cp a, a_ranks_tucker a, a_ranks_tt a with
  | None, None, None => false
  | _, _, _ => true
  end.

(** The tensor that stands for a missing list element. *)
Definition tnil : tensor := mkT [] [].

(** Is axis [n] held by a CP factor (a 2-index core) in both networks? *)
Definition cp_pair (a b : Tensor) (n : nat) : bool :=
  (tdim (nth n (cores a) tnil) =? 2) && (tdim (nth n (cores b) tnil) =? 2).

(** A CP network without Tucker factors: its cores are matrices of shapes
    [(I_n, r)] for the sizes [I_n] of [sp] and one rank [r]. *)
Definition cp_network (t : Tensor) (sp : list nat) (r : nat) : Prop :=
  map tshape (cores t) = map (fun n => [n; r]) sp
  /\ Us t = repeat None (length sp)
  /\ Forall wf (cores t).

(** ** What a chain of cores stands for

    The decompression loop carries a matrix with one row per multi-index
    read so far.  A row is followed here as a vector [v]: a core turns it
    into the next one, given the index on the core's axis. *)

Definition is_nil {A : Type} (l : list A) : bool :=
  match l with [] => true | _ => false end.

(** The rank a core takes in and the rank it hands on ([last] tells whether
    the core is the last of the network), and the size of its axis. *)
Definition in_rank (c : tensor) : nat :=
  match tshape c with
  | [r; _; _] => r
  | [_; r] => r
  | _ => 0
  end.

Definition out_rank (last : bool) (c : tensor) : nat :=
  match tshape c with
  | [_; _; r'] => r'
  | [_; r] => if last then 1 else r
  | _ => 0
  end.

Definition mid (c : tensor) : nat := shr c 2.

Definition vec_step (last : bool) (c : tensor) (b : nat) (v : nat -> R)
  : nat -> R :=
  match tshape c with
  | [r; _; _] => fun j => rsum r (fun i => v i *! get c [i; b; j])
  | [_; r] => if last
              then fun _ => rsum r (fun i => v i *! get c [b; i])
              else fun j => v j *! get c [b; j]
  | _ => fun _ => rO
  end.

(** A list of cores is followed through from left to right; [more] tells
    whether other cores come after the list, so that its last core is not
    the last of the network. *)
Definition is_last {A : Type} (more : bool) (rest : list A) : bool :=
  if more then false else is_nil rest.

Fixpoint vec_chain (more : bool) (cs : list tensor) (idx : list nat)
  (v : nat -> R) : nat -> R :=
  match cs, idx with
  | c :: cs', b :: idx' =>
      vec_chain more cs' idx' (vec_step (is_last more cs') c b v)
  | _, _ => v
  end.

Fixpoint width_after (more : bool) (cs : list tensor) (w : nat) : nat :=
  match cs with
  | [] => w
  | c :: cs' => width_after more cs' (out_rank (is_last more cs') c)
  end.

(** Cores that chain up from the rank [w]: each is a CP factor or a TT
    core that takes in the rank handed on to it and hands on a rank that is
    not zero. *)
Fixpoint chain (more : bool) (w : nat) (cs : list tensor) : Prop :=
  match cs with
  | [] => True
  | c :: cs' =>
      (tdim c = 2 \/ tdim c = 3) /\ in_rank c = w
      /\ out_rank (is_last more cs') c <> 0
      /\ chain more (out_rank (is_last more cs') c) cs'
  end.

(** The entry of the array at a multi-index: the vector of ones goes
    through the chain and its components are added up. *)
Definition entry (cs : list tensor) (idx : list nat) : R :=
  match cs with
  | [] => rO
  | c0 :: _ =>
      rsum (width_after false cs (in_rank c0))
        (vec_chain false cs idx (fun _ => rI))
  end.

(** The invariant of a network, with the cores [ds] it stands for: it has
    a core, its Tucker factors contract into its cores, giving [ds], and
    these chain up from the rank the first of them takes in. *)
Definition valid (t : Tensor) (ds : list tensor) : Prop :=
  ds <> [] /\ decompress_cores (cores t) (Us t) = Ok ds
  /\ chain false (in_rank (hd tnil ds)) ds.

(** [d'] is [d] repeated [r] times along its axis. *)
Definition tiled (r : nat) (d d' : tensor) : Prop :=
  tdim d' = tdim d /\ in_rank d' = in_rank d
  /\ (forall last, out_rank last d' = out_rank last d)
  /\ mid d' = r * mid d
  /\ forall last b v j,
       b < r * mid d -> j < out_rank last d ->
       vec_step last d' b v j = vec_step last d (b mod mid d) v j.

(** The dense array [A] repeated: [reps[n]] times along axis [n], and
    along new trailing axes of the sizes the other [reps] give. *)
Definition tile_shape (sp reps : list nat) : list nat :=
  zip_with Nat.mul (firstn (length sp) reps) sp ++ skipn (length sp) reps.

Definition tile (A : tensor) (reps : list nat) : tensor :=
  build (tile_shape (tshape A) reps)
    (fun idx => get A (zip_with Nat.modulo (firstn (tdim A) idx) (tshape A))).

(** [ds'] holds the cores [ds], the one of axis [n] repeated [rep[n]]
    times. *)
Fixpoint tiled_all (rep : list nat) (ds ds' : list tensor) {struct ds}
  : Prop :=
  match ds, ds' with
  | [], [] => True
  | d :: ds1, d' :: ds1' =>
      match rep with
      | r :: rep1 => tiled r d d' /\ tiled_all rep1 ds1 ds1'
      | [] => False
      end
  | _, _ => False
  end.

(** A core [c] and its contraction [d] with a Tucker factor agree on the
    number of dimensions and on the ranks at both ends. *)
Definition same_ends (c d : tensor) : Prop :=
  tdim d = tdim c /\ shr d 1 = shr c 1 /\ in_rank d = in_rank c.

(** ** The reference for indexing: NumPy's [A[key]]

    What NumPy selects with a key of integers, slices, index arrays,
    [None] and [Ellipsis] on a dense array.  Index arrays of different
    lengths, which NumPy would broadcast when one of them has length 1, are
    refused here: the specification asks for equal lengths. *)

(** What a key entry does to the array: it fixes a position of an axis,
    keeps some positions of an axis (a slice), picks positions of an axis
    along the axis shared by the index arrays, or adds an axis of size 1. *)
Inductive sel : Type :=
| SInt (n : nat)
| STake (pos : list nat)
| SArr (pos : list nat)
| SNew.

Definition is_arr (s : sel) : bool :=
  match s with SArr _ => true | _ => false end.

Definition is_sint (s : sel) : bool :=
  match s with SInt _ => true | _ => false end.

Definition np_select (s : nat) (k : key_item) : result sel :=
  match k with
  | KInt i => n <- norm_index s i ;; Ok (SInt n)
  | KSlice start stop step =>
      if (step_of step =? 0)%Z then Raise ValueError
      else Ok (STake (slice_positions s start stop (step_of step)))
  | KIndex l => pos <- mapM (norm_index s) l ;; Ok (SArr pos)
  | KNone | KEllipsis => Raise IndexError
  end.

(** The entries of the key that take an axis of the array. *)
Definition takes_axis (k : key_item) : bool :=
  negb (is_none k || is_ellipsis k).

(** One [Ellipsis] at most stands for the axes the key does not name;
    without it they follow the key. *)
Definition np_expand (ndim : nat) (key : list key_item)
  : result (list key_item) :=
  let used := length (filter takes_axis key) in
  if ndim <? used then Raise IndexError
  else match length (filter is_ellipsis key) with
       | 0 => Ok (key ++ repeat full_slice (ndim - used))
       | 1 => Ok (expand_ellipsis key (ndim - used))
       | _ => Raise IndexError
       end.

Fixpoint np_resolve (sp : list nat) (key : list key_item)
  : result (list sel) :=
  match key with
  | [] => match sp with [] => Ok [] | _ :: _ => Raise IndexError end
  | KNone :: key' => r <- np_resolve sp key' ;; Ok (SNew :: r)
  | k :: key' =>
      match sp with
      | [] => Raise IndexError
      | s :: sp' =>
          x <- np_select s k ;; r <- np_resolve sp' key' ;; Ok (x :: r)
      end
  end.

(** The lengths of the index arrays. *)
Definition arr_lengths (sels : list sel) : list nat :=
  flat_map (fun s => match s with SArr pos => [length pos] | _ => [] end)
    sels.

Definition arr_length (sels : list sel) : nat := hd 0 (arr_lengths sels).

Definition np_sels (sp : list nat) (key : list key_item)
  : result (list sel) :=
  key <- np_expand (length sp) key ;;
  sels <- np_resolve sp key ;;
  if forallb (fun n => n =? arr_length sels) (arr_lengths sels)
  then Ok sels else Raise IndexError.

(** The shape of the result when the axis of the index arrays stays where
    the first index array is ([seen] tells that it is placed already), and
    the position of the array that an index of the result reads ([p] is the
    index on the axis of the index arrays, once it is known). *)
Fixpoint shape_inplace (sels : list sel) (seen : bool) : list nat :=
  match sels with
  | [] => []
  | SInt _ :: r => shape_inplace r seen
  | STake pos :: r => length pos :: shape_inplace r seen
  | SNew :: r => 1 :: shape_inplace r seen
  | SArr pos :: r =>
      if seen then shape_inplace r true
      else length pos :: shape_inplace r true
  end.

Fixpoint source (sels : list sel) (p : option nat) (idx : list nat)
  : list nat :=
  match sels with
  | [] => []
  | SInt n :: r => n :: source r p idx
  | STake pos :: r => nth (hd 0 idx) pos 0 :: source r p (tl idx)
  | SNew :: r => source r p (tl idx)
  | SArr pos :: r =>
      match p with
      | Some q => nth q pos 0 :: source r p idx
      | None => nth (hd 0 idx) pos 0 :: source r (Some (hd 0 idx)) (tl idx)
      end
  end.

(** Integers count as index arrays once the key has an index array.  The
    indexed axes stay in place when these entries are next to each other;
    when a slice, [None] or [Ellipsis] separates them, the axis of the index
    arrays comes first in the result. *)
Definition is_advanced (k : key_item) : bool :=
  match k with KInt _ | KIndex _ => true | _ => false end.

Fixpoint none_of (l : list bool) : bool :=
  match l with
  | [] => true
  | b :: r => negb b && none_of r
  end.

Fixpoint run_then_none (l : list bool) : bool :=
  match l with
  | [] => true
  | true :: r => run_then_none r
  | false :: r => none_of r
  end.

Fixpoint one_run (l : list bool) : bool :=
  match l with
  | [] => true
  | false :: r => one_run r
  | true :: r => run_then_none r
  end.

Definition np_adjacent (key : list key_item) : bool :=
  one_run (map is_advanced key).

Definition np_getitem (A : tensor) (key : list key_item) : result tensor :=
  sels <- np_sels (tshape A) key ;;
  if existsb is_arr sels && negb (np_adjacent key)
  then Ok (build (arr_length sels :: shape_inplace sels true)
             (fun idx => get A (source sels (Some (hd 0 idx)) (tl idx))))
  else Ok (build (shape_inplace sels false)
             (fun idx => get A (source sels None idx))).

(** ** Conditions under which [__getitem__] agrees with the reference *)

(** No slice has a step below one. *)
Definition positive_steps (key : list key_item) : bool :=
  forallb (fun k => match k with
                    | KSlice _ _ step => (0 <? step_of step)%Z
                    | _ => true
                    end) key.

(** The index arrays follow one another. *)
Definition arrays_together (sels : list sel) : bool :=
  one_run (map is_arr sels).

(** Only integers come before the first index array. *)
Fixpoint integers_first (sels : list sel) : bool :=
  match sels with
  | SInt _ :: r => integers_first r
  | SArr _ :: _ => true
  | _ => false
  end.

(** What [__getitem__] returns, decompressed. *)
Definition decompress (it : item) : result tensor :=
  match it with
  | Number x => Ok x
  | Network t => torch t
  end.

(** ** Networks of TT cores, as products of matrices *)

(** A vector times a matrix with [n] rows. *)
Definition vm (n : nat) (v : nat -> R) (M : nat -> nat -> R) : nat -> R :=
  fun j => rsum n (fun i => v i *! M i j).

(** A matrix, and the matrix a TT core holds at the position [b] of its
    axis. *)
Definition mat2 (F : tensor) : nat -> nat -> R := fun i j => get F [i; j].
Definition mat3 (X : tensor) (b : nat) : nat -> nat -> R :=
  fun i j => get X [i; b; j].

(** The vector [v] through a list of TT cores, at the positions [idx]. *)
Fixpoint tt_vec (cs : list tensor) (idx : list nat) (v : nat -> R)
  : nat -> R :=
  match cs, idx with
  | c :: cs', b :: idx' => tt_vec cs' idx' (vm (sh c 0) v (mat3 c b))
  | _, _ => v
  end.

(** TT cores that chain up from the rank [w] to the rank [w'], through
    ranks that are not zero. *)
Fixpoint tt_chain (w : nat) (cs : list tensor) (w' : nat) : Prop :=
  match cs with
  | [] => w = w'
  | c :: cs' =>
      tdim c = 3 /\ sh c 0 = w /\ sh c 2 <> 0 /\ tt_chain (sh c 2) cs' w'
  end.

(** The vector of ones. *)
Definition v1 : nat -> R := fun _ => rI.

(** A network of [N] TT cores without Tucker factors, of the sizes [sp]
    and the ranks [rk 0], ..., [rk N], the first and the last of them 1. *)
Definition tt_network (t : Tensor) (sp : list nat) (rk : nat -> nat) : Prop :=
  map tshape (cores t)
  = map (fun k => [rk k; nth k sp 0; rk (S k)]) (seq 0 (length sp))
  /\ Us t = repeat None (length sp)
  /\ (forall k, rk k <> 0)
  /\ rk 0 = 1 /\ rk (length sp) = 1.

(** ** The state of [__getitem__] *)

Definition pending (st : getitem_state) : bool :=
  match f_index st with Some _ => true | None => false end.

(** What the pending factors do to a vector that comes out of the cores
    made so far; [p] is the position along the index arrays. *)
Definition pend_apply (st : getitem_state) (p : nat) (u : nat -> R)
  : nat -> R :=
  let u1 := match f_int st with
            | Some F => vm (sh F 0) u (mat2 F)
            | None => u
            end in
  match f_index st with
  | Some X => vm (sh X 0) u1 (mat3 X p)
  | None => u1
  end.

(** The shapes in a state that has taken [c] axes of the network: the
    cores made so far chain up to a rank [W], no Tucker factor is kept, and
    the pending factors lead from [W] to the rank [rk c]. *)
Definition state_ok (rk : nat -> nat) (c : nat) (st : getitem_state)
  : Prop :=
  exists W,
    tt_chain 1 (g_cores st) W
    /\ g_Us st = repeat None (length (g_cores st))
    /\ counter st = c
    /\ (index_done st = true -> f_index st = None)
    /\ match f_int st, f_index st with
       | None, None => W = rk c
       | Some F, None => tshape F = [W; rk c] /\ wf F
       | None, Some X => tshape X = [W; shr X 2; rk c]
       | Some F, Some X =>
           exists a, tshape F = [W; a] /\ tshape X = [a; shr X 2; rk c]
       end.

(** [last_mode] tells which factors are pending. *)
Definition mode_ok (st : getitem_state) : Prop :=
  match last_mode st with
  | Some MIndex => f_index st <> None
  | Some MInt => f_index st = None /\ f_int st <> None
  | Some MNone | Some MSlice =>
      f_index st = None /\ f_int st = None /\ g_cores st <> []
  | None => f_index st = None /\ f_int st = None /\ counter st = 0
  end.

(** The index arrays still to come, given those that came: none once the
    index factor has become a core, more of them at once while it is
    pending, and one run of them otherwise. *)
Definition arrs_ok (st : getitem_state) (rest : list sel) : bool :=
  if index_done st then none_of (map is_arr rest)
  else if pending st then run_then_none (map is_arr rest)
  else one_run (map is_arr rest).

(** They have the length of those that came. *)
Definition lens_ok (st : getitem_state) (rest : list sel) : bool :=
  match f_index st with
  | Some X => forallb (fun n => n =? shr X 2) (arr_lengths rest)
  | None => forallb (fun n => n =? arr_length rest) (arr_lengths rest)
  end.

(** The shape and the entries of the result, from a state and the
    selections still to come: the indices [idxH] go through the cores made
    so far, the pending factors follow, and the remaining cores [gs] of
    the network are read at the positions the rest of the indices select. *)
Definition tail_shape (st : getitem_state) (rest : list sel) : list nat :=
  match f_index st with
  | Some X => shr X 2 :: shape_inplace rest true
  | None => shape_inplace rest false
  end.

Definition expected_shape (st : getitem_state) (rest : list sel)
  : list nat :=
  map mid (g_cores st) ++ tail_shape st rest.

Definition expect (gs : list tensor) (st : getitem_state) (rest : list sel)
  (idxH tail : list nat) : R :=
  match f_index st with
  | Some _ =>
      tt_vec gs (source rest (Some (hd 0 tail)) (tl tail))
        (pend_apply st (hd 0 tail) (tt_vec (g_cores st) idxH v1)) 0
  | None =>
      tt_vec gs (source rest None tail)
        (pend_apply st 0 (tt_vec (g_cores st) idxH v1)) 0
  end.

Definition expected (gs : list tensor) (st : getitem_state)
  (rest : list sel) : tensor :=
  build (expected_shape st rest)
    (fun idx => expect gs st rest (firstn (length (g_cores st)) idx)
                  (skipn (length (g_cores st)) idx)).

(** What torch selects where NumPy selects [x]. *)
Definition as_torch (x : sel) : nat + list nat :=
  match x with
  | SInt n => inl n
  | STake pos | SArr pos => inr pos
  | SNew => inr [0]
  end.

(** ** Vectors and cores laid side by side *)

(** Two vectors side by side: [u] on the first [r] positions, then [u']. *)
Definition vjoin (r : nat) (u u' : nat -> R) : nat -> R :=
  fun j => if j <? r then u j else u' (j - r).

(** The entries of the core that holds [x] and [y] as its diagonal blocks
    and zeros elsewhere; [x] has [r] rows and [q] columns. *)
Definition block_entry (x y : tensor) (r q : nat) (p i j : nat) : R :=
  if p <? r
  then (if j <? q then get x [p; i; j] else rO)
  else (if j <? q then rO else get y [p - r; i; j - q]).

(** The ranks of the sum of two TT networks on [N] axes: the ranks add up,
    except at both ends. *)
Definition add_ranks (N : nat) (ra rb : nat -> nat) (k : nat) : nat :=
  if (k =? 0) || (k =? N) then 1 else ra k + rb k.

(** The core that the main loop of [__add__] builds on the axis [n] of two
    TT networks of the ranks [ra] and [rb]. *)
Definition add_core (a b : Tensor) (sp : list nat) (ra rb : nat -> nat)
  (n : nat) : tensor :=
  build3 (ra n + rb n) (nth n sp 0) (ra (S n) + rb (S n))
    (block_entry (nth n (cores a) tnil) (nth n (cores b) tnil)
       (ra n) (ra (S n))).

(** The Kronecker product of two vectors, the second of them of the width
    [r]. *)
Definition vkron (r : nat) (u u' : nat -> R) : nat -> R :=
  fun p => u (p / r) *! u' (p mod r).

(** [t] is a TT network without Tucker factors of the shape [sp] and the
    ranks [rk], and [torch()] returns the array of the entries [f]. *)
Definition tt_array (t : Tensor) (sp : list nat) (rk : nat -> nat)
  (f : list nat -> R) : Prop :=
  tt_network t sp rk /\ torch t = Ok (build sp f).

(** A truth value as an entry of an array: 1 or 0. *)
Definition of_bool (b : bool) : R := if b then rI else rO.

(** ** CP factors as TT cores *)

(** [c'] stands for [c] in the TT format: a TT core stays; a CP factor of
    shape [(I, R)] becomes, in the first position, the core of shape
    [(1, I, R)] with the same entries, in the last position the core of
    shape [(R, I, 1)] of its transpose, and in between the core of shape
    [(R, I, R)] with the factor on its diagonals. *)
Definition conv_core (first last : bool) (c c' : tensor) : Prop :=
  match tshape c with
  | [n; r] =>
      if first then
        tshape c' = [1; n; r]
        /\ forall i a, i < n -> a < r -> get c' [0; i; a] = get c [i; a]
      else if last then
        tshape c' = [r; n; 1]
        /\ forall i a, i < n -> a < r -> get c' [a; i; 0] = get c [i; a]
      else
        tshape c' = [r; n; r]
        /\ forall a i b, a < r -> i < n -> b < r ->
             get c' [a; i; b] = if a =? b then get c [i; a] else rO
  | _ => c' = c
  end.

Fixpoint converted (first : bool) (cs cs' : list tensor) : Prop :=
  match cs, cs' with
  | [], [] => True
  | c :: r, c' :: r' =>
      conv_core first (is_nil r) c c' /\ converted false r r'
  | _, _ => False
  end.

(** ** Where the loop of [__getitem__] stops *)

Definition is_index (k : key_item) : bool :=
  match k with KIndex _ => true | _ => false end.

(** [factors['index_done']] after the entries [l] of the key ([true] for
    an index array), from its value [d] before them and from whether an
    index factor is pending ([p]): the flag goes up when an entry that is
    not an index array follows one. *)
Fixpoint done_after (d p : bool) (l : list bool) : bool :=
  match l with
  | [] => d
  | b :: r => done_after (d || (p && negb b)) b r
  end.

(** The lengths of the index arrays are those of the first one. *)
Definition same_lengths (l : list nat) : bool :=
  forallb (fun n => n =? hd 0 l) l.

(** ** Networks of TT cores with Tucker factors *)

(** A Tucker factor of the axis of size [n], for the rank [r]: a matrix of
    shape [(n, r)], or none, and then the core carries the axis itself. *)
Definition factor_ok (n r : nat) (u : option tensor) : Prop :=
  match u with
  | None => r = n
  | Some U => tshape U = [n; r]
  end.

(** A network of [N] TT cores of the ranks [rk 0], ..., [rk N] whose
    middle sizes are the Tucker ranks [tr 0], ..., [tr (N - 1)], with
    Tucker factors that lead to the sizes [sp]. *)
Definition tucker_network (t : Tensor) (sp : list nat) (rk tr : nat -> nat)
  : Prop :=
  map tshape (cores t)
  = map (fun k => [rk k; tr k; rk (S k)]) (seq 0 (length sp))
  /\ length (Us t) = length sp
  /\ (forall k, k < length sp ->
        factor_ok (nth k sp 0) (tr k) (nth k (Us t) None))
  /\ (forall k, rk k <> 0) /\ (forall k, tr k <> 0)
  /\ rk 0 = 1 /\ rk (length sp) = 1.

Definition mids (tr : nat -> nat) (n : nat) : list nat := map tr (seq 0 n).

(** The network of the cores alone. *)
Definition core_network (t : Tensor) : Tensor :=
  mkTensor (cores t) (repeat None (length (cores t))).

(** One core of [decompress_tucker_factors()]. *)
Definition decompress_core (c : tensor) (u : option tensor) : result tensor :=
  match u with
  | None => Ok c
  | Some U => if tdim c =? 2 then einsum_jk_aj_ak c U
              else einsum_ijk_aj_iak c U
  end.

(** The entry of a Tucker factor; without a factor the axis is kept. *)
Definition factor_entry (u : option tensor) (i a : nat) : R :=
  match u with
  | None => delta i a
  | Some U => get U [i; a]
  end.

(** The product of the entries of the factors at the positions [idx] of
    the array and [pos] of the Tucker core. *)
Fixpoint weight (us : list (option tensor)) (idx pos : list nat) : R :=
  match us, idx, pos with
  | u :: us', i :: idx', a :: pos' =>
      factor_entry u i a *! weight us' idx' pos'
  | _, _, _ => rI
  end.

(** The sum of [g] over the multi-indices of the shape [ns]. *)
Fixpoint msum (ns : list nat) (g : list nat -> R) : R :=
  match ns with
  | [] => g []
  | n :: ns' => rsum n (fun a => msum ns' (fun l => g (a :: l)))
  end.

(** Does the axis [k] have a Tucker factor? *)
Definition has_factor (t : Tensor) (k : nat) : bool :=
  match nth k (Us t) None with Some _ => true | None => false end.

(** The entries of the core that holds [x] and [y] as its diagonal blocks
    along its three axes and zeros elsewhere; [x] has the shape
    [(r, m, q)]. *)
Definition block3_entry (x y : tensor) (r m q : nat) (p i j : nat) : R :=
  if i <? m
  then (if (p <? r) && (j <? q) then get x [p; i; j] else rO)
  else (if (p <? r) || (j <? q) then rO
        else get y [p - r; i - m; j - q]).

(** The middle sizes of the cores of the sum of two networks of the Tucker
    ranks [tra] and [trb]: the ranks add up on an axis where both have a
    factor, and every other axis has its full size. *)
Definition add_mids (a b : Tensor) (sp : list nat) (tra trb : nat -> nat)
  (n : nat) : nat :=
  if n <? length sp
  then (if has_factor a n && has_factor b n then tra n + trb n
        else nth n sp 0)
  else 1.

(** The middle sizes of the cores of the product of two networks of the
    Tucker ranks [tra] and [trb]: the ranks are multiplied on an axis where
    both have a factor and the product is below the size of the axis, and
    every other axis has its full size. *)
Definition mul_mids (a b : Tensor) (sp : list nat) (tra trb : nat -> nat)
  (n : nat) : nat :=
  if n <? length sp
  then (if has_factor a n && has_factor b n && (tra n * trb n <? nth n sp 0)
        then tra n * trb n
        else nth n sp 0)
  else 1.

(** ** Shapes that broadcast *)

(** Two shapes of one length that agree on every axis, up to sizes 1. *)
Fixpoint broadcastable (s1 s2 : list nat) : bool :=
  match s1, s2 with
  | [], [] => true
  | x :: r1, y :: r2 =>
      ((x =? y) || (x =? 1) || (y =? 1)) && broadcastable r1 r2
  | _, _ => false
  end.

(** * Properties *)

(** ** Sums *)

Lemma rsum_ext (n : nat) (f g : nat -> R) :
  (forall i, i < n -> f i = g i) -> rsum n f = rsum n g.
Proof.
  induction n as [|n IH]; intros H; simpl; [reflexivity|].
  rewrite IH by (intros; apply H; lia).
  rewrite H by lia. reflexivity.
Qed.

Lemma rsum_zero (n : nat) : rsum n (fun _ => rO) = rO.
Proof. induction n as [|n IH]; simpl; [reflexivity|]. rewrite IH. ring. Qed.

Lemma rsum_add (n : nat) (f g : nat -> R) :
  rsum n (fun i => f i +! g i) = rsum n f +! rsum n g.
Proof. induction n as [|n IH]; simpl; [ring|]. rewrite IH. ring. Qed.

Lemma rsum_scal_l (n : nat) (c : R) (f : nat -> R) :
  rsum n (fun i => c *! f i) = c *! rsum n f.
Proof. induction n as [|n IH]; simpl; [ring|]. rewrite IH. ring. Qed.

Lemma rsum_scal_r (n : nat) (c : R) (f : nat -> R) :
  rsum n (fun i => f i *! c) = rsum n f *! c.
Proof. induction n as [|n IH]; simpl; [ring|]. rewrite IH. ring. Qed.

Lemma rsum_swap (n m : nat) (f : nat -> nat -> R) :
  rsum n (fun i => rsum m (fun j => f i j))
  = rsum m (fun j => rsum n (fun i => f i j)).
Proof.
  induction n as [|n IH]; simpl.
  - symmetry. apply rsum_zero.
  - rewrite IH, <- rsum_add. reflexivity.
Qed.

Lemma rsum_delta_l (n k : nat) (f : nat -> R) :
  k < n -> rsum n (fun i => delta k i *! f i) = f k.
Proof.
  unfold delta. induction n as [|n IH]; intros H; [lia|]. simpl.
  destruct (Nat.eq_dec k n) as [->|Hne].
  - rewrite Nat.eqb_refl.
    rewrite (@rsum_ext _ _ (fun _ => rO)).
    + rewrite rsum_zero. ring.
    + intros i Hi. replace (n =? i) with false
        by (symmetry; apply Nat.eqb_neq; lia). ring.
  - replace (k =? n) with false by (symmetry; apply Nat.eqb_neq; lia).
    rewrite IH by lia. ring.
Qed.

Lemma rsum_delta_r (n k : nat) (f : nat -> R) :
  k < n -> rsum n (fun i => f i *! delta i k) = f k.
Proof.
  intros H. rewrite <- (rsum_delta_l f H). apply rsum_ext. intros i _.
  unfold delta. rewrite (Nat.eqb_sym i k). ring.
Qed.

Lemma rsum_delta_none (n k : nat) (f : nat -> R) :
  n <= k -> rsum n (fun i => delta k i *! f i) = rO.
Proof.
  intros H. rewrite (@rsum_ext _ _ (fun _ => rO)); [apply rsum_zero|].
  intros i Hi. unfold delta.
  replace (k =? i) with false by (symmetry; apply Nat.eqb_neq; lia). ring.
Qed.

Lemma rsum_split (n m : nat) (f : nat -> R) :
  rsum (n + m) f = rsum n f +! rsum m (fun i => f (n + i)).
Proof.
  induction m as [|m IH]; simpl.
  - rewrite Nat.add_0_r. ring.
  - rewrite Nat.add_succ_r. simpl. rewrite IH. ring.
Qed.

(** A sum over [a * b] positions is a double sum over rows and columns. *)
Lemma rsum_mul (a b : nat) (f : nat -> R) :
  rsum (a * b) f = rsum a (fun i => rsum b (fun j => f (i * b + j))).
Proof.
  induction a as [|a IH]; simpl; [reflexivity|].
  rewrite Nat.add_comm, rsum_split, IH. reflexivity.
Qed.

Lemma rsum_one (f : nat -> R) : rsum 1 f = f 0.
Proof. simpl. ring. Qed.

(** Associativity of a chain of two contractions. *)
Lemma rsum_assoc (K A : nat) (f : nat -> R) (g : nat -> nat -> R)
  (h : nat -> R) :
  rsum K (fun k => rsum A (fun a => f a *! g a k) *! h k)
  = rsum A (fun a => f a *! rsum K (fun k => g a k *! h k)).
Proof.
  rewrite (@rsum_ext K _ (fun k => rsum A (fun a => f a *! g a k *! h k)))
    by (intros; symmetry; apply rsum_scal_r).
  rewrite rsum_swap. apply rsum_ext. intros a _.
  rewrite <- rsum_scal_l. apply rsum_ext. intros k _. ring.
Qed.

(** ** Row-major layout *)

Lemma numel_cons (n : nat) (s : list nat) : numel (n :: s) = n * numel s.
Proof. reflexivity. Qed.

Lemma numel_app (s1 s2 : list nat) : numel (s1 ++ s2) = numel s1 * numel s2.
Proof.
  induction s1 as [|n s1 IH]; simpl; [lia|].
  fold (numel (s1 ++ s2)); fold (numel s1). rewrite IH. lia.
Qed.

Lemma ravel_lt (s idx : list nat) :
  in_range s idx = true -> ravel s idx < numel s.
Proof.
  revert idx. induction s as [|n s IH]; intros [|i idx] H; simpl in *;
    try discriminate; [lia|].
  apply andb_true_iff in H. destruct H as [Hi H].
  apply Nat.ltb_lt in Hi. specialize (IH _ H).
  fold (numel s). nia.
Qed.

Lemma in_range_length (s idx : list nat) :
  in_range s idx = true -> length idx = length s.
Proof.
  revert idx. induction s as [|n s IH]; intros [|i idx] H; simpl in *;
    try discriminate; [reflexivity|].
  apply andb_true_iff in H. destruct H as [_ H]. f_equal. auto.
Qed.

Lemma unravel_in_range (s : list nat) (k : nat) :
  k < numel s -> in_range s (unravel s k) = true.
Proof.
  revert k. induction s as [|n s IH]; intros k H; simpl in *; [reflexivity|].
  fold (numel s) in *.
  assert (numel s <> 0) by (intros E; rewrite E in H; lia).
  apply andb_true_iff. split.
  - apply Nat.ltb_lt. apply Nat.Div0.div_lt_upper_bound. lia.
  - apply IH. apply Nat.mod_upper_bound. assumption.
Qed.

Lemma ravel_unravel (s : list nat) (k : nat) :
  k < numel s -> ravel s (unravel s k) = k.
Proof.
  revert k. induction s as [|n s IH]; intros k H; simpl in *; [lia|].
  fold (numel s) in *.
  assert (numel s <> 0) by (intros E; rewrite E in H; lia).
  rewrite IH by (apply Nat.mod_upper_bound; assumption).
  pose proof (Nat.div_mod_eq k (numel s)). lia.
Qed.

Lemma unravel_ravel (s idx : list nat) :
  in_range s idx = true -> unravel s (ravel s idx) = idx.
Proof.
  revert idx. induction s as [|n s IH]; intros [|i idx] H; simpl in *;
    try discriminate; [reflexivity|].
  apply andb_true_iff in H. destruct H as [Hi H].
  fold (numel s). pose proof (ravel_lt _ _ H) as Hlt.
  assert (E1 : (i * numel s + ravel s idx) / numel s = i).
  { rewrite Nat.add_comm, Nat.div_add by lia.
    rewrite Nat.div_small by assumption. reflexivity. }
  assert (E2 : (i * numel s + ravel s idx) mod numel s = ravel s idx).
  { rewrite Nat.add_comm, Nat.Div0.mod_add.
    apply Nat.mod_small. assumption. }
  rewrite E1, E2, IH by assumption. reflexivity.
Qed.

Lemma ravel1 (a i : nat) : ravel [a] [i] = i.
Proof. simpl. lia. Qed.

Lemma in_range1 (a i : nat) : i < a -> in_range [a] [i] = true.
Proof.
  intros Hi. simpl. apply Nat.ltb_lt in Hi. rewrite Hi. reflexivity.
Qed.

Lemma ravel2 (a b i j : nat) : ravel [a; b] [i; j] = i * b + j.
Proof. simpl. lia. Qed.

Lemma ravel3 (a b c i j k : nat) :
  ravel [a; b; c] [i; j; k] = (i * b + j) * c + k.
Proof. simpl. lia. Qed.

Lemma in_range2 (a b i j : nat) :
  i < a -> j < b -> in_range [a; b] [i; j] = true.
Proof.
  intros Hi Hj. simpl.
  apply Nat.ltb_lt in Hi. apply Nat.ltb_lt in Hj. rewrite Hi, Hj. reflexivity.
Qed.

Lemma in_range3 (a b c i j k : nat) :
  i < a -> j < b -> k < c -> in_range [a; b; c] [i; j; k] = true.
Proof.
  intros Hi Hj Hk. simpl.
  apply Nat.ltb_lt in Hi. apply Nat.ltb_lt in Hj. apply Nat.ltb_lt in Hk.
  rewrite Hi, Hj, Hk. reflexivity.
Qed.

(** ** Tabulation *)

Lemma flat_map_length_const (A : Type) (g : nat -> list A) (L : nat)
  (l : list nat) :
  (forall x, length (g x) = L) -> length (flat_map g l) = length l * L.
Proof.
  intros H. induction l as [|x l IH]; simpl; [reflexivity|].
  rewrite length_app, H, IH. reflexivity.
Qed.

Lemma nth_flat_map_seq (A : Type) (g : nat -> list A) (L n a i k : nat)
  (d : A) :
  (forall x, length (g x) = L) -> i < n -> k < L ->
  nth (i * L + k) (flat_map g (seq a n)) d = nth k (g (a + i)) d.
Proof.
  intros HL. revert a i. induction n as [|n IH]; intros a i Hi Hk; [lia|].
  simpl. destruct i as [|i].
  - simpl. rewrite app_nth1 by (rewrite HL; assumption).
    rewrite Nat.add_0_r. reflexivity.
  - rewrite app_nth2 by (rewrite HL; simpl; lia).
    rewrite HL. replace (S i * L + k - L) with (i * L + k) by (simpl; lia).
    rewrite IH by lia. f_equal. f_equal. lia.
Qed.

Lemma flat_map_ext_in (A B : Type) (f g : A -> list B) (l : list A) :
  (forall x, In x l -> f x = g x) -> flat_map f l = flat_map g l.
Proof.
  induction l as [|x l IH]; intros H; simpl; [reflexivity|].
  rewrite H by (left; reflexivity).
  rewrite IH by (intros; apply H; right; assumption). reflexivity.
Qed.

Lemma tab_length (s : list nat) (f : list nat -> R) :
  length (tab s f) = numel s.
Proof.
  revert f. induction s as [|n s IH]; intros f; simpl; [reflexivity|].
  rewrite (@flat_map_length_const _ _ (numel s)) by (intros; apply IH).
  rewrite length_seq. reflexivity.
Qed.

Lemma nth_tab (s idx : list nat) (f : list nat -> R) (d : R) :
  in_range s idx = true -> nth (ravel s idx) (tab s f) d = f idx.
Proof.
  revert idx f. induction s as [|n s IH]; intros [|i idx] f H; simpl in *;
    try discriminate; [reflexivity|].
  apply andb_true_iff in H. destruct H as [Hi H]. apply Nat.ltb_lt in Hi.
  fold (numel s).
  rewrite (@nth_flat_map_seq _ (fun i => tab s (fun idx => f (i :: idx)))
             (numel s) n 0 i)
    by (auto using tab_length, ravel_lt).
  simpl. apply (IH idx (fun idx => f (i :: idx))). assumption.
Qed.

Lemma nth_tab_lin (s : list nat) (k : nat) (f : list nat -> R) (d : R) :
  k < numel s -> nth k (tab s f) d = f (unravel s k).
Proof.
  intros H. rewrite <- (ravel_unravel s H) at 1.
  apply nth_tab, unravel_in_range, H.
Qed.

Lemma tab_ext (s : list nat) (f g : list nat -> R) :
  (forall idx, in_range s idx = true -> f idx = g idx) -> tab s f = tab s g.
Proof.
  revert f g. induction s as [|n s IH]; intros f g H; simpl.
  - rewrite H by reflexivity. reflexivity.
  - apply flat_map_ext_in. intros i Hi. apply in_seq in Hi.
    apply IH. intros idx Hidx. apply H. simpl.
    rewrite Hidx, andb_true_r. apply Nat.ltb_lt. lia.
Qed.

(** Two lists laid out on one shape are equal when they agree at every
    multi-index. *)
Lemma data_ext (s : list nat) (d1 d2 : list R) :
  length d1 = numel s -> length d2 = numel s ->
  (forall idx, in_range s idx = true ->
               nth (ravel s idx) d1 rO = nth (ravel s idx) d2 rO) ->
  d1 = d2.
Proof.
  intros H1 H2 H. apply (nth_ext _ _ rO rO); [congruence|].
  intros k Hk. rewrite H1 in Hk.
  rewrite <- (ravel_unravel s Hk). apply H, unravel_in_range, Hk.
Qed.

Lemma tab_nth (s : list nat) (d : list R) :
  length d = numel s -> tab s (fun idx => nth (ravel s idx) d rO) = d.
Proof.
  intros H. apply (@data_ext s); [apply tab_length | assumption |].
  intros idx Hidx. apply nth_tab. assumption.
Qed.

Lemma build_wf (s : list nat) (f : list nat -> R) : wf (build s f).
Proof. unfold wf, build. simpl. apply tab_length. Qed.

Lemma get_build (s idx : list nat) (f : list nat -> R) :
  in_range s idx = true -> get (build s f) idx = f idx.
Proof. intros H. unfold get, build. simpl. apply nth_tab, H. Qed.

Lemma get_build2 (a b i j : nat) (f : nat -> nat -> R) :
  i < a -> j < b -> get (build2 a b f) [i; j] = f i j.
Proof.
  intros Hi Hj. unfold build2. rewrite get_build by (apply in_range2; auto).
  reflexivity.
Qed.

Lemma get_build3 (a b c i j k : nat) (f : nat -> nat -> nat -> R) :
  i < a -> j < b -> k < c -> get (build3 a b c f) [i; j; k] = f i j k.
Proof.
  intros Hi Hj Hk. unfold build3.
  rewrite get_build by (apply in_range3; auto). reflexivity.
Qed.

(** Tensors of one shape are equal when all their entries are. *)
Lemma tensor_ext (t1 t2 : tensor) :
  wf t1 -> wf t2 -> tshape t1 = tshape t2 ->
  (forall idx, in_range (tshape t1) idx = true -> get t1 idx = get t2 idx) ->
  t1 = t2.
Proof.
  destruct t1 as [s1 d1], t2 as [s2 d2]. unfold wf, get. simpl.
  intros H1 H2 <- H. f_equal. apply (@data_ext s1); assumption.
Qed.

Lemma build_get (t : tensor) : wf t -> build (tshape t) (get t) = t.
Proof.
  intros H. destruct t as [s d]. unfold build, get. simpl. f_equal.
  apply tab_nth. exact H.
Qed.

(** ** The error monad *)

Lemma bind_ok (A B : Type) (c : result A) (k : A -> result B) (b : B) :
  bind c k = Ok b -> exists a, c = Ok a /\ k a = Ok b.
Proof. destruct c as [a|e]; simpl; [eauto | discriminate]. Qed.

Lemma foldM_app (A S : Type) (f : S -> A -> result S) (l1 l2 : list A)
  (s : S) :
  foldM f (l1 ++ l2) s = (s' <- foldM f l1 s ;; foldM f l2 s').
Proof.
  revert s. induction l1 as [|a l1 IH]; intros s; simpl; [reflexivity|].
  destruct (f s a) as [s'|e]; simpl; [apply IH | reflexivity].
Qed.

Lemma floordiv_mul (a b : nat) : b <> 0 -> floordiv (a * b) b = Ok a.
Proof.
  intros H. unfold floordiv.
  replace (b =? 0) with false by (symmetry; apply Nat.eqb_neq; exact H).
  rewrite Nat.div_mul by exact H. reflexivity.
Qed.

Lemma floordiv_mul_l (a b : nat) : b <> 0 -> floordiv (b * a) b = Ok a.
Proof. intros H. rewrite Nat.mul_comm. apply floordiv_mul, H. Qed.

(** ** Reshaping *)

Lemma known_numel_exact (s : list nat) : known_numel (exact s) = numel s.
Proof. induction s as [|n s IH]; simpl; [reflexivity|]. rewrite IH. reflexivity. Qed.

Lemma count_infer_exact (s : list nat) : count_infer (exact s) = 0.
Proof. induction s as [|n s IH]; simpl; auto. Qed.

Lemma fill_infer_exact (s : list nat) (v : nat) : fill_infer (exact s) v = s.
Proof. induction s as [|n s IH]; simpl; [reflexivity|]. f_equal. exact IH. Qed.

Lemma reshape_exact (t : tensor) (s : list nat) :
  numel s = numel (tshape t) -> reshape t (exact s) = Ok (mkT s (tdata t)).
Proof.
  intros H. unfold reshape, infer_size.
  rewrite count_infer_exact, known_numel_exact, fill_infer_exact.
  apply Nat.eqb_eq in H. rewrite H. reflexivity.
Qed.

Lemma reshape_exact_raises (t : tensor) (s : list nat) :
  numel s <> numel (tshape t) -> reshape t (exact s) = Raise RuntimeError.
Proof.
  intros H. unfold reshape, infer_size.
  rewrite count_infer_exact, known_numel_exact.
  apply Nat.eqb_neq in H. rewrite H. reflexivity.
Qed.

Lemma reshape_lead (t : tensor) (m k : nat) :
  k <> 0 -> numel (tshape t) = m * k ->
  reshape t [None; Some k] = Ok (mkT [m; k] (tdata t)).
Proof.
  intros Hk H. unfold reshape, infer_size. simpl.
  rewrite Nat.mul_1_r.
  replace (k =? 0) with false by (symmetry; apply Nat.eqb_neq; exact Hk).
  rewrite H, Nat.Div0.mod_mul, Nat.div_mul by exact Hk. reflexivity.
Qed.

Lemma reshape_trail (t : tensor) (s0 m : nat) :
  s0 <> 0 -> numel (tshape t) = s0 * m ->
  reshape t [Some s0; None] = Ok (mkT [s0; m] (tdata t)).
Proof.
  intros Hk H. unfold reshape, infer_size. simpl.
  rewrite Nat.mul_1_r.
  replace (s0 =? 0) with false by (symmetry; apply Nat.eqb_neq; exact Hk).
  rewrite H, (Nat.mul_comm s0 m), Nat.Div0.mod_mul, Nat.div_mul by exact Hk.
  reflexivity.
Qed.

(** Reading a matrix laid out as [[a * b; c]] through the shape [[a; b; c]]. *)
Lemma get_as3 (a b c i j k : nat) (d : list R) :
  get (mkT [a; b; c] d) [i; j; k] = get (mkT [a * b; c] d) [i * b + j; k].
Proof. unfold get. simpl tshape. rewrite ravel3, ravel2. reflexivity. Qed.

Lemma get_lin2 (a b i j : nat) (d : list R) :
  get (mkT [a; b] d) [i; j] = nth (i * b + j) d rO.
Proof. unfold get. simpl tshape. rewrite ravel2. reflexivity. Qed.

Lemma get_lin3 (a b c i j k : nat) (d : list R) :
  get (mkT [a; b; c] d) [i; j; k] = nth ((i * b + j) * c + k) d rO.
Proof. unfold get. simpl tshape. rewrite ravel3. reflexivity. Qed.

Lemma get_eye (n i j : nat) : i < n -> j < n -> get (eye n) [i; j] = delta i j.
Proof. intros Hi Hj. unfold eye. apply get_build2; assumption. Qed.

Lemma eye_wf (n : nat) : wf (eye n).
Proof. apply build_wf. Qed.

Lemma ones_wf (s : list nat) : wf (ones s).
Proof. apply build_wf. Qed.

Lemma get_ones (s idx : list nat) :
  in_range s idx = true -> get (ones s) idx = rI.
Proof. intros H. unfold ones. rewrite get_build by exact H. reflexivity. Qed.

(** A tensor is determined by its shape and its entries: the data of a
    well-formed tensor may be replaced by the tabulation of its entries. *)
Lemma wf_eta (t : tensor) (s : list nat) :
  wf t -> tshape t = s -> t = mkT s (tdata t).
Proof. intros _ <-. destruct t; reflexivity. Qed.

(** ** One step of the decompression loop on a TT core *)

Lemma torch_step_tt (N n P r s r' : nat) (F core : tensor) :
  tshape F = [P; r] -> tshape core = [r; s; r'] -> r' <> 0 ->
  torch_step N F (n, core)
  = Ok (mkT [P * s; r']
          (tab [P; s; r'] (ix3 (fun p q k =>
             rsum r (fun a => get F [p; a] *! get core [a; q; k]))))).
Proof.
  intros HF Hc Hr. unfold torch_step, tdim, einsum_ai_ibj_abj.
  rewrite Hc, HF. simpl length. simpl (3 =? 2).
  rewrite Nat.eqb_refl. simpl bind.
  unfold shr, tdim, build3, build. simpl tshape. simpl length.
  simpl (nth _ _ _).
  rewrite (@reshape_lead _ (P * s) r'); [reflexivity | exact Hr |].
  simpl. lia.
Qed.

Lemma get_torch_step_tt (P r s r' p i k : nat) (F core : tensor) :
  p < P -> i < s -> k < r' ->
  get (mkT [P * s; r']
         (tab [P; s; r'] (ix3 (fun p q k =>
            rsum r (fun a => get F [p; a] *! get core [a; q; k])))))
      [p * s + i; k]
  = rsum r (fun a => get F [p; a] *! get core [a; i; k]).
Proof.
  intros Hp Hi Hk. rewrite <- get_as3.
  change (mkT [P; s; r'] (tab [P; s; r'] ?f)) with (build [P; s; r'] f).
  rewrite get_build by (apply in_range3; assumption). reflexivity.
Qed.

(** ** Sizes of unfoldings *)

Lemma Pn_0 (sp : list nat) : Pn sp 0 = 1.
Proof. reflexivity. Qed.

Lemma Pn_S (sp : list nat) (n : nat) :
  n < length sp -> Pn sp (S n) = Pn sp n * nth n sp 0.
Proof.
  unfold Pn. revert n. induction sp as [|a sp IH]; intros n H; simpl in H;
    [lia|].
  destruct n as [|n].
  - simpl. lia.
  - change (firstn (S (S n)) (a :: sp)) with (a :: firstn (S n) sp).
    change (firstn (S n) (a :: sp)) with (a :: firstn n sp).
    rewrite !numel_cons, IH by lia. simpl nth. lia.
Qed.

Lemma Qn_S (sp : list nat) (n : nat) :
  n < length sp -> Qn sp n = nth n sp 0 * Qn sp (S n).
Proof.
  unfold Qn. revert n. induction sp as [|a sp IH]; intros n H; simpl in H;
    [lia|].
  destruct n as [|n].
  - reflexivity.
  - change (skipn (S n) (a :: sp)) with (skipn n sp).
    change (skipn (S (S n)) (a :: sp)) with (skipn (S n) sp).
    rewrite IH by lia. reflexivity.
Qed.

Lemma Qn_0 (sp : list nat) : Qn sp 0 = numel sp.
Proof. reflexivity. Qed.

Lemma Qn_all (sp : list nat) : Qn sp (length sp) = 1.
Proof. unfold Qn. rewrite skipn_all. reflexivity. Qed.

Lemma Pn_all (sp : list nat) : Pn sp (length sp) = numel sp.
Proof. unfold Pn. rewrite firstn_all. reflexivity. Qed.

Lemma numel_pos (sp : list nat) : positive sp -> 0 < numel sp.
Proof.
  induction 1 as [|a sp Ha _ IH]; simpl; [lia|]. fold (numel sp). nia.
Qed.

Lemma positive_nth (sp : list nat) (n : nat) :
  positive sp -> n < length sp -> 0 < nth n sp 0.
Proof.
  intros H Hn. unfold positive in H. rewrite Forall_forall in H.
  apply H, nth_In, Hn.
Qed.

Lemma Pn_pos (sp : list nat) (n : nat) : positive sp -> 0 < Pn sp n.
Proof.
  intros H. apply numel_pos. unfold positive in *.
  rewrite Forall_forall in *. intros x Hx. apply H.
  rewrite <- (firstn_skipn n sp). apply in_or_app. left. exact Hx.
Qed.

Lemma Qn_pos (sp : list nat) (n : nat) : positive sp -> 0 < Qn sp n.
Proof.
  intros H. apply numel_pos. unfold positive in *.
  rewrite Forall_forall in *. intros x Hx. apply H.
  rewrite <- (firstn_skipn n sp). apply in_or_app. right. exact Hx.
Qed.

Lemma tt_rank_pos (sp : list nat) (n : nat) : positive sp -> 0 < tt_rank sp n.
Proof.
  intros H. unfold tt_rank.
  pose proof (Pn_pos n H). pose proof (Qn_pos n H). lia.
Qed.

Lemma tt_rank_0 (sp : list nat) : positive sp -> tt_rank sp 0 = 1.
Proof.
  intros H. unfold tt_rank. rewrite Pn_0. pose proof (Qn_pos 0 H). lia.
Qed.

Lemma tt_rank_all (sp : list nat) :
  positive sp -> tt_rank sp (length sp) = 1.
Proof.
  intros H. unfold tt_rank. rewrite Qn_all.
  pose proof (Pn_pos (length sp) H). lia.
Qed.

(** The rank the loop of [_full_rank_tt] chooses: the smaller side of the
    current unfolding. *)
Lemma tt_rank_S (sp : list nat) (n : nat) :
  positive sp -> n < length sp ->
  tt_rank sp (S n)
  = if tt_rank sp n * nth n sp 0 <? Qn sp (S n)
    then tt_rank sp n * nth n sp 0 else Qn sp (S n).
Proof.
  intros H Hn. unfold tt_rank. rewrite (Pn_S _ Hn), (Qn_S _ Hn).
  pose proof (Pn_pos n H). pose proof (Qn_pos (S n) H).
  pose proof (positive_nth H Hn).
  set (P := Pn sp n) in *. set (Q := Qn sp (S n)) in *.
  set (s := nth n sp 0) in *.
  destruct (Nat.ltb_spec (Nat.min P (s * Q) * s) Q) as [L|L];
    destruct (Nat.min_spec P (s * Q)) as [[A B]|[A B]]; rewrite B in *; nia.
Qed.

Lemma combine_app_eq (A B : Type) (l1 l2 : list A) (k1 k2 : list B) :
  length l1 = length k1 ->
  combine (l1 ++ l2) (k1 ++ k2) = combine l1 k1 ++ combine l2 k2.
Proof.
  revert k1. induction l1 as [|a l1 IH]; intros [|b k1] H; simpl in *;
    try discriminate; [reflexivity|].
  f_equal. apply IH. lia.
Qed.

Lemma combine_seq_snoc (A : Type) (l : list A) (x : A) (m : nat) :
  length l = m ->
  combine (seq 0 (S m)) (l ++ [x]) = combine (seq 0 m) l ++ [(m, x)].
Proof.
  intros H. rewrite seq_S. simpl.
  rewrite combine_app_eq by (rewrite length_seq; auto). reflexivity.
Qed.

Lemma divmod_split (p s : nat) : s <> 0 -> p = p / s * s + p mod s.
Proof. intros H. pose proof (Nat.div_mod_eq p s). lia. Qed.

(** ** The loop of [_full_rank_tt] keeps the array *)

Lemma full_rank_step_inv (data : tensor) (m : nat)
  (st : list tensor * tensor) (F : tensor) :
  positive (tshape data) -> S m < tdim data ->
  fr_inv data m st F ->
  exists st' F', full_rank_step (tshape data) st (S m) = Ok st'
                 /\ fr_inv data (S m) st' F'.
Proof.
  intros Hpos Hm. unfold tdim in Hm. destruct st as [res resh].
  unfold fr_inv. cbn [fst snd].
  set (sp := tshape data) in *.
  intros (Hsh & Hwf & Hch & HwF & HsF & Hwr & Hsr & Hprod).
  assert (Hm' : m < length sp) by lia.
  pose proof (tt_rank_pos m Hpos) as Hr.
  pose proof (positive_nth Hpos Hm') as Hs.
  pose proof (positive_nth Hpos Hm) as Hs'.
  pose proof (Qn_pos (S (S m)) Hpos) as HQ'.
  pose proof (Qn_S sp Hm) as HQ.
  pose proof (tt_rank_S Hpos Hm') as Hrk.
  pose proof (Pn_S sp Hm') as HP.
  set (r := tt_rank sp m) in *. set (s := nth m sp 0) in *.
  set (s' := nth (S m) sp 0) in *.
  set (Q := Qn sp (S m)) in *. set (Q' := Qn sp (S (S m))) in *.
  set (P := Pn sp m) in *.
  assert (Hlen : length res = m).
  { apply (f_equal (@length _)) in Hsh.
    rewrite !length_map, length_seq in Hsh. exact Hsh. }
  destruct resh as [shr0 dr]. simpl in Hsr. subst shr0.
  destruct F as [shF dF]. simpl in HsF. subst shF.
  unfold full_rank_step, sh. simpl tshape. simpl (nth 0 _ _).
  simpl (nth 1 _ _). simpl (S m - 1). rewrite Nat.sub_0_r.
  fold s. fold s'.
  rewrite floordiv_mul by lia. cbn [bind].
  assert (Hfd : floordiv Q s' = Ok Q')
    by (rewrite HQ; apply floordiv_mul_l; lia).
  rewrite Hfd.
  destruct (Nat.ltb_spec (r * s) Q) as [Hlt|Hge].
  - (* the identity goes into the core, the data stay in [resh] *)
    rewrite reshape_exact by (unfold eye, build2, build; simpl; lia).
    cbn [bind].
    rewrite reshape_exact by (simpl; nia).
    cbn [bind].
    eexists. eexists. split; [reflexivity|].
    cbn [fst snd].
    assert (Hstep := @torch_step_tt (length sp) m P r s (r * s)
                       (mkT [P; r] dF)
                       (mkT [r; s; r * s] (tdata (eye (r * s))))
                       eq_refl eq_refl ltac:(lia)).
    rewrite combine_seq_snoc by exact Hlen.
    rewrite foldM_app, Hch. cbn [bind foldM].
    rewrite Hstep. cbn [bind].
    split.
    { rewrite seq_S, !map_app, Hsh. cbn [map app Nat.add]. fold r s.
      rewrite Hrk. reflexivity. }
    split.
    { apply Forall_app. split; [exact Hwf|]. constructor; [|constructor].
      unfold wf. cbn [tdata tshape]. pose proof (eye_wf (r * s)) as E.
      unfold wf in E. rewrite E. unfold eye, build2, build. simpl. lia. }
    split; [reflexivity|].
    split. { unfold wf. cbn [tdata tshape]. rewrite tab_length. simpl. lia. }
    split. { cbn [tshape]. rewrite Hrk, HP. reflexivity. }
    split. { unfold wf in *. cbn [tdata tshape] in *. rewrite Hwr.
             simpl. nia. }
    split. { cbn [tshape]. rewrite Hrk. reflexivity. }
    intros p' j q' Hp' Hj Hq'. rewrite Hrk. rewrite HP in Hp'.
    rewrite (@divmod_split p' s) by lia.
    set (p := p' / s). set (i := p' mod s).
    assert (Hp : p < P) by (apply Nat.Div0.div_lt_upper_bound; lia).
    assert (Hi : i < s) by (apply Nat.mod_upper_bound; lia).
    rewrite (@rsum_ext (r * s) _ (fun k =>
               rsum r (fun a => get (mkT [P; r] dF) [p; a]
                                *! delta (a * s + i) k)
               *! get (mkT [r * s; Q] dr) [k; j * Q' + q'])).
    + rewrite rsum_assoc.
      rewrite (@rsum_ext r _ (fun a => get (mkT [P; r] dF) [p; a]
                 *! get (mkT [r * s; Q] dr) [a * s + i; j * Q' + q'])).
      * rewrite Hprod by nia. f_equal. nia.
      * intros a Ha. f_equal. apply rsum_delta_l. nia.
    + intros k Hk. f_equal.
      * rewrite get_torch_step_tt by lia. apply rsum_ext. intros a Ha.
        f_equal. rewrite get_as3.
        change (mkT [r * s; r * s] (tdata (eye (r * s))))
          with (eye (r * s)).
        apply get_eye; nia.
      * rewrite !get_lin2. f_equal. nia.
  - (* the data go into the core, the identity stays in [resh] *)
    rewrite reshape_exact by (simpl; lia).
    cbn [bind tdata].
    rewrite reshape_exact by (unfold eye, build2, build; simpl; nia).
    cbn [bind].
    eexists. eexists. split; [reflexivity|].
    cbn [fst snd].
    assert (Hstep := @torch_step_tt (length sp) m P r s Q
                       (mkT [P; r] dF) (mkT [r; s; Q] dr)
                       eq_refl eq_refl ltac:(lia)).
    rewrite combine_seq_snoc by exact Hlen.
    rewrite foldM_app, Hch. cbn [bind foldM].
    rewrite Hstep. cbn [bind].
    split.
    { rewrite seq_S, !map_app, Hsh. cbn [map app Nat.add]. fold r s.
      rewrite Hrk. reflexivity. }
    split.
    { apply Forall_app. split; [exact Hwf|]. constructor; [|constructor].
      unfold wf in *. cbn [tdata tshape] in *. rewrite Hwr. simpl. lia. }
    split; [reflexivity|].
    split. { unfold wf. cbn [tdata tshape]. rewrite tab_length. simpl. lia. }
    split. { cbn [tshape]. rewrite Hrk, HP. reflexivity. }
    split. { unfold wf. cbn [tdata tshape]. pose proof (eye_wf Q) as E.
             unfold wf in E. rewrite E. unfold eye, build2, build.
             simpl. nia. }
    split. { cbn [tshape]. rewrite Hrk. reflexivity. }
    intros p' j q' Hp' Hj Hq'. rewrite Hrk. rewrite HP in Hp'.
    rewrite (@divmod_split p' s) by lia.
    set (p := p' / s). set (i := p' mod s).
    assert (Hp : p < P) by (apply Nat.Div0.div_lt_upper_bound; lia).
    assert (Hi : i < s) by (apply Nat.mod_upper_bound; lia).
    rewrite (@rsum_ext Q _ (fun k =>
               nth ((p * s + i) * Q + k) (tdata data) rO
               *! delta k (j * Q' + q'))).
    + rewrite rsum_delta_r by nia. f_equal. nia.
    + intros k Hk. f_equal.
      * rewrite get_torch_step_tt by lia. rewrite <- Hprod by lia.
        apply rsum_ext. intros a Ha. f_equal. apply get_as3.
      * rewrite get_lin2.
        replace ((k * s' + j) * Q' + q') with (k * Q + (j * Q' + q')) by nia.
        rewrite <- get_lin2 with (a := Q).
        change (mkT [Q; Q] (tdata (eye Q))) with (eye Q).
        apply get_eye; nia.
Qed.

Lemma full_rank_loop_inv (data : tensor) (k m : nat)
  (st : list tensor * tensor) (F : tensor) :
  positive (tshape data) -> m + k < tdim data ->
  fr_inv data m st F ->
  exists st' F', foldM (full_rank_step (tshape data)) (seq (S m) k) st = Ok st'
                 /\ fr_inv data (m + k) st' F'.
Proof.
  intros Hpos. revert m st F.
  induction k as [|k IH]; intros m st F Hk Hinv.
  - exists st, F. rewrite Nat.add_0_r. split; [reflexivity | exact Hinv].
  - destruct (@full_rank_step_inv data m st F Hpos ltac:(lia) Hinv)
      as (st1 & F1 & Hstep & Hinv1).
    destruct (IH (S m) st1 F1 ltac:(lia) Hinv1) as (st2 & F2 & Hloop & Hinv2).
    exists st2, F2. cbn [seq foldM]. rewrite Hstep. cbn [bind].
    split; [exact Hloop|].
    replace (m + S k) with (S m + k) by lia. exact Hinv2.
Qed.

Lemma fr_inv_init (data : tensor) (s0 : nat) (rest : list nat) :
  wf data -> tshape data = s0 :: rest -> positive (tshape data) ->
  fr_inv data 0 ([], mkT [s0; numel rest] (tdata data)) (ones [1; 1]).
Proof.
  intros Hwf Hs Hpos. unfold fr_inv. cbn [fst snd].
  pose proof (tt_rank_0 Hpos) as H0. rewrite H0.
  assert (HQ : Qn (tshape data) 1 = numel rest) by (rewrite Hs; reflexivity).
  assert (Hn : nth 0 (tshape data) 0 = s0) by (rewrite Hs; reflexivity).
  rewrite HQ, Hn, Nat.mul_1_l.
  split; [reflexivity|]. split; [constructor|]. split; [reflexivity|].
  split; [apply ones_wf|]. split; [reflexivity|].
  split. { unfold wf in *. cbn [tdata tshape]. rewrite Hwf, Hs. simpl. lia. }
  split; [reflexivity|].
  intros p i q Hp Hi Hq. rewrite Pn_0 in Hp. assert (p = 0) by lia. subst p.
  rewrite rsum_one, get_ones by reflexivity.
  rewrite get_lin2. cbn [Nat.mul Nat.add]. ring.
Qed.

(** Cores whose shapes chain up pass the checks of the constructor. *)
Lemma chain_dims_ok (cs : list tensor) (rk sz : nat -> nat) (a n : nat) :
  map tshape cs = map (fun k => [rk k; sz k; rk (S k)]) (seq a n) ->
  core_dims_ok cs = true.
Proof.
  revert a n. induction cs as [|c cs IH]; intros a [|n] H; simpl in H;
    try discriminate; [reflexivity |].
  injection H as Hc H. cbn [core_dims_ok forallb]. unfold tdim at 1 2.
  rewrite Hc. cbn [length Nat.leb andb]. apply (IH _ _ H).
Qed.

Lemma core_ranks_ok_cons (c c' : tensor) (rest : list tensor) :
  core_ranks_ok (c :: c' :: rest)
  = negb (((tdim c' =? 3) && negb (shr c 1 =? sh c' 0))
          || ((tdim c' =? 2) && negb (shr c 1 =? sh c' 1)))
    && core_ranks_ok (c' :: rest).
Proof. reflexivity. Qed.

Lemma chain_ranks_ok (cs : list tensor) (rk sz : nat -> nat) (a n : nat) :
  map tshape cs = map (fun k => [rk k; sz k; rk (S k)]) (seq a n) ->
  core_ranks_ok cs = true.
Proof.
  revert a n. induction cs as [|c cs IH]; intros a [|n] H; simpl in H;
    try discriminate; [reflexivity |].
  injection H as Hc H. destruct cs as [|c' cs]; [reflexivity|].
  rewrite core_ranks_ok_cons, (IH _ _ H), andb_true_r.
  destruct n as [|n]; [discriminate|]. simpl in H. injection H as Hc' _.
  unfold shr, sh, tdim. rewrite Hc, Hc'. cbn [length Nat.sub nth Nat.eqb].
  rewrite Nat.eqb_refl. reflexivity.
Qed.

Lemma check_factors_none (cs : list tensor) :
  check_factors cs (repeat None (length cs)) = Ok tt.
Proof. induction cs as [|c cs IH]; simpl; auto. Qed.

Lemma decompress_cores_none (cs : list tensor) :
  decompress_cores cs (repeat None (length cs)) = Ok cs.
Proof.
  induction cs as [|c cs IH]; simpl; [reflexivity|]. rewrite IH. reflexivity.
Qed.

Lemma shape_of_none (cs : list tensor) :
  shape_of cs (repeat None (length cs)) = Ok (map (fun c => shr c 2) cs).
Proof.
  induction cs as [|c cs IH]; simpl; [reflexivity|]. rewrite IH. reflexivity.
Qed.

Lemma map_nth_seq (sp : list nat) :
  map (fun k => nth k sp 0) (seq 0 (length sp)) = sp.
Proof.
  apply (nth_ext _ _ 0 0).
  - rewrite length_map, length_seq. reflexivity.
  - intros k Hk. rewrite length_map, length_seq in Hk.
    rewrite (nth_indep _ 0 (nth 0 sp 0))
      by (rewrite length_map, length_seq; exact Hk).
    rewrite (map_nth (fun k => nth k sp 0) (seq 0 (length sp)) 0 k).
    rewrite seq_nth by exact Hk. reflexivity.
Qed.

Lemma ranks_tt_first (cs : list tensor) (us : list (option tensor))
  (rk sz : nat -> nat) (n : nat) :
  map tshape cs = map (fun k => [rk k; sz k; rk (S k)]) (seq 0 (S n)) ->
  exists l, ranks_tt (mkTensor cs us) = Ok (rk 0 :: l).
Proof.
  intros H. destruct cs as [|c0 cs]; [discriminate|].
  simpl in H. injection H as Hc _.
  unfold ranks_tt. cbn [cores]. unfold tdim, sh. rewrite Hc.
  cbn [length Nat.eqb nth]. eexists. reflexivity.
Qed.

(** ** [_full_rank_tt] followed by [torch()] *)

Lemma full_rank_tt_roundtrip (data : tensor) :
  wf data -> tshape data <> [] -> positive (tshape data) ->
  exists cs,
    _full_rank_tt data = Ok cs
    /\ map tshape cs
       = map (fun k => [tt_rank (tshape data) k; nth k (tshape data) 0;
                        tt_rank (tshape data) (S k)])
           (seq 0 (tdim data))
    /\ Forall wf cs
    /\ torch (mkTensor cs (repeat None (tdim data))) = Ok data.
Proof.
  intros Hwf Hne Hpos.
  destruct (tshape data) as [|s0 rest] eqn:Hs; [congruence|]. clear Hne.
  assert (Hs0 : 0 < s0) by (inversion Hpos; assumption).
  rewrite <- Hs in Hpos.
  assert (HN : tdim data = S (length rest))
    by (unfold tdim; rewrite Hs; reflexivity).
  pose proof (@fr_inv_init data s0 rest Hwf Hs Hpos) as Hinit.
  destruct (@full_rank_loop_inv data (length rest) 0 _ _ Hpos ltac:(lia) Hinit)
    as ([res resh] & F & Hloop & Hinv).
  cbn [Nat.add] in Hinv.
  unfold _full_rank_tt. rewrite Hs.
  rewrite (@reshape_trail data s0 (numel rest))
    by (try lia; rewrite Hs; reflexivity).
  cbn [bind]. rewrite HN. cbn [Nat.sub]. rewrite Nat.sub_0_r.
  rewrite <- Hs. rewrite Hloop. cbn [bind].
  unfold fr_inv in Hinv. cbn [fst snd] in Hinv.
  destruct Hinv as (Hsh & Hwfr & Hch & HwF & HsF & Hwr & Hsr & Hprod).
  set (sp := tshape data) in *.
  assert (Hlen : length sp = S (length rest)) by (rewrite Hs; reflexivity).
  set (m := length rest) in *.
  assert (HQ : Qn sp (S m) = 1) by (rewrite <- Hlen; apply Qn_all).
  assert (Hrk : tt_rank sp (S m) = 1) by (rewrite <- Hlen; apply tt_rank_all, Hpos).
  pose proof (tt_rank_pos m Hpos) as Hr.
  assert (Hm : m < length sp) by lia.
  pose proof (positive_nth Hpos Hm) as Hsm.
  pose proof (Pn_S sp Hm) as HP.
  assert (HPall : Pn sp (S m) = numel sp) by (rewrite <- Hlen; apply Pn_all).
  set (r := tt_rank sp m) in *. set (s := nth m sp 0) in *.
  set (P := Pn sp m) in *.
  rewrite HQ in *.
  destruct resh as [shr0 dr]. simpl in Hsr. subst shr0.
  destruct F as [shF dF]. simpl in HsF. subst shF.
  unfold sh. cbn [tshape nth].
  rewrite floordiv_mul by lia. cbn [bind].
  rewrite reshape_exact by (simpl; lia). cbn [bind tdata].
  set (core := mkT [r; s; 1] dr).
  assert (Hlres : length res = m).
  { apply (f_equal (@length _)) in Hsh.
    rewrite !length_map, length_seq in Hsh. exact Hsh. }
  assert (Hshapes : map tshape (res ++ [core])
            = map (fun k => [tt_rank sp k; nth k sp 0; tt_rank sp (S k)])
                (seq 0 (S m))).
  { rewrite seq_S, !map_app, Hsh. cbn [map app Nat.add]. fold r s.
    rewrite Hrk. reflexivity. }
  assert (Hlcs : length (res ++ [core]) = S m)
    by (rewrite length_app, Hlres; simpl; lia).
  exists (res ++ [core]). split; [reflexivity|].
  split; [exact Hshapes|].
  split.
  { apply Forall_app. split; [exact Hwfr|]. constructor; [|constructor].
    unfold core, wf in *. cbn [tdata tshape] in *. rewrite Hwr. simpl. lia. }
  (* decompression *)
  unfold torch, decompress_tucker_factors. cbn [cores Us].
  rewrite <- Hlcs at 1. rewrite decompress_cores_none. cbn [bind].
  unfold Tensor_of_cores.
  rewrite (@chain_dims_ok _ _ _ _ _ Hshapes),
    (@chain_ranks_ok _ _ _ _ _ Hshapes).
  cbn [negb]. rewrite check_factors_none. cbn [bind].
  assert (Hmid : map (fun c => shr c 2) (res ++ [core]) = sp).
  { transitivity (map (fun l => nth (length l - 2) l 0)
                    (map tshape (res ++ [core]))).
    - rewrite map_map. reflexivity.
    - rewrite Hshapes, map_map. cbn [length Nat.sub nth].
      rewrite <- Hlen. apply map_nth_seq. }
  cbn [cores]. rewrite Hmid.
  destruct (@ranks_tt_first _ (repeat None (S m)) _ _ _ Hshapes)
    as (l & Hrt).
  rewrite Hrt. cbn [bind nth]. rewrite (tt_rank_0 Hpos).
  unfold dim. cbn [cores]. rewrite Hlcs.
  rewrite combine_seq_snoc by exact Hlres.
  rewrite foldM_app. rewrite <- Hlen. rewrite Hch. cbn [bind foldM].
  rewrite (@torch_step_tt (length sp) m P r s 1 (mkT [P; r] dF) core
             eq_refl eq_refl ltac:(lia)).
  cbn [bind]. unfold shr, tdim. cbn [tshape length Nat.sub nth Nat.ltb Nat.leb].
  unfold select_last0. cbn [tshape rev app Nat.eqb bind].
  rewrite reshape_exact by (unfold build; cbn [tshape]; simpl; lia).
  f_equal. rewrite (@wf_eta data sp Hwf eq_refl). f_equal.
  unfold build. cbn [tdata].
  apply (@data_ext [P * s]).
  - apply tab_length.
  - unfold wf in Hwf. fold sp in Hwf. rewrite Hwf. simpl. lia.
  - intros idx Hidx. pose proof (in_range_length _ _ Hidx) as Hl.
    destruct idx as [|p' [|? ?]]; try discriminate Hl.
    simpl in Hidx. rewrite andb_true_r in Hidx. apply Nat.ltb_lt in Hidx.
    rewrite nth_tab by (simpl; rewrite andb_true_r; apply Nat.ltb_lt; lia).
    cbn [app]. rewrite (@divmod_split p' s) by lia.
    set (p := p' / s). set (i := p' mod s).
    assert (Hp : p < P) by (apply Nat.Div0.div_lt_upper_bound; lia).
    assert (Hi : i < s) by (apply Nat.mod_upper_bound; lia).
    rewrite get_torch_step_tt by lia.
    rewrite (@rsum_ext r _ (fun a => get (mkT [P; r] dF) [p; a]
               *! get (mkT [r * s; 1] dr) [a * s + i; 0])).
    + rewrite Hprod by lia. f_equal; lia.
    + intros a Ha. f_equal. apply get_as3.
Qed.

(** ** The constructor on a dense array, and back *)

Definition no_options (A : tensor) : init_args :=
  mkArgs (DArray A) None None None None None.

Lemma tbind_lift_ok (A B : Type) (a : A) (k : A -> traced B) :
  tbind (lift (Ok a)) k = k a.
Proof. unfold tbind, lift. destruct (k a). reflexivity. Qed.

Lemma Tensor_init_dense (A : tensor) (cs : list tensor) :
  tdim A <> 0 ->
  _full_rank_tt A = Ok cs -> length cs = tdim A ->
  Tensor_init (no_options A)
  = ([WFullRankTT], Ok (mkTensor cs (repeat None (tdim A)))).
Proof.
  intros HN Hfr Hlen. unfold Tensor_init, no_options.
  cbn [a_data a_Us a_ranks_cp a_ranks_tucker a_ranks_tt a_eps].
  replace (tdim A =? 0) with false by (symmetry; apply Nat.eqb_neq; exact HN).
  rewrite Hfr. unfold shape. cbv [tbind lift working]. cbn [cores Us app].
  rewrite <- Hlen. rewrite check_factors_none, shape_of_none. reflexivity.
Qed.

(** C1 (as amended): for every dense array [A] with at least one axis and
    no empty axis, the constructor called with no compression option runs
    [_full_rank_tt] only and builds a network without Tucker factors whose
    cores are TT cores of shape [(r_k, I_k, r_(k+1))], where [r_k] is the
    full rank [min(I_0 ... I_(k-1), I_k ... I_(N-1))] of the k-th unfolding;
    [torch()] on that network returns [A], shape and entries. *)
Theorem C1_full_rank_roundtrip (A : tensor) :
  wf A -> tshape A <> [] -> positive (tshape A) ->
  exists t,
    Tensor_init (no_options A) = ([WFullRankTT], Ok t)
    /\ Us t = repeat None (tdim A)
    /\ map tshape (cores t)
       = map (fun k => [tt_rank (tshape A) k; nth k (tshape A) 0;
                        tt_rank (tshape A) (S k)])
           (seq 0 (tdim A))
    /\ torch t = Ok A.
Proof.
  intros Hwf Hne Hpos.
  destruct (full_rank_tt_roundtrip Hwf Hne Hpos) as (cs & Hfr & Hsh & _ & Ht).
  exists (mkTensor cs (repeat None (tdim A))).
  assert (Hlen : length cs = tdim A).
  { apply (f_equal (@length _)) in Hsh.
    rewrite !length_map, length_seq in Hsh. exact Hsh. }
  assert (HN : tdim A <> 0).
  { unfold tdim. destruct (tshape A); [congruence | discriminate]. }
  split; [apply Tensor_init_dense; assumption|].
  split; [reflexivity|]. split; [exact Hsh | exact Ht].
Qed.

(** ** Conflicting options of the constructor *)

Lemma tbind_raises_k (A B : Type) (c : traced A) (k : A -> traced B) :
  (forall a, traises (k a)) -> traises (tbind c k).
Proof.
  intros H. destruct c as [w [a|e]]; cbn [tbind].
  - destruct (H a) as (w' & e & ->). exists (w ++ w'), e. reflexivity.
  - exists w, e. reflexivity.
Qed.

Lemma traises_raise (A : Type) (w : list work) (e : exn) :
  traises ((w, Raise e) : traced A).
Proof. exists w, e. reflexivity. Qed.

Lemma tbind_trace_prefix (A B : Type) (c : traced A) (k : A -> traced B) :
  exists w', fst (tbind c k) = fst c ++ w'.
Proof.
  destruct c as [w [a|e]]; cbn [tbind fst].
  - destruct (k a) as [w' r]. exists w'. reflexivity.
  - exists []. rewrite app_nil_r. reflexivity.
Qed.

Lemma init_conflict_tail (self : Tensor) (a : init_args) (eps : R) :
  a_eps a = Some eps -> has_rank_option a = true ->
  match a_eps a with
  | Some eps =>
      match a_ranks_cp a, a_ranks_tucker a, a_ranks_tt a with
      | None, None, None => working WRound (round self eps None)
      | _, _, _ => lift (Raise ValueError)
      end
  | None => lift (Ok self)
  end = ([], Raise ValueError).
Proof.
  intros -> H. unfold has_rank_option in H.
  destruct (a_ranks_cp a), (a_ranks_tucker a), (a_ranks_tt a);
    try discriminate H; reflexivity.
Qed.

Lemma init_eps_conflict_raises (a : init_args) (eps : R) :
  a_eps a = Some eps -> has_rank_option a = true ->
  traises (Tensor_init a).
Proof.
  intros He Hr. unfold Tensor_init.
  apply tbind_raises_k. intros [cs N].
  apply tbind_raises_k. intros [self us].
  apply tbind_raises_k. intros _.
  apply tbind_raises_k. intros _.
  rewrite (init_conflict_tail self a He Hr). apply traises_raise.
Qed.

Lemma init_cores_eps_conflict (l : list tensor)
  (us : option (list (option tensor)))
  (rcp rtk rtt : option rank_arg) (eps : R) :
  has_rank_option (mkArgs (DCores l) us rcp rtk rtt (Some eps)) = true ->
  exists e, Tensor_init (mkArgs (DCores l) us rcp rtk rtt (Some eps))
            = ([], Raise e).
Proof.
  intros Hr. unfold Tensor_init.
  cbn [a_data a_Us a_ranks_cp a_ranks_tucker a_ranks_tt a_eps].
  destruct (negb (core_dims_ok l)); [eexists; reflexivity|].
  destruct (negb (core_ranks_ok l)); [eexists; reflexivity|].
  cbv [lift tbind]. cbn [cores Us app].
  destruct (check_factors l _) as [[]|e]; [|eexists; reflexivity].
  destruct (shape _) as [s|e]; [|eexists; reflexivity].
  unfold has_rank_option in Hr.
  cbn [a_ranks_cp a_ranks_tucker a_ranks_tt] in Hr.
  destruct rcp, rtk, rtt; try discriminate Hr; eexists; reflexivity.
Qed.

Lemma init_array_runs_full_rank (A : tensor)
  (us : option (list (option tensor))) (rtk rtt : option rank_arg)
  (eps : option R) :
  exists w', fst (Tensor_init (mkArgs (DArray A) us None rtk rtt eps))
             = WFullRankTT :: w'.
Proof.
  unfold Tensor_init.
  cbn [a_data a_Us a_ranks_cp a_ranks_tucker a_ranks_tt a_eps].
  rewrite tbind_lift_ok.
  match goal with
  | |- context [tbind (tbind (working WFullRankTT ?c) ?k1) ?k2] =>
      destruct (tbind_trace_prefix (tbind (working WFullRankTT c) k1) k2)
        as (w2 & E2);
      destruct (tbind_trace_prefix (working WFullRankTT c) k1) as (w1 & E1)
  end.
  rewrite E2, E1. cbn [working fst app]. eexists. reflexivity.
Qed.

(** C8 (as amended): on a dense array, [ranks_cp] together with [ranks_tt]
    raises [ValueError] before any decomposition routine runs; [eps]
    together with any rank option always ends in an exception and no
    network, but on a dense array without [ranks_cp] that exception comes
    only after [_full_rank_tt] (and the rounding to the ranks) has run; on
    a list of cores the exception comes with no decomposition work. *)
Theorem C8_conflicting_options :
  (forall A us rcp rtk rtt eps,
      Tensor_init (mkArgs (DArray A) us (Some rcp) rtk (Some rtt) eps)
      = ([], Raise ValueError))
  /\ (forall a eps, a_eps a = Some eps -> has_rank_option a = true ->
                    traises (Tensor_init a))
  /\ (forall l us rcp rtk rtt eps,
         has_rank_option (mkArgs (DCores l) us rcp rtk rtt (Some eps)) = true ->
         exists e, Tensor_init (mkArgs (DCores l) us rcp rtk rtt (Some eps))
                   = ([], Raise e))
  /\ (forall A us rtk rtt eps,
         exists w', fst (Tensor_init (mkArgs (DArray A) us None rtk rtt eps))
                    = WFullRankTT :: w').
Proof.
  split; [|split; [|split]].
  - intros. reflexivity.
  - apply init_eps_conflict_raises.
  - apply init_cores_eps_conflict.
  - apply init_array_runs_full_rank.
Qed.

(** ** Lists read and written by position *)

Lemma get_item_nth (A : Type) (l : list A) (n : nat) (d : A) :
  n < length l -> get_item l n = Ok (nth n l d).
Proof.
  intros H. unfold get_item.
  rewrite (nth_error_nth' l d H). reflexivity.
Qed.

Lemma get_item_ok (A : Type) (l : list A) (n : nat) (x : A) :
  get_item l n = Ok x -> nth_error l n = Some x.
Proof.
  unfold get_item. destruct (nth_error l n); intros H; inversion H.
  reflexivity.
Qed.

Lemma get_item_map (A B : Type) (f : A -> B) (l : list A) (n : nat) (x : A) :
  get_item l n = Ok x -> get_item (map f l) n = Ok (f x).
Proof.
  intros H. apply get_item_ok in H. unfold get_item.
  rewrite nth_error_map, H. reflexivity.
Qed.

Lemma get_last_snoc (A : Type) (l : list A) (x : A) :
  get_last (l ++ [x]) = Ok x.
Proof.
  unfold get_last. destruct (l ++ [x]) eqn:E.
  - destruct l; discriminate.
  - rewrite <- E. unfold get_item.
    rewrite length_app. cbn [length]. rewrite Nat.add_sub.
    rewrite nth_error_app2 by lia. rewrite Nat.sub_diag. reflexivity.
Qed.

Lemma get_last_nth (A : Type) (l : list A) (d : A) :
  l <> [] -> get_last l = Ok (nth (length l - 1) l d).
Proof.
  intros H. unfold get_last. destruct l as [|a l]; [congruence|].
  apply get_item_nth. simpl. lia.
Qed.

Lemma set_item_ok (A : Type) (l : list A) (n : nat) (v : A) :
  n < length l ->
  set_item l n v = Ok (firstn n l ++ v :: skipn (S n) l).
Proof.
  revert n. induction l as [|a l IH]; intros n H; simpl in H; [lia|].
  destruct n as [|n]; [reflexivity|].
  cbn [set_item]. rewrite IH by lia. reflexivity.
Qed.

Lemma mapM_ok_seq (B : Type) (f : nat -> result B) (g : nat -> B)
  (a n : nat) :
  (forall k, a <= k < a + n -> f k = Ok (g k)) ->
  mapM f (seq a n) = Ok (map g (seq a n)).
Proof.
  revert a. induction n as [|n IH]; intros a H; [reflexivity|].
  cbn [seq mapM map]. rewrite H by lia. cbn [bind].
  rewrite IH by (intros; apply H; lia). reflexivity.
Qed.

Lemma mapM_length (A B : Type) (f : A -> result B) (l : list A)
  (r : list B) :
  mapM f l = Ok r -> length r = length l.
Proof.
  revert r. induction l as [|a l IH]; intros r H; simpl in H.
  - inversion H. reflexivity.
  - destruct (f a) as [b|]; [|discriminate]. cbn [bind] in H.
    destruct (mapM f l) as [bs|]; [|discriminate]. cbn [bind] in H.
    inversion H. simpl. f_equal. apply IH. reflexivity.
Qed.

Lemma mapM_nth (A B : Type) (f : A -> result B) (l : list A) (r : list B)
  (n : nat) (da : A) (db : B) :
  mapM f l = Ok r -> n < length l -> f (nth n l da) = Ok (nth n r db).
Proof.
  revert r n. induction l as [|a l IH]; intros r n H Hn; simpl in Hn; [lia|].
  simpl in H. destruct (f a) as [b|] eqn:Ea; [|discriminate].
  cbn [bind] in H. destruct (mapM f l) as [bs|] eqn:El; [|discriminate].
  cbn [bind] in H. inversion H; subst r.
  destruct n as [|n]; [exact Ea|]. simpl. apply IH; [reflexivity | lia].
Qed.

(** A loop that rewrites position [k] of a list from what it finds there,
    for every [k] below its length. *)
Lemma foldM_update_each (A : Type) (step : A -> result A) (upd1 : A -> A)
  (l0 : list A) :
  (forall x, In x l0 -> step x = Ok (upd1 x)) ->
  foldM (fun l k => x <- get_item l k ;; y <- step x ;; set_item l k y)
    (seq 0 (length l0)) l0
  = Ok (map upd1 l0).
Proof.
  intros H.
  assert (G : forall done todo,
             (forall x, In x todo -> step x = Ok (upd1 x)) ->
             foldM (fun l k => x <- get_item l k ;; y <- step x ;;
                               set_item l k y)
               (seq (length done) (length todo)) (done ++ todo)
             = Ok (done ++ map upd1 todo)).
  { intros done todo. revert done.
    induction todo as [|x todo IH]; intros done Ht; [reflexivity|].
    cbn [length seq foldM].
    unfold get_item at 1. rewrite nth_error_app2 by lia.
    rewrite Nat.sub_diag. cbn [nth_error bind].
    rewrite Ht by (left; reflexivity). cbn [bind].
    rewrite set_item_ok by (rewrite length_app; simpl; lia).
    rewrite firstn_app, Nat.sub_diag, firstn_all. cbn [firstn].
    rewrite app_nil_r.
    replace (skipn (S (length done)) (done ++ x :: todo)) with todo.
    2:{ rewrite skipn_app, skipn_all2 by lia.
        replace (S (length done) - length done) with 1 by lia.
        reflexivity. }
    cbn [bind].
    specialize (IH (done ++ [upd1 x])).
    rewrite length_app in IH. cbn [length] in IH.
    rewrite Nat.add_1_r in IH. rewrite <- app_assoc in IH. cbn [app] in IH.
    rewrite IH by (intros; apply Ht; right; assumption).
    rewrite <- app_assoc. reflexivity. }
  apply (G [] l0 H).
Qed.

(** ** Loop rules for [foldM] and [mapM] over a range *)

Lemma foldM_seq_total (A : Type) (body : A -> nat -> result A)
  (Inv : nat -> A -> Prop) (a n : nat) (s0 : A) :
  Inv a s0 ->
  (forall k s, a <= k < a + n -> Inv k s ->
               exists s', body s k = Ok s' /\ Inv (S k) s') ->
  exists sf, foldM body (seq a n) s0 = Ok sf /\ Inv (a + n) sf.
Proof.
  revert a s0. induction n as [|n IH]; intros a s0 H0 Hstep.
  - exists s0. rewrite Nat.add_0_r. split; [reflexivity | exact H0].
  - destruct (Hstep a s0 ltac:(lia) H0) as (s1 & E1 & H1).
    destruct (IH (S a) s1 H1) as (sf & Ef & Hf).
    { intros k s Hk. apply Hstep. lia. }
    exists sf. cbn [seq foldM]. rewrite E1. cbn [bind].
    split; [exact Ef|]. replace (a + S n) with (S a + n) by lia. exact Hf.
Qed.

Lemma foldM_seq_partial (A : Type) (body : A -> nat -> result A)
  (Inv : nat -> A -> Prop) (a n : nat) (s0 sf : A) :
  Inv a s0 ->
  (forall k s s', a <= k < a + n -> Inv k s -> body s k = Ok s' ->
                  Inv (S k) s') ->
  foldM body (seq a n) s0 = Ok sf -> Inv (a + n) sf.
Proof.
  revert a s0. induction n as [|n IH]; intros a s0 H0 Hstep Hf.
  - rewrite Nat.add_0_r. inversion Hf. subst. exact H0.
  - cbn [seq foldM] in Hf. destruct (body s0 a) as [s1|] eqn:E1;
      [|discriminate]. cbn [bind] in Hf.
    replace (a + S n) with (S a + n) by lia.
    apply (IH (S a) s1).
    + apply (Hstep a s0 s1); [lia | exact H0 | exact E1].
    + intros k s s' Hk. apply Hstep. lia.
    + exact Hf.
Qed.

Lemma mapM_seq_total (B : Type) (f : nat -> result B)
  (P : nat -> B -> Prop) (a n : nat) (d : B) :
  (forall k, a <= k < a + n -> exists b, f k = Ok b /\ P k b) ->
  exists bs, mapM f (seq a n) = Ok bs /\ length bs = n
             /\ forall j, j < n -> P (a + j) (nth j bs d).
Proof.
  revert a. induction n as [|n IH]; intros a H.
  - exists []. split; [reflexivity|]. split; [reflexivity|]. intros; lia.
  - destruct (H a ltac:(lia)) as (b & Eb & Pb).
    destruct (IH (S a)) as (bs & Ebs & Hl & Hbs).
    { intros k Hk. apply H. lia. }
    exists (b :: bs). cbn [seq mapM]. rewrite Eb. cbn [bind].
    rewrite Ebs. cbn [bind]. split; [reflexivity|].
    split; [simpl; lia|].
    intros [|j] Hj.
    + rewrite Nat.add_0_r. exact Pb.
    + cbn [nth]. replace (a + S j) with (S a + j) by lia. apply Hbs. lia.
Qed.

Lemma mapM_seq_partial (B : Type) (f : nat -> result B)
  (P : nat -> B -> Prop) (a n : nat) (d : B) (bs : list B) :
  (forall k b, a <= k < a + n -> f k = Ok b -> P k b) ->
  mapM f (seq a n) = Ok bs ->
  length bs = n /\ forall j, j < n -> P (a + j) (nth j bs d).
Proof.
  revert a bs. induction n as [|n IH]; intros a bs H Hm.
  - cbn in Hm. inversion Hm. split; [reflexivity|]. intros; lia.
  - cbn [seq mapM] in Hm. destruct (f a) as [b|] eqn:Eb; [|discriminate].
    cbn [bind] in Hm. destruct (mapM f (seq (S a) n)) as [bs'|] eqn:Ebs;
      [|discriminate]. cbn [bind] in Hm. inversion Hm. subst bs.
    destruct (IH (S a) bs') as (Hl & Hbs).
    { intros k b0 Hk. apply H. lia. }
    { exact Ebs. }
    split; [simpl; lia|].
    intros [|j] Hj.
    + rewrite Nat.add_0_r. apply H; [lia | exact Eb].
    + cbn [nth]. replace (a + S j) with (S a + j) by lia. apply Hbs. lia.
Qed.

Lemma set_item_length (A : Type) (l l' : list A) (n : nat) (v : A) :
  set_item l n v = Ok l' -> length l' = length l.
Proof.
  revert n l'. induction l as [|a l IH]; intros n l' H; [discriminate|].
  destruct n as [|n]; cbn [set_item] in H.
  - inversion H. reflexivity.
  - destruct (set_item l n v) as [r|] eqn:E; [|discriminate].
    cbn [bind] in H. inversion H. simpl. f_equal. apply (IH n). exact E.
Qed.

Lemma set_item_nth (A : Type) (l l' : list A) (n j : nat) (v d : A) :
  set_item l n v = Ok l' ->
  nth j l' d = if j =? n then v else nth j l d.
Proof.
  revert n j l'. induction l as [|a l IH]; intros n j l' H; [discriminate|].
  destruct n as [|n]; cbn [set_item] in H.
  - inversion H. destruct j; reflexivity.
  - destruct (set_item l n v) as [r|] eqn:E; [|discriminate].
    cbn [bind] in H. inversion H. destruct j as [|j]; [reflexivity|].
    cbn [nth]. rewrite (IH n j r E). reflexivity.
Qed.

Lemma set_item_total (A : Type) (l : list A) (n : nat) (v : A) :
  n < length l -> exists l', set_item l n v = Ok l'.
Proof. intros H. rewrite set_item_ok by exact H. eexists. reflexivity. Qed.

Lemma get_item_lt (A : Type) (l : list A) (n : nat) (x : A) :
  get_item l n = Ok x -> n < length l.
Proof.
  intros H. apply get_item_ok in H. apply nth_error_Some. congruence.
Qed.

Lemma get_item_nth_eq (A : Type) (l : list A) (n : nat) (x d : A) :
  get_item l n = Ok x -> nth n l d = x.
Proof. intros H. apply get_item_ok in H. apply nth_error_nth. exact H. Qed.

(** ** Shapes through the primitives of [__add__] and [__mul__] *)

Lemma shape_eqb_refl (s : list nat) : shape_eqb s s = true.
Proof. unfold shape_eqb. destruct (list_eq_dec Nat.eq_dec s s); congruence. Qed.

Lemma shape_eqb_eq (s1 s2 : list nat) : shape_eqb s1 s2 = true -> s1 = s2.
Proof.
  unfold shape_eqb. destruct (list_eq_dec Nat.eq_dec s1 s2);
    [auto | discriminate].
Qed.

Lemma shape_eqb_neq (s1 s2 : list nat) : s1 <> s2 -> shape_eqb s1 s2 = false.
Proof.
  unfold shape_eqb. destruct (list_eq_dec Nat.eq_dec s1 s2); congruence.
Qed.

Lemma upd_length (l : list nat) (d v : nat) : length (upd l d v) = length l.
Proof.
  revert d. induction l as [|x l IH]; intros [|d]; simpl; auto.
Qed.

Lemma cat_ok (x y : tensor) (d : nat) :
  d < tdim x -> upd (tshape x) d 0 = upd (tshape y) d 0 ->
  exists c, cat x y d = Ok c
            /\ tshape c = upd (tshape x) d (sh x d + sh y d) /\ wf c.
Proof.
  intros Hd Hs. unfold cat. apply Nat.ltb_lt in Hd. rewrite Hd, Hs.
  rewrite shape_eqb_refl. cbn [andb]. eexists. split; [reflexivity|].
  split; [reflexivity | apply build_wf].
Qed.

Lemma cat_inv (x y c : tensor) (d : nat) :
  cat x y d = Ok c ->
  tshape c = upd (tshape x) d (sh x d + sh y d)
  /\ upd (tshape x) d 0 = upd (tshape y) d 0 /\ d < tdim x.
Proof.
  unfold cat. destruct (d <? tdim x) eqn:Hd; [|discriminate].
  destruct (shape_eqb _ _) eqn:Hs; [|discriminate]. cbn [andb].
  intros H. inversion H. split; [reflexivity|].
  split; [apply shape_eqb_eq, Hs | apply Nat.ltb_lt, Hd].
Qed.

Lemma cat_dim (x y c : tensor) (d : nat) :
  cat x y d = Ok c -> tdim c = tdim x.
Proof.
  intros H. apply cat_inv in H. destruct H as (H & _). unfold tdim.
  rewrite H. apply upd_length.
Qed.

Lemma sum_keep_inv (t c : tensor) (d : nat) :
  sum_keep t d = Ok c -> tshape c = upd (tshape t) d 1.
Proof.
  unfold sum_keep. destruct (d <? tdim t); [|discriminate].
  intros H. inversion H. reflexivity.
Qed.

Lemma sum_keep_dim (t c : tensor) (d : nat) :
  sum_keep t d = Ok c -> tdim c = tdim t.
Proof.
  intros H. apply sum_keep_inv in H. unfold tdim. rewrite H.
  apply upd_length.
Qed.

Lemma sum_drop_inv (t c : tensor) (d : nat) :
  sum_drop t d = Ok c -> tshape c = del (tshape t) d /\ d < tdim t.
Proof.
  unfold sum_drop. destruct (d <? tdim t) eqn:E; [|discriminate].
  intros H. inversion H. split; [reflexivity | apply Nat.ltb_lt, E].
Qed.

Lemma del_length (l : list nat) (d : nat) :
  d < length l -> length (del l d) = length l - 1.
Proof.
  revert d. induction l as [|x l IH]; intros d H; simpl in H; [lia|].
  destruct d as [|d]; simpl; [lia|]. rewrite IH by lia.
  destruct l; simpl in *; lia.
Qed.

Lemma sum_drop_dim (t c : tensor) (d : nat) :
  sum_drop t d = Ok c -> tdim c = tdim t - 1.
Proof.
  intros H. apply sum_drop_inv in H. destruct H as (H & Hd).
  unfold tdim in *. rewrite H. apply del_length, Hd.
Qed.

Lemma cp_to_tt_dim (f c : tensor) : _cp_to_tt f = Ok c -> tdim c = 3.
Proof.
  unfold _cp_to_tt. destruct (tshape f) as [|a [|b [|c0 [|? ?]]]] eqn:E;
    try discriminate.
  - unfold transpose. rewrite E. cbn [bind].
    rewrite reshape_exact by (unfold build3, build; simpl; lia).
    cbn [bind]. unfold permute021. cbn [tshape bind].
    unfold drop_last_row, build3, build. cbn [tshape].
    intros H. inversion H. reflexivity.
  - intros H. inversion H. subst. unfold tdim. rewrite E. reflexivity.
Qed.

Lemma lift_pair_dims (c1 c2 a b : tensor) :
  lift_pair c1 c2 = Ok (a, b) -> tdim a = 3 /\ tdim b = 3.
Proof.
  unfold lift_pair.
  destruct (tdim c1 =? 2) eqn:E1; destruct (tdim c2 =? 2) eqn:E2;
    cbn [andb].
  1:{ intros H. inversion H. unfold unsqueeze_first, tdim in *.
      cbn [tshape length]. apply Nat.eqb_eq in E1, E2. lia. }
  all: destruct (_cp_to_tt c1) as [x|] eqn:Ex; [|discriminate]; cbn [bind];
    destruct (_cp_to_tt c2) as [y|] eqn:Ey; [|discriminate]; cbn [bind];
    intros H; inversion H; subst;
    split; eapply cp_to_tt_dim; eassumption.
Qed.

Lemma einsum_ijk_aj_iak_dim (x y c : tensor) :
  einsum_ijk_aj_iak x y = Ok c -> tdim c = 3.
Proof.
  unfold einsum_ijk_aj_iak.
  destruct (tshape x) as [|? [|? [|? [|? ?]]]]; try discriminate.
  destruct (tshape y) as [|? [|? [|? ?]]]; try discriminate.
  destruct (_ =? _); [|discriminate]. intros H. inversion H. reflexivity.
Qed.

Ltac bind_inv H :=
  match type of H with
  | bind ?c _ = Ok _ =>
      let x := fresh "x" in
      let E := fresh "E" in
      destruct c as [x|] eqn:E; [cbn [bind] in H | discriminate H]
  end.

Ltac dims_of_results :=
  repeat match goal with
         | H : cat _ _ _ = Ok _ |- _ => apply cat_dim in H
         | H : einsum_ijk_aj_iak _ _ = Ok _ |- _ =>
             apply einsum_ijk_aj_iak_dim in H
         | H : sum_keep _ _ = Ok _ |- _ => apply sum_keep_dim in H
         | H : sum_drop _ _ = Ok _ |- _ => apply sum_drop_dim in H
         | H : Ok _ = Ok _ |- _ => inversion H; subst; clear H
         end.

(** The core the loop of [__add__] makes for an axis has 3 indices. *)
Lemma add_axis_dim (self this other : Tensor) (n : nat) (c : tensor)
  (u : option tensor) :
  add_axis self this other n = Ok (c, u) -> tdim c = 3.
Proof.
  unfold add_axis. intros H.
  bind_inv H. bind_inv H. bind_inv H. destruct x1 as [core1 core2].
  apply lift_pair_dims in E1. destruct E1 as (D1 & D2).
  bind_inv H. bind_inv H.
  destruct x1 as [u1|]; [destruct x2 as [u2|]|].
  - repeat bind_inv H. dims_of_results. congruence.
  - repeat bind_inv H. unfold apply_factor in *.
    repeat match goal with
           | H : match ?x with Some _ => _ | None => _ end = Ok _ |- _ =>
               destruct x; [|discriminate H]
           | H : bind _ _ = Ok _ |- _ => bind_inv H
           end.
    dims_of_results. congruence.
  - repeat bind_inv H.
    repeat match goal with
           | H : match ?x with Some _ => _ | None => _ end = Ok _ |- _ =>
               destruct x
           end.
    all: dims_of_results; congruence.
Qed.

Lemma reshape_dim (t c : tensor) (s : sizes) :
  reshape t s = Ok c -> tdim c = length s.
Proof.
  unfold reshape, infer_size. intros H.
  destruct (count_infer s) as [|[|?]]; try discriminate H.
  - destruct (_ =? _); [|discriminate H]. cbn [bind] in H. inversion H.
    unfold tdim, fill_infer. cbn [tshape]. apply length_map.
  - destruct (_ =? _); [discriminate H|].
    destruct (_ =? _); [|discriminate H]. cbn [bind] in H. inversion H.
    unfold tdim, fill_infer. cbn [tshape]. apply length_map.
Qed.

Lemma reshape_data (t c : tensor) (s : sizes) :
  reshape t s = Ok c -> tdata c = tdata t.
Proof.
  unfold reshape. intros H. bind_inv H. inversion H. reflexivity.
Qed.

Lemma core_kron_dim (a b c : tensor) : _core_kron a b = Ok c -> tdim c = 3.
Proof.
  unfold _core_kron. intros H. repeat bind_inv H.
  apply reshape_dim in H. exact H.
Qed.

Lemma select_first0_dim (t c : tensor) :
  select_first0 t = Ok c -> tdim c = 2.
Proof.
  unfold select_first0.
  destruct (tshape t) as [|? [|? [|? [|? ?]]]]; try discriminate.
  destruct (_ =? _); [discriminate|]. intros H. inversion H. reflexivity.
Qed.

(** The core the loop of [__mul__] makes for an axis is a CP factor when
    both operands have one there, and a TT core otherwise. *)
Lemma mul_axis_dim (this other : Tensor) (n : nat) (c : tensor)
  (u : option tensor) :
  mul_axis this other n = Ok (c, u) ->
  exists tc oc, get_item (cores this) n = Ok tc
                /\ get_item (cores other) n = Ok oc
                /\ tdim c = if (tdim tc =? 2) && (tdim oc =? 2) then 2 else 3.
Proof.
  unfold mul_axis. intros H.
  bind_inv H. bind_inv H. exists x, x0. split; [reflexivity|].
  split; [reflexivity|].
  bind_inv H. destruct x1 as [core1 core2].
  bind_inv H. bind_inv H. bind_inv H. bind_inv H. destruct x4 as [c0 u0].
  assert (D : tdim c0 = 3).
  { destruct x3.
    - repeat bind_inv E5. inversion E5. subst.
      match goal with
      | H : reshape _ (exact _) = Ok c0 |- _ => apply reshape_dim in H;
                                                 exact H
      end.
    - repeat bind_inv E5. inversion E5. subst.
      eapply core_kron_dim. eassumption. }
  destruct ((tdim x =? 2) && (tdim x0 =? 2)).
  - bind_inv H. inversion H. subst. eapply select_first0_dim. eassumption.
  - inversion H. subst. exact D.
Qed.

Lemma broadcast_same (a b : Tensor) (s : list nat) :
  shape a = Ok s -> shape b = Ok s -> _broadcast a b = Ok (a, b).
Proof.
  intros Ha Hb. unfold _broadcast. rewrite Ha, Hb. cbn [bind].
  rewrite shape_eqb_refl. reflexivity.
Qed.

Lemma Tensor_of_cores_inv (data : list tensor)
  (us : option (list (option tensor))) (t : Tensor) :
  Tensor_of_cores data us = Ok t ->
  cores t = data
  /\ Us t = match us with
            | None => repeat None (length data)
            | Some l => l
            end
  /\ core_dims_ok data = true /\ core_ranks_ok data = true.
Proof.
  unfold Tensor_of_cores. intros H.
  destruct (core_dims_ok data); [|discriminate H].
  destruct (core_ranks_ok data); [|discriminate H]. cbn [negb] in H.
  bind_inv H. inversion H. auto.
Qed.

Lemma both_cp_inv (a b : Tensor) (n : nat) (r : bool) :
  both_cp a b n = Ok r -> r = cp_pair a b n.
Proof.
  unfold both_cp, cp_pair. intros H. bind_inv H. bind_inv H.
  inversion H. rewrite (get_item_nth_eq _ _ tnil E).
  rewrite (get_item_nth_eq _ _ tnil E0). reflexivity.
Qed.

(** The format rule of [__mul__], for operands of one shape. *)
Lemma mul_tensors_format (a b t : Tensor) (s : list nat) :
  shape a = Ok s -> shape b = Ok s ->
  mul_tensors a b = Ok t ->
  length (cores t) = dim a
  /\ forall n, n < dim a ->
       tdim (nth n (cores t) tnil) = if cp_pair a b n then 2 else 3.
Proof.
  intros Ha Hb H. unfold mul_tensors in H.
  rewrite (broadcast_same _ _ Ha Hb) in H. cbn [bind] in H.
  bind_inv H. apply Tensor_of_cores_inv in H. destruct H as (Hc & _).
  rewrite Hc.
  destruct (@mapM_seq_partial _ (mul_axis a b)
              (fun k cu => tdim (fst cu) = if cp_pair a b k then 2 else 3)
              0 (dim a) (tnil, None) x) as (Hl & Hn).
  - intros k [c u] _ Hk. apply mul_axis_dim in Hk.
    destruct Hk as (tc & oc & G1 & G2 & D). cbn [fst]. rewrite D.
    unfold cp_pair. rewrite (get_item_nth_eq _ _ tnil G1).
    rewrite (get_item_nth_eq _ _ tnil G2). reflexivity.
  - exact E.
  - split; [rewrite length_map; exact Hl|].
    intros n Hlt. specialize (Hn n Hlt). cbn [Nat.add] in Hn.
    rewrite <- Hn. change tnil with (fst (tnil, @None tensor)).
    rewrite map_nth. reflexivity.
Qed.

Lemma set_item_dims (l l' : list tensor) (k N : nat) (v : tensor)
  (f : nat -> nat) :
  length l = N -> (forall j, j < N -> tdim (nth j l tnil) = f j) ->
  set_item l k v = Ok l' -> tdim v = f k ->
  length l' = N /\ forall j, j < N -> tdim (nth j l' tnil) = f j.
Proof.
  intros Hl Hd Hs Hv. split.
  - rewrite (@set_item_length _ _ _ _ _ Hs). exact Hl.
  - intros j Hj. rewrite (@set_item_nth _ _ _ _ j _ tnil Hs).
    destruct (Nat.eqb_spec j k) as [->|_]; [exact Hv | apply Hd, Hj].
Qed.

(** The format rule of [__add__], for operands of one shape on two axes
    or more. *)
Lemma add_tensors_format (a b t : Tensor) (s : list nat) :
  dim a <> 1 -> shape a = Ok s -> shape b = Ok s ->
  add_tensors a b = Ok t ->
  length (cores t) = dim a
  /\ forall n, n < dim a ->
       tdim (nth n (cores t) tnil) = if cp_pair a b n then 2 else 3.
Proof.
  intros Hd Ha Hb H. unfold add_tensors in H.
  replace (dim a =? 1) with false in H
    by (symmetry; apply Nat.eqb_neq; exact Hd).
  rewrite (broadcast_same _ _ Ha Hb) in H. cbn [bind] in H.
  bind_inv H. rename x into cus. rename E into Hcus.
  destruct (@mapM_seq_partial _ (add_axis a a b)
              (fun k cu => tdim (fst cu) = 3) 0 (dim a) (tnil, None) cus)
    as (Hl & Hn).
  { intros k [c u] _ Hk. apply add_axis_dim in Hk. exact Hk. }
  { exact Hcus. }
  assert (H0 : length (map fst cus) = dim a
               /\ forall j, j < dim a ->
                    tdim (nth j (map fst cus) tnil) = (fun _ => 3) j).
  { split; [rewrite length_map; exact Hl|].
    intros j Hj. change tnil with (fst (tnil, @None tensor)).
    rewrite map_nth. apply (Hn j Hj). }
  set (cs0 := map fst cus) in *. clearbody cs0.
  bind_inv H. rename x into b0.
  bind_inv H. rename x into cs1.
  assert (H1 : length cs1 = dim a
               /\ forall j, j < dim a ->
                    tdim (nth j cs1 tnil) = (fun _ => 3) j).
  { destruct (negb b0).
    - repeat bind_inv E0.
      eapply set_item_dims; [apply H0 | apply H0 | exact E0 |].
      dims_of_results.
      match goal with
      | G : get_item cs0 0 = Ok ?c, D : tdim _ = tdim ?c |- _ =>
          rewrite D; rewrite <- (@get_item_nth_eq _ _ _ _ tnil G);
          apply H0; rewrite <- (proj1 H0);
          apply (@get_item_lt _ _ _ _ G)
      end.
    - inversion E0. subst. exact H0. }
  bind_inv H. bind_inv H. bind_inv H. rename x1 into cs2.
  assert (H2 : length cs2 = dim a
               /\ forall j, j < dim a ->
                    tdim (nth j cs2 tnil) = (fun _ => 3) j).
  { match type of E3 with (if ?c then _ else _) = _ => destruct c end.
    - repeat bind_inv E3. unfold set_last in E3.
      match goal with
      | G : get_last cs1 = Ok _ |- _ => unfold get_last in G
      end.
      destruct cs1 as [|c1 cs1']; [discriminate E3|].
      eapply set_item_dims; [apply H1 | apply H1 | exact E3 |].
      dims_of_results.
      match goal with
      | G : get_item _ _ = Ok ?c, D : tdim _ = tdim ?c |- _ =>
          rewrite D; rewrite <- (@get_item_nth_eq _ _ _ _ tnil G);
          apply H1; rewrite <- (proj1 H1);
          apply (@get_item_lt _ _ _ _ G)
      end.
    - inversion E3. subst. exact H1. }
  bind_inv H. rename x1 into cs3.
  apply Tensor_of_cores_inv in H. destruct H as (Hc & _). rewrite Hc.
  pose proof (@foldM_seq_partial _ (add_fix_cp a b)
                (fun k l => length l = dim a
                            /\ forall j, j < dim a ->
                                 tdim (nth j l tnil)
                                 = if j <? k
                                   then if cp_pair a b j then 2 else 3
                                   else 3)
                0 (dim a) cs2 cs3) as HF.
  cbn [Nat.add] in HF.
  destruct HF as (Hl3 & Hd3).
  - split; [apply H2|]. intros j Hj. cbn [Nat.ltb Nat.leb]. apply H2, Hj.
  - intros k l l' Hk (Hll & Hdl) Hstep. unfold add_fix_cp in Hstep.
    bind_inv Hstep. apply both_cp_inv in E5. subst x1.
    destruct (cp_pair a b k) eqn:Ecp.
    + repeat bind_inv Hstep. split.
      * rewrite (@set_item_length _ _ _ _ _ Hstep). exact Hll.
      * intros j Hj. rewrite (@set_item_nth _ _ _ _ j _ tnil Hstep).
        destruct (Nat.eqb_spec j k) as [->|Hne].
        -- replace (k <? S k) with true by (symmetry; apply Nat.ltb_lt; lia).
           rewrite Ecp. dims_of_results.
           match goal with
           | G : get_item l k = Ok ?c, D : tdim _ = tdim ?c - 1 |- _ =>
               rewrite D; rewrite <- (@get_item_nth_eq _ _ _ _ tnil G);
               rewrite (Hdl k ltac:(lia))
           end.
           rewrite Nat.ltb_irrefl. reflexivity.
        -- rewrite (Hdl j Hj).
           destruct (Nat.ltb_spec j k); destruct (Nat.ltb_spec j (S k));
             try lia; reflexivity.
    + inversion Hstep. subst l'. split; [exact Hll|].
      intros j Hj. rewrite (Hdl j Hj).
      destruct (Nat.eqb_spec j k) as [->|Hne].
      * rewrite Nat.ltb_irrefl.
        replace (k <? S k) with true by (symmetry; apply Nat.ltb_lt; lia).
        rewrite Ecp. reflexivity.
      * destruct (Nat.ltb_spec j k); destruct (Nat.ltb_spec j (S k));
          try lia; reflexivity.
  - exact E4.
  - split; [exact Hl3|]. intros n Hn'. rewrite (Hd3 n Hn').
    replace (n <? dim a) with true by (symmetry; apply Nat.ltb_lt; lia).
    reflexivity.
Qed.

(** ** Sums and products of CP networks *)

Lemma shapes_get_item (cs : list tensor) (f : nat -> list nat)
  (sp : list nat) (n : nat) :
  map tshape cs = map f sp -> n < length sp ->
  exists c, get_item cs n = Ok c /\ tshape c = f (nth n sp 0)
            /\ nth n cs tnil = c.
Proof.
  intros H Hn.
  assert (Hl : length cs = length sp).
  { apply (f_equal (@length _)) in H. rewrite !length_map in H. exact H. }
  exists (nth n cs tnil). split; [apply get_item_nth; lia|].
  split; [|reflexivity].
  apply (f_equal (fun l => nth n l [])) in H.
  rewrite (nth_indep _ [] (tshape tnil)) in H by (rewrite length_map; lia).
  rewrite map_nth in H. rewrite H.
  rewrite (nth_indep _ [] (f 0)) by (rewrite length_map; lia).
  apply map_nth.
Qed.

Lemma get_item_repeat (A : Type) (x : A) (N n : nat) :
  n < N -> get_item (repeat x N) n = Ok x.
Proof.
  intros H. unfold get_item.
  rewrite (nth_error_nth' _ x) by (rewrite repeat_length; exact H).
  rewrite nth_repeat. reflexivity.
Qed.

Lemma cp_network_length (t : Tensor) (sp : list nat) (r : nat) :
  cp_network t sp r -> dim t = length sp.
Proof.
  intros (H & _). unfold dim. apply (f_equal (@length _)) in H.
  rewrite !length_map in H. exact H.
Qed.

Lemma cp_network_shape (t : Tensor) (sp : list nat) (r : nat) :
  cp_network t sp r -> shape t = Ok sp.
Proof.
  intros Hcp. pose proof (cp_network_length Hcp) as Hl.
  destruct Hcp as (H & Hu & _). unfold shape. rewrite Hu.
  unfold dim in Hl. rewrite <- Hl, shape_of_none. f_equal.
  transitivity (map (fun l => nth (length l - 2) l 0) (map tshape (cores t))).
  - rewrite map_map. reflexivity.
  - rewrite H, map_map. cbn [length Nat.sub nth]. apply map_id.
Qed.

Lemma cp_dims_ok (cs : list tensor) (sp : list nat) (r : nat) :
  map tshape cs = map (fun n => [n; r]) sp ->
  core_dims_ok cs = true /\ core_ranks_ok cs = true.
Proof.
  revert sp. induction cs as [|c cs IH]; intros [|n sp] H; simpl in H;
    try discriminate; [split; reflexivity|].
  injection H as Hc H. destruct (IH _ H) as (IH1 & IH2). split.
  - cbn [core_dims_ok forallb]. unfold tdim at 1 2. rewrite Hc.
    cbn [length Nat.leb andb]. exact IH1.
  - destruct cs as [|c' cs]; [reflexivity|].
    rewrite core_ranks_ok_cons, IH2, andb_true_r.
    destruct sp as [|n' sp]; [discriminate|]. simpl in H.
    injection H as Hc' _.
    unfold shr, sh, tdim. rewrite Hc, Hc'. cbn [length Nat.sub nth Nat.eqb].
    rewrite Nat.eqb_refl. reflexivity.
Qed.

Lemma all_none_repeat (A : Type) (l : list (option A)) :
  (forall j, j < length l -> nth j l None = None) ->
  l = repeat None (length l).
Proof.
  induction l as [|x l IH]; intros H; [reflexivity|].
  cbn [length repeat]. f_equal.
  - apply (H 0). simpl. lia.
  - apply IH. intros j Hj. apply (H (S j)). simpl. lia.
Qed.

Lemma shapes_of_nth (cs : list tensor) (f : nat -> list nat) (sp : list nat) :
  length cs = length sp ->
  (forall j, j < length sp -> tshape (nth j cs tnil) = f (nth j sp 0)) ->
  map tshape cs = map f sp.
Proof.
  intros Hl H. apply (nth_ext _ _ (tshape tnil) (f 0)).
  - rewrite !length_map. exact Hl.
  - intros j Hj. rewrite length_map in Hj. rewrite !map_nth.
    apply H. lia.
Qed.

Lemma Forall_of_nth (A : Type) (P : A -> Prop) (l : list A) (d : A) :
  (forall j, j < length l -> P (nth j l d)) -> Forall P l.
Proof.
  intros H. apply Forall_forall. intros x Hx.
  destruct (In_nth _ _ d Hx) as (j & Hj & <-). apply H, Hj.
Qed.

Lemma Forall_nth_wf (l : list tensor) (j : nat) :
  Forall wf l -> j < length l -> wf (nth j l tnil).
Proof. intros H Hj. rewrite Forall_forall in H. apply H, nth_In, Hj. Qed.

(** The pass of the loop of [__add__] on an axis held by two CP factors. *)
Lemma add_axis_cp (a b : Tensor) (sp : list nat) (r1 r2 n : nat) :
  cp_network a sp r1 -> cp_network b sp r2 -> n < length sp ->
  exists c, add_axis a a b n = Ok (c, None)
            /\ tshape c = [2; nth n sp 0; r1 + r2] /\ wf c.
Proof.
  intros Ha Hb Hn. pose proof (cp_network_shape Ha) as Hsa.
  destruct Ha as (Hca & Hua & _). destruct Hb as (Hcb & Hub & _).
  destruct (@shapes_get_item _ _ _ n Hca Hn) as (c1 & G1 & S1 & _).
  destruct (@shapes_get_item _ _ _ n Hcb Hn) as (c2 & G2 & S2 & _).
  unfold add_axis. rewrite G1, G2. cbn [bind].
  unfold lift_pair, tdim. rewrite S1, S2. cbn [length Nat.eqb andb bind].
  rewrite Hua, Hub, !get_item_repeat by exact Hn. cbn [bind].
  rewrite Hsa. cbn [bind]. rewrite (@get_item_nth _ sp n 0) by exact Hn.
  cbn [bind].
  unfold unsqueeze_first, sh. rewrite S1, S2. cbn [tshape nth].
  set (I := nth n sp 0).
  destruct (@cat_ok (mkT [1; I; r1] (tdata c1)) (zeros [1; I; r1]) 0)
    as (col1 & E1 & Sh1 & W1); [unfold tdim; simpl; lia | reflexivity |].
  rewrite E1. cbn [bind].
  destruct (@cat_ok (zeros [1; I; r2]) (mkT [1; I; r2] (tdata c2)) 0)
    as (col2 & E2 & Sh2 & W2); [unfold tdim; simpl; lia | reflexivity |].
  rewrite E2. cbn [bind].
  destruct (@cat_ok col1 col2 2) as (c & E3 & Sh3 & W3).
  { unfold tdim. rewrite Sh1. simpl. lia. }
  { rewrite Sh1, Sh2. reflexivity. }
  rewrite E3. cbn [bind]. exists c. split; [reflexivity|].
  split; [|exact W3]. rewrite Sh3. unfold sh. rewrite Sh1, Sh2.
  reflexivity.
Qed.

Lemma both_cp_cp (a b : Tensor) (sp : list nat) (r1 r2 n : nat) :
  cp_network a sp r1 -> cp_network b sp r2 -> n < length sp ->
  both_cp a b n = Ok true.
Proof.
  intros (Hca & _) (Hcb & _) Hn.
  destruct (@shapes_get_item _ _ _ n Hca Hn) as (c1 & G1 & S1 & _).
  destruct (@shapes_get_item _ _ _ n Hcb Hn) as (c2 & G2 & S2 & _).
  unfold both_cp. rewrite G1, G2. cbn [bind]. unfold tdim.
  rewrite S1, S2. reflexivity.
Qed.

Lemma get_last_cp (t : Tensor) (sp : list nat) (r : nat) :
  cp_network t sp r -> sp <> [] ->
  exists c, get_last (cores t) = Ok c /\ tdim c = 2.
Proof.
  intros Hcp Hne. pose proof (cp_network_length Hcp) as Hl.
  destruct Hcp as (Hc & _). unfold dim in Hl.
  assert (Hpos : length sp - 1 < length sp)
    by (destruct sp; [congruence | simpl; lia]).
  destruct (@shapes_get_item _ _ _ (length sp - 1) Hc Hpos)
    as (c & G & S & _).
  exists c. split.
  - unfold get_last. destruct (cores t) as [|c0 cs] eqn:E.
    + simpl in Hl. destruct sp; [congruence | discriminate].
    + rewrite Hl. exact G.
  - unfold tdim. rewrite S. reflexivity.
Qed.

Lemma sum_drop0_ok (t : tensor) (a : nat) (rest : list nat) :
  tshape t = a :: rest ->
  sum_drop t 0
  = Ok (build rest (fun idx => rsum a (fun m => get t (ins idx 0 m)))).
Proof.
  intros H. unfold sum_drop, tdim, sh. rewrite H. reflexivity.
Qed.

(** The sum of two CP networks on two axes or more. *)
Lemma add_cp_closure (a b : Tensor) (sp : list nat) (r1 r2 : nat) :
  2 <= length sp -> cp_network a sp r1 -> cp_network b sp r2 ->
  exists t, add_tensors a b = Ok t /\ cp_network t sp (r1 + r2).
Proof.
  intros HN Ha Hb.
  pose proof (cp_network_shape Ha) as Hsa.
  pose proof (cp_network_shape Hb) as Hsb.
  pose proof (cp_network_length Ha) as Hla.
  assert (Hne : sp <> []) by (destruct sp; [simpl in HN; lia | discriminate]).
  unfold add_tensors.
  replace (dim a =? 1) with false by (symmetry; apply Nat.eqb_neq; lia).
  rewrite (broadcast_same _ _ Hsa Hsb). cbn [bind].
  destruct (@mapM_seq_total _ (add_axis a a b)
              (fun k cu => snd cu = None
                           /\ tshape (fst cu) = [2; nth k sp 0; r1 + r2]
                           /\ wf (fst cu))
              0 (dim a) (tnil, None)) as (cus & Ecus & Hlc & Hcus).
  { intros k Hk. destruct (@add_axis_cp a b sp r1 r2 k Ha Hb ltac:(lia))
      as (c & Ec & Sc & Wc).
    exists (c, None). split; [exact Ec|]. cbn [fst snd]. auto. }
  rewrite Ecus. cbn [bind].
  rewrite (both_cp_cp Ha Hb) by lia. cbn [bind negb].
  destruct (get_last_cp Ha Hne) as (l1 & El1 & Dl1).
  destruct (get_last_cp Hb Hne) as (l2 & El2 & Dl2).
  rewrite El1, El2. cbn [bind]. rewrite Dl1, Dl2. cbn [Nat.eqb andb negb bind].
  destruct (@foldM_seq_total _ (add_fix_cp a b)
              (fun k l => length l = dim a
                          /\ forall j, j < dim a ->
                               wf (nth j l tnil)
                               /\ tshape (nth j l tnil)
                                  = if j <? k then [nth j sp 0; r1 + r2]
                                    else [2; nth j sp 0; r1 + r2])
              0 (dim a) (map fst cus)) as (cs3 & Ecs3 & Hl3 & Hcs3).
  { split; [rewrite length_map; exact Hlc|].
    intros j Hj. cbn [Nat.ltb Nat.leb].
    change tnil with (fst (tnil, @None tensor)). rewrite map_nth.
    destruct (Hcus j Hj) as (_ & S & W). auto. }
  { intros k l Hk (Hll & Hdl). unfold add_fix_cp.
    rewrite (both_cp_cp Ha Hb) by lia. cbn [bind].
    rewrite (@get_item_nth _ l k tnil) by lia. cbn [bind].
    destruct (Hdl k ltac:(lia)) as (Wk & Sk). rewrite Nat.ltb_irrefl in Sk.
    rewrite (sum_drop0_ok _ Sk). cbn [bind].
    destruct (@set_item_total _ l k
                (build [nth k sp 0; r1 + r2]
                   (fun idx => rsum 2
                                 (fun m => get (nth k l tnil) (ins idx 0 m)))))
      as (l' & El'); [lia|].
    exists l'. split; [exact El'|]. split.
    - rewrite (@set_item_length _ _ _ _ _ El'). exact Hll.
    - intros j Hj. rewrite (@set_item_nth _ _ _ _ j _ tnil El').
      destruct (Nat.eqb_spec j k) as [->|Hne'].
      + replace (k <? S k) with true by (symmetry; apply Nat.ltb_lt; lia).
        split; [apply build_wf | reflexivity].
      + destruct (Hdl j Hj) as (Wj & Sj). split; [exact Wj|]. rewrite Sj.
        destruct (Nat.ltb_spec j k); destruct (Nat.ltb_spec j (S k));
          try lia; reflexivity. }
  cbn [Nat.add] in Ecs3, Hl3, Hcs3. rewrite Ecs3. cbn [bind].
  assert (Hsh3 : map tshape cs3 = map (fun n => [n; r1 + r2]) sp).
  { apply shapes_of_nth; [lia|]. intros j Hj.
    destruct (Hcs3 j ltac:(lia)) as (_ & S). rewrite S.
    replace (j <? dim a) with true by (symmetry; apply Nat.ltb_lt; lia).
    reflexivity. }
  assert (Hus : map snd cus = repeat None (length sp)).
  { rewrite <- Hla, <- Hlc, <- (length_map snd cus).
    apply all_none_repeat. intros j Hj. rewrite length_map in Hj.
    change (@None tensor) with (snd (tnil, @None tensor)) at 1.
    rewrite map_nth. apply (Hcus j). lia. }
  unfold Tensor_of_cores.
  destruct (@cp_dims_ok _ _ _ Hsh3) as (D1 & D2). rewrite D1, D2. cbn [negb].
  rewrite Hus.
  replace (length sp) with (length cs3) by lia.
  rewrite check_factors_none. cbn [bind].
  eexists. split; [reflexivity|].
  unfold cp_network. cbn [cores Us]. split; [exact Hsh3|].
  split; [f_equal; lia|].
  apply (@Forall_of_nth _ wf cs3 tnil). intros j Hj.
  apply (Hcs3 j). lia.
Qed.

Lemma bsize_refl (a : nat) : bsize a a = Ok a.
Proof. unfold bsize. rewrite Nat.eqb_refl. reflexivity. Qed.

Lemma bsize_1_l (b : nat) : bsize 1 b = Ok b.
Proof.
  unfold bsize. destruct (Nat.eqb_spec 1 b) as [<-|_]; reflexivity.
Qed.

Lemma bsize_1_r (a : nat) : bsize a 1 = Ok a.
Proof.
  unfold bsize. destruct (Nat.eqb_spec a 1) as [->|_]; [reflexivity|].
  destruct (Nat.eqb_spec a 1); reflexivity.
Qed.

Lemma reshape_mid (t : tensor) (a m c : nat) :
  a * c <> 0 -> numel (tshape t) = a * m * c ->
  reshape t [Some a; None; Some c] = Ok (mkT [a; m; c] (tdata t)).
Proof.
  intros Hk H. unfold reshape, infer_size. simpl.
  rewrite Nat.mul_1_r.
  replace (a * c =? 0) with false by (symmetry; apply Nat.eqb_neq; exact Hk).
  replace (numel (tshape t)) with (m * (a * c)) by lia.
  rewrite Nat.Div0.mod_mul, Nat.div_mul by exact Hk. reflexivity.
Qed.

(** The pass of the loop of [__mul__] on an axis held by two CP factors. *)
Lemma mul_axis_cp (a b : Tensor) (sp : list nat) (r1 r2 n : nat) :
  0 < r1 -> 0 < r2 ->
  cp_network a sp r1 -> cp_network b sp r2 -> n < length sp ->
  exists c, mul_axis a b n = Ok (c, None)
            /\ tshape c = [nth n sp 0; r1 * r2] /\ wf c.
Proof.
  intros Hr1 Hr2 Ha Hb Hn.
  destruct Ha as (Hca & Hua & _). destruct Hb as (Hcb & Hub & _).
  destruct (@shapes_get_item _ _ _ n Hca Hn) as (c1 & G1 & S1 & _).
  destruct (@shapes_get_item _ _ _ n Hcb Hn) as (c2 & G2 & S2 & _).
  destruct c1 as [s1 d1]. destruct c2 as [s2 d2]. cbn [tshape] in S1, S2.
  subst s1 s2. set (I := nth n sp 0) in *.
  unfold mul_axis. rewrite G1, G2. cbn [bind].
  unfold lift_pair, tdim. cbn [tshape length Nat.eqb andb bind].
  rewrite Hua, Hub, !get_item_repeat by exact Hn. cbn [bind].
  unfold _core_kron, kron_view_a, kron_view_b, unsqueeze_first.
  cbn [tshape tdata bind].
  unfold bmul, bshape. cbn [tshape rev app bshape_rev].
  rewrite bsize_1_l, bsize_1_r, bsize_refl. cbn [bind].
  rewrite bsize_refl. cbn [bind rev app].
  unfold sh, shr, tdim. cbn [tshape length Nat.sub nth].
  rewrite (@reshape_mid _ (1 * 1) I (r1 * r2))
    by (unfold build; cbn [tshape]; simpl; nia).
  cbn [bind]. unfold select_first0. cbn [tshape Nat.mul Nat.add Nat.eqb bind].
  eexists. split; [reflexivity|]. split; [reflexivity | apply build_wf].
Qed.

(** The product of two CP networks. *)
Lemma mul_cp_closure (a b : Tensor) (sp : list nat) (r1 r2 : nat) :
  0 < r1 -> 0 < r2 -> cp_network a sp r1 -> cp_network b sp r2 ->
  exists t, mul_tensors a b = Ok t /\ cp_network t sp (r1 * r2).
Proof.
  intros Hr1 Hr2 Ha Hb.
  pose proof (cp_network_shape Ha) as Hsa.
  pose proof (cp_network_shape Hb) as Hsb.
  pose proof (cp_network_length Ha) as Hla.
  unfold mul_tensors.
  rewrite (broadcast_same _ _ Hsa Hsb). cbn [bind].
  destruct (@mapM_seq_total _ (mul_axis a b)
              (fun k cu => snd cu = None
                           /\ tshape (fst cu) = [nth k sp 0; r1 * r2]
                           /\ wf (fst cu))
              0 (dim a) (tnil, None)) as (cus & Ecus & Hlc & Hcus).
  { intros k Hk.
    destruct (@mul_axis_cp a b sp r1 r2 k Hr1 Hr2 Ha Hb ltac:(lia))
      as (c & Ec & Sc & Wc).
    exists (c, None). split; [exact Ec|]. cbn [fst snd]. auto. }
  rewrite Ecus. cbn [bind].
  assert (Hsh : map tshape (map fst cus) = map (fun n => [n; r1 * r2]) sp).
  { apply shapes_of_nth; [rewrite length_map; lia|]. intros j Hj.
    change tnil with (fst (tnil, @None tensor)). rewrite map_nth.
    apply (Hcus j). lia. }
  assert (Hus : map snd cus = repeat None (length sp)).
  { rewrite <- Hla, <- Hlc, <- (length_map snd cus).
    apply all_none_repeat. intros j Hj. rewrite length_map in Hj.
    change (@None tensor) with (snd (tnil, @None tensor)) at 1.
    rewrite map_nth. apply (Hcus j). lia. }
  unfold Tensor_of_cores.
  destruct (@cp_dims_ok _ _ _ Hsh) as (D1 & D2). rewrite D1, D2. cbn [negb].
  rewrite Hus.
  replace (length sp) with (length (map fst cus))
    by (rewrite length_map; lia).
  rewrite check_factors_none. cbn [bind].
  eexists. split; [reflexivity|].
  unfold cp_network. cbn [cores Us]. split; [exact Hsh|].
  split; [f_equal; rewrite length_map; lia|].
  apply (@Forall_of_nth _ wf (map fst cus) tnil). intros j Hj.
  rewrite length_map in Hj.
  change tnil with (fst (tnil, @None tensor)). rewrite map_nth.
  apply (Hcus j). lia.
Qed.

Lemma decompress_cp (t : Tensor) (sp : list nat) (r : nat) :
  cp_network t sp r ->
  decompress_tucker_factors t = Ok (mkTensor (cores t) (Us t)).
Proof.
  intros Hcp. pose proof (cp_network_length Hcp) as Hl.
  destruct Hcp as (Hc & Hu & _). unfold dim in Hl.
  unfold decompress_tucker_factors. rewrite Hu, <- Hl.
  rewrite decompress_cores_none. cbn [bind]. unfold Tensor_of_cores.
  destruct (@cp_dims_ok _ _ _ Hc) as (D1 & D2). rewrite D1, D2. cbn [negb].
  rewrite check_factors_none. reflexivity.
Qed.

Lemma Tensor_of_cores_single (c : tensor) (n r : nat) :
  tshape c = [n; r] -> Tensor_of_cores [c] None = Ok (mkTensor [c] [None]).
Proof.
  intros H. unfold Tensor_of_cores, core_dims_ok, tdim. cbn [forallb].
  rewrite H. reflexivity.
Qed.

(** On one axis [__add__] adds the two cores entry by entry: the sum of two
    CP networks of one rank is the CP network of that rank whose factor
    holds the sums of the entries of the two factors. *)
Lemma add_cp_one_axis (a b : Tensor) (n r : nat) :
  cp_network a [n] r -> cp_network b [n] r ->
  exists t,
    add_tensors a b = Ok t /\ cp_network t [n] r
    /\ forall i j, i < n -> j < r ->
         get (nth 0 (cores t) tnil) [i; j]
         = get (nth 0 (cores a) tnil) [i; j]
           +! get (nth 0 (cores b) tnil) [i; j].
Proof.
  intros Ha Hb. pose proof (cp_network_length Ha) as Hla.
  unfold add_tensors. rewrite Hla. cbn [length Nat.eqb].
  rewrite (decompress_cp Ha), (decompress_cp Hb). cbn [bind cores].
  destruct Ha as (Hca & _). destruct Hb as (Hcb & _).
  destruct (@shapes_get_item _ _ [n] 0 Hca ltac:(simpl; lia))
    as (c1 & G1 & S1 & N1).
  destruct (@shapes_get_item _ _ [n] 0 Hcb ltac:(simpl; lia))
    as (c2 & G2 & S2 & N2).
  rewrite G1, G2, N1, N2. cbn [bind nth] in *.
  unfold badd, bshape. rewrite S1, S2. cbn [rev app bshape_rev].
  rewrite !bsize_refl. cbn [bind rev app].
  rewrite (@Tensor_of_cores_single _ n r) by reflexivity.
  eexists. split; [reflexivity|]. split.
  - unfold cp_network. cbn [cores Us map length repeat].
    split; [reflexivity|]. split; [reflexivity|].
    constructor; [apply build_wf | constructor].
  - intros i j Hi Hj. cbn [cores nth].
    rewrite get_build by (apply in_range2; assumption).
    unfold bidx. cbn [length Nat.sub skipn zip_with].
    assert (Ei : (if n =? 1 then 0 else i) = i)
      by (destruct (Nat.eqb_spec n 1); [lia|reflexivity]).
    assert (Ej : (if r =? 1 then 0 else j) = j)
      by (destruct (Nat.eqb_spec r 1); [lia|reflexivity]).
    rewrite Ei, Ej. reflexivity.
Qed.

(** C4 (as amended): for two CP networks without Tucker factors of one
    shape and of ranks [r1] and [r2], the sum on two axes or more is a CP
    network without Tucker factors of rank [r1 + r2]; the product, for
    ranks at least 1, is one of rank [r1 * r2]; on one axis the sum of two
    networks of one rank [r] is the CP network of rank [r] whose factor
    holds, at every position, the sum of the entries of the two factors.
    For any two networks of one shape, when the sum (on other
    than one axis) or the product succeeds, its core on an axis is a CP
    factor exactly when both operands hold a CP factor there, with or
    without a Tucker factor, and a TT core otherwise. *)
Theorem C4_format_closure (a b : Tensor) (sp : list nat) (r1 r2 : nat) :
  (cp_network a sp r1 -> cp_network b sp r2 ->
   (2 <= length sp ->
    exists t, add_tensors a b = Ok t /\ cp_network t sp (r1 + r2))
   /\ (0 < r1 -> 0 < r2 ->
       exists t, mul_tensors a b = Ok t /\ cp_network t sp (r1 * r2))
   /\ (length sp = 1 -> r1 = r2 ->
       exists t,
         add_tensors a b = Ok t /\ cp_network t sp r1
         /\ forall i j, i < nth 0 sp 0 -> j < r1 ->
              get (nth 0 (cores t) tnil) [i; j]
              = get (nth 0 (cores a) tnil) [i; j]
                +! get (nth 0 (cores b) tnil) [i; j]))
  /\ (shape a = Ok sp -> shape b = Ok sp ->
      (forall t, dim a <> 1 -> add_tensors a b = Ok t ->
                 length (cores t) = dim a
                 /\ forall n, n < dim a ->
                      tdim (nth n (cores t) tnil)
                      = if cp_pair a b n then 2 else 3)
      /\ (forall t, mul_tensors a b = Ok t ->
                    length (cores t) = dim a
                    /\ forall n, n < dim a ->
                         tdim (nth n (cores t) tnil)
                         = if cp_pair a b n then 2 else 3)).
Proof.
  split.
  - intros Ha Hb. split; [|split].
    + intros HN. apply add_cp_closure; assumption.
    + intros H1 H2. apply mul_cp_closure; assumption.
    + intros HN <-. destruct sp as [|n [|? ?]]; try discriminate HN.
      apply add_cp_one_axis; assumption.
  - intros Hsa Hsb. split.
    + intros t Hd Ht. eapply add_tensors_format; eassumption.
    + intros t Ht. eapply mul_tensors_format; eassumption.
Qed.

(** ** The decompression loop, index by index *)

Lemma get_reshaped3 (P s r p b j : nat) (f : nat -> nat -> nat -> R) :
  p < P -> b < s -> j < r ->
  get (mkT [P * s; r] (tab [P; s; r] (ix3 f))) [p * s + b; j] = f p b j.
Proof.
  intros Hp Hb Hj. rewrite <- get_as3.
  change (mkT [P; s; r] (tab [P; s; r] ?g)) with (build [P; s; r] g).
  rewrite get_build by (apply in_range3; assumption). reflexivity.
Qed.

Lemma get_reshaped2 (P s p b : nat) (f : nat -> nat -> R) :
  p < P -> b < s ->
  get (mkT [P * s; 1] (tab [P; s] (ix2 f))) [p * s + b; 0] = f p b.
Proof.
  intros Hp Hb. rewrite get_lin2.
  replace ((p * s + b) * 1 + 0) with (ravel [P; s] [p; b])
    by (rewrite ravel2; lia).
  rewrite nth_tab by (apply in_range2; assumption). reflexivity.
Qed.

Lemma torch_step_spec (N n P w : nat) (F0 c : tensor) :
  tshape F0 = [P; w] ->
  (tdim c = 2 \/ tdim c = 3) -> in_rank c = w ->
  out_rank (negb (n <? N - 1)) c <> 0 ->
  exists F1,
    torch_step N F0 (n, c) = Ok F1
    /\ tshape F1 = [P * mid c; out_rank (negb (n <? N - 1)) c]
    /\ forall p b j, p < P -> b < mid c ->
         j < out_rank (negb (n <? N - 1)) c ->
         get F1 [p * mid c + b; j]
         = vec_step (negb (n <? N - 1)) c b (fun i => get F0 [p; i]) j.
Proof.
  intros SF0 Dc Hin Hout.
  destruct c as [sc dc]. unfold tdim, in_rank, out_rank, mid, shr, tdim,
    vec_step in *. cbn [tshape] in *.
  destruct Dc as [Dc|Dc].
  - (* a CP factor *)
    destruct sc as [|s [|r [|? ?]]]; try discriminate Dc.
    cbn [length Nat.sub nth] in *. subst w.
    unfold torch_step, tdim. cbn [tshape length Nat.eqb].
    destruct (n <? N - 1) eqn:En; cbn [negb] in *.
    + unfold einsum_ai_bi_abi. rewrite SF0. cbn [tshape].
      rewrite Nat.eqb_refl. cbn [bind]. unfold shr, tdim, build3, build.
      cbn [tshape length Nat.sub nth].
      rewrite (@reshape_lead _ (P * s) r) by (simpl; lia).
      eexists. split; [reflexivity|]. split; [reflexivity|].
      intros p b j Hp Hb Hj. cbn [tdata]. rewrite get_reshaped3 by assumption.
      reflexivity.
    + unfold einsum_ai_bi_ab. rewrite SF0. cbn [tshape].
      rewrite Nat.eqb_refl. cbn [bind]. unfold unsqueeze_last, shr, tdim,
        build2, build. cbn [tshape tdata app length Nat.sub nth].
      rewrite (@reshape_lead _ (P * s) 1) by (simpl; lia).
      eexists. split; [reflexivity|]. split; [reflexivity|].
      intros p b j Hp Hb Hj. assert (j = 0) by lia. subst j. cbn [tdata].
      rewrite get_reshaped2 by assumption. reflexivity.
  - (* a TT core *)
    destruct sc as [|r [|s [|r' [|? ?]]]]; try discriminate Dc.
    cbn [length Nat.sub nth] in *. subst w.
    rewrite (@torch_step_tt N n P r s r' F0 (mkT [r; s; r'] dc) SF0 eq_refl)
      by exact Hout.
    eexists. split; [reflexivity|]. split; [reflexivity|].
    intros p b j Hp Hb Hj. rewrite get_reshaped3 by assumption. reflexivity.
Qed.

Lemma vec_step_ext (last : bool) (c : tensor) (b w : nat)
  (v v' : nat -> R) :
  (tdim c = 2 \/ tdim c = 3) -> in_rank c = w ->
  (forall i, i < w -> v i = v' i) ->
  forall j, j < out_rank last c -> vec_step last c b v j = vec_step last c b v' j.
Proof.
  intros Dc Hin Hv j Hj. unfold vec_step, in_rank, out_rank, tdim in *.
  destruct (tshape c) as [|x [|y [|z [|? ?]]]]; cbn [length] in Dc;
    try (destruct Dc; discriminate).
  - subst w. destruct last.
    + apply rsum_ext. intros i Hi. rewrite Hv by exact Hi. reflexivity.
    + rewrite Hv by exact Hj. reflexivity.
  - subst w. apply rsum_ext. intros i Hi. rewrite Hv by exact Hi. reflexivity.
Qed.

Lemma vec_chain_ext (more : bool) (cs : list tensor) :
  forall (idx : list nat) (w : nat) (v v' : nat -> R),
    chain more w cs -> length idx = length cs ->
    (forall i, i < w -> v i = v' i) ->
    forall j, j < width_after more cs w ->
              vec_chain more cs idx v j = vec_chain more cs idx v' j.
Proof.
  induction cs as [|c cs IH]; intros idx w v v' Hch Hl Hv j Hj.
  - destruct idx; [|discriminate]. cbn in *. apply Hv, Hj.
  - destruct idx as [|b idx]; [discriminate|]. cbn [vec_chain].
    destruct Hch as (Dc & Hin & _ & Hch). cbn [width_after] in Hj.
    apply (IH idx (out_rank (is_last more cs) c)); try assumption.
    + simpl in Hl. lia.
    + intros i Hi. apply (@vec_step_ext _ c b w v v' Dc Hin Hv). exact Hi.
Qed.

Lemma last_position (k N : nat) (A : Type) (cs' : list A) :
  k + S (length cs') = N -> negb (k <? N - 1) = is_last false cs'.
Proof.
  intros H. destruct cs' as [|x cs']; simpl in *.
  - replace (k <? N - 1) with false
      by (symmetry; apply Nat.ltb_ge; lia). reflexivity.
  - replace (k <? N - 1) with true
      by (symmetry; apply Nat.ltb_lt; lia). reflexivity.
Qed.

Lemma torch_fold_spec (cs : list tensor) :
  forall (k N P w : nat) (F0 : tensor),
    k + length cs = N -> tshape F0 = [P; w] -> chain false w cs ->
    exists F,
      foldM (torch_step N) (combine (seq k (length cs)) cs) F0 = Ok F
      /\ tshape F = [P * numel (map mid cs); width_after false cs w]
      /\ forall p idx j,
           p < P -> in_range (map mid cs) idx = true ->
           j < width_after false cs w ->
           get F [p * numel (map mid cs) + ravel (map mid cs) idx; j]
           = vec_chain false cs idx (fun i => get F0 [p; i]) j.
Proof.
  induction cs as [|c cs IH]; intros k N P w F0 HN SF0 Hch.
  - exists F0. split; [reflexivity|].
    split; [rewrite SF0; cbn; f_equal; lia|].
    intros p idx j Hp Hidx Hj. destruct idx; [|discriminate].
    cbn. f_equal. f_equal. lia.
  - destruct Hch as (Dc & Hin & Hout & Hch).
    cbn [length] in HN.
    rewrite <- (@last_position k N _ cs HN) in Hout, Hch.
    destruct (@torch_step_spec N k P w F0 c SF0 Dc Hin Hout)
      as (F1 & E1 & SF1 & G1).
    destruct (IH (S k) N (P * mid c) _ F1 ltac:(lia) SF1 Hch)
      as (F & EF & SF & G).
    exists F. cbn [length seq combine foldM]. rewrite E1. cbn [bind].
    split; [exact EF|].
    cbn [map width_after]. rewrite numel_cons.
    rewrite <- (@last_position k N _ cs HN).
    split; [rewrite SF; f_equal; lia|].
    intros p idx j Hp Hidx Hj.
    destruct idx as [|b idx]; [discriminate|].
    cbn [in_range] in Hidx. apply andb_true_iff in Hidx.
    destruct Hidx as (Hb & Hidx). apply Nat.ltb_lt in Hb.
    cbn [ravel vec_chain].
    replace (p * (mid c * numel (map mid cs))
             + (b * numel (map mid cs) + ravel (map mid cs) idx))
      with ((p * mid c + b) * numel (map mid cs) + ravel (map mid cs) idx)
      by lia.
    rewrite G by (try assumption; nia).
    rewrite <- (@last_position k N _ cs HN).
    apply (@vec_chain_ext false cs idx (out_rank (negb (k <? N - 1)) c)).
    + exact Hch.
    + apply in_range_length in Hidx. rewrite length_map in Hidx. exact Hidx.
    + intros i Hi. apply G1; assumption.
    + exact Hj.
Qed.

Lemma chain_dims_ranks (more : bool) (cs : list tensor) :
  forall w, chain more w cs ->
            core_dims_ok cs = true /\ core_ranks_ok cs = true.
Proof.
  induction cs as [|c cs IH]; intros w Hch; [split; reflexivity|].
  destruct Hch as (Dc & Hin & _ & Hch).
  destruct (IH _ Hch) as (D1 & D2). split.
  - cbn [core_dims_ok forallb]. fold (core_dims_ok cs). rewrite D1.
    destruct Dc as [-> | ->]; reflexivity.
  - destruct cs as [|c' cs]; [reflexivity|].
    rewrite core_ranks_ok_cons, D2, andb_true_r.
    destruct Hch as (Dc' & Hin' & _).
    replace (is_last more (c' :: cs)) with false in Hin'
      by (destruct more; reflexivity).
    assert (Ho : out_rank false c = shr c 1).
    { unfold out_rank, shr, tdim in *.
      destruct (tshape c) as [|x [|y [|z [|? ?]]]]; cbn [length] in Dc;
        try (destruct Dc; discriminate); reflexivity. }
    rewrite Ho in Hin'. unfold in_rank, sh, tdim in *.
    destruct (tshape c') as [|x [|y [|z [|? ?]]]]; cbn [length] in Dc';
      try (destruct Dc'; discriminate); cbn [length Nat.eqb nth andb orb];
      rewrite Hin', Nat.eqb_refl; reflexivity.
Qed.

Lemma width_after_nonzero (more : bool) (cs : list tensor) :
  forall w, chain more w cs -> w <> 0 -> width_after more cs w <> 0.
Proof.
  induction cs as [|c cs IH]; intros w Hch Hw; [exact Hw|].
  destruct Hch as (_ & _ & Hout & Hch). cbn [width_after].
  apply IH; assumption.
Qed.

Lemma width_after_cons_nonzero (more : bool) (c : tensor)
  (cs : list tensor) (w : nat) :
  chain more w (c :: cs) -> width_after more (c :: cs) w <> 0.
Proof.
  intros (_ & _ & Hout & Hch). cbn [width_after].
  apply width_after_nonzero; assumption.
Qed.

(** Contracting the Tucker factor of the first core leaves the rank that
    [ranks_tt[0]] reads. *)
Lemma decompress_head (c0 : tensor) (cs : list tensor)
  (us : list (option tensor)) (ds : list tensor) :
  decompress_cores (c0 :: cs) us = Ok ds ->
  exists d0 ds', ds = d0 :: ds'
                 /\ (if tdim c0 =? 2 then sh c0 1 else sh c0 0)
                    = (if tdim d0 =? 2 then sh d0 1 else sh d0 0).
Proof.
  cbn [decompress_cores]. destruct us as [|[u|] us]; [discriminate| |].
  - intros H. bind_inv H. bind_inv H. inversion H. subst.
    eexists. eexists. split; [reflexivity|].
    destruct (tdim c0 =? 2) eqn:E2.
    + unfold einsum_jk_aj_ak in E. unfold tdim, sh in *.
      destruct (tshape c0) as [|j [|k [|? ?]]]; try discriminate E.
      destruct (tshape u) as [|a [|j' [|? ?]]]; try discriminate E.
      destruct (j =? j'); [|discriminate E]. inversion E. reflexivity.
    + unfold einsum_ijk_aj_iak in E. unfold tdim, sh in *.
      destruct (tshape c0) as [|i [|j [|k [|? ?]]]]; try discriminate E.
      destruct (tshape u) as [|a [|j' [|? ?]]]; try discriminate E.
      destruct (j =? j'); [|discriminate E]. inversion E. reflexivity.
  - intros H. bind_inv H. inversion H. subst.
    eexists. eexists. split; reflexivity.
Qed.

Lemma in_rank_first (d : tensor) :
  (tdim d = 2 \/ tdim d = 3) ->
  (if tdim d =? 2 then sh d 1 else sh d 0) = in_rank d.
Proof.
  intros Dc. unfold in_rank, sh, tdim in *.
  destruct (tshape d) as [|x [|y [|z [|? ?]]]]; cbn [length] in Dc;
    try (destruct Dc; discriminate); reflexivity.
Qed.

(** [torch()] on a valid network: the array of the entries of its chain of
    contracted cores. *)
Theorem torch_spec (t : Tensor) (ds : list tensor) :
  valid t ds -> torch t = Ok (build (map mid ds) (entry ds)).
Proof.
  intros (Hne & Hd & Hch).
  destruct ds as [|d0 ds']; [congruence|]. cbn [hd] in Hch.
  set (ds := d0 :: ds') in *.
  unfold torch, decompress_tucker_factors. rewrite Hd. cbn [bind].
  unfold Tensor_of_cores.
  destruct (@chain_dims_ranks _ _ _ Hch) as (D1 & D2). rewrite D1, D2.
  cbn [negb]. rewrite check_factors_none. cbn [bind cores].
  (* the first rank *)
  destruct (cores t) as [|c0 cs] eqn:Ec.
  { cbn in Hd. inversion Hd. }
  destruct (decompress_head _ _ _ Hd) as (d0' & ds'' & Eds & Hr0).
  inversion Eds. subst d0' ds''.
  unfold ranks_tt. rewrite Ec. cbn [bind nth].
  assert (Hdc : tdim d0 = 2 \/ tdim d0 = 3) by (apply Hch).
  rewrite Hr0, (in_rank_first _ Hdc).
  (* the loop *)
  unfold dim. cbn [cores].
  destruct (@torch_fold_spec ds 0 (length ds) 1 (in_rank d0)
              (ones [1; in_rank d0]) eq_refl eq_refl Hch)
    as (F & EF & SF & G).
  rewrite EF. cbn [bind].
  set (W := width_after false ds (in_rank d0)) in *.
  set (sp := map mid ds) in *.
  assert (HW : W <> 0) by (apply (@width_after_cons_nonzero false), Hch).
  assert (Hfin : (if 1 <? shr F 1 then sum_last F else select_last0 F)
                 = Ok (build [1 * numel sp]
                         (fun idx => rsum W (fun m => get F (idx ++ [m]))))).
  { unfold shr, tdim, sum_last, select_last0. rewrite SF.
    cbn [length Nat.sub nth rev app].
    destruct (Nat.ltb_spec 1 W) as [H1|H1]; [reflexivity|].
    assert (W = 1) by lia.
    replace (W =? 0) with false by (symmetry; apply Nat.eqb_neq; lia).
    f_equal. unfold build. f_equal. apply tab_ext. intros idx _.
    rewrite H. rewrite rsum_one. reflexivity. }
  rewrite Hfin. cbn [bind].
  change (map (fun c => shr c 2) ds) with sp.
  rewrite reshape_exact by (unfold build; cbn [tshape]; simpl; lia).
  f_equal. unfold build. cbn [tdata]. f_equal.
  apply (@data_ext sp).
  - rewrite tab_length. simpl. lia.
  - apply tab_length.
  - intros idx Hidx. rewrite (nth_tab sp idx _ _ Hidx).
    pose proof (ravel_lt _ _ Hidx) as Hlt.
    rewrite <- (ravel1 (1 * numel sp) (ravel sp idx)) at 1.
    rewrite nth_tab by (apply in_range1; lia).
    cbn [app]. unfold entry. fold ds. fold W.
    apply rsum_ext. intros m Hm.
    replace (ravel sp idx) with (0 * numel sp + ravel sp idx) by lia.
    rewrite G by (try assumption; lia).
    apply (@vec_chain_ext false ds idx (in_rank d0)).
    + exact Hch.
    + apply in_range_length in Hidx. unfold sp in Hidx.
      rewrite length_map in Hidx. exact Hidx.
    + intros i Hi. apply get_ones. apply in_range2; lia.
    + exact Hm.
Qed.

(** *** The converse: a network that decompresses is valid *)

Lemma reshape_lead_zero (t : tensor) :
  reshape t [None; Some 0] = Raise RuntimeError.
Proof. reflexivity. Qed.

Lemma torch_step_inv (N n P w : nat) (F0 c F1 : tensor) :
  tshape F0 = [P; w] ->
  torch_step N F0 (n, c) = Ok F1 ->
  (tdim c = 2 \/ tdim c = 3) /\ in_rank c = w
  /\ out_rank (negb (n <? N - 1)) c <> 0.
Proof.
  intros SF0 H. unfold torch_step in H.
  destruct (if tdim c =? 2 then _ else _) as [f|] eqn:E; [|discriminate H].
  cbn [bind] in H. unfold tdim, in_rank, out_rank in *.
  destruct (tshape c) as [|s1 [|s2 [|s3 [|? ?]]]] eqn:Ec;
    cbn [length Nat.eqb] in E.
  - unfold einsum_ai_ibj_abj in E. rewrite SF0, Ec in E. discriminate E.
  - unfold einsum_ai_ibj_abj in E. rewrite SF0, Ec in E. discriminate E.
  - (* a CP factor *)
    split; [left; reflexivity|].
    destruct (n <? N - 1); cbn [negb].
    + unfold einsum_ai_bi_abi in E. rewrite SF0, Ec in E.
      destruct (Nat.eqb_spec w s2) as [->|]; [|discriminate E].
      inversion E. subst f. split; [reflexivity|].
      unfold shr, tdim, build3, build in H.
      cbn [tshape length Nat.sub nth] in H.
      intros ->. rewrite reshape_lead_zero in H. discriminate H.
    + destruct (einsum_ai_bi_ab F0 c) as [g|] eqn:E0; [|discriminate E].
      unfold einsum_ai_bi_ab in E0. rewrite SF0, Ec in E0.
      destruct (Nat.eqb_spec w s2) as [->|]; [|discriminate E0].
      split; [reflexivity|discriminate].
  - (* a TT core *)
    split; [right; reflexivity|].
    unfold einsum_ai_ibj_abj in E. rewrite SF0, Ec in E.
    destruct (Nat.eqb_spec w s1) as [->|]; [|discriminate E].
    inversion E. subst f. split; [reflexivity|].
    unfold shr, tdim, build3, build in H.
    cbn [tshape length Nat.sub nth] in H.
    intros ->. rewrite reshape_lead_zero in H. discriminate H.
  - unfold einsum_ai_ibj_abj in E. rewrite SF0, Ec in E. discriminate E.
Qed.

Lemma torch_fold_inv (cs : list tensor) :
  forall (k N P w : nat) (F0 F : tensor),
    k + length cs = N -> tshape F0 = [P; w] ->
    foldM (torch_step N) (combine (seq k (length cs)) cs) F0 = Ok F ->
    chain false w cs.
Proof.
  induction cs as [|c cs IH]; intros k N P w F0 F HN SF0 H; [exact I|].
  cbn [length seq combine foldM] in H. bind_inv H.
  destruct (@torch_step_inv _ _ _ _ _ _ _ SF0 E) as (Dc & Hin & Hout).
  cbn [length] in HN.
  destruct (@torch_step_spec N k P w F0 c SF0 Dc Hin Hout)
    as (F1 & E1 & SF1 & _).
  rewrite E in E1. inversion E1. subst x.
  rewrite (@last_position k N _ cs HN) in Hout, SF1.
  cbn [chain]. repeat split; try assumption.
  apply (IH (S k) N (P * mid c) _ F1 F); [lia | exact SF1 | exact H].
Qed.

Lemma decompress_cores_length (cs : list tensor) :
  forall us ds, decompress_cores cs us = Ok ds -> length ds = length cs.
Proof.
  induction cs as [|c cs IH]; intros us ds H.
  - inversion H. reflexivity.
  - cbn [decompress_cores] in H. destruct us as [|[u|] us]; [discriminate| |].
    + bind_inv H. bind_inv H. inversion H. cbn [length]. f_equal.
      apply (IH _ _ E0).
    + bind_inv H. inversion H. cbn [length]. f_equal. apply (IH _ _ E).
Qed.

(** A network that [torch()] decompresses is valid, and the array is the
    one of its chain. *)
Theorem torch_inv (t : Tensor) (A : tensor) :
  torch t = Ok A ->
  exists ds, valid t ds /\ A = build (map mid ds) (entry ds).
Proof.
  intros H. pose proof H as H0.
  unfold torch, decompress_tucker_factors in H.
  bind_inv H. bind_inv E. bind_inv H. bind_inv H.
  apply Tensor_of_cores_inv in E. destruct E as (Ec & _ & _ & _).
  destruct x as [cx ux]. cbn [cores] in *. subst cx. rename x0 into ds.
  unfold dim in E2. cbn [cores] in E2.
  assert (Hv : valid t ds).
  { unfold ranks_tt in E1. destruct (cores t) as [|c0 cs] eqn:Ect;
      [discriminate E1|].
    destruct (decompress_head _ _ _ E0) as (d0 & ds' & -> & Hr0).
    inversion E1. subst x1. cbn [nth] in E2. rewrite Hr0 in E2.
    pose proof (@torch_fold_inv (d0 :: ds') 0 _ 1
                  (if tdim d0 =? 2 then sh d0 1 else sh d0 0)
                  (ones [1; if tdim d0 =? 2 then sh d0 1 else sh d0 0])
                  _ eq_refl eq_refl E2) as Hch.
    assert (Hdc : tdim d0 = 2 \/ tdim d0 = 3) by (apply Hch).
    rewrite (in_rank_first _ Hdc) in Hch.
    split; [discriminate|]. rewrite Ect. split; [exact E0|exact Hch]. }
  exists ds. split; [exact Hv|].
  apply torch_spec in Hv. rewrite Hv in H0. inversion H0. reflexivity.
Qed.

(** ** Repetition *)

Lemma trepeat2_ok (t : tensor) (a b r : nat) :
  tshape t = [a; b] ->
  trepeat t [r; 1]
  = Ok (build2 (r * a) b (fun i j => get t [i mod a; j mod b])).
Proof.
  intros H. unfold trepeat, tdim. rewrite H. cbn [length Nat.eqb zip_with].
  unfold build2, build. rewrite Nat.mul_1_l. reflexivity.
Qed.

Lemma trepeat3_ok (t : tensor) (a b c r : nat) :
  tshape t = [a; b; c] ->
  trepeat t [1; r; 1]
  = Ok (build3 a (r * b) c
          (fun i j k => get t [i mod a; j mod b; k mod c])).
Proof.
  intros H. unfold trepeat, tdim. rewrite H. cbn [length Nat.eqb zip_with].
  unfold build3, build. rewrite !Nat.mul_1_l. reflexivity.
Qed.

Lemma mod_lt_mul (b r s : nat) : b < r * s -> b mod s < s.
Proof. intros H. apply Nat.mod_upper_bound. nia. Qed.

Lemma tiled_intro2 (r a k : nat) (d d' : tensor) :
  tshape d = [a; k] -> tshape d' = [r * a; k] ->
  (forall b i, b < r * a -> i < k -> get d' [b; i] = get d [b mod a; i]) ->
  tiled r d d'.
Proof.
  intros E Hs Hg.
  unfold tiled, tdim, in_rank, out_rank, mid, shr, tdim, vec_step.
  rewrite E, Hs. cbn [length Nat.sub nth].
  repeat split; try reflexivity.
  intros last b v j Hb Hj. destruct last.
  - apply rsum_ext. intros i Hi. rewrite Hg by assumption. reflexivity.
  - rewrite Hg by assumption. reflexivity.
Qed.

Lemma tiled_intro3 (r x a k : nat) (d d' : tensor) :
  tshape d = [x; a; k] -> tshape d' = [x; r * a; k] ->
  (forall i b j, i < x -> b < r * a -> j < k ->
                 get d' [i; b; j] = get d [i; b mod a; j]) ->
  tiled r d d'.
Proof.
  intros E Hs Hg.
  unfold tiled, tdim, in_rank, out_rank, mid, shr, tdim, vec_step.
  rewrite E, Hs. cbn [length Nat.sub nth].
  repeat split; try reflexivity.
  intros last b v j Hb Hj.
  apply rsum_ext. intros i Hi. rewrite Hg by assumption. reflexivity.
Qed.

(** A core without Tucker factor, repeated. *)
Lemma tiled_core (c : tensor) (r : nat) :
  (tdim c = 2 \/ tdim c = 3) ->
  exists c', (if tdim c =? 3 then trepeat c [1; r; 1] else trepeat c [r; 1])
             = Ok c'
             /\ tiled r c c'.
Proof.
  intros Dc. unfold tdim in *.
  destruct (tshape c) as [|x [|y [|z [|? ?]]]] eqn:E; cbn [length] in Dc;
    try (destruct Dc; discriminate).
  - (* a CP factor *)
    cbn [length Nat.eqb]. rewrite (trepeat2_ok _ r E).
    eexists. split; [reflexivity|].
    apply (@tiled_intro2 r x y); [exact E | reflexivity |].
    intros b i Hb Hi. rewrite get_build2 by assumption.
    rewrite (Nat.mod_small i) by exact Hi. reflexivity.
  - (* a TT core *)
    cbn [length Nat.eqb]. rewrite (trepeat3_ok _ r E).
    eexists. split; [reflexivity|].
    apply (@tiled_intro3 r x y z); [exact E | reflexivity |].
    intros i b j Hi Hb Hj. rewrite get_build3 by assumption.
    rewrite (Nat.mod_small i) by exact Hi.
    rewrite (Nat.mod_small j) by exact Hj. reflexivity.
Qed.

(** A core with its Tucker factor: the factor is repeated, and the
    contraction of the core with it is the repeated contraction. *)
Lemma tiled_factor (c U d : tensor) (r : nat) :
  (if tdim c =? 2 then einsum_jk_aj_ak c U else einsum_ijk_aj_iak c U)
  = Ok d ->
  exists U' d',
    trepeat U [r; 1] = Ok U'
    /\ (if tdim c =? 2 then einsum_jk_aj_ak c U' else einsum_ijk_aj_iak c U')
       = Ok d'
    /\ tiled r d d'.
Proof.
  intros H. destruct (tdim c =? 2).
  - unfold einsum_jk_aj_ak in *.
    destruct (tshape c) as [|j [|k [|? ?]]] eqn:Ec; try discriminate H.
    destruct (tshape U) as [|a [|j' [|? ?]]] eqn:EU; try discriminate H.
    destruct (Nat.eqb_spec j j') as [<-|]; [|discriminate H].
    inversion H. subst d. clear H.
    rewrite (trepeat2_ok _ r EU). eexists. eexists.
    split; [reflexivity|]. cbn [tshape build2 build].
    rewrite Nat.eqb_refl. split; [reflexivity|].
    apply (@tiled_intro2 r a k); [reflexivity | reflexivity |].
    intros b i Hb Hi. pose proof (@mod_lt_mul _ _ _ Hb) as Hm.
    rewrite !get_build2 by assumption.
    apply rsum_ext. intros m Hm'. rewrite get_build2 by assumption.
    rewrite (Nat.mod_small m) by exact Hm'. reflexivity.
  - unfold einsum_ijk_aj_iak in *.
    destruct (tshape c) as [|i [|j [|k [|? ?]]]] eqn:Ec; try discriminate H.
    destruct (tshape U) as [|a [|j' [|? ?]]] eqn:EU; try discriminate H.
    destruct (Nat.eqb_spec j j') as [<-|]; [|discriminate H].
    inversion H. subst d. clear H.
    rewrite (trepeat2_ok _ r EU). eexists. eexists.
    split; [reflexivity|]. cbn [tshape build2 build].
    rewrite Nat.eqb_refl. split; [reflexivity|].
    apply (@tiled_intro3 r i a k); [reflexivity | reflexivity |].
    intros p b q Hp Hb Hq. pose proof (@mod_lt_mul _ _ _ Hb) as Hm.
    rewrite !get_build3 by assumption.
    apply rsum_ext. intros m Hm'. rewrite get_build2 by assumption.
    rewrite (Nat.mod_small m) by exact Hm'. reflexivity.
Qed.

(** *** The copy made by [clone] *)

Lemma decompress_same_ends (cs : list tensor) :
  forall us ds, decompress_cores cs us = Ok ds -> Forall2 same_ends cs ds.
Proof.
  induction cs as [|c cs IH]; intros us ds H.
  - inversion H. constructor.
  - cbn [decompress_cores] in H. destruct us as [|[u|] us]; [discriminate| |].
    + bind_inv H. bind_inv H. inversion H. subst ds. clear H.
      constructor; [|apply (IH _ _ E0)].
      unfold same_ends, shr, in_rank, tdim in *.
      destruct (length (tshape c) =? 2).
      * unfold einsum_jk_aj_ak in E.
        destruct (tshape c) as [|j [|k [|? ?]]]; try discriminate E.
        destruct (tshape u) as [|a [|j' [|? ?]]]; try discriminate E.
        destruct (j =? j'); [|discriminate E]. inversion E.
        repeat split; reflexivity.
      * unfold einsum_ijk_aj_iak in E.
        destruct (tshape c) as [|i [|j [|k [|? ?]]]]; try discriminate E.
        destruct (tshape u) as [|a [|j' [|? ?]]]; try discriminate E.
        destruct (j =? j'); [|discriminate E]. inversion E.
        repeat split; reflexivity.
    + bind_inv H. inversion H. subst ds. clear H.
      constructor; [|apply (IH _ _ E)]. repeat split; reflexivity.
Qed.

Lemma same_ends_checks (cs ds : list tensor) :
  Forall2 same_ends cs ds ->
  core_dims_ok ds = true -> core_ranks_ok ds = true ->
  core_dims_ok cs = true /\ core_ranks_ok cs = true.
Proof.
  induction 1 as [|c d cs ds (Hd & Hr & Hi) HF IH]; intros D1 D2;
    [split; reflexivity|].
  cbn [core_dims_ok forallb] in D1. apply andb_true_iff in D1.
  destruct D1 as (Dd & D1). fold (core_dims_ok ds) in D1.
  assert (D2' : core_ranks_ok ds = true).
  { destruct ds as [|d' ds]; [reflexivity|].
    rewrite core_ranks_ok_cons in D2. apply andb_true_iff in D2. apply D2. }
  destruct (IH D1 D2') as (I1 & I2). split.
  - cbn [core_dims_ok forallb]. fold (core_dims_ok cs).
    rewrite I1, <- Hd, Dd. reflexivity.
  - destruct HF as [|c' d' cs ds (Hd' & Hr' & Hi') HF]; [reflexivity|].
    rewrite core_ranks_ok_cons in D2 |- *. rewrite I2, andb_true_r.
    apply andb_true_iff in D2. destruct D2 as (D2 & _).
    rewrite <- D2. f_equal. rewrite <- Hd', <- Hr.
    cbn [core_dims_ok forallb] in D1. apply andb_true_iff in D1.
    destruct D1 as (Dd' & _).
    unfold in_rank, sh, tdim in *.
    destruct (tshape d') as [|x [|y [|z [|? ?]]]]; try discriminate Dd';
      destruct (tshape c') as [|x' [|y' [|z' [|? ?]]]]; try discriminate Hd';
      cbn [length Nat.eqb nth andb orb] in *; subst; reflexivity.
Qed.

Lemma clone_Us_ok (cs : list tensor) :
  forall us ds,
    decompress_cores cs us = Ok ds ->
    clone_Us cs us = Ok (firstn (length cs) us)
    /\ check_factors cs (firstn (length cs) us) = Ok tt
    /\ decompress_cores cs (firstn (length cs) us) = Ok ds
    /\ length (firstn (length cs) us) = length cs.
Proof.
  induction cs as [|c cs IH]; intros us ds H.
  - repeat split. exact H.
  - cbn [decompress_cores] in H. destruct us as [|[u|] us]; [discriminate| |].
    + bind_inv H. bind_inv H. inversion H. subst ds. clear H.
      destruct (IH _ _ E0) as (I1 & I2 & I3 & I4).
      cbn [length firstn clone_Us check_factors decompress_cores].
      rewrite I1, I2, I3, I4, E. cbn [bind].
      assert (Hs : tdim u = 2 /\ shr c 2 = sh u 1).
      { unfold shr, sh, tdim in *. destruct (length (tshape c) =? 2).
        - unfold einsum_jk_aj_ak in E.
          destruct (tshape c) as [|j [|k [|? ?]]]; try discriminate E.
          destruct (tshape u) as [|a [|j' [|? ?]]]; try discriminate E.
          destruct (Nat.eqb_spec j j'); [|discriminate E].
          split; [reflexivity|assumption].
        - unfold einsum_ijk_aj_iak in E.
          destruct (tshape c) as [|i [|j [|k [|? ?]]]]; try discriminate E.
          destruct (tshape u) as [|a [|j' [|? ?]]]; try discriminate E.
          destruct (Nat.eqb_spec j j'); [|discriminate E].
          split; [reflexivity|assumption]. }
      destruct Hs as (-> & ->). rewrite !Nat.eqb_refl. cbn [assert bind].
      repeat split.
    + bind_inv H. inversion H. subst ds. clear H.
      destruct (IH _ _ E) as (I1 & I2 & I3 & I4).
      cbn [length firstn clone_Us check_factors decompress_cores].
      rewrite I1, I2, I3, I4. repeat split.
Qed.

Lemma clone_ok (t : Tensor) (ds : list tensor) :
  valid t ds ->
  clone t = Ok (mkTensor (cores t) (firstn (dim t) (Us t))).
Proof.
  intros (_ & Hd & Hch).
  destruct (clone_Us_ok _ _ Hd) as (I1 & I2 & _ & _).
  destruct (@chain_dims_ranks _ _ _ Hch) as (D1 & D2).
  destruct (same_ends_checks (decompress_same_ends _ _ Hd) D1 D2)
    as (C1 & C2).
  unfold clone. rewrite I1. cbn [bind]. unfold Tensor_of_cores.
  rewrite C1, C2. cbn [negb]. rewrite I2. reflexivity.
Qed.

(** *** The loop over the axes *)

Lemma repeat_axes_tiled (cs : list tensor) :
  forall us rep ds,
    decompress_cores cs us = Ok ds ->
    core_dims_ok ds = true ->
    length cs <= length rep ->
    exists cs' us' ds',
      repeat_axes cs us rep = Ok (cs', us')
      /\ decompress_cores cs' us' = Ok ds'
      /\ tiled_all rep ds ds'
      /\ length cs' = length cs /\ length us' = length cs
      /\ Forall2 same_ends cs cs'.
Proof.
  induction cs as [|c cs IH]; intros us rep ds H D Hl.
  - inversion H. exists [], [], []. repeat split. constructor.
  - cbn [decompress_cores] in H. cbn [length] in Hl.
    destruct rep as [|r rep]; [cbn in Hl; lia|]. cbn [length] in Hl.
    destruct us as [|[u|] us]; [discriminate| |].
    + bind_inv H. bind_inv H. inversion H. subst ds. clear H.
      cbn [core_dims_ok forallb] in D. apply andb_true_iff in D.
      destruct D as (_ & D). fold (core_dims_ok x0) in D.
      destruct (IH us rep x0 E0 D ltac:(lia))
        as (cs' & us' & ds' & I1 & I2 & I3 & I4 & I5 & I6).
      destruct (tiled_factor _ _ r E) as (U' & d' & T1 & T2 & T3).
      exists (c :: cs'), (Some U' :: us'), (d' :: ds').
      cbn [repeat_axes decompress_cores tiled_all length].
      rewrite T1, I1, T2, I2. cbn [bind].
      split; [reflexivity|]. split; [reflexivity|].
      split; [split; assumption|]. rewrite I4, I5.
      split; [reflexivity|]. split; [reflexivity|].
      constructor; [repeat split|exact I6].
    + bind_inv H. inversion H. subst ds. clear H.
      cbn [core_dims_ok forallb] in D. apply andb_true_iff in D.
      destruct D as (Dc & D). fold (core_dims_ok x) in D.
      destruct (IH us rep x E D ltac:(lia))
        as (cs' & us' & ds' & I1 & I2 & I3 & I4 & I5 & I6).
      assert (Dc' : tdim c = 2 \/ tdim c = 3).
      { apply andb_true_iff in Dc. destruct Dc as (D2 & D3).
        apply Nat.leb_le in D2. apply Nat.leb_le in D3. lia. }
      destruct (@tiled_core c r Dc') as (c' & T1 & T2).
      exists (c' :: cs'), (None :: us'), (c' :: ds').
      cbn [repeat_axes decompress_cores tiled_all length].
      rewrite T1, I1, I2. cbn [bind].
      split; [reflexivity|]. split; [reflexivity|].
      split; [split; assumption|]. rewrite I4, I5.
      split; [reflexivity|]. split; [reflexivity|].
      constructor; [|exact I6].
      destruct T2 as (Q1 & Q2 & Q3 & _).
      unfold same_ends. repeat split; try assumption.
      specialize (Q3 false). unfold out_rank, shr, tdim in *.
      destruct (tshape c) as [|x1 [|x2 [|x3 [|? ?]]]]; cbn [length] in Dc';
        try (destruct Dc'; discriminate);
        destruct (tshape c') as [|y1 [|y2 [|y3 [|? ?]]]]; try discriminate Q1;
        exact Q3.
Qed.

Lemma decompress_cores_app (cs : list tensor) :
  forall us ds extra,
    decompress_cores cs us = Ok ds -> length us = length cs ->
    decompress_cores (cs ++ extra) (us ++ map (fun _ => None) extra)
    = Ok (ds ++ extra).
Proof.
  induction cs as [|c cs IH]; intros us ds extra H Hl.
  - destruct us; [|discriminate Hl]. inversion H. cbn [app].
    induction extra as [|e extra IHe]; [reflexivity|].
    cbn [map decompress_cores]. rewrite IHe. reflexivity.
  - cbn [decompress_cores] in H. destruct us as [|[u|] us]; [discriminate| |];
      cbn [length] in Hl.
    + bind_inv H. bind_inv H. inversion H. subst ds. clear H.
      cbn [app decompress_cores]. rewrite E. cbn [bind].
      rewrite (IH us x0 extra E0) by lia. reflexivity.
    + bind_inv H. inversion H. subst ds. clear H.
      cbn [app decompress_cores].
      rewrite (IH us x extra E) by lia. reflexivity.
Qed.

(** The property [shape] reads the sizes of the contracted cores. *)
Lemma shape_decompress (cs : list tensor) :
  forall us ds, decompress_cores cs us = Ok ds ->
                shape_of cs us = Ok (map mid ds).
Proof.
  induction cs as [|c cs IH]; intros us ds H.
  - inversion H. reflexivity.
  - cbn [decompress_cores] in H. destruct us as [|[u|] us]; [discriminate| |].
    + bind_inv H. bind_inv H. inversion H. subst ds. clear H.
      cbn [shape_of map]. rewrite (IH _ _ E0). cbn [bind]. do 2 f_equal.
      unfold mid, shr, sh, tdim in *. destruct (length (tshape c) =? 2).
      * unfold einsum_jk_aj_ak in E.
        destruct (tshape c) as [|j [|k [|? ?]]]; try discriminate E.
        destruct (tshape u) as [|a [|j' [|? ?]]]; try discriminate E.
        destruct (j =? j'); [|discriminate E]. inversion E. reflexivity.
      * unfold einsum_ijk_aj_iak in E.
        destruct (tshape c) as [|i [|j [|k [|? ?]]]]; try discriminate E.
        destruct (tshape u) as [|a [|j' [|? ?]]]; try discriminate E.
        destruct (j =? j'); [|discriminate E]. inversion E. reflexivity.
    + bind_inv H. inversion H. subst ds. clear H.
      cbn [shape_of map]. rewrite (IH _ _ E). reflexivity.
Qed.

(** *** Repeated cores in the chain *)

Lemma is_last_length (A B : Type) (more : bool) (l : list A) (l' : list B) :
  length l = length l' -> is_last more l = is_last more l'.
Proof.
  intros H. destruct more; [reflexivity|].
  destruct l, l'; try discriminate H; reflexivity.
Qed.

Lemma tiled_all_length (ds : list tensor) :
  forall rep ds', tiled_all rep ds ds' ->
                  length ds' = length ds /\ length ds <= length rep.
Proof.
  induction ds as [|d ds IH]; intros rep ds' H.
  - destruct ds'; [|contradiction]. split; [reflexivity|cbn; lia].
  - destruct ds' as [|d' ds']; [contradiction|].
    destruct rep as [|r rep]; [contradiction|]. destruct H as (_ & H).
    destruct (IH _ _ H) as (I1 & I2). cbn [length]. split; lia.
Qed.

Lemma tiled_all_mid (ds : list tensor) :
  forall rep ds', tiled_all rep ds ds' ->
    map mid ds' = zip_with Nat.mul (firstn (length ds) rep) (map mid ds).
Proof.
  induction ds as [|d ds IH]; intros rep ds' H.
  - destruct ds'; [|contradiction]. reflexivity.
  - destruct ds' as [|d' ds']; [contradiction|].
    destruct rep as [|r rep]; [contradiction|]. destruct H as (T & H).
    cbn [length firstn map zip_with]. rewrite (IH _ _ H).
    destruct T as (_ & _ & _ & -> & _). reflexivity.
Qed.

Lemma tiled_chain (more : bool) (ds : list tensor) :
  forall rep ds' w,
    tiled_all rep ds ds' -> chain more w ds ->
    chain more w ds' /\ width_after more ds' w = width_after more ds w.
Proof.
  induction ds as [|d ds IH]; intros rep ds' w H Hch.
  - destruct ds'; [|contradiction]. split; [exact I|reflexivity].
  - destruct ds' as [|d' ds']; [contradiction|].
    destruct rep as [|r rep]; [contradiction|]. destruct H as (T & H).
    destruct Hch as (Dc & Hin & Hout & Hch).
    destruct (tiled_all_length _ _ _ H) as (Hl & _).
    destruct T as (T1 & T2 & T3 & _).
    cbn [chain width_after].
    rewrite (is_last_length more ds' ds Hl), T1, T2, T3.
    destruct (IH _ _ _ H Hch) as (I1 & I2).
    repeat split; assumption.
Qed.

Lemma zip_mod_in_range (sp : list nat) :
  forall rep idx,
    length sp <= length rep ->
    in_range (zip_with Nat.mul (firstn (length sp) rep) sp) idx = true ->
    in_range sp (zip_with Nat.modulo idx sp) = true.
Proof.
  induction sp as [|s sp IH]; intros rep idx Hl H.
  - destruct idx; [reflexivity|]. destruct rep; discriminate H.
  - destruct rep as [|r rep]; cbn [length firstn zip_with] in H, Hl; [lia|].
    destruct idx as [|b idx]; [discriminate H|].
    cbn [in_range] in H. apply andb_true_iff in H. destruct H as (Hb & H).
    apply Nat.ltb_lt in Hb. cbn [zip_with in_range].
    assert (Hl' : length sp <= length rep) by lia.
    rewrite (IH _ _ Hl' H), andb_true_r. apply Nat.ltb_lt.
    apply (@mod_lt_mul _ _ _ Hb).
Qed.

Lemma tiled_vec_chain (more : bool) (ds : list tensor) :
  forall rep ds' w idx v j,
    tiled_all rep ds ds' -> chain more w ds ->
    in_range (map mid ds') idx = true ->
    j < width_after more ds w ->
    vec_chain more ds' idx v j
    = vec_chain more ds (zip_with Nat.modulo idx (map mid ds)) v j.
Proof.
  induction ds as [|d ds IH]; intros rep ds' w idx v j H Hch Hidx Hj.
  - destruct ds'; [|contradiction]. destruct idx; [reflexivity|discriminate].
  - destruct ds' as [|d' ds']; [contradiction|].
    destruct rep as [|r rep]; [contradiction|]. destruct H as (T & H).
    destruct idx as [|b idx]; [discriminate Hidx|].
    cbn [map in_range] in Hidx. apply andb_true_iff in Hidx.
    destruct Hidx as (Hb & Hidx). apply Nat.ltb_lt in Hb.
    pose proof Hch as (Dc & Hin & Hout & Hch').
    destruct (tiled_all_length _ _ _ H) as (Hl & _).
    destruct (tiled_chain more _ _ _ _ H Hch') as (Hch1 & Hw1).
    pose proof T as (T1 & T2 & T3 & T4 & T5).
    cbn [map zip_with vec_chain width_after] in *.
    rewrite (is_last_length more ds' ds Hl).
    rewrite <- (IH rep ds' _ idx _ j H Hch' Hidx Hj).
    apply (@vec_chain_ext more ds' idx (out_rank (is_last more ds) d)).
    + exact Hch1.
    + apply in_range_length in Hidx. rewrite length_map in Hidx. exact Hidx.
    + intros i Hi. apply T5; [rewrite <- T4; exact Hb | exact Hi].
    + rewrite Hw1. exact Hj.
Qed.

(** *** The trailing ones-cores *)

Lemma ones_chain (k : nat) (rs : list nat) :
  k <> 0 -> chain false k (map (fun r => ones [r; k]) rs).
Proof.
  intros Hk. induction rs as [|r rs IH]; [exact I|].
  cbn [map chain]. split; [left; reflexivity|]. split; [reflexivity|].
  destruct rs as [|r' rs]; cbn [map is_last is_nil].
  - split; [discriminate|exact I].
  - split; [exact Hk|exact IH].
Qed.

Lemma ones_close (k : nat) (rs : list nat) :
  forall idx v,
    in_range rs idx = true ->
    rsum (width_after false (map (fun r => ones [r; k]) rs) k)
      (vec_chain false (map (fun r => ones [r; k]) rs) idx v)
    = rsum k v.
Proof.
  induction rs as [|r rs IH]; intros idx v Hidx.
  - destruct idx; [reflexivity|discriminate].
  - destruct idx as [|b idx]; [discriminate|].
    cbn [in_range] in Hidx. apply andb_true_iff in Hidx.
    destruct Hidx as (Hb & Hidx). apply Nat.ltb_lt in Hb.
    cbn [map vec_chain width_after].
    destruct rs as [|r' rs].
    + destruct idx; [|discriminate]. cbn [map is_last is_nil vec_chain
        width_after]. unfold out_rank, vec_step. cbn [ones build tshape].
      rewrite rsum_one. apply rsum_ext. intros i Hi.
      rewrite get_ones by (apply in_range2; assumption). ring.
    + replace (is_last false (map (fun r0 => ones [r0; k]) (r' :: rs)))
        with false by reflexivity.
      replace (out_rank false (ones [r; k])) with k by reflexivity.
      rewrite IH by exact Hidx. apply rsum_ext. intros i Hi.
      unfold vec_step. cbn [ones build tshape].
      rewrite get_ones by (apply in_range2; assumption). ring.
Qed.

(** *** A chain followed by other cores *)

Lemma is_last_app (A : Type) (rest extra : list A) :
  is_last false (rest ++ extra) = is_last (negb (is_nil extra)) rest.
Proof.
  destruct extra as [|e extra].
  - rewrite app_nil_r. reflexivity.
  - destruct rest; reflexivity.
Qed.

Lemma chain_app (extra cs : list tensor) :
  forall w,
    chain (negb (is_nil extra)) w cs ->
    chain false (width_after (negb (is_nil extra)) cs w) extra ->
    chain false w (cs ++ extra).
Proof.
  induction cs as [|c cs IH]; intros w H He; [exact He|].
  destruct H as (Dc & Hin & Hout & H). cbn [app chain width_after] in *.
  rewrite is_last_app. repeat split; try assumption. apply IH; assumption.
Qed.

Lemma width_after_app (extra cs : list tensor) :
  forall w,
    width_after false (cs ++ extra) w
    = width_after false extra (width_after (negb (is_nil extra)) cs w).
Proof.
  induction cs as [|c cs IH]; intros w; [reflexivity|].
  cbn [app width_after]. rewrite is_last_app. apply IH.
Qed.

Lemma vec_chain_app (extra cs : list tensor) :
  forall idx1 idx2 v,
    length idx1 = length cs ->
    vec_chain false (cs ++ extra) (idx1 ++ idx2) v
    = vec_chain false extra idx2
        (vec_chain (negb (is_nil extra)) cs idx1 v).
Proof.
  induction cs as [|c cs IH]; intros idx1 idx2 v Hl.
  - destruct idx1; [reflexivity|discriminate].
  - destruct idx1 as [|b idx1]; [discriminate|].
    cbn [app vec_chain]. rewrite is_last_app. apply IH.
    simpl in Hl. lia.
Qed.

(** A chain read as the beginning of a longer network: its last core
    hands on its last size, which must not be zero, and the sum over what
    it hands on is the sum the chain would have made at its end. *)
Lemma chain_open (ds : list tensor) :
  forall w,
    ds <> [] -> chain false w ds -> shr (last ds tnil) 1 <> 0 ->
    chain true w ds
    /\ width_after true ds w = shr (last ds tnil) 1
    /\ forall idx v,
         length idx = length ds ->
         rsum (width_after true ds w) (vec_chain true ds idx v)
         = rsum (width_after false ds w) (vec_chain false ds idx v).
Proof.
  induction ds as [|d ds IH]; intros w Hne Hch Hk; [congruence|].
  destruct Hch as (Dc & Hin & Hout & Hch).
  destruct ds as [|d2 ds].
  - cbn [last] in Hk. cbn [chain width_after is_last is_nil] in *.
    assert (Ho : out_rank false d = shr d 1).
    { unfold out_rank, shr, tdim in *.
      destruct (tshape d) as [|x [|y [|z [|? ?]]]]; cbn [length] in Dc;
        try (destruct Dc; discriminate); reflexivity. }
    rewrite Ho. split; [repeat split; assumption|]. split; [reflexivity|].
    intros idx v Hl. destruct idx as [|b [|? ?]]; try discriminate Hl.
    cbn [vec_chain is_last is_nil]. rewrite <- Ho.
    unfold out_rank, vec_step, tdim in *.
    destruct (tshape d) as [|x [|y [|z [|? ?]]]]; cbn [length] in Dc;
      try (destruct Dc; discriminate); [|reflexivity].
    rewrite rsum_one. reflexivity.
  - replace (last (d :: d2 :: ds) tnil) with (last (d2 :: ds) tnil) in *
      by reflexivity.
    cbn [is_last is_nil] in Hout, Hch.
    destruct (IH _ ltac:(discriminate) Hch Hk) as (I1 & I2 & I3).
    split; [|split].
    + split; [exact Dc|]. split; [exact Hin|].
      split; [exact Hout|exact I1].
    + exact I2.
    + intros idx v Hl. destruct idx as [|b idx]; [discriminate Hl|].
      apply I3. simpl in Hl |- *. lia.
Qed.

(** ** Objects and their lists *)

Lemma get_item_app_last (A : Type) (l : list A) (x : A) :
  get_item (l ++ [x]) (length l) = Ok x.
Proof.
  unfold get_item. rewrite nth_error_app2 by lia.
  rewrite Nat.sub_diag. reflexivity.
Qed.

Lemma get_item_app_mid (A : Type) (l l' : list A) (x : A) :
  get_item (l ++ x :: l') (length l) = Ok x.
Proof.
  unfold get_item. rewrite nth_error_app2 by lia.
  rewrite Nat.sub_diag. reflexivity.
Qed.

Lemma get_item_app_l (A : Type) (l l' : list A) (n : nat) (x : A) :
  get_item l n = Ok x -> get_item (l ++ l') n = Ok x.
Proof.
  intros H. pose proof (get_item_lt _ _ H) as Hn.
  apply get_item_ok in H. unfold get_item.
  rewrite nth_error_app1 by exact Hn. rewrite H. reflexivity.
Qed.

Lemma set_item_app_mid (A : Type) (l l' : list A) (x y : A) :
  set_item (l ++ x :: l') (length l) y = Ok (l ++ y :: l').
Proof.
  induction l as [|a l IH]; [reflexivity|].
  cbn [app length set_item]. rewrite IH. reflexivity.
Qed.

Section NewObject.

Variable CL : list (list tensor).
Variable FL : list (list (option tensor)).

(** The store that holds the lists [cs] and [us] of the new object after
    the lists [CL] and [FL] it held before. *)
Let st (cs : list tensor) (us : list (option tensor)) : store :=
  mkStore (CL ++ [cs]) (FL ++ [us]).

Let t : object := mkObject (length CL) (length FL).

Lemma read_cores_new (cs : list tensor) (us : list (option tensor)) :
  read_cores (st cs us) t = Ok cs.
Proof. apply get_item_app_last. Qed.

Lemma read_Us_new (cs : list tensor) (us : list (option tensor)) :
  read_Us (st cs us) t = Ok us.
Proof. apply get_item_app_last. Qed.

Lemma write_cores_new (cs cs' : list tensor) (us : list (option tensor)) :
  write_cores (st cs us) t cs' = Ok (st cs' us).
Proof.
  unfold write_cores, st, t. cbn [core_lists factor_lists cores_ref].
  rewrite set_item_app_mid. reflexivity.
Qed.

Lemma write_Us_new (cs : list tensor) (us us' : list (option tensor)) :
  write_Us (st cs us) t us' = Ok (st cs us').
Proof.
  unfold write_Us, st, t. cbn [core_lists factor_lists Us_ref].
  rewrite set_item_app_mid. reflexivity.
Qed.

Lemma load_old (self : object) (s : Tensor) (cs : list tensor)
  (us : list (option tensor)) :
  load (mkStore CL FL) self = Ok s -> load (st cs us) self = Ok s.
Proof.
  unfold load, read_cores, read_Us, st. cbn [core_lists factor_lists].
  intros H. bind_inv H. bind_inv H.
  rewrite (@get_item_app_l _ _ [cs] _ _ E), (@get_item_app_l _ _ [us] _ _ E0).
  exact H.
Qed.

(** The last loop of [repeat] on the lists of the new object. *)
Lemma repeat_axes_loop (cs : list tensor) :
  forall us rep done_cs done_us done_rep ecs eus cs' us',
    length done_cs = length done_rep ->
    length done_us = length done_rep ->
    length us = length cs ->
    repeat_axes cs us rep = Ok (cs', us') ->
    foldM (repeat_axis t (done_rep ++ rep))
      (seq (length done_rep) (length cs))
      (st (done_cs ++ cs ++ ecs) (done_us ++ us ++ eus))
    = Ok (st (done_cs ++ cs' ++ ecs) (done_us ++ us' ++ eus)).
Proof.
  induction cs as [|c cs IH];
    intros us rep done_cs done_us done_rep ecs eus cs' us' L1 L2 L3 H.
  - destruct us; [|discriminate L3]. inversion H. reflexivity.
  - destruct us as [|u us]; [discriminate L3|].
    destruct rep as [|r rep]; [discriminate H|].
    cbn [repeat_axes] in H. bind_inv H. destruct x as [c1 u1].
    cbn [bind] in H. bind_inv H. destruct x as [cs1 us1].
    inversion H. subst cs' us'. clear H.
    cbn [length seq foldM].
    assert (Hstep : repeat_axis t (done_rep ++ r :: rep)
                      (st (done_cs ++ (c :: cs) ++ ecs)
                          (done_us ++ (u :: us) ++ eus))
                      (length done_rep)
                    = Ok (st (done_cs ++ (c1 :: cs) ++ ecs)
                             (done_us ++ (u1 :: us) ++ eus))).
    { unfold repeat_axis. rewrite read_Us_new. cbn [bind app].
      rewrite <- L2 at 1. rewrite get_item_app_mid. cbn [bind].
      destruct u as [U|].
      - bind_inv E. inversion E. subst c1 u1. clear E.
        rewrite get_item_app_mid. cbn [bind]. rewrite E1. cbn [bind].
        rewrite <- L2. rewrite set_item_app_mid. cbn [bind].
        apply write_Us_new.
      - bind_inv E. inversion E. subst c1 u1. clear E.
        rewrite read_cores_new. cbn [bind].
        rewrite <- L1 at 1. rewrite get_item_app_mid. cbn [bind].
        rewrite get_item_app_mid. cbn [bind]. rewrite E1. cbn [bind].
        rewrite <- L1. rewrite set_item_app_mid. cbn [bind].
        apply write_cores_new. }
    rewrite Hstep. cbn [bind].
    specialize (IH us rep (done_cs ++ [c1]) (done_us ++ [u1])
                  (done_rep ++ [r]) ecs eus cs1 us1).
    rewrite !length_app in IH. cbn [length] in IH.
    rewrite <- !app_assoc in IH. cbn [app] in IH.
    rewrite !Nat.add_1_r in IH. cbn [app]. apply IH; try lia.
    + cbn [length] in L3. lia.
    + exact E0.
Qed.

(** The loop that adds the trailing axes. *)
Lemma append_axes_loop (self : object) (s : Tensor) (cl : tensor)
  (rep : list nat) :
  load (mkStore CL FL) self = Ok s ->
  get_last (cores s) = Ok cl ->
  forall todo done_rep cs us,
    foldM (append_axis self t (done_rep ++ todo))
      (seq (length done_rep) (length todo)) (st cs us)
    = Ok (st (cs ++ map (fun r => ones [r; shr cl 1]) todo)
             (us ++ map (fun _ => None) todo)).
Proof.
  intros Hs Hcl. induction todo as [|r todo IH]; intros done_rep cs us.
  - cbn [length seq foldM map]. rewrite !app_nil_r. reflexivity.
  - cbn [length seq foldM]. unfold append_axis at 1.
    rewrite get_item_app_mid. cbn [bind].
    pose proof (load_old self cs us Hs) as Hs'.
    unfold load in Hs'. bind_inv Hs'. bind_inv Hs'. inversion Hs'.
    subst s. cbn [cores] in Hcl. cbn [bind]. rewrite Hcl. cbn [bind].
    rewrite read_cores_new. cbn [bind]. rewrite write_cores_new. cbn [bind].
    rewrite read_Us_new. cbn [bind]. rewrite write_Us_new. cbn [bind].
    specialize (IH (done_rep ++ [r]) (cs ++ [ones [r; shr cl 1]])
                  (us ++ [None])).
    rewrite length_app in IH. cbn [length] in IH.
    rewrite <- !app_assoc in IH. cbn [app] in IH.
    rewrite !Nat.add_1_r in IH. cbn [map]. exact IH.
Qed.

End NewObject.

Lemma clone_Us_length (cs : list tensor) :
  forall us us', clone_Us cs us = Ok us' -> length us' = length cs.
Proof.
  induction cs as [|c cs IH]; intros us us' H.
  - inversion H. reflexivity.
  - cbn [clone_Us] in H. destruct us as [|u us]; [discriminate|].
    bind_inv H. inversion H. cbn [length]. f_equal. apply (IH _ _ E).
Qed.

(** [repeat] on objects: the store keeps its lists and gains the two lists
    of the result, which hold the network that [repeat] makes of the
    network of [self]. *)
Lemma obj_repeat_value (h : store) (self : object) (s T' : Tensor)
  (rep : list nat) :
  load h self = Ok s ->
  Tensor_repeat s rep = Ok T' ->
  obj_repeat h self rep = Ok (new_object h T').
Proof.
  intros Hs H. destruct h as [CL FL].
  unfold obj_repeat. rewrite Hs. cbn [bind].
  unfold Tensor_repeat in H.
  bind_inv H. bind_inv H. cbn [bind].
  unfold obj_clone. rewrite Hs. cbn [bind]. bind_inv H.
  cbn [bind new_object core_lists factor_lists].
  rename x1 into tc.
  pose proof E1 as Ecl. unfold clone in Ecl. bind_inv Ecl.
  apply clone_Us_length in E2.
  apply Tensor_of_cores_inv in Ecl. destruct Ecl as (Ec & Eu & _).
  rewrite (@load_old CL FL self s (cores tc) (Us tc) Hs). cbn [bind].
  assert (Hle : dim s <= length rep).
  { unfold assert in E. destruct (Nat.leb_spec (dim s) (length rep));
      [assumption|discriminate]. }
  destruct (if dim s <? length rep
            then cl <- get_last (cores s) ;;
                 Ok (map (fun r => ones [r; shr cl 1]) (skipn (dim s) rep))
            else Ok []) as [extra|] eqn:Ex; [|discriminate H].
  cbn [bind] in H. bind_inv H. destruct x2 as [cs' us']. inversion H.
  subst T'. clear H. cbn [cores Us].
  assert (Happ : (if dim s <? length rep
                  then foldM
                         (append_axis self
                            (mkObject (length CL) (length FL)) rep)
                         (seq (dim s) (length rep - dim s))
                         (mkStore (CL ++ [cores tc]) (FL ++ [Us tc]))
                  else Ok (mkStore (CL ++ [cores tc]) (FL ++ [Us tc])))
                 = Ok (mkStore (CL ++ [cores tc ++ extra])
                         (FL ++ [Us tc ++ map (fun _ => None) extra]))).
  { destruct (dim s <? length rep).
    - bind_inv Ex. inversion Ex. subst extra. clear Ex.
      pose proof (@append_axes_loop CL FL self s x2 rep Hs E4
                    (skipn (dim s) rep) (firstn (dim s) rep)
                    (cores tc) (Us tc)) as L.
      rewrite firstn_skipn, length_firstn, length_skipn in L.
      rewrite Nat.min_l in L by exact Hle. rewrite L, map_map. reflexivity.
    - inversion Ex. cbn [map]. rewrite !app_nil_r. reflexivity. }
  rewrite Happ. cbn [bind].
  rewrite (@load_old CL FL self s _ _ Hs). cbn [bind].
  pose proof (@repeat_axes_loop CL FL (cores tc) (Us tc) rep [] [] [] extra
                (map (fun _ => None) extra) cs' us' eq_refl eq_refl) as L.
  cbn [app length] in L. unfold dim. rewrite <- Ec.
  rewrite L; [reflexivity | | exact E3].
  cbn [Us] in Eu. rewrite Eu, Ec. exact E2.
Qed.

(** ** [repeat] on a valid network *)

Lemma get_last_last (A : Type) (l : list A) (d : A) :
  l <> [] -> get_last l = Ok (last l d).
Proof.
  intros H. destruct (exists_last H) as (l' & x & ->).
  rewrite get_last_snoc, last_last. reflexivity.
Qed.

Lemma same_ends_last (cs ds : list tensor) :
  Forall2 same_ends cs ds -> shr (last ds tnil) 1 = shr (last cs tnil) 1.
Proof.
  induction 1 as [|c d cs ds (_ & Hr & _) HF IH]; [reflexivity|].
  destruct HF as [|c' d' cs ds H' HF]; [exact Hr|exact IH].
Qed.

Lemma in_range_app_inv (s1 s2 : list nat) :
  forall idx,
    in_range (s1 ++ s2) idx = true ->
    in_range s1 (firstn (length s1) idx) = true
    /\ in_range s2 (skipn (length s1) idx) = true.
Proof.
  induction s1 as [|n s1 IH]; intros idx H.
  - split; [reflexivity|exact H].
  - destruct idx as [|i idx]; [discriminate H|].
    cbn [app in_range] in H. apply andb_true_iff in H. destruct H as (Hi & H).
    destruct (IH _ H) as (I1 & I2).
    cbn [length firstn skipn in_range]. rewrite Hi, I1. split; [reflexivity|].
    exact I2.
Qed.

Lemma mid_ones_cores (k : nat) (rs : list nat) :
  map mid (map (fun r => ones [r; k]) rs) = rs.
Proof.
  rewrite map_map. rewrite <- (map_id rs) at 2. apply map_ext.
  intros r. reflexivity.
Qed.

Lemma tiled_all_hd (rep : list nat) (ds ds' : list tensor) :
  tiled_all rep ds ds' -> in_rank (hd tnil ds') = in_rank (hd tnil ds).
Proof.
  destruct ds as [|d ds], ds' as [|d' ds']; try contradiction;
    [reflexivity|].
  destruct rep as [|r rep]; [contradiction|].
  intros ((_ & H & _) & _). exact H.
Qed.

(** The trailing ones-cores close the chain: whatever the repeated cores
    hand on is summed up, as the original network does at its end. *)
Lemma trailing_close (ds : list tensor) (w k : nat) (rs : list nat) :
  ds <> [] -> chain false w ds ->
  (rs <> [] -> k <> 0) -> shr (last ds tnil) 1 = k ->
  let extra := map (fun r => ones [r; k]) rs in
  let more := negb (is_nil extra) in
  chain more w ds
  /\ chain false (width_after more ds w) extra
  /\ forall idx idx2 v,
       length idx = length ds -> in_range rs idx2 = true ->
       rsum (width_after false extra (width_after more ds w))
         (vec_chain false extra idx2 (vec_chain more ds idx v))
       = rsum (width_after false ds w) (vec_chain false ds idx v).
Proof.
  intros Hne Hch Hk Hlast extra more.
  destruct rs as [|r rs].
  - cbn in extra, more. subst extra more.
    split; [exact Hch|]. split; [exact I|].
    intros idx idx2 v Hl Hi. destruct idx2; [reflexivity|discriminate].
  - assert (Hk' : k <> 0) by (apply Hk; discriminate).
    replace more with true by reflexivity.
    rewrite <- Hlast in Hk'.
    destruct (@chain_open ds w Hne Hch Hk') as (C1 & C2 & C3).
    rewrite C2, Hlast. rewrite Hlast in Hk'.
    split; [exact C1|]. split; [apply ones_chain; exact Hk'|].
    intros idx idx2 v Hl Hi. unfold extra.
    rewrite ones_close by exact Hi.
    rewrite <- Hlast, <- C2. apply C3. exact Hl.
Qed.

Lemma entry_eq (cs : list tensor) (idx : list nat) :
  cs <> [] ->
  entry cs idx
  = rsum (width_after false cs (in_rank (hd tnil cs)))
      (vec_chain false cs idx (fun _ => rI)).
Proof. intros H. destruct cs; [congruence|reflexivity]. Qed.

Lemma Tensor_repeat_spec (t : Tensor) (ds : list tensor) (rep : list nat) :
  valid t ds ->
  dim t <= length rep ->
  Forall (fun r => 1 <= r) rep ->
  (dim t < length rep -> shr (last (cores t) tnil) 1 <> 0) ->
  exists t' fs,
    Tensor_repeat t rep = Ok t'
    /\ valid t' fs
    /\ map mid fs = tile_shape (map mid ds) rep
    /\ skipn (dim t) (cores t')
       = map (fun r => ones [r; shr (last (cores t) tnil) 1])
           (skipn (dim t) rep)
    /\ skipn (dim t) (Us t') = map (fun _ => None) (skipn (dim t) rep)
    /\ forall idx,
         in_range (map mid fs) idx = true ->
         entry fs idx
         = entry ds (zip_with Nat.modulo (firstn (length ds) idx)
                       (map mid ds)).
Proof.
  intros Hv Hl Hrep Hk. pose proof Hv as (Hne & Hd & Hch).
  pose proof (decompress_cores_length _ _ Hd) as Hlen.
  pose proof (decompress_same_ends _ _ Hd) as Hends.
  destruct (clone_Us_ok _ _ Hd) as (_ & _ & Hd0 & Hlu).
  destruct (@chain_dims_ranks _ _ _ Hch) as (D1 & _).
  assert (Hcne : cores t <> []).
  { intros E. rewrite E in Hlen. destruct ds; [congruence|discriminate]. }
  unfold dim in *.
  set (N := length (cores t)) in *.
  set (k := shr (last (cores t) tnil) 1) in *.
  set (rs := skipn N rep).
  set (extra := map (fun r => ones [r; k]) rs).
  destruct (@repeat_axes_tiled (cores t) (firstn N (Us t)) rep ds Hd0 D1 Hl)
    as (cs' & us' & ds' & R1 & R2 & R3 & R4 & R5 & R6).
  fold N in R4, R5.
  destruct (tiled_all_length _ _ _ R3) as (Hl' & _).
  (* the call *)
  assert (Hcall : Tensor_repeat t rep
                  = Ok (mkTensor (cs' ++ extra)
                          (us' ++ map (fun _ => None) extra))).
  { unfold Tensor_repeat, dim. fold N.
    replace (N <=? length rep) with true
      by (symmetry; apply Nat.leb_le; exact Hl).
    replace (forallb (fun r => 1 <=? r) rep) with true.
    2:{ symmetry. apply forallb_forall. intros r Hr. apply Nat.leb_le.
        rewrite Forall_forall in Hrep. apply Hrep, Hr. }
    cbn [assert bind]. rewrite (clone_ok Hv). cbn [bind cores Us].
    unfold dim. fold N. rewrite R1.
    destruct (Nat.ltb_spec N (length rep)) as [Hlt|Hge].
    - rewrite (get_last_last tnil Hcne). reflexivity.
    - cbn [bind]. unfold extra, rs. rewrite skipn_all2 by exact Hge.
      reflexivity. }
  exists (mkTensor (cs' ++ extra) (us' ++ map (fun _ => None) extra)).
  exists (ds' ++ extra).
  split; [exact Hcall|].
  (* the chain of the result *)
  set (w := in_rank (hd tnil ds)) in *.
  assert (Hrs : rs <> [] -> k <> 0).
  { intros Hr. apply Hk. unfold rs in Hr.
    destruct (Nat.ltb_spec N (length rep)) as [Hlt|Hge]; [exact Hlt|].
    rewrite skipn_all2 in Hr by exact Hge. congruence. }
  destruct (@trailing_close ds w k rs Hne Hch Hrs (same_ends_last Hends))
    as (C1 & C2 & C3).
  fold extra in C1, C2, C3.
  set (more := negb (is_nil extra)) in *.
  destruct (tiled_chain more _ _ _ _ R3 C1) as (C1' & HW).
  assert (Hne' : ds' <> []).
  { intros E. rewrite E in Hl'. destruct ds; [congruence|discriminate]. }
  assert (Hhd : hd tnil (ds' ++ extra) = hd tnil ds').
  { destruct ds'; [congruence|reflexivity]. }
  assert (Hmid : map mid (ds' ++ extra) = tile_shape (map mid ds) rep).
  { rewrite map_app. unfold extra. rewrite mid_ones_cores.
    rewrite (tiled_all_mid _ _ _ R3). unfold tile_shape.
    rewrite length_map, Hlen. reflexivity. }
  split; [|split; [exact Hmid|]].
  { split; [intros E; apply app_eq_nil in E; destruct E; congruence|].
    split.
    - cbn [cores Us]. apply decompress_cores_app; [exact R2|].
      rewrite R4, R5. reflexivity.
    - rewrite Hhd, (tiled_all_hd _ _ _ R3). fold w.
      apply chain_app; [exact C1'|]. fold more. rewrite HW. exact C2. }
  cbn [cores Us]. split.
  { rewrite skipn_app, <- R4, skipn_all, Nat.sub_diag. reflexivity. }
  split.
  { rewrite skipn_app, <- R5, skipn_all, Nat.sub_diag. cbn [skipn app].
    unfold extra. rewrite map_map. reflexivity. }
  (* the entries *)
  intros idx Hidx.
  rewrite map_app in Hidx. apply in_range_app_inv in Hidx.
  rewrite length_map, Hl' in Hidx. destruct Hidx as (Hi1 & Hi2).
  unfold extra in Hi2. rewrite mid_ones_cores in Hi2. fold extra in Hi2.
  rewrite <- (firstn_skipn (length ds) idx) at 1.
  set (idx1 := firstn (length ds) idx) in *.
  set (idx2 := skipn (length ds) idx) in *.
  assert (Hl1 : length idx1 = length ds').
  { apply in_range_length in Hi1. rewrite length_map in Hi1. exact Hi1. }
  rewrite (@entry_eq ds _ Hne), entry_eq
    by (intros E; apply app_eq_nil in E; destruct E; congruence).
  rewrite Hhd, (tiled_all_hd _ _ _ R3). fold w.
  rewrite width_after_app. fold more.
  rewrite <- (C3 (zip_with Nat.modulo idx1 (map mid ds)) idx2 (fun _ => rI)).
  - rewrite HW. apply rsum_ext. intros j Hj.
    rewrite vec_chain_app by exact Hl1. fold more.
    apply (@vec_chain_ext false extra idx2 (width_after more ds w)).
    + exact C2.
    + apply in_range_length in Hi2. unfold extra. rewrite length_map.
      exact Hi2.
    + intros i Hi. apply (@tiled_vec_chain more ds rep ds' w); assumption.
    + exact Hj.
  - clear - Hi1 Hl' R3. rewrite (tiled_all_mid _ _ _ R3) in Hi1.
    pose proof (tiled_all_length _ _ _ R3) as (_ & Hle).
    rewrite <- (length_map mid ds) in Hi1, Hle.
    apply zip_mod_in_range in Hi1; [|exact Hle].
    apply in_range_length in Hi1. rewrite length_map in Hi1. exact Hi1.
  - exact Hi2.
Qed.

(** ** Claim C10: [repeat] *)

Lemma load_new_object (h : store) (t : Tensor) :
  load (fst (new_object h t)) (snd (new_object h t)) = Ok t.
Proof.
  destruct h as [CL FL], t as [cs us].
  unfold load. cbn [new_object fst snd cores Us].
  rewrite (read_cores_new CL FL), (read_Us_new CL FL). reflexivity.
Qed.

Lemma load_kept (h : store) (t : Tensor) (o : object) (x : Tensor) :
  load h o = Ok x -> load (fst (new_object h t)) o = Ok x.
Proof.
  destruct h as [CL FL]. intros H.
  apply (@load_old CL FL o x (cores t) (Us t) H).
Qed.

(** C10.  Let the object [self] stand for a network [t] that decompresses
    to the array [A], and let [rep] hold at least [t.dim()] counts, all at
    least 1; when [rep] is longer than that, let the last size of the last
    core of [t] (the rank the trailing cores take) be other than zero.
    Then [self.repeat] with the arguments [rep] returns an object [o'] with
    lists of its own, at positions the store did not have; every object of
    the store, [self] among them, stands for the network it stood for; the
    shape of the result is [rep[n] * t.shape[n]] on the axes of [t] and
    [rep[n]] on the trailing axes, which are held by CP cores of ones of the
    rank [self.cores[-1].shape[-1]] without Tucker factors; and the result
    decompresses to [A] tiled by [rep]. *)
Theorem C10_repeat_tiles (h : store) (self : object) (t : Tensor)
  (rep : list nat) (A : tensor) :
  load h self = Ok t ->
  torch t = Ok A ->
  dim t <= length rep ->
  Forall (fun r => 1 <= r) rep ->
  (dim t < length rep -> shr (last (cores t) tnil) 1 <> 0) ->
  exists h' o' t' sp,
    obj_repeat h self rep = Ok (h', o')
    /\ load h' o' = Ok t'
    /\ length (core_lists h) <= cores_ref o'
    /\ length (factor_lists h) <= Us_ref o'
    /\ (forall o x, load h o = Ok x -> load h' o = Ok x)
    /\ shape t = Ok sp
    /\ shape t' = Ok (tile_shape sp rep)
    /\ skipn (dim t) (cores t')
       = map (fun r => ones [r; shr (last (cores t) tnil) 1])
           (skipn (dim t) rep)
    /\ skipn (dim t) (Us t') = map (fun _ => None) (skipn (dim t) rep)
    /\ torch t' = Ok (tile A rep).
Proof.
  intros Hload Ht Hl Hrep Hk.
  destruct (@torch_inv t A Ht) as (ds & Hv & HA).
  destruct (@Tensor_repeat_spec t ds rep Hv Hl Hrep Hk)
    as (t' & fs & Hcall & Hv' & Hmid & Hcs & Hus & Hent).
  exists (fst (new_object h t')), (snd (new_object h t')), t', (map mid ds).
  split.
  { rewrite (@obj_repeat_value h self t t' rep Hload Hcall).
    f_equal. }
  split; [apply load_new_object|].
  split; [cbn; lia|]. split; [cbn; lia|].
  split; [intros o x; apply load_kept|].
  pose proof Hv as (_ & Hd & _). pose proof Hv' as (_ & Hd' & _).
  split; [apply (shape_decompress _ _ Hd)|].
  split; [unfold shape; rewrite (shape_decompress _ _ Hd'), Hmid;
          reflexivity|].
  split; [exact Hcs|]. split; [exact Hus|].
  rewrite (@torch_spec t' fs Hv'). f_equal. subst A.
  unfold tile, build. cbn [tshape tdim]. rewrite Hmid. f_equal.
  apply tab_ext. intros idx Hidx. rewrite <- Hmid in Hidx.
  rewrite (Hent idx Hidx). unfold tdim. cbn [tshape].
  rewrite length_map.
  change (mkT (map mid ds) (tab (map mid ds) (entry ds)))
    with (build (map mid ds) (entry ds)).
  rewrite get_build; [reflexivity|].
  rewrite Hmid in Hidx. unfold tile_shape in Hidx.
  apply in_range_app_inv in Hidx. destruct Hidx as (Hi1 & _).
  pose proof Hv as (_ & Hd0 & _).
  pose proof (decompress_cores_length _ _ Hd0) as Hlen.
  assert (Hle : length (map mid ds) <= length rep).
  { rewrite length_map, Hlen. exact Hl. }
  assert (Hz : length (zip_with Nat.mul (firstn (length (map mid ds)) rep)
                         (map mid ds)) = length ds).
  { clear - Hle. rewrite <- (length_map mid ds).
    revert rep Hle. induction (map mid ds) as [|s sp IH]; intros rep Hle;
      [reflexivity|].
    destruct rep as [|r rep]; [cbn in Hle; lia|].
    cbn [length firstn zip_with]. f_equal. apply IH. cbn in Hle. lia. }
  rewrite Hz in Hi1.
  apply (@zip_mod_in_range _ _ _ Hle Hi1).
Qed.

(** ** Products of matrices *)

Lemma vm_ext (n : nat) (u u' : nat -> R) (M M' : nat -> nat -> R) (j : nat) :
  (forall i, i < n -> u i = u' i) ->
  (forall i, i < n -> M i j = M' i j) ->
  vm n u M j = vm n u' M' j.
Proof.
  intros Hu HM. unfold vm. apply rsum_ext. intros i Hi.
  rewrite Hu, HM by exact Hi. reflexivity.
Qed.

Lemma vm_assoc (n m : nat) (u : nat -> R) (M1 M2 : nat -> nat -> R)
  (j : nat) :
  vm m (vm n u M1) M2 j
  = vm n u (fun i k => rsum m (fun l => M1 i l *! M2 l k)) j.
Proof. unfold vm. apply rsum_assoc. Qed.

Lemma vm_eye (n : nat) (u : nat -> R) (j : nat) :
  j < n -> vm n u delta j = u j.
Proof. intros H. unfold vm. apply rsum_delta_r. exact H. Qed.

Lemma vm_one (u : nat -> R) (M : nat -> nat -> R) (j : nat) :
  u 0 = rI -> vm 1 u M j = M 0 j.
Proof. intros H. unfold vm. rewrite rsum_one, H. ring. Qed.

Lemma tt_vec_ext (cs : list tensor) :
  forall w w' idx u u' j,
    tt_chain w cs w' -> length idx = length cs ->
    (forall i, i < w -> u i = u' i) -> j < w' ->
    tt_vec cs idx u j = tt_vec cs idx u' j.
Proof.
  induction cs as [|c cs IH]; intros w w' idx u u' j Hch Hl Hu Hj.
  - destruct idx; [|discriminate]. cbn in *. subst w'. apply Hu, Hj.
  - destruct idx as [|b idx]; [discriminate|].
    destruct Hch as (_ & H0 & _ & Hch). cbn [tt_vec].
    apply (IH (sh c 2) w'); try assumption.
    + simpl in Hl. lia.
    + intros i _. apply vm_ext; [|reflexivity]. rewrite H0. exact Hu.
Qed.

Lemma tt_vec_app (cs1 cs2 : list tensor) :
  forall idx1 idx2 v,
    length idx1 = length cs1 ->
    tt_vec (cs1 ++ cs2) (idx1 ++ idx2) v
    = tt_vec cs2 idx2 (tt_vec cs1 idx1 v).
Proof.
  induction cs1 as [|c cs1 IH]; intros idx1 idx2 v Hl.
  - destruct idx1; [reflexivity|discriminate].
  - destruct idx1 as [|b idx1]; [discriminate|].
    cbn [app tt_vec]. apply IH. simpl in Hl. lia.
Qed.

Lemma tt_chain_app (cs1 cs2 : list tensor) :
  forall w w1 w2,
    tt_chain w cs1 w1 -> tt_chain w1 cs2 w2 -> tt_chain w (cs1 ++ cs2) w2.
Proof.
  induction cs1 as [|c cs1 IH]; intros w w1 w2 H1 H2.
  - cbn in H1. subst w1. exact H2.
  - destruct H1 as (D & H0 & Hr & H1). cbn [app tt_chain].
    repeat split; try assumption. apply (IH _ w1); assumption.
Qed.

Lemma tt_chain_app_inv (cs1 cs2 : list tensor) :
  forall w w2,
    tt_chain w (cs1 ++ cs2) w2 ->
    exists w1, tt_chain w cs1 w1 /\ tt_chain w1 cs2 w2.
Proof.
  induction cs1 as [|c cs1 IH]; intros w w2 H.
  - exists w. split; [reflexivity|exact H].
  - destruct H as (D & H0 & Hr & H). destruct (IH _ _ H) as (w1 & I1 & I2).
    exists w1. split; [|exact I2]. cbn [tt_chain]. repeat split; assumption.
Qed.

Lemma tt_chain_rank (cs : list tensor) :
  forall w w', w <> 0 -> tt_chain w cs w' -> w' <> 0.
Proof.
  induction cs as [|c cs IH]; intros w w' Hw H.
  - cbn in H. subst. exact Hw.
  - destruct H as (_ & _ & Hr & H). apply (IH _ _ Hr H).
Qed.

(** A 3-index core in the terms of the decompression loop. *)
Lemma tt_core_ranks (c : tensor) (last : bool) :
  tdim c = 3 ->
  in_rank c = sh c 0 /\ out_rank last c = sh c 2
  /\ forall b v, vec_step last c b v = vm (sh c 0) v (mat3 c b).
Proof.
  intros D. unfold in_rank, out_rank, vec_step, sh, tdim, vm, mat3 in *.
  destruct (tshape c) as [|x [|y [|z [|? ?]]]]; try discriminate D.
  repeat split.
Qed.

Lemma tt_chain_chain (more : bool) (cs : list tensor) :
  forall w w',
    tt_chain w cs w' ->
    chain more w cs /\ width_after more cs w = w'
    /\ forall idx v, vec_chain more cs idx v = tt_vec cs idx v.
Proof.
  induction cs as [|c cs IH]; intros w w' H.
  - cbn in H. subst. repeat split.
  - destruct H as (D & H0 & Hr & H).
    destruct (@tt_core_ranks c (is_last more cs) D) as (R1 & R2 & R3).
    destruct (IH _ _ H) as (I1 & I2 & I3).
    cbn [chain width_after]. rewrite R1, R2.
    split; [|split].
    + repeat split; try assumption. right. exact D.
    + exact I2.
    + intros idx v. destruct idx as [|b idx]; [reflexivity|].
      cbn [vec_chain tt_vec]. rewrite R3. apply I3.
Qed.

(** The array of a network of TT cores. *)
Lemma tt_torch (t : Tensor) (w' : nat) :
  cores t <> [] -> Us t = repeat None (length (cores t)) ->
  tt_chain (sh (hd tnil (cores t)) 0) (cores t) w' ->
  torch t
  = Ok (build (map mid (cores t))
          (fun idx => rsum w' (tt_vec (cores t) idx v1))).
Proof.
  intros Hne HU Hch.
  destruct (@tt_chain_chain false _ _ _ Hch) as (C1 & C2 & C3).
  assert (Hin : in_rank (hd tnil (cores t)) = sh (hd tnil (cores t)) 0).
  { destruct (cores t) as [|c cs]; [congruence|].
    destruct Hch as (D & _). apply (@tt_core_ranks c false D). }
  assert (Hv : valid t (cores t)).
  { split; [exact Hne|]. split.
    - rewrite HU. apply decompress_cores_none.
    - rewrite Hin. exact C1. }
  rewrite (@torch_spec t (cores t) Hv). f_equal. unfold build. f_equal.
  apply tab_ext. intros idx _.
  rewrite (@entry_eq (cores t) idx Hne), Hin, C2, C3. reflexivity.
Qed.

(** ** Indexing a core *)

Lemma select_mid3 (c : tensor) (r s r' n : nat) :
  tshape c = [r; s; r'] ->
  tshape (select c 1 n) = [r; r'] /\ wf (select c 1 n)
  /\ forall i j, i < r -> j < r' ->
       get (select c 1 n) [i; j] = get c [i; n; j].
Proof.
  intros E. unfold select. rewrite E. cbn [del build tshape].
  split; [reflexivity|]. split; [apply (build_wf [r; r'])|].
  intros i j Hi Hj.
  change (mkT [r; r'] (tab [r; r'] ?f)) with (build [r; r'] f).
  rewrite get_build by (apply in_range2; assumption). reflexivity.
Qed.

Lemma take_mid3 (c : tensor) (r s r' : nat) (pos : list nat) :
  tshape c = [r; s; r'] ->
  tshape (take c 1 pos) = [r; length pos; r']
  /\ forall i b j, i < r -> b < length pos -> j < r' ->
       get (take c 1 pos) [i; b; j] = get c [i; nth b pos 0; j].
Proof.
  intros E. unfold take. rewrite E. cbn [upd build tshape].
  split; [reflexivity|]. intros i b j Hi Hb Hj.
  change (mkT [r; length pos; r'] (tab [r; length pos; r'] ?f))
    with (build [r; length pos; r'] f).
  rewrite get_build by (apply in_range3; assumption). reflexivity.
Qed.

Lemma index_mid3 (c : tensor) (r s r' : nat) (k : key_item)
  (x : nat + list nat) :
  tshape c = [r; s; r'] -> torch_select s k = Ok x ->
  index_mid c k = Ok (match x with
                      | inl n => select c 1 n
                      | inr pos => take c 1 pos
                      end).
Proof.
  intros E H. unfold index_mid, index_axis, tdim. rewrite E.
  cbn [length Nat.ltb Nat.leb Nat.sub nth]. rewrite H. cbn [bind].
  destruct x; reflexivity.
Qed.

Lemma np_torch_select (s : nat) (k : key_item) (x : sel) :
  np_select s k = Ok x -> positive_steps [k] = true ->
  torch_select s k = Ok (as_torch x).
Proof.
  intros H Hp. destruct k as [i|a b st|l| |]; cbn [np_select] in H;
    cbn [torch_select]; try discriminate H.
  - bind_inv H. inversion H. reflexivity.
  - cbn [positive_steps forallb] in Hp. rewrite andb_true_r in Hp.
    apply Z.ltb_lt in Hp.
    replace (step_of st <=? 0)%Z with false
      by (symmetry; apply Z.leb_gt; exact Hp).
    replace (step_of st =? 0)%Z with false in H
      by (symmetry; apply Z.eqb_neq; lia).
    inversion H. reflexivity.
  - bind_inv H. inversion H. reflexivity.
Qed.

(** *** The positions selected are positions of the axis *)

Lemma norm_index_lt (s : nat) (i : Z) (n : nat) :
  norm_index s i = Ok n -> n < s.
Proof.
  unfold norm_index. intros H.
  destruct ((i <? - Z.of_nat s) || (Z.of_nat s <=? i))%Z eqn:E;
    [discriminate H|].
  apply orb_false_iff in E. destruct E as (E1 & E2).
  apply Z.ltb_ge in E1. apply Z.leb_gt in E2. inversion H.
  destruct (i <? 0)%Z eqn:E0.
  - apply Z.ltb_lt in E0. lia.
  - apply Z.ltb_ge in E0. lia.
Qed.

Lemma mapM_norm_index (s : nat) (l : list Z) :
  forall pos, mapM (norm_index s) l = Ok pos ->
              length pos = length l /\ Forall (fun n => n < s) pos.
Proof.
  induction l as [|i l IH]; intros pos H.
  - inversion H. split; [reflexivity|constructor].
  - cbn [mapM] in H. bind_inv H. bind_inv H. inversion H.
    destruct (IH _ eq_refl) as (I1 & I2). split.
    + cbn [length]. f_equal. exact I1.
    + constructor; [apply (@norm_index_lt _ _ _ E)|exact I2].
Qed.

Lemma slice_positions_lt (s : nat) (start stop : option Z) (step : Z) :
  (0 < step)%Z ->
  Forall (fun n => n < s) (slice_positions s start stop step).
Proof.
  intros Hs. unfold slice_positions.
  set (a := slice_start s start step). set (b := slice_stop s stop step).
  assert (Ha : (0 <= a)%Z).
  { unfold a, slice_start, clamp_bound.
    replace (step <? 0)%Z with false by (symmetry; apply Z.ltb_ge; lia).
    destruct start as [x|]; [|lia]. destruct (x <? 0)%Z eqn:E; [lia|].
    apply Z.ltb_ge in E. lia. }
  assert (Hb : (b <= Z.of_nat s)%Z).
  { unfold b, slice_stop, clamp_bound.
    replace (step <? 0)%Z with false by (symmetry; apply Z.ltb_ge; lia).
    destruct stop as [x|]; [|lia]. destruct (x <? 0)%Z eqn:E; [|lia].
    apply Z.ltb_lt in E. lia. }
  apply Forall_forall. intros n Hn. apply in_map_iff in Hn.
  destruct Hn as (j & <- & Hj). apply in_seq in Hj.
  unfold slice_length in Hj.
  replace (0 <? step)%Z with true in Hj by (symmetry; apply Z.ltb_lt; lia).
  destruct (a <? b)%Z eqn:E; [|lia]. apply Z.ltb_lt in E.
  assert (Hq : (Z.of_nat j <= (b - a - 1) / step)%Z).
  { pose proof (Z.div_pos (b - a - 1) step ltac:(lia) Hs). lia. }
  pose proof (Z.mul_div_le (b - a - 1) step Hs) as Hd.
  assert (Hm : (Z.of_nat j * step <= b - a - 1)%Z) by nia.
  lia.
Qed.

(** *** The contractions on matrices and TT cores *)

Lemma vm_contract (w a : nat) (u : nat -> R) (MK M1 M2 : nat -> nat -> R)
  (j : nat) :
  (forall i, i < w -> MK i j = rsum a (fun m => M1 i m *! M2 m j)) ->
  vm w u MK j = vm a (vm w u M1) M2 j.
Proof.
  intros H. rewrite vm_assoc. apply vm_ext; [reflexivity|]. exact H.
Qed.

Lemma join_2_3 (F X : tensor) (w a s b : nat) :
  tshape F = [w; a] -> tshape X = [a; s; b] ->
  exists K,
    join_cores F X = Ok K /\ tshape K = [w; s; b]
    /\ forall u q j, q < s -> j < b ->
         vm w u (mat3 K q) j = vm a (vm w u (mat2 F)) (mat3 X q) j.
Proof.
  intros EF EX. unfold join_cores, tdim. rewrite EF, EX. cbn [length].
  unfold einsum_ij_jak_iak, einsum_by. rewrite EF, EX, Nat.eqb_refl.
  eexists. split; [reflexivity|]. split; [reflexivity|].
  intros u q j Hq Hj. apply vm_contract. intros i Hi. unfold mat3.
  rewrite get_build3 by assumption. reflexivity.
Qed.

Lemma merge_int_2_2 (F F2 : tensor) (w a b : nat) :
  tshape F = [w; a] -> tshape F2 = [a; b] ->
  exists K,
    merge_int F F2 = Ok K /\ tshape K = [w; b] /\ wf K
    /\ forall u j, j < b ->
         vm w u (mat2 K) j = vm a (vm w u (mat2 F)) (mat2 F2) j.
Proof.
  intros EF EX. unfold merge_int, tdim. rewrite EF, EX. cbn [length].
  unfold einsum_ij_jk_ik, einsum_by. rewrite EF, EX, Nat.eqb_refl.
  eexists. split; [reflexivity|]. split; [reflexivity|].
  split; [apply build_wf|].
  intros u j Hj. apply vm_contract. intros i Hi. unfold mat2.
  rewrite get_build2 by assumption. reflexivity.
Qed.

Lemma pick_small (n q : nat) : q < n -> (if n =? 1 then 0 else q) = q.
Proof. intros H. destruct (Nat.eqb_spec n 1); [lia|reflexivity]. Qed.

Lemma merge_index_3_3 (X Y : tensor) (w P a b : nat) :
  tshape X = [w; P; a] -> tshape Y = [a; P; b] ->
  exists K,
    merge_index X Y = Ok K /\ tshape K = [w; P; b]
    /\ forall u p j, p < P -> j < b ->
         vm w u (mat3 K p) j = vm a (vm w u (mat3 X p)) (mat3 Y p) j.
Proof.
  intros EX EY. unfold merge_index, tdim. rewrite EX, EY. cbn [length].
  unfold sum_iaj_jak_iak. rewrite EX, EY. rewrite !bsize_refl. cbn [bind].
  eexists. split; [reflexivity|]. split; [reflexivity|].
  intros u p j Hp Hj. apply vm_contract. intros i Hi. unfold mat3.
  rewrite get_build3 by assumption. apply rsum_ext. intros m Hm.
  rewrite (pick_small Hp), (pick_small Hm). reflexivity.
Qed.

Lemma absorb_3_2 (c F : tensor) (w s a b : nat) :
  tshape c = [w; s; a] -> tshape F = [a; b] ->
  exists K,
    absorb_int c F = Ok K /\ tshape K = [w; s; b]
    /\ forall u q j, q < s -> j < b ->
         vm w u (mat3 K q) j = vm a (vm w u (mat3 c q)) (mat2 F) j.
Proof.
  intros Ec EF. unfold absorb_int, tdim. rewrite Ec, EF. cbn [length].
  unfold einsum_iaj_jk_iak, einsum_by. rewrite Ec, EF, Nat.eqb_refl.
  eexists. split; [reflexivity|]. split; [reflexivity|].
  intros u q j Hq Hj. apply vm_contract. intros i Hi. unfold mat3.
  rewrite get_build3 by assumption. reflexivity.
Qed.

(** The core that [None] adds. *)
Lemma eye_core_slice (r : nat) :
  exists K,
    index_mid (eye_core r) full_slice = Ok K /\ tshape K = [r; 1; r]
    /\ forall u j, j < r -> vm r u (mat3 K 0) j = u j.
Proof.
  assert (E : tshape (eye_core r) = [r; 1; r]) by reflexivity.
  assert (Hs : torch_select 1 full_slice = Ok (inr [0])) by reflexivity.
  rewrite (@index_mid3 _ _ _ _ _ _ E Hs).
  destruct (@take_mid3 _ _ _ _ [0] E) as (T1 & T2).
  eexists. split; [reflexivity|]. split; [exact T1|].
  intros u j Hj. rewrite <- (@vm_eye r u j Hj). apply vm_ext; [reflexivity|].
  intros i Hi. unfold mat3. rewrite T2 by (cbn; lia). cbn [nth].
  unfold eye_core. rewrite get_build3 by lia. reflexivity.
Qed.

(** ** The network that is indexed *)

Lemma nth_map_seq (A : Type) (f : nat -> A) (n k : nat) (d : A) :
  k < n -> nth k (map f (seq 0 n)) d = f k.
Proof.
  intros H. rewrite (nth_indep _ d (f 0)) by (rewrite length_map, length_seq; exact H).
  rewrite (map_nth f (seq 0 n) 0 k), seq_nth by exact H. reflexivity.
Qed.

Section Indexed.

Variable t : Tensor.
Variable sp : list nat.
Variable rk : nat -> nat.
Hypothesis Hnet : tt_network t sp rk.

Lemma net_dim : dim t = length sp.
Proof.
  destruct Hnet as (H & _). apply (f_equal (@length _)) in H.
  rewrite !length_map, length_seq in H. exact H.
Qed.

Lemma net_core_shape (c : nat) :
  c < length sp ->
  tshape (nth c (cores t) tnil) = [rk c; nth c sp 0; rk (S c)].
Proof.
  intros Hc. destruct Hnet as (H & _).
  rewrite <- (map_nth tshape (cores t) tnil c), H.
  apply nth_map_seq. exact Hc.
Qed.

Lemma net_core (c : nat) :
  c < length sp -> get_item (cores t) c = Ok (nth c (cores t) tnil).
Proof. intros Hc. apply get_item_nth. unfold dim in *. rewrite <- net_dim in Hc. exact Hc. Qed.

Lemma net_factor (c : nat) :
  c < length sp -> get_item (Us t) c = Ok None.
Proof.
  intros Hc. destruct Hnet as (_ & HU & _). rewrite HU.
  rewrite (@get_item_nth _ _ c None) by (rewrite repeat_length; exact Hc).
  f_equal. apply nth_repeat.
Qed.

Lemma net_skipn (c : nat) :
  c < length sp ->
  skipn c (cores t) = nth c (cores t) tnil :: skipn (S c) (cores t).
Proof.
  intros Hc. pose proof net_dim as Hd. unfold dim in Hd.
  rewrite <- Hd in Hc. clear Hd. revert c Hc.
  induction (cores t) as [|g gs IH]; intros c Hc; [simpl in Hc; lia|].
  destruct c as [|c]; [reflexivity|]. cbn [skipn nth]. apply IH.
  simpl in Hc. lia.
Qed.

Lemma net_chain (c : nat) :
  c <= length sp -> tt_chain (rk c) (skipn c (cores t)) 1.
Proof.
  intros Hc. remember (length sp - c) as m eqn:Em.
  revert c Hc Em. induction m as [|m IH]; intros c Hc Em.
  - assert (c = length sp) by lia. subst c.
    rewrite skipn_all2 by (pose proof net_dim; unfold dim in *; lia).
    destruct Hnet as (_ & _ & _ & _ & Hl). exact Hl.
  - rewrite net_skipn by lia. cbn [tt_chain].
    pose proof (@net_core_shape c ltac:(lia)) as E.
    unfold tdim, sh. rewrite E. cbn [length nth].
    destruct Hnet as (_ & _ & Hr & _).
    repeat split; [apply Hr|]. apply IH; lia.
Qed.

Lemma net_ranks (c : nat) :
  sp <> [] -> c <= length sp ->
  exists r, ranks_tt t = Ok r /\ get_item r c = Ok (rk c).
Proof.
  intros Hsp Hc. pose proof net_dim as Hd. unfold dim in Hd.
  assert (H0 : 0 < length sp) by (destruct sp; [congruence|simpl; lia]).
  pose proof (net_core_shape H0) as E0.
  unfold ranks_tt.
  destruct (cores t) as [|c0 cs] eqn:Ec; [simpl in Hd; lia|].
  eexists. split; [reflexivity|].
  destruct c as [|c].
  - cbn [nth] in E0. unfold get_item, tdim, sh. cbn [nth_error].
    rewrite E0. reflexivity.
  - rewrite <- Ec. rewrite <- Ec in Hd.
    assert (Hc' : c < length sp) by lia.
    pose proof (net_core_shape Hc') as E.
    unfold get_item. cbn [nth_error].
    rewrite (nth_error_nth' _ 0)
      by (rewrite length_map; rewrite Hd; exact Hc').
    f_equal.
    rewrite (nth_indep _ 0 (shr tnil 1)) by (rewrite length_map, Hd; exact Hc').
    rewrite (map_nth (fun x => shr x 1)). unfold shr, tdim. rewrite E.
    reflexivity.
Qed.

End Indexed.

(** ** The selections still to come *)

Lemma no_arr_shape (rest : list sel) (seen : bool) :
  none_of (map is_arr rest) = true ->
  shape_inplace rest seen = shape_inplace rest false.
Proof.
  induction rest as [|x rest IH]; intros H; [reflexivity|].
  cbn [map none_of] in H. apply andb_true_iff in H. destruct H as (Hx & H).
  destruct x; cbn [shape_inplace]; try (rewrite (IH H); reflexivity).
  discriminate Hx.
Qed.

Lemma no_arr_source (rest : list sel) :
  forall p idx,
    none_of (map is_arr rest) = true ->
    source rest p idx = source rest None idx.
Proof.
  induction rest as [|x rest IH]; intros p idx H; [reflexivity|].
  cbn [map none_of] in H. apply andb_true_iff in H. destruct H as (Hx & H).
  destruct x; cbn [source]; try (rewrite (IH _ _ H); reflexivity).
  discriminate Hx.
Qed.

Lemma no_arr_lengths (rest : list sel) :
  none_of (map is_arr rest) = true -> arr_lengths rest = [].
Proof.
  induction rest as [|x rest IH]; intros H; [reflexivity|].
  cbn [map none_of] in H. apply andb_true_iff in H. destruct H as (Hx & H).
  unfold arr_lengths in *. cbn [flat_map]. rewrite (IH H).
  destruct x; try reflexivity. discriminate Hx.
Qed.

Lemma run_then_none_weaken (l : list bool) :
  none_of l = true -> run_then_none l = true.
Proof.
  induction l as [|b l IH]; intros H; [reflexivity|].
  cbn [none_of] in H. apply andb_true_iff in H. destruct H as (Hb & H).
  destruct b; [discriminate Hb|exact H].
Qed.

Lemma one_run_weaken (l : list bool) :
  none_of l = true -> one_run l = true.
Proof.
  induction l as [|b l IH]; intros H; [reflexivity|].
  cbn [none_of] in H. apply andb_true_iff in H. destruct H as (Hb & H).
  destruct b; [discriminate Hb|]. cbn [one_run]. apply IH, H.
Qed.

Lemma np_select_inv (s : nat) (k : key_item) (x : sel) :
  np_select s k = Ok x -> is_none k = false /\ x <> SNew.
Proof.
  intros H. destruct k; cbn [np_select] in H; try discriminate H.
  - bind_inv H. inversion H. split; [reflexivity|discriminate].
  - destruct (step_of step =? 0)%Z; [discriminate H|]. inversion H.
    split; [reflexivity|discriminate].
  - bind_inv H. inversion H. split; [reflexivity|discriminate].
Qed.

(** [np_resolve], one entry of the key at a time. *)
Lemma np_resolve_cons (sp' : list nat) (k : key_item) (key : list key_item)
  (rest : list sel) :
  np_resolve sp' (k :: key) = Ok rest ->
  (k = KNone /\ exists r, np_resolve sp' key = Ok r /\ rest = SNew :: r)
  \/ (exists s sp'' x r,
        sp' = s :: sp'' /\ np_select s k = Ok x
        /\ np_resolve sp'' key = Ok r /\ rest = x :: r).
Proof.
  intros H. destruct (is_none k) eqn:Ek.
  - destruct k; try discriminate Ek. left. cbn [np_resolve] in H.
    bind_inv H. inversion H. split; [reflexivity|].
    exists x. split; reflexivity.
  - right.
    assert (H' : match sp' with
                 | [] => Raise IndexError
                 | s :: sp'' =>
                     x <- np_select s k ;; r <- np_resolve sp'' key ;;
                     Ok (x :: r)
                 end = Ok rest)
      by (destruct k; try discriminate Ek; exact H).
    destruct sp' as [|s sp'']; [discriminate H'|].
    bind_inv H'. bind_inv H'. inversion H'.
    exists s, sp'', x, x0. repeat split; assumption.
Qed.

Lemma source_length (key : list key_item) :
  forall sp' rest p idx,
    np_resolve sp' key = Ok rest -> length (source rest p idx) = length sp'.
Proof.
  induction key as [|k key IH]; intros sp' rest p idx H.
  - destruct sp'; [|discriminate H]. inversion H. reflexivity.
  - destruct (np_resolve_cons _ _ _ H)
      as [(_ & r & Hr & ->)|(s & sp'' & x & r & -> & Hx & Hr & ->)].
    + cbn [source]. apply (IH _ _ _ _ Hr).
    + destruct (np_select_inv _ _ Hx) as (_ & Hn).
      destruct x; try congruence; cbn [source length]; f_equal;
        try apply (IH _ _ _ _ Hr).
      destruct p; cbn [length]; f_equal; apply (IH _ _ _ _ Hr).
Qed.

Lemma firstn_add (A : Type) (a k : nat) (l : list A) :
  firstn (a + k) l = firstn a l ++ firstn k (skipn a l).
Proof.
  revert l. induction a as [|a IH]; intros l; [reflexivity|].
  destruct l as [|x l]; [cbn; rewrite firstn_nil; reflexivity|].
  cbn [Nat.add firstn skipn app]. f_equal. apply IH.
Qed.

(** Two states and lists of selections stand for the same result when
    they agree index by index; [k] cores were made from the one to the
    other. *)
Lemma expected_eq (gs gs' : list tensor) (st st' : getitem_state)
  (rest rest' : list sel) (k : nat) :
  length (g_cores st') = length (g_cores st) + k ->
  expected_shape st' rest' = expected_shape st rest ->
  (forall idxH tail,
      length idxH = length (g_cores st) ->
      in_range (map mid (g_cores st)) idxH = true ->
      in_range (tail_shape st rest) tail = true ->
      expect gs' st' rest' (idxH ++ firstn k tail) (skipn k tail)
      = expect gs st rest idxH tail) ->
  expected gs' st' rest' = expected gs st rest.
Proof.
  intros Hl Hs He. unfold expected. rewrite Hs. unfold build. f_equal.
  apply tab_ext. intros idx Hidx. unfold expected_shape in Hidx.
  apply in_range_app_inv in Hidx. rewrite length_map in Hidx.
  destruct Hidx as (H1 & H2).
  rewrite Hl, firstn_add.
  replace (skipn (length (g_cores st) + k) idx)
    with (skipn k (skipn (length (g_cores st)) idx))
    by (rewrite skipn_skipn; f_equal; lia).
  apply He; [|exact H1|exact H2].
  apply in_range_length in H1. rewrite length_map in H1. exact H1.
Qed.

(** ** The passes of the loop of [__getitem__] *)

Lemma repeat_snoc (A : Type) (a : A) (n : nat) :
  repeat a n ++ [a] = repeat a (n + 1).
Proof. rewrite repeat_app. reflexivity. Qed.

Lemma tt_chain_one (K : tensor) (w s r : nat) :
  tshape K = [w; s; r] -> r <> 0 -> tt_chain w [K] r.
Proof.
  intros E Hr. cbn [tt_chain]. unfold tdim, sh. rewrite E. cbn [length nth].
  repeat split. exact Hr.
Qed.

Lemma in_range_cons_inv (n : nat) (s tail : list nat) :
  in_range (n :: s) tail = true ->
  hd 0 tail < n /\ in_range s (tl tail) = true
  /\ tail = hd 0 tail :: tl tail.
Proof.
  intros H. destruct tail as [|p tl]; [discriminate H|].
  cbn [in_range] in H. apply andb_true_iff in H. destruct H as (Hp & H).
  apply Nat.ltb_lt in Hp. repeat split; assumption.
Qed.


(** ** The key: [_process_key] and the reference *)

Lemma key_count (key : list key_item) :
  length key
  = length (filter takes_axis key) + length (filter is_none key)
    + length (filter is_ellipsis key).
Proof.
  induction key as [|k key IH]; [reflexivity|].
  destruct k; cbn [filter takes_axis is_none is_ellipsis negb orb length];
    lia.
Qed.

Lemma filter_none_existsb (A : Type) (f : A -> bool) (l : list A) :
  length (filter f l) = 0 -> existsb f l = false.
Proof.
  induction l as [|a l IH]; [reflexivity|]. cbn [filter existsb].
  destruct (f a); [discriminate|]. exact IH.
Qed.

Lemma expand_no_ellipsis (key : list key_item) (fill : nat) :
  length (filter is_ellipsis key) = 0 -> expand_ellipsis key fill = key.
Proof.
  induction key as [|k key IH]; [reflexivity|]. intros H.
  destruct k; cbn [filter is_ellipsis length] in H; try discriminate H;
    cbn [expand_ellipsis]; rewrite (IH H); reflexivity.
Qed.

Lemma existsb_repeat_slice (n : nat) :
  existsb is_ellipsis (repeat full_slice n) = false.
Proof. induction n as [|n IH]; [reflexivity|exact IH]. Qed.

Lemma expand_one_ellipsis (key : list key_item) (fill : nat) :
  length (filter is_ellipsis key) = 1 ->
  existsb is_ellipsis (expand_ellipsis key fill) = false
  /\ length (expand_ellipsis key fill) + 1 = length key + fill.
Proof.
  induction key as [|k key IH]; [discriminate|]. intros H.
  destruct k; cbn [filter is_ellipsis length] in H;
    cbn [expand_ellipsis existsb is_ellipsis orb length];
    try (destruct (IH H) as (I1 & I2); split; [exact I1|lia]).
  injection H as H. rewrite existsb_app, existsb_repeat_slice.
  rewrite (filter_none_existsb _ _ H), length_app, repeat_length.
  split; [reflexivity|lia].
Qed.

(** [_process_key] fills the key as NumPy does. *)
Lemma process_key_expand (t : Tensor) (key key' : list key_item) :
  np_expand (dim t) key = Ok key' -> _process_key t key = Ok key'.
Proof.
  unfold np_expand, _process_key. intros H.
  pose proof (key_count key) as Hcnt.
  set (used := length (filter takes_axis key)) in *.
  set (nn := length (filter is_none key)) in *.
  destruct (dim t <? used) eqn:Hlt; [discriminate H|].
  apply Nat.ltb_ge in Hlt.
  destruct (length (filter is_ellipsis key)) as [|[|m]] eqn:He;
    [| |discriminate H].
  - rewrite (expand_no_ellipsis _ _ He).
    rewrite (filter_none_existsb _ _ He).
    replace (Z.of_nat (dim t) - (Z.of_nat (length key) - Z.of_nat nn))%Z
      with (Z.of_nat (dim t - used)) by lia.
    replace (Z.of_nat (dim t - used) <? 0)%Z with false
      by (symmetry; apply Z.ltb_ge; lia).
    rewrite Nat2Z.id. exact H.
  - replace (Z.to_nat (Z.of_nat (dim t)
                       - (Z.of_nat (length key) - Z.of_nat nn) + 1))
      with (dim t - used) by lia.
    destruct (expand_one_ellipsis key (dim t - used) He) as (E1 & E2).
    rewrite E1.
    replace (Z.of_nat (dim t)
             - (Z.of_nat (length (expand_ellipsis key (dim t - used)))
                - Z.of_nat nn))%Z with 0%Z by lia.
    cbn [Z.ltb Z.compare Z.to_nat repeat]. rewrite app_nil_r. exact H.
Qed.

Lemma positive_steps_cons (k : key_item) (key : list key_item) :
  positive_steps (k :: key) = true ->
  positive_steps [k] = true /\ positive_steps key = true.
Proof.
  unfold positive_steps. cbn [forallb]. intros H.
  apply andb_true_iff in H. destruct H as (H1 & H2).
  rewrite H1. split; [reflexivity|exact H2].
Qed.

Lemma positive_steps_app (k1 k2 : list key_item) :
  positive_steps (k1 ++ k2) = positive_steps k1 && positive_steps k2.
Proof. apply forallb_app. Qed.

Lemma positive_steps_repeat (n : nat) :
  positive_steps (repeat full_slice n) = true.
Proof. induction n as [|n IH]; [reflexivity|exact IH]. Qed.

Lemma positive_steps_expand (key : list key_item) (fill : nat) :
  positive_steps key = true ->
  positive_steps (expand_ellipsis key fill) = true.
Proof.
  induction key as [|k key IH]; [reflexivity|]. intros H.
  unfold positive_steps in H. cbn [forallb] in H.
  apply andb_true_iff in H. destruct H as (H1 & H2).
  destruct k; cbn [expand_ellipsis];
    try (rewrite positive_steps_app, positive_steps_repeat; exact H2);
    unfold positive_steps; cbn [forallb]; apply andb_true_iff;
    (split; [exact H1|apply IH, H2]).
Qed.

Lemma positive_steps_np_expand (n : nat) (key key' : list key_item) :
  np_expand n key = Ok key' -> positive_steps key = true ->
  positive_steps key' = true.
Proof.
  unfold np_expand. intros H Hp.
  destruct (n <? length (filter takes_axis key)); [discriminate H|].
  destruct (length (filter is_ellipsis key)) as [|[|m]];
    [| |discriminate H]; inversion H.
  - rewrite positive_steps_app, Hp, positive_steps_repeat. reflexivity.
  - apply positive_steps_expand, Hp.
Qed.

(** The positions the reference reads are positions of the array. *)
Lemma source_in_range (key : list key_item) :
  forall sp sels p idx,
    np_resolve sp key = Ok sels -> positive_steps key = true ->
    match p with
    | Some q =>
        forallb (fun n => q <? n) (arr_lengths sels) = true
        /\ in_range (shape_inplace sels true) idx = true
    | None =>
        forallb (fun n => n =? arr_length sels) (arr_lengths sels) = true
        /\ in_range (shape_inplace sels false) idx = true
    end ->
    in_range sp (source sels p idx) = true.
Proof.
  induction key as [|k key IH]; intros sp sels p idx Hres Hpos Hp.
  - cbn [np_resolve] in Hres. destruct sp; [|discriminate Hres].
    inversion Hres. reflexivity.
  - destruct (positive_steps_cons _ _ Hpos) as (Hp1 & Hp2).
    destruct (np_resolve_cons _ _ _ Hres)
      as [(-> & r & Hr & ->) | (s & sp'' & x & r & -> & Hx & Hr & ->)].
    + (* None *)
      cbn [source]. apply (IH _ _ _ _ Hr Hp2).
      destruct p as [q|]; destruct Hp as (Hl & Hi);
        cbn [shape_inplace] in Hi;
        destruct (@in_range_cons_inv _ _ _ Hi) as (_ & Hi' & _);
        (split; [exact Hl|exact Hi']).
    + pose proof (@np_torch_select _ _ _ Hx Hp1) as Hts.
      destruct x as [n|pos|pos|].
      * (* an integer *)
        cbn [source in_range].
        assert (Hn : n < s).
        { destruct k; cbn [np_select] in Hx; try discriminate Hx.
          - bind_inv Hx. inversion Hx. subst x.
            apply (norm_index_lt _ _ E).
          - destruct (step_of step =? 0)%Z; discriminate Hx.
          - bind_inv Hx. discriminate Hx. }
        replace (n <? s) with true by (symmetry; apply Nat.ltb_lt; exact Hn).
        cbn [andb]. apply (IH _ _ _ _ Hr Hp2). exact Hp.
      * (* a slice *)
        assert (Hall : Forall (fun n => n < s) pos).
        { destruct k; cbn [np_select] in Hx; try discriminate Hx.
          - bind_inv Hx. discriminate Hx.
          - destruct (step_of step =? 0)%Z; [discriminate Hx|].
            inversion Hx. apply slice_positions_lt.
            unfold positive_steps in Hp1. cbn [forallb] in Hp1.
            rewrite andb_true_r in Hp1. apply Z.ltb_lt. exact Hp1.
          - bind_inv Hx. discriminate Hx. }
        cbn [source in_range].
        assert (Hhd : hd 0 idx < length pos /\
                      match p with
                      | Some q =>
                          forallb (fun n => q <? n) (arr_lengths r) = true
                          /\ in_range (shape_inplace r true) (tl idx) = true
                      | None =>
                          forallb (fun n => n =? arr_length r)
                            (arr_lengths r) = true
                          /\ in_range (shape_inplace r false) (tl idx) = true
                      end).
        { destruct p as [q|]; destruct Hp as (Hl & Hi);
            cbn [shape_inplace] in Hi;
            destruct (@in_range_cons_inv _ _ _ Hi) as (Hb & Hi' & _);
            (split; [exact Hb|]); split; assumption. }
        destruct Hhd as (Hb & Hp').
        replace (nth (hd 0 idx) pos 0 <? s) with true.
        -- cbn [andb]. apply (IH _ _ _ _ Hr Hp2). exact Hp'.
        -- symmetry. apply Nat.ltb_lt.
           apply (proj1 (Forall_nth _ pos) Hall). exact Hb.
      * (* an index array *)
        assert (Hall : Forall (fun n => n < s) pos).
        { destruct k; cbn [np_select] in Hx; try discriminate Hx.
          - bind_inv Hx. discriminate Hx.
          - destruct (step_of step =? 0)%Z; discriminate Hx.
          - bind_inv Hx. inversion Hx. subst x.
            apply (mapM_norm_index _ _ E). }
        destruct p as [q|]; destruct Hp as (Hl & Hi).
        -- cbn [arr_lengths flat_map app forallb] in Hl.
           apply andb_true_iff in Hl. destruct Hl as (Hq & Hl).
           apply Nat.ltb_lt in Hq.
           cbn [source in_range shape_inplace] in *.
           replace (nth q pos 0 <? s) with true
             by (symmetry; apply Nat.ltb_lt;
                 apply (proj1 (Forall_nth _ pos) Hall); exact Hq).
           cbn [andb]. apply (IH _ _ (Some q) _ Hr Hp2).
           split; assumption.
        -- cbn [shape_inplace] in Hi.
           destruct (@in_range_cons_inv _ _ _ Hi) as (Hb & Hi' & _).
           cbn [arr_lengths flat_map app forallb arr_length hd] in Hl.
           apply andb_true_iff in Hl. destruct Hl as (_ & Hl).
           cbn [source in_range].
           replace (nth (hd 0 idx) pos 0 <? s) with true
             by (symmetry; apply Nat.ltb_lt;
                 apply (proj1 (Forall_nth _ pos) Hall); exact Hb).
           cbn [andb]. apply (IH _ _ (Some (hd 0 idx)) _ Hr Hp2).
           split; [|exact Hi'].
           apply forallb_forall. intros n Hn.
           rewrite forallb_forall in Hl. apply Hl in Hn.
           apply Nat.eqb_eq in Hn. subst n. apply Nat.ltb_lt. exact Hb.
      * destruct (np_select_inv _ _ Hx) as (_ & Hn). congruence.
Qed.

(** When only integers come before the first index array, the axis of the
    index arrays is the first one of the result wherever it is placed. *)
Lemma integers_first_layout (sels : list sel) :
  integers_first sels = true ->
  shape_inplace sels false = arr_length sels :: shape_inplace sels true
  /\ forall idx,
       source sels None idx = source sels (Some (hd 0 idx)) (tl idx).
Proof.
  induction sels as [|x sels IH]; [discriminate|]. intros H.
  destruct x as [n|pos|pos|]; cbn [integers_first] in H;
    try discriminate H.
  - destruct (IH H) as (I1 & I2). cbn [shape_inplace source].
    unfold arr_length in *. cbn [arr_lengths flat_map app] in *.
    split; [exact I1|]. intros idx. rewrite I2. reflexivity.
  - cbn [shape_inplace source]. split; [reflexivity|]. reflexivity.
Qed.

(** ** The end of [__getitem__] *)

Lemma set_last_snoc (A : Type) (l : list A) (x y : A) :
  set_last (l ++ [x]) y = Ok (l ++ [y]).
Proof.
  unfold set_last. destruct (l ++ [x]) eqn:E.
  - destruct l; discriminate.
  - rewrite <- E. rewrite length_app. cbn [length]. rewrite Nat.add_sub.
    apply set_item_app_mid.
Qed.

Lemma tdim3_shape (c : tensor) :
  tdim c = 3 -> tshape c = [sh c 0; mid c; sh c 2].
Proof.
  unfold tdim, sh, mid, shr, tdim.
  destruct (tshape c) as [|x [|y [|z [|? ?]]]]; intros D; try discriminate D.
  reflexivity.
Qed.

(** A chain of TT cores from rank 1 to rank 1 is a network, and [torch()]
    multiplies its cores out. *)
Lemma cores_torch (H : list tensor) :
  H <> [] -> tt_chain 1 H 1 ->
  exists u,
    Tensor_of_cores H (Some (repeat None (length H))) = Ok u
    /\ torch u = Ok (build (map mid H) (fun idx => tt_vec H idx v1 0)).
Proof.
  intros Hne Hch.
  destruct (@tt_chain_chain false _ _ _ Hch) as (C1 & _ & _).
  destruct (@chain_dims_ranks false _ _ C1) as (D1 & D2).
  exists (mkTensor H (repeat None (length H))).
  unfold Tensor_of_cores. rewrite D1, D2. cbn [negb].
  rewrite check_factors_none. cbn [bind]. split; [reflexivity|].
  rewrite (@tt_torch (mkTensor H (repeat None (length H))) 1).
  - cbn [cores]. unfold build. do 2 f_equal. apply tab_ext.
    intros idx _. apply rsum_one.
  - exact Hne.
  - reflexivity.
  - cbn [cores]. destruct H as [|c cs]; [congruence|]. cbn [hd].
    destruct Hch as (D & H0 & Hr & Hch). rewrite H0.
    repeat split; assumption.
Qed.

(** The state after the last pass, when no factor is pending. *)
Lemma finish_plain (rk : nat -> nat) (c : nat) (st : getitem_state) :
  rk c = 1 -> state_ok rk c st ->
  f_int st = None -> f_index st = None -> g_cores st <> [] ->
  exists u,
    Tensor_of_cores (g_cores st) (Some (g_Us st)) = Ok u
    /\ torch u = Ok (expected [] st [])
    /\ expected_shape st [] <> [].
Proof.
  intros Hrk (W & Hch & HU & _ & _ & Hp) HF HX Hne.
  rewrite HF, HX in Hp. subst W. rewrite Hrk in Hch.
  destruct (cores_torch Hne Hch) as (u & U1 & U2).
  exists u. rewrite HU. split; [exact U1|].
  unfold expected, expected_shape, tail_shape. rewrite HX.
  cbn [shape_inplace]. rewrite app_nil_r. split.
  - rewrite U2. unfold build. do 2 f_equal. apply tab_ext.
    intros idx Hidx. apply in_range_length in Hidx.
    rewrite length_map in Hidx.
    unfold expect, pend_apply. rewrite HX, HF. cbn [source tt_vec].
    rewrite firstn_all2 by lia. reflexivity.
  - destruct (g_cores st); [congruence|discriminate].
Qed.

(** The state after the last pass, when the last entries of the key were
    integers. *)
Lemma finish_int (rk : nat -> nat) (c : nat) (st : getitem_state)
  (F : tensor) :
  rk c = 1 -> state_ok rk c st ->
  f_int st = Some F -> f_index st = None -> last_mode st = Some MInt ->
  exists it,
    finish st = Ok it
    /\ decompress it = Ok (expected [] st [])
    /\ (expected_shape st [] = [] -> exists x, it = Number x).
Proof.
  intros Hrk (W & Hch & HU & _ & _ & Hp) HF HX Hm.
  rewrite HF, HX in Hp. destruct Hp as (EF & WF). rewrite Hrk in EF.
  unfold finish. rewrite Hm, HF.
  destruct (g_cores st) as [|g0 gs0] eqn:EH.
  - (* every axis was taken by an integer *)
    cbn in Hch. subst W. cbn [length Nat.ltb Nat.leb].
    rewrite EF. cbn [numel fold_right Nat.mul Nat.ltb Nat.leb].
    eexists. split; [reflexivity|]. split; [|intros _; eexists; reflexivity].
    cbn [decompress]. f_equal.
    unfold expected, expected_shape, tail_shape. rewrite HX, EH.
    cbn [map app shape_inplace length firstn skipn]. unfold build.
    cbn [tab]. unfold squeeze_all. f_equal.
    unfold expect, pend_apply. rewrite HX, HF, EH.
    cbn [source tt_vec]. unfold sh. rewrite EF. cbn [nth].
    rewrite vm_one by reflexivity. unfold mat2, get. rewrite EF.
    cbn [ravel numel fold_right Nat.mul Nat.add].
    unfold wf in WF. rewrite EF in WF. cbn in WF.
    destruct (tdata F) as [|x [|? ?]]; try discriminate WF. reflexivity.
  - (* the integers go into the last core *)
    assert (Hne : g0 :: gs0 <> []) by discriminate.
    destruct (exists_last Hne) as (H0 & cl & EH').
    rewrite EH' in *. clear Hne.
    cbn [length]. replace (0 <? length (H0 ++ [cl])) with true
      by (symmetry; apply Nat.ltb_lt; rewrite length_app; cbn; lia).
    rewrite get_last_snoc. cbn [bind].
    destruct (@tt_chain_app_inv _ _ _ _ Hch) as (w1 & Hch0 & D & E0 & Hr & E2).
    cbn in E2.
    pose proof (@tdim3_shape _ D) as Ecl. rewrite E0, E2 in Ecl.
    destruct (@absorb_3_2 _ _ _ _ _ _ Ecl EF) as (K & A1 & A2 & A3).
    rewrite A1. cbn [bind]. rewrite set_last_snoc. cbn [bind].
    assert (Hch' : tt_chain 1 (H0 ++ [K]) 1).
    { apply (@tt_chain_app _ _ _ _ _ Hch0). cbn [tt_chain].
      unfold tdim, sh. rewrite A2. cbn [length nth]. repeat split. lia. }
    assert (Hne' : H0 ++ [K] <> [])
      by (intros E; apply app_eq_nil in E; destruct E; discriminate).
    destruct (cores_torch Hne' Hch') as (u & U1 & U2).
    replace (g_Us st)
      with (repeat (@None tensor) (length (H0 ++ [K])))
      by (rewrite HU, !length_app; reflexivity).
    rewrite U1. cbn [bind].
    exists (Network u). split; [reflexivity|]. split.
    + cbn [decompress]. rewrite U2.
      assert (Emid : map mid (H0 ++ [K]) = map mid (H0 ++ [cl])).
      { rewrite !map_app. cbn [map]. do 2 f_equal.
        unfold mid, shr, tdim. rewrite A2, Ecl. reflexivity. }
      unfold expected, expected_shape, tail_shape. rewrite HX, EH, Emid.
      cbn [shape_inplace]. rewrite app_nil_r.
      unfold build. do 2 f_equal. apply tab_ext. intros idx Hidx.
      pose proof (in_range_length _ _ Hidx) as Hl.
      rewrite length_map in Hl.
      rewrite firstn_all2 by lia.
      unfold expect, pend_apply. rewrite HX, HF, EH.
      cbn [source tt_vec].
      rewrite map_app in Hidx. apply in_range_app_inv in Hidx.
      rewrite length_map in Hidx. destruct Hidx as (Hi0 & Hi1).
      cbn [map] in Hi1.
      destruct (@in_range_cons_inv _ _ _ Hi1) as (Hb & Hnil & Et).
      destruct (tl (skipn (length H0) idx)) eqn:Etl;
        [|discriminate Hnil].
      rewrite <- (firstn_skipn (length H0) idx), Et.
      pose proof (in_range_length _ _ Hi0) as Hl0.
      rewrite length_map in Hl0.
      rewrite !tt_vec_app by exact Hl0. cbn [tt_vec].
      unfold sh. rewrite A2, Ecl, EF. cbn [nth].
      apply A3; [exact Hb|lia].
    + unfold expected_shape. rewrite EH. intros E.
      apply app_eq_nil in E. destruct E as (E & _).
      rewrite map_app in E. apply app_eq_nil in E. destruct E as (_ & E).
      discriminate E.
Qed.

Section Steps.

Variable t : Tensor.
Variable sp : list nat.
Variable rk : nat -> nat.
Hypothesis Hnet : tt_network t sp rk.
Hypothesis Hsp : sp <> [].

Let G := cores t.
Let N := length sp.

(** The core that the pending factors make. *)
Lemma pending_core (c : nat) (st : getitem_state) (X : tensor) :
  state_ok rk c st -> f_index st = Some X ->
  exists W K,
    tt_chain 1 (g_cores st) W
    /\ match f_int st with
       | Some F => join_cores F X
       | None => Ok X
       end = Ok K
    /\ tshape K = [W; shr X 2; rk c]
    /\ forall u q j, q < shr X 2 -> j < rk c ->
         vm W u (mat3 K q) j = pend_apply st q u j.
Proof.
  intros (W & Hch & _ & _ & _ & Hp) HX. rewrite HX in Hp.
  unfold pend_apply. rewrite HX.
  destruct (f_int st) as [F|].
  - destruct Hp as (a & EF & EX).
    destruct (@join_2_3 _ _ _ _ _ _ EF EX) as (K & J1 & J2 & J3).
    exists W, K. split; [exact Hch|]. split; [exact J1|].
    split; [exact J2|]. intros u q j Hq Hj. unfold sh. rewrite EF, EX.
    cbn [nth]. apply J3; assumption.
  - exists W, X. split; [exact Hch|]. split; [reflexivity|].
    split; [exact Hp|]. intros u q j Hq Hj. unfold sh. rewrite Hp.
    reflexivity.
Qed.

Lemma flush_ok (c : nat) (st : getitem_state) (rest : list sel)
  (X : tensor) :
  c <= N -> state_ok rk c st -> f_index st = Some X ->
  none_of (map is_arr rest) = true ->
  (forall p idx, length (source rest p idx) = length (skipn c G)) ->
  exists st1,
    flush_index st = Ok st1
    /\ f_int st1 = None /\ f_index st1 = None /\ index_done st1 = true
    /\ last_mode st1 = last_mode st /\ g_cores st1 <> []
    /\ state_ok rk c st1
    /\ expected (skipn c G) st1 rest = expected (skipn c G) st rest.
Proof.
  intros Hc Hst HX Hno Hlen.
  destruct (@pending_core _ _ _ Hst HX) as (W & K & Hch & HK & EK & Hsem).
  pose proof Hst as (W0 & _ & HU & Hcnt & _ & _).
  assert (Hrk : rk c <> 0) by (destruct Hnet as (_ & _ & Hr & _); apply Hr).
  unfold flush_index. rewrite HX, HK. cbn [bind].
  eexists. split; [reflexivity|]. cbn [f_int f_index index_done last_mode
    g_cores]. split; [reflexivity|]. split; [reflexivity|].
  split; [reflexivity|]. split; [reflexivity|].
  split; [intros E; apply app_eq_nil in E; destruct E; discriminate|].
  split.
  - exists (rk c). cbn [f_int f_index index_done g_cores g_Us counter].
    split; [apply (@tt_chain_app _ _ _ _ _ Hch), (@tt_chain_one _ _ _ _ EK Hrk)|].
    split; [rewrite HU, length_app; apply repeat_snoc|].
    split; [exact Hcnt|]. split; reflexivity.
  - apply (@expected_eq _ _ st _ rest rest 1).
    + cbn [g_cores]. apply length_app.
    + unfold expected_shape, tail_shape. cbn [g_cores f_index].
      rewrite HX, map_app, <- app_assoc. cbn [map app]. f_equal. f_equal.
      * unfold mid, shr, tdim. rewrite EK. reflexivity.
      * symmetry. apply no_arr_shape. exact Hno.
    + intros idxH tail Hl HiH Htail. unfold tail_shape in Htail.
      rewrite HX in Htail.
      destruct (@in_range_cons_inv _ _ _ Htail) as (Hp & _ & Et).
      set (p := hd 0 tail) in *. rewrite Et. cbn [firstn skipn].
      unfold expect. cbn [f_index g_cores hd tl]. rewrite HX.
      rewrite (@no_arr_source rest (Some p) (tl tail) Hno).
      apply (@tt_vec_ext _ (rk c) 1);
        [apply (@net_chain t sp rk Hnet c Hc) | apply Hlen | | lia].
      intros i Hi. unfold pend_apply at 1. cbn [f_int f_index].
      rewrite tt_vec_app by exact Hl. cbn [tt_vec].
      unfold sh at 1. rewrite EK. cbn [nth]. apply Hsem; assumption.
Qed.


(** The second half of [insert_core] on a TT core without Tucker factor. *)
Lemma append_core_ok (c : nat) (st : getitem_state) (c0 K0 : tensor)
  (k0 : key_item) (s' r' : nat) :
  state_ok rk c st -> f_index st = None ->
  index_mid c0 k0 = Ok K0 -> tshape K0 = [rk c; s'; r'] ->
  exists W K,
    append_core st c0 k0 None
    = Ok (mkState None None (index_done st) (g_cores st ++ [K])
            (g_Us st ++ [None]) (counter st) (last_mode st))
    /\ tt_chain 1 (g_cores st) W
    /\ tshape K = [W; s'; r']
    /\ forall u b j, b < s' -> j < r' ->
         vm W u (mat3 K b) j
         = vm (rk c) (pend_apply st 0 u) (mat3 K0 b) j.
Proof.
  intros (W & Hch & _ & _ & _ & Hp) HX HK0 EK0. rewrite HX in Hp.
  unfold append_core, pend_apply. rewrite HX.
  destruct (f_int st) as [F|].
  - destruct Hp as (EF & _).
    destruct (@join_2_3 _ _ _ _ _ _ EF EK0) as (K & J1 & J2 & J3).
    rewrite HK0. cbn [bind]. rewrite J1. cbn [bind].
    exists W, K. split; [reflexivity|]. split; [exact Hch|].
    split; [exact J2|]. intros u b j Hb Hj. unfold sh. rewrite EF.
    cbn [nth]. apply J3; assumption.
  - subst W. rewrite HK0. cbn [bind].
    exists (rk c), K0. split; [reflexivity|]. split; [exact Hch|].
    split; [exact EK0|]. reflexivity.
Qed.

Lemma arr_lengths_cons (x : sel) (rest : list sel) :
  is_arr x = false -> arr_lengths (x :: rest) = arr_lengths rest.
Proof. intros H. destruct x; try reflexivity. discriminate H. Qed.

(** [insert_core] with a core: the pending index factor becomes a core
    first. *)
Lemma insert_ok (c : nat) (st : getitem_state) (x : sel) (rest : list sel)
  (c0 K0 : tensor) (k0 : key_item) (s' r' : nat) :
  c <= N -> state_ok rk c st -> mode_ok st ->
  arrs_ok st (x :: rest) = true -> lens_ok st (x :: rest) = true ->
  is_arr x = false ->
  (forall p idx, length (source (x :: rest) p idx) = length (skipn c G)) ->
  index_mid c0 k0 = Ok K0 -> tshape K0 = [rk c; s'; r'] ->
  exists st1 W K,
    insert_core st (Some (c0, k0, None))
    = Ok (mkState None None (index_done st1) (g_cores st1 ++ [K])
            (g_Us st1 ++ [None]) c (last_mode st))
    /\ state_ok rk c st1 /\ f_index st1 = None
    /\ tt_chain 1 (g_cores st1) W
    /\ tshape K = [W; s'; r']
    /\ (forall u b j, b < s' -> j < r' ->
          vm W u (mat3 K b) j
          = vm (rk c) (pend_apply st1 0 u) (mat3 K0 b) j)
    /\ expected (skipn c G) st1 (x :: rest)
       = expected (skipn c G) st (x :: rest)
    /\ (if index_done st1 then none_of (map is_arr rest)
        else one_run (map is_arr rest)) = true
    /\ forallb (fun n => n =? arr_length rest) (arr_lengths rest) = true.
Proof.
  intros Hc Hst Hm Harr Hlens Hx Hlen HK0 EK0.
  pose proof Hst as (W0 & _ & _ & Hcnt & Hdone & _).
  unfold insert_core.
  destruct (f_index st) as [X|] eqn:HX.
  - (* the index factor is pending *)
    assert (Hno : none_of (map is_arr (x :: rest)) = true).
    { unfold arrs_ok, pending in Harr. rewrite HX in Harr.
      destruct (index_done st); [exact Harr|].
      cbn [map run_then_none none_of] in *. rewrite Hx in *. exact Harr. }
    destruct (@flush_ok c st (x :: rest) X Hc Hst HX Hno Hlen)
      as (st1 & F1 & F2 & F3 & F4 & F5 & F6 & F7 & F8).
    rewrite F1. cbn [bind].
    destruct (@append_core_ok c st1 c0 K0 k0 s' r' F7 F3 HK0 EK0)
      as (W & K & A1 & A2 & A3 & A4).
    rewrite A1. pose proof F7 as (_ & _ & _ & Hcnt1 & _).
    rewrite Hcnt1, F5.
    exists st1, W, K. split; [reflexivity|]. split; [exact F7|].
    split; [exact F3|]. split; [exact A2|]. split; [exact A3|].
    split; [exact A4|]. split; [exact F8|].
    cbn [map none_of] in Hno. rewrite Hx in Hno. cbn [negb andb] in Hno.
    rewrite F4. split; [exact Hno|].
    rewrite (@no_arr_lengths rest Hno). reflexivity.
  - (* nothing to flush *)
    unfold flush_index. rewrite HX. cbn [bind].
    destruct (@append_core_ok c st c0 K0 k0 s' r' Hst HX HK0 EK0)
      as (W & K & A1 & A2 & A3 & A4).
    rewrite A1, Hcnt.
    exists st, W, K. split; [reflexivity|]. split; [exact Hst|].
    split; [exact HX|]. split; [exact A2|]. split; [exact A3|].
    split; [exact A4|]. split; [reflexivity|].
    unfold arrs_ok, pending in Harr. rewrite HX in Harr.
    unfold lens_ok in Hlens. rewrite HX in Hlens.
    unfold arr_length in *. rewrite (@arr_lengths_cons x rest Hx) in Hlens.
    split; [|exact Hlens].
    destruct (index_done st); cbn [map none_of one_run] in Harr;
      rewrite Hx in Harr; exact Harr.
Qed.


Lemma skipn_lengths (c : nat) : length (skipn c G) = length (skipn c sp).
Proof.
  rewrite !length_skipn. pose proof (net_dim Hnet) as Hd. unfold dim in Hd.
  unfold G. rewrite Hd. reflexivity.
Qed.

Lemma src_len (c : nat) (krest : list key_item) (rest : list sel) :
  np_resolve (skipn c sp) krest = Ok rest ->
  forall p idx, length (source rest p idx) = length (skipn c G).
Proof.
  intros H p idx. rewrite skipn_lengths. apply (@source_length _ _ _ p idx H).
Qed.

Lemma skipn_nth_cons (l : list nat) :
  forall c, c < length l -> skipn c l = nth c l 0 :: skipn (S c) l.
Proof.
  induction l as [|s l IH]; intros c Hc; [simpl in Hc; lia|].
  destruct c as [|c]; [reflexivity|]. cbn [skipn nth]. apply IH.
  simpl in Hc. lia.
Qed.

Lemma skipn_sp (c : nat) :
  c < N -> skipn c sp = nth c sp 0 :: skipn (S c) sp.
Proof. apply skipn_nth_cons. Qed.

(** Flushing, whether or not an index factor is pending. *)
Lemma flush_any (c : nat) (st : getitem_state) (rest0 : list sel) :
  c <= N -> state_ok rk c st ->
  (f_index st <> None -> none_of (map is_arr rest0) = true) ->
  (forall p idx, length (source rest0 p idx) = length (skipn c G)) ->
  exists st1,
    flush_index st = Ok st1
    /\ state_ok rk c st1 /\ f_index st1 = None
    /\ last_mode st1 = last_mode st
    /\ expected (skipn c G) st1 rest0 = expected (skipn c G) st rest0
    /\ (f_index st <> None ->
        f_int st1 = None /\ index_done st1 = true /\ g_cores st1 <> [])
    /\ (f_index st = None -> st1 = st).
Proof.
  intros Hc Hst Hno Hlen.
  destruct (f_index st) as [X|] eqn:HX.
  - destruct (@flush_ok c st rest0 X Hc Hst HX (Hno ltac:(discriminate)) Hlen)
      as (st1 & F1 & F2 & F3 & F4 & F5 & F6 & F7 & F8).
    exists st1. repeat split; try assumption. intros E. discriminate E.
  - exists st. unfold flush_index. rewrite HX.
    split; [reflexivity|]. split; [exact Hst|]. split; [reflexivity|].
    split; [reflexivity|]. split; [reflexivity|].
    split; [intros E; congruence | reflexivity].
Qed.

(** *** [None] in the key *)

Lemma step_none (c : nat) (st : getitem_state) (rest : list sel)
  (krest : list key_item) :
  c <= N -> state_ok rk c st -> mode_ok st ->
  arrs_ok st (SNew :: rest) = true -> lens_ok st (SNew :: rest) = true ->
  np_resolve (skipn c sp) krest = Ok rest ->
  exists st',
    getitem_step t st KNone = Ok st'
    /\ state_ok rk c st' /\ mode_ok st'
    /\ arrs_ok st' rest = true /\ lens_ok st' rest = true
    /\ expected (skipn c G) st' rest = expected (skipn c G) st (SNew :: rest).
Proof.
  intros Hc Hst Hm Harr Hlens Hres.
  pose proof Hst as (W0 & _ & _ & Hcnt & _).
  assert (Hrk : forall k, rk k <> 0) by (destruct Hnet as (_ & _ & Hr & _); exact Hr).
  destruct (@net_ranks t sp rk Hnet c Hsp Hc) as (r & Hr1 & Hr2).
  destruct (eye_core_slice (rk c)) as (K0 & HK0 & EK0 & Heye).
  assert (Hlen : forall p idx,
             length (source (SNew :: rest) p idx) = length (skipn c G)).
  { intros p idx. cbn [source]. apply (src_len _ _ Hres). }
  destruct (@insert_ok c st SNew rest (eye_core (rk c)) K0 full_slice 1 (rk c)
              Hc Hst Hm Harr Hlens eq_refl Hlen HK0 EK0)
    as (st1 & W & K & I1 & I2 & I3 & I4 & I5 & I6 & I7 & I8 & I9).
  cbn [getitem_step]. rewrite Hr1. cbn [bind]. rewrite Hcnt, Hr2.
  cbn [bind]. rewrite I1. cbn [bind f_int f_index index_done g_cores g_Us
    counter].
  pose proof I2 as (_ & _ & HU1 & _).
  eexists. split; [reflexivity|]. split; [|split; [|split; [|split]]].
  - exists (rk c). cbn [f_int f_index index_done g_cores g_Us counter].
    split; [apply (@tt_chain_app _ _ _ _ _ I4), (@tt_chain_one _ _ _ _ I5 (Hrk c))|].
    split; [rewrite HU1, length_app; apply repeat_snoc|].
    repeat split.
  - cbn. repeat split. intros E. apply app_eq_nil in E. destruct E.
    discriminate.
  - unfold arrs_ok, pending. cbn [index_done f_index]. exact I8.
  - unfold lens_ok. cbn [f_index]. exact I9.
  - rewrite <- I7. apply (@expected_eq _ _ st1 _ (SNew :: rest) rest 1).
    + cbn [g_cores]. apply length_app.
    + unfold expected_shape, tail_shape. cbn [g_cores f_index].
      rewrite I3, map_app, <- app_assoc. cbn [map app shape_inplace].
      do 2 f_equal. unfold mid, shr, tdim. rewrite I5. reflexivity.
    + intros idxH tail Hl HiH Htail. unfold tail_shape in Htail.
      rewrite I3 in Htail. cbn [shape_inplace] in Htail.
      destruct (@in_range_cons_inv _ _ _ Htail) as (Hb & _ & Et).
      set (b := hd 0 tail) in *. rewrite Et. cbn [firstn skipn].
      unfold expect. cbn [f_index g_cores hd tl source]. rewrite I3.
      apply (@tt_vec_ext _ (rk c) 1);
        [apply (@net_chain t sp rk Hnet c Hc) | apply (src_len _ _ Hres)
        | | lia].
      intros i Hi. unfold pend_apply at 1. cbn [f_int f_index].
      rewrite tt_vec_app by exact Hl. cbn [tt_vec].
      unfold sh at 1. rewrite I5. cbn [nth].
      rewrite I6 by (try lia; exact Hi).
      assert (b = 0) by lia. subst b. rewrite H. apply Heye. exact Hi.
Qed.


(** *** A slice in the key *)

Lemma step_slice (c : nat) (st : getitem_state) (pos : list nat)
  (rest : list sel) (k : key_item) (krest : list key_item) :
  c < N -> state_ok rk c st -> mode_ok st ->
  arrs_ok st (STake pos :: rest) = true ->
  lens_ok st (STake pos :: rest) = true ->
  np_select (nth c sp 0) k = Ok (STake pos) -> positive_steps [k] = true ->
  np_resolve (skipn (S c) sp) krest = Ok rest ->
  exists st',
    getitem_step t st k = Ok st'
    /\ state_ok rk (S c) st' /\ mode_ok st'
    /\ arrs_ok st' rest = true /\ lens_ok st' rest = true
    /\ expected (skipn (S c) G) st' rest
       = expected (skipn c G) st (STake pos :: rest).
Proof.
  intros Hc Hst Hm Harr Hlens Hsel Hpos Hres.
  assert (Hc' : c <= N) by lia.
  pose proof Hst as (W0 & _ & _ & Hcnt & _).
  assert (Hrk : forall k, rk k <> 0) by (destruct Hnet as (_ & _ & Hr & _); exact Hr).
  pose proof (@net_core_shape t sp rk Hnet c Hc) as EG.
  pose proof (@np_torch_select _ _ _ Hsel Hpos) as Hts. cbn [as_torch] in Hts.
  pose proof (@index_mid3 _ _ _ _ _ _ EG Hts) as HK0.
  destruct (@take_mid3 _ _ _ _ pos EG) as (EK0 & Htake).
  assert (Hsk : skipn c G = nth c G tnil :: skipn (S c) G)
    by (apply (@net_skipn t sp rk Hnet c Hc)).
  assert (Hlen : forall p idx,
             length (source (STake pos :: rest) p idx) = length (skipn c G)).
  { intros p idx. cbn [source]. rewrite Hsk. cbn [length]. f_equal.
    apply (src_len _ _ Hres). }
  destruct (@insert_ok c st (STake pos) rest _ _ k (length pos) (rk (S c))
              Hc' Hst Hm Harr Hlens eq_refl Hlen HK0 EK0)
    as (st1 & W & K & I1 & I2 & I3 & I4 & I5 & I6 & I7 & I8 & I9).
  assert (Hstep : getitem_step t st k
                  = (c0 <- get_item (cores t) (counter st) ;;
                     u <- get_item (Us t) (counter st) ;;
                     st <- insert_core st (Some (c0, k, u)) ;;
                     Ok (mkState (f_int st) (f_index st) (index_done st)
                           (g_cores st) (g_Us st) (counter st + 1)
                           (Some MSlice)))).
  { destruct k; cbn [np_select] in Hsel; try discriminate Hsel;
      [bind_inv Hsel; discriminate Hsel | reflexivity
      | bind_inv Hsel; discriminate Hsel]. }
  rewrite Hstep, Hcnt.
  rewrite (@net_core t sp rk Hnet c Hc), (@net_factor t sp rk Hnet c Hc).
  cbn [bind]. rewrite I1.
  cbn [bind f_int f_index index_done g_cores g_Us counter].
  pose proof I2 as (_ & _ & HU1 & _).
  eexists. split; [reflexivity|]. split; [|split; [|split; [|split]]].
  - exists (rk (S c)). cbn [f_int f_index index_done g_cores g_Us counter].
    split; [apply (@tt_chain_app _ _ _ _ _ I4),
              (@tt_chain_one _ _ _ _ I5 (Hrk (S c)))|].
    split; [rewrite HU1, length_app; apply repeat_snoc|].
    split; [lia|]. repeat split.
  - cbn. repeat split. intros E. apply app_eq_nil in E. destruct E.
    discriminate.
  - unfold arrs_ok, pending. cbn [index_done f_index]. exact I8.
  - unfold lens_ok. cbn [f_index]. exact I9.
  - rewrite <- I7. apply (@expected_eq _ _ st1 _ (STake pos :: rest) rest 1).
    + cbn [g_cores]. apply length_app.
    + unfold expected_shape, tail_shape. cbn [g_cores f_index].
      rewrite I3, map_app, <- app_assoc. cbn [map app shape_inplace].
      do 2 f_equal. unfold mid, shr, tdim. rewrite I5. reflexivity.
    + intros idxH tail Hl HiH Htail. unfold tail_shape in Htail.
      rewrite I3 in Htail. cbn [shape_inplace] in Htail.
      destruct (@in_range_cons_inv _ _ _ Htail) as (Hb & _ & Et).
      set (b := hd 0 tail) in *. rewrite Et. cbn [firstn skipn].
      unfold expect. cbn [f_index g_cores hd tl source]. rewrite I3.
      rewrite Hsk. cbn [tt_vec].
      apply (@tt_vec_ext _ (rk (S c)) 1);
        [apply (@net_chain t sp rk Hnet (S c) Hc) | apply (src_len _ _ Hres)
        | | lia].
      intros i Hi. unfold pend_apply at 1. cbn [f_int f_index].
      rewrite tt_vec_app by exact Hl. cbn [tt_vec].
      unfold sh at 1. rewrite I5. cbn [nth].
      rewrite I6 by (try lia; exact Hi).
      unfold sh, G. rewrite EG. cbn [nth].
      apply vm_ext; [reflexivity|]. intros i' Hi'. unfold mat3.
      apply Htake; assumption.
Qed.


(** *** An index array in the key *)

Lemma get_key_ok (c : nat) (k : key_item) (x : nat + list nat) :
  c < N -> torch_select (nth c sp 0) k = Ok x ->
  get_key t c k = Ok (match x with
                      | inl n => select (nth c G tnil) 1 n
                      | inr pos => take (nth c G tnil) 1 pos
                      end).
Proof.
  intros Hc Hts. unfold get_key.
  rewrite (@net_core t sp rk Hnet c Hc), (@net_factor t sp rk Hnet c Hc).
  cbn [bind].
  apply (@index_mid3 _ _ _ _ _ _ (@net_core_shape t sp rk Hnet c Hc) Hts).
Qed.

Lemma step_index (c : nat) (st : getitem_state) (pos : list nat)
  (rest : list sel) (k : key_item) (krest : list key_item) :
  c < N -> state_ok rk c st ->
  arrs_ok st (SArr pos :: rest) = true ->
  lens_ok st (SArr pos :: rest) = true ->
  np_select (nth c sp 0) k = Ok (SArr pos) ->
  np_resolve (skipn (S c) sp) krest = Ok rest ->
  exists st',
    getitem_step t st k = Ok st'
    /\ state_ok rk (S c) st' /\ mode_ok st'
    /\ arrs_ok st' rest = true /\ lens_ok st' rest = true
    /\ expected (skipn (S c) G) st' rest
       = expected (skipn c G) st (SArr pos :: rest).
Proof.
  intros Hc Hst Harr Hlens Hsel Hres. unfold G in *.
  pose proof Hst as (W & Hch & HU & Hcnt & Hdone & Hp).
  assert (Hrk : forall k, rk k <> 0) by (destruct Hnet as (_ & _ & Hr & _); exact Hr).
  pose proof (@net_core_shape t sp rk Hnet c Hc) as EG.
  assert (Hk : exists l, k = KIndex l /\ length l = length pos).
  { destruct k; cbn [np_select] in Hsel; try discriminate Hsel.
    - bind_inv Hsel. discriminate Hsel.
    - destruct (step_of step =? 0)%Z; discriminate Hsel.
    - exists l. split; [reflexivity|]. bind_inv Hsel. inversion Hsel.
      subst x. symmetry. apply (mapM_norm_index _ _ E). }
  destruct Hk as (l & -> & Hll).
  pose proof (@np_torch_select _ _ _ Hsel eq_refl) as Hts.
  cbn [as_torch] in Hts.
  pose proof (@get_key_ok c _ _ Hc Hts) as Hgk. cbn beta iota in Hgk.
  unfold G in Hgk.
  destruct (@take_mid3 _ _ _ _ pos EG) as (EY & Htake).
  set (Y := take (nth c (cores t) tnil) 1 pos) in *.
  assert (Hsk : skipn c (cores t)
                = nth c (cores t) tnil :: skipn (S c) (cores t))
    by (apply (@net_skipn t sp rk Hnet c Hc)).
  assert (Hnd : index_done st = false).
  { unfold arrs_ok in Harr. destruct (index_done st); [|reflexivity].
    cbn in Harr. discriminate Harr. }
  assert (HY2 : shr Y 2 = length pos)
    by (unfold shr, tdim; rewrite EY; reflexivity).
  cbn [getitem_step]. rewrite Hnd, Hcnt.
  unfold arrs_ok, pending in Harr. rewrite Hnd in Harr.
  unfold lens_ok in Hlens.
  destruct (f_index st) as [X|] eqn:HX.
  - (* a further index array *)
    cbn [map is_arr run_then_none] in Harr.
    cbn [arr_lengths flat_map app forallb] in Hlens.
    apply andb_true_iff in Hlens. destruct Hlens as (HP & Hlens).
    apply Nat.eqb_eq in HP.
    cbn [key_length]. rewrite Hll, HP, Nat.eqb_refl. cbn [negb].
    rewrite Hgk. cbn [bind].
    assert (HX' : exists a, tshape X = [a; length pos; rk c]
                  /\ forall u p i, i < rk c ->
                       pend_apply st p u i
                       = vm a (match f_int st with
                               | Some F => vm (sh F 0) u (mat2 F)
                               | None => u
                               end) (mat3 X p) i).
    { unfold pend_apply. rewrite HX.
      destruct (f_int st) as [F|].
      - destruct Hp as (a & EF & EX). exists a. rewrite HP.
        split; [exact EX|]. intros u p i Hi. unfold sh at 1. rewrite EX.
        reflexivity.
      - exists W. rewrite HP. split; [exact Hp|]. intros u p i Hi.
        unfold sh. rewrite Hp. reflexivity. }
    destruct HX' as (a & EX & Hpend).
    destruct (@merge_index_3_3 _ _ _ _ _ _ EX EY) as (K & M1 & M2 & M3).
    rewrite M1. cbn [bind].
    assert (HK2 : shr K 2 = length pos)
      by (unfold shr, tdim; rewrite M2; reflexivity).
    eexists. split; [reflexivity|]. split; [|split; [|split; [|split]]].
    + exists W. cbn [f_int f_index index_done g_cores g_Us counter].
      split; [exact Hch|]. split; [exact HU|]. split; [lia|].
      split; [intros E; discriminate E|].
      rewrite HK2. destruct (f_int st) as [F|].
      * destruct Hp as (a' & EF & EX'). exists a'. split; [exact EF|].
        rewrite EX in EX'. inversion EX'. subst a'. exact M2.
      * rewrite EX in Hp. inversion Hp. subst a. exact M2.
    + cbn. discriminate.
    + unfold arrs_ok, pending. cbn [index_done f_index].
      exact Harr.
    + unfold lens_ok. cbn [f_index]. rewrite HK2, HP. exact Hlens.
    + apply (@expected_eq _ _ st _ (SArr pos :: rest) rest 0).
      * cbn [g_cores]. lia.
      * unfold expected_shape, tail_shape. cbn [g_cores f_index].
        rewrite HX, HK2, HP. reflexivity.
      * intros idxH tail Hl HiH Htail. unfold tail_shape in Htail.
        rewrite HX in Htail.
        destruct (@in_range_cons_inv _ _ _ Htail) as (Hb & _ & Et).
        rewrite <- HP in Hb. set (p := hd 0 tail) in *.
        cbn [firstn skipn]. rewrite app_nil_r.
        unfold expect. cbn [f_index g_cores]. rewrite HX, Hsk.
        cbn [source tt_vec]. fold p.
        apply (@tt_vec_ext _ (rk (S c)) 1);
          [apply (@net_chain t sp rk Hnet (S c) Hc)
          | apply (src_len _ _ Hres) | | lia].
        intros i Hi. unfold pend_apply at 1. cbn [f_int f_index].
        unfold sh at 1. rewrite M2. cbn [nth].
        rewrite M3 by assumption.
        unfold sh at 2. rewrite EG. cbn [nth].
        apply vm_ext.
        -- intros i' Hi'. symmetry.
           destruct (f_int st); apply Hpend; exact Hi'.
        -- intros i' Hi'. unfold mat3. apply Htake; assumption.
  - (* the first index array *)
    cbn [map is_arr one_run] in Harr.
    cbn [arr_lengths flat_map app forallb arr_length hd] in Hlens.
    apply andb_true_iff in Hlens. destruct Hlens as (_ & Hlens).
    rewrite Hgk. cbn [bind].
    eexists. split; [reflexivity|]. split; [|split; [|split; [|split]]].
    + exists W. cbn [f_int f_index index_done g_cores g_Us counter].
      split; [exact Hch|]. split; [exact HU|]. split; [lia|].
      split; [intros E; discriminate E|].
      fold Y. rewrite HY2. destruct (f_int st) as [F|].
      * destruct Hp as (EF & _). exists (rk c). split; [exact EF|exact EY].
      * subst W. exact EY.
    + cbn. discriminate.
    + unfold arrs_ok, pending. cbn [index_done f_index].
      exact Harr.
    + unfold lens_ok. cbn [f_index]. fold Y. rewrite HY2. exact Hlens.
    + apply (@expected_eq _ _ st _ (SArr pos :: rest) rest 0).
      * cbn [g_cores]. lia.
      * unfold expected_shape, tail_shape. cbn [g_cores f_index].
        rewrite HX. fold Y. rewrite HY2. reflexivity.
      * intros idxH tail Hl HiH Htail. unfold tail_shape in Htail.
        rewrite HX in Htail. cbn [shape_inplace] in Htail.
        destruct (@in_range_cons_inv _ _ _ Htail) as (Hb & _ & Et).
        set (p := hd 0 tail) in *.
        cbn [firstn skipn]. rewrite app_nil_r.
        unfold expect. cbn [f_index g_cores]. rewrite HX, Hsk.
        cbn [source tt_vec]. fold p.
        apply (@tt_vec_ext _ (rk (S c)) 1);
          [apply (@net_chain t sp rk Hnet (S c) Hc)
          | apply (src_len _ _ Hres) | | lia].
        intros i Hi. unfold pend_apply. cbn [f_int f_index]. rewrite HX.
        fold Y. unfold sh at 1. rewrite EY. cbn [nth].
        unfold sh at 2. rewrite EG. cbn [nth].
        apply vm_ext; [reflexivity|].
        intros i' Hi'. unfold mat3. apply Htake; assumption.
Qed.


(** *** An integer in the key *)

(** Before an integer and at the end of the key, a pending index factor
    becomes a core. *)
Lemma settle_ok (c : nat) (st : getitem_state) (rest0 : list sel) :
  c <= N -> state_ok rk c st -> mode_ok st ->
  arrs_ok st rest0 = true -> lens_ok st rest0 = true ->
  (f_index st <> None -> none_of (map is_arr rest0) = true) ->
  (forall p idx, length (source rest0 p idx) = length (skipn c G)) ->
  exists st1,
    match last_mode st with
    | Some MIndex => insert_core st None
    | _ => Ok st
    end = Ok st1
    /\ state_ok rk c st1 /\ f_index st1 = None
    /\ last_mode st1 = last_mode st
    /\ expected (skipn c G) st1 rest0 = expected (skipn c G) st rest0
    /\ (if index_done st1 then none_of (map is_arr rest0)
        else one_run (map is_arr rest0)) = true
    /\ forallb (fun n => n =? arr_length rest0) (arr_lengths rest0) = true
    /\ (last_mode st = Some MIndex -> f_int st1 = None /\ g_cores st1 <> [])
    /\ (last_mode st <> Some MIndex -> st1 = st).
Proof.
  intros Hc Hst Hm Harr Hlens Hno Hlen.
  destruct (@flush_any c st rest0 Hc Hst Hno Hlen)
    as (st1 & F1 & F2 & F3 & F4 & F5 & F6 & F7).
  assert (E : match last_mode st with
              | Some MIndex => insert_core st None
              | _ => Ok st
              end = flush_index st).
  { unfold mode_ok in Hm. unfold insert_core.
    destruct (last_mode st) as [[| | |]|];
      try (destruct Hm as (Hm & _); unfold flush_index; rewrite Hm;
           reflexivity).
    destruct (flush_index st); reflexivity. }
  rewrite E. exists st1. split; [exact F1|]. split; [exact F2|].
  split; [exact F3|]. split; [exact F4|]. split; [exact F5|].
  destruct (f_index st) as [X|] eqn:HX.
  - destruct (F6 ltac:(discriminate)) as (G1 & G2 & G3).
    pose proof (Hno ltac:(discriminate)) as Hno'.
    rewrite G2. split; [exact Hno'|].
    split; [rewrite (@no_arr_lengths rest0 Hno'); reflexivity|].
    split; [intros _; split; assumption|].
    intros Hl. exfalso. unfold mode_ok in Hm.
    destruct (last_mode st) as [[| | |]|]; try congruence;
      destruct Hm as (Hm & _); rewrite HX in Hm; discriminate Hm.
  - rewrite (F7 eq_refl). unfold arrs_ok, pending in Harr.
    rewrite HX in Harr. unfold lens_ok in Hlens. rewrite HX in Hlens.
    split; [exact Harr|]. split; [exact Hlens|].
    split; [|reflexivity]. intros Hl. exfalso. unfold mode_ok in Hm.
    rewrite Hl in Hm. apply Hm. exact HX.
Qed.

Lemma step_int (c : nat) (st : getitem_state) (n : nat)
  (rest : list sel) (k : key_item) (krest : list key_item) :
  c < N -> state_ok rk c st -> mode_ok st ->
  arrs_ok st (SInt n :: rest) = true ->
  lens_ok st (SInt n :: rest) = true ->
  np_select (nth c sp 0) k = Ok (SInt n) ->
  np_resolve (skipn (S c) sp) krest = Ok rest ->
  exists st',
    getitem_step t st k = Ok st'
    /\ state_ok rk (S c) st' /\ mode_ok st'
    /\ arrs_ok st' rest = true /\ lens_ok st' rest = true
    /\ expected (skipn (S c) G) st' rest
       = expected (skipn c G) st (SInt n :: rest).
Proof.
  intros Hc Hst Hm Harr Hlens Hsel Hres. unfold G in *.
  assert (Hc' : c <= N) by lia.
  assert (Hrk : forall k, rk k <> 0) by (destruct Hnet as (_ & _ & Hr & _); exact Hr).
  pose proof (@net_core_shape t sp rk Hnet c Hc) as EG.
  assert (Hk : exists i, k = KInt i).
  { destruct k; cbn [np_select] in Hsel; try discriminate Hsel.
    - exists i. reflexivity.
    - destruct (step_of step =? 0)%Z; discriminate Hsel.
    - bind_inv Hsel. discriminate Hsel. }
  destruct Hk as (i & ->).
  pose proof (@np_torch_select _ _ _ Hsel eq_refl) as Hts.
  cbn [as_torch] in Hts.
  pose proof (@get_key_ok c _ _ Hc Hts) as Hgk. cbn beta iota in Hgk.
  unfold G in Hgk.
  destruct (@select_mid3 _ _ _ _ n EG) as (ES & WS & Hsel3).
  set (S0 := select (nth c (cores t) tnil) 1 n) in *.
  assert (Hsk : skipn c (cores t)
                = nth c (cores t) tnil :: skipn (S c) (cores t))
    by (apply (@net_skipn t sp rk Hnet c Hc)).
  assert (Hlen : forall p idx,
             length (source (SInt n :: rest) p idx)
             = length (skipn c (cores t))).
  { intros p idx. cbn [source]. rewrite Hsk. cbn [length]. f_equal.
    apply (src_len _ _ Hres). }
  assert (Hno : f_index st <> None ->
                none_of (map is_arr (SInt n :: rest)) = true).
  { intros HX. pose proof Hst as (_ & _ & _ & _ & Hdone & _).
    unfold arrs_ok, pending in Harr.
    destruct (index_done st); [exact Harr|].
    destruct (f_index st); [|congruence]. exact Harr. }
  destruct (@settle_ok c st (SInt n :: rest) Hc' Hst Hm Harr Hlens Hno Hlen)
    as (st1 & S1 & S2 & S3 & S4 & S5 & S6 & S7 & S8 & S9).
  cbn [getitem_step]. rewrite S1. cbn [bind].
  pose proof S2 as (W & Hch & HU & Hcnt & _ & Hp). rewrite S3 in Hp.
  unfold G in S5. rewrite Hcnt, Hgk, S3. rewrite <- S5.
  cbn [map is_arr none_of one_run negb andb] in S6.
  unfold arr_length in S7. cbn [arr_lengths flat_map app] in S7.
  destruct (f_int st1) as [F|] eqn:HF.
  - (* a further integer *)
    destruct Hp as (EF & WF).
    cbn [bind].
    destruct (@merge_int_2_2 _ _ _ _ _ EF ES) as (K & M1 & M2 & M3 & M4).
    rewrite M1. cbn [bind].
    eexists. split; [reflexivity|]. split; [|split; [|split; [|split]]].
    + exists W. cbn [f_int f_index index_done g_cores g_Us counter].
      split; [exact Hch|]. split; [exact HU|]. split; [lia|].
      split; [reflexivity|]. split; assumption.
    + cbn. split; [reflexivity|discriminate].
    + unfold arrs_ok, pending. cbn [index_done f_index]. exact S6.
    + unfold lens_ok. cbn [f_index]. exact S7.
    + apply (@expected_eq _ _ st1 _ (SInt n :: rest) rest 0).
      * cbn [g_cores]. lia.
      * unfold expected_shape, tail_shape. cbn [g_cores f_index].
        rewrite S3. reflexivity.
      * intros idxH tail Hl HiH Htail.
        cbn [firstn skipn]. rewrite app_nil_r.
        unfold expect. cbn [f_index g_cores]. rewrite S3, Hsk.
        cbn [source tt_vec].
        apply (@tt_vec_ext _ (rk (S c)) 1);
          [apply (@net_chain t sp rk Hnet (S c) Hc)
          | apply (src_len _ _ Hres) | | lia].
        intros j Hj. unfold pend_apply. cbn [f_int f_index].
        rewrite S3, HF.
        unfold sh. rewrite M2, EF, EG. cbn [nth].
        rewrite M4 by exact Hj.
        apply vm_ext; [reflexivity|].
        intros i' Hi'. unfold mat2, mat3. apply Hsel3; assumption.
  - (* the first integer *)
    cbn [bind].
    eexists. split; [reflexivity|]. split; [|split; [|split; [|split]]].
    + exists W. cbn [f_int f_index index_done g_cores g_Us counter].
      split; [exact Hch|]. split; [exact HU|]. split; [lia|].
      split; [reflexivity|]. fold S0. rewrite Hp. split; assumption.
    + cbn. split; [reflexivity|discriminate].
    + unfold arrs_ok, pending. cbn [index_done f_index]. exact S6.
    + unfold lens_ok. cbn [f_index]. exact S7.
    + apply (@expected_eq _ _ st1 _ (SInt n :: rest) rest 0).
      * cbn [g_cores]. lia.
      * unfold expected_shape, tail_shape. cbn [g_cores f_index].
        rewrite S3. reflexivity.
      * intros idxH tail Hl HiH Htail.
        cbn [firstn skipn]. rewrite app_nil_r.
        unfold expect. cbn [f_index g_cores]. rewrite S3, Hsk.
        cbn [source tt_vec].
        apply (@tt_vec_ext _ (rk (S c)) 1);
          [apply (@net_chain t sp rk Hnet (S c) Hc)
          | apply (src_len _ _ Hres) | | lia].
        intros j Hj. unfold pend_apply. cbn [f_int f_index].
        rewrite S3, HF. fold S0.
        unfold sh. rewrite ES, EG. cbn [nth].
        apply vm_ext; [reflexivity|].
        intros i' Hi'. unfold mat2, mat3. apply Hsel3; assumption.
Qed.


(** *** After the loop *)

Lemma net_last_rank : rk N = 1.
Proof. destruct Hnet as (_ & _ & _ & _ & H). exact H. Qed.

Lemma net_size : 0 < N.
Proof. unfold N. destruct sp; [congruence|simpl; lia]. Qed.

Lemma skipn_all_cores : skipn N G = [].
Proof.
  apply skipn_all2. pose proof (net_dim Hnet) as Hd. unfold dim in Hd.
  unfold G, N. lia.
Qed.

Lemma finish_ok (st : getitem_state) :
  state_ok rk N st -> mode_ok st ->
  exists it,
    finish st = Ok it
    /\ decompress it = Ok (expected [] st [])
    /\ (expected_shape st [] = [] -> exists x, it = Number x).
Proof.
  intros Hst Hm. pose proof net_last_rank as Hrk.
  pose proof net_size as HN.
  unfold mode_ok in Hm. destruct (last_mode st) as [m|] eqn:Em.
  - destruct m.
    + (* the index factor is pending *)
      assert (Hlen : forall (p : option nat) (idx : list nat),
                 length (source [] p idx) = length (skipn N G))
        by (intros p idx; rewrite skipn_all_cores; reflexivity).
      destruct (@flush_any N st [] (le_n N) Hst (fun _ => eq_refl) Hlen)
        as (st1 & F1 & F2 & F3 & F4 & F5 & F6 & F7).
      destruct (F6 Hm) as (G1 & G2 & G3).
      destruct (@finish_plain rk N st1 Hrk F2 G1 F3 G3) as (u & U1 & U2 & U3).
      exists (Network u). unfold finish. rewrite Em. unfold insert_core.
      rewrite F1. cbn [bind]. rewrite U1. cbn [bind].
      split; [reflexivity|]. split.
      * cbn [decompress]. rewrite U2. f_equal.
        rewrite skipn_all_cores in F5. exact F5.
      * unfold expected_shape, tail_shape. intros E. exfalso.
        destruct (f_index st); [|congruence].
        apply app_eq_nil in E. destruct E as (_ & E). discriminate E.
    + destruct Hm as (HX & HF & Hne).
      destruct (@finish_plain rk N st Hrk Hst HF HX Hne) as (u & U1 & U2 & U3).
      exists (Network u). unfold finish. rewrite Em, U1. cbn [bind].
      split; [reflexivity|]. split; [exact U2|]. intros E. congruence.
    + destruct Hm as (HX & HF).
      destruct (f_int st) as [F|] eqn:EF; [|congruence].
      apply (@finish_int rk N st F Hrk Hst EF HX Em).
    + destruct Hm as (HX & HF & Hne).
      destruct (@finish_plain rk N st Hrk Hst HF HX Hne) as (u & U1 & U2 & U3).
      exists (Network u). unfold finish. rewrite Em, U1. cbn [bind].
      split; [reflexivity|]. split; [exact U2|]. intros E. congruence.
  - exfalso. destruct Hm as (_ & _ & H0).
    destruct Hst as (_ & _ & _ & Hc & _). lia.
Qed.

(** *** The loop over the key *)

Lemma loop_ok (krest : list key_item) :
  forall c st rest,
    c <= N -> state_ok rk c st -> mode_ok st ->
    arrs_ok st rest = true -> lens_ok st rest = true ->
    np_resolve (skipn c sp) krest = Ok rest ->
    positive_steps krest = true ->
    exists st',
      foldM (getitem_step t) krest st = Ok st'
      /\ state_ok rk N st' /\ mode_ok st'
      /\ expected [] st' [] = expected (skipn c G) st rest.
Proof.
  induction krest as [|k krest IH];
    intros c st rest Hc Hst Hm Harr Hlens Hres Hpos.
  - cbn [np_resolve] in Hres.
    destruct (skipn c sp) as [|s l] eqn:Es; [|discriminate Hres].
    inversion Hres. subst rest.
    assert (c = N).
    { apply (f_equal (@length _)) in Es. rewrite length_skipn in Es.
      cbn in Es. unfold N in *. lia. }
    subst c. exists st. cbn [foldM]. rewrite skipn_all_cores.
    repeat split; assumption.
  - destruct (positive_steps_cons _ _ Hpos) as (Hp1 & Hp2).
    destruct (np_resolve_cons _ _ _ Hres)
      as [(-> & r & Hr & ->) | (s & sp'' & x & r & Es & Hx & Hr & ->)].
    + destruct (@step_none c st r krest Hc Hst Hm Harr Hlens Hr)
        as (st1 & T1 & T2 & T3 & T4 & T5 & T6).
      destruct (IH c st1 r Hc T2 T3 T4 T5 Hr Hp2) as (st' & L1 & L2 & L3 & L4).
      exists st'. cbn [foldM]. rewrite T1. cbn [bind].
      split; [exact L1|]. split; [exact L2|]. split; [exact L3|].
      rewrite L4. exact T6.
    + assert (Hc' : c < N).
      { apply (f_equal (@length _)) in Es. rewrite length_skipn in Es.
        cbn in Es. unfold N. lia. }
      rewrite (skipn_sp Hc') in Es. inversion Es. subst s sp''.
      assert (Hstep : exists st1,
                 getitem_step t st k = Ok st1
                 /\ state_ok rk (S c) st1 /\ mode_ok st1
                 /\ arrs_ok st1 r = true /\ lens_ok st1 r = true
                 /\ expected (skipn (S c) G) st1 r
                    = expected (skipn c G) st (x :: r)).
      { destruct x as [n|pos|pos|].
        - apply (@step_int c st n r k krest Hc' Hst Hm Harr Hlens Hx Hr).
        - apply (@step_slice c st pos r k krest Hc' Hst Hm Harr Hlens Hx
                   Hp1 Hr).
        - apply (@step_index c st pos r k krest Hc' Hst Harr Hlens Hx Hr).
        - destruct (np_select_inv _ _ Hx) as (_ & Hn). congruence. }
      destruct Hstep as (st1 & T1 & T2 & T3 & T4 & T5 & T6).
      destruct (IH (S c) st1 r Hc' T2 T3 T4 T5 Hr Hp2)
        as (st' & L1 & L2 & L3 & L4).
      exists st'. cbn [foldM]. rewrite T1. cbn [bind].
      split; [exact L1|]. split; [exact L2|]. split; [exact L3|].
      rewrite L4. exact T6.
Qed.

(** *** The whole of [__getitem__] on a network of TT cores *)

Lemma net_mids : map mid G = sp.
Proof.
  pose proof (net_dim Hnet) as Hd. unfold dim in Hd.
  apply (nth_ext _ _ (mid tnil) 0).
  - rewrite length_map. exact Hd.
  - intros n Hn. rewrite length_map in Hn.
    rewrite (map_nth mid G tnil n). unfold mid, shr, tdim.
    unfold G. rewrite (@net_core_shape t sp rk Hnet n) by (unfold G in Hn; lia).
    reflexivity.
Qed.

Lemma net_torch :
  torch t = Ok (build sp (fun idx => tt_vec G idx v1 0)).
Proof.
  pose proof (net_dim Hnet) as Hd. unfold dim in Hd.
  pose proof net_size as HN. unfold N in HN.
  pose proof (@net_chain t sp rk Hnet 0 (Nat.le_0_l _)) as Hch.
  cbn [skipn] in Hch.
  rewrite (@tt_torch t 1).
  - fold G. rewrite net_mids. unfold build. do 2 f_equal.
    apply tab_ext. intros idx _. apply rsum_one.
  - intros E. rewrite E in Hd. simpl in Hd. lia.
  - destruct Hnet as (_ & HU & _). rewrite HU, Hd. reflexivity.
  - destruct (cores t) as [|c0 cs]; [simpl in Hd; lia|]. cbn [hd].
    destruct Hch as (D & H0 & Hr & Hch). rewrite H0.
    repeat split; assumption.
Qed.

Lemma all_ints_shape (sels : list sel) :
  forallb is_sint sels = true -> shape_inplace sels false = [].
Proof.
  induction sels as [|x sels IH]; [reflexivity|]. intros H.
  cbn [forallb] in H. apply andb_true_iff in H. destruct H as (Hx & H).
  destruct x; try discriminate Hx. cbn [shape_inplace]. apply IH, H.
Qed.

Lemma getitem_network (A : tensor) (key : list key_item)
  (sels : list sel) :
  torch t = Ok A ->
  np_sels sp key = Ok sels -> positive_steps key = true ->
  arrays_together sels = true ->
  existsb is_arr sels = false \/ np_adjacent key = true
  \/ integers_first sels = true ->
  exists it,
    __getitem__ t key = Ok it
    /\ decompress it = np_getitem A key
    /\ (forallb is_sint sels = true -> exists x, it = Number x).
Proof.
  intros HA Hsels Hpos Htog Hlay.
  assert (EsA : tshape A = sp)
    by (rewrite net_torch in HA; inversion HA; reflexivity).
  assert (HgA : forall idx, in_range sp idx = true ->
                            get A idx = tt_vec G idx v1 0)
    by (intros idx Hi; rewrite net_torch in HA; inversion HA;
        apply get_build, Hi).
  clear HA. pose proof Hsels as Hs. unfold np_sels in Hs.
  bind_inv Hs. rename x into key'. rename E into Hexp.
  bind_inv Hs. rename x into sels'. rename E into Hres.
  destruct (forallb (fun n => n =? arr_length sels') (arr_lengths sels'))
    eqn:Hlens; [|discriminate Hs].
  inversion Hs. subst sels'. clear Hs.
  pose proof (positive_steps_np_expand _ _ Hexp Hpos) as Hpos'.
  set (st0 := mkState None None false [] [] 0 None).
  assert (Hst0 : state_ok rk 0 st0).
  { exists 1. cbn. destruct Hnet as (_ & _ & _ & H0 & _).
    repeat split; try reflexivity. symmetry. exact H0. }
  assert (Hm0 : mode_ok st0) by (cbn; repeat split).
  destruct (@loop_ok key' 0 st0 sels (Nat.le_0_l _) Hst0 Hm0 Htog Hlens
              Hres Hpos') as (st' & L1 & L2 & L3 & L4).
  cbn [skipn] in L4.
  destruct (@finish_ok st' L2 L3) as (it & F1 & F2 & F3).
  exists it. unfold __getitem__.
  rewrite (@process_key_expand t key key')
    by (rewrite (net_dim Hnet); exact Hexp).
  cbn [bind]. fold st0. rewrite L1. cbn [bind].
  split; [exact F1|].
  assert (Hexp0 : expected G st0 sels
                  = build (shape_inplace sels false)
                      (fun idx => tt_vec G (source sels None idx) v1 0)).
  { unfold expected, expected_shape, tail_shape, expect, pend_apply.
    cbn [st0 f_index f_int g_cores map app length firstn skipn tt_vec].
    reflexivity. }
  split.
  - rewrite F2, L4, Hexp0. unfold np_getitem.
    rewrite EsA, Hsels. cbn [bind].
    destruct (existsb is_arr sels && negb (np_adjacent key)) eqn:Hadv.
    + (* the axis of the index arrays comes first *)
      apply andb_true_iff in Hadv. destruct Hadv as (Hex & Hadj).
      apply negb_true_iff in Hadj.
      destruct Hlay as [Hl|[Hl|Hl]]; try congruence.
      destruct (integers_first_layout _ Hl) as (I1 & I2).
      rewrite I1. unfold build. do 2 f_equal.
      apply tab_ext. intros idx Hidx. rewrite <- I2.
      rewrite HgA; [reflexivity|].
      apply (@source_in_range key' sp sels None idx Hres Hpos').
      rewrite I1. split; [exact Hlens|exact Hidx].
    + unfold build. do 2 f_equal.
      apply tab_ext. intros idx Hidx.
      rewrite HgA; [reflexivity|].
      apply (@source_in_range key' sp sels None idx Hres Hpos').
      split; [exact Hlens|exact Hidx].
  - intros Hints. apply F3.
    apply (f_equal tshape) in L4. rewrite Hexp0 in L4.
    cbn [tshape build expected] in L4.
    rewrite (all_ints_shape _ Hints) in L4. exact L4.
Qed.

(** ** What [__getitem__] refuses *)

(** *** The flag [index_done], whatever the network *)

Lemma flush_track (st st1 : getitem_state) :
  flush_index st = Ok st1 ->
  f_index st1 = None /\ index_done st1 = index_done st || pending st.
Proof.
  unfold flush_index, pending. intros H.
  destruct (f_index st) as [fi|] eqn:Ef.
  - bind_inv H. inversion H. cbn. rewrite orb_true_r. split; reflexivity.
  - inversion H. subst st1. rewrite Ef, orb_false_r. split; reflexivity.
Qed.

Lemma insert_track (st st1 : getitem_state)
  (arg : option (tensor * key_item * option tensor)) :
  insert_core st arg = Ok st1 ->
  f_index st1 = None /\ index_done st1 = index_done st || pending st.
Proof.
  unfold insert_core. intros H. bind_inv H.
  destruct (flush_track _ E) as (F1 & F2).
  destruct arg as [[[core key] U]|].
  - unfold append_core in H. bind_inv H. destruct x0 as [c u].
    inversion H. cbn. split; assumption.
  - inversion H. subst st1. split; assumption.
Qed.

Lemma step_track (st st1 : getitem_state) (k : key_item) :
  getitem_step t st k = Ok st1 ->
  (f_index st <> None -> last_mode st = Some MIndex) ->
  (f_index st1 <> None -> last_mode st1 = Some MIndex)
  /\ pending st1 = is_index k
  /\ index_done st1 = index_done st || (pending st && negb (is_index k)).
Proof.
  intros H J. destruct k; cbn [getitem_step is_index negb] in *.
  - (* an integer *)
    bind_inv H. rename x into s1. rename E into E1.
    bind_inv H. inversion H. unfold pending. cbn.
    assert (T : f_index s1 = None
                /\ index_done s1 = index_done st || pending st).
    { destruct (last_mode st) as [[| | |]|] eqn:El;
        try (inversion E1; subst s1;
             assert (Ef : f_index st = None)
               by (destruct (f_index st);
                   [assert (Some MIndex = Some MIndex -> False)
                      by (intros _; discriminate (J ltac:(discriminate)));
                    exfalso; auto | reflexivity]);
             unfold pending; rewrite Ef, orb_false_r;
             split; reflexivity).
      apply (insert_track _ _ E1). }
    destruct T as (T1 & T2). rewrite T1, andb_true_r.
    split; [intros C; congruence|]. split; [reflexivity|exact T2].
  - (* a slice *)
    bind_inv H. bind_inv H. bind_inv H. inversion H. unfold pending. cbn.
    destruct (insert_track _ _ E1) as (T1 & T2). rewrite T1, andb_true_r.
    split; [intros C; congruence|]. split; [reflexivity|exact T2].
  - (* an index array *)
    destruct (index_done st) eqn:Ed; [discriminate H|].
    bind_inv H. inversion H. unfold pending. cbn.
    rewrite andb_false_r. split; [reflexivity|]. split; reflexivity.
  - (* None *)
    bind_inv H. bind_inv H. bind_inv H. inversion H. unfold pending. cbn.
    destruct (insert_track _ _ E1) as (T1 & T2). rewrite T1, andb_true_r.
    split; [intros C; congruence|]. split; [reflexivity|exact T2].
  - discriminate H.
Qed.

Lemma loop_track (pre : list key_item) :
  forall st st',
    foldM (getitem_step t) pre st = Ok st' ->
    (f_index st <> None -> last_mode st = Some MIndex) ->
    index_done st'
    = done_after (index_done st) (pending st) (map is_index pre).
Proof.
  induction pre as [|k pre IH]; intros st st' H J.
  - inversion H. reflexivity.
  - cbn [foldM] in H. bind_inv H.
    destruct (@step_track _ _ _ E J) as (J1 & T1 & T2).
    cbn [map done_after]. rewrite <- T2, <- T1. apply (IH _ _ H J1).
Qed.

Lemma done_after_true (l : list bool) (p : bool) :
  done_after true p l = true.
Proof. revert p. induction l as [|b l IH]; intros p; [reflexivity|apply IH]. Qed.

(** *** Where a key stops being of the accepted form *)

Lemma none_of_false (l : list bool) :
  none_of l = false ->
  exists p q, l = p ++ true :: q /\ none_of p = true.
Proof.
  induction l as [|b l IH]; intros H; [discriminate H|].
  destruct b.
  - exists [], l. split; reflexivity.
  - destruct (IH H) as (p & q & -> & Hp). exists (false :: p), q.
    split; [reflexivity|exact Hp].
Qed.

Lemma run_then_none_false (l : list bool) :
  run_then_none l = false ->
  exists p q, l = p ++ true :: q /\ run_then_none p = true
              /\ done_after false true p = true.
Proof.
  induction l as [|b l IH]; intros H; [discriminate H|].
  destruct b; cbn [run_then_none] in H.
  - destruct (IH H) as (p & q & -> & Hp & Hd). exists (true :: p), q.
    split; [reflexivity|]. split; [exact Hp|exact Hd].
  - destruct (none_of_false _ H) as (p & q & -> & Hp).
    exists (false :: p), q. split; [reflexivity|].
    split; [exact Hp|]. cbn [done_after orb andb negb].
    apply done_after_true.
Qed.

Lemma one_run_false (l : list bool) :
  one_run l = false ->
  exists p q, l = p ++ true :: q /\ one_run p = true
              /\ done_after false false p = true.
Proof.
  induction l as [|b l IH]; intros H; [discriminate H|].
  destruct b; cbn [one_run] in H.
  - destruct (run_then_none_false _ H) as (p & q & -> & Hp & Hd).
    exists (true :: p), q. split; [reflexivity|].
    split; [exact Hp|exact Hd].
  - destruct (IH H) as (p & q & -> & Hp & Hd). exists (false :: p), q.
    split; [reflexivity|]. split; [exact Hp|exact Hd].
Qed.

Lemma none_of_app (p q : list bool) :
  none_of p = true -> none_of q = true -> none_of (p ++ q) = true.
Proof.
  induction p as [|b p IH]; intros Hp Hq; [exact Hq|].
  cbn [none_of app] in *. apply andb_true_iff in Hp.
  destruct Hp as (Hb & Hp). rewrite Hb. apply (IH Hp Hq).
Qed.

Lemma run_then_none_app (p q : list bool) :
  run_then_none p = true -> none_of q = true ->
  run_then_none (p ++ q) = true.
Proof.
  induction p as [|b p IH]; intros Hp Hq;
    [apply run_then_none_weaken, Hq|].
  destruct b; cbn [run_then_none app] in *;
    [apply (IH Hp Hq) | apply (none_of_app _ _ Hp Hq)].
Qed.

Lemma one_run_app (p q : list bool) :
  one_run p = true -> none_of q = true -> one_run (p ++ q) = true.
Proof.
  induction p as [|b p IH]; intros Hp Hq; [apply one_run_weaken, Hq|].
  destruct b; cbn [one_run app] in *;
    [apply (run_then_none_app _ _ Hp Hq) | apply (IH Hp Hq)].
Qed.

Lemma same_lengths_prefix (a b : list nat) :
  same_lengths (a ++ b) = true -> same_lengths a = true.
Proof.
  unfold same_lengths. destruct a as [|n a]; [reflexivity|].
  cbn [app hd forallb]. rewrite forallb_app. intros H.
  apply andb_true_iff in H. destruct H as (H1 & H).
  apply andb_true_iff in H. destruct H as (H2 & _).
  rewrite H1, H2. reflexivity.
Qed.

Lemma arr_lengths_app (a b : list sel) :
  arr_lengths (a ++ b) = arr_lengths a ++ arr_lengths b.
Proof. apply flat_map_app. Qed.

Lemma arr_lengths_none (l : list sel) :
  none_of (map is_arr l) = true -> arr_lengths l = [].
Proof.
  induction l as [|x l IH]; intros H; [reflexivity|].
  cbn [map none_of] in H. apply andb_true_iff in H.
  destruct H as (Hx & H). destruct x; try discriminate Hx;
    cbn [arr_lengths flat_map app]; apply IH, H.
Qed.

(** *** The key, entry by entry *)

Lemma select_is_arr (s : nat) (k : key_item) (x : sel) :
  np_select s k = Ok x -> is_arr x = is_index k.
Proof.
  intros H. destruct k; cbn [np_select] in H; try discriminate H.
  - bind_inv H. inversion H. reflexivity.
  - destruct (step_of step =? 0)%Z; [discriminate H|]. inversion H.
    reflexivity.
  - bind_inv H. inversion H. reflexivity.
Qed.

Lemma select_arr (s : nat) (k : key_item) (pos : list nat) :
  np_select s k = Ok (SArr pos) ->
  exists l, k = KIndex l /\ length l = length pos.
Proof.
  intros H. destruct k; cbn [np_select] in H; try discriminate H.
  - bind_inv H. discriminate H.
  - destruct (step_of step =? 0)%Z; discriminate H.
  - exists l. split; [reflexivity|]. bind_inv H. inversion H.
    subst x. symmetry. apply (mapM_norm_index _ _ E).
Qed.

Lemma np_resolve_step (s : nat) (sp' : list nat) (k : key_item)
  (key : list key_item) (x : sel) (r : list sel) :
  np_select s k = Ok x -> np_resolve sp' key = Ok r ->
  np_resolve (s :: sp') (k :: key) = Ok (x :: r).
Proof.
  intros Hx Hr.
  destruct k; cbn [np_resolve]; try discriminate Hx;
    rewrite Hx; cbn [bind]; rewrite Hr; reflexivity.
Qed.

Lemma np_resolve_app (pre : list key_item) :
  forall sp1 sp2 fill P F,
    np_resolve sp1 pre = Ok P -> np_resolve sp2 fill = Ok F ->
    np_resolve (sp1 ++ sp2) (pre ++ fill) = Ok (P ++ F).
Proof.
  induction pre as [|k pre IH]; intros sp1 sp2 fill P F HP HF.
  - destruct sp1; [|discriminate HP]. inversion HP. exact HF.
  - destruct (np_resolve_cons _ _ _ HP)
      as [(-> & r & Hr & ->)|(s & sp'' & x & r & -> & Hx & Hr & ->)].
    + cbn [app np_resolve]. rewrite (IH _ _ _ _ _ Hr HF). reflexivity.
    + cbn [app]. apply (@np_resolve_step _ _ _ _ _ _ Hx (IH _ _ _ _ _ Hr HF)).
Qed.

Lemma np_resolve_split (key : list key_item) :
  forall sp' P x Q,
    np_resolve sp' key = Ok (P ++ x :: Q) ->
    exists pre post sp1 sp2,
      key = pre ++ post /\ sp' = sp1 ++ sp2
      /\ np_resolve sp1 pre = Ok P /\ np_resolve sp2 post = Ok (x :: Q)
      /\ map is_index pre = map is_arr P.
Proof.
  induction key as [|k key IH]; intros sp' P x Q H.
  - destruct sp'; [|discriminate H]. inversion H.
    destruct P; discriminate.
  - destruct P as [|y P].
    + exists [], (k :: key), [], sp'. repeat split. exact H.
    + destruct (np_resolve_cons _ _ _ H)
        as [(-> & r & Hr & Er)|(s & sp'' & x0 & r & -> & Hx & Hr & Er)];
        cbn [app] in Er; inversion Er; subst y r.
      * destruct (IH _ _ _ _ Hr)
          as (pre & post & sp1 & sp2 & -> & -> & H1 & H2 & H3).
        exists (KNone :: pre), post, sp1, sp2.
        split; [reflexivity|]. split; [reflexivity|].
        split; [cbn [np_resolve]; rewrite H1; reflexivity|].
        split; [exact H2|]. cbn [map is_index is_arr]. rewrite H3.
        reflexivity.
      * destruct (IH _ _ _ _ Hr)
          as (pre & post & sp1 & sp2 & -> & -> & H1 & H2 & H3).
        exists (k :: pre), post, (s :: sp1), sp2.
        split; [reflexivity|]. split; [reflexivity|].
        split; [apply (@np_resolve_step _ _ _ _ _ _ Hx H1)|].
        split; [exact H2|]. cbn [map]. rewrite H3.
        rewrite (@select_is_arr _ _ _ Hx). reflexivity.
Qed.

(** The axes that the key does not name are kept whole. *)
Lemma np_resolve_fill (sp' : list nat) :
  exists F,
    np_resolve sp' (repeat full_slice (length sp')) = Ok F
    /\ none_of (map is_arr F) = true.
Proof.
  induction sp' as [|s sp' (F & HF & Hn)].
  - exists []. split; reflexivity.
  - eexists. cbn [length repeat]. split.
    + apply np_resolve_step; [reflexivity|exact HF].
    + cbn [map is_arr none_of negb andb]. exact Hn.
Qed.

(** *** The loop over the first entries of a key *)

Lemma loop_prefix (pre : list key_item) :
  forall c st sp1 sp2 P rest krest,
    skipn c sp = sp1 ++ sp2 ->
    np_resolve sp1 pre = Ok P -> np_resolve sp2 krest = Ok rest ->
    c <= N -> state_ok rk c st -> mode_ok st ->
    arrs_ok st (P ++ rest) = true -> lens_ok st (P ++ rest) = true ->
    positive_steps pre = true ->
    exists st',
      foldM (getitem_step t) pre st = Ok st'
      /\ state_ok rk (c + length sp1) st' /\ mode_ok st'
      /\ arrs_ok st' rest = true /\ lens_ok st' rest = true.
Proof.
  induction pre as [|k pre IH];
    intros c st sp1 sp2 P rest krest Hsk HP HR Hc Hst Hm Harr Hlens Hpos.
  - destruct sp1; [|discriminate HP]. inversion HP. subst P.
    exists st. cbn [foldM length app] in *. rewrite Nat.add_0_r.
    repeat split; assumption.
  - destruct (positive_steps_cons _ _ Hpos) as (Hp1 & Hp2).
    destruct (np_resolve_cons _ _ _ HP)
      as [(-> & r & Hr & ->)|(s & sp'' & x & r & -> & Hx & Hr & ->)].
    + assert (Hres : np_resolve (skipn c sp) (pre ++ krest) = Ok (r ++ rest))
        by (rewrite Hsk; apply (@np_resolve_app _ _ _ _ _ _ Hr HR)).
      destruct (@step_none c st (r ++ rest) (pre ++ krest) Hc Hst Hm Harr
                  Hlens Hres) as (st1 & T1 & T2 & T3 & T4 & T5 & _).
      destruct (IH c st1 sp1 sp2 r rest krest Hsk Hr HR Hc T2 T3 T4 T5 Hp2)
        as (st' & L1 & L2 & L3 & L4 & L5).
      exists st'. cbn [foldM]. rewrite T1. cbn [bind].
      repeat split; assumption.
    + assert (Hc' : c < N).
      { apply (f_equal (@length _)) in Hsk. rewrite length_skipn in Hsk.
        cbn in Hsk. unfold N. lia. }
      rewrite (skipn_sp Hc') in Hsk. cbn [app] in Hsk.
      assert (Es : nth c sp 0 = s) by congruence.
      assert (Hsk' : skipn (S c) sp = sp'' ++ sp2) by congruence.
      subst s. clear Hsk.
      assert (Hres : np_resolve (skipn (S c) sp) (pre ++ krest)
                     = Ok (r ++ rest))
        by (rewrite Hsk'; apply (@np_resolve_app _ _ _ _ _ _ Hr HR)).
      cbn [app] in Harr, Hlens.
      assert (Hstep : exists st1,
                 getitem_step t st k = Ok st1
                 /\ state_ok rk (S c) st1 /\ mode_ok st1
                 /\ arrs_ok st1 (r ++ rest) = true
                 /\ lens_ok st1 (r ++ rest) = true).
      { destruct x as [n|pos|pos|].
        - destruct (@step_int c st n (r ++ rest) k (pre ++ krest) Hc' Hst Hm
                      Harr Hlens Hx Hres) as (st1 & T1 & T2 & T3 & T4 & T5 & _).
          exists st1. repeat split; assumption.
        - destruct (@step_slice c st pos (r ++ rest) k (pre ++ krest) Hc' Hst
                      Hm Harr Hlens Hx Hp1 Hres)
            as (st1 & T1 & T2 & T3 & T4 & T5 & _).
          exists st1. repeat split; assumption.
        - destruct (@step_index c st pos (r ++ rest) k (pre ++ krest) Hc' Hst
                      Harr Hlens Hx Hres)
            as (st1 & T1 & T2 & T3 & T4 & T5 & _).
          exists st1. repeat split; assumption.
        - destruct (np_select_inv _ _ Hx) as (_ & Hn). congruence. }
      destruct Hstep as (st1 & T1 & T2 & T3 & T4 & T5).
      destruct (IH (S c) st1 sp'' sp2 r rest krest Hsk' Hr HR Hc' T2 T3 T4
                  T5 Hp2) as (st' & L1 & L2 & L3 & L4 & L5).
      exists st'. cbn [foldM]. rewrite T1. cbn [bind].
      cbn [length]. rewrite <- Nat.add_succ_comm.
      repeat split; assumption.
Qed.

(** The loop from the start of the key. *)
Lemma loop_start (pre : list key_item) (sp1 sp2 : list nat)
  (P rest : list sel) (krest : list key_item) :
  sp = sp1 ++ sp2 ->
  np_resolve sp1 pre = Ok P -> np_resolve sp2 krest = Ok rest ->
  one_run (map is_arr (P ++ rest)) = true ->
  same_lengths (arr_lengths (P ++ rest)) = true ->
  positive_steps pre = true ->
  exists st',
    foldM (getitem_step t) pre (mkState None None false [] [] 0 None)
    = Ok st'
    /\ state_ok rk (length sp1) st' /\ mode_ok st'
    /\ arrs_ok st' rest = true /\ lens_ok st' rest = true
    /\ index_done st' = done_after false false (map is_arr P).
Proof.
  intros Esp HP HR Hrun Hlens Hpos.
  set (st0 := mkState None None false [] [] 0 None).
  assert (Hst0 : state_ok rk 0 st0).
  { exists 1. cbn. destruct Hnet as (_ & _ & _ & H0 & _).
    repeat split; try reflexivity. symmetry. exact H0. }
  assert (Hm0 : mode_ok st0) by (cbn; repeat split).
  destruct (@loop_prefix pre 0 st0 sp1 sp2 P rest krest Esp HP HR
              (Nat.le_0_l _) Hst0 Hm0 Hrun Hlens Hpos)
    as (st' & L1 & L2 & L3 & L4 & L5).
  exists st'. split; [exact L1|]. split; [exact L2|]. split; [exact L3|].
  split; [exact L4|]. split; [exact L5|].
  assert (J0 : f_index st0 <> None -> last_mode st0 = Some MIndex)
    by (intros C; exfalso; apply C; reflexivity).
  rewrite (@loop_track _ _ _ L1 J0). cbn [st0 index_done pending f_index].
  f_equal. clear - HP. revert sp1 P HP.
  induction pre as [|k pre IH]; intros sp1 P HP.
  - destruct sp1; [|discriminate HP]. inversion HP. reflexivity.
  - destruct (np_resolve_cons _ _ _ HP)
      as [(-> & r & Hr & ->)|(s & sp'' & x & r & -> & Hx & Hr & ->)];
      cbn [map]; rewrite (IH _ _ Hr); [reflexivity|].
    rewrite (@select_is_arr _ _ _ Hx). reflexivity.
Qed.

(** X17: on a network of TT cores, a key that NumPy accepts, with slices
    of positive step, in which the index arrays do not follow one another
    (a slice, an integer or [None] separates two of them) makes
    [__getitem__] raise IndexError. *)
Theorem getitem_arrays_apart (key : list key_item) (sels : list sel) :
  np_sels sp key = Ok sels -> positive_steps key = true ->
  arrays_together sels = false ->
  __getitem__ t key = Raise IndexError.
Proof.
  intros Hsels Hpos Hapart. unfold np_sels in Hsels.
  bind_inv Hsels. rename x into key'. rename E into Hexp.
  bind_inv Hsels. rename x into sels'. rename E into Hres.
  destruct (forallb (fun n => n =? arr_length sels') (arr_lengths sels'))
    eqn:Hlens; [|discriminate Hsels].
  inversion Hsels. subst sels'. clear Hsels.
  pose proof (positive_steps_np_expand _ _ Hexp Hpos) as Hpos'.
  destruct (one_run_false _ Hapart) as (p & q & Hpq & Hp & Hd).
  apply map_eq_app in Hpq. destruct Hpq as (P & S2 & -> & HP & HS2).
  destruct S2 as [|x Q]; [discriminate HS2|].
  cbn [map] in HS2. injection HS2 as Hx HQ.
  destruct (np_resolve_split _ _ _ _ _ Hres)
    as (pre & post & sp1 & sp2 & -> & Esp & H1 & H2 & H3).
  destruct post as [|k post];
    [destruct sp2; discriminate H2|].
  destruct x as [|pos0|pos|]; try discriminate Hx.
  destruct (np_resolve_cons _ _ _ H2)
    as [(-> & r & _ & Er)|(s & sp'' & x0 & r & -> & Hx0 & _ & Er)];
    [discriminate Er|].
  injection Er as E1 E2. subst x0 r.
  destruct (select_arr _ _ Hx0) as (l & -> & _).
  destruct (np_resolve_fill (s :: sp'')) as (F & HF & HnF).
  rewrite positive_steps_app in Hpos'. apply andb_true_iff in Hpos'.
  destruct Hpos' as (Hpos1 & _).
  assert (Hrun : one_run (map is_arr (P ++ F)) = true)
    by (rewrite map_app, HP; apply (one_run_app _ _ Hp HnF)).
  assert (Hl : same_lengths (arr_lengths (P ++ F)) = true).
  { rewrite arr_lengths_app, (arr_lengths_none _ HnF), app_nil_r.
    unfold arr_length in Hlens. rewrite arr_lengths_app in Hlens.
    apply (same_lengths_prefix _ _ Hlens). }
  destruct (@loop_start pre sp1 (s :: sp'') P F _ Esp H1 HF Hrun Hl Hpos1)
    as (st' & L1 & _ & _ & _ & _ & L6).
  unfold __getitem__.
  rewrite (@process_key_expand t key (pre ++ KIndex l :: post))
    by (rewrite (net_dim Hnet); exact Hexp).
  cbn [bind]. rewrite foldM_app, L1. cbn [bind foldM getitem_step].
  rewrite L6, HP, Hd. reflexivity.
Qed.

(** *** Index arrays of different lengths *)

Lemma arrays_run (P : list sel) (pos : list nat) :
  forallb is_arr P = true ->
  run_then_none (map is_arr (P ++ [SArr pos])) = true.
Proof.
  induction P as [|x P IH]; intros H; [reflexivity|].
  cbn [forallb] in H. apply andb_true_iff in H. destruct H as (Hx & H).
  destruct x; try discriminate Hx. cbn [app map is_arr run_then_none].
  apply IH, H.
Qed.

Lemma arrays_one_run (P : list sel) (pos : list nat) :
  forallb is_arr P = true -> one_run (map is_arr (P ++ [SArr pos])) = true.
Proof.
  destruct P as [|x P]; intros H; [reflexivity|].
  cbn [forallb] in H. apply andb_true_iff in H. destruct H as (Hx & H).
  destruct x; try discriminate Hx. cbn [app map is_arr one_run].
  apply arrays_run, H.
Qed.

Lemma run_mismatch (s : list sel) :
  forall pos0,
    run_then_none (map is_arr s) = true ->
    forallb (fun n => n =? length pos0) (arr_lengths s) = false ->
    exists P pos pos' Q,
      SArr pos0 :: s = P ++ SArr pos :: SArr pos' :: Q
      /\ length pos <> length pos'
      /\ forallb is_arr P = true
      /\ hd 0 (arr_lengths (P ++ [SArr pos])) = length pos0
      /\ forallb (fun n => n =? length pos0)
           (arr_lengths (P ++ [SArr pos])) = true.
Proof.
  induction s as [|x s IH]; intros pos0 Hrun Hl; [discriminate Hl|].
  destruct x as [n|p1|p1|];
    try (cbn [map is_arr run_then_none] in Hrun;
         cbn [arr_lengths flat_map app] in Hl;
         fold (arr_lengths s) in Hl;
         rewrite (arr_lengths_none _ Hrun) in Hl; discriminate Hl).
  cbn [map is_arr run_then_none] in Hrun.
  cbn [arr_lengths flat_map app forallb] in Hl. fold (arr_lengths s) in Hl.
  destruct (length p1 =? length pos0) eqn:E.
  - apply Nat.eqb_eq in E. cbn [andb] in Hl. rewrite <- E in Hl.
    destruct (IH p1 Hrun Hl) as (P & pos & pos' & Q & Eq & Hne & Ha & Hh & Hf).
    exists (SArr pos0 :: P), pos, pos', Q. rewrite Eq.
    split; [reflexivity|]. split; [exact Hne|]. split; [exact Ha|].
    cbn [app arr_lengths flat_map hd forallb].
    fold (arr_lengths (P ++ [SArr pos])).
    split; [reflexivity|]. rewrite Nat.eqb_refl, <- E. exact Hf.
  - apply Nat.eqb_neq in E. exists [], pos0, p1, s.
    split; [reflexivity|]. split; [congruence|]. split; [reflexivity|].
    cbn. rewrite Nat.eqb_refl. split; reflexivity.
Qed.

Lemma lengths_mismatch (s : list sel) :
  one_run (map is_arr s) = true ->
  same_lengths (arr_lengths s) = false ->
  exists P pos pos' Q,
    s = P ++ SArr pos :: SArr pos' :: Q
    /\ length pos <> length pos'
    /\ one_run (map is_arr (P ++ [SArr pos])) = true
    /\ same_lengths (arr_lengths (P ++ [SArr pos])) = true.
Proof.
  induction s as [|x s IH]; intros Hrun Hl; [discriminate Hl|].
  destruct x as [n|p1|pos0|];
    try (destruct (IH Hrun Hl) as (P & pos & pos' & Q & -> & Hne & H1 & H2);
         eexists (_ :: P), pos, pos', Q;
         split; [reflexivity|]; split; [exact Hne|];
         split; [exact H1|exact H2]).
  cbn [map is_arr one_run] in Hrun.
  unfold same_lengths in Hl.
  cbn [arr_lengths flat_map app hd forallb] in Hl. fold (arr_lengths s) in Hl.
  rewrite Nat.eqb_refl in Hl. cbn [andb] in Hl.
  destruct (run_mismatch _ _ Hrun Hl)
    as (P & pos & pos' & Q & Eq & Hne & Ha & Hh & Hf).
  exists P, pos, pos', Q. split; [exact Eq|]. split; [exact Hne|].
  split; [apply arrays_one_run, Ha|].
  unfold same_lengths. rewrite Hh. exact Hf.
Qed.

Lemma skipn_past (A : Type) (l1 l2 : list A) (a : A) :
  skipn (S (length l1)) (l1 ++ a :: l2) = l2.
Proof. induction l1 as [|b l1 IH]; [reflexivity|exact IH]. Qed.

(** X18: on a network of TT cores, a key whose entries NumPy resolves on
    the axes, with slices of positive step and index arrays that follow one
    another, but not all of one length, makes [__getitem__] raise
    ValueError. *)
Theorem getitem_array_lengths (key key' : list key_item)
  (sels : list sel) :
  np_expand (length sp) key = Ok key' -> np_resolve sp key' = Ok sels ->
  positive_steps key = true -> arrays_together sels = true ->
  same_lengths (arr_lengths sels) = false ->
  __getitem__ t key = Raise ValueError.
Proof.
  intros Hexp Hres Hpos Htog Hdiff.
  pose proof (positive_steps_np_expand _ _ Hexp Hpos) as Hpos'.
  destruct (lengths_mismatch _ Htog Hdiff)
    as (P & pos & pos' & Q & -> & Hne & Hrun & Hsame).
  destruct (np_resolve_split _ _ _ _ _ Hres)
    as (pre & post & sp1 & sp2 & -> & Esp & H1 & H2 & _).
  destruct post as [|k1 post]; [destruct sp2; discriminate H2|].
  destruct (np_resolve_cons _ _ _ H2)
    as [(-> & r & _ & Er)|(s & sp2' & x1 & r & -> & Hx1 & Hr1 & Er)];
    [discriminate Er|].
  injection Er as E1 E2. subst x1 r.
  destruct post as [|k2 post]; [destruct sp2'; discriminate Hr1|].
  destruct (np_resolve_cons _ _ _ Hr1)
    as [(-> & r & _ & Er)|(s' & sp3 & x2 & r & -> & Hx2 & _ & Er)];
    [discriminate Er|].
  injection Er as E1 E2. subst x2 r.
  destruct (select_arr _ _ Hx1) as (l1 & -> & Hl1).
  destruct (select_arr _ _ Hx2) as (l2 & -> & Hl2).
  destruct (np_resolve_fill (s' :: sp3)) as (F & HF & HnF).
  rewrite positive_steps_app in Hpos'. apply andb_true_iff in Hpos'.
  destruct Hpos' as (Hpos1 & _).
  assert (Hrun' : one_run (map is_arr (P ++ SArr pos :: F)) = true).
  { replace (P ++ SArr pos :: F) with ((P ++ [SArr pos]) ++ F)
      by (rewrite <- app_assoc; reflexivity).
    rewrite map_app. apply (one_run_app _ _ Hrun HnF). }
  assert (Hsame' : same_lengths (arr_lengths (P ++ SArr pos :: F)) = true).
  { replace (P ++ SArr pos :: F) with ((P ++ [SArr pos]) ++ F)
      by (rewrite <- app_assoc; reflexivity).
    rewrite arr_lengths_app, (arr_lengths_none _ HnF), app_nil_r.
    exact Hsame. }
  destruct (@loop_start pre sp1 (s :: s' :: sp3) P (SArr pos :: F) _ Esp H1
              (@np_resolve_step _ _ _ _ _ _ Hx1 HF) Hrun' Hsame' Hpos1)
    as (st2 & L1 & L2 & L3 & L4 & L5 & _).
  assert (Hc : length sp1 < N)
    by (unfold N; rewrite Esp, length_app; cbn [length]; lia).
  assert (Hsel : np_select (nth (length sp1) sp 0) (KIndex l1)
                 = Ok (SArr pos))
    by (rewrite Esp, nth_middle; exact Hx1).
  assert (Hfill : np_resolve (skipn (S (length sp1)) sp)
                    (repeat full_slice (length (s' :: sp3))) = Ok F)
    by (rewrite Esp, skipn_past; exact HF).
  destruct (@step_index (length sp1) st2 pos F (KIndex l1) _ Hc L2 L4 L5
              Hsel Hfill) as (st1 & T1 & _ & _ & _ & _ & T6).
  pose proof T1 as T1'. cbn [getitem_step] in T1'.
  destruct (index_done st2) eqn:Hnd; [discriminate T1'|].
  bind_inv T1'. rename x into fi. inversion T1'. clear T1'.
  assert (Hfi : shr fi 2 = length pos).
  { apply (f_equal tshape) in T6. subst st1.
    unfold expected, expected_shape, tail_shape in T6.
    cbn [tshape build f_index g_cores] in T6.
    apply app_inv_head in T6. unfold lens_ok in L5.
    destruct (f_index st2) as [X|].
    - cbn [arr_lengths flat_map app forallb] in L5.
      apply andb_true_iff in L5. destruct L5 as (L5 & _).
      apply Nat.eqb_eq in L5. cbn [shape_inplace] in T6. congruence.
    - cbn [shape_inplace] in T6. congruence. }
  unfold __getitem__.
  rewrite (@process_key_expand t key (pre ++ KIndex l1 :: KIndex l2 :: post))
    by (rewrite (net_dim Hnet); exact Hexp).
  cbn [bind]. rewrite foldM_app, L1. cbn [bind foldM]. rewrite T1.
  subst st1. cbn [bind getitem_step index_done f_index key_length].
  rewrite Hfi, Hl2.
  replace (length pos =? length pos') with false
    by (symmetry; apply Nat.eqb_neq; exact Hne).
  reflexivity.
Qed.

End Steps.

(** ** Indexing a network built from a dense array *)

(** C3 (as amended): for every dense array [A] with at least one axis and
    no empty axis, and every key of integers, slices of positive step,
    [None], at most one [Ellipsis] and index arrays of equal length that
    follow one another, which NumPy accepts on [A] ([np_sels] resolves it)
    and in which there is no index array, or the integers and index arrays
    are next to each other, or only integers come before the first index
    array: [Tensor(A)[key]] raises nothing and decompresses to [A[key]],
    shape and entries; when every axis is taken by an integer the result is
    a number, not a network. *)
Theorem C3_getitem_numpy (A : tensor) (key : list key_item)
  (sels : list sel) :
  wf A -> tshape A <> [] -> positive (tshape A) ->
  np_sels (tshape A) key = Ok sels ->
  positive_steps key = true ->
  arrays_together sels = true ->
  existsb is_arr sels = false \/ np_adjacent key = true
  \/ integers_first sels = true ->
  exists t it B,
    Tensor_init (no_options A) = ([WFullRankTT], Ok t)
    /\ __getitem__ t key = Ok it
    /\ np_getitem A key = Ok B
    /\ decompress it = Ok B
    /\ (forallb is_sint sels = true -> exists x, it = Number x).
Proof.
  intros Hwf Hne Hpos Hsels Hsteps Htog Hlay.
  destruct (full_rank_tt_roundtrip Hwf Hne Hpos) as (cs & Hfr & Hsh & _ & Ht).
  set (t := mkTensor cs (repeat None (tdim A))) in *.
  assert (Hlen : length cs = tdim A).
  { apply (f_equal (@length _)) in Hsh.
    rewrite !length_map, length_seq in Hsh. exact Hsh. }
  assert (HN : tdim A <> 0).
  { unfold tdim. destruct (tshape A); [congruence | discriminate]. }
  assert (Hnet : tt_network t (tshape A) (tt_rank (tshape A))).
  { split; [exact Hsh|]. split; [reflexivity|].
    split; [intros k; pose proof (tt_rank_pos k Hpos); lia|].
    split; [apply tt_rank_0, Hpos | apply tt_rank_all, Hpos]. }
  destruct (@getitem_network t (tshape A) (tt_rank (tshape A)) Hnet Hne
              A key sels Ht Hsels Hsteps Htog Hlay)
    as (it & G1 & G2 & G3).
  assert (HB : exists B, np_getitem A key = Ok B).
  { unfold np_getitem. rewrite Hsels. cbn [bind].
    destruct (existsb is_arr sels && negb (np_adjacent key));
      eexists; reflexivity. }
  destruct HB as (B & HB).
  exists t, it, B. split; [apply Tensor_init_dense; assumption|].
  split; [exact G1|]. split; [exact HB|].
  split; [rewrite G2; exact HB | exact G3].
Qed.

(** ** Rounding and the ranks of the network *)

Lemma reshape_shape (t c : tensor) (s : sizes) :
  reshape t s = Ok c -> exists v, tshape c = fill_infer s v.
Proof.
  unfold reshape, infer_size. intros H.
  destruct (count_infer s) as [|[|?]]; try discriminate H.
  - destruct (_ =? _); [|discriminate H]. cbn [bind] in H. inversion H.
    exists 0. reflexivity.
  - destruct (_ =? _); [discriminate H|].
    destruct (_ =? _); [|discriminate H]. cbn [bind] in H. inversion H.
    eexists. reflexivity.
Qed.

Lemma reshape_exact_shape (t c : tensor) (s : list nat) :
  reshape t (exact s) = Ok c -> tshape c = s.
Proof.
  intros H. destruct (reshape_shape _ _ H) as (v & E).
  rewrite fill_infer_exact in E. exact E.
Qed.

Lemma shr1_3 (c : tensor) : tdim c = 3 -> shr c 1 = sh c 2.
Proof. intros D. unfold shr. rewrite D. reflexivity. Qed.

(** The cores [cs'] are TT cores, as many as [cs], and none has a larger
    last size (the rank to the next core). *)
Definition ranks_le (cs' cs : list tensor) : Prop :=
  length cs' = length cs
  /\ Forall (fun c => tdim c = 3) cs'
  /\ forall n, shr (nth n cs' tnil) 1 <= shr (nth n cs tnil) 1.

Lemma ranks_le_refl (cs : list tensor) :
  Forall (fun c => tdim c = 3) cs -> ranks_le cs cs.
Proof. intros H. split; [reflexivity|]. split; [exact H|]. intros n. lia. Qed.

Lemma ranks_le_trans (cs1 cs2 cs3 : list tensor) :
  ranks_le cs1 cs2 -> ranks_le cs2 cs3 -> ranks_le cs1 cs3.
Proof.
  intros (L1 & D1 & H1) (L2 & D2 & H2). split; [congruence|].
  split; [exact D1|]. intros n. specialize (H1 n). specialize (H2 n). lia.
Qed.

Lemma Forall_set_item (A : Type) (P : A -> Prop) (l l' : list A) (n : nat)
  (v : A) :
  set_item l n v = Ok l' -> Forall P l -> P v -> Forall P l'.
Proof.
  revert n l'. induction l as [|a l IH]; intros n l' H Hl Hv;
    [discriminate H|].
  inversion Hl as [|? ? Ha Hl']. subst.
  destruct n as [|n]; cbn [set_item] in H.
  - inversion H. constructor; assumption.
  - destruct (set_item l n v) as [r|] eqn:E; [|discriminate H].
    cbn [bind] in H. inversion H. constructor; [exact Ha|].
    apply (IH n r E Hl' Hv).
Qed.

Lemma Forall_nth_tnil (cs : list tensor) (n : nat) (c : tensor) :
  Forall (fun c => tdim c = 3) cs -> get_item cs n = Ok c -> tdim c = 3.
Proof.
  intros H Hg. pose proof (@get_item_lt _ _ _ _ Hg) as Hn.
  rewrite <- (@get_item_nth_eq _ _ _ _ tnil Hg).
  apply (proj1 (Forall_nth _ cs) H). exact Hn.
Qed.

(** Replacing a core by a TT core whose last size is not larger. *)
Lemma ranks_le_set (cs cs' : list tensor) (n : nat) (c v : tensor) :
  Forall (fun c => tdim c = 3) cs ->
  get_item cs n = Ok c -> set_item cs n v = Ok cs' ->
  tdim v = 3 -> shr v 1 <= shr c 1 ->
  ranks_le cs' cs.
Proof.
  intros HD Hg Hs Dv Hv. split; [eapply set_item_length; eassumption|].
  split; [eapply Forall_set_item; eassumption|].
  intros j. rewrite (@set_item_nth _ _ _ _ j _ tnil Hs).
  destruct (j =? n) eqn:Ej; [|lia].
  apply Nat.eqb_eq in Ej. subst j.
  rewrite (@get_item_nth_eq _ _ _ _ tnil Hg). exact Hv.
Qed.

Lemma ranks_le_dims (cs' cs : list tensor) :
  ranks_le cs' cs -> Forall (fun c => tdim c = 3) cs'.
Proof. intros (_ & H & _). exact H. Qed.

Ltac bind_as H x E :=
  match type of H with
  | bind ?c _ = Ok _ =>
      destruct c as [x|] eqn:E; [cbn [bind] in H | discriminate H]
  end.

Section RoundRanks.

(** What the class relies on: [torch.qr] of an [(a, b)] matrix returns
    [Q] of shape [(a, min(a, b))] and [R] of shape [(min(a, b), b)], and
    [tn.truncated_svd] returns factors [(a, k)] and [(k, b)] with [k] not
    above [min(a, b)]. *)
Hypothesis qr_shape :
  forall m Q Rf a b,
    tshape m = [a; b] -> qr m = Ok (Q, Rf) ->
    tshape Q = [a; Nat.min a b] /\ tshape Rf = [Nat.min a b; b].

Hypothesis svd_shape :
  forall M bud rm lo lft rgt a b,
    tshape M = [a; b] -> truncated_svd M bud rm lo = Ok (lft, rgt) ->
    exists k, k <= Nat.min a b
              /\ tshape lft = [a; k] /\ tshape rgt = [k; b].

Lemma factor_orthogonalize_ranks (self self' : Tensor) (mu : nat) :
  Forall (fun c => tdim c = 3) (cores self) ->
  factor_orthogonalize self mu = Ok self' ->
  ranks_le (cores self') (cores self).
Proof.
  intros HD H. unfold factor_orthogonalize in H.
  bind_inv H. destruct x as [u|];
    [|inversion H; subst self'; apply ranks_le_refl, HD].
  bind_inv H. destruct x as (Q & Rf). bind_inv H. bind_inv H.
  rename x0 into c. rename E2 into Hc.
  pose proof (@Forall_nth_tnil _ _ _ HD Hc) as Dc.
  rewrite Dc in H. cbn [Nat.eqb] in H.
  bind_inv H. rename x0 into c'. bind_inv H. inversion H. subst self'.
  cbn [cores].
  assert (Hc' : tdim c' = 3 /\ shr c' 1 = shr c 1).
  { unfold einsum_ijk_aj_iak in E2. rewrite (@tdim3_shape c Dc) in E2.
    destruct (tshape Rf) as [|? [|? [|? ?]]]; try discriminate E2.
    destruct (_ =? _); [|discriminate E2]. inversion E2.
    rewrite (@shr1_3 c Dc). split; reflexivity. }
  destruct Hc' as (D' & S'). eapply ranks_le_set; try eassumption. lia.
Qed.

Lemma left_orthogonalize_ranks (self self' : Tensor) (mu : Z) (Rf : tensor) :
  Forall (fun c => tdim c = 3) (cores self) ->
  left_orthogonalize self mu = Ok (self', Rf) ->
  ranks_le (cores self') (cores self).
Proof.
  intros HD H. unfold left_orthogonalize in H.
  bind_as H u Hu. bind_as H s1 Hs1.
  assert (R1 : ranks_le (cores s1) (cores self))
    by (eapply factor_orthogonalize_ranks; eassumption).
  pose proof (@ranks_le_dims _ _ R1) as D1.
  bind_as H c Hc.
  pose proof (@Forall_nth_tnil _ _ _ D1 Hc) as Dc.
  bind_as H lu Hlu. bind_as H qrf Hqr. destruct qrf as (Q & Rf').
  bind_as H c' Hc'. bind_as H cs1 Hcs1.
  bind_as H cn Hcn. bind_as H ru Hru. bind_as H p Hp.
  bind_as H cn' Hcn'. bind_as H cs2 Hcs2.
  inversion H. subst self' Rf'. cbn [cores].
  (* the core [mu] *)
  destruct (@reshape_shape _ _ _ Hlu) as (v & Elu).
  cbn [fill_infer map] in Elu.
  destruct (@qr_shape _ _ _ _ _ Elu Hqr) as (EQ & _).
  apply reshape_exact_shape in Hc'.
  rewrite (@tdim3_shape c Dc) in Hc'. cbn [removelast app] in Hc'.
  assert (Hc3 : tdim c' = 3 /\ shr c' 1 <= shr c 1).
  { unfold shr at 1, tdim. rewrite Hc'. cbn [length Nat.sub nth].
    split; [reflexivity|]. unfold sh. rewrite EQ. cbn [nth].
    apply Nat.le_min_r. }
  destruct Hc3 as (Dc' & Sc').
  assert (R2 : ranks_le cs1 (cores s1))
    by (eapply ranks_le_set; eassumption).
  pose proof (@ranks_le_dims _ _ R2) as D2.
  (* the core [mu + 1] *)
  pose proof (@Forall_nth_tnil _ _ _ D2 Hcn) as Dcn.
  apply reshape_exact_shape in Hcn'.
  rewrite (@tdim3_shape cn Dcn) in Hcn'. cbn [tl] in Hcn'.
  assert (Hcn3 : tdim cn' = 3 /\ shr cn' 1 <= shr cn 1).
  { unfold shr at 1, tdim. rewrite Hcn'. cbn [length Nat.sub nth].
    split; [reflexivity|]. rewrite (@shr1_3 cn Dcn). lia. }
  destruct Hcn3 as (Dcn' & Scn').
  assert (R3 : ranks_le cs2 cs1)
    by (eapply ranks_le_set; eassumption).
  apply (@ranks_le_trans _ _ _ R3), (@ranks_le_trans _ _ _ R2), R1.
Qed.

Lemma round_tt_step_ranks (delta : R) (rmax : list (option nat))
  (self self' : Tensor) (mu : nat) :
  Forall (fun c => tdim c = 3) (cores self) ->
  round_tt_step delta rmax self mu = Ok self' ->
  ranks_le (cores self') (cores self).
Proof.
  intros HD H. unfold round_tt_step in H.
  bind_as H c Hc. pose proof (@Forall_nth_tnil _ _ _ HD Hc) as Dc.
  bind_as H M HM. bind_as H rm Hrm. bind_as H lr Hsvd.
  destruct lr as (lft & rgt).
  bind_as H c' Hc'. bind_as H cs1 Hcs1. bind_as H cp Hcp.
  bind_as H cp' Hcp'. bind_as H cs2 Hcs2. inversion H. subst self'.
  cbn [cores].
  (* the core [mu] keeps its last two sizes *)
  destruct (@reshape_shape _ _ _ Hc') as (v & Ec').
  cbn [fill_infer map] in Ec'.
  assert (Hc3 : tdim c' = 3 /\ shr c' 1 <= shr c 1).
  { unfold shr at 1, tdim. rewrite Ec'. cbn [length Nat.sub nth].
    split; [reflexivity|]. rewrite (@shr1_3 c Dc). lia. }
  destruct Hc3 as (Dc' & Sc').
  assert (R1 : ranks_le cs1 (cores self))
    by (eapply ranks_le_set; eassumption).
  pose proof (@ranks_le_dims _ _ R1) as D1.
  (* the core [mu - 1] takes the rank the factorization kept *)
  pose proof (@Forall_nth_tnil _ _ _ D1 Hcp) as Dcp.
  destruct (@reshape_shape _ _ _ HM) as (y & EM).
  cbn [fill_infer map] in EM.
  destruct (@svd_shape _ _ _ _ _ _ _ _ EM Hsvd) as (k & Hk & El & Er).
  assert (Hcp3 : tdim cp' = 3 /\ shr cp' 1 <= shr cp 1).
  { unfold einsum_ijk_kl in Hcp'. rewrite (@shr1_3 cp Dcp).
    rewrite (@tdim3_shape cp Dcp), El in Hcp'.
    destruct (sh cp 2 =? sh c 0) eqn:Ek; [|discriminate Hcp'].
    apply Nat.eqb_eq in Ek. inversion Hcp'.
    unfold shr, tdim. cbn [build3 build tshape length Nat.sub nth].
    split; [reflexivity|]. pose proof (Nat.le_min_l (sh c 0) y). lia. }
  destruct Hcp3 as (Dcp' & Scp').
  assert (R2 : ranks_le cs2 cs1)
    by (eapply ranks_le_set; eassumption).
  apply (@ranks_le_trans _ _ _ R2), R1.
Qed.

Lemma foldM_invariant (A S : Type) (body : S -> A -> result S)
  (Inv : S -> Prop) (l : list A) :
  (forall s k s', Inv s -> body s k = Ok s' -> Inv s') ->
  forall s0 sf, Inv s0 -> foldM body l s0 = Ok sf -> Inv sf.
Proof.
  intros Hstep. induction l as [|k l IH]; intros s0 sf H0 Hf.
  - inversion Hf. subst. exact H0.
  - cbn [foldM] in Hf. destruct (body s0 k) as [s1|] eqn:E1;
      [|discriminate Hf]. cbn [bind] in Hf.
    apply (IH s1 sf); [|exact Hf]. apply (Hstep s0 k s1 H0 E1).
Qed.

(** *** [_cp_to_tt] on the whole network *)

Lemma cp_to_tt_rank (f c : tensor) :
  _cp_to_tt f = Ok c -> tdim c = 3 /\ shr c 1 = shr f 1.
Proof.
  intros H. split; [apply (cp_to_tt_dim _ H)|]. revert H.
  unfold _cp_to_tt. destruct (tshape f) as [|a [|b [|c0 [|? ?]]]] eqn:E;
    try discriminate.
  - unfold transpose. rewrite E. cbn [bind].
    rewrite reshape_exact by (unfold build3, build; simpl; lia).
    cbn [bind]. unfold permute021. cbn [tshape bind].
    unfold drop_last_row, build3, build. cbn [tshape].
    intros H. inversion H. unfold shr, tdim. rewrite E. reflexivity.
  - intros H. inversion H. reflexivity.
Qed.

Lemma core_dims_ok_nth (cs : list tensor) (n : nat) :
  core_dims_ok cs = true -> n < length cs ->
  tdim (nth n cs tnil) = 2 \/ tdim (nth n cs tnil) = 3.
Proof.
  unfold core_dims_ok. intros H Hn. rewrite forallb_forall in H.
  specialize (H (nth n cs tnil) (nth_In _ _ Hn)).
  apply andb_true_iff in H. destruct H as (H1 & H2).
  apply Nat.leb_le in H1. apply Nat.leb_le in H2. lia.
Qed.

(** The cores while [_cp_to_tt()] runs: as many as before, each with 2 or
    3 indices and the last size it had; the first [k] of them are TT
    cores. *)
Definition converting (cs0 : list tensor) (k : nat) (cs : list tensor)
  : Prop :=
  length cs = length cs0
  /\ (forall n, n < length cs0 ->
                tdim (nth n cs tnil) = 2 \/ tdim (nth n cs tnil) = 3)
  /\ (forall n, shr (nth n cs tnil) 1 = shr (nth n cs0 tnil) 1)
  /\ (forall n, n < k -> n < length cs0 -> tdim (nth n cs tnil) = 3).

Lemma converting_set (cs0 cs cs' : list tensor) (k : nat) (c v : tensor) :
  converting cs0 k cs ->
  get_item cs k = Ok c -> set_item cs k v = Ok cs' ->
  tdim v = 3 -> shr v 1 = shr c 1 ->
  converting cs0 (S k) cs'.
Proof.
  intros (L & D & S3 & T) Hg Hs Dv Sv.
  pose proof (@get_item_nth_eq _ _ _ _ tnil Hg) as Ec.
  split; [rewrite (@set_item_length _ _ _ _ _ Hs); exact L|].
  split; [|split].
  - intros n Hn. rewrite (@set_item_nth _ _ _ _ n _ tnil Hs).
    destruct (n =? k); [right; exact Dv | apply D, Hn].
  - intros n. rewrite (@set_item_nth _ _ _ _ n _ tnil Hs).
    destruct (n =? k) eqn:En; [|apply S3].
    apply Nat.eqb_eq in En. subst n. rewrite Sv, <- Ec. apply S3.
  - intros n Hn Hn'. rewrite (@set_item_nth _ _ _ _ n _ tnil Hs).
    destruct (n =? k) eqn:En; [exact Dv|].
    apply Nat.eqb_neq in En. apply T; lia.
Qed.

Lemma cp_to_tt_all_ranks (t t1 : Tensor) :
  core_dims_ok (cores t) = true -> cp_to_tt_all t = Ok t1 ->
  length (cores t1) = length (cores t)
  /\ Forall (fun c => tdim c = 3) (cores t1)
  /\ (forall n, n + 1 < length (cores t) ->
                shr (nth n (cores t1) tnil) 1 = shr (nth n (cores t) tnil) 1)
  /\ Us t1 = Us t.
Proof.
  intros Hok H. unfold cp_to_tt_all in H.
  set (cs0 := cores t) in *.
  bind_as H c0 Hc0. pose proof (@get_item_lt _ _ _ _ Hc0) as HN.
  pose proof (@get_item_nth_eq _ _ _ _ tnil Hc0) as Ec0.
  bind_as H cs1 Hcs1.
  assert (I0 : converting cs0 0 cs0).
  { split; [reflexivity|]. split; [intros n Hn; apply core_dims_ok_nth;
      assumption|]. split; [reflexivity|]. intros n Hn. lia. }
  (* the first core *)
  assert (I1 : converting cs0 1 cs1).
  { destruct (tdim c0 =? 2) eqn:D0.
    - apply Nat.eqb_eq in D0.
      apply (@converting_set cs0 cs0 cs1 0 c0 (unsqueeze_first c0) I0 Hc0
               Hcs1).
      + unfold tdim, unsqueeze_first. cbn [tshape length]. fold (tdim c0).
        lia.
      + unfold shr, tdim, unsqueeze_first. cbn [tshape length].
        fold (tdim c0). rewrite D0. reflexivity.
    - inversion Hcs1. subst cs1. apply Nat.eqb_neq in D0.
      destruct I0 as (L & D & S3 & T). split; [exact L|].
      split; [exact D|]. split; [exact S3|]. intros n Hn Hn'.
      assert (n = 0) by lia. subst n. destruct (D 0 Hn') as [D2|D3];
        [|exact D3]. rewrite Ec0 in D2. congruence. }
  clear Hcs1.
  (* the cores between the first and the last *)
  bind_as H cs2 Hcs2.
  assert (I2 : converting cs0 (1 + (length cs1 - 2)) cs2).
  { eapply foldM_seq_partial with (Inv := converting cs0);
      [exact I1 | | exact Hcs2].
    intros k s s' Hk Is Hs. cbn beta in Hs.
    bind_as Hs c Hc. bind_as Hs c' Hc'.
    destruct (cp_to_tt_rank _ Hc') as (Dc' & Sc').
    apply (@converting_set cs0 s s' k c c' Is Hc Hs Dc' Sc'). }
  clear Hcs2.
  (* the last core *)
  bind_as H cl Hcl. bind_as H cs3 Hcs3. inversion H. subst t1.
  cbn [cores Us]. clear H.
  destruct I1 as (L1 & _). destruct I2 as (L2 & D2 & S2 & T2).
  rewrite L1 in T2.
  assert (Hcl' : get_item cs2 (length cs0 - 1) = Ok cl).
  { unfold get_last in Hcl. destruct cs2; [discriminate Hcl|].
    rewrite <- L2. exact Hcl. }
  pose proof (@get_item_nth_eq _ _ _ _ tnil Hcl') as Ecl.
  assert (Hfin : length cs3 = length cs0
                 /\ (forall n, n < length cs0 -> tdim (nth n cs3 tnil) = 3)
                 /\ forall n, n + 1 < length cs0 ->
                              shr (nth n cs3 tnil) 1
                              = shr (nth n cs0 tnil) 1).
  { destruct (tdim cl =? 2) eqn:Dl.
    - apply Nat.eqb_eq in Dl. bind_as Hcs3 c' Hc'.
      assert (Hs : set_item cs2 (length cs0 - 1) c' = Ok cs3).
      { unfold set_last in Hcs3. destruct cs2; [discriminate Hcs3|].
        rewrite <- L2. exact Hcs3. }
      assert (Dc' : tdim c' = 3).
      { unfold transpose_unsqueeze in Hc'. bind_as Hc' ct Hct.
        inversion Hc'. unfold transpose in Hct.
        destruct (tshape cl) as [|a [|b [|? ?]]]; try discriminate Hct.
        inversion Hct. reflexivity. }
      split; [rewrite (@set_item_length _ _ _ _ _ Hs); exact L2|].
      split.
      + intros n Hn. rewrite (@set_item_nth _ _ _ _ n _ tnil Hs).
        destruct (n =? length cs0 - 1) eqn:En; [exact Dc'|].
        apply Nat.eqb_neq in En. apply T2; lia.
      + intros n Hn. rewrite (@set_item_nth _ _ _ _ n _ tnil Hs).
        replace (n =? length cs0 - 1) with false
          by (symmetry; apply Nat.eqb_neq; lia).
        apply S2.
    - inversion Hcs3. subst cs3. apply Nat.eqb_neq in Dl.
      split; [exact L2|]. split; [|intros n _; apply S2].
      intros n Hn. destruct (Nat.eq_dec n (length cs0 - 1)) as [->|Hne];
        [|apply T2; lia].
      destruct (D2 (length cs0 - 1) Hn) as [D|D]; [|exact D].
      rewrite Ecl in D. congruence. }
  destruct Hfin as (L3 & D3 & S3).
  split; [exact L3|]. split; [|split; [exact S3|reflexivity]].
  apply Forall_nth. intros i d Hi. rewrite (nth_indep _ d tnil Hi).
  apply D3. lia.
Qed.

Lemma right_orthogonalize_ranks (self self' : Tensor) (mu : Z) (L : tensor) :
  Forall (fun c => tdim c = 3) (cores self) ->
  right_orthogonalize self mu = Ok (self', L) ->
  ranks_le (cores self') (cores self).
Proof.
  intros HD H. unfold right_orthogonalize in H.
  bind_as H u Hu. bind_as H s1 Hs1.
  assert (R1 : ranks_le (cores s1) (cores self))
    by (eapply factor_orthogonalize_ranks; eassumption).
  pose proof (@ranks_le_dims _ _ R1) as D1.
  bind_as H c Hc.
  pose proof (@Forall_nth_tnil _ _ _ D1 Hc) as Dc.
  bind_as H ru Hru. bind_as H rut Hrut. bind_as H qrf Hqr.
  destruct qrf as (Q & L0).
  bind_as H L1 HL1. bind_as H Q1 HQ1.
  bind_as H c' Hc'. bind_as H cs1 Hcs1.
  bind_as H cp Hcp. bind_as H lu Hlu. bind_as H p Hp.
  bind_as H cp' Hcp'. bind_as H cs2 Hcs2.
  inversion H. subst self' L1. cbn [cores].
  (* the core [mu] keeps its last two sizes *)
  apply reshape_exact_shape in Hc'.
  rewrite (@tdim3_shape c Dc) in Hc'. cbn [tl] in Hc'.
  assert (Hc3 : tdim c' = 3 /\ shr c' 1 <= shr c 1).
  { unfold shr at 1, tdim. rewrite Hc'. cbn [length Nat.sub nth].
    split; [reflexivity|]. rewrite (@shr1_3 c Dc). lia. }
  destruct Hc3 as (Dc' & Sc').
  assert (R2 : ranks_le cs1 (cores s1))
    by (eapply ranks_le_set; eassumption).
  pose proof (@ranks_le_dims _ _ R2) as D2.
  (* the core [mu - 1] takes the rank of the factor [L] *)
  pose proof (@Forall_nth_tnil _ _ _ D2 Hcp) as Dcp.
  destruct (@reshape_shape _ _ _ Hru) as (y & Eru).
  cbn [fill_infer map] in Eru.
  assert (Erut : tshape rut = [y; sh c 0]).
  { unfold transpose in Hrut. rewrite Eru in Hrut. inversion Hrut.
    reflexivity. }
  destruct (@qr_shape _ _ _ _ _ Erut Hqr) as (_ & EL0).
  assert (EL : tshape L = [sh c 0; Nat.min y (sh c 0)]).
  { unfold transpose in HL1. rewrite EL0 in HL1. inversion HL1.
    reflexivity. }
  destruct (@reshape_shape _ _ _ Hlu) as (x & Elu).
  cbn [fill_infer map] in Elu.
  assert (Ecp : shr cp 1 = sh c 0).
  { unfold mm in Hp. rewrite Elu, EL in Hp.
    destruct (shr cp 1 =? sh c 0) eqn:Ek; [|discriminate Hp].
    apply Nat.eqb_eq in Ek. exact Ek. }
  apply reshape_exact_shape in Hcp'.
  rewrite (@tdim3_shape cp Dcp) in Hcp'. cbn [removelast app] in Hcp'.
  assert (Hcp3 : tdim cp' = 3 /\ shr cp' 1 <= shr cp 1).
  { unfold shr at 1, tdim. rewrite Hcp'. cbn [length Nat.sub nth].
    split; [reflexivity|]. unfold sh at 1. rewrite EL. cbn [nth].
    rewrite Ecp. apply Nat.le_min_r. }
  destruct Hcp3 as (Dcp' & Scp').
  assert (R3 : ranks_le cs2 cs1)
    by (eapply ranks_le_set; eassumption).
  apply (@ranks_le_trans _ _ _ R3), (@ranks_le_trans _ _ _ R2), R1.
Qed.

(** What [_cp_to_tt()] leaves of the ranks between two cores, composed
    with what follows it. *)
Definition bonds_le (cs' cs : list tensor) : Prop :=
  length cs' = length cs
  /\ Forall (fun c => tdim c = 3) cs'
  /\ forall n, n + 1 < length cs ->
               shr (nth n cs' tnil) 1 <= shr (nth n cs tnil) 1.

Lemma bonds_le_after (cs2 cs1 cs0 : list tensor) :
  ranks_le cs2 cs1 -> bonds_le cs1 cs0 -> bonds_le cs2 cs0.
Proof.
  intros (L2 & D2 & H2) (L1 & D1 & H1). split; [congruence|].
  split; [exact D2|]. intros n Hn. specialize (H2 n).
  specialize (H1 n Hn). lia.
Qed.

Lemma dims3_ok (cs : list tensor) :
  Forall (fun c => tdim c = 3) cs -> core_dims_ok cs = true.
Proof.
  intros H. unfold core_dims_ok. apply forallb_forall. intros c Hc.
  rewrite Forall_forall in H. rewrite (H c Hc). reflexivity.
Qed.

Lemma orthogonalize_bonds (self self' : Tensor) (mu : Z)
  (RL : tensor * tensor) :
  core_dims_ok (cores self) = true ->
  orthogonalize self mu = Ok (self', RL) ->
  bonds_le (cores self') (cores self).
Proof.
  intros Hok H. unfold orthogonalize in H.
  bind_as H s1 Hs1.
  destruct (cp_to_tt_all_ranks _ Hok Hs1) as (L1 & D1 & S1 & _).
  assert (B1 : bonds_le (cores s1) (cores self)).
  { split; [exact L1|]. split; [exact D1|]. intros n Hn.
    rewrite (S1 n Hn). lia. }
  bind_as H st2 Hst2. destruct st2 as (s2 & Rf).
  assert (R2 : ranks_le (cores s2) (cores s1)).
  { apply (@foldM_invariant _ _ _
             (fun st => ranks_le (cores (fst st)) (cores s1)) _
             ) with (s0 := (s1, ones [1; 1])) (sf := (s2, Rf)) in Hst2.
    - exact Hst2.
    - intros s k s' Is Hs. cbn beta in Hs. bind_as Hs r Hr.
      inversion Hs. subst s'. destruct r as (sr & Rr). cbn [fst].
      apply (@ranks_le_trans _ (cores (fst s)) _); [|exact Is].
      eapply left_orthogonalize_ranks; [|exact Hr].
      apply (@ranks_le_dims _ _ Is).
    - apply ranks_le_refl, D1. }
  bind_as H st3 Hst3. destruct st3 as (s3 & L). inversion H.
  subst self' RL. clear H.
  assert (R3 : ranks_le (cores s3) (cores s2)).
  { apply (@foldM_invariant _ _ _
             (fun st => ranks_le (cores (fst st)) (cores s2)) _
             ) with (s0 := (s2, ones [1; 1])) (sf := (s3, L)) in Hst3.
    - exact Hst3.
    - intros s k s' Is Hs. cbn beta in Hs. bind_as Hs r Hr.
      inversion Hs. subst s'. destruct r as (sr & Lr). cbn [fst].
      apply (@ranks_le_trans _ (cores (fst s)) _); [|exact Is].
      eapply right_orthogonalize_ranks; [|exact Hr].
      apply (@ranks_le_dims _ _ Is).
    - apply ranks_le_refl, (@ranks_le_dims _ _ R2). }
  apply (@bonds_le_after _ _ _ (@ranks_le_trans _ _ _ R3 R2) B1).
Qed.

Lemma round_tt_bonds (self self' : Tensor) (eps : R)
  (rmax : option rank_arg) :
  core_dims_ok (cores self) = true ->
  round_tt self eps rmax = Ok self' ->
  bonds_le (cores self') (cores self).
Proof.
  intros Hok H. unfold round_tt in H.
  bind_as H u Hu. bind_as H s1 Hs1.
  destruct (cp_to_tt_all_ranks _ Hok Hs1) as (L1 & D1 & S1 & _).
  assert (B1 : bonds_le (cores s1) (cores self)).
  { split; [exact L1|]. split; [exact D1|]. intros n Hn.
    rewrite (S1 n Hn). lia. }
  bind_as H st2 Hst2. destruct st2 as (s2 & RL).
  assert (B2 : bonds_le (cores s2) (cores s1))
    by (eapply orthogonalize_bonds; [apply dims3_ok, D1 | exact Hst2]).
  bind_as H cl Hcl.
  set (delta := rdiv eps (max1 (rsqrt (of_nat (dim self - 1)))) *! norm cl)
    in H.
  assert (R3 : ranks_le (cores self') (cores s2)).
  { apply (@foldM_invariant _ _ _
             (fun s => ranks_le (cores s) (cores s2)) _
             ) with (s0 := s2) (sf := self') in H.
    - exact H.
    - intros s k s' Is Hs.
      apply (@ranks_le_trans _ (cores s) _); [|exact Is].
      eapply round_tt_step_ranks; [|exact Hs].
      apply (@ranks_le_dims _ _ Is).
    - destruct B2 as (_ & D2 & _). apply ranks_le_refl, D2. }
  apply (@bonds_le_after _ _ _ R3).
  destruct B2 as (L2 & D2 & H2). destruct B1 as (L1' & _ & H1).
  split; [congruence|]. split; [exact D2|]. intros n Hn.
  specialize (H2 n). rewrite L1 in H2. specialize (H2 Hn).
  specialize (H1 n Hn). lia.
Qed.

Lemma ranks_tt_nth (t : Tensor) :
  cores t <> [] ->
  exists r, ranks_tt t = Ok r
            /\ length r = S (dim t)
            /\ forall n, nth (S n) r 0 = shr (nth n (cores t) tnil) 1.
Proof.
  intros Hne. unfold ranks_tt, dim.
  destruct (cores t) as [|c0 cs] eqn:E; [congruence|].
  eexists. split; [reflexivity|]. split; [cbn; rewrite length_map; reflexivity|].
  intros n. set (l := c0 :: cs).
  change (nth n (map (fun c => shr c 1) l) ((fun c => shr c 1) tnil)
          = shr (nth n l tnil) 1).
  apply map_nth.
Qed.

Lemma bonds_le_ranks_tt (t t' : Tensor) :
  cores t <> [] -> bonds_le (cores t') (cores t) ->
  dim t' = dim t
  /\ Forall (fun c => tdim c = 3) (cores t')
  /\ exists r r',
       ranks_tt t = Ok r /\ ranks_tt t' = Ok r'
       /\ forall n, 1 <= n < dim t -> nth n r' 0 <= nth n r 0.
Proof.
  intros Hne (L & D & H). split; [exact L|]. split; [exact D|].
  assert (Hne' : cores t' <> []).
  { intros E. rewrite E in L. destruct (cores t); [congruence|].
    discriminate L. }
  destruct (@ranks_tt_nth t Hne) as (r & Er & _ & Hr).
  destruct (@ranks_tt_nth t' Hne') as (r' & Er' & _ & Hr').
  exists r, r'. split; [exact Er|]. split; [exact Er'|].
  intros [|n] Hn; [lia|]. rewrite Hr, Hr'. apply H. unfold dim in Hn. lia.
Qed.

(** X1: [round_tt(eps, rmax)] on a network whose cores have 2 or 3
    indices: when it returns, the network has as many cores as before, all
    of them TT cores, and no rank between two consecutive cores (the
    entries 1 .. N-1 of [ranks_tt]) is larger than it was, whatever [eps]
    and [rmax] are; [torch.qr] and [tn.truncated_svd] are taken to return
    factors of the shapes of a reduced QR and of a truncated SVD. *)
Theorem round_tt_never_raises_ranks (self self' : Tensor) (eps : R)
  (rmax : option rank_arg) :
  core_dims_ok (cores self) = true ->
  round_tt self eps rmax = Ok self' ->
  dim self' = dim self
  /\ Forall (fun c => tdim c = 3) (cores self')
  /\ exists r r',
       ranks_tt self = Ok r /\ ranks_tt self' = Ok r'
       /\ forall n, 1 <= n < dim self -> nth n r' 0 <= nth n r 0.
Proof.
  intros Hok H.
  assert (B : bonds_le (cores self') (cores self))
    by (eapply round_tt_bonds; eassumption).
  apply bonds_le_ranks_tt; [|exact B].
  intros E. destruct B as (L & _). unfold round_tt in H.
  bind_as H u Hu. bind_as H s1 Hs1. unfold cp_to_tt_all in Hs1.
  rewrite E in Hs1. discriminate Hs1.
Qed.

(** X2: [orthogonalize(mu)], for every [mu], on a network whose cores have
    2 or 3 indices: when it returns, every core is a TT core and no rank
    between two consecutive cores is larger than it was (the QR
    factorizations of [left_orthogonalize] and [right_orthogonalize] can
    only lower a rank). *)
Theorem orthogonalize_never_raises_ranks (self self' : Tensor) (mu : Z)
  (RL : tensor * tensor) :
  core_dims_ok (cores self) = true ->
  orthogonalize self mu = Ok (self', RL) ->
  dim self' = dim self
  /\ Forall (fun c => tdim c = 3) (cores self')
  /\ exists r r',
       ranks_tt self = Ok r /\ ranks_tt self' = Ok r'
       /\ forall n, 1 <= n < dim self -> nth n r' 0 <= nth n r 0.
Proof.
  intros Hok H.
  assert (B : bonds_le (cores self') (cores self))
    by (eapply orthogonalize_bonds; eassumption).
  apply bonds_le_ranks_tt; [|exact B].
  intros E. unfold orthogonalize in H.
  bind_as H s1 Hs1. unfold cp_to_tt_all in Hs1.
  rewrite E in Hs1. discriminate Hs1.
Qed.

End RoundRanks.

(** ** What [_process_key] accepts and returns *)

Lemma expand_two_ellipses (key : list key_item) (fill : nat) :
  1 < length (filter is_ellipsis key) ->
  existsb is_ellipsis (expand_ellipsis key fill) = true.
Proof.
  induction key as [|k key IH]; [simpl; lia|]. intros H.
  destruct k; cbn [filter is_ellipsis length] in H;
    cbn [expand_ellipsis existsb is_ellipsis orb]; try (apply IH, H).
  rewrite existsb_app, existsb_repeat_slice. cbn [orb].
  destruct (existsb is_ellipsis key) eqn:E; [reflexivity|].
  exfalso. assert (length (filter is_ellipsis key) = 0); [|lia].
  clear - E. induction key as [|k key IH]; [reflexivity|].
  cbn [existsb] in E. apply orb_false_iff in E. destruct E as (E1 & E2).
  cbn [filter]. rewrite E1. apply IH, E2.
Qed.

Lemma filter_repeat_slice (n : nat) :
  filter takes_axis (repeat full_slice n) = repeat full_slice n
  /\ filter is_none (repeat full_slice n) = [].
Proof.
  induction n as [|n (I1 & I2)]; [split; reflexivity|].
  cbn [repeat filter takes_axis is_none is_ellipsis full_slice orb negb].
  fold full_slice. rewrite I1, I2. split; reflexivity.
Qed.

Lemma expand_counts (key : list key_item) (fill : nat) :
  length (filter is_ellipsis key) = 1 ->
  length (filter takes_axis (expand_ellipsis key fill))
  = length (filter takes_axis key) + fill
  /\ filter is_none (expand_ellipsis key fill) = filter is_none key.
Proof.
  induction key as [|k key IH]; [discriminate|]. intros H.
  destruct k; cbn [filter is_ellipsis length] in H;
    cbn [expand_ellipsis filter takes_axis is_none is_ellipsis orb negb
         length];
    try (destruct (IH H) as (I1 & I2); rewrite I1, I2;
         split; reflexivity).
  rewrite !filter_app. destruct (filter_repeat_slice fill) as (F1 & F2).
  rewrite F1, F2, length_app, repeat_length. split; [lia|reflexivity].
Qed.

(** X3: [_process_key(key)] on a key that is a tuple raises [IndexError]
    exactly when the key holds more than one [Ellipsis] or more entries
    that take an axis (entries other than [None] and [Ellipsis]) than the
    network has axes.  Otherwise it returns the key with its [Ellipsis]
    replaced by full slices, or followed by full slices when it has none,
    so that the result has no [Ellipsis], the entries [None] of the key,
    and exactly [dim()] entries that take an axis. *)
Theorem process_key_spec (t : Tensor) (key : list key_item) :
  let used := length (filter takes_axis key) in
  let ellipses := length (filter is_ellipsis key) in
  (1 < ellipses \/ dim t < used -> _process_key t key = Raise IndexError)
  /\ (ellipses <= 1 -> used <= dim t ->
      exists key',
        _process_key t key = Ok key'
        /\ key' = (if ellipses =? 0
                   then key ++ repeat full_slice (dim t - used)
                   else expand_ellipsis key (dim t - used))
        /\ existsb is_ellipsis key' = false
        /\ filter is_none key' = filter is_none key
        /\ length (filter takes_axis key') = dim t).
Proof.
  intros used ellipses. pose proof (key_count key) as Hcnt.
  fold used ellipses in Hcnt.
  set (nn := length (filter is_none key)) in *.
  split.
  - intros Hbad. unfold _process_key. fold nn.
    destruct (Nat.lt_ge_cases 1 ellipses) as [H2|H1].
    + rewrite (expand_two_ellipses _ _ H2). reflexivity.
    + destruct Hbad as [Hbad|Hbad]; [lia|].
      destruct ellipses as [|[|m]] eqn:He; [| |lia].
      * rewrite (expand_no_ellipsis _ _ He).
        rewrite (filter_none_existsb _ _ He).
        replace (Z.of_nat (dim t) - (Z.of_nat (length key) - Z.of_nat nn)
                 <? 0)%Z with true by (symmetry; apply Z.ltb_lt; lia).
        reflexivity.
      * replace (Z.to_nat (Z.of_nat (dim t)
                           - (Z.of_nat (length key) - Z.of_nat nn) + 1))
          with 0 by lia.
        destruct (expand_one_ellipsis key 0 He) as (E1 & E2).
        rewrite E1.
        replace (Z.of_nat (dim t)
                 - (Z.of_nat (length (expand_ellipsis key 0))
                    - Z.of_nat nn) <? 0)%Z
          with true by (symmetry; apply Z.ltb_lt; lia).
        reflexivity.
  - intros H1 Hu.
    assert (Hexp : np_expand (dim t) key
                   = Ok (if ellipses =? 0
                         then key ++ repeat full_slice (dim t - used)
                         else expand_ellipsis key (dim t - used))).
    { unfold np_expand. fold used ellipses.
      replace (dim t <? used) with false
        by (symmetry; apply Nat.ltb_ge; exact Hu).
      destruct ellipses as [|[|m]]; [reflexivity|reflexivity|lia]. }
    eexists. split; [apply (process_key_expand _ _ Hexp)|].
    split; [reflexivity|].
    destruct ellipses as [|[|m]] eqn:He; [| |lia]; cbn [Nat.eqb].
    + destruct (filter_repeat_slice (dim t - used)) as (F1 & F2).
      rewrite existsb_app, existsb_repeat_slice,
        (filter_none_existsb _ _ He), !filter_app, F1, F2, app_nil_r,
        length_app, repeat_length.
      fold used. repeat split. lia.
    + destruct (expand_one_ellipsis key (dim t - used) He) as (E1 & _).
      destruct (expand_counts key (dim t - used) He) as (C1 & C2).
      rewrite E1, C1, C2. fold used. repeat split. lia.
Qed.

(** ** Networks of the constructor decompress *)

(** X4: [torch()] returns an array exactly when the network has a core,
    its Tucker factors contract into its cores, and the contracted cores
    chain up with ranks that are not zero; the array then has the shape
    the property [shape] gives, and its entry at a multi-index is the sum
    of the components of the vector of ones taken through the cores at
    that multi-index. *)
Theorem torch_returns_iff (t : Tensor) (A : tensor) :
  (torch t = Ok A
   <-> exists ds, valid t ds /\ A = build (map mid ds) (entry ds))
  /\ (torch t = Ok A -> shape t = Ok (tshape A)).
Proof.
  split; [split|].
  - apply torch_inv.
  - intros (ds & Hv & ->). apply torch_spec, Hv.
  - intros H. destruct (@torch_inv _ _ H) as (ds & (_ & Hd & _) & ->).
    unfold shape. apply (@shape_decompress _ _ _ Hd).
Qed.

Lemma check_factors_decompress (cs : list tensor) :
  forall us,
    core_dims_ok cs = true -> check_factors cs us = Ok tt ->
    exists ds, decompress_cores cs us = Ok ds.
Proof.
  induction cs as [|c cs IH]; intros us Hd Hc; [exists []; reflexivity|].
  cbn [core_dims_ok forallb] in Hd. apply andb_true_iff in Hd.
  destruct Hd as (Dc & Hd). fold (core_dims_ok cs) in Hd.
  cbn [check_factors] in Hc. destruct us as [|[u|] us]; [discriminate Hc| |].
  - bind_inv Hc. bind_inv Hc.
    unfold assert in E, E0.
    destruct (tdim u =? 2) eqn:Du; [|discriminate E].
    destruct (shr c 2 =? sh u 1) eqn:Eu; [|discriminate E0].
    apply Nat.eqb_eq in Du. apply Nat.eqb_eq in Eu.
    destruct (IH us Hd Hc) as (ds & Hds).
    cbn [decompress_cores]. rewrite Hds.
    apply andb_true_iff in Dc. destruct Dc as (D2 & D3).
    apply Nat.leb_le in D2. apply Nat.leb_le in D3.
    unfold sh in Eu. unfold tdim in Du.
    destruct (tshape u) as [|a [|j' [|? ?]]] eqn:Eus; try discriminate Du.
    cbn [nth] in Eu. unfold shr in Eu. unfold tdim in *.
    destruct (tshape c) as [|p [|q [|r [|? ?]]]] eqn:Ecs;
      cbn [length] in D2, D3; try lia;
      cbn [length Nat.sub nth Nat.eqb] in *; subst j'.
    + unfold einsum_jk_aj_ak. rewrite Ecs, Eus, Nat.eqb_refl.
      cbn [bind]. eexists. reflexivity.
    + unfold einsum_ijk_aj_iak. rewrite Ecs, Eus, Nat.eqb_refl.
      cbn [bind]. eexists. reflexivity.
  - destruct (IH us Hd Hc) as (ds & Hds).
    cbn [decompress_cores]. rewrite Hds. cbn [bind]. eexists. reflexivity.
Qed.

Lemma out_rank_shr (last : bool) (c : tensor) :
  (tdim c = 2 \/ tdim c = 3) -> shr c 1 <> 0 ->
  out_rank last c <> 0 /\ out_rank false c = shr c 1.
Proof.
  intros D H. unfold out_rank, shr, tdim in *.
  destruct (tshape c) as [|x [|y [|z [|? ?]]]]; cbn [length] in D;
    try (destruct D; discriminate); cbn [length Nat.sub nth] in *.
  - split; [destruct last; [discriminate|exact H]|reflexivity].
  - split; [exact H|reflexivity].
Qed.

(** The checks of the constructor make the cores chain. *)
Lemma checks_chain (ds : list tensor) :
  core_dims_ok ds = true -> core_ranks_ok ds = true ->
  Forall (fun c => shr c 1 <> 0) ds ->
  chain false (in_rank (hd tnil ds)) ds.
Proof.
  induction ds as [|d ds IH]; intros Hd Hr Hz; [exact I|].
  cbn [core_dims_ok forallb] in Hd. apply andb_true_iff in Hd.
  destruct Hd as (Dd & Hd). fold (core_dims_ok ds) in Hd.
  apply andb_true_iff in Dd. destruct Dd as (D2 & D3).
  apply Nat.leb_le in D2. apply Nat.leb_le in D3.
  assert (Dd : tdim d = 2 \/ tdim d = 3) by lia.
  inversion Hz as [|? ? Hzd Hz']. subst.
  cbn [hd chain]. split; [exact Dd|]. split; [reflexivity|].
  destruct ds as [|d' ds].
  - cbn [is_last is_nil]. split; [|exact I].
    apply (@out_rank_shr true d Dd Hzd).
  - cbn [is_last is_nil].
    destruct (@out_rank_shr false d Dd Hzd) as (O1 & O2).
    split; [exact O1|]. rewrite core_ranks_ok_cons in Hr.
    apply andb_true_iff in Hr. destruct Hr as (Hr1 & Hr).
    assert (E : out_rank false d = in_rank d').
    { rewrite O2. cbn [core_dims_ok forallb] in Hd.
      apply andb_true_iff in Hd. destruct Hd as (Dd' & _).
      apply andb_true_iff in Dd'. destruct Dd' as (D2' & D3').
      apply Nat.leb_le in D2'. apply Nat.leb_le in D3'.
      apply negb_true_iff, orb_false_iff in Hr1. destruct Hr1 as (H3 & H2).
      unfold in_rank, sh, tdim in *.
      destruct (tshape d') as [|x [|y [|z [|? ?]]]]; cbn [length] in *;
        try lia.
      - cbn [Nat.eqb andb nth] in H2. apply negb_false_iff, Nat.eqb_eq in H2.
        exact H2.
      - cbn [Nat.eqb andb nth] in H3. apply negb_false_iff, Nat.eqb_eq in H3.
        exact H3. }
    rewrite E. apply (IH Hd Hr Hz').
Qed.

Lemma same_ends_dims_ranks (cs ds : list tensor) :
  Forall2 same_ends cs ds ->
  core_dims_ok cs = true -> core_ranks_ok cs = true ->
  Forall (fun c => shr c 1 <> 0) cs ->
  core_dims_ok ds = true /\ core_ranks_ok ds = true
  /\ Forall (fun c => shr c 1 <> 0) ds.
Proof.
  induction 1 as [|c d cs ds (Hd & Hr & Hi) HF IH]; intros D1 D2 Hz;
    [repeat split; constructor|].
  cbn [core_dims_ok forallb] in D1. apply andb_true_iff in D1.
  destruct D1 as (Dc & D1). fold (core_dims_ok cs) in D1.
  inversion Hz as [|? ? Hzc Hz']. subst.
  assert (D2' : core_ranks_ok cs = true).
  { destruct cs as [|c' cs]; [reflexivity|].
    rewrite core_ranks_ok_cons in D2. apply andb_true_iff in D2. apply D2. }
  destruct (IH D1 D2' Hz') as (I1 & I2 & I3).
  split; [|split].
  - cbn [core_dims_ok forallb]. fold (core_dims_ok ds). rewrite I1, Hd, Dc.
    reflexivity.
  - inversion HF as [|c' d' cs' ds' (Hd' & Hr' & Hi') HF']; subst;
      [reflexivity|].
    rewrite core_ranks_ok_cons in *. rewrite I2, andb_true_r.
    apply andb_true_iff in D2. destruct D2 as (D2 & _).
    cbn [core_dims_ok forallb] in D1. apply andb_true_iff in D1.
    destruct D1 as (Dc' & _). apply andb_true_iff in Dc'.
    destruct Dc' as (E2 & E3). apply Nat.leb_le in E2.
    apply Nat.leb_le in E3.
    rewrite Hr, Hd'.
    replace (sh d' 0) with (if tdim c' =? 3 then sh c' 0 else sh d' 0).
    2:{ destruct (tdim c' =? 3) eqn:E; [|reflexivity].
        apply Nat.eqb_eq in E. unfold in_rank, sh, tdim in *.
        destruct (tshape c') as [|? [|? [|? [|? ?]]]]; try discriminate E.
        destruct (tshape d') as [|? [|? [|? [|? ?]]]]; try discriminate Hd'.
        cbn [nth]. congruence. }
    replace (sh d' 1) with (if tdim c' =? 2 then sh c' 1 else sh d' 1).
    2:{ destruct (tdim c' =? 2) eqn:E; [|reflexivity].
        apply Nat.eqb_eq in E. unfold in_rank, sh, tdim in *.
        destruct (tshape c') as [|? [|? [|? ?]]]; try discriminate E.
        destruct (tshape d') as [|? [|? [|? ?]]]; try discriminate Hd'.
        cbn [nth]. congruence. }
    destruct (tdim c' =? 3) eqn:E3'; destruct (tdim c' =? 2) eqn:E2';
      exact D2.
  - constructor; [rewrite Hr; exact Hzc | exact I3].
Qed.

(** X5: a network built by the constructor from a list of cores that is
    not empty, with the (optional) list of Tucker factors, decompresses
    whenever no core has a last size (the rank it hands on) of zero:
    [torch()] returns an array, and its shape is the one the property
    [shape] gives. *)
Theorem constructed_network_decompresses (data : list tensor)
  (us : option (list (option tensor))) (t : Tensor) :
  Tensor_of_cores data us = Ok t ->
  data <> [] -> Forall (fun c => shr c 1 <> 0) data ->
  exists A sp, torch t = Ok A /\ shape t = Ok sp /\ tshape A = sp.
Proof.
  intros H Hne Hz.
  destruct (@Tensor_of_cores_inv _ _ _ H) as (Ec & Eu & D1 & D2).
  assert (Hcf : check_factors (cores t) (Us t) = Ok tt).
  { unfold Tensor_of_cores in H. rewrite D1, D2 in H. cbn [negb] in H.
    bind_inv H. inversion H. cbn [cores Us]. destruct x. exact E. }
  rewrite <- Ec in D1, D2, Hz, Hne.
  destruct (@check_factors_decompress _ _ D1 Hcf) as (ds & Hds).
  pose proof (@decompress_same_ends _ _ _ Hds) as Hse.
  destruct (@same_ends_dims_ranks _ _ Hse D1 D2 Hz) as (E1 & E2 & E3).
  assert (Hv : valid t ds).
  { split; [|split; [exact Hds|apply checks_chain; assumption]].
    intros E. subst ds. inversion Hse as [E0|]. apply Hne. symmetry.
    exact E0. }
  exists (build (map mid ds) (entry ds)), (map mid ds).
  split; [apply torch_spec, Hv|]. split; [|reflexivity].
  unfold shape. apply (@shape_decompress _ _ _ Hds).
Qed.

(** ** A CP factor as a TT core *)

(** The diagonal core of a CP factor. *)
Lemma cp_to_tt_diag (f : tensor) (I0 R0 : nat) :
  tshape f = [I0; R0] ->
  exists c,
    _cp_to_tt f = Ok c /\ tshape c = [R0; I0; R0]
    /\ forall a i b, a < R0 -> i < I0 -> b < R0 ->
         get c [a; i; b] = if a =? b then get f [i; a] else rO.
Proof.
  intros E. unfold _cp_to_tt. rewrite E.
  unfold transpose. rewrite E. cbn [bind].
  rewrite reshape_exact by (unfold build3, build; simpl; lia).
  cbn [bind]. unfold permute021. cbn [tshape bind].
  unfold drop_last_row. cbn [build3 build tshape].
  eexists. split; [reflexivity|].
  replace (R0 + 1 - 1) with R0 by lia.
  split; [reflexivity|].
  intros a i b Ha Hi Hb.
  rewrite get_build3 by assumption.
  change (mkT [R0 + 1; I0; R0] (tab [R0 + 1; I0; R0] (ix3 ?g)))
    with (build3 (R0 + 1) I0 R0 g).
  rewrite get_build3 by (try assumption; lia).
  rewrite get_lin3. unfold build3 at 1. unfold build. cbn [tdata].
  destruct (a =? b) eqn:Eab.
  - apply Nat.eqb_eq in Eab. subst b.
    replace ((a * R0 + a) * I0 + i)
      with (ravel [R0; R0 + 1; I0] [a; 0; i])
      by (rewrite ravel3; do 2 f_equal; lia).
    rewrite nth_tab by (apply in_range3; lia).
    cbn [ix3 Nat.eqb]. apply get_build2; assumption.
  - apply Nat.eqb_neq in Eab.
    destruct (Nat.lt_ge_cases a b) as [Hlt|Hge].
    + replace ((a * R0 + b) * I0 + i)
        with (ravel [R0; R0 + 1; I0] [a; b - a; i])
        by (rewrite ravel3; do 2 f_equal; lia).
      rewrite nth_tab by (apply in_range3; lia).
      cbn [ix3]. replace (b - a =? 0) with false
        by (symmetry; apply Nat.eqb_neq; lia).
      reflexivity.
    + destruct a as [|a']; [lia|].
      replace ((S a' * R0 + b) * I0 + i)
        with (ravel [R0; R0 + 1; I0] [a'; R0 + 1 - (S a' - b); i])
        by (rewrite ravel3; do 2 f_equal; lia).
      rewrite nth_tab by (apply in_range3; lia).
      cbn [ix3]. replace (R0 + 1 - (S a' - b) =? 0) with false
        by (symmetry; apply Nat.eqb_neq; lia).
      reflexivity.
Qed.

(** X6: [_cp_to_tt(factor)] on a CP factor of shape [(I, R)] returns a
    core of shape [(R, I, R)] whose slices are diagonal matrices: the
    entry [(a, i, b)] is [factor[i, a]] when [a = b] and zero otherwise.
    (The code writes the transposed factor into the first row of a zero
    array of shape [(R, R + 1, I)] and reads it back through the shape
    [(R + 1, R, I)]; the shift by one puts that row on the diagonal.) *)
Theorem cp_to_tt_diagonal (f : tensor) (I0 R0 : nat) :
  tshape f = [I0; R0] ->
  exists c,
    _cp_to_tt f = Ok c /\ tshape c = [R0; I0; R0]
    /\ forall a i b, a < R0 -> i < I0 -> b < R0 ->
         get c [a; i; b] = if a =? b then get f [i; a] else rO.
Proof. apply cp_to_tt_diag. Qed.

(** ** A network times a number *)

Lemma map_tab (g : R -> R) (s : list nat) :
  forall f, map g (tab s f) = tab s (fun idx => g (f idx)).
Proof.
  induction s as [|n s IH]; intros f; [reflexivity|].
  cbn [tab]. generalize (seq 0 n). intros l.
  induction l as [|i l IHl]; [reflexivity|].
  cbn [flat_map]. rewrite map_app, IH, IHl. reflexivity.
Qed.

Lemma get_scale (c : R) (x : tensor) (idx : list nat) :
  get (scale c x) idx = get x idx *! c.
Proof.
  unfold get, scale. cbn [tshape tdata].
  set (n := ravel (tshape x) idx).
  destruct (Nat.lt_ge_cases n (length (tdata x))) as [H|H].
  - rewrite (nth_indep _ rO (rO *! c)) by (rewrite length_map; exact H).
    apply (map_nth (fun y => y *! c)).
  - rewrite !nth_overflow by (try rewrite length_map; exact H). ring.
Qed.

Lemma scale_build (c : R) (s : list nat) (f : list nat -> R) :
  scale c (build s f) = build s (fun idx => f idx *! c).
Proof. unfold scale, build. cbn [tshape tdata]. rewrite map_tab. reflexivity. Qed.

Lemma einsum_jk_aj_ak_scale (c : R) (x u y : tensor) :
  einsum_jk_aj_ak x u = Ok y ->
  einsum_jk_aj_ak (scale c x) u = Ok (scale c y).
Proof.
  unfold einsum_jk_aj_ak. cbn [scale tshape].
  destruct (tshape x) as [|j [|k [|? ?]]]; try discriminate.
  destruct (tshape u) as [|a [|j' [|? ?]]]; try discriminate.
  destruct (j =? j'); [|discriminate]. intros H. inversion H. f_equal.
  unfold build2. rewrite scale_build. unfold build. f_equal.
  apply tab_ext. intros idx _. destruct idx as [|p [|q [|? ?]]];
    cbn [ix2]; try ring.
  rewrite <- rsum_scal_r. apply rsum_ext. intros m _.
  fold (scale c x). rewrite get_scale. ring.
Qed.

Lemma einsum_ijk_aj_iak_scale (c : R) (x u y : tensor) :
  einsum_ijk_aj_iak x u = Ok y ->
  einsum_ijk_aj_iak (scale c x) u = Ok (scale c y).
Proof.
  unfold einsum_ijk_aj_iak. cbn [scale tshape].
  destruct (tshape x) as [|i [|j [|k [|? ?]]]]; try discriminate.
  destruct (tshape u) as [|a [|j' [|? ?]]]; try discriminate.
  destruct (j =? j'); [|discriminate]. intros H. inversion H. f_equal.
  unfold build3. rewrite scale_build. unfold build. f_equal.
  apply tab_ext. intros idx _. destruct idx as [|p [|q [|r [|? ?]]]];
    cbn [ix3]; try ring.
  rewrite <- rsum_scal_r. apply rsum_ext. intros m _.
  fold (scale c x). rewrite get_scale. ring.
Qed.

Lemma vec_step_scale (last : bool) (c : R) (d : tensor) (b : nat)
  (v : nat -> R) (j : nat) :
  vec_step last (scale c d) b v j = vec_step last d b v j *! c.
Proof.
  unfold vec_step. cbn [scale tshape]. fold (scale c d).
  destruct (tshape d) as [|x [|y [|z [|? ?]]]]; try ring.
  - destruct last.
    + rewrite <- rsum_scal_r. apply rsum_ext. intros i _.
      rewrite get_scale. ring.
    + rewrite get_scale. ring.
  - rewrite <- rsum_scal_r. apply rsum_ext. intros i _.
    rewrite get_scale. ring.
Qed.

Lemma vec_step_pointwise (last : bool) (c : R) (d : tensor) (b : nat)
  (v v' : nat -> R) :
  (forall j, v' j = v j *! c) ->
  forall j, vec_step last d b v' j = vec_step last d b v j *! c.
Proof.
  intros Hv j. unfold vec_step.
  destruct (tshape d) as [|x [|y [|z [|? ?]]]]; try ring.
  - destruct last.
    + rewrite <- rsum_scal_r. apply rsum_ext. intros i _.
      rewrite Hv. ring.
    + rewrite Hv. ring.
  - rewrite <- rsum_scal_r. apply rsum_ext. intros i _. rewrite Hv. ring.
Qed.

Lemma vec_chain_pointwise (more : bool) (c : R) (cs : list tensor) :
  forall idx v v',
    (forall j, v' j = v j *! c) ->
    forall j, vec_chain more cs idx v' j = vec_chain more cs idx v j *! c.
Proof.
  induction cs as [|d cs IH]; intros idx v v' Hv j; [apply Hv|].
  destruct idx as [|b idx]; [apply Hv|]. cbn [vec_chain].
  apply IH. apply vec_step_pointwise, Hv.
Qed.

Lemma scale_same_ends (c : R) (d : tensor) :
  tdim (scale c d) = tdim d /\ in_rank (scale c d) = in_rank d
  /\ (forall last, out_rank last (scale c d) = out_rank last d)
  /\ mid (scale c d) = mid d.
Proof. repeat split. Qed.

(** [t * c] scales the first core of the copy that [clone()] makes. *)
Lemma mul_scalar_clone (t : Tensor) (c : R) (A : tensor) :
  torch t = Ok A ->
  exists c0 cs,
    cores t = c0 :: cs
    /\ __mul__ t (OScalar c)
       = Ok (mkTensor (scale c c0 :: cs) (firstn (dim t) (Us t)))
    /\ torch (mkTensor (scale c c0 :: cs) (firstn (dim t) (Us t)))
       = Ok (scale c A).
Proof.
  intros H. destruct (@torch_inv _ _ H) as (ds & Hv & ->).
  pose proof (@clone_ok _ _ Hv) as Hclone.
  destruct Hv as (Hne & Hd & Hch).
  destruct (@clone_Us_ok _ _ _ Hd) as (_ & _ & Hd1 & _).
  unfold dim in Hclone. unfold dim.
  destruct (cores t) as [|c0 cs] eqn:Ec.
  { cbn in Hd. inversion Hd. congruence. }
  exists c0, cs. split; [reflexivity|].
  cbn [__mul__]. rewrite Hclone. cbn [bind cores Us].
  change (get_item (c0 :: cs) 0) with (Ok c0). cbn [bind set_item].
  split; [reflexivity|].
  destruct ds as [|d0 ds']; [congruence|].
  assert (Hv2 : valid (mkTensor (scale c c0 :: cs)
                         (firstn (length (c0 :: cs)) (Us t)))
                  (scale c d0 :: ds')).
  { split; [discriminate|]. split; [|exact Hch]. cbn [cores Us].
    cbn [decompress_cores] in Hd1 |- *.
    destruct (firstn (length (c0 :: cs)) (Us t)) as [|[u|] us'];
      [discriminate Hd1| |].
    - bind_inv Hd1. bind_inv Hd1. inversion Hd1. subst x ds'.
      change (tdim (scale c c0)) with (tdim c0).
      destruct (tdim c0 =? 2).
      + rewrite (einsum_jk_aj_ak_scale c _ _ E). reflexivity.
      + rewrite (einsum_ijk_aj_iak_scale c _ _ E). reflexivity.
    - bind_inv Hd1. inversion Hd1. subst. reflexivity. }
  rewrite (@torch_spec _ _ Hv2). f_equal. rewrite scale_build.
  change (map mid (scale c d0 :: ds')) with (map mid (d0 :: ds')).
  unfold build. f_equal. apply tab_ext. intros idx Hidx.
  unfold entry.
  change (width_after false (scale c d0 :: ds') (in_rank (scale c d0)))
    with (width_after false (d0 :: ds') (in_rank d0)).
  rewrite <- rsum_scal_r. apply rsum_ext. intros j _.
  destruct idx as [|b idx]; [discriminate Hidx|]. cbn [vec_chain].
  apply vec_chain_pointwise. intros i. apply vec_step_scale.
Qed.

(** X7: for every network [t] that decompresses (CP or TT cores, with or
    without Tucker factors) and every number [c], [t * c] returns a network
    with as many cores that decompresses to the array of [t] with every
    entry multiplied by [c]: the copy made by [clone()] has its first core
    scaled and nothing else changed. *)
Theorem mul_scalar_spec (t : Tensor) (c : R) (A : tensor) :
  torch t = Ok A ->
  exists t',
    __mul__ t (OScalar c) = Ok t'
    /\ dim t' = dim t
    /\ tl (cores t') = tl (cores t)
    /\ torch t' = Ok (scale c A).
Proof.
  intros H. destruct (@mul_scalar_clone t c A H) as (c0 & cs & Ec & Em & Et).
  eexists. split; [exact Em|]. split; [|split; [|exact Et]].
  - unfold dim. cbn [cores]. rewrite Ec. reflexivity.
  - cbn [cores]. rewrite Ec. reflexivity.
Qed.

(** ** The sum of two TT networks *)

Lemma get_zeros (s idx : list nat) : get (zeros s) idx = rO.
Proof.
  unfold get, zeros, build. cbn [tshape tdata].
  destruct (Nat.lt_ge_cases (ravel s idx) (numel s)) as [H|H].
  - rewrite nth_tab_lin by exact H. reflexivity.
  - apply nth_overflow. rewrite tab_length. exact H.
Qed.

Lemma cat_eq (x y : tensor) (d : nat) :
  d < tdim x -> upd (tshape x) d 0 = upd (tshape y) d 0 ->
  cat x y d
  = Ok (build (upd (tshape x) d (sh x d + sh y d))
          (fun idx => if nth d idx 0 <? sh x d then get x idx
                      else get y (upd idx d (nth d idx 0 - sh x d)))).
Proof.
  intros Hd Hs. unfold cat. apply Nat.ltb_lt in Hd. rewrite Hd, Hs.
  rewrite shape_eqb_refl. reflexivity.
Qed.

(** The three concatenations of [__add__] on two TT cores build the core
    with the two cores as its diagonal blocks. *)
Lemma cat_block (B : Type) (k : tensor -> result B) (x y : tensor)
  (r1 r2 s q1 q2 : nat) :
  tshape x = [r1; s; q1] -> tshape y = [r2; s; q2] ->
  (column1 <- cat x (zeros [r2; s; q1]) 0 ;;
   column2 <- cat (zeros [r1; s; q2]) y 0 ;;
   c <- cat column1 column2 2 ;;
   k c)
  = k (build3 (r1 + r2) s (q1 + q2) (block_entry x y r1 q1)).
Proof.
  intros Hx Hy.
  rewrite cat_eq; [|unfold tdim; rewrite Hx; simpl; lia
                   |rewrite Hx; reflexivity].
  cbn [bind].
  rewrite cat_eq; [|unfold tdim; simpl; lia | rewrite Hy; reflexivity].
  cbn [bind].
  rewrite cat_eq; [|unfold tdim; rewrite Hx; simpl; lia
                   |unfold sh; rewrite Hx, Hy; reflexivity].
  unfold sh. rewrite Hx, Hy. cbn [tshape build zeros nth upd bind].
  f_equal. unfold build3, build. f_equal. apply tab_ext.
  intros idx Hidx. pose proof (in_range_length _ _ Hidx) as Hl.
  destruct idx as [|p [|i [|j [|? ?]]]]; try discriminate Hl. clear Hl.
  cbn [in_range] in Hidx.
  apply andb_true_iff in Hidx. destruct Hidx as (Hp & Hidx).
  apply andb_true_iff in Hidx. destruct Hidx as (Hi & Hidx).
  apply andb_true_iff in Hidx. destruct Hidx as (Hj & _).
  apply Nat.ltb_lt in Hp, Hi, Hj.
  unfold ix3, block_entry. cbn [nth upd].
  destruct (Nat.ltb_spec j q1) as [J|J].
  - change (mkT [r1 + r2; s; q1] ?d) with (build [r1 + r2; s; q1]
      (fun idx => if nth 0 idx 0 <? r1 then get x idx
                  else get (mkT [r2; s; q1] (tab [r2; s; q1] (fun _ => rO)))
                         (upd idx 0 (nth 0 idx 0 - r1)))).
    rewrite get_build by (apply in_range3; lia). cbn [nth upd].
    destruct (Nat.ltb_spec p r1); [reflexivity|]. apply (get_zeros [r2; s; q1]).
  - change (mkT [r1 + r2; s; q2] ?d) with (build [r1 + r2; s; q2]
      (fun idx => if nth 0 idx 0 <? r1
                  then get (mkT [r1; s; q2] (tab [r1; s; q2] (fun _ => rO))) idx
                  else get y (upd idx 0 (nth 0 idx 0 - r1)))).
    rewrite get_build by (apply in_range3; lia). cbn [nth upd].
    destruct (Nat.ltb_spec p r1); [|reflexivity]. apply (get_zeros [r1; s; q2]).
Qed.

Lemma sum_keep_eq (t : tensor) (d : nat) :
  d < tdim t ->
  sum_keep t d
  = Ok (build (upd (tshape t) d 1)
          (fun idx => rsum (sh t d) (fun m => get t (upd idx d m)))).
Proof. intros H. unfold sum_keep. apply Nat.ltb_lt in H. rewrite H. reflexivity. Qed.

(** A vector through a core of diagonal blocks: each half goes through its
    own block. *)
Lemma vm_block (r1 r2 q1 : nat) (ua ub : nat -> R)
  (Ma Mb MC : nat -> nat -> R) (j : nat) :
  (forall p, p < r1 + r2 ->
     MC p j = if p <? r1 then (if j <? q1 then Ma p j else rO)
              else (if j <? q1 then rO else Mb (p - r1) (j - q1))) ->
  vm (r1 + r2) (vjoin r1 ua ub) MC j
  = vjoin q1 (vm r1 ua Ma) (vm r2 ub Mb) j.
Proof.
  intros H. unfold vm, vjoin. rewrite rsum_split.
  destruct (Nat.ltb_spec j q1) as [J|J].
  - rewrite (@rsum_ext r2 _ (fun _ => rO)).
    + rewrite rsum_zero.
      rewrite (@rsum_ext r1 _ (fun i => ua i *! Ma i j)); [ring|].
      intros i Hi. rewrite H by lia.
      replace (i <? r1) with true by (symmetry; apply Nat.ltb_lt; lia).
      reflexivity.
    + intros i Hi. rewrite H by lia.
      replace (r1 + i <? r1) with false by (symmetry; apply Nat.ltb_ge; lia).
      ring.
  - rewrite (@rsum_ext r1 _ (fun _ => rO)).
    + rewrite rsum_zero.
      rewrite (@rsum_ext r2 _ (fun i => ub i *! Mb i (j - q1))); [ring|].
      intros i Hi. rewrite H by lia.
      replace (r1 + i <? r1) with false by (symmetry; apply Nat.ltb_ge; lia).
      replace (r1 + i - r1) with i by lia. reflexivity.
    + intros i Hi. rewrite H by lia.
      replace (i <? r1) with true by (symmetry; apply Nat.ltb_lt; lia).
      ring.
Qed.

(** ... and through the last core, whose two columns were added up. *)
Lemma vm_block_last (r1 r2 : nat) (ua ub : nat -> R)
  (Ma Mb MC : nat -> nat -> R) :
  (forall p, p < r1 + r2 ->
     MC p 0 = if p <? r1 then Ma p 0 else Mb (p - r1) 0) ->
  vm (r1 + r2) (vjoin r1 ua ub) MC 0
  = vm r1 ua Ma 0 +! vm r2 ub Mb 0.
Proof.
  intros H. unfold vm, vjoin. rewrite rsum_split. f_equal.
  - apply rsum_ext. intros i Hi. rewrite H by lia.
    replace (i <? r1) with true by (symmetry; apply Nat.ltb_lt; lia).
    reflexivity.
  - apply rsum_ext. intros i Hi. rewrite H by lia.
    replace (r1 + i <? r1) with false by (symmetry; apply Nat.ltb_ge; lia).
    replace (r1 + i - r1) with i by lia. reflexivity.
Qed.

(** The first core, whose two rows were added up, lays the first cores of
    the operands side by side. *)
Lemma vm_block_first (q1 : nat) (u : nat -> R) (Ma Mb MC : nat -> nat -> R)
  (j : nat) :
  MC 0 j = (if j <? q1 then Ma 0 j else Mb 0 (j - q1)) ->
  vm 1 u MC j = vjoin q1 (vm 1 u Ma) (vm 1 u Mb) j.
Proof.
  intros H. unfold vm, vjoin. rewrite !rsum_one, H.
  destruct (j <? q1); reflexivity.
Qed.

Lemma skipn_nth_any (A : Type) (l : list A) (d : A) (c : nat) :
  c < length l -> skipn c l = nth c l d :: skipn (S c) l.
Proof.
  revert c. induction l as [|x l IH]; intros c Hc; [simpl in Hc; lia|].
  destruct c as [|c]; [reflexivity|]. cbn [skipn nth]. apply IH.
  simpl in Hc. lia.
Qed.

(** The first core of the sum: the two rows of the block core, added up. *)
Lemma sum_keep_first (x y c : tensor) (s q1 q2 : nat) :
  sum_keep (build3 (1 + 1) s (q1 + q2) (block_entry x y 1 q1)) 0 = Ok c ->
  tshape c = [1; s; q1 + q2]
  /\ forall i j, i < s -> j < q1 + q2 ->
       get c [0; i; j]
       = if j <? q1 then get x [0; i; j] else get y [0; i; j - q1].
Proof.
  intros H. rewrite sum_keep_eq in H by (unfold tdim; simpl; lia).
  inversion H as [E]. clear H E. split; [reflexivity|].
  intros i j Hi Hj. unfold build3 at 1. cbn [tshape build upd].
  rewrite get_build by (apply in_range3; lia).
  unfold sh. cbn [tshape build3 build nth Nat.add rsum upd].
  fold (build3 2 s (q1 + q2) (block_entry x y 1 q1)).
  rewrite !get_build3 by lia. unfold block_entry.
  change (0 <? 1) with true. change (1 <? 1) with false.
  change (1 - 1) with 0. cbn iota. destruct (j <? q1); ring.
Qed.

(** The last core of the sum: the two columns of the block core, added
    up. *)
Lemma sum_keep_last (x y c : tensor) (r1 r2 s : nat) :
  sum_keep (build3 (r1 + r2) s (1 + 1) (block_entry x y r1 1)) 2 = Ok c ->
  tshape c = [r1 + r2; s; 1]
  /\ forall p i, p < r1 + r2 -> i < s ->
       get c [p; i; 0]
       = if p <? r1 then get x [p; i; 0] else get y [p - r1; i; 0].
Proof.
  intros H. rewrite sum_keep_eq in H by (unfold tdim; simpl; lia).
  inversion H as [E]. clear H E. split; [reflexivity|].
  intros p i Hp Hi. unfold build3 at 1. cbn [tshape build upd].
  rewrite get_build by (apply in_range3; lia).
  unfold sh. cbn [tshape build3 build nth Nat.add rsum upd].
  fold (build3 (r1 + r2) s 2 (block_entry x y r1 1)).
  rewrite !get_build3 by lia. unfold block_entry.
  change (0 <? 1) with true. change (1 <? 1) with false.
  change (1 - 1) with 0. change (0 - 1) with 0. cbn iota.
  destruct (p <? r1); ring.
Qed.

Lemma tt_network_shape (t : Tensor) (sp : list nat) (rk : nat -> nat) :
  tt_network t sp rk -> shape t = Ok sp.
Proof.
  intros Hnet. pose proof (net_dim Hnet) as Hd. unfold dim in Hd.
  pose proof Hnet as (_ & HU & _). unfold shape. rewrite HU, <- Hd.
  rewrite shape_of_none. f_equal.
  apply (nth_ext _ _ (shr tnil 2) 0).
  - rewrite length_map. exact Hd.
  - intros n Hn. rewrite length_map in Hn.
    rewrite (map_nth (fun c => shr c 2) (cores t) tnil n). unfold shr, tdim.
    rewrite (@net_core_shape t sp rk Hnet n) by lia. reflexivity.
Qed.

Section AddTT.

Variables a b : Tensor.
Variable sp : list nat.
Variables ra rb : nat -> nat.
Hypothesis Ha : tt_network a sp ra.
Hypothesis Hb : tt_network b sp rb.

Lemma add_axis_tt (n : nat) :
  n < length sp -> add_axis a a b n = Ok (add_core a b sp ra rb n, None).
Proof.
  intros Hn. unfold add_axis.
  rewrite (@net_core a sp ra Ha n Hn), (@net_core b sp rb Hb n Hn).
  cbn [bind].
  pose proof (@net_core_shape a sp ra Ha n Hn) as Sa.
  pose proof (@net_core_shape b sp rb Hb n Hn) as Sb.
  unfold lift_pair, tdim, _cp_to_tt. rewrite Sa, Sb.
  cbn [length Nat.eqb andb bind].
  rewrite (@net_factor a sp ra Ha n Hn), (@net_factor b sp rb Hb n Hn).
  cbn [bind]. rewrite (tt_network_shape Ha). cbn [bind].
  rewrite (@get_item_nth _ sp n 0) by exact Hn. cbn [bind].
  unfold sh. rewrite Sa, Sb. cbn [nth].
  apply (@cat_block _ (fun c => Ok (c, None)) _ _ _ _ _ _ _ Sa Sb).
Qed.

Lemma both_cp_tt (n : nat) : n < length sp -> both_cp a b n = Ok false.
Proof.
  intros Hn. unfold both_cp.
  rewrite (@net_core a sp ra Ha n Hn), (@net_core b sp rb Hb n Hn).
  cbn [bind]. unfold tdim.
  rewrite (@net_core_shape a sp ra Ha n Hn). reflexivity.
Qed.

Lemma add_core_dim (n : nat) : tdim (add_core a b sp ra rb n) = 3.
Proof. reflexivity. Qed.

(** The cores that [__add__] hands to the constructor: the block cores,
    the first with its rows added up and the last with its columns. *)
Lemma add_tt_cores :
  2 <= length sp ->
  exists cs,
    add_tensors a b = Tensor_of_cores cs (Some (repeat None (length sp)))
    /\ length cs = length sp
    /\ sum_keep (add_core a b sp ra rb 0) 0 = Ok (nth 0 cs tnil)
    /\ sum_keep (add_core a b sp ra rb (length sp - 1)) 2
       = Ok (nth (length sp - 1) cs tnil)
    /\ forall k, 0 < k < length sp - 1 -> nth k cs tnil = add_core a b sp ra rb k.
Proof.
  intros HN.
  pose proof (net_dim Ha) as Hda. pose proof (net_dim Hb) as Hdb.
  unfold dim in Hda, Hdb.
  unfold add_tensors. unfold dim at 1.
  replace (length (cores a) =? 1) with false
    by (symmetry; apply Nat.eqb_neq; lia).
  rewrite (broadcast_same _ _ (tt_network_shape Ha) (tt_network_shape Hb)).
  cbn [bind]. unfold dim. rewrite Hda.
  destruct (@mapM_seq_total _ (add_axis a a b)
              (fun k cu => cu = (add_core a b sp ra rb k, None))
              0 (length sp) (tnil, None)) as (cus & Ecus & Hlc & Hcus).
  { intros k Hk. eexists. split; [apply add_axis_tt; lia | reflexivity]. }
  rewrite Ecus. cbn [bind].
  assert (Hn0 : forall j, j < length sp ->
                  nth j (map fst cus) tnil = add_core a b sp ra rb j).
  { intros j Hj. change tnil with (fst (tnil, @None tensor)).
    rewrite map_nth. rewrite (Hcus j) by lia. reflexivity. }
  rewrite both_cp_tt by lia. cbn [bind negb].
  rewrite (@get_item_nth _ (map fst cus) 0 tnil) by (rewrite length_map; lia).
  rewrite Hn0 by lia. cbn [bind].
  rewrite (@sum_keep_eq (add_core a b sp ra rb 0) 0) by (rewrite add_core_dim; lia).
  cbn [bind].
  set (c0 := build (upd (tshape (add_core a b sp ra rb 0)) 0 1) _).
  destruct (@set_item_total _ (map fst cus) 0 c0) as (cs1 & E1);
    [rewrite length_map; lia|].
  rewrite E1. cbn [bind].
  pose proof (set_item_length _ _ _ E1) as L1. rewrite length_map in L1.
  rewrite (@get_last_nth _ (cores a) tnil)
    by (intros E; rewrite E in Hda; simpl in Hda; lia).
  rewrite (@get_last_nth _ (cores b) tnil)
    by (intros E; rewrite E in Hdb; simpl in Hdb; lia).
  cbn [bind]. unfold tdim at 1.
  rewrite Hda, (@net_core_shape a sp ra Ha (length sp - 1)) by lia.
  cbn [length Nat.eqb andb negb].
  rewrite (@get_last_nth _ cs1 tnil)
    by (intros E; rewrite E in L1; simpl in L1; lia).
  cbn [bind]. rewrite L1, Hlc.
  rewrite (@set_item_nth _ _ _ _ (length sp - 1) _ tnil E1).
  replace (length sp - 1 =? 0) with false
    by (symmetry; apply Nat.eqb_neq; lia).
  rewrite Hn0 by lia.
  rewrite (@sum_keep_eq (add_core a b sp ra rb (length sp - 1)) 2)
    by (rewrite add_core_dim; lia).
  cbn [bind].
  set (cl := build (upd (tshape (add_core a b sp ra rb (length sp - 1))) 2 1) _).
  assert (E2 : exists cs2, set_last cs1 cl = Ok cs2
                           /\ set_item cs1 (length sp - 1) cl = Ok cs2).
  { destruct (@set_item_total _ cs1 (length sp - 1) cl) as (cs2 & E2); [lia|].
    exists cs2. split; [|exact E2]. unfold set_last.
    destruct cs1 as [|x cs1]; [simpl in L1; lia|].
    rewrite L1, Hlc. exact E2. }
  destruct E2 as (cs2 & E2 & E2'). rewrite E2. cbn [bind].
  destruct (@foldM_seq_total _ (add_fix_cp a b) (fun _ l => l = cs2)
              0 (length sp) cs2 eq_refl) as (cs3 & E3 & H3).
  { intros k l Hk ->. exists cs2. split; [|reflexivity].
    unfold add_fix_cp. rewrite both_cp_tt by lia. reflexivity. }
  subst cs3. rewrite E3. cbn [bind].
  assert (Hus : map snd cus = repeat None (length sp)).
  { rewrite <- Hlc. rewrite <- (length_map snd cus).
    apply all_none_repeat. intros j Hj. rewrite length_map in Hj.
    change (@None tensor) with (snd (tnil, @None tensor)) at 1.
    rewrite map_nth. rewrite (Hcus j) by lia. reflexivity. }
  rewrite Hus. exists cs2. split; [reflexivity|].
  pose proof (set_item_length _ _ _ E2') as L2.
  split; [lia|]. split; [|split].
  - rewrite (@set_item_nth _ _ _ _ 0 _ tnil E2').
    replace (0 =? length sp - 1) with false
      by (symmetry; apply Nat.eqb_neq; lia).
    rewrite (@set_item_nth _ _ _ _ 0 _ tnil E1). reflexivity.
  - rewrite (@set_item_nth _ _ _ _ (length sp - 1) _ tnil E2').
    rewrite Nat.eqb_refl. reflexivity.
  - intros k Hk. rewrite (@set_item_nth _ _ _ _ k _ tnil E2').
    replace (k =? length sp - 1) with false
      by (symmetry; apply Nat.eqb_neq; lia).
    rewrite (@set_item_nth _ _ _ _ k _ tnil E1).
    replace (k =? 0) with false by (symmetry; apply Nat.eqb_neq; lia).
    apply Hn0. lia.
Qed.

Lemma add_first_core (c : tensor) :
  sum_keep (add_core a b sp ra rb 0) 0 = Ok c ->
  tshape c = [1; nth 0 sp 0; ra 1 + rb 1]
  /\ forall i j, i < nth 0 sp 0 -> j < ra 1 + rb 1 ->
       get c [0; i; j]
       = if j <? ra 1 then get (nth 0 (cores a) tnil) [0; i; j]
         else get (nth 0 (cores b) tnil) [0; i; j - ra 1].
Proof.
  destruct Ha as (_ & _ & _ & Ha0 & _). destruct Hb as (_ & _ & _ & Hb0 & _).
  unfold add_core. rewrite Ha0, Hb0. apply sum_keep_first.
Qed.

Lemma add_last_core (c : tensor) :
  sp <> [] ->
  sum_keep (add_core a b sp ra rb (length sp - 1)) 2 = Ok c ->
  tshape c = [ra (length sp - 1) + rb (length sp - 1);
              nth (length sp - 1) sp 0; 1]
  /\ forall p i, p < ra (length sp - 1) + rb (length sp - 1) ->
       i < nth (length sp - 1) sp 0 ->
       get c [p; i; 0]
       = if p <? ra (length sp - 1)
         then get (nth (length sp - 1) (cores a) tnil) [p; i; 0]
         else get (nth (length sp - 1) (cores b) tnil)
                [p - ra (length sp - 1); i; 0].
Proof.
  intros Hne.
  destruct Ha as (_ & _ & _ & _ & HaN). destruct Hb as (_ & _ & _ & _ & HbN).
  unfold add_core.
  replace (S (length sp - 1)) with (length sp)
    by (destruct sp; [congruence | simpl; lia]).
  rewrite HaN, HbN. apply sum_keep_last.
Qed.

Section Sum.

Variable cs : list tensor.
Hypothesis HN : 2 <= length sp.
Hypothesis Hlen : length cs = length sp.
Hypothesis Hfirst : sum_keep (add_core a b sp ra rb 0) 0 = Ok (nth 0 cs tnil).
Hypothesis Hlast :
  sum_keep (add_core a b sp ra rb (length sp - 1)) 2 = Ok (nth (length sp - 1) cs tnil).
Hypothesis Hmid :
  forall k, 0 < k < length sp - 1 -> nth k cs tnil = add_core a b sp ra rb k.

Lemma sp_not_nil : sp <> [].
Proof. intros E. rewrite E in HN. simpl in HN. lia. Qed.

Lemma add_cores_network :
  tt_network (mkTensor cs (repeat None (length sp))) sp
    (add_ranks (length sp) ra rb).
Proof.
  pose proof Ha as (_ & _ & Hra & _). pose proof Hb as (_ & _ & Hrb & _).
  unfold tt_network. cbn [cores Us]. split; [|split; [reflexivity|split]].
  - apply (nth_ext _ _ (tshape tnil) []).
    + rewrite !length_map, length_seq. exact Hlen.
    + intros k Hk. rewrite length_map in Hk.
      rewrite (map_nth tshape cs tnil k), nth_map_seq by lia.
      unfold add_ranks.
      destruct (Nat.eq_dec k 0) as [->|K0].
      * destruct (add_first_core Hfirst) as (S0 & _). rewrite S0.
        replace (1 =? length sp) with false
          by (symmetry; apply Nat.eqb_neq; lia).
        reflexivity.
      * replace (k =? 0) with false by (symmetry; apply Nat.eqb_neq; lia).
        replace (k =? length sp) with false
          by (symmetry; apply Nat.eqb_neq; lia).
        cbn [orb].
        destruct (Nat.eq_dec k (length sp - 1)) as [->|KN].
        -- destruct (add_last_core sp_not_nil Hlast) as (SN & _). rewrite SN.
           replace (S (length sp - 1)) with (length sp) by lia.
           rewrite Nat.eqb_refl, orb_true_r. reflexivity.
        -- rewrite Hmid by lia.
           replace (S k =? length sp) with false
             by (symmetry; apply Nat.eqb_neq; lia).
           rewrite orb_false_r. reflexivity.
  - intros k. unfold add_ranks.
    destruct ((k =? 0) || (k =? length sp)); [lia|].
    pose proof (Hra k). lia.
  - unfold add_ranks. split; [reflexivity|].
    rewrite Nat.eqb_refl, orb_true_r. reflexivity.
Qed.

Lemma in_range_uncons (n : nat) (s idx : list nat) :
  in_range (n :: s) idx = true ->
  exists i idx', idx = i :: idx' /\ i < n /\ in_range s idx' = true.
Proof.
  destruct idx as [|i idx']; [discriminate|]. cbn [in_range]. intros H.
  apply andb_true_iff in H. destruct H as (Hi & H). apply Nat.ltb_lt in Hi.
  exists i, idx'. auto.
Qed.

(** Past the first core, the cores of the sum carry the vectors of both
    operands side by side, and the last core adds the two up. *)
Lemma add_suffix (m : nat) :
  forall k idx ua ub,
    k + S m = length sp -> 0 < k ->
    in_range (skipn k sp) idx = true ->
    tt_vec (skipn k cs) idx (vjoin (ra k) ua ub) 0
    = tt_vec (skipn k (cores a)) idx ua 0
      +! tt_vec (skipn k (cores b)) idx ub 0.
Proof.
  pose proof (net_dim Ha) as Hda. pose proof (net_dim Hb) as Hdb.
  unfold dim in Hda, Hdb.
  induction m as [|m IH]; intros k idx ua ub Hk K0 Hidx.
  - assert (Ek : k = length sp - 1) by lia.
    rewrite (@skipn_nth_any _ sp 0 k) in Hidx by lia.
    rewrite (@skipn_nth_any _ cs tnil k),
            (@skipn_nth_any _ (cores a) tnil k),
            (@skipn_nth_any _ (cores b) tnil k) by lia.
    rewrite !skipn_all2 by lia. rewrite skipn_all2 in Hidx by lia.
    destruct (in_range_uncons _ _ _ Hidx) as (i & idx' & -> & Hi & Hr).
    destruct idx'; [|discriminate Hr]. cbn [tt_vec].
    pose proof (@net_core_shape a sp ra Ha k ltac:(lia)) as Sa.
    pose proof (@net_core_shape b sp rb Hb k ltac:(lia)) as Sb.
    subst k. destruct (add_last_core sp_not_nil Hlast) as (SN & GN).
    unfold sh. rewrite SN, Sa, Sb. cbn [nth].
    apply vm_block_last. intros p Hp. unfold mat3. apply GN; assumption.
  - rewrite (@skipn_nth_any _ sp 0 k) in Hidx by lia.
    rewrite (@skipn_nth_any _ cs tnil k),
            (@skipn_nth_any _ (cores a) tnil k),
            (@skipn_nth_any _ (cores b) tnil k) by lia.
    destruct (in_range_uncons _ _ _ Hidx) as (i & idx' & -> & Hi & Hr).
    cbn [tt_vec].
    pose proof (@net_core_shape a sp ra Ha k ltac:(lia)) as Sa.
    pose proof (@net_core_shape b sp rb Hb k ltac:(lia)) as Sb.
    rewrite Hmid by lia.
    assert (E1 : sh (add_core a b sp ra rb k) 0 = ra k + rb k) by reflexivity.
    assert (E2 : sh (nth k (cores a) tnil) 0 = ra k)
      by (unfold sh; rewrite Sa; reflexivity).
    assert (E3 : sh (nth k (cores b) tnil) 0 = rb k)
      by (unfold sh; rewrite Sb; reflexivity).
    rewrite E1, E2, E3.
    pose proof (@net_chain _ _ _ add_cores_network (S k) ltac:(lia)) as Hch.
    cbn [cores] in Hch. unfold add_ranks in Hch.
    replace (S k =? length sp) with false in Hch
      by (symmetry; apply Nat.eqb_neq; lia).
    cbn [Nat.eqb orb] in Hch.
    assert (Hl : length idx' = length (skipn (S k) cs)).
    { apply in_range_length in Hr. rewrite !length_skipn in *. lia. }
    rewrite (@tt_vec_ext _ _ _ idx' _
               (vjoin (ra (S k))
                  (vm (ra k) ua (mat3 (nth k (cores a) tnil) i))
                  (vm (rb k) ub (mat3 (nth k (cores b) tnil) i)))
               0 Hch Hl).
    + apply IH; [lia | lia | exact Hr].
    + intros j Hj. apply vm_block. intros p Hp. unfold mat3, add_core.
      rewrite get_build3 by lia. reflexivity.
    + lia.
Qed.

(** Every entry of the sum is the sum of the entries. *)
Lemma add_entries (idx : list nat) :
  in_range sp idx = true ->
  tt_vec cs idx v1 0
  = tt_vec (cores a) idx v1 0 +! tt_vec (cores b) idx v1 0.
Proof.
  intros Hidx.
  pose proof (net_dim Ha) as Hda. pose proof (net_dim Hb) as Hdb.
  unfold dim in Hda, Hdb.
  change sp with (skipn 0 sp) in Hidx.
  rewrite (@skipn_nth_any _ sp 0 0) in Hidx by lia.
  change cs with (skipn 0 cs) at 1.
  change (cores a) with (skipn 0 (cores a)).
  change (cores b) with (skipn 0 (cores b)).
  rewrite (@skipn_nth_any _ cs tnil 0),
          (@skipn_nth_any _ (cores a) tnil 0),
          (@skipn_nth_any _ (cores b) tnil 0) by lia.
  destruct (in_range_uncons _ _ _ Hidx) as (i & idx' & -> & Hi & Hr).
  cbn [tt_vec].
  pose proof (@net_core_shape a sp ra Ha 0 ltac:(lia)) as Sa.
  pose proof (@net_core_shape b sp rb Hb 0 ltac:(lia)) as Sb.
  destruct (add_first_core Hfirst) as (S0 & G0).
  pose proof Ha as (_ & _ & _ & Ha0 & _). pose proof Hb as (_ & _ & _ & Hb0 & _).
  unfold sh. rewrite S0, Sa, Sb, Ha0, Hb0. cbn [nth].
  pose proof (@net_chain _ _ _ add_cores_network 1 ltac:(lia)) as Hch.
  cbn [cores] in Hch. unfold add_ranks in Hch.
  replace (1 =? length sp) with false in Hch
    by (symmetry; apply Nat.eqb_neq; lia).
  cbn [Nat.eqb orb] in Hch.
  assert (Hl : length idx' = length (skipn 1 cs)).
  { apply in_range_length in Hr. rewrite !length_skipn in *. lia. }
  rewrite (@tt_vec_ext _ _ _ idx' _
             (vjoin (ra 1)
                (vm 1 v1 (mat3 (nth 0 (cores a) tnil) i))
                (vm 1 v1 (mat3 (nth 0 (cores b) tnil) i)))
             0 Hch Hl).
  - apply (@add_suffix (length sp - 2)); [lia | lia | exact Hr].
  - intros j Hj. apply vm_block_first. unfold mat3. apply G0; assumption.
  - lia.
Qed.

End Sum.

(** The sum of two TT networks on two axes or more. *)
Lemma add_tt_sum :
  2 <= length sp ->
  exists t A B,
    torch a = Ok A /\ torch b = Ok B
    /\ __add__ a (OTensor b) = Ok t
    /\ tt_network t sp (add_ranks (length sp) ra rb)
    /\ torch t = Ok (build sp (fun idx => get A idx +! get B idx)).
Proof.
  intros HN.
  assert (Hne : sp <> []) by (intros E; rewrite E in HN; simpl in HN; lia).
  destruct (add_tt_cores HN) as (cs & E & L & F & La & M).
  pose proof (@add_cores_network cs HN L F La M) as Hnet.
  pose proof (@net_chain _ _ _ Hnet 0 ltac:(lia)) as Hch.
  cbn [cores skipn] in Hch.
  destruct (@tt_chain_chain false _ _ _ Hch) as (C1 & _ & _).
  destruct (@chain_dims_ranks false _ _ C1) as (D1 & D2).
  exists (mkTensor cs (repeat None (length sp))).
  exists (build sp (fun idx => tt_vec (cores a) idx v1 0)).
  exists (build sp (fun idx => tt_vec (cores b) idx v1 0)).
  split; [apply (net_torch Ha Hne)|]. split; [apply (net_torch Hb Hne)|].
  split; [|split; [exact Hnet|]].
  - cbn [__add__]. rewrite E. unfold Tensor_of_cores. rewrite D1, D2.
    cbn [negb]. rewrite <- L. rewrite check_factors_none. reflexivity.
  - rewrite (net_torch Hnet Hne). cbn [cores]. unfold build. do 2 f_equal.
    apply tab_ext. intros idx Hidx.
    fold (build sp (fun idx => tt_vec (cores a) idx v1 0)).
    fold (build sp (fun idx => tt_vec (cores b) idx v1 0)).
    rewrite !get_build by exact Hidx.
    apply (@add_entries cs HN L F La M idx Hidx).
Qed.

End AddTT.

(** X8: the sum of two TT networks without Tucker factors, of one shape on
    two axes or more, succeeds; it is a TT network of the same shape whose
    inner ranks are the sums of the operands' ranks, and it decompresses to
    the entrywise sum of the two decompressed arrays. *)
Theorem add_tt_spec (a b : Tensor) (sp : list nat) (ra rb : nat -> nat) :
  tt_network a sp ra -> tt_network b sp rb -> 2 <= length sp ->
  exists t A B,
    torch a = Ok A /\ torch b = Ok B
    /\ __add__ a (OTensor b) = Ok t
    /\ tt_network t sp (add_ranks (length sp) ra rb)
    /\ torch t = Ok (build sp (fun idx => get A idx +! get B idx)).
Proof. intros Ha Hb HN. exact (add_tt_sum Ha Hb HN). Qed.

(** ** The product of two TT networks *)

(** [_core_kron] on two TT cores: the Kronecker product of the two matrices
    at every position of the axis. *)
Lemma core_kron_tt (x y : tensor) (r1 r2 s q1 q2 : nat) :
  tshape x = [r1; s; q1] -> tshape y = [r2; s; q2] ->
  r1 * r2 * (q1 * q2) <> 0 ->
  exists c,
    _core_kron x y = Ok c
    /\ tshape c = [r1 * r2; s; q1 * q2]
    /\ forall pa pb i ja jb,
         pa < r1 -> pb < r2 -> i < s -> ja < q1 -> jb < q2 ->
         get c [pa * r2 + pb; i; ja * q2 + jb]
         = get x [pa; i; ja] *! get y [pb; i; jb].
Proof.
  intros Hx Hy Hr. destruct x as [sx dx]. destruct y as [sy dy].
  cbn [tshape] in Hx, Hy. subst sx sy.
  unfold _core_kron, kron_view_a, kron_view_b. cbn [tshape tdata bind].
  unfold bmul, bshape. cbn [tshape rev app bshape_rev].
  rewrite !bsize_1_l, !bsize_1_r, bsize_refl. cbn [bind rev app].
  unfold sh, shr, tdim. cbn [tshape length Nat.sub nth].
  rewrite (@reshape_mid _ (r1 * r2) s (q1 * q2))
    by (try exact Hr; unfold build; cbn [tshape]; simpl; nia).
  eexists. split; [reflexivity|]. split; [reflexivity|].
  intros pa pb i ja jb Hpa Hpb Hi Hja Hjb.
  unfold get at 1. cbn [tshape tdata build].
  replace (ravel [r1 * r2; s; q1 * q2] [pa * r2 + pb; i; ja * q2 + jb])
    with (ravel [r1; r2; s; q1; q2] [pa; pb; i; ja; jb]).
  2:{ simpl. ring. }
  rewrite nth_tab.
  - unfold bidx. cbn [length Nat.sub skipn zip_with].
    rewrite ?(pick_small Hpa), ?(pick_small Hpb), ?(pick_small Hi),
            ?(pick_small Hja), ?(pick_small Hjb).
    unfold get. cbn [tshape tdata]. f_equal; f_equal; simpl; ring.
  - simpl. apply Nat.ltb_lt in Hpa, Hpb, Hi, Hja, Hjb.
    rewrite Hpa, Hpb, Hi, Hja, Hjb. reflexivity.
Qed.

Lemma div_mul_add (a b c : nat) : c < b -> (a * b + c) / b = a.
Proof.
  intros H. rewrite Nat.div_add_l by lia. rewrite Nat.div_small by exact H.
  lia.
Qed.

Lemma mod_mul_add (a b c : nat) : c < b -> (a * b + c) mod b = c.
Proof.
  intros H. rewrite Nat.add_comm, Nat.Div0.mod_add.
  apply Nat.mod_small, H.
Qed.

(** The Kronecker product of two vectors through the Kronecker product of
    two matrices: the Kronecker product of the two results. *)
Lemma vm_kron (r1 r2 q2 : nat) (ua ub : nat -> R)
  (Ma Mb MC : nat -> nat -> R) (j : nat) :
  (forall pa pb, pa < r1 -> pb < r2 ->
     MC (pa * r2 + pb) j = Ma pa (j / q2) *! Mb pb (j mod q2)) ->
  vm (r1 * r2) (vkron r2 ua ub) MC j
  = vkron q2 (vm r1 ua Ma) (vm r2 ub Mb) j.
Proof.
  intros H. unfold vm, vkron. rewrite rsum_mul.
  rewrite <- rsum_scal_r. apply rsum_ext. intros i Hi.
  rewrite <- rsum_scal_l. apply rsum_ext. intros k Hk.
  rewrite div_mul_add, mod_mul_add, H by assumption. ring.
Qed.

Section MulTT.

Variables a b : Tensor.
Variable sp : list nat.
Variables ra rb : nat -> nat.
Hypothesis Ha : tt_network a sp ra.
Hypothesis Hb : tt_network b sp rb.

(** What the loop of [__mul__] builds on the axis [n]. *)
Definition kron_of (n : nat) (c : tensor) : Prop :=
  tshape c = [ra n * rb n; nth n sp 0; ra (S n) * rb (S n)]
  /\ forall pa pb i ja jb,
       pa < ra n -> pb < rb n -> i < nth n sp 0 ->
       ja < ra (S n) -> jb < rb (S n) ->
       get c [pa * rb n + pb; i; ja * rb (S n) + jb]
       = get (nth n (cores a) tnil) [pa; i; ja]
         *! get (nth n (cores b) tnil) [pb; i; jb].

Lemma mul_axis_tt (n : nat) :
  n < length sp -> exists c, mul_axis a b n = Ok (c, None) /\ kron_of n c.
Proof.
  intros Hn. unfold mul_axis.
  rewrite (@net_core a sp ra Ha n Hn), (@net_core b sp rb Hb n Hn).
  cbn [bind].
  pose proof (@net_core_shape a sp ra Ha n Hn) as Sa.
  pose proof (@net_core_shape b sp rb Hb n Hn) as Sb.
  unfold lift_pair, tdim, _cp_to_tt. rewrite Sa, Sb.
  cbn [length Nat.eqb andb bind].
  rewrite (@net_factor a sp ra Ha n Hn), (@net_factor b sp rb Hb n Hn).
  cbn [bind].
  pose proof Ha as (_ & _ & Hra & _). pose proof Hb as (_ & _ & Hrb & _).
  destruct (@core_kron_tt _ _ _ _ _ _ _ Sa Sb) as (c & Ec & Sc & Gc).
  { pose proof (Hra n). pose proof (Hra (S n)).
    pose proof (Hrb n). pose proof (Hrb (S n)). nia. }
  rewrite Ec. cbn [bind]. exists c. split; [reflexivity|].
  split; [exact Sc | exact Gc].
Qed.

Section Product.

Variable cs : list tensor.
Hypothesis Hlen : length cs = length sp.
Hypothesis Hcs : forall k, k < length sp -> kron_of k (nth k cs tnil).

Lemma mul_cores_network :
  tt_network (mkTensor cs (repeat None (length sp))) sp
    (fun k => ra k * rb k).
Proof.
  pose proof Ha as (_ & _ & Hra & Ha0 & HaN).
  pose proof Hb as (_ & _ & Hrb & Hb0 & HbN).
  unfold tt_network. cbn [cores Us]. split; [|split; [reflexivity|split]].
  - apply (nth_ext _ _ (tshape tnil) []).
    + rewrite !length_map, length_seq. exact Hlen.
    + intros k Hk. rewrite length_map in Hk.
      rewrite (map_nth tshape cs tnil k), nth_map_seq by lia.
      apply (@Hcs k). lia.
  - intros k. pose proof (Hra k). pose proof (Hrb k). nia.
  - rewrite Ha0, Hb0, HaN, HbN. split; reflexivity.
Qed.

(** The cores of the product carry the Kronecker product of the vectors of
    the two operands. *)
Lemma mul_suffix (m : nat) :
  forall k idx ua ub,
    k + m = length sp ->
    in_range (skipn k sp) idx = true ->
    tt_vec (skipn k cs) idx (vkron (rb k) ua ub) 0
    = tt_vec (skipn k (cores a)) idx ua 0
      *! tt_vec (skipn k (cores b)) idx ub 0.
Proof.
  pose proof (net_dim Ha) as Hda. pose proof (net_dim Hb) as Hdb.
  unfold dim in Hda, Hdb.
  pose proof Hb as (_ & _ & Hrb & _ & HbN).
  induction m as [|m IH]; intros k idx ua ub Hk Hidx.
  - assert (k = length sp) by lia. subst k.
    rewrite !skipn_all2 by lia. rewrite skipn_all2 in Hidx by lia.
    destruct idx; [|discriminate Hidx]. cbn [tt_vec]. unfold vkron.
    rewrite HbN. reflexivity.
  - rewrite (@skipn_nth_any _ sp 0 k) in Hidx by lia.
    rewrite (@skipn_nth_any _ cs tnil k),
            (@skipn_nth_any _ (cores a) tnil k),
            (@skipn_nth_any _ (cores b) tnil k) by lia.
    destruct (in_range_uncons _ _ _ Hidx) as (i & idx' & -> & Hi & Hr).
    cbn [tt_vec].
    pose proof (@net_core_shape a sp ra Ha k ltac:(lia)) as Sa.
    pose proof (@net_core_shape b sp rb Hb k ltac:(lia)) as Sb.
    destruct (@Hcs k ltac:(lia)) as (Sc & Gc).
    unfold sh. rewrite Sa, Sb, Sc. cbn [nth].
    pose proof (@net_chain _ _ _ mul_cores_network (S k) ltac:(lia)) as Hch.
    cbn [cores] in Hch.
    assert (Hl : length idx' = length (skipn (S k) cs)).
    { apply in_range_length in Hr. rewrite !length_skipn in *. lia. }
    rewrite (@tt_vec_ext _ _ _ idx' _
               (vkron (rb (S k))
                  (vm (ra k) ua (mat3 (nth k (cores a) tnil) i))
                  (vm (rb k) ub (mat3 (nth k (cores b) tnil) i)))
               0 Hch Hl).
    + apply IH; [lia | exact Hr].
    + intros j Hj. apply vm_kron. intros pa pb Hpa Hpb. unfold mat3.
      pose proof (Hrb (S k)) as Hq.
      rewrite (Nat.div_mod_eq j (rb (S k))) at 1.
      rewrite (Nat.mul_comm (rb (S k))).
      apply Gc; try assumption.
      * apply Nat.Div0.div_lt_upper_bound. lia.
      * apply Nat.mod_upper_bound. exact Hq.
    + lia.
Qed.

(** Every entry of the product is the product of the entries. *)
Lemma mul_entries (idx : list nat) :
  in_range sp idx = true ->
  tt_vec cs idx v1 0
  = tt_vec (cores a) idx v1 0 *! tt_vec (cores b) idx v1 0.
Proof.
  intros Hidx.
  pose proof (@net_chain _ _ _ mul_cores_network 0 ltac:(lia)) as Hch.
  cbn [cores skipn] in Hch.
  pose proof Ha as (_ & _ & _ & Ha0 & _). pose proof Hb as (_ & _ & _ & Hb0 & _).
  rewrite (@tt_vec_ext _ _ _ idx _ (vkron (rb 0) v1 v1) 0 Hch).
  - apply (@mul_suffix (length sp) 0); [lia | exact Hidx].
  - apply in_range_length in Hidx. lia.
  - intros i _. unfold vkron, v1. ring.
  - lia.
Qed.

End Product.

(** The product of two TT networks. *)
Lemma mul_tt_prod :
  sp <> [] ->
  exists t A B,
    torch a = Ok A /\ torch b = Ok B
    /\ __mul__ a (OTensor b) = Ok t
    /\ tt_network t sp (fun k => ra k * rb k)
    /\ torch t = Ok (build sp (fun idx => get A idx *! get B idx)).
Proof.
  intros Hne.
  pose proof (net_dim Ha) as Hda. unfold dim in Hda.
  destruct (@mapM_seq_total _ (mul_axis a b)
              (fun k cu => snd cu = None /\ kron_of k (fst cu))
              0 (length sp) (tnil, None)) as (cus & Ecus & Hlc & Hcus).
  { intros k Hk. destruct (@mul_axis_tt k ltac:(lia)) as (c & Ec & Kc).
    exists (c, None). split; [exact Ec|]. split; [reflexivity | exact Kc]. }
  assert (L : length (map fst cus) = length sp)
    by (rewrite length_map; exact Hlc).
  assert (K : forall k, k < length sp -> kron_of k (nth k (map fst cus) tnil)).
  { intros k Hk. change tnil with (fst (tnil, @None tensor)).
    rewrite map_nth. apply (Hcus k Hk). }
  assert (Hus : map snd cus = repeat None (length sp)).
  { rewrite <- Hlc. rewrite <- (length_map snd cus).
    apply all_none_repeat. intros j Hj. rewrite length_map in Hj.
    change (@None tensor) with (snd (tnil, @None tensor)) at 1.
    rewrite map_nth. apply (Hcus j). lia. }
  pose proof (@mul_cores_network (map fst cus) L K) as Hnet.
  pose proof (@net_chain _ _ _ Hnet 0 ltac:(lia)) as Hch.
  cbn [cores skipn] in Hch.
  destruct (@tt_chain_chain false _ _ _ Hch) as (C1 & _ & _).
  destruct (@chain_dims_ranks false _ _ C1) as (D1 & D2).
  exists (mkTensor (map fst cus) (repeat None (length sp))).
  exists (build sp (fun idx => tt_vec (cores a) idx v1 0)).
  exists (build sp (fun idx => tt_vec (cores b) idx v1 0)).
  split; [apply (net_torch Ha Hne)|]. split; [apply (net_torch Hb Hne)|].
  split; [|split; [exact Hnet|]].
  - cbn [__mul__]. unfold mul_tensors.
    rewrite (broadcast_same _ _ (tt_network_shape Ha) (tt_network_shape Hb)).
    cbn [bind]. unfold dim. rewrite Hda, Ecus. cbn [bind].
    unfold Tensor_of_cores. rewrite D1, D2. cbn [negb].
    rewrite Hus, <- L. rewrite check_factors_none. reflexivity.
  - rewrite (net_torch Hnet Hne). cbn [cores]. unfold build. do 2 f_equal.
    apply tab_ext. intros idx Hidx.
    fold (build sp (fun idx => tt_vec (cores a) idx v1 0)).
    fold (build sp (fun idx => tt_vec (cores b) idx v1 0)).
    rewrite !get_build by exact Hidx.
    apply (@mul_entries (map fst cus) L K idx Hidx).
Qed.

End MulTT.

(** X9: the product of two TT networks without Tucker factors of one
    shape succeeds; it is a TT network of the same shape whose ranks are
    the products of the operands' ranks, and it decompresses to the
    entrywise product of the two decompressed arrays. *)
Theorem mul_tt_spec (a b : Tensor) (sp : list nat) (ra rb : nat -> nat) :
  tt_network a sp ra -> tt_network b sp rb -> sp <> [] ->
  exists t A B,
    torch a = Ok A /\ torch b = Ok B
    /\ __mul__ a (OTensor b) = Ok t
    /\ tt_network t sp (fun k => ra k * rb k)
    /\ torch t = Ok (build sp (fun idx => get A idx *! get B idx)).
Proof. intros Ha Hb Hne. exact (mul_tt_prod Ha Hb Hne). Qed.

(** ** Arithmetic on the arrays of TT networks *)

Lemma tt_array_ext (t : Tensor) (sp : list nat) (rk : nat -> nat)
  (f g : list nat -> R) :
  (forall idx, in_range sp idx = true -> f idx = g idx) ->
  tt_array t sp rk f -> tt_array t sp rk g.
Proof.
  intros H (Hn & Ht). split; [exact Hn|]. rewrite Ht. unfold build.
  do 2 f_equal. apply tab_ext, H.
Qed.

Lemma tt_array_of_network (t : Tensor) (sp : list nat) (rk : nat -> nat) :
  tt_network t sp rk -> sp <> [] ->
  tt_array t sp rk (fun idx => tt_vec (cores t) idx v1 0).
Proof. intros Hn Hne. split; [exact Hn | apply (net_torch Hn Hne)]. Qed.

Lemma add_array (a b : Tensor) (sp : list nat) (ra rb : nat -> nat)
  (f g : list nat -> R) :
  tt_array a sp ra f -> tt_array b sp rb g -> 2 <= length sp ->
  exists t, __add__ a (OTensor b) = Ok t
            /\ tt_array t sp (add_ranks (length sp) ra rb)
                 (fun idx => f idx +! g idx).
Proof.
  intros (Ha & Fa) (Hb & Fb) HN.
  destruct (add_tt_sum Ha Hb HN) as (t & A & B & TA & TB & E & Hn & Tt).
  rewrite Fa in TA. rewrite Fb in TB. inversion TA. inversion TB. subst A B.
  exists t. split; [exact E|]. split; [exact Hn|]. rewrite Tt.
  unfold build at 1 4. do 2 f_equal. apply tab_ext. intros idx Hidx.
  rewrite !get_build by exact Hidx. reflexivity.
Qed.

Lemma mul_array (a b : Tensor) (sp : list nat) (ra rb : nat -> nat)
  (f g : list nat -> R) :
  tt_array a sp ra f -> tt_array b sp rb g -> sp <> [] ->
  exists t, __mul__ a (OTensor b) = Ok t
            /\ tt_array t sp (fun k => ra k * rb k)
                 (fun idx => f idx *! g idx).
Proof.
  intros (Ha & Fa) (Hb & Fb) Hne.
  destruct (mul_tt_prod Ha Hb Hne) as (t & A & B & TA & TB & E & Hn & Tt).
  rewrite Fa in TA. rewrite Fb in TB. inversion TA. inversion TB. subst A B.
  exists t. split; [exact E|]. split; [exact Hn|]. rewrite Tt.
  unfold build at 1 4. do 2 f_equal. apply tab_ext. intros idx Hidx.
  rewrite !get_build by exact Hidx. reflexivity.
Qed.

Lemma scal_array (a : Tensor) (sp : list nat) (ra : nat -> nat)
  (f : list nat -> R) (c : R) :
  tt_array a sp ra f ->
  exists t, __mul__ a (OScalar c) = Ok t
            /\ tt_array t sp ra (fun idx => f idx *! c).
Proof.
  intros (Ha & Fa).
  destruct (@mul_scalar_clone a c _ Fa) as (c0 & cs & Ec & Em & Et).
  eexists. split; [exact Em|]. split.
  - pose proof (net_dim Ha) as Hd.
    destruct Ha as (Hs & HU & Hr). split; [|split; [|exact Hr]].
    + cbn [cores]. rewrite <- Hs, Ec. reflexivity.
    + cbn [Us]. rewrite HU, Hd. apply firstn_all2. rewrite repeat_length. lia.
  - rewrite Et. rewrite scale_build. reflexivity.
Qed.

(** Cores of rank 1 throughout make a TT network. *)
Lemma unit_network (cs : list tensor) (sp : list nat) :
  length cs = length sp ->
  (forall k, k < length sp -> tshape (nth k cs tnil) = [1; nth k sp 0; 1]) ->
  tt_network (mkTensor cs (repeat None (length sp))) sp (fun _ => 1).
Proof.
  intros Hl Hs. split; [|split; [reflexivity|split; [discriminate|]]].
  - cbn [cores]. apply (nth_ext _ _ (tshape tnil) []).
    + rewrite !length_map, length_seq. exact Hl.
    + intros k Hk. rewrite length_map in Hk.
      rewrite (map_nth tshape cs tnil k), nth_map_seq by lia.
      apply Hs. lia.
  - split; reflexivity.
Qed.

Lemma unit_cores_vec (sp : list nat) :
  forall idx v, in_range sp idx = true ->
    tt_vec (map (fun n => ones [1; n; 1]) sp) idx v 0 = v 0.
Proof.
  induction sp as [|n sp IH]; intros idx v Hidx.
  - destruct idx; [reflexivity | discriminate Hidx].
  - destruct (in_range_uncons _ _ _ Hidx) as (i & idx' & -> & Hi & Hr).
    cbn [map tt_vec]. rewrite (IH _ _ Hr).
    change (sh (ones [1; n; 1]) 0) with 1. unfold vm, mat3.
    rewrite rsum_one, get_ones by (apply in_range3; lia). ring.
Qed.

Lemma nth_map_ones (sp : list nat) (k : nat) :
  k < length sp ->
  tshape (nth k (map (fun n => ones [1; n; 1]) sp) tnil) = [1; nth k sp 0; 1].
Proof.
  intros Hk.
  rewrite (nth_indep _ tnil (ones [1; 0; 1])) by (rewrite length_map; exact Hk).
  rewrite (map_nth (fun n => ones [1; n; 1]) sp 0 k). reflexivity.
Qed.

(** The constant network that [__add__] builds for a number. *)
Lemma const_array (a : Tensor) (sp : list nat) (ra : nat -> nat)
  (f : list nat -> R) (c : R) :
  tt_array a sp ra f -> sp <> [] ->
  exists o, constant_like a c = Ok o
            /\ tt_array o sp (fun _ => 1) (fun _ => c).
Proof.
  intros (Ha & _) Hne. unfold constant_like.
  rewrite (tt_network_shape Ha). cbn [bind].
  set (cs := map (fun n => ones [1; n; 1]) sp).
  assert (Hl : length cs = length sp) by apply length_map.
  pose proof (@unit_network cs sp Hl (@nth_map_ones sp)) as Hn0.
  pose proof (@net_chain _ _ _ Hn0 0 ltac:(lia)) as Hch.
  cbn [cores skipn] in Hch.
  destruct (@tt_chain_chain false _ _ _ Hch) as (C1 & _ & _).
  destruct (@chain_dims_ranks false _ _ C1) as (D1 & D2).
  unfold Tensor_of_cores. rewrite D1, D2. cbn [negb].
  rewrite check_factors_none. cbn [bind cores Us]. rewrite Hl.
  destruct sp as [|n0 sp']; [congruence|].
  subst cs. cbn [map get_item nth_error bind set_item].
  eexists. split; [reflexivity|].
  assert (Hn : tt_network
                 (mkTensor (scale c (ones [1; n0; 1])
                            :: map (fun n => ones [1; n; 1]) sp')
                    (repeat None (length (n0 :: sp'))))
                 (n0 :: sp') (fun _ => 1)).
  { apply unit_network; [simpl; rewrite length_map; reflexivity|].
    intros [|k] Hk; [reflexivity|]. cbn [nth].
    apply nth_map_ones. simpl in Hk. lia. }
  split; [exact Hn|]. rewrite (net_torch Hn Hne). cbn [cores].
  unfold build. do 2 f_equal. apply tab_ext. intros idx Hidx.
  destruct (in_range_uncons _ _ _ Hidx) as (i & idx' & -> & Hi & Hr).
  cbn [tt_vec]. rewrite (unit_cores_vec _ _ _ Hr).
  change (sh (scale c (ones [1; n0; 1])) 0) with 1. unfold vm, mat3, v1.
  rewrite rsum_one, get_scale, get_ones by (apply in_range3; lia). ring.
Qed.

Lemma add_scalar_array (a : Tensor) (sp : list nat) (ra : nat -> nat)
  (f : list nat -> R) (c : R) :
  tt_array a sp ra f -> 2 <= length sp ->
  exists t, __add__ a (OScalar c) = Ok t
            /\ tt_array t sp (add_ranks (length sp) ra (fun _ => 1))
                 (fun idx => f idx +! c).
Proof.
  intros Ha HN.
  assert (Hne : sp <> []) by (intros E; rewrite E in HN; simpl in HN; lia).
  destruct (@const_array a sp ra f c Ha Hne) as (o & Eo & Ho).
  cbn [__add__]. rewrite Eo. cbn [bind].
  apply (@add_array a o sp ra (fun _ => 1) f (fun _ => c) Ha Ho HN).
Qed.

Lemma neg_array (a : Tensor) (sp : list nat) (ra : nat -> nat)
  (f : list nat -> R) :
  tt_array a sp ra f ->
  exists t, __neg__ a = Ok t /\ tt_array t sp ra (fun idx => ropp (f idx)).
Proof.
  intros Ha. destruct (@scal_array a sp ra f (ropp rI) Ha) as (t & Et & Ht).
  exists t. split; [exact Et|].
  apply (@tt_array_ext t sp ra (fun idx => f idx *! ropp rI)); [|exact Ht].
  intros idx _. ring.
Qed.

Lemma sub_array (a b : Tensor) (sp : list nat) (ra rb : nat -> nat)
  (f g : list nat -> R) :
  tt_array a sp ra f -> tt_array b sp rb g -> 2 <= length sp ->
  exists t, __sub__ a (OTensor b) = Ok t
            /\ tt_array t sp (add_ranks (length sp) ra rb)
                 (fun idx => f idx -! g idx).
Proof.
  intros Ha Hb HN.
  destruct (@scal_array b sp rb g (ropp rI) Hb) as (m & Em & Hm).
  unfold __sub__. cbn [minus_operand]. rewrite Em. cbn [bind].
  destruct (@add_array a m sp ra rb f _ Ha Hm HN) as (t & Et & Ht).
  exists t. split; [exact Et|].
  apply (@tt_array_ext t sp _ (fun idx => f idx +! g idx *! ropp rI));
    [|exact Ht].
  intros idx _. ring.
Qed.

(** X10: on a TT network without Tucker factors on two axes or more,
    [t + c] for a number [c] succeeds and decompresses to the array of [t]
    with [c] added to every entry; every inner rank grows by one. *)
Theorem add_scalar_spec (a : Tensor) (sp : list nat) (ra : nat -> nat)
  (f : list nat -> R) (c : R) :
  tt_array a sp ra f -> 2 <= length sp ->
  exists t, __add__ a (OScalar c) = Ok t
            /\ tt_array t sp (add_ranks (length sp) ra (fun _ => 1))
                 (fun idx => f idx +! c).
Proof. intros Ha HN. exact (add_scalar_array c Ha HN). Qed.

(** X11: on TT networks without Tucker factors of one shape, [-a]
    decompresses to the negated array of [a] with the ranks of [a], and, on
    two axes or more, [a - b] decompresses to the entrywise difference of
    the two arrays, with the ranks of a sum. *)
Theorem sub_tt_spec (a b : Tensor) (sp : list nat) (ra rb : nat -> nat)
  (f g : list nat -> R) :
  tt_array a sp ra f -> tt_array b sp rb g ->
  (exists t, __neg__ a = Ok t /\ tt_array t sp ra (fun idx => ropp (f idx)))
  /\ (2 <= length sp ->
      exists t, __sub__ a (OTensor b) = Ok t
                /\ tt_array t sp (add_ranks (length sp) ra rb)
                     (fun idx => f idx -! g idx)).
Proof.
  intros Ha Hb. split; [exact (neg_array Ha)|].
  intros HN. exact (sub_array Ha Hb HN).
Qed.

(** X12: on TT networks without Tucker factors of one shape on two axes or
    more that hold arrays of zeros and ones, the operators [~], [&], [|]
    and [^] succeed and decompress to the entrywise NOT, AND, OR and
    exclusive OR of the arrays. *)
Theorem logic_tt_spec (a b : Tensor) (sp : list nat) (ra rb : nat -> nat)
  (p q : list nat -> bool) :
  tt_array a sp ra (fun idx => of_bool (p idx)) ->
  tt_array b sp rb (fun idx => of_bool (q idx)) ->
  2 <= length sp ->
  (exists t rk, __invert__ a = Ok t
                /\ tt_array t sp rk (fun idx => of_bool (negb (p idx))))
  /\ (exists t rk, __and__ a (OTensor b) = Ok t
                   /\ tt_array t sp rk
                        (fun idx => of_bool (p idx && q idx)))
  /\ (exists t rk, __or__ a (OTensor b) = Ok t
                   /\ tt_array t sp rk
                        (fun idx => of_bool (p idx || q idx)))
  /\ (exists t rk, __xor__ a (OTensor b) = Ok t
                   /\ tt_array t sp rk
                        (fun idx => of_bool (xorb (p idx) (q idx)))).
Proof.
  intros Ha Hb HN.
  assert (Hne : sp <> []) by (intros E; rewrite E in HN; simpl in HN; lia).
  split; [|split; [|split]].
  - unfold __invert__, __rsub__, __rmul__.
    destruct (@scal_array a sp ra _ (ropp rI) Ha) as (m & Em & Hm).
    rewrite Em. cbn [bind].
    destruct (@add_scalar_array m sp ra _ rI Hm HN) as (t & Et & Ht).
    exists t. eexists. split; [exact Et|].
    eapply tt_array_ext; [|exact Ht].
    intros idx _. cbn beta. destruct (p idx); cbn [of_bool negb]; ring.
  - unfold __and__.
    destruct (@mul_array a b sp ra rb _ _ Ha Hb Hne) as (t & Et & Ht).
    exists t. eexists. split; [exact Et|].
    eapply tt_array_ext; [|exact Ht].
    intros idx _. cbn beta.
    destruct (p idx), (q idx); cbn [of_bool andb]; ring.
  - unfold __or__.
    destruct (@add_array a b sp ra rb _ _ Ha Hb HN) as (s & Es & Hs).
    destruct (@mul_array a b sp ra rb _ _ Ha Hb Hne) as (m & Em & Hm).
    rewrite Es. cbn [bind]. rewrite Em. cbn [bind].
    destruct (@sub_array s m sp _ _ _ _ Hs Hm HN) as (t & Et & Ht).
    exists t. eexists. split; [exact Et|].
    eapply tt_array_ext; [|exact Ht].
    intros idx _. cbn beta.
    destruct (p idx), (q idx); cbn [of_bool orb]; ring.
  - unfold __xor__, __rmul__.
    destruct (@add_array a b sp ra rb _ _ Ha Hb HN) as (s & Es & Hs).
    destruct (@scal_array a sp ra _ (rI +! rI) Ha) as (d & Ed & Hd).
    destruct (@mul_array d b sp ra rb _ _ Hd Hb Hne) as (m & Em & Hm).
    rewrite Es. cbn [bind]. rewrite Ed. cbn [bind]. rewrite Em. cbn [bind].
    destruct (@sub_array s m sp _ _ _ _ Hs Hm HN) as (t & Et & Ht).
    exists t. eexists. split; [exact Et|].
    eapply tt_array_ext; [|exact Ht].
    intros idx _. cbn beta.
    destruct (p idx), (q idx); cbn [of_bool xorb]; ring.
Qed.

(** ** The network without its Tucker factors *)

Lemma decompress_shape (cs : list tensor) :
  forall us ds,
    decompress_cores cs us = Ok ds ->
    shape_of cs us = Ok (map (fun d => shr d 2) ds).
Proof.
  induction cs as [|c cs IH]; intros us ds H.
  - inversion H. reflexivity.
  - cbn [decompress_cores] in H. cbn [shape_of].
    destruct us as [|[u|] us]; [discriminate H| |].
    + bind_as H c' Hc'. bind_as H r Hr. inversion H. subst ds. clear H.
      rewrite (IH _ _ Hr). cbn [bind map]. do 2 f_equal.
      destruct (tdim c =? 2).
      * unfold einsum_jk_aj_ak in Hc'.
        destruct (tshape c) as [|j [|k [|? ?]]]; try discriminate Hc'.
        unfold sh.
        destruct (tshape u) as [|a [|j' [|? ?]]]; try discriminate Hc'.
        destruct (j =? j'); [|discriminate Hc']. inversion Hc'. reflexivity.
      * unfold einsum_ijk_aj_iak in Hc'.
        destruct (tshape c) as [|i [|j [|k [|? ?]]]]; try discriminate Hc'.
        unfold sh.
        destruct (tshape u) as [|a [|j' [|? ?]]]; try discriminate Hc'.
        destruct (j =? j'); [|discriminate Hc']. inversion Hc'. reflexivity.
    + bind_as H r Hr. inversion H. subst ds. clear H.
      rewrite (IH _ _ Hr). reflexivity.
Qed.

(** X13: when [decompress_tucker_factors()] returns, the network it
    returns has as many cores and no Tucker factor, the shape of the
    network it was called on, and [torch()] gives the same on both (the
    same array or the same exception); decompressing it again returns it
    unchanged. *)
Theorem decompress_tucker_factors_spec (t t' : Tensor) :
  decompress_tucker_factors t = Ok t' ->
  dim t' = dim t
  /\ Us t' = repeat None (dim t)
  /\ shape t' = shape t
  /\ torch t' = torch t
  /\ decompress_tucker_factors t' = Ok t'.
Proof.
  intros H. pose proof H as H0. unfold decompress_tucker_factors in H.
  bind_as H ds Hds.
  destruct (Tensor_of_cores_inv _ _ H) as (Ec & EU & D1 & D2).
  pose proof (decompress_cores_length _ _ Hds) as Hl.
  assert (Hidem : decompress_tucker_factors t' = Ok t').
  { unfold decompress_tucker_factors. rewrite Ec, EU, decompress_cores_none.
    cbn [bind]. exact H. }
  unfold dim. rewrite Ec, EU, Hl.
  split; [reflexivity|]. split; [reflexivity|]. split; [|split; [|exact Hidem]].
  - unfold shape. rewrite Ec, EU, shape_of_none.
    symmetry. apply (decompress_shape _ _ Hds).
  - unfold torch. rewrite H0, Hidem. cbn [bind]. unfold ranks_tt. rewrite Ec.
    destruct (cores t) as [|c0 cs] eqn:E0.
    + inversion Hds. reflexivity.
    + destruct (@decompress_head _ _ _ _ Hds) as (d0 & ds' & -> & Hh).
      cbn [bind nth]. rewrite Hh. reflexivity.
Qed.

(** ** The cast to the TT format *)

Lemma converted_length (cs : list tensor) :
  forall first cs', converted first cs cs' -> length cs' = length cs.
Proof.
  induction cs as [|c r IH]; intros first [|c' r'] H; try contradiction;
    [reflexivity|].
  destruct H as (_ & H). cbn [length]. f_equal. apply (IH false), H.
Qed.

Lemma converted_is_nil (r r' : list tensor) :
  converted false r r' -> is_nil r' = is_nil r.
Proof. destruct r, r'; intros H; try contradiction; reflexivity. Qed.

(** A converted core past the first position has the ranks and the size
    of the core it stands for. *)
Lemma conv_core_ends (last : bool) (c c' : tensor) :
  conv_core false last c c' -> (tdim c = 2 \/ tdim c = 3) ->
  tdim c' = 3 /\ in_rank c' = in_rank c
  /\ out_rank last c' = out_rank last c /\ mid c' = mid c.
Proof.
  unfold conv_core, tdim, in_rank, out_rank, mid, shr, tdim.
  intros H D.
  destruct (tshape c) as [|x [|y [|z [|? ?]]]] eqn:E; cbn [length] in D;
    try (destruct D; discriminate).
  - destruct last; destruct H as (S & _); rewrite S; repeat split.
  - subst c'. rewrite E. repeat split.
Qed.

(** ... and takes a vector to the same vector. *)
Lemma conv_core_step (last : bool) (c c' : tensor) (b : nat) (v : nat -> R) :
  conv_core false last c c' -> (tdim c = 2 \/ tdim c = 3) -> b < mid c ->
  forall j, j < out_rank last c ->
            vec_step last c' b v j = vec_step last c b v j.
Proof.
  unfold conv_core, tdim, out_rank, mid, shr, tdim, vec_step.
  intros H D Hb j Hj.
  destruct (tshape c) as [|x [|y [|z [|? ?]]]] eqn:E; cbn [length] in D;
    try (destruct D; discriminate); cbn [length Nat.sub nth] in Hb.
  - destruct last; destruct H as (S & G); rewrite S.
    + assert (j = 0) by lia. subst j. apply rsum_ext. intros i Hi.
      rewrite G by assumption. reflexivity.
    + rewrite (@rsum_ext y _ (fun i => (v i *! get c [b; i]) *! delta i j)).
      * apply rsum_delta_r. exact Hj.
      * intros i Hi. rewrite G by assumption. unfold delta.
        destruct (i =? j); ring.
  - subst c'. rewrite E. reflexivity.
Qed.

(** Past the first position, the converted cores chain up as the cores
    they stand for ... *)
Lemma conv_tail_chain (cs : list tensor) :
  forall cs' w,
    converted false cs cs' -> chain false w cs ->
    chain false w cs' /\ map mid cs' = map mid cs
    /\ width_after false cs' w = width_after false cs w
    /\ Forall (fun c => tdim c = 3) cs'.
Proof.
  induction cs as [|c r IH]; intros [|c' r'] w H Hch; try contradiction.
  - repeat split. constructor.
  - destruct H as (Hc & H). destruct Hch as (D & Hin & Hout & Hch).
    cbn [is_last] in *.
    destruct (@conv_core_ends _ _ _ Hc D) as (D' & I' & O' & M').
    destruct (IH _ _ H Hch) as (C1 & C2 & C3 & C4).
    cbn [chain map width_after is_last].
    rewrite (converted_is_nil _ _ H), O', M', C2, C3.
    repeat split; try assumption.
    + right. exact D'.
    + congruence.
    + constructor; assumption.
Qed.

(** ... and take a vector to the same vector. *)
Lemma conv_tail_vec (cs : list tensor) :
  forall cs' w idx v j,
    converted false cs cs' -> chain false w cs ->
    in_range (map mid cs) idx = true ->
    j < width_after false cs w ->
    vec_chain false cs' idx v j = vec_chain false cs idx v j.
Proof.
  induction cs as [|c r IH]; intros [|c' r'] w idx v j H Hch Hidx Hj;
    try contradiction.
  - destruct idx; [reflexivity | discriminate Hidx].
  - destruct H as (Hc & H). destruct Hch as (D & Hin & Hout & Hch).
    cbn [map] in Hidx.
    destruct (in_range_uncons _ _ _ Hidx) as (b & idx' & -> & Hb & Hr).
    cbn [vec_chain width_after is_last] in *.
    rewrite (converted_is_nil _ _ H).
    rewrite (IH r' (out_rank (is_nil r) c) idx' _ j H Hch Hr Hj).
    apply (@vec_chain_ext false r idx' (out_rank (is_nil r) c)); try assumption.
    + apply in_range_length in Hr. rewrite length_map in Hr. exact Hr.
    + intros i Hi. apply conv_core_step; assumption.
Qed.

(** The converted network stands for the same array, unless it is a single
    CP factor of rank 0. *)
Lemma conv_head (cs cs' : list tensor) :
  converted true cs cs' -> cs <> [] ->
  chain false (in_rank (hd tnil cs)) cs ->
  (forall n, map tshape cs <> [[n; 0]]) ->
  chain false (in_rank (hd tnil cs')) cs'
  /\ map mid cs' = map mid cs
  /\ Forall (fun c => tdim c = 3) cs'
  /\ forall idx, in_range (map mid cs) idx = true ->
                 entry cs' idx = entry cs idx.
Proof.
  destruct cs as [|c r]; [congruence|]. destruct cs' as [|c' r'];
    [contradiction|].
  intros (Hc & H) _ Hch Hz. cbn [hd] in *.
  destruct Hch as (D & _ & Hout & Hch). cbn [is_last] in *.
  pose proof (converted_is_nil _ _ H) as Hnil.
  destruct (@conv_tail_chain _ _ _ H Hch) as (C1 & C2 & C3 & C4).
  unfold conv_core in Hc.
  destruct (tshape c) as [|n [|q [|z [|? ?]]]] eqn:E;
    try (unfold tdim in D; rewrite E in D; cbn [length] in D;
         destruct D; discriminate).
  - (* a CP factor in the first position *)
    destruct Hc as (S' & G').
    assert (D' : tdim c' = 3) by (unfold tdim; rewrite S'; reflexivity).
    assert (M' : mid c' = mid c)
      by (unfold mid, shr, tdim; rewrite S', E; reflexivity).
    assert (O' : out_rank (is_nil r) c' = q)
      by (unfold out_rank; rewrite S'; reflexivity).
    destruct r as [|c1 r].
    + (* the only core *)
      destruct r' as [|? ?]; [|contradiction].
      assert (Hq : q <> 0).
      { intros ->. apply (Hz n). cbn [map]. rewrite E. reflexivity. }
      split; [|split; [|split]].
      * cbn [chain is_last is_nil]. repeat split; [right; exact D'|].
        cbn [is_nil] in O'. rewrite O'. exact Hq.
      * cbn [map]. rewrite M'. reflexivity.
      * constructor; [exact D' | constructor].
      * intros idx Hidx. cbn [map] in Hidx.
        destruct (in_range_uncons _ _ _ Hidx) as (b & idx' & -> & Hb & Hr).
        destruct idx'; [|discriminate Hr].
        unfold entry. cbn [width_after vec_chain is_last is_nil].
        unfold out_rank, vec_step. rewrite S', E.
        unfold mid, shr, tdim in Hb. rewrite E in Hb.
        cbn [length Nat.sub nth] in Hb.
        rewrite rsum_one. apply rsum_ext. intros j Hj.
        rewrite rsum_one, G' by assumption. reflexivity.
    + (* other cores follow *)
      assert (Hnn : is_nil (c1 :: r) = false) by reflexivity.
      remember (c1 :: r) as rr eqn:Err. clear Err.
      rewrite Hnn in *.
      assert (Oc : out_rank false c = q)
        by (unfold out_rank; rewrite E; reflexivity).
      rewrite Oc in *.
      split; [|split; [|split]].
      * cbn [chain is_last]. rewrite Hnil, O'.
        repeat split; try assumption. right. exact D'.
      * cbn [map]. rewrite M', C2. reflexivity.
      * constructor; assumption.
      * intros idx Hidx. cbn [map] in Hidx.
        destruct (in_range_uncons _ _ _ Hidx) as (b & idx' & -> & Hb & Hr).
        unfold entry. cbn [width_after vec_chain is_last].
        rewrite Hnil, Hnn, O', Oc, C3. apply rsum_ext. intros j Hj.
        rewrite (@conv_tail_vec rr r' q idx' _ j H Hch Hr Hj).
        apply (@vec_chain_ext false rr idx' q); try assumption.
        -- apply in_range_length in Hr. rewrite length_map in Hr. exact Hr.
        -- intros i Hi. unfold vec_step. rewrite S', E.
           unfold mid, shr, tdim in Hb. rewrite E in Hb.
           cbn [length Nat.sub nth] in Hb.
           rewrite rsum_one, G' by assumption. reflexivity.
  - (* a TT core in the first position *)
    subst c'.
    split; [|split; [|split]].
    + cbn [chain is_last]. rewrite Hnil. repeat split; assumption.
    + cbn [map]. rewrite C2. reflexivity.
    + constructor; [|exact C4]. unfold tdim. rewrite E. reflexivity.
    + intros idx Hidx. cbn [map] in Hidx.
      destruct (in_range_uncons _ _ _ Hidx) as (b & idx' & -> & Hb & Hr).
      unfold entry. cbn [width_after vec_chain is_last].
      rewrite Hnil, C3. apply rsum_ext. intros j Hj.
      apply (@conv_tail_vec r r' _ idx' _ j H Hch Hr Hj).
Qed.

(** *** What [_cp_to_tt()] makes of every core *)

Lemma first_conv (last : bool) (c : tensor) :
  conv_core true last c (if tdim c =? 2 then unsqueeze_first c else c).
Proof.
  unfold conv_core, tdim.
  destruct (tshape c) as [|n [|q [|z l]]] eqn:E; try reflexivity.
  cbn [length Nat.eqb]. unfold unsqueeze_first. rewrite E.
  split; [reflexivity|]. intros i a _ _. unfold get. cbn [tshape tdata].
  rewrite E. reflexivity.
Qed.

Lemma mid_conv (c : tensor) :
  tdim c = 2 \/ tdim c = 3 ->
  exists c', _cp_to_tt c = Ok c' /\ conv_core false false c c'.
Proof.
  intros D. unfold conv_core, tdim in *.
  destruct (tshape c) as [|n [|q [|z [|? ?]]]] eqn:E; cbn [length] in D;
    try (destruct D; discriminate).
  - destruct (@cp_to_tt_diag c n q E) as (c' & E' & S' & G').
    exists c'. split; [exact E'|]. split; assumption.
  - exists c. split; [|reflexivity]. unfold _cp_to_tt. rewrite E. reflexivity.
Qed.

Lemma last_conv (c : tensor) :
  tdim c = 2 \/ tdim c = 3 ->
  exists c', (if tdim c =? 2 then transpose_unsqueeze c else Ok c) = Ok c'
             /\ conv_core false true c c'.
Proof.
  intros D. unfold conv_core, tdim in *.
  destruct (tshape c) as [|n [|q [|z [|? ?]]]] eqn:E; cbn [length] in D;
    try (destruct D; discriminate); cbn [length Nat.eqb].
  - unfold transpose_unsqueeze, transpose. rewrite E. cbn [bind].
    eexists. split; [reflexivity|]. split; [reflexivity|].
    intros i a Hi Ha. unfold unsqueeze_last, build2, build.
    cbn [tshape tdata app]. rewrite get_lin3.
    replace ((a * n + i) * 1 + 0) with (ravel [q; n] [a; i])
      by (rewrite ravel2; lia).
    rewrite nth_tab by (apply in_range2; assumption). reflexivity.
  - exists c. split; reflexivity.
Qed.

Lemma converted_of_nth (cs : list tensor) :
  forall cs' first,
    length cs' = length cs ->
    (forall n, n < length cs ->
       conv_core (first && (n =? 0)) (n =? length cs - 1)
         (nth n cs tnil) (nth n cs' tnil)) ->
    converted first cs cs'.
Proof.
  induction cs as [|c r IH]; intros [|c' r'] first Hl H; try discriminate Hl;
    [exact I|].
  cbn [converted]. split.
  - specialize (H 0 ltac:(simpl; lia)). cbn [nth] in H.
    replace (length (c :: r) - 1) with (length r) in H by (simpl; lia).
    change (0 =? 0) with true in H. rewrite andb_true_r in H.
    destruct r; exact H.
  - apply IH; [simpl in Hl; lia|]. intros n Hn.
    specialize (H (S n) ltac:(simpl; lia)). cbn [nth] in H.
    replace (length (c :: r) - 1) with (length r) in H by (simpl; lia).
    change (S n =? 0) with false in H. rewrite andb_false_r in H.
    cbn [andb]. destruct (length r) as [|m] eqn:Er; [lia|].
    replace (S m - 1) with m by lia. exact H.
Qed.

(** [_cp_to_tt()] on a network of CP factors and TT cores succeeds and
    converts every core. *)
Lemma cp_to_tt_all_converted (t : Tensor) :
  cores t <> [] ->
  (forall n, n < length (cores t) ->
             tdim (nth n (cores t) tnil) = 2
             \/ tdim (nth n (cores t) tnil) = 3) ->
  exists cs', cp_to_tt_all t = Ok (mkTensor cs' (Us t))
              /\ converted true (cores t) cs'.
Proof.
  intros Hne HD. unfold cp_to_tt_all.
  set (cs0 := cores t) in *. set (N := length cs0).
  assert (HN : 0 < N)
    by (unfold N; destruct cs0; [congruence | simpl; lia]).
  rewrite (@get_item_nth _ cs0 0 tnil) by exact HN. cbn [bind].
  set (c0 := nth 0 cs0 tnil).
  (* the first core *)
  assert (H1 : exists cs1,
             (if tdim c0 =? 2 then set_item cs0 0 (unsqueeze_first c0)
              else Ok cs0) = Ok cs1
             /\ length cs1 = N
             /\ nth 0 cs1 tnil
                = (if tdim c0 =? 2 then unsqueeze_first c0 else c0)
             /\ forall n, 1 <= n -> nth n cs1 tnil = nth n cs0 tnil).
  { destruct (tdim c0 =? 2).
    - destruct (@set_item_total _ cs0 0 (unsqueeze_first c0) HN) as (cs1 & E1).
      exists cs1. split; [exact E1|].
      split; [apply (set_item_length _ _ _ E1)|]. split.
      + rewrite (@set_item_nth _ _ _ _ 0 _ tnil E1). reflexivity.
      + intros n Hn. rewrite (@set_item_nth _ _ _ _ n _ tnil E1).
        replace (n =? 0) with false by (symmetry; apply Nat.eqb_neq; lia).
        reflexivity.
    - exists cs0. repeat split. }
  destruct H1 as (cs1 & E1 & L1 & F1 & R1). rewrite E1. cbn [bind].
  (* the cores between the first and the last *)
  destruct (@foldM_seq_total _
              (fun cs mu => c <- get_item cs mu ;;
                            c' <- _cp_to_tt c ;;
                            set_item cs mu c')
              (fun k l => length l = N
                          /\ nth 0 l tnil = nth 0 cs1 tnil
                          /\ (forall n, 1 <= n < k ->
                                conv_core false false (nth n cs0 tnil)
                                  (nth n l tnil))
                          /\ forall n, k <= n -> nth n l tnil = nth n cs0 tnil)
              1 (length cs1 - 2) cs1) as (cs2 & E2 & L2 & F2 & M2 & R2).
  { split; [exact L1|]. split; [reflexivity|]. split; [intros n Hn; lia|].
    exact R1. }
  { intros k l Hk (Ll & Fl & Ml & Rl). rewrite L1 in Hk.
    rewrite (@get_item_nth _ l k tnil) by lia. cbn [bind].
    rewrite (Rl k (Nat.le_refl k)).
    destruct (@mid_conv (nth k cs0 tnil) (@HD k ltac:(unfold N in *; lia)))
      as (c' & Ec' & Cc').
    rewrite Ec'. cbn [bind].
    destruct (@set_item_total _ l k c' ltac:(lia)) as (l' & El').
    exists l'. split; [exact El'|].
    split; [rewrite (set_item_length _ _ _ El'); exact Ll|]. split; [|split].
    - rewrite (@set_item_nth _ _ _ _ 0 _ tnil El').
      replace (0 =? k) with false by (symmetry; apply Nat.eqb_neq; lia).
      exact Fl.
    - intros n Hn. rewrite (@set_item_nth _ _ _ _ n _ tnil El').
      destruct (Nat.eqb_spec n k) as [->|Hnk]; [exact Cc'|].
      apply Ml. lia.
    - intros n Hn. rewrite (@set_item_nth _ _ _ _ n _ tnil El').
      replace (n =? k) with false by (symmetry; apply Nat.eqb_neq; lia).
      apply Rl. lia. }
  rewrite E2. cbn [bind]. rewrite L1 in M2, R2.
  (* the last core *)
  rewrite (@get_last_nth _ cs2 tnil)
    by (intros E; rewrite E in L2; simpl in L2; lia).
  cbn [bind]. rewrite L2.
  set (cl := nth (N - 1) cs2 tnil).
  assert (H3 : exists cs3,
             (if tdim cl =? 2
              then c' <- transpose_unsqueeze cl ;; set_last cs2 c'
              else Ok cs2) = Ok cs3
             /\ length cs3 = N
             /\ nth 0 cs3 tnil
                = (if tdim c0 =? 2 then unsqueeze_first c0 else c0)
             /\ (forall n, 1 <= n < N - 1 ->
                   conv_core false false (nth n cs0 tnil) (nth n cs3 tnil))
             /\ (1 <= N - 1 ->
                 conv_core false true (nth (N - 1) cs0 tnil)
                   (nth (N - 1) cs3 tnil))).
  { destruct (Nat.eq_dec N 1) as [N1|N1].
    - (* one core: it is a TT core by now *)
      assert (Dl : (tdim cl =? 2) = false).
      { unfold cl. rewrite N1. cbn [Nat.sub]. rewrite F2, F1.
        destruct (@HD 0 HN) as [D|D]; fold c0 in D; rewrite D;
          cbn [Nat.eqb].
        - unfold tdim, unsqueeze_first. cbn [tshape length].
          fold (tdim c0). rewrite D. reflexivity.
        - rewrite D. reflexivity. }
      rewrite Dl. exists cs2. split; [reflexivity|]. split; [exact L2|].
      split; [rewrite F2; exact F1|]. split; intros; lia.
    - assert (Ecl : cl = nth (N - 1) cs0 tnil) by (apply R2; lia).
      destruct (@last_conv cl) as (c' & Ec' & Cc').
      { rewrite Ecl. apply HD. unfold N in *. lia. }
      destruct (tdim cl =? 2).
      + rewrite Ec'. cbn [bind].
        destruct (@set_item_total _ cs2 (N - 1) c' ltac:(lia)) as (cs3 & E3).
        assert (E3' : set_last cs2 c' = Ok cs3).
        { unfold set_last. destruct cs2; [simpl in L2; lia|].
          rewrite L2. exact E3. }
        rewrite E3'. exists cs3. split; [reflexivity|].
        split; [rewrite (set_item_length _ _ _ E3); exact L2|].
        split; [|split].
        * rewrite (@set_item_nth _ _ _ _ 0 _ tnil E3).
          replace (0 =? N - 1) with false
            by (symmetry; apply Nat.eqb_neq; lia).
          rewrite F2. exact F1.
        * intros n Hn. rewrite (@set_item_nth _ _ _ _ n _ tnil E3).
          replace (n =? N - 1) with false
            by (symmetry; apply Nat.eqb_neq; lia).
          apply M2. lia.
        * intros _. rewrite (@set_item_nth _ _ _ _ (N - 1) _ tnil E3).
          rewrite Nat.eqb_refl, <- Ecl. exact Cc'.
      + inversion Ec'. subst c'. exists cs2. split; [reflexivity|].
        split; [exact L2|]. split; [rewrite F2; exact F1|]. split.
        * intros n Hn. apply M2. lia.
        * intros _. rewrite <- Ecl. exact Cc'. }
  destruct H3 as (cs3 & E3 & L3 & F3 & M3 & T3). rewrite E3. cbn [bind].
  exists cs3. split; [reflexivity|].
  apply converted_of_nth; [exact L3|]. fold N. intros n Hn.
  destruct (Nat.eq_dec n 0) as [->|Hn0].
  - cbn [Nat.eqb andb]. rewrite F3. fold c0. apply first_conv.
  - replace (n =? 0) with false by (symmetry; apply Nat.eqb_neq; lia).
    cbn [andb].
    destruct (Nat.eq_dec n (N - 1)) as [->|HnN].
    + rewrite Nat.eqb_refl. apply T3. lia.
    + replace (n =? N - 1) with false by (symmetry; apply Nat.eqb_neq; lia).
      apply M3. lia.
Qed.

(** A network that is a single CP factor of rank 0 decompresses to one. *)
Lemma single_rank0 (cs ds : list tensor) (n : nat) :
  Forall2 same_ends cs ds -> map tshape ds = [[n; 0]] ->
  exists m, map tshape cs = [[m; 0]].
Proof.
  intros HF E. destruct HF as [|c d cs ds (Hd & Hr & _) HF]; [discriminate E|].
  destruct HF; [|discriminate E]. cbn [map] in E. injection E as E.
  unfold tdim, shr, tdim in Hd, Hr. rewrite E in Hd, Hr.
  cbn [length Nat.sub nth] in Hd, Hr.
  destruct (tshape c) as [|m [|q [|? ?]]] eqn:Ec; try discriminate Hd.
  cbn [length Nat.sub nth] in Hr. subst q. exists m. cbn [map].
  rewrite Ec. reflexivity.
Qed.

(** X14: for a network that [torch()] decompresses and that is not a single
    CP factor of rank 0, [tt()] returns a network with as many cores, all
    of them TT cores, and no Tucker factors, and [torch()] decompresses it
    to the same array. *)
Theorem tt_spec (t : Tensor) (A : tensor) :
  torch t = Ok A ->
  (forall n, map tshape (cores t) <> [[n; 0]]) ->
  exists t',
    Tensor_tt t = Ok t'
    /\ dim t' = dim t
    /\ Forall (fun c => tdim c = 3) (cores t')
    /\ Us t' = repeat None (dim t)
    /\ torch t' = Ok A.
Proof.
  intros H Hz. destruct (@torch_inv _ _ H) as (ds & (Hne & Hd & Hch) & ->).
  pose proof (decompress_cores_length _ _ Hd) as Hl.
  destruct (@chain_dims_ranks false _ _ Hch) as (D1 & D2).
  unfold Tensor_tt, decompress_tucker_factors. rewrite Hd. cbn [bind].
  unfold Tensor_of_cores. rewrite D1, D2. cbn [negb].
  rewrite check_factors_none. cbn [bind].
  destruct (@cp_to_tt_all_converted (mkTensor ds (repeat None (length ds))))
    as (cs' & Ecs & Hcv).
  { exact Hne. }
  { intros n Hn. apply core_dims_ok_nth; assumption. }
  cbn [cores Us] in Ecs, Hcv. rewrite Ecs.
  destruct (@conv_head ds cs' Hcv Hne Hch) as (C1 & C2 & C3 & C4).
  { intros n E.
    destruct (@single_rank0 _ _ n (decompress_same_ends _ _ Hd) E) as (m & Em).
    exact (Hz m Em). }
  pose proof (converted_length _ _ _ Hcv) as Hl'.
  eexists. split; [reflexivity|]. unfold dim. cbn [cores Us].
  split; [lia|]. split; [exact C3|]. split; [rewrite Hl; reflexivity|].
  assert (Hv' : valid (mkTensor cs' (repeat None (length ds))) cs').
  { split; [intros E; rewrite E in Hl'; destruct ds; [congruence|discriminate]|].
    split; [|exact C1]. cbn [cores Us]. rewrite <- Hl'.
    apply decompress_cores_none. }
  rewrite (@torch_spec _ _ Hv'). rewrite C2. unfold build. do 2 f_equal.
  apply tab_ext. exact C4.
Qed.

(** ** Orthogonalization keeps the array *)

Lemma skipn_ext (A : Type) (d : A) (l : list A) :
  forall l' n,
    length l' = length l ->
    (forall m, n <= m -> nth m l' d = nth m l d) ->
    skipn n l' = skipn n l.
Proof.
  induction l as [|x l IH]; intros [|x' l'] n Hl H; try discriminate Hl.
  - reflexivity.
  - destruct n as [|n].
    + cbn [skipn]. f_equal.
      * apply (H 0). lia.
      * apply (IH l' 0); [simpl in Hl; lia|]. intros m _.
        apply (H (S m)). lia.
    + cbn [skipn]. apply IH; [simpl in Hl; lia|]. intros m Hm.
      apply (H (S m)). lia.
Qed.

(** *** Two neighbouring cores replaced by two with the same product *)

Section Pair.

Variable t : Tensor.
Variable sp : list nat.
Variable rk : nat -> nat.
Hypothesis Hnet : tt_network t sp rk.

Variables lo k : nat.
Variables c' cn' : tensor.
Variable cs2 : list tensor.

Hypothesis Hlo : lo + 1 < length sp.
Hypothesis Hk : k <> 0.
Hypothesis Sc' : tshape c' = [rk lo; nth lo sp 0; k].
Hypothesis Scn' : tshape cn' = [k; nth (lo + 1) sp 0; rk (lo + 2)].
Hypothesis Hprod :
  forall i i' p j,
    i < nth lo sp 0 -> i' < nth (lo + 1) sp 0 ->
    p < rk lo -> j < rk (lo + 2) ->
    rsum k (fun l => get c' [p; i; l] *! get cn' [l; i'; j])
    = rsum (rk (lo + 1))
        (fun q => get (nth lo (cores t) tnil) [p; i; q]
                  *! get (nth (lo + 1) (cores t) tnil) [q; i'; j]).
Hypothesis Hlen : length cs2 = length (cores t).
Hypothesis Hc' : nth lo cs2 tnil = c'.
Hypothesis Hcn' : nth (lo + 1) cs2 tnil = cn'.
Hypothesis Hrest :
  forall n, n <> lo -> n <> lo + 1 -> nth n cs2 tnil = nth n (cores t) tnil.

Definition pair_ranks (n : nat) : nat := if n =? lo + 1 then k else rk n.

Lemma pair_network : tt_network (mkTensor cs2 (Us t)) sp pair_ranks.
Proof.
  pose proof (net_dim Hnet) as Hd. unfold dim in Hd.
  pose proof Hnet as (_ & HU & Hr & H0 & HN).
  unfold tt_network, pair_ranks. cbn [cores Us].
  split; [|split; [exact HU|split]].
  - apply (nth_ext _ _ (tshape tnil) []).
    + rewrite !length_map, length_seq. lia.
    + intros n Hn. rewrite length_map in Hn.
      rewrite (map_nth tshape cs2 tnil n), nth_map_seq by lia.
      destruct (Nat.eq_dec n lo) as [->|N1].
      * rewrite Hc', Sc'.
        replace (lo =? lo + 1) with false
          by (symmetry; apply Nat.eqb_neq; lia).
        replace (S lo) with (lo + 1) by lia. rewrite Nat.eqb_refl.
        reflexivity.
      * destruct (Nat.eq_dec n (lo + 1)) as [->|N2].
        -- rewrite Hcn', Scn', Nat.eqb_refl.
           replace (S (lo + 1)) with (lo + 2) by lia.
           replace (lo + 2 =? lo + 1) with false
             by (symmetry; apply Nat.eqb_neq; lia).
           reflexivity.
        -- rewrite (Hrest N1 N2).
           rewrite (@net_core_shape t sp rk Hnet n) by lia.
           replace (n =? lo + 1) with false
             by (symmetry; apply Nat.eqb_neq; lia).
           replace (S n =? lo + 1) with false
             by (symmetry; apply Nat.eqb_neq; lia).
           reflexivity.
  - intros n. destruct (n =? lo + 1); [exact Hk | apply Hr].
  - replace (0 =? lo + 1) with false by (symmetry; apply Nat.eqb_neq; lia).
    replace (length sp =? lo + 1) with false
      by (symmetry; apply Nat.eqb_neq; lia).
    split; assumption.
Qed.

Lemma pair_vec (idx : list nat) (v : nat -> R) :
  in_range (skipn lo sp) idx = true ->
  tt_vec (skipn lo cs2) idx v 0 = tt_vec (skipn lo (cores t)) idx v 0.
Proof.
  intros Hidx. pose proof (net_dim Hnet) as Hd. unfold dim in Hd.
  rewrite (@skipn_nth_any _ sp 0 lo) in Hidx by lia.
  rewrite (@skipn_nth_any _ sp 0 (S lo)) in Hidx by lia.
  rewrite (@skipn_nth_any _ cs2 tnil lo),
          (@skipn_nth_any _ cs2 tnil (S lo)) by lia.
  rewrite (@skipn_nth_any _ (cores t) tnil lo),
          (@skipn_nth_any _ (cores t) tnil (S lo)) by lia.
  replace (S lo) with (lo + 1) in * by lia.
  replace (S (lo + 1)) with (lo + 2) in * by lia.
  rewrite Hc', Hcn'.
  rewrite (@skipn_ext _ tnil (cores t) cs2 (lo + 2) Hlen)
    by (intros m Hm; apply Hrest; lia).
  destruct (in_range_uncons _ _ _ Hidx) as (i & idx1 & -> & Hi & Hr1).
  destruct (in_range_uncons _ _ _ Hr1) as (i' & idx2 & -> & Hi' & Hr2).
  cbn [tt_vec].
  pose proof (@net_core_shape t sp rk Hnet lo ltac:(lia)) as Sc.
  pose proof (@net_core_shape t sp rk Hnet (lo + 1) ltac:(lia)) as Scn.
  unfold sh. rewrite Sc', Scn', Sc, Scn. cbn [nth].
  replace (S lo) with (lo + 1) by lia.
  pose proof (@net_chain t sp rk Hnet (lo + 2) ltac:(lia)) as Hch.
  apply (@tt_vec_ext _ _ _ idx2 _ _ 0 Hch).
  - apply in_range_length in Hr2. rewrite !length_skipn in *. lia.
  - intros j Hj. rewrite !vm_assoc. apply vm_ext; [reflexivity|].
    intros p Hp. unfold mat3. apply Hprod; assumption.
  - lia.
Qed.

Lemma pair_prefix (m : nat) :
  forall n idx v,
    n + m = lo -> in_range (skipn n sp) idx = true ->
    tt_vec (skipn n cs2) idx v 0 = tt_vec (skipn n (cores t)) idx v 0.
Proof.
  pose proof (net_dim Hnet) as Hd. unfold dim in Hd.
  induction m as [|m IH]; intros n idx v Hn Hidx.
  - assert (n = lo) by lia. subst n. apply pair_vec, Hidx.
  - rewrite (@skipn_nth_any _ sp 0 n) in Hidx by lia.
    rewrite (@skipn_nth_any _ cs2 tnil n),
            (@skipn_nth_any _ (cores t) tnil n) by lia.
    destruct (in_range_uncons _ _ _ Hidx) as (i & idx1 & -> & Hi & Hr1).
    cbn [tt_vec]. rewrite (@Hrest n) by lia.
    apply IH; [lia | exact Hr1].
Qed.

Lemma pair_array :
  sp <> [] ->
  tt_array (mkTensor cs2 (Us t)) sp pair_ranks
    (fun idx => tt_vec (cores t) idx v1 0).
Proof.
  intros Hne. split; [exact pair_network|].
  rewrite (net_torch pair_network Hne). cbn [cores].
  unfold build. do 2 f_equal. apply tab_ext. intros idx Hidx.
  apply (@pair_prefix lo 0 idx v1); [lia | exact Hidx].
Qed.

End Pair.

Lemma get_as3_trail (a b c i j k : nat) (d : list R) :
  get (mkT [a; b; c] d) [i; j; k] = get (mkT [a; b * c] d) [i; j * c + k].
Proof.
  unfold get. simpl tshape. rewrite ravel3, ravel2. f_equal. ring.
Qed.

Lemma shape_eta (x : tensor) (s : list nat) :
  tshape x = s -> x = mkT s (tdata x).
Proof. intros <-. destruct x; reflexivity. Qed.

Lemma positive_nth_pos (sp : list nat) (n : nat) :
  positive sp -> n < length sp -> nth n sp 0 <> 0.
Proof.
  intros Hp Hn. unfold positive in Hp. rewrite Forall_forall in Hp.
  pose proof (Hp (nth n sp 0) (nth_In _ _ Hn)). lia.
Qed.

(** *** The contracts of the factorizations *)

Section Exact.

(** [torch.qr] of an [(a, b)] matrix returns [Q] of shape [(a, min(a, b))]
    and [R] of shape [(min(a, b), b)] whose product is the matrix. *)
Hypothesis qr_thin :
  forall m Q Rf a b,
    tshape m = [a; b] -> qr m = Ok (Q, Rf) ->
    tshape Q = [a; Nat.min a b] /\ tshape Rf = [Nat.min a b; b].

Hypothesis qr_exact :
  forall m Q Rf a b,
    tshape m = [a; b] -> qr m = Ok (Q, Rf) ->
    forall i j, i < a -> j < b ->
      rsum (Nat.min a b) (fun l => get Q [i; l] *! get Rf [l; j])
      = get m [i; j].

(** [left_orthogonalize(mu)] on a TT network without Tucker factors. *)
Lemma left_orthogonalize_array (t t' : Tensor) (sp : list nat)
  (rk : nat -> nat) (mu : Z) (Rf : tensor) :
  tt_network t sp rk -> positive sp ->
  left_orthogonalize t mu = Ok (t', Rf) ->
  exists rk',
    (forall n, rk' n <= rk n)
    /\ tt_array t' sp rk' (fun idx => tt_vec (cores t) idx v1 0).
Proof.
  intros Hnet Hpos H.
  pose proof (net_dim Hnet) as Hd.
  pose proof Hnet as (_ & _ & Hr & _).
  unfold left_orthogonalize in H.
  bind_as H u Hu. unfold assert in Hu.
  destruct ((0 <=? mu)%Z && (mu <? Z.of_nat (dim t) - 1)%Z) eqn:Hb;
    [|discriminate Hu]. clear Hu u.
  apply andb_true_iff in Hb. destruct Hb as (B1 & B2).
  apply Z.leb_le in B1. apply Z.ltb_lt in B2.
  set (m := Z.to_nat mu) in *.
  assert (Hm : m + 1 < length sp) by (unfold m; lia).
  assert (Hne : sp <> []) by (intros E; rewrite E in Hm; simpl in Hm; lia).
  unfold factor_orthogonalize in H.
  rewrite (@net_factor t sp rk Hnet m ltac:(lia)) in H. cbn [bind] in H.
  rewrite (@net_core t sp rk Hnet m ltac:(lia)) in H. cbn [bind] in H.
  pose proof (@net_core_shape t sp rk Hnet m ltac:(lia)) as Sc.
  pose proof (@net_core_shape t sp rk Hnet (m + 1) ltac:(lia)) as Scn.
  replace (S (m + 1)) with (m + 2) in Scn by lia.
  replace (S m) with (m + 1) in Sc by lia.
  set (c := nth m (cores t) tnil) in *.
  set (cn := nth (m + 1) (cores t) tnil) in *.
  set (r := rk m) in *. set (s := nth m sp 0) in *.
  set (r' := rk (m + 1)) in *. set (s' := nth (m + 1) sp 0) in *.
  set (r'' := rk (m + 2)) in *.
  assert (Hr0 : r <> 0) by apply Hr. assert (Hr1 : r' <> 0) by apply Hr.
  assert (Hr2 : r'' <> 0) by apply Hr.
  assert (Hs : s <> 0) by (apply positive_nth_pos; [exact Hpos | lia]).
  (* the unfolding of the core and its factorization *)
  unfold left_unfolding in H.
  replace (shr c 1) with r' in H by (unfold shr, tdim; rewrite Sc; reflexivity).
  rewrite (@reshape_lead c (r * s) r' Hr1) in H
    by (rewrite Sc; simpl; lia).
  cbn [bind] in H. bind_as H qrf Hqr. destruct qrf as (Q & Rf').
  destruct (@qr_thin (mkT [r * s; r'] (tdata c)) Q Rf' (r * s) r' eq_refl Hqr)
    as (SQ & SR).
  pose proof (@qr_exact (mkT [r * s; r'] (tdata c)) Q Rf' (r * s) r' eq_refl
                Hqr) as HQR.
  set (k := Nat.min (r * s) r') in *.
  assert (Hk : k <> 0) by (unfold k; nia).
  rewrite Sc in H. cbn [removelast app] in H.
  replace (sh Q 1) with k in H by (unfold sh; rewrite SQ; reflexivity).
  rewrite reshape_exact in H by (rewrite SQ; simpl; lia).
  cbn [bind] in H. bind_as H cs1 Hcs1.
  (* the next core takes the factor R *)
  pose proof (set_item_length _ _ _ Hcs1) as L1.
  rewrite (@get_item_nth _ cs1 (m + 1) tnil) in H by (unfold dim in Hd; lia).
  cbn [bind] in H.
  rewrite (@set_item_nth _ _ _ _ (m + 1) _ tnil Hcs1) in H.
  replace (m + 1 =? m) with false in H by (symmetry; apply Nat.eqb_neq; lia).
  fold cn in H. unfold right_unfolding in H.
  replace (sh cn 0) with r' in H by (unfold sh; rewrite Scn; reflexivity).
  rewrite (@reshape_trail cn r' (s' * r'') Hr1) in H
    by (rewrite Scn; simpl; lia).
  cbn [bind] in H. unfold mm in H. rewrite SR in H. cbn [tshape] in H.
  rewrite Nat.eqb_refl in H. cbn [bind] in H.
  replace (sh Rf' 0) with k in H by (unfold sh; rewrite SR; reflexivity).
  rewrite Scn in H. cbn [tl] in H.
  rewrite reshape_exact in H
    by (unfold build2, build; cbn [tshape]; simpl; lia).
  cbn [bind] in H. bind_as H cs2 Hcs2. inversion H. subst t' Rf'. clear H.
  pose proof (set_item_length _ _ _ Hcs2) as L2.
  exists (pair_ranks rk m k). split.
  { intros n. unfold pair_ranks. destruct (n =? m + 1) eqn:En; [|lia].
    apply Nat.eqb_eq in En. subst n. unfold k. fold r'. lia. }
  apply (@pair_array t sp rk Hnet m k
           (mkT [r; s; k] (tdata Q))
           (mkT [k; s'; r'']
              (tdata (build2 k (s' * r'')
                        (fun p q =>
                           rsum r' (fun k0 =>
                             get Rf [p; k0]
                             *! get (mkT [r'; s' * r''] (tdata cn)) [k0; q])))))
           cs2 Hm Hk eq_refl eq_refl); [| lia | | | | exact Hne].
  - (* the product of the two cores is kept *)
    intros i i' p j Hi Hi' Hp Hj. fold c cn r'.
    rewrite (@rsum_ext k _
               (fun l => get Q [p * s + i; l]
                         *! rsum r' (fun q => get Rf [l; q]
                                              *! get cn [q; i'; j]))).
    + rewrite <- rsum_assoc. apply rsum_ext. intros q Hq.
      f_equal. rewrite (HQR (p * s + i) q) by (try assumption; nia).
      rewrite <- get_as3. rewrite <- (@shape_eta _ _ Sc). reflexivity.
    + intros l Hl. f_equal.
      * rewrite get_as3. rewrite <- (@shape_eta _ _ SQ). reflexivity.
      * rewrite get_as3_trail. unfold build2, build. cbn [tdata].
        fold (build [k; s' * r'']
                (ix2 (fun p0 q0 =>
                        rsum r' (fun k0 =>
                          get Rf [p0; k0]
                          *! get (mkT [r'; s' * r''] (tdata cn)) [k0; q0])))).
        rewrite get_build by (apply in_range2; [exact Hl | nia]).
        cbn [ix2]. apply rsum_ext. intros q Hq. f_equal.
        rewrite <- get_as3_trail. rewrite <- (@shape_eta _ _ Scn). reflexivity.
  - rewrite (@set_item_nth _ _ _ _ m _ tnil Hcs2).
    replace (m =? m + 1) with false by (symmetry; apply Nat.eqb_neq; lia).
    rewrite (@set_item_nth _ _ _ _ m _ tnil Hcs1), Nat.eqb_refl. reflexivity.
  - rewrite (@set_item_nth _ _ _ _ (m + 1) _ tnil Hcs2), Nat.eqb_refl.
    reflexivity.
  - intros n N1 N2. rewrite (@set_item_nth _ _ _ _ n _ tnil Hcs2).
    replace (n =? m + 1) with false by (symmetry; apply Nat.eqb_neq; lia).
    rewrite (@set_item_nth _ _ _ _ n _ tnil Hcs1).
    replace (n =? m) with false by (symmetry; apply Nat.eqb_neq; lia).
    reflexivity.
Qed.

(** [right_orthogonalize(mu)] on a TT network without Tucker factors. *)
Lemma right_orthogonalize_array (t t' : Tensor) (sp : list nat)
  (rk : nat -> nat) (mu : Z) (L : tensor) :
  tt_network t sp rk -> positive sp ->
  right_orthogonalize t mu = Ok (t', L) ->
  exists rk',
    (forall n, rk' n <= rk n)
    /\ tt_array t' sp rk' (fun idx => tt_vec (cores t) idx v1 0).
Proof.
  intros Hnet Hpos H.
  pose proof (net_dim Hnet) as Hd.
  pose proof Hnet as (_ & _ & Hr & _).
  unfold right_orthogonalize in H.
  bind_as H u Hu. unfold assert in Hu.
  destruct ((1 <=? mu)%Z && (mu <? Z.of_nat (dim t))%Z) eqn:Hb;
    [|discriminate Hu]. clear Hu u.
  apply andb_true_iff in Hb. destruct Hb as (B1 & B2).
  apply Z.leb_le in B1. apply Z.ltb_lt in B2.
  set (m := Z.to_nat mu) in *.
  assert (Hm : 1 <= m < length sp) by (unfold m; lia).
  assert (Hne : sp <> []) by (intros E; rewrite E in Hm; simpl in Hm; lia).
  unfold factor_orthogonalize in H.
  rewrite (@net_factor t sp rk Hnet m ltac:(lia)) in H. cbn [bind] in H.
  rewrite (@net_core t sp rk Hnet m ltac:(lia)) in H. cbn [bind] in H.
  pose proof (@net_core_shape t sp rk Hnet m ltac:(lia)) as Sc.
  pose proof (@net_core_shape t sp rk Hnet (m - 1) ltac:(lia)) as Scp.
  replace (S (m - 1)) with m in Scp by lia.
  replace (S m) with (m + 1) in Sc by lia.
  set (c := nth m (cores t) tnil) in *.
  set (cp := nth (m - 1) (cores t) tnil) in *.
  set (r0 := rk (m - 1)) in *. set (s0 := nth (m - 1) sp 0) in *.
  set (r := rk m) in *. set (s := nth m sp 0) in *.
  set (r' := rk (m + 1)) in *.
  assert (Hr0 : r0 <> 0) by apply Hr. assert (Hr1 : r <> 0) by apply Hr.
  assert (Hr2 : r' <> 0) by apply Hr.
  assert (Hs : s <> 0) by (apply positive_nth_pos; [exact Hpos | lia]).
  (* the unfolding of the core and its factorization *)
  unfold right_unfolding in H.
  replace (sh c 0) with r in H by (unfold sh; rewrite Sc; reflexivity).
  rewrite (@reshape_trail c r (s * r') Hr1) in H by (rewrite Sc; simpl; lia).
  cbn [bind] in H. unfold transpose at 1 in H. cbn [tshape bind] in H.
  bind_as H qrf Hqr. destruct qrf as (Q & L').
  set (rut := build2 (s * r') r
                (fun i j => get (mkT [r; s * r'] (tdata c)) [j; i])) in *.
  destruct (@qr_thin rut Q L' (s * r') r eq_refl Hqr) as (SQ & SL).
  pose proof (@qr_exact rut Q L' (s * r') r eq_refl Hqr) as HQL.
  set (k := Nat.min (s * r') r) in *.
  assert (Hk : k <> 0) by (unfold k; nia).
  unfold transpose in H. rewrite SL, SQ in H. cbn [bind] in H.
  replace (sh (build2 k (s * r') (fun i j => get Q [j; i])) 0) with k in H
    by reflexivity.
  rewrite Sc in H. cbn [tl] in H.
  rewrite reshape_exact in H
    by (unfold build2, build; cbn [tshape]; simpl; lia).
  cbn [bind] in H. bind_as H cs1 Hcs1.
  (* the core before takes the factor L *)
  pose proof (set_item_length _ _ _ Hcs1) as L1.
  rewrite (@get_item_nth _ cs1 (m - 1) tnil) in H by (unfold dim in Hd; lia).
  cbn [bind] in H.
  rewrite (@set_item_nth _ _ _ _ (m - 1) _ tnil Hcs1) in H.
  replace (m - 1 =? m) with false in H by (symmetry; apply Nat.eqb_neq; lia).
  fold cp in H. unfold left_unfolding in H.
  replace (shr cp 1) with r in H
    by (unfold shr, tdim; rewrite Scp; reflexivity).
  rewrite (@reshape_lead cp (r0 * s0) r Hr1) in H
    by (rewrite Scp; simpl; lia).
  cbn [bind] in H. unfold mm in H. cbn [tshape build2 build] in H.
  rewrite Nat.eqb_refl in H. cbn [bind] in H.
  rewrite Scp in H. cbn [removelast app] in H.
  replace (sh (build2 r k (fun i j => get L' [j; i])) 1) with k in H
    by reflexivity.
  rewrite reshape_exact in H
    by (unfold build2, build; cbn [tshape]; simpl; lia).
  cbn [bind] in H. bind_as H cs2 Hcs2. inversion H. subst t' L. clear H.
  pose proof (set_item_length _ _ _ Hcs2) as L2.
  exists (pair_ranks rk (m - 1) k). split.
  { intros n. unfold pair_ranks. destruct (n =? m - 1 + 1) eqn:En; [|lia].
    apply Nat.eqb_eq in En. subst n. replace (m - 1 + 1) with m by lia.
    unfold k. fold r. lia. }
  assert (Em1 : m - 1 + 1 = m) by lia. assert (Em2 : m - 1 + 2 = m + 1) by lia.
  match type of Hcs2 with
  | set_item _ _ ?x = _ => set (cp' := x) in *
  end.
  match type of Hcs1 with
  | set_item _ _ ?x = _ => set (c' := x) in *
  end.
  apply (@pair_array t sp rk Hnet (m - 1) k cp' c' cs2);
    try rewrite Em1; try rewrite Em2; try (exact Hne); try lia;
    try reflexivity.
  - (* the product of the two cores is kept *)
    intros i i' p j Hi Hi' Hp Hj. fold cp c r r' r0 s0 s in Hi, Hi', Hp, Hj |- *.
    rewrite (@rsum_ext k _
               (fun l => rsum r (fun q => get cp [p; i; q] *! get L' [l; q])
                         *! get Q [i' * r' + j; l])).
    + rewrite rsum_assoc. apply rsum_ext. intros q Hq. f_equal.
      rewrite (@rsum_ext k _
                 (fun l => get Q [i' * r' + j; l] *! get L' [l; q]))
        by (intros; ring).
      rewrite (HQL (i' * r' + j) q) by (try assumption; nia).
      unfold rut. rewrite get_build2 by (try assumption; nia).
      rewrite <- get_as3_trail. rewrite <- (@shape_eta _ _ Sc). reflexivity.
    + intros l Hl. unfold cp', c'. f_equal.
      * rewrite get_as3.
        rewrite <- (@shape_eta (build2 (r0 * s0) k _) [r0 * s0; k] eq_refl).
        rewrite get_build2 by (try assumption; nia).
        apply rsum_ext. intros q Hq. f_equal.
        -- rewrite <- get_as3. rewrite <- (@shape_eta _ _ Scp). reflexivity.
        -- apply get_build2; assumption.
      * rewrite get_as3_trail.
        rewrite <- (@shape_eta (build2 k (s * r') _) [k; s * r'] eq_refl).
        apply get_build2; [assumption | nia].
  - rewrite (@set_item_nth _ _ _ _ (m - 1) _ tnil Hcs2), Nat.eqb_refl.
    reflexivity.
  - rewrite (@set_item_nth _ _ _ _ m _ tnil Hcs2).
    replace (m =? m - 1) with false by (symmetry; apply Nat.eqb_neq; lia).
    rewrite (@set_item_nth _ _ _ _ m _ tnil Hcs1), Nat.eqb_refl. reflexivity.
  - intros n N1 N2. rewrite (@set_item_nth _ _ _ _ n _ tnil Hcs2).
    replace (n =? m - 1) with false by (symmetry; apply Nat.eqb_neq; lia).
    rewrite (@set_item_nth _ _ _ _ n _ tnil Hcs1).
    replace (n =? m) with false by (symmetry; apply Nat.eqb_neq; lia).
    reflexivity.
Qed.

(** [_cp_to_tt()] leaves a network of TT cores as it is. *)
Lemma converted_tt (cs : list tensor) :
  forall first cs',
    Forall (fun c => tdim c = 3) cs -> converted first cs cs' -> cs' = cs.
Proof.
  induction cs as [|c r IH]; intros first [|c' r'] HD H; try contradiction;
    [reflexivity|].
  inversion HD as [|? ? Dc Dr]. subst. destruct H as (Hc & H).
  f_equal; [|apply (IH false); assumption].
  unfold conv_core in Hc. unfold tdim in Dc.
  destruct (tshape c) as [|x [|y [|z [|? ?]]]]; try discriminate Dc.
  exact Hc.
Qed.

Lemma cp_to_tt_all_tt (t : Tensor) (sp : list nat) (rk : nat -> nat) :
  tt_network t sp rk -> sp <> [] ->
  cp_to_tt_all t = Ok (mkTensor (cores t) (Us t)).
Proof.
  intros Hnet Hne. pose proof (net_dim Hnet) as Hd. unfold dim in Hd.
  assert (HD : forall n, n < length (cores t) ->
                 tdim (nth n (cores t) tnil) = 3).
  { intros n Hn. unfold tdim.
    rewrite (@net_core_shape t sp rk Hnet n) by lia. reflexivity. }
  destruct (@cp_to_tt_all_converted t) as (cs' & E & Hc).
  - intros E. rewrite E in Hd. destruct sp; [congruence | discriminate].
  - intros n Hn. right. apply HD, Hn.
  - rewrite E. rewrite (@converted_tt (cores t) true cs'); [reflexivity| |exact Hc].
    apply Forall_nth. intros i d Hi. rewrite (nth_indep _ d tnil Hi).
    apply HD, Hi.
Qed.

(** What the sweeps keep: a TT network of the shape [sp] with ranks not
    above [rk], and the array of the entries [f]. *)
Definition kept (sp : list nat) (rk : nat -> nat) (f : list nat -> R)
  (t : Tensor) : Prop :=
  exists rk', (forall n, rk' n <= rk n) /\ tt_array t sp rk' f.

Lemma kept_step (sp : list nat) (rk : nat -> nat) (f : list nat -> R)
  (t t' : Tensor) :
  sp <> [] -> kept sp rk f t ->
  (forall rk1, tt_network t sp rk1 ->
     exists rk', (forall n, rk' n <= rk1 n)
                 /\ tt_array t' sp rk' (fun idx => tt_vec (cores t) idx v1 0)) ->
  kept sp rk f t'.
Proof.
  intros Hne (rk1 & Hle & Hn1 & Ht1) Hstep.
  destruct (Hstep rk1 Hn1) as (rk2 & Hle2 & Hn2 & Ht2).
  exists rk2. split.
  - intros n. pose proof (Hle n). pose proof (Hle2 n). lia.
  - split; [exact Hn2|]. rewrite Ht2, <- Ht1. symmetry.
    apply (net_torch Hn1 Hne).
Qed.

Lemma orthogonalize_kept (t t' : Tensor) (sp : list nat) (rk : nat -> nat)
  (mu : Z) (RL : tensor * tensor) :
  tt_network t sp rk -> positive sp ->
  orthogonalize t mu = Ok (t', RL) ->
  kept sp rk (fun idx => tt_vec (cores t) idx v1 0) t'.
Proof.
  intros Hnet Hpos H. unfold orthogonalize in H.
  assert (Hne : sp <> []).
  { intros E. subst sp. pose proof (net_dim Hnet) as Hd. unfold dim in Hd.
    unfold cp_to_tt_all in H. destruct (cores t); [discriminate H|].
    discriminate Hd. }
  rewrite (cp_to_tt_all_tt Hnet Hne) in H. cbn [bind] in H.
  set (f := fun idx => tt_vec (cores t) idx v1 0).
  assert (K0 : kept sp rk f (mkTensor (cores t) (Us t))).
  { exists rk. split; [intros; lia|]. split.
    - destruct Hnet as (A & B & C). split; [exact A|]. split; [exact B|exact C].
    - apply (@net_torch (mkTensor (cores t) (Us t)) sp rk); [|exact Hne].
      destruct Hnet as (A & B & C). split; [exact A|]. split; [exact B|exact C]. }
  bind_as H st1 H1. destruct st1 as (t1 & Rf).
  assert (K1 : kept sp rk f t1).
  { refine (@foldM_invariant _ _ _ (fun st => kept sp rk f (fst st)) _ _
              (mkTensor (cores t) (Us t), ones [1; 1]) (t1, Rf) K0 H1).
    intros st i st' Kst Hb. bind_as Hb r Hr. inversion Hb. subst st'.
    destruct r as (t2 & R2). cbn [fst].
    apply (@kept_step sp rk f (fst st) t2 Hne Kst).
    intros rk1 Hn1.
    apply (@left_orthogonalize_array _ _ _ _ _ _ Hn1 Hpos Hr). }
  bind_as H st2 H2. destruct st2 as (t2 & L). inversion H. subst t' RL.
  refine (@foldM_invariant _ _ _ (fun st => kept sp rk f (fst st)) _ _
            (t1, ones [1; 1]) (t2, L) K1 H2).
  intros st i st' Kst Hb. bind_as Hb r Hr. inversion Hb. subst st'.
  destruct r as (t3 & L3). cbn [fst].
  apply (@kept_step sp rk f (fst st) t3 Hne Kst).
  intros rk1 Hn1.
  apply (@right_orthogonalize_array _ _ _ _ _ _ Hn1 Hpos Hr).
Qed.

(** *** Rounding with no error allowed *)

Lemma reshape_lead3 (t : tensor) (m a b : nat) :
  a * b <> 0 -> numel (tshape t) = m * (a * b) ->
  reshape t [None; Some a; Some b] = Ok (mkT [m; a; b] (tdata t)).
Proof.
  intros Hk H. unfold reshape, infer_size. simpl.
  rewrite Nat.mul_1_r.
  replace (a * b =? 0) with false by (symmetry; apply Nat.eqb_neq; exact Hk).
  rewrite H, Nat.Div0.mod_mul, Nat.div_mul by exact Hk. reflexivity.
Qed.

Lemma foldM_invariant_in (A S : Type) (body : S -> A -> result S)
  (Inv : S -> Prop) (l : list A) :
  (forall s k s', In k l -> Inv s -> body s k = Ok s' -> Inv s') ->
  forall s0 sf, Inv s0 -> foldM body l s0 = Ok sf -> Inv sf.
Proof.
  induction l as [|k l IH]; intros Hstep s0 sf H0 Hf.
  - inversion Hf. subst. exact H0.
  - cbn [foldM] in Hf. destruct (body s0 k) as [s1|] eqn:E1;
      [|discriminate Hf]. cbn [bind] in Hf.
    apply (IH (fun s k' s' Hk => Hstep s k' s' (or_intror Hk)) s1 sf);
      [|exact Hf].
    apply (Hstep s0 k s1 (or_introl eq_refl) H0 E1).
Qed.

(** Division gives zero from zero, and [tn.truncated_svd] with the budget
    [delta = 0] and no cap on the rank returns factors of shapes [(a, k)]
    and [(k, b)], with [k] between 1 and [min(a, b)], whose product is the
    matrix. *)
Hypothesis rdiv_zero : forall x, rdiv rO x = rO.

Hypothesis svd_exact :
  forall M lft rgt a b,
    tshape M = [a; b] ->
    truncated_svd M (BDelta rO) None false = Ok (lft, rgt) ->
    exists k, k <> 0 /\ k <= Nat.min a b
              /\ tshape lft = [a; k] /\ tshape rgt = [k; b]
              /\ forall i j, i < a -> j < b ->
                   rsum k (fun l => get lft [i; l] *! get rgt [l; j])
                   = get M [i; j].

(** One pass of the sweep of [round_tt] on a TT network. *)
Lemma round_tt_step_array (t t' : Tensor) (sp : list nat) (rk : nat -> nat)
  (rmax : list (option nat)) (mu : nat) :
  tt_network t sp rk -> positive sp ->
  1 <= mu < length sp -> get_item rmax (mu - 1) = Ok None ->
  round_tt_step rO rmax t mu = Ok t' ->
  exists rk',
    (forall n, rk' n <= rk n)
    /\ tt_array t' sp rk' (fun idx => tt_vec (cores t) idx v1 0).
Proof.
  intros Hnet Hpos Hm Hrm H.
  pose proof (net_dim Hnet) as Hd.
  pose proof Hnet as (_ & _ & Hr & _).
  assert (Hne : sp <> []) by (intros E; rewrite E in Hm; simpl in Hm; lia).
  unfold round_tt_step in H.
  rewrite (@net_core t sp rk Hnet mu ltac:(lia)) in H. cbn [bind] in H.
  pose proof (@net_core_shape t sp rk Hnet mu ltac:(lia)) as Sc.
  pose proof (@net_core_shape t sp rk Hnet (mu - 1) ltac:(lia)) as Scp.
  replace (S (mu - 1)) with mu in Scp by lia.
  replace (S mu) with (mu + 1) in Sc by lia.
  set (c := nth mu (cores t) tnil) in *.
  set (cp := nth (mu - 1) (cores t) tnil) in *.
  set (r0 := rk (mu - 1)) in *. set (s0 := nth (mu - 1) sp 0) in *.
  set (r := rk mu) in *. set (s := nth mu sp 0) in *.
  set (r' := rk (mu + 1)) in *.
  assert (Hr0 : r0 <> 0) by apply Hr. assert (Hr1 : r <> 0) by apply Hr.
  assert (Hr2 : r' <> 0) by apply Hr.
  assert (Hs : s <> 0) by (apply positive_nth_pos; [exact Hpos | lia]).
  unfold right_unfolding in H.
  replace (sh c 0) with r in H by (unfold sh; rewrite Sc; reflexivity).
  rewrite (@reshape_trail c r (s * r') Hr1) in H by (rewrite Sc; simpl; lia).
  cbn [bind] in H. rewrite Hrm in H. cbn [bind] in H.
  bind_as H lr Hsvd. destruct lr as (lft & rgt).
  destruct (@svd_exact (mkT [r; s * r'] (tdata c)) lft rgt r (s * r')
              eq_refl Hsvd) as (k & Hk & Hkle & Sl & Sr & HLR).
  replace (sh c 1) with s in H by (unfold sh; rewrite Sc; reflexivity).
  replace (sh c 2) with r' in H by (unfold sh; rewrite Sc; reflexivity).
  rewrite (@reshape_lead3 rgt k s r') in H
    by (try rewrite Sr; simpl; nia).
  cbn [bind] in H. bind_as H cs1 Hcs1.
  pose proof (set_item_length _ _ _ Hcs1) as L1.
  rewrite (@get_item_nth _ cs1 (mu - 1) tnil) in H by (unfold dim in Hd; lia).
  cbn [bind] in H.
  rewrite (@set_item_nth _ _ _ _ (mu - 1) _ tnil Hcs1) in H.
  replace (mu - 1 =? mu) with false in H
    by (symmetry; apply Nat.eqb_neq; lia).
  fold cp in H. unfold einsum_ijk_kl in H. rewrite Scp, Sl in H.
  rewrite Nat.eqb_refl in H. cbn [bind] in H.
  bind_as H cs2 Hcs2. inversion H. subst t'. clear H.
  pose proof (set_item_length _ _ _ Hcs2) as L2.
  exists (pair_ranks rk (mu - 1) k). split.
  { intros n. unfold pair_ranks. destruct (n =? mu - 1 + 1) eqn:En; [|lia].
    apply Nat.eqb_eq in En. subst n. replace (mu - 1 + 1) with mu by lia.
    fold r. lia. }
  assert (Em1 : mu - 1 + 1 = mu) by lia.
  assert (Em2 : mu - 1 + 2 = mu + 1) by lia.
  match type of Hcs2 with
  | set_item _ _ ?x = _ => set (cp' := x) in *
  end.
  match type of Hcs1 with
  | set_item _ _ ?x = _ => set (c' := x) in *
  end.
  apply (@pair_array t sp rk Hnet (mu - 1) k cp' c' cs2);
    try rewrite Em1; try rewrite Em2; try (exact Hne); try lia;
    try reflexivity.
  - intros i i' p j Hi Hi' Hp Hj.
    fold cp c r r' r0 s0 s in Hi, Hi', Hp, Hj |- *.
    rewrite (@rsum_ext k _
               (fun l => rsum r (fun q => get cp [p; i; q] *! get lft [q; l])
                         *! get rgt [l; i' * r' + j])).
    + rewrite rsum_assoc. apply rsum_ext. intros q Hq. f_equal.
      rewrite (HLR q (i' * r' + j)) by (try assumption; nia).
      rewrite <- get_as3_trail. rewrite <- (@shape_eta _ _ Sc). reflexivity.
    + intros l Hl. unfold cp', c'. f_equal.
      * apply get_build3; assumption.
      * rewrite get_as3_trail. rewrite <- (@shape_eta _ _ Sr). reflexivity.
  - rewrite (@set_item_nth _ _ _ _ (mu - 1) _ tnil Hcs2), Nat.eqb_refl.
    reflexivity.
  - rewrite (@set_item_nth _ _ _ _ mu _ tnil Hcs2).
    replace (mu =? mu - 1) with false by (symmetry; apply Nat.eqb_neq; lia).
    rewrite (@set_item_nth _ _ _ _ mu _ tnil Hcs1), Nat.eqb_refl. reflexivity.
  - intros n N1 N2. rewrite (@set_item_nth _ _ _ _ n _ tnil Hcs2).
    replace (n =? mu - 1) with false by (symmetry; apply Nat.eqb_neq; lia).
    rewrite (@set_item_nth _ _ _ _ n _ tnil Hcs1).
    replace (n =? mu) with false by (symmetry; apply Nat.eqb_neq; lia).
    reflexivity.
Qed.

(** X15: under an exact thin QR factorization, [left_orthogonalize],
    [right_orthogonalize] and [orthogonalize], when they return on a TT
    network without Tucker factors whose sizes are positive, leave a TT
    network of the same shape, with no rank above what it was, that
    [torch()] decompresses to the same array. *)
Theorem orthogonalize_keeps_array (t : Tensor) (sp : list nat)
  (rk : nat -> nat) (mu : Z) :
  tt_network t sp rk -> positive sp ->
  (forall t' Rf, left_orthogonalize t mu = Ok (t', Rf) ->
     exists rk', (forall n, rk' n <= rk n) /\ tt_network t' sp rk'
                 /\ torch t' = torch t)
  /\ (forall t' L, right_orthogonalize t mu = Ok (t', L) ->
        exists rk', (forall n, rk' n <= rk n) /\ tt_network t' sp rk'
                    /\ torch t' = torch t)
  /\ (forall t' RL, orthogonalize t mu = Ok (t', RL) ->
        exists rk', (forall n, rk' n <= rk n) /\ tt_network t' sp rk'
                    /\ torch t' = torch t).
Proof.
  intros Hnet Hpos.
  assert (Hfin : forall t',
             kept sp rk (fun idx => tt_vec (cores t) idx v1 0) t' ->
             sp <> [] ->
             exists rk', (forall n, rk' n <= rk n) /\ tt_network t' sp rk'
                         /\ torch t' = torch t).
  { intros t' (rk' & Hle & Hn' & Ht') Hne. exists rk'.
    split; [exact Hle|]. split; [exact Hn'|].
    rewrite Ht'. symmetry. apply (net_torch Hnet Hne). }
  split; [|split].
  - intros t' Rf H. apply Hfin.
    + destruct (@left_orthogonalize_array _ _ _ _ _ _ Hnet Hpos H) as (rk' & Hle & Ha).
      exists rk'. split; assumption.
    + intros E. subst sp. pose proof (net_dim Hnet) as Hd.
      unfold left_orthogonalize, assert in H. rewrite Hd in H.
      destruct (0 <=? mu)%Z eqn:B; [|discriminate H].
      replace (mu <? Z.of_nat (@length nat []) - 1)%Z with false in H
        by (symmetry; apply Z.ltb_ge; apply Z.leb_le in B; simpl; lia).
      discriminate H.
  - intros t' L H. apply Hfin.
    + destruct (@right_orthogonalize_array _ _ _ _ _ _ Hnet Hpos H) as (rk' & Hle & Ha).
      exists rk'. split; assumption.
    + intros E. subst sp. pose proof (net_dim Hnet) as Hd.
      unfold right_orthogonalize, assert in H. rewrite Hd in H.
      destruct (1 <=? mu)%Z eqn:B; [|discriminate H].
      replace (mu <? Z.of_nat (@length nat []))%Z with false in H
        by (symmetry; apply Z.ltb_ge; apply Z.leb_le in B; simpl; lia).
      discriminate H.
  - intros t' RL H. apply Hfin.
    + apply (@orthogonalize_kept _ _ _ _ _ _ Hnet Hpos H).
    + intros E. subst sp. pose proof (net_dim Hnet) as Hd. unfold dim in Hd.
      unfold orthogonalize, cp_to_tt_all in H.
      destruct (cores t); [discriminate H | discriminate Hd].
Qed.

(** X16: under exact factorizations (a thin QR whose product is the
    matrix, and a truncated SVD that at the budget [delta = 0] without a
    cap returns at least one and at most [min(a, b)] columns whose product
    is the matrix), [round_tt(eps=0)], when it returns on a TT network
    without Tucker factors whose sizes are positive, leaves a TT network
    of the same shape, with no rank above what it was, that [torch()]
    decompresses to the same array. *)
Theorem round_tt_exact (t t' : Tensor) (sp : list nat) (rk : nat -> nat) :
  tt_network t sp rk -> positive sp ->
  round_tt t rO None = Ok t' ->
  exists rk', (forall n, rk' n <= rk n) /\ tt_network t' sp rk'
              /\ torch t' = torch t.
Proof.
  intros Hnet Hpos H. pose proof (net_dim Hnet) as Hd.
  assert (Hne : sp <> []).
  { intros E. subst sp. unfold dim in Hd. unfold round_tt in H.
    bind_as H u Hu. unfold cp_to_tt_all in H.
    destruct (cores t); [discriminate H | discriminate Hd]. }
  set (f := fun idx => tt_vec (cores t) idx v1 0).
  assert (K : kept sp rk f t').
  { unfold round_tt in H. rewrite Hd in H. cbn [expand_rmax] in H.
    bind_as H u Hu. clear Hu u.
    rewrite (cp_to_tt_all_tt Hnet Hne) in H. cbn [bind] in H.
    bind_as H st Ho. destruct st as (t1 & RL).
    assert (Hnet0 : tt_network (mkTensor (cores t) (Us t)) sp rk).
    { destruct Hnet as (A & B & C). split; [exact A|]. split; [exact B|exact C]. }
    pose proof (@orthogonalize_kept _ _ _ _ _ _ Hnet0 Hpos Ho) as K1. cbn [cores] in K1.
    fold f in K1.
    bind_as H cl Hcl. rewrite rdiv_zero in H.
    replace (rO *! norm cl) with rO in H by ring.
    refine (@foldM_invariant_in _ _ _ (kept sp rk f) _ _ t1 t' K1 H).
    intros s mu s' Hin Ks Hs. apply in_rev, in_seq in Hin.
    apply (@kept_step sp rk f s s' Hne Ks). intros rk1 Hn1.
    apply (@round_tt_step_array s s' sp rk1 (repeat None (length sp - 1)) mu
             Hn1 Hpos); [lia | | exact Hs].
    rewrite (@get_item_nth _ _ (mu - 1) None)
      by (rewrite repeat_length; lia).
    f_equal. apply nth_repeat. }
  destruct K as (rk' & Hle & Hn' & Ht'). exists rk'.
  split; [exact Hle|]. split; [exact Hn'|].
  rewrite Ht'. symmetry. apply (net_torch Hnet Hne).
Qed.

(** ** Networks with Tucker factors *)

Lemma msum_ext (ns : list nat) :
  forall g g',
    (forall l, in_range ns l = true -> g l = g' l) -> msum ns g = msum ns g'.
Proof.
  induction ns as [|n ns IH]; intros g g' H.
  - apply H. reflexivity.
  - cbn [msum]. apply rsum_ext. intros a Ha. apply IH. intros l Hl.
    apply H. cbn [in_range]. apply andb_true_iff. split; [|exact Hl].
    apply Nat.ltb_lt, Ha.
Qed.

Lemma msum_scal (ns : list nat) :
  forall c g, msum ns (fun l => c *! g l) = c *! msum ns g.
Proof.
  induction ns as [|n ns IH]; intros c g; [reflexivity|].
  cbn [msum]. rewrite <- rsum_scal_l. apply rsum_ext. intros a _.
  apply (IH c (fun l => g (a :: l))).
Qed.

(** A chain of TT cores is linear in the vector it takes in. *)
Lemma tt_vec_sum (cs : list tensor) :
  forall w w' idx n (g : nat -> R) (F : nat -> nat -> R) j,
    tt_chain w cs w' -> length idx = length cs -> j < w' ->
    tt_vec cs idx (fun i => rsum n (fun a => g a *! F a i)) j
    = rsum n (fun a => g a *! tt_vec cs idx (F a) j).
Proof.
  induction cs as [|c cs IH]; intros w w' idx n g F j Hch Hl Hj.
  - destruct idx; reflexivity.
  - destruct idx as [|b idx]; [discriminate Hl|]. cbn [tt_vec].
    pose proof Hch as (_ & H0 & _ & Hch').
    rewrite <- (IH (sh c 2) w' idx n g
                  (fun a => vm (sh c 0) (F a) (mat3 c b)) j Hch'
                  ltac:(simpl in Hl; lia) Hj).
    apply (@tt_vec_ext cs (sh c 2) w'); try assumption;
      [simpl in Hl; lia|].
    intros i _. unfold vm.
    rewrite (@rsum_ext (sh c 0) _
               (fun p => rsum n (fun a => g a *! (F a p *! mat3 c b p i))))
      by (intros p _; rewrite <- rsum_scal_r; apply rsum_ext; intros; ring).
    rewrite rsum_swap. apply rsum_ext. intros a _.
    rewrite <- rsum_scal_l. reflexivity.
Qed.

(** Cores with the same entries make the same chain. *)
Lemma tt_vec_cores_ext (cs : list tensor) :
  forall cs' w w' idx u j,
    tt_chain w cs w' -> map tshape cs' = map tshape cs ->
    (forall k i x q,
        k < length cs -> i < sh (nth k cs tnil) 0 ->
        x < sh (nth k cs tnil) 1 -> q < sh (nth k cs tnil) 2 ->
        get (nth k cs' tnil) [i; x; q] = get (nth k cs tnil) [i; x; q]) ->
    in_range (map mid cs) idx = true -> j < w' ->
    tt_vec cs' idx u j = tt_vec cs idx u j.
Proof.
  induction cs as [|c cs IH]; intros cs' w w' idx u j Hch Hs He Hi Hj.
  - destruct cs'; [|discriminate Hs]. reflexivity.
  - destruct cs' as [|c' cs']; [discriminate Hs|].
    destruct idx as [|b idx]; [discriminate Hi|].
    cbn [map] in Hs. injection Hs as Hs0 Hs.
    cbn [map in_range] in Hi. apply andb_true_iff in Hi.
    destruct Hi as (Hb & Hi). apply Nat.ltb_lt in Hb.
    pose proof Hch as (D & H0 & _ & Hch'). cbn [tt_vec].
    rewrite (IH cs' (sh c 2) w' idx _ j Hch' Hs); try assumption.
    + apply (@tt_vec_ext cs (sh c 2) w'); try assumption.
      * rewrite <- (length_map mid). apply in_range_length, Hi.
      * intros i Hq. unfold sh at 1. rewrite Hs0. fold (sh c 0).
        apply vm_ext; [reflexivity|]. intros p Hp. unfold mat3.
        apply (He 0 p b i); cbn [nth length]; try lia; try assumption.
        unfold mid, shr in Hb. unfold sh. unfold tdim in *.
        rewrite D in Hb. exact Hb.
    + intros k i x q Hk. apply (He (S k) i x q). simpl. lia.
Qed.

(** *** The cores that [decompress_tucker_factors()] makes *)

Lemma decompress_cores_nth (cs : list tensor) :
  forall us ds k,
    decompress_cores cs us = Ok ds -> k < length cs ->
    decompress_core (nth k cs tnil) (nth k us None) = Ok (nth k ds tnil).
Proof.
  induction cs as [|c cs IH]; intros us ds k H Hk; [simpl in Hk; lia|].
  cbn [decompress_cores] in H. destruct us as [|[u|] us]; [discriminate H| |].
  - bind_as H c' Hc'. bind_as H r Hr. inversion H. subst ds.
    destruct k as [|k]; [exact Hc'|]. cbn [nth].
    apply (IH _ _ _ Hr). simpl in Hk. lia.
  - bind_as H r Hr. inversion H. subst ds.
    destruct k as [|k]; [reflexivity|]. cbn [nth].
    apply (IH _ _ _ Hr). simpl in Hk. lia.
Qed.

Lemma decompress_cores_build (cs : list tensor) :
  forall us,
    length us = length cs ->
    (forall k, k < length cs ->
       exists d, decompress_core (nth k cs tnil) (nth k us None) = Ok d) ->
    exists ds, decompress_cores cs us = Ok ds.
Proof.
  induction cs as [|c cs IH]; intros us Hl H.
  - exists []. reflexivity.
  - destruct us as [|u us]; [discriminate Hl|].
    destruct (IH us ltac:(simpl in Hl; lia)
                (fun k Hk => H (S k) ltac:(simpl; lia))) as (ds & Hds).
    destruct (H 0 ltac:(simpl; lia)) as (d & Hd). cbn [nth] in Hd.
    cbn [decompress_cores]. destruct u as [u|].
    + cbn [decompress_core] in Hd. rewrite Hd, Hds. eexists. reflexivity.
    + rewrite Hds. eexists. reflexivity.
Qed.

Lemma decompress_core_ok (c : tensor) (u : option tensor) (r n q r' : nat) :
  tshape c = [r; q; r'] -> factor_ok n q u ->
  exists d,
    decompress_core c u = Ok d
    /\ tshape d = [r; n; r']
    /\ forall i x j, i < r -> x < n -> j < r' ->
         get d [i; x; j]
         = rsum q (fun a => get c [i; a; j] *! factor_entry u x a).
Proof.
  intros Sc Hu. destruct u as [U|]; cbn [factor_ok] in Hu.
  - unfold decompress_core, tdim. rewrite Sc. cbn [length Nat.eqb].
    unfold einsum_ijk_aj_iak. rewrite Sc, Hu, Nat.eqb_refl.
    eexists. split; [reflexivity|]. split; [reflexivity|].
    intros i x j Hi Hx Hj. rewrite get_build3 by assumption. reflexivity.
  - subst q. exists c. split; [reflexivity|]. split; [exact Sc|].
    intros i x j Hi Hx Hj. cbn [factor_entry].
    rewrite (@rsum_ext n _ (fun a => delta x a *! get c [i; a; j]))
      by (intros; ring).
    rewrite rsum_delta_l by exact Hx. reflexivity.
Qed.

Section Tucker.

Variable t : Tensor.
Variable sp : list nat.
Variables rk tr : nat -> nat.
Hypothesis Htk : tucker_network t sp rk tr.

Lemma tucker_dim : length (cores t) = length sp.
Proof.
  destruct Htk as (H & _). apply (f_equal (@length _)) in H.
  rewrite !length_map, length_seq in H. exact H.
Qed.

Lemma tucker_core_shape (k : nat) :
  k < length sp ->
  tshape (nth k (cores t) tnil) = [rk k; tr k; rk (S k)].
Proof.
  intros Hk. destruct Htk as (H & _).
  rewrite <- (map_nth tshape (cores t) tnil k), H.
  apply nth_map_seq. exact Hk.
Qed.

Lemma mids_length (n : nat) : length (mids tr n) = n.
Proof. unfold mids. rewrite length_map, length_seq. reflexivity. Qed.

Lemma mids_nth (n k : nat) : k < n -> nth k (mids tr n) 0 = tr k.
Proof. intros Hk. unfold mids. apply nth_map_seq, Hk. Qed.

(** The cores alone are a TT network: the Tucker core. *)
Lemma tucker_core_network :
  tt_network (core_network t) (mids tr (length sp)) rk.
Proof.
  pose proof Htk as (H & _ & _ & Hr & _ & H0 & HN).
  unfold tt_network, core_network. cbn [cores Us].
  rewrite mids_length, tucker_dim.
  split; [|split; [reflexivity|]].
  - rewrite H. apply map_ext_in. intros k Hk. apply in_seq in Hk.
    rewrite mids_nth by lia. reflexivity.
  - split; [exact Hr|]. split; assumption.
Qed.

(** The cores that [decompress_tucker_factors()] makes are a TT network of
    the sizes [sp], each core contracted with its factor. *)
Lemma tucker_plain :
  exists ds,
    decompress_cores (cores t) (Us t) = Ok ds
    /\ tt_network (mkTensor ds (repeat None (length sp))) sp rk
    /\ forall k i x j,
         k < length sp -> i < rk k -> x < nth k sp 0 -> j < rk (S k) ->
         get (nth k ds tnil) [i; x; j]
         = rsum (tr k)
             (fun a => get (nth k (cores t) tnil) [i; a; j]
                       *! factor_entry (nth k (Us t) None) x a).
Proof.
  pose proof Htk as (H & HlU & HU & Hr & Htr & H0 & HN).
  pose proof tucker_dim as Hd.
  destruct (@decompress_cores_build (cores t) (Us t)) as (ds & Hds).
  - rewrite HlU, Hd. reflexivity.
  - intros k Hk. rewrite Hd in Hk.
    destruct (@decompress_core_ok _ _ _ _ _ _ (tucker_core_shape Hk)
                (HU k Hk)) as (d & Ed & _).
    exists d. exact Ed.
  - assert (Hall : forall k, k < length sp ->
              tshape (nth k ds tnil) = [rk k; nth k sp 0; rk (S k)]
              /\ forall i x j, i < rk k -> x < nth k sp 0 -> j < rk (S k) ->
                   get (nth k ds tnil) [i; x; j]
                   = rsum (tr k)
                       (fun a => get (nth k (cores t) tnil) [i; a; j]
                                 *! factor_entry (nth k (Us t) None) x a)).
    { intros k Hk.
      destruct (@decompress_core_ok _ _ _ _ _ _ (tucker_core_shape Hk)
                  (HU k Hk)) as (d & Ed & Sd & Gd).
      rewrite (@decompress_cores_nth _ _ _ k Hds) in Ed by (rewrite Hd; exact Hk).
      inversion Ed. subst d. split; assumption. }
    exists ds. split; [exact Hds|]. split.
    + unfold tt_network. cbn [cores Us].
      split; [|split; [reflexivity|]].
      * apply (nth_ext _ _ (tshape tnil) []).
        -- rewrite !length_map, length_seq.
           rewrite (decompress_cores_length _ _ Hds). exact Hd.
        -- intros k Hk. rewrite length_map in Hk.
           rewrite (decompress_cores_length _ _ Hds), Hd in Hk.
           rewrite (map_nth tshape ds tnil k), nth_map_seq by lia.
           apply (Hall k Hk).
      * split; [exact Hr|]. split; assumption.
    + intros k i x j Hk. apply (Hall k Hk).
Qed.

End Tucker.

(** [torch()] sees a network through the cores that
    [decompress_tucker_factors()] makes. *)
Lemma torch_plain (t : Tensor) (ds : list tensor) (sp : list nat)
  (rk : nat -> nat) :
  decompress_cores (cores t) (Us t) = Ok ds ->
  tt_network (mkTensor ds (repeat None (length sp))) sp rk -> sp <> [] ->
  torch t = Ok (build sp (fun idx => tt_vec ds idx v1 0)).
Proof.
  intros Hds Hnet Hne.
  pose proof (net_torch Hnet Hne) as Hplain. cbn [cores] in Hplain.
  rewrite <- Hplain. clear Hplain.
  pose proof (net_dim Hnet) as Hd. unfold dim in Hd. cbn [cores] in Hd.
  pose proof (@net_chain _ sp rk Hnet 0 (Nat.le_0_l _)) as Hch.
  cbn [skipn cores] in Hch.
  assert (Hn0 : ds <> []).
  { intros E. subst ds. destruct sp; [congruence|discriminate Hd]. }
  assert (Hc : chain false (in_rank (hd tnil ds)) ds).
  { destruct ds as [|d0 ds']; [congruence|]. cbn [hd].
    pose proof Hch as (D & H0 & _).
    destruct (@tt_core_ranks d0 false D) as (R1 & _).
    rewrite R1, H0.
    apply (@tt_chain_chain false _ _ _ Hch). }
  rewrite (@torch_spec t ds), (@torch_spec (mkTensor ds (repeat None (length sp))) ds).
  - reflexivity.
  - split; [exact Hn0|]. split; [|exact Hc]. cbn [cores Us].
    rewrite <- Hd. apply decompress_cores_none.
  - split; [exact Hn0|]. split; [exact Hds|exact Hc].
Qed.

(** *** The array of a network with Tucker factors

    Every entry is the sum, over the positions of the Tucker core, of the
    entry of the core times the entries of the factors. *)
Lemma tucker_vec (cs : list tensor) :
  forall us ds w w' idx v j,
    tt_chain w cs w' -> tt_chain w ds w' ->
    length ds = length cs -> length us = length cs ->
    (forall k, k < length cs ->
       sh (nth k ds tnil) 0 = sh (nth k cs tnil) 0
       /\ sh (nth k ds tnil) 2 = sh (nth k cs tnil) 2
       /\ forall i x q,
            i < sh (nth k cs tnil) 0 -> x < mid (nth k ds tnil) ->
            q < sh (nth k cs tnil) 2 ->
            get (nth k ds tnil) [i; x; q]
            = rsum (mid (nth k cs tnil))
                (fun a => get (nth k cs tnil) [i; a; q]
                          *! factor_entry (nth k us None) x a)) ->
    in_range (map mid ds) idx = true -> j < w' ->
    tt_vec ds idx v j
    = msum (map mid cs) (fun pos => weight us idx pos *! tt_vec cs pos v j).
Proof.
  induction cs as [|c cs IH];
    intros us ds w w' idx v j Hc Hd Hld Hlu He Hi Hj.
  - destruct ds; [|discriminate Hld]. destruct idx; [|discriminate Hi].
    destruct us; [|discriminate Hlu]. cbn [map msum weight tt_vec]. ring.
  - destruct ds as [|d ds]; [discriminate Hld|].
    destruct us as [|u us]; [discriminate Hlu|].
    destruct idx as [|b idx]; [discriminate Hi|].
    cbn [map in_range] in Hi. apply andb_true_iff in Hi.
    destruct Hi as (Hb & Hi). apply Nat.ltb_lt in Hb.
    destruct Hc as (_ & Hc0 & _ & Hc). destruct Hd as (_ & Hd0 & _ & Hd).
    destruct (He 0 ltac:(simpl; lia)) as (E0 & E2 & Eg). cbn [nth] in E0, E2, Eg.
    cbn [map msum tt_vec].
    set (W := fun a => vm (sh c 0) v (mat3 c a)).
    rewrite (@tt_vec_ext ds (sh d 2) w' idx _
               (fun q => rsum (mid c) (fun a => factor_entry u b a *! W a q)) j
               Hd);
      [ | rewrite <- (length_map mid); apply in_range_length, Hi | | exact Hj].
    + rewrite (@tt_vec_sum ds (sh d 2) w' idx (mid c) (factor_entry u b) W j
                 Hd);
        [ | rewrite <- (length_map mid); apply in_range_length, Hi | exact Hj].
      apply rsum_ext. intros a Ha.
      rewrite (IH us ds (sh d 2) w' idx (W a) j); try assumption.
      * rewrite <- msum_scal. apply msum_ext. intros l _.
        cbn [weight tt_vec]. unfold W. ring.
      * rewrite E2. exact Hc.
      * simpl in Hld. lia.
      * simpl in Hlu. lia.
      * intros k Hk. apply (He (S k)). simpl. lia.
    + intros q Hq. unfold vm, W, vm. rewrite E0.
      rewrite (@rsum_ext (sh c 0) _
                 (fun p => rsum (mid c)
                             (fun a => factor_entry u b a
                                       *! (v p *! mat3 c a p q)))).
      * rewrite rsum_swap. apply rsum_ext. intros a _.
        rewrite <- rsum_scal_l. reflexivity.
      * intros p Hp. unfold mat3. rewrite Eg by (try assumption; lia).
        rewrite <- rsum_scal_l. apply rsum_ext. intros a _. ring.
Qed.

Lemma tucker_torch (t : Tensor) (sp : list nat) (rk tr : nat -> nat) :
  tucker_network t sp rk tr -> sp <> [] ->
  torch t
  = Ok (build sp
          (fun idx =>
             msum (mids tr (length sp))
               (fun pos => weight (Us t) idx pos
                           *! tt_vec (cores t) pos v1 0))).
Proof.
  intros Htk Hne.
  destruct (tucker_plain Htk) as (ds & Hds & Hnet & Hg).
  pose proof (tucker_core_network Htk) as Hcn.
  pose proof (tucker_dim Htk) as Hd.
  pose proof Htk as (_ & HlU & _ & Hr & _ & H0 & HN).
  assert (Hm : mids tr (length sp) <> [])
    by (intros E; apply (f_equal (@length _)) in E;
        rewrite mids_length in E; destruct sp; [congruence|discriminate E]).
  rewrite (@torch_plain t ds sp rk Hds Hnet Hne). unfold build. do 2 f_equal.
  apply tab_ext. intros idx Hidx.
  pose proof (@net_chain _ _ rk Hnet 0 (Nat.le_0_l _)) as Chd.
  pose proof (@net_chain _ _ rk Hcn 0 (Nat.le_0_l _)) as Chc.
  cbn [skipn cores core_network] in Chd, Chc.
  pose proof (net_mids Hcn) as Mc. pose proof (net_mids Hnet) as Md.
  cbn [cores core_network] in Mc, Md. rewrite <- Mc.
  apply (@tucker_vec (cores t) (Us t) ds (rk 0) 1 idx v1 0 Chc Chd).
  - pose proof (net_dim Hnet) as Hd'. unfold dim in Hd'. cbn [cores] in Hd'.
    lia.
  - lia.
  - intros k Hk. rewrite Hd in Hk.
    pose proof (@net_core_shape _ sp rk Hnet k Hk) as Sd.
    pose proof (tucker_core_shape Htk Hk) as Sc. cbn [cores] in Sd.
    unfold sh, mid, shr, tdim. rewrite Sd, Sc. cbn [nth length Nat.sub].
    split; [reflexivity|]. split; [reflexivity|].
    intros i x q Hi Hx Hq. apply (Hg k i x q Hk Hi Hx Hq).
  - rewrite Md. exact Hidx.
  - lia.
Qed.

Lemma tucker_core_torch (t : Tensor) (sp : list nat) (rk tr : nat -> nat) :
  tucker_network t sp rk tr -> sp <> [] ->
  tucker_core t
  = Ok (build (mids tr (length sp))
          (fun pos => tt_vec (cores t) pos v1 0)).
Proof.
  intros Htk Hne.
  pose proof (tucker_core_network Htk) as Hcn.
  pose proof (tucker_dim Htk) as Hd.
  assert (Hm : mids tr (length sp) <> [])
    by (intros E; apply (f_equal (@length _)) in E;
        rewrite mids_length in E; destruct sp; [congruence|discriminate E]).
  pose proof (@net_chain _ _ rk Hcn 0 (Nat.le_0_l _)) as Ch.
  cbn [skipn cores core_network] in Ch.
  destruct (@tt_chain_chain false _ _ _ Ch) as (C1 & _).
  destruct (@chain_dims_ranks _ _ _ C1) as (D1 & D2).
  unfold tucker_core, Tensor_of_cores. rewrite D1, D2. cbn [negb].
  rewrite check_factors_none. cbn [bind].
  apply (net_torch Hcn Hm).
Qed.

(** X19: in a network of TT cores with Tucker factors, [torch()] and
    [tucker_core()] return; the Tucker core has the Tucker ranks for
    shape, and every entry of the array is the sum, over the positions of
    the Tucker core, of its entry there times the entries of the factors
    (an axis without factor keeps its position). *)
Theorem tucker_core_spec (t : Tensor) (sp : list nat) (rk tr : nat -> nat) :
  tucker_network t sp rk tr -> sp <> [] ->
  exists A C,
    torch t = Ok A /\ tucker_core t = Ok C
    /\ tshape A = sp /\ tshape C = mids tr (length sp)
    /\ forall idx,
         in_range sp idx = true ->
         get A idx
         = msum (tshape C) (fun pos => weight (Us t) idx pos *! get C pos).
Proof.
  intros Htk Hne. eexists. eexists.
  split; [apply (tucker_torch Htk Hne)|].
  split; [apply (tucker_core_torch Htk Hne)|].
  split; [reflexivity|]. split; [reflexivity|].
  intros idx Hidx. rewrite get_build by exact Hidx.
  cbn [tshape build]. apply msum_ext. intros pos Hpos.
  rewrite get_build by exact Hpos. reflexivity.
Qed.

(** *** One core and its factor replaced by a pair that contracts to the
    same *)

Section OneAxis.

Variable t : Tensor.
Variable sp : list nat.
Variables rk tr : nat -> nat.
Hypothesis Htk : tucker_network t sp rk tr.

Variables m q' : nat.
Variable c' : tensor.
Variable u' : option tensor.
Variable cs2 : list tensor.
Variable us2 : list (option tensor).

Hypothesis Hm : m < length sp.
Hypothesis Hq' : q' <> 0.
Hypothesis Sc' : tshape c' = [rk m; q'; rk (S m)].
Hypothesis Fu' : factor_ok (nth m sp 0) q' u'.
Hypothesis Hsame :
  forall i x j,
    i < rk m -> x < nth m sp 0 -> j < rk (S m) ->
    rsum q' (fun a => get c' [i; a; j] *! factor_entry u' x a)
    = rsum (tr m)
        (fun a => get (nth m (cores t) tnil) [i; a; j]
                  *! factor_entry (nth m (Us t) None) x a).
Hypothesis Hcs :
  forall n, nth n cs2 tnil = if n =? m then c' else nth n (cores t) tnil.
Hypothesis Hus :
  forall n, nth n us2 None = if n =? m then u' else nth n (Us t) None.
Hypothesis Lcs : length cs2 = length (cores t).
Hypothesis Lus : length us2 = length (Us t).

Definition axis_ranks (n : nat) : nat := if n =? m then q' else tr n.

Lemma one_network : tucker_network (mkTensor cs2 us2) sp rk axis_ranks.
Proof.
  pose proof Htk as (H & HlU & HU & Hr & Htr & H0 & HN).
  pose proof (tucker_dim Htk) as Hd.
  unfold tucker_network, axis_ranks. cbn [cores Us].
  split; [|split; [lia|split; [|split; [exact Hr|split]]]].
  - apply (nth_ext _ _ (tshape tnil) []).
    + rewrite !length_map, length_seq. lia.
    + intros n Hn. rewrite length_map in Hn.
      rewrite (map_nth tshape cs2 tnil n), nth_map_seq by lia.
      rewrite Hcs. destruct (n =? m) eqn:En.
      * apply Nat.eqb_eq in En. subst n. exact Sc'.
      * apply (tucker_core_shape Htk). lia.
  - intros k Hk. rewrite Hus. destruct (k =? m) eqn:Ek.
    + apply Nat.eqb_eq in Ek. subst k. exact Fu'.
    + apply (HU k Hk).
  - intros k. destruct (k =? m); [exact Hq'|apply Htr].
  - split; assumption.
Qed.

Lemma one_torch : sp <> [] -> torch (mkTensor cs2 us2) = torch t.
Proof.
  intros Hne.
  destruct (tucker_plain Htk) as (ds & Hds & Hnet & Hg).
  destruct (tucker_plain one_network) as (ds2 & Hds2 & Hnet2 & Hg2).
  cbn [cores Us] in Hds2, Hg2.
  rewrite (@torch_plain (mkTensor cs2 us2) ds2 sp rk Hds2 Hnet2 Hne).
  rewrite (@torch_plain t ds sp rk Hds Hnet Hne).
  unfold build. do 2 f_equal. apply tab_ext. intros idx Hidx.
  pose proof (@net_chain _ _ rk Hnet 0 (Nat.le_0_l _)) as Ch.
  cbn [skipn cores] in Ch.
  pose proof (net_dim Hnet) as Hd. unfold dim in Hd. cbn [cores] in Hd.
  apply (@tt_vec_cores_ext ds ds2 (rk 0) 1 idx v1 0 Ch).
  - destruct Hnet as (E1 & _). destruct Hnet2 as (E2 & _).
    cbn [cores] in E1, E2. rewrite E1, E2. reflexivity.
  - intros k i x j Hk. rewrite Hd in Hk.
    pose proof (@net_core_shape _ sp rk Hnet k Hk) as Sd. cbn [cores] in Sd.
    unfold sh. rewrite Sd. cbn [nth]. intros Hi Hx Hj.
    rewrite (Hg2 k i x j Hk Hi Hx Hj), (Hg k i x j Hk Hi Hx Hj).
    unfold axis_ranks. rewrite Hcs, Hus. destruct (k =? m) eqn:Ek.
    + apply Nat.eqb_eq in Ek. subst k. apply Hsame; assumption.
    + reflexivity.
  - pose proof (net_mids Hnet) as Md. cbn [cores] in Md. rewrite Md.
    exact Hidx.
  - lia.
Qed.

End OneAxis.

(** *** Orthogonalization in a network with Tucker factors *)

(** [factor_orthogonalize(mu)]: the factor becomes the [Q] of its
    factorization and the core takes the [R]. *)
Lemma factor_orthogonalize_tucker (t t' : Tensor) (sp : list nat)
  (rk tr : nat -> nat) (m : nat) :
  tucker_network t sp rk tr -> positive sp -> m < length sp ->
  factor_orthogonalize t m = Ok t' ->
  exists tr',
    (forall n, tr' n <= tr n)
    /\ tucker_network t' sp rk tr'
    /\ torch t' = torch t
    /\ forall k, has_factor t' k = has_factor t k.
Proof.
  intros Htk Hpos Hm H.
  pose proof Htk as (_ & HlU & HU & Hr & Htr & _).
  pose proof (tucker_dim Htk) as Hd.
  assert (Hne : sp <> []) by (intros E; rewrite E in Hm; simpl in Hm; lia).
  unfold factor_orthogonalize in H.
  rewrite (@get_item_nth _ (Us t) m None) in H by lia. cbn [bind] in H.
  pose proof (HU m Hm) as Fu.
  destruct (nth m (Us t) None) as [U|] eqn:EU.
  - cbn [factor_ok] in Fu.
    bind_as H qrf Hqr. destruct qrf as (Q & Rf).
    destruct (@qr_thin U Q Rf _ _ Fu Hqr) as (SQ & SR).
    pose proof (@qr_exact U Q Rf _ _ Fu Hqr) as HQR.
    set (n := nth m sp 0) in *. set (q := tr m) in *.
    set (k := Nat.min n q) in *.
    assert (Hn : n <> 0) by (apply positive_nth_pos; assumption).
    assert (Hq : q <> 0) by apply Htr.
    assert (Hk : k <> 0) by (unfold k; lia).
    bind_as H us' Hus.
    rewrite (@get_item_nth _ (cores t) m tnil) in H by lia. cbn [bind] in H.
    pose proof (tucker_core_shape Htk Hm) as Sc.
    set (c := nth m (cores t) tnil) in *.
    replace (tdim c =? 2) with false in H
      by (unfold tdim; rewrite Sc; reflexivity).
    unfold einsum_ijk_aj_iak in H. rewrite Sc, SR in H. fold q in H.
    rewrite Nat.eqb_refl in H. cbn [bind] in H.
    bind_as H cs' Hcs. inversion H. subst t'. clear H.
    match type of Hcs with
    | set_item _ _ ?x = _ => set (c' := x) in *
    end.
    assert (Ecs : forall j, nth j cs' tnil
                            = if j =? m then c' else nth j (cores t) tnil)
      by (intros j; apply (@set_item_nth _ _ _ _ j _ tnil Hcs)).
    assert (Eus : forall j, nth j us' None
                            = if j =? m then Some Q else nth j (Us t) None)
      by (intros j; apply (@set_item_nth _ _ _ _ j _ None Hus)).
    pose proof (set_item_length _ _ _ Hcs) as Lcs.
    pose proof (set_item_length _ _ _ Hus) as Lus.
    exists (axis_ranks tr m k). split; [|split; [|split]].
    + intros j. unfold axis_ranks. destruct (j =? m) eqn:Ej; [|lia].
      apply Nat.eqb_eq in Ej. subst j. unfold k, q. lia.
    + apply (@one_network t sp rk tr Htk m k c' (Some Q) cs' us' Hm Hk
               eq_refl SQ Ecs Eus Lcs Lus).
    + apply (@one_torch t sp rk tr Htk m k c' (Some Q) cs' us' Hm Hk
               eq_refl SQ); try assumption.
      intros i x j Hi Hx Hj. rewrite EU. cbn [factor_entry]. fold c q.
      rewrite (@rsum_ext k _
                 (fun a => rsum q (fun b => get c [i; b; j] *! get Rf [a; b])
                           *! get Q [x; a]))
        by (intros a Ha; unfold c'; rewrite get_build3 by assumption;
            reflexivity).
      rewrite rsum_assoc. apply rsum_ext. intros b Hb. f_equal.
      rewrite <- (HQR x b Hx Hb). fold k. apply rsum_ext. intros; ring.
    + intros j. unfold has_factor. cbn [Us]. rewrite Eus.
      destruct (j =? m) eqn:Ej; [|reflexivity].
      apply Nat.eqb_eq in Ej. subst j. rewrite EU. reflexivity.
  - inversion H. subst t'. exists tr.
    split; [intros; lia|]. split; [exact Htk|]. split; reflexivity.
Qed.

Lemma factor_orthogonalize_length (t t' : Tensor) (m : nat) :
  factor_orthogonalize t m = Ok t' -> length (cores t') = length (cores t).
Proof.
  unfold factor_orthogonalize. intros H. bind_as H u Hu.
  destruct u as [u|]; [|inversion H; reflexivity].
  bind_as H qrf Hqr. destruct qrf as (Q & Rf).
  bind_as H us Hus. bind_as H c Hc. bind_as H c' Hc'. bind_as H cs Hcs.
  inversion H. cbn [cores]. apply (set_item_length _ _ _ Hcs).
Qed.

Lemma factor_orthogonalize_none (cs : list tensor) (m : nat) :
  m < length cs ->
  factor_orthogonalize (mkTensor cs (repeat None (length cs))) m
  = Ok (mkTensor cs (repeat None (length cs))).
Proof.
  intros Hm. unfold factor_orthogonalize. cbn [Us].
  rewrite (@get_item_nth _ _ m None) by (rewrite repeat_length; exact Hm).
  rewrite nth_repeat. reflexivity.
Qed.

(** The same steps in a computation and in the one it is compared with. *)
Ltac both_step H :=
  match type of H with
  | bind ?c _ = Ok _ =>
      let x := fresh "x" in
      let E := fresh "E" in
      destruct c as [x|] eqn:E; [|discriminate H];
      match type of x with
      | (_ * _)%type => destruct x
      | _ => idtac
      end;
      cbn [bind] in H |- *
  end.

(** [right_orthogonalize(mu)] and [left_orthogonalize(mu)] are
    [factor_orthogonalize(mu)] and then what they do to the cores alone. *)
Lemma right_orthogonalize_split (t t' : Tensor) (mu : Z) (L : tensor) :
  right_orthogonalize t mu = Ok (t', L) ->
  Z.to_nat mu < dim t /\ 1 <= Z.to_nat mu
  /\ exists tf,
       factor_orthogonalize t (Z.to_nat mu) = Ok tf
       /\ Us t' = Us tf
       /\ right_orthogonalize (core_network tf) mu
          = Ok (mkTensor (cores t') (repeat None (length (cores tf))), L).
Proof.
  intros H. unfold right_orthogonalize in H.
  bind_as H u Hu. unfold assert in Hu.
  destruct ((1 <=? mu)%Z && (mu <? Z.of_nat (dim t))%Z) eqn:Hb;
    [|discriminate Hu]. clear Hu u.
  pose proof Hb as Hb'. apply andb_true_iff in Hb'. destruct Hb' as (B1 & B2).
  apply Z.leb_le in B1. apply Z.ltb_lt in B2.
  split; [lia|]. split; [lia|].
  bind_as H tf Htf. exists tf. split; [reflexivity|].
  pose proof (@factor_orthogonalize_length _ _ _ Htf) as Hl.
  unfold right_orthogonalize, core_network, dim. cbn [cores].
  unfold dim in Hb. rewrite <- Hl in Hb. rewrite Hb. cbn [assert bind].
  rewrite factor_orthogonalize_none by (unfold dim in B2; lia).
  cbn [bind cores Us].
  repeat both_step H.
  inversion H. subst t' L. cbn [Us cores]. split; reflexivity.
Qed.

Lemma left_orthogonalize_split (t t' : Tensor) (mu : Z) (Rf : tensor) :
  left_orthogonalize t mu = Ok (t', Rf) ->
  Z.to_nat mu + 1 < dim t
  /\ exists tf,
       factor_orthogonalize t (Z.to_nat mu) = Ok tf
       /\ Us t' = Us tf
       /\ left_orthogonalize (core_network tf) mu
          = Ok (mkTensor (cores t') (repeat None (length (cores tf))), Rf).
Proof.
  intros H. unfold left_orthogonalize in H.
  bind_as H u Hu. unfold assert in Hu.
  destruct ((0 <=? mu)%Z && (mu <? Z.of_nat (dim t) - 1)%Z) eqn:Hb;
    [|discriminate Hu]. clear Hu u.
  pose proof Hb as Hb'. apply andb_true_iff in Hb'. destruct Hb' as (B1 & B2).
  apply Z.leb_le in B1. apply Z.ltb_lt in B2.
  split; [lia|].
  bind_as H tf Htf. exists tf. split; [reflexivity|].
  pose proof (@factor_orthogonalize_length _ _ _ Htf) as Hl.
  unfold left_orthogonalize, core_network, dim. cbn [cores].
  unfold dim in Hb. rewrite <- Hl in Hb. rewrite Hb. cbn [assert bind].
  rewrite factor_orthogonalize_none by (unfold dim in B2; lia).
  cbn [bind cores Us].
  repeat both_step H.
  inversion H. subst t' Rf. cbn [Us cores]. split; reflexivity.
Qed.

Lemma mids_positive (tr : nat -> nat) (n : nat) :
  (forall k, tr k <> 0) -> positive (mids tr n).
Proof.
  intros H. unfold positive, mids. apply Forall_forall. intros x Hx.
  apply in_map_iff in Hx. destruct Hx as (k & <- & _).
  pose proof (H k). lia.
Qed.

(** Cores that are a TT network of the Tucker ranks, under the factors of
    a network. *)
Lemma core_to_tucker (t : Tensor) (sp : list nat) (rk tr rk' : nat -> nat)
  (cs' : list tensor) :
  tucker_network t sp rk tr ->
  tt_network (mkTensor cs' (repeat None (length (cores t))))
    (mids tr (length sp)) rk' ->
  tucker_network (mkTensor cs' (Us t)) sp rk' tr.
Proof.
  intros Htk (H & _ & Hr' & H0' & HN').
  pose proof Htk as (_ & HlU & HU & _ & Htr & _).
  rewrite mids_length in H, HN'. cbn [cores] in H.
  unfold tucker_network. cbn [cores Us].
  split; [|split; [exact HlU|split; [exact HU|split; [exact Hr'|]]]].
  - rewrite H. apply map_ext_in. intros k Hk. apply in_seq in Hk.
    rewrite mids_nth by lia. reflexivity.
  - split; [exact Htr|]. split; assumption.
Qed.

(** The same Tucker core under the same factors is the same array. *)
Lemma same_core_torch (t t' : Tensor) (sp : list nat)
  (rk rk' tr : nat -> nat) :
  tucker_network t sp rk tr -> tucker_network t' sp rk' tr ->
  Us t' = Us t -> sp <> [] ->
  torch (core_network t') = torch (core_network t) ->
  torch t' = torch t.
Proof.
  intros Htk Htk' EU Hne Hc.
  assert (Hm : mids tr (length sp) <> [])
    by (intros E; apply (f_equal (@length _)) in E;
        rewrite mids_length in E; destruct sp; [congruence|discriminate E]).
  rewrite (net_torch (tucker_core_network Htk) Hm) in Hc.
  rewrite (net_torch (tucker_core_network Htk') Hm) in Hc.
  cbn [cores core_network] in Hc. inversion Hc as [Hb]. clear Hc.
  rewrite (tucker_torch Htk Hne), (tucker_torch Htk' Hne). rewrite EU.
  unfold build. do 2 f_equal. apply tab_ext. intros idx _.
  apply msum_ext. intros pos Hpos. f_equal.
  assert (Hg : get (build (mids tr (length sp))
                      (fun l => tt_vec (cores t') l v1 0)) pos
               = get (build (mids tr (length sp))
                        (fun l => tt_vec (cores t) l v1 0)) pos)
    by (unfold build, get; cbn [tshape tdata]; rewrite Hb; reflexivity).
  rewrite !get_build in Hg by exact Hpos. exact Hg.
Qed.

(** What the sweeps keep in a network with Tucker factors: the shape, the
    array, which axes have a factor, and ranks not above [rk] and [tr]. *)
Definition tucker_kept (sp : list nat) (rk tr : nat -> nat) (t0 t' : Tensor)
  : Prop :=
  exists rk' tr',
    (forall n, rk' n <= rk n) /\ (forall n, tr' n <= tr n)
    /\ tucker_network t' sp rk' tr'
    /\ torch t' = torch t0
    /\ forall k, has_factor t' k = has_factor t0 k.

Lemma tucker_kept_refl (t : Tensor) (sp : list nat) (rk tr : nat -> nat) :
  tucker_network t sp rk tr -> tucker_kept sp rk tr t t.
Proof.
  intros H. exists rk, tr. split; [intros; lia|]. split; [intros; lia|].
  split; [exact H|]. split; reflexivity.
Qed.

Lemma tucker_kept_step (sp : list nat) (rk tr : nat -> nat)
  (t0 t t' : Tensor) :
  tucker_kept sp rk tr t0 t ->
  (forall rk1 tr1, tucker_network t sp rk1 tr1 ->
                   tucker_kept sp rk1 tr1 t t') ->
  tucker_kept sp rk tr t0 t'.
Proof.
  intros (rk1 & tr1 & L1 & L2 & Hn & Ht & Hf) Hstep.
  destruct (Hstep rk1 tr1 Hn) as (rk2 & tr2 & M1 & M2 & Hn2 & Ht2 & Hf2).
  exists rk2, tr2. split; [|split; [|split; [exact Hn2|split]]].
  - intros n. pose proof (L1 n). pose proof (M1 n). lia.
  - intros n. pose proof (L2 n). pose proof (M2 n). lia.
  - rewrite Ht2. exact Ht.
  - intros k. rewrite Hf2. apply Hf.
Qed.

(** What [left_orthogonalize(mu)] and [right_orthogonalize(mu)] do to the
    cores alone, under the factors. *)
Lemma cores_step_kept (t tf t' : Tensor) (sp : list nat)
  (rk tr : nat -> nat) :
  tucker_network t sp rk tr -> positive sp -> sp <> [] ->
  tucker_kept sp rk tr t tf ->
  Us t' = Us tf ->
  (forall rk1 tr1,
     tucker_network tf sp rk1 tr1 ->
     exists rk',
       (forall n, rk' n <= rk1 n)
       /\ tt_array (mkTensor (cores t') (repeat None (length (cores tf))))
            (mids tr1 (length sp)) rk'
            (fun idx => tt_vec (cores tf) idx v1 0)) ->
  tucker_kept sp rk tr t t'.
Proof.
  intros Htk Hpos Hne Kf EU Hraw.
  apply (@tucker_kept_step sp rk tr t tf t' Kf).
  intros rk1 tr1 Hn1.
  destruct (Hraw rk1 tr1 Hn1) as (rk' & Hle & Hn' & Ht').
  pose proof (core_to_tucker Hn1 Hn') as Hn2.
  destruct t' as [cs' us']. cbn [cores Us] in *. subst us'.
  exists rk', tr1. split; [exact Hle|]. split; [intros; lia|].
  split; [exact Hn2|]. split; [|reflexivity].
  apply (@same_core_torch tf (mkTensor cs' (Us tf)) sp rk1 rk' tr1 Hn1 Hn2
           eq_refl Hne).
  assert (Hm : mids tr1 (length sp) <> [])
    by (intros E; apply (f_equal (@length _)) in E;
        rewrite mids_length in E; destruct sp; [congruence|discriminate E]).
  rewrite (net_torch (tucker_core_network Hn1) Hm).
  cbn [cores core_network]. rewrite <- Ht'. unfold core_network.
  cbn [cores]. do 3 f_equal.
  pose proof (net_dim Hn') as D1. unfold dim in D1. cbn [cores] in D1.
  rewrite mids_length in D1. rewrite D1. symmetry. apply (tucker_dim Hn1).
Qed.

Lemma right_orthogonalize_tucker (t t' : Tensor) (sp : list nat)
  (rk tr : nat -> nat) (mu : Z) (L : tensor) :
  tucker_network t sp rk tr -> positive sp ->
  right_orthogonalize t mu = Ok (t', L) -> tucker_kept sp rk tr t t'.
Proof.
  intros Htk Hpos H.
  destruct (right_orthogonalize_split _ _ H) as (B1 & B2 & tf & Ef & EU & Er).
  unfold dim in B1. rewrite (tucker_dim Htk) in B1.
  assert (Hne : sp <> []) by (intros E; rewrite E in B1; simpl in B1; lia).
  destruct (factor_orthogonalize_tucker Htk Hpos B1 Ef)
    as (tr1 & Hle & Hn1 & Ht1 & Hf1).
  apply (@cores_step_kept t tf t' sp rk tr Htk Hpos Hne); [|exact EU|].
  - exists rk, tr1. split; [intros; lia|]. split; [exact Hle|].
    split; [exact Hn1|]. split; assumption.
  - intros rk2 tr2 Hn2. pose proof Hn2 as (_ & _ & _ & _ & X & _).
    apply (@right_orthogonalize_array _ _ _ _ _ _
             (tucker_core_network Hn2) (@mids_positive tr2 (length sp) X)
             Er).
Qed.

Lemma left_orthogonalize_tucker (t t' : Tensor) (sp : list nat)
  (rk tr : nat -> nat) (mu : Z) (Rf : tensor) :
  tucker_network t sp rk tr -> positive sp ->
  left_orthogonalize t mu = Ok (t', Rf) -> tucker_kept sp rk tr t t'.
Proof.
  intros Htk Hpos H.
  destruct (left_orthogonalize_split _ _ H) as (B1 & tf & Ef & EU & Er).
  unfold dim in B1. rewrite (tucker_dim Htk) in B1.
  assert (Hne : sp <> [])
    by (intros E; rewrite E in B1; cbn [length] in B1; lia).
  assert (B0 : Z.to_nat mu < length sp) by lia.
  destruct (factor_orthogonalize_tucker Htk Hpos B0 Ef)
    as (tr1 & Hle & Hn1 & Ht1 & Hf1).
  apply (@cores_step_kept t tf t' sp rk tr Htk Hpos Hne); [|exact EU|].
  - exists rk, tr1. split; [intros; lia|]. split; [exact Hle|].
    split; [exact Hn1|]. split; assumption.
  - intros rk2 tr2 Hn2. pose proof Hn2 as (_ & _ & _ & _ & X & _).
    apply (@left_orthogonalize_array _ _ _ _ _ _
             (tucker_core_network Hn2) (@mids_positive tr2 (length sp) X)
             Er).
Qed.

Lemma cp_to_tt_all_tucker (t : Tensor) (sp : list nat) (rk tr : nat -> nat) :
  tucker_network t sp rk tr -> sp <> [] ->
  cp_to_tt_all t = Ok (mkTensor (cores t) (Us t)).
Proof.
  intros Htk Hne. pose proof (tucker_dim Htk) as Hd.
  assert (HD : forall n, n < length (cores t) ->
                 tdim (nth n (cores t) tnil) = 3).
  { intros n Hn. unfold tdim.
    rewrite (tucker_core_shape Htk) by lia. reflexivity. }
  destruct (@cp_to_tt_all_converted t) as (cs' & E & Hc).
  - intros E. rewrite E in Hd. destruct sp; [congruence | discriminate].
  - intros n Hn. right. apply HD, Hn.
  - rewrite E. rewrite (@converted_tt (cores t) true cs'); [reflexivity| |exact Hc].
    apply Forall_nth. intros i d Hi. rewrite (nth_indep _ d tnil Hi).
    apply HD, Hi.
Qed.

Lemma tucker_eta (t : Tensor) (sp : list nat) (rk tr : nat -> nat) :
  tucker_network t sp rk tr ->
  tucker_network (mkTensor (cores t) (Us t)) sp rk tr.
Proof. intros H. exact H. Qed.

Lemma orthogonalize_tucker (t t' : Tensor) (sp : list nat)
  (rk tr : nat -> nat) (mu : Z) (RL : tensor * tensor) :
  tucker_network t sp rk tr -> positive sp ->
  orthogonalize t mu = Ok (t', RL) -> tucker_kept sp rk tr t t'.
Proof.
  intros Htk Hpos H. unfold orthogonalize in H.
  assert (Hne : sp <> []).
  { intros E. subst sp. pose proof (tucker_dim Htk) as Hd.
    unfold cp_to_tt_all in H. destruct (cores t); [discriminate H|].
    discriminate Hd. }
  rewrite (cp_to_tt_all_tucker Htk Hne) in H. cbn [bind] in H.
  assert (K0 : tucker_kept sp rk tr t (mkTensor (cores t) (Us t))).
  { exists rk, tr. split; [intros; lia|]. split; [intros; lia|].
    split; [exact Htk|]. split; [|reflexivity].
    destruct t; reflexivity. }
  bind_as H st1 H1. destruct st1 as (t1 & Rf).
  assert (K1 : tucker_kept sp rk tr t t1).
  { refine (@foldM_invariant _ _ _ (fun st => tucker_kept sp rk tr t (fst st))
              _ _ (mkTensor (cores t) (Us t), ones [1; 1]) (t1, Rf) K0 H1).
    intros st i st' Kst Hb. bind_as Hb r Hr. inversion Hb. subst st'.
    destruct r as (t2 & R2). cbn [fst].
    apply (@tucker_kept_step sp rk tr t (fst st) t2 Kst).
    intros rk1 tr1 Hn1.
    apply (@left_orthogonalize_tucker _ _ _ _ _ _ _ Hn1 Hpos Hr). }
  bind_as H st2 H2. destruct st2 as (t2 & L). inversion H. subst t' RL.
  refine (@foldM_invariant _ _ _ (fun st => tucker_kept sp rk tr t (fst st))
            _ _ (t1, ones [1; 1]) (t2, L) K1 H2).
  intros st i st' Kst Hb. bind_as Hb r Hr. inversion Hb. subst st'.
  destruct r as (t3 & L3). cbn [fst].
  apply (@tucker_kept_step sp rk tr t (fst st) t3 Kst).
  intros rk1 tr1 Hn1.
  apply (@right_orthogonalize_tucker _ _ _ _ _ _ _ Hn1 Hpos Hr).
Qed.

(** X20: under an exact thin QR factorization, [factor_orthogonalize],
    [left_orthogonalize], [right_orthogonalize] and [orthogonalize], when
    they return on a network of TT cores with Tucker factors whose sizes
    are positive, leave such a network of the same shape, with no TT rank
    and no Tucker rank above what it was and factors on the same axes,
    that [torch()] decompresses to the same array. *)
Theorem orthogonalize_tucker_keeps_array (t : Tensor) (sp : list nat)
  (rk tr : nat -> nat) (mu : Z) :
  tucker_network t sp rk tr -> positive sp ->
  (forall t', Z.to_nat mu < length sp ->
     factor_orthogonalize t (Z.to_nat mu) = Ok t' ->
     tucker_kept sp rk tr t t')
  /\ (forall t' Rf, left_orthogonalize t mu = Ok (t', Rf) ->
        tucker_kept sp rk tr t t')
  /\ (forall t' L, right_orthogonalize t mu = Ok (t', L) ->
        tucker_kept sp rk tr t t')
  /\ (forall t' RL, orthogonalize t mu = Ok (t', RL) ->
        tucker_kept sp rk tr t t').
Proof.
  intros Htk Hpos. split; [|split; [|split]].
  - intros t' Hm H.
    destruct (factor_orthogonalize_tucker Htk Hpos Hm H)
      as (tr1 & Hle & Hn1 & Ht1 & Hf1).
    exists rk, tr1. split; [intros; lia|]. split; [exact Hle|].
    split; [exact Hn1|]. split; assumption.
  - intros t' Rf H. apply (@left_orthogonalize_tucker _ _ _ _ _ _ _ Htk Hpos H).
  - intros t' L H. apply (@right_orthogonalize_tucker _ _ _ _ _ _ _ Htk Hpos H).
  - intros t' RL H. apply (@orthogonalize_tucker _ _ _ _ _ _ _ Htk Hpos H).
Qed.

(** *** Rounding the Tucker ranks with no error allowed *)

Lemma reshape_trail3 (t : tensor) (a b m : nat) :
  a * b <> 0 -> numel (tshape t) = a * b * m ->
  reshape t [Some a; Some b; None] = Ok (mkT [a; b; m] (tdata t)).
Proof.
  intros Hk H. unfold reshape, infer_size. simpl.
  rewrite Nat.mul_1_r.
  replace (a * b =? 0) with false by (symmetry; apply Nat.eqb_neq; exact Hk).
  rewrite H, (Nat.mul_comm (a * b) m), Nat.Div0.mod_mul, Nat.div_mul
    by exact Hk.
  reflexivity.
Qed.

Lemma set_item_same (A : Type) (l : list A) (n : nat) (d : A) :
  n < length l -> set_item l n (nth n l d) = Ok l.
Proof.
  revert n. induction l as [|a l IH]; intros n H; [simpl in H; lia|].
  destruct n as [|n]; [reflexivity|]. cbn [set_item nth].
  rewrite IH by (simpl in H; lia). reflexivity.
Qed.

(** The loop of [round_tucker] that converts the cores leaves TT cores as
    they are. *)
Lemma cp_to_tt_each_tt (cs : list tensor) (l : list nat) :
  (forall n, n < length cs -> tdim (nth n cs tnil) = 3) ->
  (forall n, In n l -> n < length cs) ->
  foldM (fun cs m => c <- get_item cs m ;; c' <- _cp_to_tt c ;;
                     set_item cs m c') l cs
  = Ok cs.
Proof.
  intros HD. induction l as [|m l IH]; intros Hl; [reflexivity|].
  cbn [foldM]. pose proof (Hl m (or_introl eq_refl)) as Hm.
  rewrite (@get_item_nth _ cs m tnil) by exact Hm. cbn [bind].
  pose proof (HD m Hm) as D. unfold _cp_to_tt. unfold tdim in D.
  destruct (tshape (nth m cs tnil)) as [|x [|y [|z [|? ?]]]];
    try discriminate D.
  cbn [bind]. rewrite set_item_same by exact Hm. cbn [bind].
  apply IH. intros n Hn. apply Hl. right. exact Hn.
Qed.

Lemma tucker_shape (t : Tensor) (sp : list nat) (rk tr : nat -> nat) :
  tucker_network t sp rk tr -> shape t = Ok sp.
Proof.
  intros Htk. destruct (tucker_plain Htk) as (ds & Hds & Hnet & _).
  unfold shape. rewrite (decompress_shape _ _ Hds). f_equal.
  apply (net_mids Hnet).
Qed.

(** A loop over the axes from the last to the first. *)
Lemma foldM_down (S : Type) (body : S -> nat -> result S)
  (Inv : nat -> S -> Prop) (n : nat) :
  (forall s k s', k < n -> Inv (Datatypes.S k) s -> body s k = Ok s' ->
                  Inv k s') ->
  forall s0 sf, Inv n s0 -> foldM body (rev (seq 0 n)) s0 = Ok sf -> Inv 0 sf.
Proof.
  induction n as [|n IH]; intros Hstep s0 sf H0 Hf.
  - inversion Hf. subst. exact H0.
  - rewrite seq_S, rev_app_distr in Hf. cbn [rev app plus foldM] in Hf.
    destruct (body s0 n) as [s1|] eqn:E1; [|discriminate Hf].
    cbn [bind] in Hf.
    apply (IH (fun s k s' Hk => Hstep s k s' ltac:(lia)) s1 sf); [|exact Hf].
    apply (Hstep s0 n s1 ltac:(lia) H0 E1).
Qed.

(** [tn.truncated_svd] with the budget [eps = 0], no cap on the rank and
    [left_ortho=True] returns factors of shapes [(a, k)] and [(k, b)],
    with [k] between 1 and [min(a, b)], whose product is the matrix. *)
Hypothesis svd_eps_exact :
  forall M lft rgt a b,
    tshape M = [a; b] ->
    truncated_svd M (BEps rO) None true = Ok (lft, rgt) ->
    exists k, k <> 0 /\ k <= Nat.min a b
              /\ tshape lft = [a; k] /\ tshape rgt = [k; b]
              /\ forall i j, i < a -> j < b ->
                   rsum k (fun l => get lft [i; l] *! get rgt [l; j])
                   = get M [i; j].

(** One pass of the sweep of [round_tucker]. *)
Lemma round_tucker_step_exact (t t' : Tensor) (sp : list nat)
  (rk tr : nat -> nat) (ndim mu : nat) :
  tucker_network t sp rk tr -> positive sp -> mu < length sp ->
  round_tucker_step rO ndim (repeat None (length sp)) t mu = Ok t' ->
  exists rk' tr',
    (forall n, rk' n <= rk n) /\ (forall n, tr' n <= tr n)
    /\ tucker_network t' sp rk' tr' /\ torch t' = torch t
    /\ has_factor t' mu = true
    /\ forall k, k <> mu -> has_factor t' k = has_factor t k.
Proof.
  intros Htk Hpos Hm H.
  pose proof Htk as (_ & HlU & HU & Hr & Htr & _).
  pose proof (tucker_dim Htk) as Hd.
  assert (Hne : sp <> []) by (intros E; rewrite E in Hm; simpl in Hm; lia).
  unfold round_tucker_step in H.
  rewrite (@get_item_nth _ (Us t) mu None) in H by lia. cbn [bind] in H.
  pose proof (HU mu Hm) as Fu.
  set (n := nth mu sp 0) in *. set (q := tr mu) in *.
  set (r := rk mu) in *. set (r' := rk (S mu)) in *.
  assert (Hn : n <> 0) by (apply positive_nth_pos; assumption).
  assert (Hq : q <> 0) by apply Htr.
  assert (Hr0 : r <> 0) by apply Hr. assert (Hr1 : r' <> 0) by apply Hr.
  (* the factor, or the identity in its place *)
  assert (HUe : exists Ue,
             match nth mu (Us t) None with
             | Some u => Ok u
             | None => s <- shape t ;; sn <- get_item s mu ;; Ok (eye sn)
             end = Ok Ue
             /\ tshape Ue = [n; q]
             /\ forall x a, x < n -> a < q ->
                  factor_entry (nth mu (Us t) None) x a = get Ue [x; a]).
  { destruct (nth mu (Us t) None) as [U|].
    - exists U. split; [reflexivity|]. split; [exact Fu|]. reflexivity.
    - rewrite (tucker_shape Htk). cbn [bind].
      rewrite (@get_item_nth _ sp mu 0) by exact Hm. cbn [bind]. fold n.
      cbn [factor_ok] in Fu. exists (eye n). split; [reflexivity|].
      split; [rewrite Fu; reflexivity|].
      intros x a Hx Ha. cbn [factor_entry]. rewrite Fu in Ha.
      symmetry. apply get_eye; assumption. }
  destruct HUe as (Ue & EUe & SUe & GUe). rewrite EUe in H.
  cbn [bind] in H. clear EUe.
  rewrite (@get_item_nth _ (cores t) mu tnil) in H by lia. cbn [bind] in H.
  pose proof (tucker_core_shape Htk Hm) as Sc. fold r q r' in Sc.
  set (c := nth mu (cores t) tnil) in *.
  replace (sh c 0) with r in H by (unfold sh; rewrite Sc; reflexivity).
  replace (sh c 1) with q in H by (unfold sh; rewrite Sc; reflexivity).
  replace (sh c 2) with r' in H by (unfold sh; rewrite Sc; reflexivity).
  (* the core, its axis last, and its factorization *)
  unfold permute021 at 1 in H. rewrite Sc in H. cbn [bind] in H.
  set (cp := build3 r r' q (fun i j k => get c [i; k; j])) in *.
  rewrite (@reshape_lead cp (r * r') q Hq) in H
    by (unfold cp, build3, build; cbn [tshape]; simpl; lia).
  cbn [bind] in H. bind_as H qrf Hqr. destruct qrf as (Q & Rf).
  set (M := mkT [r * r'; q] (tdata cp)) in *.
  destruct (@qr_thin M Q Rf (r * r') q eq_refl Hqr) as (SQ & SR).
  pose proof (@qr_exact M Q Rf (r * r') q eq_refl Hqr) as HQR.
  set (k := Nat.min (r * r') q) in *.
  assert (Hk : k <> 0) by (unfold k; nia).
  rewrite (@reshape_trail3 Q r r' k) in H
    by (try rewrite SQ; simpl; nia).
  cbn [bind] in H. unfold permute021 in H. cbn [tshape bind] in H.
  unfold transpose in H. rewrite SR in H. cbn [bind] in H.
  unfold mm in H. rewrite SUe in H. cbn [tshape build2 build] in H.
  rewrite Nat.eqb_refl in H. cbn [bind] in H.
  rewrite (@get_item_nth _ (repeat None (length sp)) mu None) in H
    by (rewrite repeat_length; exact Hm).
  rewrite nth_repeat in H. cbn [bind] in H. rewrite rdiv_zero in H.
  bind_as H lr Hsvd. destruct lr as (lft & rgt).
  match type of Hsvd with
  | truncated_svd ?x _ _ _ = _ => set (u1 := x) in *
  end.
  destruct (@svd_eps_exact u1 lft rgt n k eq_refl Hsvd)
    as (k' & Hk' & Hk'le & Sl & Sr & Hlr).
  unfold einsum_ijk_aj_iak in H. cbn [tshape build3 build] in H.
  rewrite Sr, Nat.eqb_refl in H. cbn [bind] in H.
  bind_as H cs' Hcs. bind_as H us' Hus.
  match type of Hcs with
  | set_item _ _ ?x = _ => set (c2 := x) in *
  end.
  assert (Ecs : forall j, nth j cs' tnil
                          = if j =? mu then c2 else nth j (cores t) tnil)
    by (intros j; apply (@set_item_nth _ _ _ _ j _ tnil Hcs)).
  assert (Eus : forall j, nth j us' None
                          = if j =? mu then Some lft else nth j (Us t) None)
    by (intros j; apply (@set_item_nth _ _ _ _ j _ None Hus)).
  pose proof (set_item_length _ _ _ Hcs) as Lcs.
  pose proof (set_item_length _ _ _ Hus) as Lus.
  assert (Hsame : forall i x j,
             i < r -> x < n -> j < r' ->
             rsum k' (fun a => get c2 [i; a; j]
                               *! factor_entry (Some lft) x a)
             = rsum q (fun a => get c [i; a; j]
                                *! factor_entry (nth mu (Us t) None) x a)).
  { intros i x j Hi Hx Hj. cbn [factor_entry].
    rewrite (@rsum_ext k' _
               (fun a => rsum k (fun l => get Q [i * r' + j; l]
                                          *! get rgt [a; l])
                         *! get lft [x; a])).
    - rewrite rsum_assoc.
      rewrite (@rsum_ext k _
                 (fun l => rsum q (fun b => get Ue [x; b] *! get Rf [l; b]
                                            *! get Q [i * r' + j; l]))).
      + rewrite rsum_swap. apply rsum_ext. intros b Hb.
        rewrite GUe by assumption.
        rewrite (@rsum_ext k _
                   (fun l => get Ue [x; b]
                             *! (get Q [i * r' + j; l] *! get Rf [l; b])))
          by (intros; ring).
        rewrite rsum_scal_l, (HQR (i * r' + j) b) by (try assumption; nia).
        unfold M. rewrite <- get_as3.
        rewrite <- (@shape_eta cp [r; r'; q] eq_refl).
        unfold cp. rewrite get_build3 by assumption. ring.
      + intros l Hl.
        rewrite (@rsum_ext k' _
                   (fun a => get lft [x; a] *! get rgt [a; l]))
          by (intros; ring).
        rewrite (Hlr x l Hx Hl). unfold u1.
        rewrite get_build2 by assumption.
        rewrite <- rsum_scal_l. apply rsum_ext. intros b Hb.
        rewrite get_build2 by assumption. ring.
    - intros a Ha. f_equal. unfold c2.
      rewrite get_build3 by assumption. apply rsum_ext. intros l Hl.
      f_equal. rewrite get_build3 by assumption. rewrite get_as3.
      rewrite <- (@shape_eta Q [r * r'; k] SQ). reflexivity. }
  pose proof (@one_network t sp rk tr Htk mu k' c2 (Some lft) cs' us' Hm Hk'
                eq_refl Sl Ecs Eus Lcs Lus) as Hmid.
  pose proof (@one_torch t sp rk tr Htk mu k' c2 (Some lft) cs' us' Hm Hk'
                eq_refl Sl Hsame Ecs Eus Lcs Lus Hne) as Tmid.
  set (tm := mkTensor cs' us') in *.
  assert (Hle : forall j, axis_ranks tr mu k' j <= tr j).
  { intros j. unfold axis_ranks. destruct (j =? mu) eqn:Ej; [|lia].
    apply Nat.eqb_eq in Ej. subst j. fold q. unfold k in Hk'le. lia. }
  assert (Fm : has_factor tm mu = true)
    by (unfold has_factor, tm; cbn [Us]; rewrite Eus, Nat.eqb_refl;
        reflexivity).
  assert (Fo : forall j, j <> mu -> has_factor tm j = has_factor t j).
  { intros j Hj. unfold has_factor, tm. cbn [Us]. rewrite Eus.
    replace (j =? mu) with false by (symmetry; apply Nat.eqb_neq; exact Hj).
    reflexivity. }
  destruct (0 <? mu).
  - bind_as H ro Hro. destruct ro as (t2 & L). inversion H. subst t'.
    cbn [fst].
    destruct (@right_orthogonalize_tucker _ _ _ _ _ _ _ Hmid Hpos Hro)
      as (rk2 & tr2 & M1 & M2 & Hn2 & Ht2 & Hf2).
    exists rk2, tr2. split; [exact M1|]. split.
    { intros j. pose proof (M2 j). pose proof (Hle j). lia. }
    split; [exact Hn2|]. split; [rewrite Ht2; exact Tmid|].
    split; [rewrite Hf2; exact Fm|].
    intros j Hj. rewrite Hf2. apply Fo, Hj.
  - inversion H. subst t'. exists rk, (axis_ranks tr mu k').
    split; [intros; lia|]. split; [exact Hle|].
    split; [exact Hmid|]. split; [exact Tmid|]. split; assumption.
Qed.

(** X21: under exact factorizations (a thin QR whose product is the
    matrix, a truncated SVD that at the budget [eps = 0] without a cap
    returns at least one and at most [min(a, b)] columns whose product is
    the matrix, and 0 divided by anything is 0), [round_tucker(eps=0)],
    when it returns on a network of TT cores with or without Tucker
    factors whose sizes are positive, leaves a network of the same shape
    with a Tucker factor on every axis, no TT rank and no Tucker rank
    above what it was, that [torch()] decompresses to the same array. *)
Theorem round_tucker_exact (t t' : Tensor) (sp : list nat)
  (rk tr : nat -> nat) :
  tucker_network t sp rk tr -> positive sp ->
  round_tucker t rO None = Ok t' ->
  exists rk' tr',
    (forall n, rk' n <= rk n) /\ (forall n, tr' n <= tr n)
    /\ tucker_network t' sp rk' tr'
    /\ torch t' = torch t
    /\ forall k, k < length sp -> has_factor t' k = true.
Proof.
  intros Htk Hpos H. pose proof (tucker_dim Htk) as Hd.
  unfold round_tucker in H. unfold dim in H. rewrite Hd in H.
  cbn [expand_rmax] in H. bind_as H u Hu. clear Hu u.
  rewrite cp_to_tt_each_tt in H.
  - cbn [bind] in H. bind_as H st Ho. destruct st as (t1 & RL).
    pose proof (@orthogonalize_tucker _ _ _ _ _ _ _ (tucker_eta Htk) Hpos Ho)
      as K1.
    set (Inv := fun (k : nat) (s : Tensor) =>
                  (exists rk' tr',
                      (forall n, rk' n <= rk n) /\ (forall n, tr' n <= tr n)
                      /\ tucker_network s sp rk' tr' /\ torch s = torch t)
                  /\ forall j, k <= j < length sp -> has_factor s j = true).
    assert (I0 : Inv (length sp) t1).
    { destruct K1 as (rk1 & tr1 & L1 & L2 & Hn1 & Ht1 & _). split.
      - exists rk1, tr1. split; [exact L1|]. split; [exact L2|].
        split; [exact Hn1|]. rewrite Ht1. destruct t; reflexivity.
      - intros j Hj. lia. }
    assert (If : Inv 0 t').
    { refine (@foldM_down _ _ Inv (length sp) _ t1 t' I0 H).
      intros s k s' Hk ((rk1 & tr1 & L1 & L2 & Hn1 & Ht1) & Hf) Hs.
      destruct (@round_tucker_step_exact _ _ _ _ _ _ _ Hn1 Hpos Hk Hs)
        as (rk2 & tr2 & M1 & M2 & Hn2 & Ht2 & Fk & Fo).
      split.
      - exists rk2, tr2. split; [|split; [|split; [exact Hn2|]]].
        + intros n. pose proof (L1 n). pose proof (M1 n). lia.
        + intros n. pose proof (L2 n). pose proof (M2 n). lia.
        + rewrite Ht2. exact Ht1.
      - intros j Hj. destruct (Nat.eq_dec j k) as [->|Hjk]; [exact Fk|].
        rewrite (Fo j Hjk). apply Hf. lia. }
    destruct If as ((rk' & tr' & L1 & L2 & Hn' & Ht') & Hf).
    exists rk', tr'. split; [exact L1|]. split; [exact L2|].
    split; [exact Hn'|]. split; [exact Ht'|].
    intros k Hk. apply Hf. lia.
  - intros n Hn. unfold tdim. rewrite (tucker_core_shape Htk) by lia.
    reflexivity.
  - intros n Hn. apply in_seq in Hn. lia.
Qed.

(** *** Rounding the TT ranks of a network with Tucker factors *)

(** A pass of the sweep of [round_tt] works on the cores alone. *)
Lemma round_tt_step_split (t t' : Tensor) (delta : R)
  (rmax : list (option nat)) (mu : nat) :
  round_tt_step delta rmax t mu = Ok t' ->
  Us t' = Us t
  /\ round_tt_step delta rmax (core_network t) mu
     = Ok (mkTensor (cores t') (repeat None (length (cores t)))).
Proof.
  intros H. unfold round_tt_step in H |- *. unfold core_network.
  cbn [cores Us].
  repeat both_step H.
  inversion H. subst t'. cbn [Us cores]. split; reflexivity.
Qed.

Lemma round_tt_tucker_kept (t t' : Tensor) (sp : list nat)
  (rk tr : nat -> nat) :
  tucker_network t sp rk tr -> positive sp ->
  round_tt t rO None = Ok t' -> tucker_kept sp rk tr t t'.
Proof.
  intros Htk Hpos H. pose proof (tucker_dim Htk) as Hd.
  assert (Hne : sp <> []).
  { intros E. subst sp. unfold round_tt in H.
    bind_as H u Hu. unfold cp_to_tt_all in H.
    destruct (cores t); [discriminate H | discriminate Hd]. }
  unfold round_tt in H. unfold dim in H. rewrite Hd in H.
  cbn [expand_rmax] in H. bind_as H u Hu. clear Hu u.
  rewrite (cp_to_tt_all_tucker Htk Hne) in H. cbn [bind] in H.
  bind_as H st Ho. destruct st as (t1 & RL).
  pose proof (@orthogonalize_tucker _ _ _ _ _ _ _ (tucker_eta Htk) Hpos Ho)
    as K1.
  assert (K1' : tucker_kept sp rk tr t t1).
  { destruct K1 as (rk1 & tr1 & L1 & L2 & Hn1 & Ht1 & Hf1).
    exists rk1, tr1. split; [exact L1|]. split; [exact L2|].
    split; [exact Hn1|]. split; [rewrite Ht1; destruct t; reflexivity|].
    intros k. rewrite Hf1. reflexivity. }
  bind_as H cl Hcl. rewrite rdiv_zero in H.
  replace (rO *! norm cl) with rO in H by ring.
  refine (@foldM_invariant_in _ _ _ (tucker_kept sp rk tr t) _ _ t1 t' K1' H).
  intros s mu s' Hin Ks Hs. apply in_rev, in_seq in Hin.
  destruct (round_tt_step_split _ _ _ _ Hs) as (EU & Er).
  apply (@tucker_kept_step sp rk tr t s s' Ks).
  intros rk1 tr1 Hn1.
  apply (@cores_step_kept s s s' sp rk1 tr1 Hn1 Hpos Hne
           (tucker_kept_refl Hn1) EU).
  intros rk2 tr2 Hn2. pose proof Hn2 as (_ & _ & _ & _ & X & _).
  apply (@round_tt_step_array (core_network s) _ (mids tr2 (length sp)) rk2
           (repeat None (length sp - 1)) mu
           (tucker_core_network Hn2) (@mids_positive tr2 (length sp) X));
    [rewrite mids_length; lia | | exact Er].
  rewrite (@get_item_nth _ _ (mu - 1) None)
    by (rewrite repeat_length; lia).
  f_equal. apply nth_repeat.
Qed.

(** X22: under the exact factorizations of X16, [round_tt(eps=0)], when
    it returns on a network of TT cores with Tucker factors whose sizes
    are positive, leaves such a network of the same shape, with no TT rank
    and no Tucker rank above what it was and factors on the same axes,
    that [torch()] decompresses to the same array. *)
Theorem round_tt_tucker_exact (t t' : Tensor) (sp : list nat)
  (rk tr : nat -> nat) :
  tucker_network t sp rk tr -> positive sp ->
  round_tt t rO None = Ok t' -> tucker_kept sp rk tr t t'.
Proof. apply round_tt_tucker_kept. Qed.

(** *** What the properties of a network with Tucker factors return *)

(** X23: on a network of TT cores with Tucker factors, [dim()] is the
    number of axes, [shape] gives the sizes, [ranks_tt] the TT ranks from
    the first, which is 1, to the last, which is 1, and [ranks_tucker] the
    middle sizes of the cores. *)
Theorem tucker_properties (t : Tensor) (sp : list nat) (rk tr : nat -> nat) :
  tucker_network t sp rk tr -> sp <> [] ->
  dim t = length sp
  /\ shape t = Ok sp
  /\ ranks_tt t = Ok (map rk (seq 0 (S (length sp))))
  /\ ranks_tucker t = mids tr (length sp).
Proof.
  intros Htk Hne. pose proof (tucker_dim Htk) as Hd.
  split; [exact Hd|]. split; [apply (tucker_shape Htk)|]. split.
  - unfold ranks_tt. destruct (cores t) as [|c0 cs] eqn:Ec.
    { destruct sp; [congruence|discriminate Hd]. }
    rewrite <- Ec. rewrite <- Ec in Hd. f_equal. cbn [seq map]. f_equal.
    + assert (H0 : 0 < length sp) by (destruct sp; [congruence|simpl; lia]).
      pose proof (tucker_core_shape Htk H0) as S0. rewrite Ec in S0.
      cbn [nth] in S0. unfold tdim, sh. rewrite S0. reflexivity.
    + rewrite <- seq_shift, map_map.
      apply (nth_ext _ _ (shr tnil 1) (rk 0)).
      * rewrite !length_map, length_seq. exact Hd.
      * intros n Hn. rewrite length_map in Hn.
        rewrite (map_nth (fun c => shr c 1) (cores t) tnil n).
        rewrite (@nth_map_seq _ (fun x => rk (S x)) (length sp) n (rk 0))
          by lia.
        unfold shr, tdim. rewrite (tucker_core_shape Htk) by lia.
        reflexivity.
  - unfold ranks_tucker, mids.
    apply (nth_ext _ _ (shr tnil 2) (tr 0)).
    + rewrite !length_map, length_seq. exact Hd.
    + intros n Hn. rewrite length_map in Hn.
      rewrite (map_nth (fun c => shr c 2) (cores t) tnil n).
      rewrite (@nth_map_seq _ tr (length sp) n (tr 0)) by lia.
      unfold shr, tdim. rewrite (tucker_core_shape Htk) by lia.
      reflexivity.
Qed.

(** *** [round] with no error allowed *)

(** [tn.relative_error] returns no number below zero. *)
Hypothesis relative_error_not_below :
  forall a b e, relative_error a b = Ok e -> rltb e rO = false.

(** X24: under the exact factorizations of X16 and a relative error that
    is never below zero, [round(eps=0)], when it returns on a network of
    TT cores with Tucker factors whose sizes are positive, returns what
    [round_tt(eps=0)] returns, the Tucker ranks are not rounded, and the
    network it leaves has the same shape, factors on the same axes, no
    rank above what it was, and [torch()] decompresses it to the same
    array. *)
Theorem round_exact (t t' : Tensor) (sp : list nat) (rk tr : nat -> nat) :
  tucker_network t sp rk tr -> positive sp ->
  round t rO None = Ok t' ->
  round_tt t rO None = Ok t' /\ tucker_kept sp rk tr t t'.
Proof.
  intros Htk Hpos H. unfold round in H.
  bind_as H copy Hcopy. bind_as H t1 H1. bind_as H e He.
  rewrite (@relative_error_not_below _ _ _ He) in H. inversion H. subst t1.
  split; [reflexivity|].
  apply (round_tt_tucker_kept Htk Hpos H1).
Qed.

End Exact.

(** ** The sum of two networks with Tucker factors *)

Lemma get_cat (x y : tensor) (d : nat) (s idx : list nat) :
  in_range s idx = true ->
  get (build s
         (fun idx => if nth d idx 0 <? sh x d then get x idx
                     else get y (upd idx d (nth d idx 0 - sh x d)))) idx
  = if nth d idx 0 <? sh x d then get x idx
    else get y (upd idx d (nth d idx 0 - sh x d)).
Proof. intros H. rewrite get_build by exact H. reflexivity. Qed.

(** The five concatenations of [__add__] on two TT cores that both have a
    Tucker factor build the core with the two cores as its diagonal blocks
    along the three axes. *)
Lemma cat3_block (B : Type) (k : tensor -> result B) (x y : tensor)
  (r1 m1 q1 r2 m2 q2 : nat) :
  tshape x = [r1; m1; q1] -> tshape y = [r2; m2; q2] ->
  (slice1 <- cat x (zeros [r2; m1; q1]) 0 ;;
   slice1 <- cat slice1 (zeros [r1 + r2; m1; q2]) 2 ;;
   slice2 <- cat (zeros [r1; m2; q2]) y 0 ;;
   slice2 <- cat (zeros [r1 + r2; m2; q1]) slice2 2 ;;
   c <- cat slice1 slice2 1 ;;
   k c)
  = k (build3 (r1 + r2) (m1 + m2) (q1 + q2) (block3_entry x y r1 m1 q1)).
Proof.
  intros Hx Hy.
  rewrite cat_eq; [|unfold tdim; rewrite Hx; simpl; lia
                   |rewrite Hx; reflexivity].
  cbn [bind]. unfold sh at 1 2. rewrite Hx. cbn [nth upd tshape zeros build].
  set (s1 := build [r1 + r2; m1; q1] _).
  assert (T1 : tshape s1 = [r1 + r2; m1; q1]) by reflexivity.
  rewrite cat_eq; [|unfold tdim; rewrite T1; simpl; lia
                   |rewrite T1; reflexivity].
  cbn [bind]. unfold sh at 1 2. rewrite T1. cbn [nth upd tshape zeros build].
  set (s2 := build [r1 + r2; m1; q1 + q2] _).
  assert (T2 : tshape s2 = [r1 + r2; m1; q1 + q2]) by reflexivity.
  rewrite cat_eq; [|unfold tdim; simpl; lia | rewrite Hy; reflexivity].
  cbn [bind]. unfold sh at 1 2. rewrite Hy. cbn [nth upd tshape zeros build].
  set (s3 := build [r1 + r2; m2; q2] _).
  assert (T3 : tshape s3 = [r1 + r2; m2; q2]) by reflexivity.
  rewrite cat_eq; [|unfold tdim; simpl; lia | rewrite T3; reflexivity].
  cbn [bind]. unfold sh at 1 2. rewrite T3. cbn [nth upd tshape zeros build].
  set (s4 := build [r1 + r2; m2; q1 + q2] _).
  assert (T4 : tshape s4 = [r1 + r2; m2; q1 + q2]) by reflexivity.
  rewrite cat_eq; [|unfold tdim; rewrite T2; simpl; lia
                   |rewrite T2, T4; reflexivity].
  cbn [bind]. unfold sh at 1 2. rewrite T2, T4. cbn [nth upd].
  f_equal. unfold build3, build. f_equal. apply tab_ext.
  intros idx Hidx. pose proof (in_range_length _ _ Hidx) as Hl.
  destruct idx as [|p [|i [|j [|? ?]]]]; try discriminate Hl. clear Hl.
  cbn [in_range] in Hidx.
  apply andb_true_iff in Hidx. destruct Hidx as (Hp & Hidx).
  apply andb_true_iff in Hidx. destruct Hidx as (Hi & Hidx).
  apply andb_true_iff in Hidx. destruct Hidx as (Hj & _).
  apply Nat.ltb_lt in Hp, Hi, Hj.
  unfold ix3, block3_entry. cbn [nth upd].
  unfold sh. rewrite T2. cbn [nth].
  destruct (Nat.ltb_spec i m1) as [I|I].
  - unfold s2. rewrite get_build by (apply in_range3; lia). cbn [nth upd].
    unfold sh. rewrite T1. cbn [nth].
    destruct (Nat.ltb_spec j q1) as [J|J].
    + unfold s1. rewrite get_build by (apply in_range3; lia). cbn [nth upd].
      unfold sh. rewrite Hx. cbn [nth].
      destruct (Nat.ltb_spec p r1); [reflexivity|]. cbn [andb].
      apply get_zeros.
    + rewrite andb_false_r. apply get_zeros.
  - unfold s4. rewrite get_build by (apply in_range3; lia). cbn [nth upd].
    unfold sh. cbn [tshape zeros build nth].
    destruct (Nat.ltb_spec j q1) as [J|J].
    + rewrite orb_true_r. apply get_zeros.
    + rewrite orb_false_r.
      unfold s3. rewrite get_build by (apply in_range3; lia). cbn [nth upd].
      unfold sh. cbn [tshape zeros build nth].
      destruct (Nat.ltb_spec p r1); [apply get_zeros|reflexivity].
Qed.

(** The constructor accepts cores with factors that fit them. *)
Lemma check_factors_fit (cs : list tensor) :
  forall us,
    length us = length cs ->
    (forall k U, k < length cs -> nth k us None = Some U ->
       tdim U = 2 /\ shr (nth k cs tnil) 2 = sh U 1) ->
    check_factors cs us = Ok tt.
Proof.
  induction cs as [|c cs IH]; intros us Hl H; [reflexivity|].
  destruct us as [|u us]; [discriminate Hl|]. cbn [check_factors].
  assert (IH' : check_factors cs us = Ok tt).
  { apply IH; [simpl in Hl; lia|]. intros k U Hk E.
    apply (H (S k) U); [simpl; lia | exact E]. }
  destruct u as [U|]; [|exact IH'].
  destruct (H 0 U ltac:(simpl; lia) eq_refl) as (D & E). cbn [nth] in E.
  rewrite D, E, !Nat.eqb_refl. cbn [assert bind]. exact IH'.
Qed.

Lemma tucker_constructor (cs : list tensor) (us : list (option tensor))
  (sp : list nat) (rk tr : nat -> nat) :
  tucker_network (mkTensor cs us) sp rk tr -> sp <> [] ->
  Tensor_of_cores cs (Some us) = Ok (mkTensor cs us).
Proof.
  intros Htk Hne.
  pose proof (tucker_core_network Htk) as Hcn.
  pose proof (tucker_dim Htk) as Hd. cbn [cores] in Hd.
  pose proof Htk as (_ & HlU & HU & _). cbn [Us] in HlU, HU.
  pose proof (@net_chain _ _ rk Hcn 0 (Nat.le_0_l _)) as Ch.
  cbn [skipn cores core_network] in Ch.
  destruct (@tt_chain_chain false _ _ _ Ch) as (C1 & _).
  destruct (@chain_dims_ranks _ _ _ C1) as (D1 & D2).
  unfold Tensor_of_cores. rewrite D1, D2. cbn [negb].
  rewrite check_factors_fit; [reflexivity | lia |].
  intros k U Hk E. rewrite Hd in Hk. pose proof (HU k Hk) as F.
  rewrite E in F. cbn [factor_ok] in F.
  pose proof (tucker_core_shape Htk Hk) as Sc. cbn [cores] in Sc.
  unfold tdim, shr, sh, tdim. rewrite F, Sc. split; reflexivity.
Qed.

Section AddTucker.

Variables a b : Tensor.
Variable sp : list nat.
Variables ra rb tra trb : nat -> nat.
Hypothesis Ha : tucker_network a sp ra tra.
Hypothesis Hb : tucker_network b sp rb trb.

Variables da db : list tensor.
Hypothesis Hda : decompress_cores (cores a) (Us a) = Ok da.
Hypothesis Hdb : decompress_cores (cores b) (Us b) = Ok db.
Hypothesis Hpa : tt_network (mkTensor da (repeat None (length sp))) sp ra.
Hypothesis Hpb : tt_network (mkTensor db (repeat None (length sp))) sp rb.

Let pa : Tensor := mkTensor da (repeat None (length sp)).
Let pb : Tensor := mkTensor db (repeat None (length sp)).

(** What the main loop of [__add__] leaves on the axis [n]: a core and a
    factor that contract to the block core of the decompressed cores. *)
Definition axis_sum (n : nat) (X : tensor) (u : option tensor) : Prop :=
  tshape X = [ra n + rb n; add_mids a b sp tra trb n; ra (S n) + rb (S n)]
  /\ factor_ok (nth n sp 0) (add_mids a b sp tra trb n) u
  /\ (match u with Some _ => true | None => false end
      = has_factor a n && has_factor b n)
  /\ forall p x j,
       p < ra n + rb n -> x < nth n sp 0 -> j < ra (S n) + rb (S n) ->
       rsum (add_mids a b sp tra trb n)
         (fun al => get X [p; al; j] *! factor_entry u x al)
       = get (add_core pa pb sp ra rb n) [p; x; j].

Lemma add_axis_tucker (n : nat) :
  n < length sp ->
  exists X u, add_axis a a b n = Ok (X, u) /\ axis_sum n X u.
Proof.
  intros Hn.
  pose proof (tucker_dim Ha) as Da. pose proof (tucker_dim Hb) as Db.
  pose proof Ha as (_ & LUa & FUa & _ & Tra & _).
  pose proof Hb as (_ & LUb & FUb & _ & Trb & _).
  pose proof (tucker_core_shape Ha Hn) as Sa.
  pose proof (tucker_core_shape Hb Hn) as Sb.
  pose proof (@decompress_cores_nth _ _ _ n Hda ltac:(lia)) as Ea.
  pose proof (@decompress_cores_nth _ _ _ n Hdb ltac:(lia)) as Eb.
  pose proof (@net_core_shape _ sp ra Hpa n Hn) as SDa.
  pose proof (@net_core_shape _ sp rb Hpb n Hn) as SDb.
  cbn [cores] in SDa, SDb.
  pose proof (FUa n Hn) as Fa. pose proof (FUb n Hn) as Fb.
  unfold add_axis.
  rewrite (@get_item_nth _ (cores a) n tnil) by lia.
  rewrite (@get_item_nth _ (cores b) n tnil) by lia.
  cbn [bind]. unfold lift_pair, tdim, _cp_to_tt. rewrite Sa, Sb.
  cbn [length Nat.eqb andb bind].
  rewrite (@get_item_nth _ (Us a) n None) by lia.
  rewrite (@get_item_nth _ (Us b) n None) by lia.
  cbn [bind].
  unfold axis_sum, add_mids, has_factor.
  replace (n <? length sp) with true by (symmetry; apply Nat.ltb_lt; lia).
  assert (HP : (s <- shape a ;;
                sn <- get_item s n ;;
                column1 <- cat (nth n da tnil)
                             (zeros [sh (nth n db tnil) 0; sn;
                                     sh (nth n da tnil) 2]) 0 ;;
                column2 <- cat (zeros [sh (nth n da tnil) 0; sn;
                                       sh (nth n db tnil) 2])
                             (nth n db tnil) 0 ;;
                c <- cat column1 column2 2 ;;
                Ok (c, @None tensor))
               = Ok (add_core pa pb sp ra rb n, None)).
  { rewrite (tucker_shape Ha). cbn [bind].
    rewrite (@get_item_nth _ sp n 0) by exact Hn. cbn [bind].
    unfold sh. rewrite SDa, SDb. cbn [nth].
    apply (@cat_block _ (fun c => Ok (c, None)) _ _ _ _ _ _ _ SDa SDb). }
  assert (HS : forall p x j,
             p < ra n + rb n -> x < nth n sp 0 -> j < ra (S n) + rb (S n) ->
             rsum (nth n sp 0)
               (fun al => get (add_core pa pb sp ra rb n) [p; al; j]
                          *! factor_entry None x al)
             = get (add_core pa pb sp ra rb n) [p; x; j]).
  { intros p x j Hp Hx Hj. cbn [factor_entry].
    rewrite (@rsum_ext (nth n sp 0) _
               (fun al => delta x al
                          *! get (add_core pa pb sp ra rb n) [p; al; j]))
      by (intros; ring).
    rewrite rsum_delta_l by exact Hx. reflexivity. }
  destruct (nth n (Us a) None) as [u1|] eqn:Ua;
    destruct (nth n (Us b) None) as [u2|] eqn:Ub;
    cbn [factor_ok decompress_core] in Fa, Fb, Ea, Eb;
    unfold tdim in Ea, Eb; try rewrite Sa in Ea; try rewrite Sb in Eb;
    cbn [length Nat.eqb] in Ea, Eb; cbn [andb apply_factor].
  - unfold sh. rewrite Sa, Sb. cbn [nth].
    rewrite (@cat3_block _ (fun c => u0 <- cat u1 u2 1 ;; Ok (c, Some u0))
               _ _ _ _ _ _ _ _ Sa Sb).
    rewrite cat_eq; [|unfold tdim; rewrite Fa; simpl; lia
                     |rewrite Fa, Fb; reflexivity].
    cbn [bind]. unfold sh. rewrite Fa, Fb. cbn [nth upd].
    eexists. eexists. split; [reflexivity|].
    split; [reflexivity|]. split; [reflexivity|]. split; [reflexivity|].
    intros p x j Hp Hx Hj. cbn [factor_entry].
    unfold einsum_ijk_aj_iak in Ea, Eb. rewrite ?Sa, Fa in Ea.
    rewrite ?Sb, Fb in Eb. rewrite Nat.eqb_refl in Ea, Eb.
    injection Ea as Ea. injection Eb as Eb.
    unfold add_core. rewrite get_build3 by assumption.
    unfold pa, pb. cbn [cores]. rewrite <- Ea, <- Eb.
    rewrite rsum_split.
    rewrite (@rsum_ext (tra n) _
               (fun al => if (p <? ra n) && (j <? ra (S n))
                          then get (nth n (cores a) tnil) [p; al; j]
                               *! get u1 [x; al]
                          else rO)).
    2:{ intros al Hal. rewrite get_build3 by lia.
        rewrite get_build by (cbn [in_range]; repeat (apply andb_true_iff; split); try apply Nat.ltb_lt; try lia; reflexivity).
        unfold block3_entry. cbn [nth].
        replace (al <? tra n) with true by (symmetry; apply Nat.ltb_lt; lia).
        destruct ((p <? ra n) && (j <? ra (S n))); [reflexivity|ring]. }
    rewrite (@rsum_ext (trb n) _
               (fun al => if (p <? ra n) || (j <? ra (S n))
                          then rO
                          else get (nth n (cores b) tnil)
                                 [p - ra n; al; j - ra (S n)]
                               *! get u2 [x; al])).
    2:{ intros al Hal. rewrite get_build3 by lia.
        rewrite get_build by (cbn [in_range]; repeat (apply andb_true_iff; split); try apply Nat.ltb_lt; try lia; reflexivity).
        unfold block3_entry. cbn [nth upd].
        replace (tra n + al <? tra n) with false
          by (symmetry; apply Nat.ltb_ge; lia).
        replace (tra n + al - tra n) with al by lia.
        destruct ((p <? ra n) || (j <? ra (S n))); [ring|reflexivity]. }
    unfold block_entry.
    destruct (Nat.ltb_spec p (ra n)) as [P|P];
      destruct (Nat.ltb_spec j (ra (S n))) as [J|J]; cbn [andb orb];
      rewrite ?rsum_zero.
    + rewrite get_build3 by lia. ring.
    + ring.
    + ring.
    + rewrite get_build3 by lia. ring.
  - rewrite Ea. cbn [bind]. injection Eb as Eb. rewrite Eb.
    exists (add_core pa pb sp ra rb n), None. split; [exact HP|].
    split; [reflexivity|]. split; [reflexivity|]. split; [reflexivity|].
    exact HS.
  - rewrite Eb. injection Ea as Ea. rewrite Ea. cbn [bind].
    exists (add_core pa pb sp ra rb n), None. split; [exact HP|].
    split; [reflexivity|]. split; [reflexivity|]. split; [reflexivity|].
    exact HS.
  - injection Ea as Ea. injection Eb as Eb. rewrite Ea, Eb. cbn [bind].
    exists (add_core pa pb sp ra rb n), None. split; [exact HP|].
    split; [reflexivity|]. split; [reflexivity|]. split; [reflexivity|].
    exact HS.
Qed.

Lemma both_cp_tucker (n : nat) : n < length sp -> both_cp a b n = Ok false.
Proof.
  intros Hn. unfold both_cp.
  rewrite (@get_item_nth _ (cores a) n tnil) by (rewrite (tucker_dim Ha); lia).
  rewrite (@get_item_nth _ (cores b) n tnil) by (rewrite (tucker_dim Hb); lia).
  cbn [bind]. unfold tdim. rewrite (tucker_core_shape Ha Hn). reflexivity.
Qed.

(** The cores and factors that [__add__] hands to the constructor: what
    the main loop left, the first core with its rows added up and the last
    with its columns. *)
Lemma add_tucker_cores :
  2 <= length sp ->
  exists cs us Xs,
    add_tensors a b = Tensor_of_cores cs (Some us)
    /\ length cs = length sp /\ length us = length sp
    /\ (forall n, n < length sp ->
          axis_sum n (nth n Xs tnil) (nth n us None))
    /\ sum_keep (nth 0 Xs tnil) 0 = Ok (nth 0 cs tnil)
    /\ sum_keep (nth (length sp - 1) Xs tnil) 2
       = Ok (nth (length sp - 1) cs tnil)
    /\ forall k, 0 < k < length sp - 1 -> nth k cs tnil = nth k Xs tnil.
Proof.
  intros HN.
  pose proof (tucker_dim Ha) as Hca. pose proof (tucker_dim Hb) as Hcb.
  unfold add_tensors. unfold dim at 1.
  replace (length (cores a) =? 1) with false
    by (symmetry; apply Nat.eqb_neq; lia).
  rewrite (broadcast_same _ _ (tucker_shape Ha) (tucker_shape Hb)).
  cbn [bind]. unfold dim. rewrite Hca.
  destruct (@mapM_seq_total _ (add_axis a a b)
              (fun k cu => axis_sum k (fst cu) (snd cu))
              0 (length sp) (tnil, None)) as (cus & Ecus & Hlc & Hcus).
  { intros k Hk. destruct (@add_axis_tucker k ltac:(lia)) as (X & u & E & H).
    exists (X, u). split; [exact E | exact H]. }
  rewrite Ecus. cbn [bind].
  assert (Hax : forall n, n < length sp ->
                  axis_sum n (nth n (map fst cus) tnil)
                    (nth n (map snd cus) None)).
  { intros n Hn. change tnil with (fst (tnil, @None tensor)).
    change (@None tensor) with (snd (tnil, @None tensor)) at 2.
    rewrite !map_nth. apply (Hcus n Hn). }
  assert (HD : forall n, n < length sp -> tdim (nth n (map fst cus) tnil) = 3).
  { intros n Hn. destruct (Hax n Hn) as (S & _). unfold tdim. rewrite S.
    reflexivity. }
  rewrite both_cp_tucker by lia. cbn [bind negb].
  rewrite (@get_item_nth _ (map fst cus) 0 tnil) by (rewrite length_map; lia).
  cbn [bind].
  rewrite (@sum_keep_eq (nth 0 (map fst cus) tnil) 0) by (rewrite HD; lia).
  cbn [bind].
  set (c0 := build (upd (tshape (nth 0 (map fst cus) tnil)) 0 1) _).
  destruct (@set_item_total _ (map fst cus) 0 c0) as (cs1 & E1);
    [rewrite length_map; lia|].
  rewrite E1. cbn [bind].
  pose proof (set_item_length _ _ _ E1) as L1. rewrite length_map in L1.
  rewrite (@get_last_nth _ (cores a) tnil)
    by (intros E; rewrite E in Hca; simpl in Hca; lia).
  rewrite (@get_last_nth _ (cores b) tnil)
    by (intros E; rewrite E in Hcb; simpl in Hcb; lia).
  cbn [bind]. unfold tdim at 1.
  rewrite Hca, (@tucker_core_shape a sp ra tra Ha (length sp - 1)) by lia.
  cbn [length Nat.eqb andb negb].
  rewrite (@get_last_nth _ cs1 tnil)
    by (intros E; rewrite E in L1; simpl in L1; lia).
  cbn [bind]. rewrite L1, Hlc.
  rewrite (@set_item_nth _ _ _ _ (length sp - 1) _ tnil E1).
  replace (length sp - 1 =? 0) with false
    by (symmetry; apply Nat.eqb_neq; lia).
  rewrite (@sum_keep_eq (nth (length sp - 1) (map fst cus) tnil) 2)
    by (rewrite HD; lia).
  cbn [bind].
  set (cl := build (upd (tshape (nth (length sp - 1) (map fst cus) tnil)) 2 1) _).
  assert (E2 : exists cs2, set_last cs1 cl = Ok cs2
                           /\ set_item cs1 (length sp - 1) cl = Ok cs2).
  { destruct (@set_item_total _ cs1 (length sp - 1) cl) as (cs2 & E2); [lia|].
    exists cs2. split; [|exact E2]. unfold set_last.
    destruct cs1 as [|x cs1]; [simpl in L1; lia|].
    rewrite L1, Hlc. exact E2. }
  destruct E2 as (cs2 & E2 & E2'). rewrite E2. cbn [bind].
  destruct (@foldM_seq_total _ (add_fix_cp a b) (fun _ l => l = cs2)
              0 (length sp) cs2 eq_refl) as (cs3 & E3 & H3).
  { intros k l Hk ->. exists cs2. split; [|reflexivity].
    unfold add_fix_cp. rewrite both_cp_tucker by lia. reflexivity. }
  subst cs3. rewrite E3. cbn [bind].
  exists cs2, (map snd cus), (map fst cus). split; [reflexivity|].
  pose proof (set_item_length _ _ _ E2') as L2.
  split; [lia|]. split; [rewrite length_map; lia|].
  split; [exact Hax|]. split; [|split].
  - rewrite (@set_item_nth _ _ _ _ 0 _ tnil E2').
    replace (0 =? length sp - 1) with false
      by (symmetry; apply Nat.eqb_neq; lia).
    rewrite (@set_item_nth _ _ _ _ 0 _ tnil E1).
    cbn [Nat.eqb]. rewrite sum_keep_eq by (rewrite HD; lia). reflexivity.
  - rewrite (@set_item_nth _ _ _ _ (length sp - 1) _ tnil E2').
    rewrite Nat.eqb_refl. rewrite sum_keep_eq by (rewrite HD; lia).
    reflexivity.
  - intros k Hk. rewrite (@set_item_nth _ _ _ _ k _ tnil E2').
    replace (k =? length sp - 1) with false
      by (symmetry; apply Nat.eqb_neq; lia).
    rewrite (@set_item_nth _ _ _ _ k _ tnil E1).
    replace (k =? 0) with false by (symmetry; apply Nat.eqb_neq; lia).
    reflexivity.
Qed.

Lemma add_mids_positive (k : nat) : add_mids a b sp tra trb k <> 0.
Proof.
  pose proof Ha as (_ & _ & FUa & _ & Tra & _).
  pose proof Hb as (_ & _ & FUb & _ & Trb & _).
  unfold add_mids. destruct (Nat.ltb_spec k (length sp)) as [Hk|Hk]; [|lia].
  pose proof (FUa k Hk) as Fa. pose proof (FUb k Hk) as Fb.
  pose proof (Tra k). pose proof (Trb k). unfold has_factor.
  destruct (nth k (Us a) None); destruct (nth k (Us b) None);
    cbn [andb factor_ok] in *; lia.
Qed.

Section SumTucker.

Variables cs Xs : list tensor.
Variable us : list (option tensor).
Hypothesis HN : 2 <= length sp.
Hypothesis Lcs : length cs = length sp.
Hypothesis Lus : length us = length sp.
Hypothesis Hax :
  forall n, n < length sp -> axis_sum n (nth n Xs tnil) (nth n us None).
Hypothesis Hfirst : sum_keep (nth 0 Xs tnil) 0 = Ok (nth 0 cs tnil).
Hypothesis Hlast :
  sum_keep (nth (length sp - 1) Xs tnil) 2
  = Ok (nth (length sp - 1) cs tnil).
Hypothesis Hmid :
  forall k, 0 < k < length sp - 1 -> nth k cs tnil = nth k Xs tnil.

Lemma add_tucker_network :
  tucker_network (mkTensor cs us) sp (add_ranks (length sp) ra rb)
    (add_mids a b sp tra trb).
Proof.
  pose proof Ha as (_ & _ & _ & Hra & _ & Ha0 & HaN).
  pose proof Hb as (_ & _ & _ & Hrb & _ & Hb0 & HbN).
  unfold tucker_network. cbn [cores Us].
  split; [|split; [exact Lus|split; [|split; [|split; [|split]]]]].
  - apply (nth_ext _ _ (tshape tnil) []).
    + rewrite !length_map, length_seq. exact Lcs.
    + intros k Hk. rewrite length_map in Hk.
      rewrite (map_nth tshape cs tnil k), nth_map_seq by lia.
      destruct (Hax (n:=k) ltac:(lia)) as (SX & _).
      unfold add_ranks.
      destruct (Nat.eq_dec k 0) as [->|K0].
      * pose proof Hfirst as E.
        rewrite sum_keep_eq in E by (unfold tdim; rewrite SX; simpl; lia).
        injection E as E. rewrite <- E. cbn [tshape build].
        rewrite SX. cbn [upd].
        replace (1 =? length sp) with false
          by (symmetry; apply Nat.eqb_neq; lia).
        reflexivity.
      * replace (k =? 0) with false by (symmetry; apply Nat.eqb_neq; lia).
        replace (k =? length sp) with false
          by (symmetry; apply Nat.eqb_neq; lia).
        cbn [orb].
        destruct (Nat.eq_dec k (length sp - 1)) as [->|KN].
        -- pose proof Hlast as E.
           rewrite sum_keep_eq in E
             by (unfold tdim; rewrite SX; simpl; lia).
           injection E as E. rewrite <- E. cbn [tshape build].
           rewrite SX. cbn [upd].
           replace (S (length sp - 1)) with (length sp) by lia.
           rewrite Nat.eqb_refl, orb_true_r. reflexivity.
        -- rewrite Hmid by lia. rewrite SX.
           replace (S k =? length sp) with false
             by (symmetry; apply Nat.eqb_neq; lia).
           reflexivity.
  - intros k Hk. apply (Hax Hk).
  - intros k. unfold add_ranks.
    destruct ((k =? 0) || (k =? length sp)); [lia|].
    pose proof (Hra k). lia.
  - exact add_mids_positive.
  - reflexivity.
  - unfold add_ranks. rewrite Nat.eqb_refl, orb_true_r. reflexivity.
Qed.

Variable cs' : list tensor.
Hypothesis Hfirst' :
  sum_keep (add_core pa pb sp ra rb 0) 0 = Ok (nth 0 cs' tnil).
Hypothesis Hlast' :
  sum_keep (add_core pa pb sp ra rb (length sp - 1)) 2
  = Ok (nth (length sp - 1) cs' tnil).
Hypothesis Hmid' :
  forall k, 0 < k < length sp - 1 ->
    nth k cs' tnil = add_core pa pb sp ra rb k.

(** Each core of the sum, contracted with its factor, is the core of the
    sum of the decompressed networks. *)
Lemma add_tucker_entry (k i x j : nat) :
  k < length sp -> i < add_ranks (length sp) ra rb k -> x < nth k sp 0 ->
  j < add_ranks (length sp) ra rb (S k) ->
  rsum (add_mids a b sp tra trb k)
    (fun al => get (nth k cs tnil) [i; al; j]
               *! factor_entry (nth k us None) x al)
  = get (nth k cs' tnil) [i; x; j].
Proof.
  intros Hk Hi Hx Hj.
  destruct (Hax Hk) as (SX & _ & _ & GX).
  set (tq := add_mids a b sp tra trb k) in *.
  unfold add_ranks in Hi, Hj.
  destruct (Nat.eq_dec k 0) as [K0|K0].
  - subst k. cbn [Nat.eqb orb] in Hi.
    replace (1 =? length sp) with false in Hj
      by (symmetry; apply Nat.eqb_neq; lia).
    cbn [Nat.eqb orb] in Hj.
    assert (i = 0) by lia. subst i.
    pose proof Hfirst as E.
    rewrite sum_keep_eq in E by (unfold tdim; rewrite SX; simpl; lia).
    injection E as E. rewrite <- E. clear E.
    pose proof Hfirst' as E.
    rewrite sum_keep_eq in E by (unfold tdim; simpl; lia).
    injection E as E. rewrite <- E. clear E.
    unfold sh. rewrite SX. cbn [tshape add_core build3 build nth upd].
    fold (build3 (ra 0 + rb 0) (nth 0 sp 0) (ra 1 + rb 1)
            (block_entry (nth 0 (cores pa) tnil) (nth 0 (cores pb) tnil)
               (ra 0) (ra 1))).
    fold (add_core pa pb sp ra rb 0).
    rewrite get_build by (apply in_range3; lia). cbn [upd].
    rewrite (@rsum_ext tq _
               (fun al => rsum (ra 0 + rb 0)
                            (fun m => get (nth 0 Xs tnil) [m; al; j]
                                      *! factor_entry (nth 0 us None) x al))).
    + rewrite rsum_swap. apply rsum_ext. intros m Hm.
      apply GX; assumption.
    + intros al Hal. rewrite get_build by (apply in_range3; lia).
      cbn [upd]. rewrite rsum_scal_r. reflexivity.
  - replace (k =? 0) with false in Hi by (symmetry; apply Nat.eqb_neq; lia).
    replace (k =? length sp) with false in Hi
      by (symmetry; apply Nat.eqb_neq; lia).
    cbn [orb] in Hi.
    destruct (Nat.eq_dec k (length sp - 1)) as [KN|KN].
    + subst k. replace (S (length sp - 1)) with (length sp) in * by lia.
      rewrite Nat.eqb_refl, orb_true_r in Hj.
      assert (j = 0) by lia. subst j.
      pose proof Hlast as E.
      rewrite sum_keep_eq in E by (unfold tdim; rewrite SX; simpl; lia).
      injection E as E. rewrite <- E. clear E.
      pose proof Hlast' as E.
      rewrite sum_keep_eq in E by (unfold tdim; simpl; lia).
      injection E as E. rewrite <- E. clear E.
      unfold sh. rewrite SX. cbn [tshape add_core build3 build nth upd].
      replace (S (length sp - 1)) with (length sp) in * by lia.
      fold (build3 (ra (length sp - 1) + rb (length sp - 1))
              (nth (length sp - 1) sp 0) (ra (length sp) + rb (length sp))
              (block_entry (nth (length sp - 1) (cores pa) tnil)
                 (nth (length sp - 1) (cores pb) tnil)
                 (ra (length sp - 1)) (ra (length sp)))).
      rewrite get_build by (apply in_range3; lia). cbn [upd].
      rewrite (@rsum_ext tq _
                 (fun al => rsum (ra (length sp) + rb (length sp))
                              (fun m => get (nth (length sp - 1) Xs tnil)
                                          [i; al; m]
                                        *! factor_entry
                                             (nth (length sp - 1) us None)
                                             x al))).
      * rewrite rsum_swap. apply rsum_ext. intros m Hm.
        rewrite GX by assumption. unfold add_core.
        replace (S (length sp - 1)) with (length sp) by lia. reflexivity.
      * intros al Hal. rewrite get_build by (apply in_range3; lia).
        cbn [upd]. rewrite rsum_scal_r. reflexivity.
    + replace (S k =? length sp) with false in Hj
        by (symmetry; apply Nat.eqb_neq; lia).
      cbn [Nat.eqb orb] in Hj.
      rewrite Hmid, Hmid' by lia. apply GX; assumption.
Qed.

End SumTucker.

Lemma add_tucker_plain_sum :
  2 <= length sp ->
  exists t,
    __add__ a (OTensor b) = Ok t
    /\ tucker_network t sp (add_ranks (length sp) ra rb)
         (add_mids a b sp tra trb)
    /\ (forall k, k < length sp ->
          has_factor t k = has_factor a k && has_factor b k)
    /\ torch t
       = Ok (build sp (fun idx => tt_vec da idx v1 0 +! tt_vec db idx v1 0)).
Proof.
  intros HN.
  assert (Hne : sp <> []) by (intros E; rewrite E in HN; simpl in HN; lia).
  destruct (add_tucker_cores HN)
    as (cs & us & Xs & E & Lcs & Lus & Hax & F & L & M).
  pose proof (@add_tucker_network cs Xs us HN Lcs Lus Hax F L M) as Hnet.
  destruct (add_tt_cores Hpa Hpb HN) as (cs' & _ & L' & F' & La' & M').
  pose proof (@add_cores_network _ _ _ _ _ Hpa Hpb cs' HN L' F' La' M')
    as Hnet'.
  exists (mkTensor cs us).
  split; [|split; [exact Hnet|split]].
  - cbn [__add__]. rewrite E. apply (tucker_constructor Hnet Hne).
  - intros k Hk. destruct (Hax k Hk) as (_ & _ & H & _).
    unfold has_factor at 1. cbn [Us]. exact H.
  - destruct (tucker_plain Hnet) as (dt & Hdt & Hpt & Hgt).
    cbn [cores Us] in Hdt, Hgt.
    rewrite (@torch_plain (mkTensor cs us) dt sp _ Hdt Hpt Hne).
    unfold build. do 2 f_equal. apply tab_ext. intros idx Hidx.
    pose proof (@add_entries _ _ _ _ _ Hpa Hpb cs' HN L' F' La' M' idx Hidx)
      as Hsum.
    cbn [cores] in Hsum. rewrite <- Hsum.
    pose proof (@net_chain _ _ _ Hnet' 0 (Nat.le_0_l _)) as Hch.
    cbn [skipn cores] in Hch.
    apply (@tt_vec_cores_ext cs' dt _ _ idx v1 0 Hch).
    + destruct Hpt as (S1 & _). destruct Hnet' as (S2 & _).
      cbn [cores] in S1, S2. rewrite S1, S2. reflexivity.
    + intros k i x q Hk Hi Hx Hq. rewrite L' in Hk.
      pose proof (@net_core_shape _ _ _ Hnet' k Hk) as Sk.
      cbn [cores] in Sk. unfold sh in Hi, Hx, Hq. rewrite Sk in Hi, Hx, Hq.
      cbn [nth] in Hi, Hx, Hq.
      rewrite (Hgt k i x q Hk Hi Hx Hq).
      apply (@add_tucker_entry cs Xs us); assumption.
    + pose proof (net_mids Hnet') as Hm. cbn [cores] in Hm. rewrite Hm.
      exact Hidx.
    + lia.
Qed.

End AddTucker.

Lemma add_tucker_sum (a b : Tensor) (sp : list nat)
  (ra rb tra trb : nat -> nat) :
  tucker_network a sp ra tra -> tucker_network b sp rb trb ->
  2 <= length sp ->
  exists t A B,
    torch a = Ok A /\ torch b = Ok B
    /\ __add__ a (OTensor b) = Ok t
    /\ tucker_network t sp (add_ranks (length sp) ra rb)
         (add_mids a b sp tra trb)
    /\ (forall k, k < length sp ->
          has_factor t k = has_factor a k && has_factor b k)
    /\ torch t = Ok (build sp (fun idx => get A idx +! get B idx)).
Proof.
  intros Ha Hb HN.
  assert (Hne : sp <> []) by (intros E; rewrite E in HN; simpl in HN; lia).
  destruct (tucker_plain Ha) as (da & Hda & Hpa & _).
  destruct (tucker_plain Hb) as (db & Hdb & Hpb & _).
  destruct (add_tucker_plain_sum Ha Hb Hda Hdb Hpa Hpb HN)
    as (t & E & Hnet & Hf & Ht).
  exists t, (build sp (fun idx => tt_vec da idx v1 0)),
    (build sp (fun idx => tt_vec db idx v1 0)).
  split; [apply (@torch_plain a da sp ra Hda Hpa Hne)|].
  split; [apply (@torch_plain b db sp rb Hdb Hpb Hne)|].
  split; [exact E|]. split; [exact Hnet|]. split; [exact Hf|].
  rewrite Ht. unfold build. do 2 f_equal. apply tab_ext. intros idx Hidx.
  fold (build sp (fun idx => tt_vec da idx v1 0)).
  fold (build sp (fun idx => tt_vec db idx v1 0)).
  rewrite !get_build by exact Hidx. reflexivity.
Qed.

(** X25: the sum of two networks of TT cores with Tucker factors, of one
    shape on two axes or more, succeeds. It is such a network of the same
    shape whose inner TT ranks are the sums of the operands' ranks; an axis
    keeps a Tucker factor exactly when both operands have one there, and
    then its Tucker rank is the sum of the two Tucker ranks, every other
    axis has its full size in the core. [torch()] decompresses the sum to
    the entrywise sum of the two decompressed arrays. *)
Theorem add_tucker_spec (a b : Tensor) (sp : list nat)
  (ra rb tra trb : nat -> nat) :
  tucker_network a sp ra tra -> tucker_network b sp rb trb ->
  2 <= length sp ->
  exists t A B,
    torch a = Ok A /\ torch b = Ok B
    /\ __add__ a (OTensor b) = Ok t
    /\ tucker_network t sp (add_ranks (length sp) ra rb)
         (add_mids a b sp tra trb)
    /\ (forall k, k < length sp ->
          has_factor t k = has_factor a k && has_factor b k)
    /\ torch t = Ok (build sp (fun idx => get A idx +! get B idx)).
Proof. intros Ha Hb HN. exact (add_tucker_sum Ha Hb HN). Qed.

(** ** The product of two networks with Tucker factors *)

(** The product of two TT cores and of their Tucker factors, as the loop
    of [__mul__] builds them when it stays in the factors. *)
Lemma mul_in_factors (x y u1 u2 : tensor) (r1 m1 q1 r2 m2 q2 n : nat) :
  tshape x = [r1; m1; q1] -> tshape y = [r2; m2; q2] ->
  tshape u1 = [n; m1] -> tshape u2 = [n; m2] -> n <> 0 ->
  exists c u,
    (p <- einsum_ijk_abc_iajbkc x y ;;
     c <- reshape p (exact [r1 * r2; m1 * m2; q1 * q2]) ;;
     pu <- einsum_ij_ik_ijk u1 u2 ;;
     u <- reshape pu [Some n; None] ;;
     Ok (c, Some u)) = Ok (c, Some u)
    /\ tshape c = [r1 * r2; m1 * m2; q1 * q2]
    /\ tshape u = [n; m1 * m2]
    /\ (forall pa pb a1 a2 ja jb,
          pa < r1 -> pb < r2 -> a1 < m1 -> a2 < m2 -> ja < q1 -> jb < q2 ->
          get c [pa * r2 + pb; a1 * m2 + a2; ja * q2 + jb]
          = get x [pa; a1; ja] *! get y [pb; a2; jb])
    /\ (forall i a1 a2,
          i < n -> a1 < m1 -> a2 < m2 ->
          get u [i; a1 * m2 + a2] = get u1 [i; a1] *! get u2 [i; a2]).
Proof.
  intros Hx Hy H1 H2 Hn.
  unfold einsum_ijk_abc_iajbkc, einsum_ij_ik_ijk.
  rewrite Hx, Hy, H1, H2, Nat.eqb_refl. cbn [bind].
  rewrite reshape_exact by (cbn [tshape build]; simpl; ring).
  cbn [bind].
  rewrite (@reshape_trail _ n (m1 * m2))
    by (try exact Hn; cbn [tshape build3 build]; simpl; ring).
  cbn [bind]. eexists. eexists. split; [reflexivity|].
  split; [reflexivity|]. split; [reflexivity|]. split.
  - intros pa pb a1 a2 ja jb Hpa Hpb Ha1 Ha2 Hja Hjb.
    unfold get at 1. cbn [tshape tdata build].
    replace (ravel [r1 * r2; m1 * m2; q1 * q2]
               [pa * r2 + pb; a1 * m2 + a2; ja * q2 + jb])
      with (ravel [r1; r2; m1; m2; q1; q2] [pa; pb; a1; a2; ja; jb])
      by (simpl; ring).
    rewrite nth_tab; [reflexivity|].
    simpl. apply Nat.ltb_lt in Hpa, Hpb, Ha1, Ha2, Hja, Hjb.
    rewrite Hpa, Hpb, Ha1, Ha2, Hja, Hjb. reflexivity.
  - intros i a1 a2 Hi Ha1 Ha2. cbn [tdata build3 build].
    rewrite <- get_as3_trail.
    change (mkT [n; m1; m2] (tab [n; m1; m2] ?g)) with (build [n; m1; m2] g).
    rewrite get_build by (apply in_range3; assumption). reflexivity.
Qed.

Section MulTucker.

Variables a b : Tensor.
Variable sp : list nat.
Variables ra rb tra trb : nat -> nat.
Hypothesis Ha : tucker_network a sp ra tra.
Hypothesis Hb : tucker_network b sp rb trb.
Hypothesis Hpos : positive sp.

Variables da db : list tensor.
Hypothesis Hda : decompress_cores (cores a) (Us a) = Ok da.
Hypothesis Hdb : decompress_cores (cores b) (Us b) = Ok db.
Hypothesis Hpa : tt_network (mkTensor da (repeat None (length sp))) sp ra.
Hypothesis Hpb : tt_network (mkTensor db (repeat None (length sp))) sp rb.
Hypothesis Hga :
  forall k i x j,
    k < length sp -> i < ra k -> x < nth k sp 0 -> j < ra (S k) ->
    get (nth k da tnil) [i; x; j]
    = rsum (tra k)
        (fun al => get (nth k (cores a) tnil) [i; al; j]
                   *! factor_entry (nth k (Us a) None) x al).
Hypothesis Hgb :
  forall k i x j,
    k < length sp -> i < rb k -> x < nth k sp 0 -> j < rb (S k) ->
    get (nth k db tnil) [i; x; j]
    = rsum (trb k)
        (fun al => get (nth k (cores b) tnil) [i; al; j]
                   *! factor_entry (nth k (Us b) None) x al).

(** What the loop of [__mul__] leaves on the axis [n]: a core and a factor
    that contract to the Kronecker product of the decompressed cores. *)
Definition axis_prod (n : nat) (X : tensor) (u : option tensor) : Prop :=
  tshape X = [ra n * rb n; mul_mids a b sp tra trb n; ra (S n) * rb (S n)]
  /\ factor_ok (nth n sp 0) (mul_mids a b sp tra trb n) u
  /\ (match u with Some _ => true | None => false end
      = has_factor a n && has_factor b n && (tra n * trb n <? nth n sp 0))
  /\ forall pa pb x ja jb,
       pa < ra n -> pb < rb n -> x < nth n sp 0 ->
       ja < ra (S n) -> jb < rb (S n) ->
       rsum (mul_mids a b sp tra trb n)
         (fun al => get X [pa * rb n + pb; al; ja * rb (S n) + jb]
                    *! factor_entry u x al)
       = get (nth n da tnil) [pa; x; ja] *! get (nth n db tnil) [pb; x; jb].

Lemma mul_axis_tucker (n : nat) :
  n < length sp ->
  exists X u, mul_axis a b n = Ok (X, u) /\ axis_prod n X u.
Proof.
  intros Hn.
  pose proof (tucker_dim Ha) as Da. pose proof (tucker_dim Hb) as Db.
  pose proof Ha as (_ & LUa & FUa & Hra & Tra & _).
  pose proof Hb as (_ & LUb & FUb & Hrb & Trb & _).
  pose proof (tucker_core_shape Ha Hn) as Sa.
  pose proof (tucker_core_shape Hb Hn) as Sb.
  pose proof (@decompress_cores_nth _ _ _ n Hda ltac:(lia)) as Ea.
  pose proof (@decompress_cores_nth _ _ _ n Hdb ltac:(lia)) as Eb.
  pose proof (@net_core_shape _ sp ra Hpa n Hn) as SDa.
  pose proof (@net_core_shape _ sp rb Hpb n Hn) as SDb.
  cbn [cores] in SDa, SDb.
  pose proof (FUa n Hn) as Fa. pose proof (FUb n Hn) as Fb.
  pose proof (positive_nth_pos Hpos Hn) as Hs.
  unfold mul_axis.
  rewrite (@get_item_nth _ (cores a) n tnil) by lia.
  rewrite (@get_item_nth _ (cores b) n tnil) by lia.
  cbn [bind]. unfold lift_pair, tdim, _cp_to_tt. rewrite Sa, Sb.
  cbn [length Nat.eqb andb bind].
  rewrite (@get_item_nth _ (Us a) n None) by lia.
  rewrite (@get_item_nth _ (Us b) n None) by lia.
  cbn [bind].
  unfold axis_prod, mul_mids, has_factor.
  replace (n <? length sp) with true by (symmetry; apply Nat.ltb_lt; lia).
  destruct (@core_kron_tt _ _ _ _ _ _ _ SDa SDb) as (K & EK & SK & GK).
  { pose proof (Hra n). pose proof (Hra (S n)).
    pose proof (Hrb n). pose proof (Hrb (S n)). nia. }
  assert (HS : forall pa pb x ja jb,
             pa < ra n -> pb < rb n -> x < nth n sp 0 ->
             ja < ra (S n) -> jb < rb (S n) ->
             rsum (nth n sp 0)
               (fun al => get K [pa * rb n + pb; al; ja * rb (S n) + jb]
                          *! factor_entry None x al)
             = get (nth n da tnil) [pa; x; ja]
               *! get (nth n db tnil) [pb; x; jb]).
  { intros pa pb x ja jb Ipa Ipb Hx Hja Hjb. cbn [factor_entry].
    rewrite (@rsum_ext (nth n sp 0) _
               (fun al => delta x al
                          *! get K [pa * rb n + pb; al; ja * rb (S n) + jb]))
      by (intros; ring).
    rewrite rsum_delta_l by exact Hx. apply GK; assumption. }
  destruct (nth n (Us a) None) as [u1|] eqn:Ua;
    destruct (nth n (Us b) None) as [u2|] eqn:Ub;
    cbn [factor_ok decompress_core] in Fa, Fb, Ea, Eb;
    unfold tdim in Ea, Eb; try rewrite Sa in Ea; try rewrite Sb in Eb;
    cbn [length Nat.eqb] in Ea, Eb; cbn [andb bind].
  - rewrite (tucker_shape Ha). cbn [bind].
    rewrite (@get_item_nth _ sp n 0) by exact Hn. cbn [bind].
    unfold sh. rewrite Sa, Sb, Fa. cbn [nth].
    destruct (tra n * trb n <? nth n sp 0) eqn:Hlt.
    + destruct (@mul_in_factors _ _ _ _ _ _ _ _ _ _ _ Sa Sb Fa Fb Hs)
        as (c & u & E & Sc & Su & Gc & Gu).
      rewrite E. cbn [bind]. exists c, (Some u). split; [reflexivity|].
      split; [exact Sc|]. split; [exact Su|]. split; [reflexivity|].
      intros pa pb x ja jb Ipa Ipb Hx Hja Hjb. cbn [factor_entry].
      rewrite (Hga Hn Ipa Hx Hja), (Hgb Hn Ipb Hx Hjb), Ua, Ub.
      cbn [factor_entry]. rewrite rsum_mul, <- rsum_scal_r.
      apply rsum_ext. intros a1 Ha1. rewrite <- rsum_scal_l.
      apply rsum_ext. intros a2 Ha2.
      rewrite Gc, Gu by assumption. ring.
    + rewrite Ea, Eb. cbn [bind]. rewrite EK. cbn [bind].
      exists K, None. split; [reflexivity|]. split; [exact SK|].
      split; [reflexivity|]. split; [reflexivity|exact HS].
  - rewrite Ea. cbn [bind]. injection Eb as Eb. rewrite Eb, EK. cbn [bind].
    exists K, None. split; [reflexivity|]. split; [exact SK|].
    split; [reflexivity|]. split; [reflexivity|exact HS].
  - rewrite Eb. cbn [bind]. injection Ea as Ea. rewrite Ea, EK. cbn [bind].
    exists K, None. split; [reflexivity|]. split; [exact SK|].
    split; [reflexivity|]. split; [reflexivity|exact HS].
  - injection Ea as Ea. injection Eb as Eb. rewrite Ea, Eb, EK. cbn [bind].
    exists K, None. split; [reflexivity|]. split; [exact SK|].
    split; [reflexivity|]. split; [reflexivity|exact HS].
Qed.

Lemma mul_mids_positive (k : nat) : mul_mids a b sp tra trb k <> 0.
Proof.
  pose proof Ha as (_ & _ & _ & _ & Tra & _).
  pose proof Hb as (_ & _ & _ & _ & Trb & _).
  unfold mul_mids. destruct (Nat.ltb_spec k (length sp)) as [Hk|Hk]; [|lia].
  pose proof (positive_nth_pos Hpos Hk). pose proof (Tra k).
  pose proof (Trb k).
  destruct (has_factor a k && has_factor b k
            && (tra k * trb k <? nth k sp 0)); [nia|assumption].
Qed.

Lemma mul_tucker_plain_prod :
  sp <> [] ->
  exists t,
    __mul__ a (OTensor b) = Ok t
    /\ tucker_network t sp (fun k => ra k * rb k) (mul_mids a b sp tra trb)
    /\ (forall k, k < length sp ->
          has_factor t k
          = has_factor a k && has_factor b k
            && (tra k * trb k <? nth k sp 0))
    /\ torch t
       = Ok (build sp (fun idx => tt_vec da idx v1 0 *! tt_vec db idx v1 0)).
Proof.
  intros Hne.
  pose proof (tucker_dim Ha) as Hca.
  pose proof Ha as (_ & _ & _ & Hra & _ & Ha0 & HaN).
  pose proof Hb as (_ & _ & _ & Hrb & _ & Hb0 & HbN).
  destruct (@mapM_seq_total _ (mul_axis a b)
              (fun k cu => axis_prod k (fst cu) (snd cu))
              0 (length sp) (tnil, None)) as (cus & Ecus & Hlc & Hcus).
  { intros k Hk. destruct (@mul_axis_tucker k ltac:(lia)) as (X & u & E & H).
    exists (X, u). split; [exact E | exact H]. }
  assert (Hax : forall n, n < length sp ->
                  axis_prod n (nth n (map fst cus) tnil)
                    (nth n (map snd cus) None)).
  { intros n Hn. change tnil with (fst (tnil, @None tensor)).
    change (@None tensor) with (snd (tnil, @None tensor)) at 2.
    rewrite !map_nth. apply (Hcus n Hn). }
  assert (Hnet : tucker_network (mkTensor (map fst cus) (map snd cus)) sp
                   (fun k => ra k * rb k) (mul_mids a b sp tra trb)).
  { unfold tucker_network. cbn [cores Us].
    split; [|split; [rewrite length_map; exact Hlc
                    |split; [|split; [|split; [|split]]]]].
    - apply (nth_ext _ _ (tshape tnil) []).
      + rewrite !length_map, length_seq. exact Hlc.
      + intros k Hk. rewrite !length_map in Hk.
        rewrite (map_nth tshape (map fst cus) tnil k), nth_map_seq by lia.
        apply (Hax k). lia.
    - intros k Hk. apply (Hax k Hk).
    - intros k. pose proof (Hra k). pose proof (Hrb k). nia.
    - exact mul_mids_positive.
    - rewrite Ha0, Hb0. reflexivity.
    - rewrite HaN, HbN. reflexivity. }
  exists (mkTensor (map fst cus) (map snd cus)).
  split; [|split; [exact Hnet|split]].
  - cbn [__mul__]. unfold mul_tensors.
    rewrite (broadcast_same _ _ (tucker_shape Ha) (tucker_shape Hb)).
    cbn [bind]. unfold dim. rewrite Hca, Ecus. cbn [bind].
    apply (tucker_constructor Hnet Hne).
  - intros k Hk. destruct (Hax k Hk) as (_ & _ & H & _).
    unfold has_factor at 1. cbn [Us]. exact H.
  - destruct (tucker_plain Hnet) as (dt & Hdt & Hpt & Hgt).
    cbn [cores Us] in Hdt, Hgt.
    rewrite (@torch_plain (mkTensor (map fst cus) (map snd cus)) dt sp _
               Hdt Hpt Hne).
    unfold build. do 2 f_equal. apply tab_ext. intros idx Hidx.
    pose proof (net_dim Hpt) as Ldt. unfold dim in Ldt. cbn [cores] in Ldt.
    apply (@mul_entries _ _ _ _ _ Hpa Hpb dt Ldt).
    + intros k Hk. split.
      * apply (@net_core_shape _ _ _ Hpt k Hk).
      * intros pa pb i ja jb Ipa Ipb Hi Hja Hjb. cbn [cores].
        pose proof (Hrb k). pose proof (Hrb (S k)).
        rewrite (Hgt k _ i _ Hk) by (try assumption; nia).
        apply (Hax k Hk); assumption.
    + exact Hidx.
Qed.

End MulTucker.

Lemma mul_tucker_prod (a b : Tensor) (sp : list nat)
  (ra rb tra trb : nat -> nat) :
  tucker_network a sp ra tra -> tucker_network b sp rb trb ->
  positive sp -> sp <> [] ->
  exists t A B,
    torch a = Ok A /\ torch b = Ok B
    /\ __mul__ a (OTensor b) = Ok t
    /\ tucker_network t sp (fun k => ra k * rb k) (mul_mids a b sp tra trb)
    /\ (forall k, k < length sp ->
          has_factor t k
          = has_factor a k && has_factor b k
            && (tra k * trb k <? nth k sp 0))
    /\ torch t = Ok (build sp (fun idx => get A idx *! get B idx)).
Proof.
  intros Ha Hb Hpos Hne.
  destruct (tucker_plain Ha) as (da & Hda & Hpa & Hga).
  destruct (tucker_plain Hb) as (db & Hdb & Hpb & Hgb).
  destruct (mul_tucker_plain_prod Ha Hb Hpos Hda Hdb Hpa Hpb Hga Hgb Hne)
    as (t & E & Hnet & Hf & Ht).
  exists t, (build sp (fun idx => tt_vec da idx v1 0)),
    (build sp (fun idx => tt_vec db idx v1 0)).
  split; [apply (@torch_plain a da sp ra Hda Hpa Hne)|].
  split; [apply (@torch_plain b db sp rb Hdb Hpb Hne)|].
  split; [exact E|]. split; [exact Hnet|]. split; [exact Hf|].
  rewrite Ht. unfold build. do 2 f_equal. apply tab_ext. intros idx Hidx.
  fold (build sp (fun idx => tt_vec da idx v1 0)).
  fold (build sp (fun idx => tt_vec db idx v1 0)).
  rewrite !get_build by exact Hidx. reflexivity.
Qed.

(** X26: the product of two networks of TT cores with Tucker factors, of
    one shape whose sizes are positive, succeeds. It is such a network of
    the same shape whose TT ranks are the products of the operands' ranks;
    an axis keeps a Tucker factor exactly when both operands have one there
    and the product of the two Tucker ranks is below the size of the axis,
    and then its Tucker rank is that product, every other axis has its
    full size in the core. [torch()] decompresses the product to the
    entrywise product of the two decompressed arrays. *)
Theorem mul_tucker_spec (a b : Tensor) (sp : list nat)
  (ra rb tra trb : nat -> nat) :
  tucker_network a sp ra tra -> tucker_network b sp rb trb ->
  positive sp -> sp <> [] ->
  exists t A B,
    torch a = Ok A /\ torch b = Ok B
    /\ __mul__ a (OTensor b) = Ok t
    /\ tucker_network t sp (fun k => ra k * rb k) (mul_mids a b sp tra trb)
    /\ (forall k, k < length sp ->
          has_factor t k
          = has_factor a k && has_factor b k
            && (tra k * trb k <? nth k sp 0))
    /\ torch t = Ok (build sp (fun idx => get A idx *! get B idx)).
Proof. intros Ha Hb Hpos Hne. exact (mul_tucker_prod Ha Hb Hpos Hne). Qed.

(** ** Broadcasting two networks *)

Lemma broadcastable_sym (s1 : list nat) :
  forall s2, broadcastable s1 s2 = broadcastable s2 s1.
Proof.
  induction s1 as [|x s1 IH]; intros [|y s2]; try reflexivity.
  cbn [broadcastable]. rewrite IH, (Nat.eqb_sym x y).
  destruct (y =? x), (x =? 1), (y =? 1); reflexivity.
Qed.

Lemma zip_max_sym (s1 : list nat) :
  forall s2, zip_with Nat.max s1 s2 = zip_with Nat.max s2 s1.
Proof.
  induction s1 as [|x s1 IH]; intros [|y s2]; try reflexivity.
  cbn [zip_with]. rewrite IH, Nat.max_comm. reflexivity.
Qed.

Lemma broadcastable_length (s1 : list nat) :
  forall s2, broadcastable s1 s2 = true -> length s1 = length s2.
Proof.
  induction s1 as [|x s1 IH]; intros [|y s2] H; try discriminate H;
    [reflexivity|].
  cbn [broadcastable] in H. apply andb_true_iff in H. destruct H as (_ & H).
  cbn [length]. f_equal. apply IH, H.
Qed.

(** The repetition counts that [_broadcast] computes for shapes that
    broadcast: each axis is brought to the larger of the two sizes. *)
Lemma repeat_factors_max (s1 : list nat) :
  forall s2,
    positive s1 -> positive s2 -> broadcastable s1 s2 = true ->
    exists ra,
      repeat_factors s1 s2 = Ok ra
      /\ length ra = length s1
      /\ Forall (fun r => 1 <= r) ra
      /\ zip_with Nat.mul ra s1 = zip_with Nat.max s1 s2.
Proof.
  induction s1 as [|x s1 IH]; intros [|y s2] P1 P2 H; try discriminate H.
  - exists []. repeat split. constructor.
  - cbn [broadcastable] in H. apply andb_true_iff in H. destruct H as (Hxy & H).
    inversion P1 as [|? ? Hx P1']. inversion P2 as [|? ? Hy P2']. subst.
    destruct (IH s2 P1' P2' H) as (ra & E & L & F & Z).
    cbn [repeat_factors]. unfold repeat_factor.
    replace (x =? 0) with false by (symmetry; apply Nat.eqb_neq; lia).
    destruct (Nat.leb_spec y x) as [Hle|Hlt].
    + cbn [bind]. rewrite E. cbn [bind]. exists (1 :: ra).
      split; [reflexivity|]. split; [cbn [length]; lia|].
      split; [constructor; [lia|exact F]|].
      cbn [zip_with]. rewrite Z. f_equal. lia.
    + assert (x = 1).
      { apply orb_true_iff in Hxy. destruct Hxy as [Hxy|Hxy].
        - apply orb_true_iff in Hxy. destruct Hxy as [Hxy|Hxy];
            apply Nat.eqb_eq in Hxy; lia.
        - apply Nat.eqb_eq in Hxy. lia. }
      subst x. unfold round_half_even.
      rewrite Nat.div_1_r, Nat.mod_1_r. cbn [Nat.mul Nat.ltb Nat.leb bind].
      rewrite E. cbn [bind]. exists (y :: ra).
      split; [reflexivity|]. split; [cbn [length]; lia|].
      split; [constructor; [lia|exact F]|].
      cbn [zip_with]. rewrite Z. f_equal. lia.
Qed.

Lemma zip_with_length (f : nat -> nat -> nat) (l1 : list nat) :
  forall l2, length l1 = length l2 -> length (zip_with f l1 l2) = length l1.
Proof.
  induction l1 as [|x l1 IH]; intros [|y l2] H; try discriminate H;
    [reflexivity|].
  cbn [zip_with length]. f_equal. apply IH. cbn [length] in H. lia.
Qed.

Lemma zip_mod_small (sp : list nat) :
  forall idx, in_range sp idx = true -> zip_with Nat.modulo idx sp = idx.
Proof.
  induction sp as [|s sp IH]; intros idx H.
  - destruct idx; [reflexivity|discriminate H].
  - destruct idx as [|i idx]; [discriminate H|].
    cbn [in_range] in H. apply andb_true_iff in H. destruct H as (Hi & H).
    apply Nat.ltb_lt in Hi. cbn [zip_with].
    rewrite Nat.mod_small by exact Hi. rewrite IH by exact H. reflexivity.
Qed.

(** One operand of [_broadcast], repeated to the common shape. *)
Lemma broadcast_side (t : Tensor) (ds : list tensor) (s2 : list nat) :
  valid t ds -> positive (map mid ds) -> positive s2 ->
  broadcastable (map mid ds) s2 = true ->
  exists ra t' fs,
    repeat_factors (map mid ds) s2 = Ok ra
    /\ Tensor_repeat t ra = Ok t'
    /\ valid t' fs
    /\ map mid fs = zip_with Nat.max (map mid ds) s2
    /\ forall idx,
         in_range (map mid fs) idx = true ->
         entry fs idx = entry ds (zip_with Nat.modulo idx (map mid ds)).
Proof.
  intros Hv P1 P2 Hb.
  destruct (repeat_factors_max P1 P2 Hb) as (ra & E & L & F & Z).
  pose proof Hv as (_ & Hd & _).
  pose proof (decompress_cores_length _ _ Hd) as Hlen.
  rewrite length_map in L.
  destruct (@Tensor_repeat_spec t ds ra Hv) as (t' & fs & Hc & Hv' & Hm & _ & _ & He).
  - unfold dim. lia.
  - exact F.
  - unfold dim. lia.
  - exists ra, t', fs. split; [exact E|]. split; [exact Hc|].
    split; [exact Hv'|].
    assert (Hm' : map mid fs = zip_with Nat.max (map mid ds) s2).
    { rewrite Hm. unfold tile_shape. rewrite length_map.
      rewrite firstn_all2 by lia. rewrite skipn_all2 by lia.
      rewrite app_nil_r. exact Z. }
    split; [exact Hm'|].
    intros idx Hidx. rewrite (He idx Hidx). do 2 f_equal.
    apply firstn_all2. apply in_range_length in Hidx.
    rewrite length_map in Hidx. rewrite Hidx.
    rewrite <- (length_map mid fs), Hm', <- Z.
    rewrite zip_with_length by (rewrite length_map; exact L). lia.
Qed.

Lemma zip_mod_range (sp : list nat) :
  forall idx,
    positive sp -> length idx = length sp ->
    in_range sp (zip_with Nat.modulo idx sp) = true.
Proof.
  induction sp as [|s sp IH]; intros idx P L.
  - destruct idx; [reflexivity|discriminate L].
  - destruct idx as [|i idx]; [discriminate L|].
    inversion P as [|? ? Hs P']. subst.
    cbn [zip_with in_range]. apply andb_true_iff. split.
    + apply Nat.ltb_lt. apply Nat.mod_upper_bound. lia.
    + apply IH; [exact P'|]. cbn [length] in L. lia.
Qed.

Lemma zip_max_same (sp : list nat) : zip_with Nat.max sp sp = sp.
Proof.
  induction sp as [|s sp IH]; [reflexivity|].
  cbn [zip_with]. rewrite IH, Nat.max_id. reflexivity.
Qed.

Lemma broadcast_arrays (a b : Tensor) (A B : tensor) :
  torch a = Ok A -> torch b = Ok B ->
  positive (tshape A) -> positive (tshape B) ->
  broadcastable (tshape A) (tshape B) = true ->
  exists a' b' A' B',
    _broadcast a b = Ok (a', b')
    /\ torch a' = Ok A' /\ torch b' = Ok B'
    /\ tshape A' = zip_with Nat.max (tshape A) (tshape B)
    /\ tshape B' = zip_with Nat.max (tshape A) (tshape B)
    /\ forall idx,
         in_range (zip_with Nat.max (tshape A) (tshape B)) idx = true ->
         get A' idx = get A (zip_with Nat.modulo idx (tshape A))
         /\ get B' idx = get B (zip_with Nat.modulo idx (tshape B)).
Proof.
  intros Ha Hb Pa Pb Hc.
  destruct (@torch_inv a A Ha) as (da & Va & EA).
  destruct (@torch_inv b B Hb) as (db & Vb & EB).
  subst A B. cbn [tshape build] in *.
  pose proof Va as (_ & Da & _). pose proof Vb as (_ & Db & _).
  pose proof (shape_decompress _ _ Da) as Sa.
  pose proof (shape_decompress _ _ Db) as Sb.
  pose proof (decompress_cores_length _ _ Da) as La.
  pose proof (decompress_cores_length _ _ Db) as Lb.
  pose proof (broadcastable_length _ _ Hc) as Hl. rewrite !length_map in Hl.
  unfold _broadcast, shape. rewrite Sa, Sb. cbn [bind].
  destruct (shape_eqb (map mid da) (map mid db)) eqn:Heq.
  - apply shape_eqb_eq in Heq.
    exists a, b, (build (map mid da) (entry da)),
      (build (map mid db) (entry db)).
    split; [reflexivity|]. split; [exact Ha|]. split; [exact Hb|].
    cbn [tshape build]. rewrite <- Heq, zip_max_same.
    split; [reflexivity|]. split; [reflexivity|].
    intros idx Hidx. rewrite (zip_mod_small _ _ Hidx). split; reflexivity.
  - unfold dim. rewrite <- La, <- Lb, Hl, Nat.eqb_refl. cbn [negb].
    destruct (broadcast_side Va Pa Pb Hc)
      as (ra & a' & fa & Era & Eca & Va' & Ma & Ea).
    rewrite broadcastable_sym in Hc.
    destruct (broadcast_side Vb Pb Pa Hc)
      as (rb & b' & fb & Erb & Ecb & Vb' & Mb & Eb).
    rewrite zip_max_sym in Mb.
    rewrite Era. cbn [bind]. rewrite Eca. cbn [bind].
    rewrite Erb. cbn [bind]. rewrite Ecb. cbn [bind].
    exists a', b', (build (map mid fa) (entry fa)),
      (build (map mid fb) (entry fb)).
    split; [reflexivity|].
    split; [apply (@torch_spec a' fa Va')|].
    split; [apply (@torch_spec b' fb Vb')|].
    cbn [tshape build]. split; [exact Ma|]. split; [exact Mb|].
    intros idx Hidx.
    assert (Li : length idx = length da).
    { apply in_range_length in Hidx.
      rewrite zip_with_length in Hidx by (rewrite !length_map; exact Hl).
      rewrite length_map in Hidx. exact Hidx. }
    split.
    + rewrite get_build by (rewrite Ma; exact Hidx).
      rewrite Ea by (rewrite Ma; exact Hidx).
      rewrite get_build; [reflexivity|].
      apply zip_mod_range; [exact Pa | rewrite length_map; exact Li].
    + rewrite get_build by (rewrite Mb; exact Hidx).
      rewrite Eb by (rewrite Mb; exact Hidx).
      rewrite get_build; [reflexivity|].
      apply zip_mod_range; [exact Pb | rewrite length_map; lia].
Qed.

(** X27: when two networks decompress to arrays of positive sizes whose
    shapes agree on every axis up to sizes 1, [_broadcast] returns two
    networks that decompress to arrays of the common shape, the larger
    size on every axis, and each holds the array of its operand repeated
    along the axes where that had the size 1. *)
Theorem broadcast_spec (a b : Tensor) (A B : tensor) :
  torch a = Ok A -> torch b = Ok B ->
  positive (tshape A) -> positive (tshape B) ->
  broadcastable (tshape A) (tshape B) = true ->
  exists a' b' A' B',
    _broadcast a b = Ok (a', b')
    /\ torch a' = Ok A' /\ torch b' = Ok B'
    /\ tshape A' = zip_with Nat.max (tshape A) (tshape B)
    /\ tshape B' = zip_with Nat.max (tshape A) (tshape B)
    /\ forall idx,
         in_range (zip_with Nat.max (tshape A) (tshape B)) idx = true ->
         get A' idx = get A (zip_with Nat.modulo idx (tshape A))
         /\ get B' idx = get B (zip_with Nat.modulo idx (tshape B)).
Proof.
  intros Ha Hb Pa Pb Hc. exact (@broadcast_arrays a b A B Ha Hb Pa Pb Hc).
Qed.

End TensorNetwork.

(** * Evaluation on integer entries

    The ring of integers instantiates the entries; the external routines,
    which the evaluations below never reach, raise. *)

Module ZInst.

Definition zrdiv (a b : Z) : Z := Z.div a b.
Definition zrsqrt (a : Z) : Z := Z.sqrt a.
Definition zrltb (a b : Z) : bool := Z.ltb a b.
Definition zqr (m : tensor Z) : result (tensor Z * tensor Z) :=
  Raise RuntimeError.
Definition zsvd (m : tensor Z) (b : budget Z) (rmax : option nat)
  (left_ortho : bool) : result (tensor Z * tensor Z) := Raise RuntimeError.
Definition zrelerr (a b : Tensor Z) : result Z := Raise RuntimeError.
Definition zhosvd (a : tensor Z) (r : nat) : result (list (tensor Z)) :=
  Raise RuntimeError.
Definition zrandn (s : list nat) (r : nat) : list (tensor Z) :=
  map (fun n => zeros 0%Z [n; r]) s.
Definition zals (a : tensor Z) (r : nat) (cs : list (tensor Z))
  : result (list (tensor Z)) := Raise RuntimeError.

(** The constructor and [torch()] on integer arrays. *)
Definition ZTensor_init (a : init_args Z) : traced (Tensor Z) :=
  Tensor_init 0%Z 1%Z Z.add Z.mul Z.sub zrdiv zrsqrt zrltb zqr zsvd zrelerr
    zhosvd zrandn zals a.
Definition Ztorch (t : Tensor Z) : result (tensor Z) :=
  torch 0%Z 1%Z Z.add Z.mul t.

End ZInst.

Import ZInst.

(** The array [[1, 2], [3, 4]]. *)
Definition A22 : tensor Z := mkT [2; 2] [1; 2; 3; 4]%Z.

(** The empty array of shape [(0,)]. *)
Definition A0 : tensor Z := mkT [0] [].

Lemma C1_witness :
  exists t,
    ZTensor_init (no_options A22) = ([WFullRankTT], Ok t)
    /\ Us t = repeat None (tdim A22)
    /\ map (@tshape Z) (cores t)
       = map (fun k => [tt_rank (tshape A22) k; nth k (tshape A22) 0;
                        tt_rank (tshape A22) (S k)])
           (seq 0 (tdim A22))
    /\ Ztorch t = Ok A22.
Proof.
  apply (@C1_full_rank_roundtrip Z 0%Z 1%Z Z.add Z.mul Z.sub Z.opp Zth
           zrdiv zrsqrt zrltb zqr zsvd zrelerr zhosvd zrandn zals A22).
  - reflexivity.
  - discriminate.
  - repeat constructor.
Defined.

(** The claim C1 as stated fails on an array with an empty axis: the
    constructor raises, so there is no network to decompress. *)
Lemma C1_counterexample :
  wf A0 /\ tdim A0 = 1
  /\ ~ (exists w t, ZTensor_init (no_options A0) = (w, Ok t)
                    /\ Ztorch t = Ok A0).
Proof.
  split; [reflexivity|]. split; [reflexivity|].
  intros (w & t & H & _). vm_compute in H. discriminate H.
Qed.

Module ZOps.

Definition Zadd (t : Tensor Z) (o : operand Z) : result (Tensor Z) :=
  __add__ 0%Z 1%Z Z.add Z.mul t o.
Definition Zradd (t : Tensor Z) (o : operand Z) : result (Tensor Z) :=
  __radd__ 0%Z 1%Z Z.add Z.mul t o.
Definition Zmul (t : Tensor Z) (o : operand Z) : result (Tensor Z) :=
  __mul__ 0%Z 1%Z Z.add Z.mul t o.
Definition Zshape (t : Tensor Z) : result (list nat) := shape t.

End ZOps.

Import ZOps.

(** A network of one axis of size 1 made of one CP factor of rank 2: it
    stands for the array [[2]]. *)
Definition t_cp12 : Tensor Z := mkTensor [mkT [1; 2] [1; 1]%Z] [None].

(** C9, at the failing input: the reflected addition of [None] returns the
    network itself, but [1 + t] on the one-axis network [t_cp12], which
    holds [[2]], is a network that holds [[4]] and not [[3]]: the branch
    [if self.dim() == 1] adds the scalar to every rank-one term. *)
Theorem C9_scalar_add_one_axis :
  Zradd t_cp12 (ONone Z) = Ok t_cp12
  /\ Ztorch t_cp12 = Ok (mkT [1] [2%Z])
  /\ exists t', Zradd t_cp12 (OScalar 1%Z) = Ok t'
                /\ Ztorch t' = Ok (mkT [1] [4%Z]).
Proof.
  split; [reflexivity|]. split; [reflexivity|].
  eexists. split; reflexivity.
Qed.

(** A network of one axis of size 3, holding [[1, 2, 3]], and a network of
    two axes of sizes 3 and 4, of rank one. *)
Definition t_vec3 : Tensor Z := mkTensor [mkT [1; 3; 1] [1; 2; 3]%Z] [None].
Definition t_mat34 : Tensor Z :=
  mkTensor [mkT [1; 3; 1] [10; 20; 30]%Z; mkT [1; 4; 1] [1; 1; 1; 1]%Z]
    [None; None].

(** C7, at the failing input: the operands have 1 and 2 dimensions, yet
    [+] raises nothing and returns a network of one axis; [*] on the same
    operands raises [ValueError]. *)
Theorem C7_add_mixed_dimensions :
  Zshape t_vec3 = Ok [3] /\ Zshape t_mat34 = Ok [3; 4]
  /\ (exists t', Zadd t_vec3 (OTensor t_mat34) = Ok t'
                 /\ Zshape t' = Ok [3]
                 /\ Ztorch t' = Ok (mkT [3] [11; 22; 33]%Z))
  /\ Zmul t_vec3 (OTensor t_mat34) = Raise ValueError.
Proof.
  split; [reflexivity|]. split; [reflexivity|].
  split; [|reflexivity].
  eexists. split; [reflexivity|]. split; reflexivity.
Qed.

(** Stand-ins for the external factorizations that return the trivial one,
    [m = m * I]: enough to follow the constructor past its rounding calls
    down to the check of its options. *)
Definition zqr_trivial (m : tensor Z) : result (tensor Z * tensor Z) :=
  Ok (m, eye 0%Z 1%Z (sh m 1)).

Definition zsvd_trivial (m : tensor Z) (b : budget Z) (rmax : option nat)
  (left_ortho : bool) : result (tensor Z * tensor Z) :=
  Ok (m, eye 0%Z 1%Z (sh m 1)).

Definition ZTensor_init_trivial (a : init_args Z) : traced (Tensor Z) :=
  Tensor_init 0%Z 1%Z Z.add Z.mul Z.sub zrdiv zrsqrt zrltb
    zqr_trivial zsvd_trivial zrelerr zhosvd zrandn zals a.

(** The identity matrix of size 2. *)
Definition I22 : tensor Z := mkT [2; 2] [1; 0; 0; 1]%Z.

(** [Tensor(I22, ranks_tt=1, eps=0)] *)
Definition args_eps_ranks_tt : init_args Z :=
  mkArgs (DArray I22) None None None (Some (RInt 1)) (Some 0%Z).

Lemma C8_witness : traises (ZTensor_init args_eps_ranks_tt).
Proof.
  apply (proj1 (proj2 (@C8_conflicting_options Z 0%Z 1%Z Z.add Z.mul Z.sub
                         zrdiv zrsqrt zrltb zqr zsvd zrelerr zhosvd zrandn
                         zals))
           args_eps_ranks_tt 0%Z); reflexivity.
Defined.

(** The claim C8 as stated fails on [Tensor(I22, ranks_tt=1, eps=0)]: the
    [ValueError] for the conflict is raised after [_full_rank_tt] and
    [round_tt] have run on the data. *)
Lemma C8_counterexample :
  ZTensor_init_trivial args_eps_ranks_tt
  = ([WFullRankTT; WRoundTT], Raise ValueError)
  /\ fst (ZTensor_init_trivial args_eps_ranks_tt) <> [].
Proof. split; [vm_compute; reflexivity | vm_compute; discriminate]. Qed.

(** Two CP networks of shape [(2, 3)], of ranks 1 and 2. *)
Definition cp_a : Tensor Z :=
  mkTensor [mkT [2; 1] [1; 2]%Z; mkT [3; 1] [1; 10; 100]%Z] [None; None].
Definition cp_b : Tensor Z :=
  mkTensor [mkT [2; 2] [1; 0; 0; 1]%Z; mkT [3; 2] [1; 2; 3; 4; 5; 6]%Z]
    [None; None].

(** A CP network of shape [(2,)] and rank 1. *)
Definition cp_v : Tensor Z := mkTensor [mkT [2; 1] [1; 2]%Z] [None].

Lemma cp_a_network : cp_network cp_a [2; 3] 1.
Proof. repeat split; repeat constructor. Qed.

Lemma cp_b_network : cp_network cp_b [2; 3] 2.
Proof. repeat split; repeat constructor. Qed.

Lemma cp_v_network : cp_network cp_v [2] 1.
Proof. repeat split; repeat constructor. Qed.

(** A CP network of shape [(2, 3)] and rank 0. *)
Definition cp_z : Tensor Z :=
  mkTensor [mkT [2; 0] []; mkT [3; 0] []] [None; None].

Lemma cp_z_network : cp_network cp_z [2; 3] 0.
Proof. repeat split; repeat constructor. Qed.

Lemma C4_witness :
  (exists t, add_tensors 0%Z 1%Z Z.add Z.mul cp_a cp_b = Ok t
             /\ cp_network t [2; 3] (1 + 2))
  /\ (exists t, mul_tensors 0%Z 1%Z Z.add Z.mul cp_a cp_b = Ok t
                /\ cp_network t [2; 3] (1 * 2))
  /\ (exists t,
        add_tensors 0%Z 1%Z Z.add Z.mul cp_v cp_v = Ok t
        /\ cp_network t [2] 1
        /\ forall i j, i < 2 -> j < 1 ->
             get 0%Z (nth 0 (cores t) (tnil Z)) [i; j]
             = (get 0%Z (nth 0 (cores cp_v) (tnil Z)) [i; j]
                + get 0%Z (nth 0 (cores cp_v) (tnil Z)) [i; j])%Z).
Proof.
  split; [|split].
  - apply (proj1 (proj1 (@C4_format_closure Z 0%Z 1%Z Z.add Z.mul
                           cp_a cp_b [2; 3] 1 2)
                    cp_a_network cp_b_network)).
    simpl. lia.
  - apply (proj1 (proj2 (proj1 (@C4_format_closure Z 0%Z 1%Z Z.add Z.mul
                                  cp_a cp_b [2; 3] 1 2)
                           cp_a_network cp_b_network))); lia.
  - apply (proj2 (proj2 (proj1 (@C4_format_closure Z 0%Z 1%Z Z.add Z.mul
                                  cp_v cp_v [2] 1 1)
                           cp_v_network cp_v_network))); reflexivity.
Defined.

(** The claim C4 as stated fails on one axis: the sum of two CP networks of
    rank 1 is a CP network of rank 1, not of rank 2, its factor holding
    the sums of the entries.  It fails on the product at rank 0 as well:
    the product of two CP networks of rank 0 raises, at the reshape of
    [_core_kron]. *)
Lemma C4_counterexample :
  (cp_network cp_v [2] 1
   /\ exists t, add_tensors 0%Z 1%Z Z.add Z.mul cp_v cp_v = Ok t
                /\ map (@tshape Z) (cores t) = [[2; 1]]
                /\ map (@tdata Z) (cores t) = [[2; 4]%Z]
                /\ ~ cp_network t [2] (1 + 1))
  /\ (cp_network cp_z [2; 3] 0
      /\ mul_tensors 0%Z 1%Z Z.add Z.mul cp_z cp_z = Raise RuntimeError).
Proof.
  split.
  - split; [exact cp_v_network|].
    eexists. split; [reflexivity|]. split; [reflexivity|].
    split; [reflexivity|].
    intros (H & _). discriminate H.
  - split; [exact cp_z_network | reflexivity].
Qed.

(** The array [[1, 10, 100], [2, 20, 200]] that [cp_a] stands for, and a
    store that holds the lists of [cp_a] for the object [obj_a]. *)
Definition A23 : tensor Z := mkT [2; 3] [1; 10; 100; 2; 20; 200]%Z.
Definition store_a : store Z := mkStore [cores cp_a] [Us cp_a].
Definition obj_a : object := mkObject 0 0.

(** A CP network of shape [(2,)] and rank 0: it stands for [[0, 0]]. *)
Definition cp_zero : Tensor Z := mkTensor [mkT [2; 0] []] [None].
Definition store_zero : store Z := mkStore [cores cp_zero] [Us cp_zero].

Lemma C10_witness :
  exists h' o' t' sp,
    obj_repeat 0%Z 1%Z store_a obj_a [2; 1; 2] = Ok (h', o')
    /\ load h' o' = Ok t'
    /\ length (core_lists store_a) <= cores_ref o'
    /\ length (factor_lists store_a) <= Us_ref o'
    /\ (forall o x, load store_a o = Ok x -> load h' o = Ok x)
    /\ shape cp_a = Ok sp
    /\ shape t' = Ok (tile_shape sp [2; 1; 2])
    /\ skipn (dim cp_a) (cores t')
       = map (fun r => ones 1%Z [r; shr (last (cores cp_a) (tnil Z)) 1])
           (skipn (dim cp_a) [2; 1; 2])
    /\ skipn (dim cp_a) (Us t')
       = map (fun _ => None) (skipn (dim cp_a) [2; 1; 2])
    /\ Ztorch t' = Ok (tile 0%Z A23 [2; 1; 2]).
Proof.
  apply (@C10_repeat_tiles Z 0%Z 1%Z Z.add Z.mul Z.sub Z.opp Zth
           store_a obj_a cp_a [2; 1; 2] A23).
  - reflexivity.
  - reflexivity.
  - unfold dim. simpl. lia.
  - repeat constructor.
  - intros _. vm_compute. discriminate.
Defined.

(** The claim C10 as stated fails on a CP network of rank 0 that gets a
    trailing axis: the network decompresses to [[0, 0]], [repeat(1, 2)]
    returns a network of shape [(2, 2)], and [torch()] raises on it. *)
Lemma C10_counterexample :
  Ztorch cp_zero = Ok (mkT [2] [0; 0]%Z)
  /\ exists h' o' t',
       obj_repeat 0%Z 1%Z store_zero obj_a [1; 2] = Ok (h', o')
       /\ load h' o' = Ok t'
       /\ shape t' = Ok [2; 2]
       /\ Ztorch t' = Raise RuntimeError.
Proof.
  split; [reflexivity|].
  eexists. eexists. eexists. split; [reflexivity|].
  split; [reflexivity|]. split; reflexivity.
Qed.

(** A QR factorization for upper triangular square matrices with a positive
    diagonal, which are their own factor [R]: [Q] is the identity. *)
Definition zqr_upper (m : tensor Z) : result (tensor Z * tensor Z) :=
  Ok (eye 0%Z 1%Z (sh m 0), m).

Definition Zleft_orthogonalize (t : Tensor Z) (mu : Z)
  : result (Tensor Z * tensor Z) :=
  left_orthogonalize 0%Z Z.add Z.mul zqr_upper t mu.

(** A CP network of shape [(2, 2, 2)] and rank 2 whose second factor is
    the upper triangular matrix [[1, 1], [0, 1]]; its entry at [(i, j, k)]
    is the entry [(j, k)] of that matrix. *)
Definition cp_upper : Tensor Z :=
  mkTensor [mkT [2; 2] [1; 1; 1; 1]%Z; mkT [2; 2] [1; 1; 0; 1]%Z;
            mkT [2; 2] [1; 0; 0; 1]%Z] [None; None; None].

(** C6, at the failing input: [left_orthogonalize(1)] on the CP network
    [cp_upper] raises nothing, leaves CP factors in the network, and
    changes the array the network stands for (the entries [(j, k)] are
    transposed): the CP factors are not turned into TT cores, and the
    factor [R] is multiplied into the next CP factor as if it were the
    unfolding of a TT core. *)
Theorem C6_left_orthogonalize_cp :
  Ztorch cp_upper = Ok (mkT [2; 2; 2] [1; 1; 0; 1; 1; 1; 0; 1]%Z)
  /\ exists t' Rf,
       Zleft_orthogonalize cp_upper 1 = Ok (t', Rf)
       /\ map (@tshape Z) (cores t') = [[2; 2]; [2; 2]; [2; 2]]
       /\ Ztorch t' = Ok (mkT [2; 2; 2] [1; 0; 1; 1; 1; 0; 1; 1]%Z).
Proof.
  split; [reflexivity|].
  eexists. eexists. split; [reflexivity|]. split; reflexivity.
Qed.

(** ** Indexing on integer arrays *)

Definition Zgetitem (t : Tensor Z) (key : list key_item)
  : result (item Z) :=
  __getitem__ 0%Z 1%Z Z.add Z.mul t key.

Definition Zdecompress (it : item Z) : result (tensor Z) :=
  decompress 0%Z 1%Z Z.add Z.mul it.

Definition Znp_getitem (A : tensor Z) (key : list key_item)
  : result (tensor Z) :=
  np_getitem 0%Z A key.

(** [arange(24).reshape(2, 3, 4)] *)
Definition A234 : tensor Z := mkT [2; 3; 4] (map Z.of_nat (seq 0 24)).

(** The array without axes that holds 5. *)
Definition A5 : tensor Z := mkT [] [5%Z].

(** [A[:, [0, 2], [1, 3]]], [A[0, :, [0, 1]]] and [A[::-1]] *)
Definition key_arrays : list key_item :=
  [full_slice; KIndex [0; 2]%Z; KIndex [1; 3]%Z].
Definition key_separated : list key_item :=
  [KInt 0; full_slice; KIndex [0; 1]%Z].
Definition key_reversed : list key_item :=
  [KSlice None None (Some (-1)%Z)].

Lemma C3_witness :
  exists t it B,
    ZTensor_init (no_options A234) = ([WFullRankTT], Ok t)
    /\ Zgetitem t key_arrays = Ok it
    /\ Znp_getitem A234 key_arrays = Ok B
    /\ Zdecompress it = Ok B
    /\ (forallb is_sint [STake [0; 1]; SArr [0; 2]; SArr [1; 3]] = true ->
        exists x, it = Number x).
Proof.
  apply (@C3_getitem_numpy Z 0%Z 1%Z Z.add Z.mul Z.sub Z.opp Zth
           zrdiv zrsqrt zrltb zqr zsvd zrelerr zhosvd zrandn zals A234
           key_arrays [STake [0; 1]; SArr [0; 2]; SArr [1; 3]]).
  - reflexivity.
  - discriminate.
  - repeat constructor.
  - reflexivity.
  - reflexivity.
  - reflexivity.
  - right. left. reflexivity.
Defined.

(** The claim C3 as stated fails in four ways.  With an integer and an
    index array separated by a slice, the result keeps the axis of the
    index array in its place, where NumPy moves it to the front: the two
    arrays are transposes of each other.  A slice with a negative step is a
    valid NumPy key, and the indexing of the cores raises [ValueError] on
    it.  On an array with an empty axis, or with no axis at all, NumPy
    indexes and the constructor raises. *)
Lemma C3_counterexample :
  (exists t it,
      ZTensor_init (no_options A234) = ([WFullRankTT], Ok t)
      /\ Zgetitem t key_separated = Ok it
      /\ Zdecompress it = Ok (mkT [3; 2] [0; 1; 4; 5; 8; 9]%Z)
      /\ Znp_getitem A234 key_separated
         = Ok (mkT [2; 3] [0; 4; 8; 1; 5; 9]%Z)
      /\ Zgetitem t key_reversed = Raise ValueError
      /\ is_ok (Znp_getitem A234 key_reversed) = true)
  /\ Znp_getitem A0 [full_slice] = Ok A0
  /\ (forall w t, ZTensor_init (no_options A0) <> (w, Ok t))
  /\ Znp_getitem A5 [] = Ok A5
  /\ (forall w t, ZTensor_init (no_options A5) <> (w, Ok t)).
Proof.
  split.
  - eexists. eexists. split; [vm_compute; reflexivity|].
    split; [vm_compute; reflexivity|]. repeat split; vm_compute; reflexivity.
  - split; [reflexivity|]. split.
    + intros w t H. vm_compute in H. discriminate H.
    + split; [reflexivity|]. intros w t H. vm_compute in H. discriminate H.
Qed.

(** ** Rounding on integer arrays *)

(** A reduced QR factorization for matrices that are zero below the
    diagonal: [Q] holds the first unit vectors and [R] the first rows of
    the matrix. *)
Definition zqr_thin (m : tensor Z) : result (tensor Z * tensor Z) :=
  match tshape m with
  | [a; b] =>
      Ok (build2 0%Z a (Nat.min a b) (delta 0%Z 1%Z),
          build2 0%Z (Nat.min a b) b (fun i j => get 0%Z m [i; j]))
  | _ => Raise RuntimeError
  end.

(** A truncated SVD for matrices that are zero off the diagonal, with a
    diagonal that is not negative and does not increase: the singular
    values are the diagonal entries and the singular vectors unit vectors.
    As many of the last singular values go as have squares that add up to
    [delta ** 2] at most; one is kept at least, and [rmax] at most. *)
Definition zsvd_diag (M : tensor Z) (b : budget Z) (rmax : option nat)
  (left_ortho : bool) : result (tensor Z * tensor Z) :=
  match tshape M, b with
  | [a; n], BDelta dl =>
      let k := Nat.min a n in
      let sq := fun i => (get 0 M [i; i] * get 0 M [i; i])%Z in
      let tail := fun j => fold_right Z.add 0%Z (map sq (seq (k - j) j)) in
      let d := last (filter (fun j => (tail j <=? dl * dl)%Z) (seq 1 k)) 0 in
      let r := Nat.min k (Nat.max 1 (match rmax with
                                     | Some c => Nat.min c (k - d)
                                     | None => k - d
                                     end)) in
      let S := fun i j => if i =? j then get 0%Z M [i; i] else 0%Z in
      if left_ortho
      then Ok (build2 0%Z a r (delta 0%Z 1%Z), build2 0%Z r n S)
      else Ok (build2 0%Z a r S, build2 0%Z r n (delta 0%Z 1%Z))
  | _, _ => Raise RuntimeError
  end.

Lemma zqr_thin_shape (m Q Rf : tensor Z) (a b : nat) :
  tshape m = [a; b] -> zqr_thin m = Ok (Q, Rf) ->
  tshape Q = [a; Nat.min a b] /\ tshape Rf = [Nat.min a b; b].
Proof.
  intros E H. unfold zqr_thin in H. rewrite E in H. inversion H.
  split; reflexivity.
Qed.

Lemma zsvd_diag_shape (M : tensor Z) (bud : budget Z) (rm : option nat)
  (lo : bool) (lft rgt : tensor Z) (a b : nat) :
  tshape M = [a; b] -> zsvd_diag M bud rm lo = Ok (lft, rgt) ->
  exists k, k <= Nat.min a b /\ tshape lft = [a; k] /\ tshape rgt = [k; b].
Proof.
  intros E H. unfold zsvd_diag in H. rewrite E in H.
  destruct bud as [eps|dl]; [discriminate H|].
  destruct lo; inversion H; eexists;
    (split; [apply Nat.le_min_l|split; reflexivity]).
Qed.

Definition Zround_tt (t : Tensor Z) (eps : Z) (rmax : option rank_arg)
  : result (Tensor Z) :=
  round_tt 0%Z 1%Z Z.add Z.mul zrdiv zrsqrt zrltb zqr_thin zsvd_diag t eps
    rmax.

Definition Zorthogonalize (t : Tensor Z) (mu : Z)
  : result (Tensor Z * (tensor Z * tensor Z)) :=
  orthogonalize 0%Z 1%Z Z.add Z.mul zqr_thin t mu.

(** The matrix [diag(4, 3, 0)] as a network of two TT cores of rank 3, and
    what [round_tt(0)] makes of it: the rank is 2. *)
Definition diag430 : Tensor Z :=
  mkTensor [mkT [1; 3; 3] [1; 0; 0; 0; 1; 0; 0; 0; 1]%Z;
            mkT [3; 3; 1] [4; 0; 0; 0; 3; 0; 0; 0; 0]%Z] [None; None].

Definition diag430_rounded : Tensor Z :=
  mkTensor [mkT [1; 3; 2] [4; 0; 0; 3; 0; 0]%Z;
            mkT [2; 3; 1] [1; 0; 0; 0; 1; 0]%Z] [None; None].

Lemma round_tt_never_raises_ranks_witness :
  dim diag430_rounded = dim diag430
  /\ Forall (fun c => tdim c = 3) (cores diag430_rounded)
  /\ exists r r',
       ranks_tt diag430 = Ok r /\ ranks_tt diag430_rounded = Ok r'
       /\ forall n, 1 <= n < dim diag430 -> nth n r' 0 <= nth n r 0.
Proof.
  apply (@round_tt_never_raises_ranks Z 0%Z 1%Z Z.add Z.mul zrdiv zrsqrt
           zrltb zqr_thin zsvd_diag zqr_thin_shape zsvd_diag_shape
           diag430 diag430_rounded 0%Z None).
  - reflexivity.
  - vm_compute. reflexivity.
Defined.

Lemma orthogonalize_never_raises_ranks_witness :
  dim diag430 = dim diag430
  /\ Forall (fun c => tdim c = 3) (cores diag430)
  /\ exists r r',
       ranks_tt diag430 = Ok r /\ ranks_tt diag430 = Ok r'
       /\ forall n, 1 <= n < dim diag430 -> nth n r' 0 <= nth n r 0.
Proof.
  apply (@orthogonalize_never_raises_ranks Z 0%Z 1%Z Z.add Z.mul
           zqr_thin zqr_thin_shape diag430 diag430 1%Z
           (mkT [3; 3] [1; 0; 0; 0; 1; 0; 0; 0; 1]%Z,
            mkT [1; 1] [1%Z])).
  - reflexivity.
  - vm_compute. reflexivity.
Defined.

(** ** The further properties on integer arrays *)

(** [diag(4, 3, 0)] as a dense array, and the factor [[1, 2], [3, 4]]. *)
Definition A430 : tensor Z := mkT [3; 3] [4; 0; 0; 0; 3; 0; 0; 0; 0]%Z.
Definition F22 : tensor Z := mkT [2; 2] [1; 2; 3; 4]%Z.

Lemma constructed_network_decompresses_witness :
  exists A sp,
    Ztorch diag430 = Ok A /\ shape diag430 = Ok sp /\ tshape A = sp.
Proof.
  apply (@constructed_network_decompresses Z 0%Z 1%Z Z.add Z.mul Z.sub
           Z.opp Zth (cores diag430) None diag430).
  - reflexivity.
  - discriminate.
  - constructor; [cbn; lia|]. constructor; [cbn; lia|]. constructor.
Defined.

Lemma cp_to_tt_diagonal_witness :
  exists c,
    _cp_to_tt 0%Z F22 = Ok c /\ tshape c = [2; 2; 2]
    /\ forall a i b, a < 2 -> i < 2 -> b < 2 ->
         get 0%Z c [a; i; b] = if a =? b then get 0%Z F22 [i; a] else 0%Z.
Proof. apply (@cp_to_tt_diagonal Z 0%Z F22 2 2). reflexivity. Defined.

Lemma mul_scalar_spec_witness :
  exists t',
    __mul__ 0%Z 1%Z Z.add Z.mul diag430 (OScalar 2%Z) = Ok t'
    /\ dim t' = dim diag430
    /\ tl (cores t') = tl (cores diag430)
    /\ Ztorch t' = Ok (scale Z.mul 2%Z A430).
Proof.
  apply (@mul_scalar_spec Z 0%Z 1%Z Z.add Z.mul Z.sub Z.opp Zth diag430
           2%Z A430).
  reflexivity.
Defined.

Lemma torch_returns_iff_witness :
  (exists ds, valid 0%Z Z.add Z.mul diag430 ds
              /\ A430 = build (map (@mid Z) ds) (entry 0%Z 1%Z Z.add Z.mul ds))
  /\ shape diag430 = Ok (tshape A430).
Proof.
  destruct (@torch_returns_iff Z 0%Z 1%Z Z.add Z.mul Z.sub Z.opp Zth
              diag430 A430) as ((H1 & _) & H2).
  split; [apply H1; reflexivity | apply H2; reflexivity].
Defined.

Lemma process_key_spec_witness :
  _process_key diag430 [KEllipsis; KEllipsis] = Raise IndexError
  /\ exists key',
       _process_key diag430 [KEllipsis; KInt 0] = Ok key'
       /\ key' = [full_slice; KInt 0]
       /\ existsb is_ellipsis key' = false
       /\ filter is_none key' = []
       /\ length (filter takes_axis key') = 2.
Proof.
  split.
  - apply (proj1 (@process_key_spec Z diag430 [KEllipsis; KEllipsis])).
    left. cbn. lia.
  - apply (proj2 (@process_key_spec Z diag430 [KEllipsis; KInt 0]));
      cbn; lia.
Defined.

(** The ranks of [diag430]: 1, 3, 1. *)
Definition ranks_131 (k : nat) : nat := if k =? 1 then 3 else 1.

Lemma add_tt_spec_witness :
  exists t A B,
    Ztorch diag430 = Ok A /\ Ztorch diag430 = Ok B
    /\ __add__ 0%Z 1%Z Z.add Z.mul diag430 (OTensor diag430) = Ok t
    /\ tt_network t [3; 3] (add_ranks 2 ranks_131 ranks_131)
    /\ Ztorch t
       = Ok (build [3; 3] (fun idx => (get 0 A idx + get 0 B idx)%Z)).
Proof.
  apply (@add_tt_spec Z 0%Z 1%Z Z.add Z.mul Z.sub Z.opp Zth diag430 diag430
           [3; 3] ranks_131 ranks_131).
  - split; [reflexivity|]. split; [reflexivity|]. split.
    + intros k. unfold ranks_131. destruct (k =? 1); discriminate.
    + split; reflexivity.
  - split; [reflexivity|]. split; [reflexivity|]. split.
    + intros k. unfold ranks_131. destruct (k =? 1); discriminate.
    + split; reflexivity.
  - cbn. lia.
Defined.

Lemma mul_tt_spec_witness :
  exists t A B,
    Ztorch diag430 = Ok A /\ Ztorch diag430 = Ok B
    /\ __mul__ 0%Z 1%Z Z.add Z.mul diag430 (OTensor diag430) = Ok t
    /\ tt_network t [3; 3] (fun k => ranks_131 k * ranks_131 k)
    /\ Ztorch t
       = Ok (build [3; 3] (fun idx => (get 0 A idx * get 0 B idx)%Z)).
Proof.
  apply (@mul_tt_spec Z 0%Z 1%Z Z.add Z.mul Z.sub Z.opp Zth diag430 diag430
           [3; 3] ranks_131 ranks_131).
  - split; [reflexivity|]. split; [reflexivity|]. split.
    + intros k. unfold ranks_131. destruct (k =? 1); discriminate.
    + split; reflexivity.
  - split; [reflexivity|]. split; [reflexivity|]. split.
    + intros k. unfold ranks_131. destruct (k =? 1); discriminate.
    + split; reflexivity.
  - discriminate.
Defined.

Definition Ztt_array : Tensor Z -> list nat -> (nat -> nat)
                       -> (list nat -> Z) -> Prop :=
  tt_array 0%Z 1%Z Z.add Z.mul.

Lemma add_scalar_spec_witness :
  exists t,
    __add__ 0%Z 1%Z Z.add Z.mul diag430 (OScalar 5%Z) = Ok t
    /\ Ztt_array t [3; 3] (add_ranks 2 ranks_131 (fun _ => 1))
         (fun idx => (get 0 A430 idx + 5)%Z).
Proof.
  apply (@add_scalar_spec Z 0%Z 1%Z Z.add Z.mul Z.sub Z.opp Zth diag430
           [3; 3] ranks_131 (get 0%Z A430) 5%Z).
  - split; [|reflexivity].
    split; [reflexivity|]. split; [reflexivity|]. split.
    + intros k. unfold ranks_131. destruct (k =? 1); discriminate.
    + split; reflexivity.
  - cbn. lia.
Defined.

Lemma sub_tt_spec_witness :
  (exists t,
     __neg__ 0%Z 1%Z Z.add Z.mul Z.opp diag430 = Ok t
     /\ Ztt_array t [3; 3] ranks_131 (fun idx => (- get 0 A430 idx)%Z))
  /\ exists t,
       __sub__ 0%Z 1%Z Z.add Z.mul Z.opp diag430 (OTensor diag430) = Ok t
       /\ Ztt_array t [3; 3] (add_ranks 2 ranks_131 ranks_131)
            (fun idx => (get 0 A430 idx - get 0 A430 idx)%Z).
Proof.
  destruct (@sub_tt_spec Z 0%Z 1%Z Z.add Z.mul Z.sub Z.opp Zth
              diag430 diag430 [3; 3] ranks_131 ranks_131
              (get 0%Z A430) (get 0%Z A430)) as (H1 & H2).
  - split; [|reflexivity].
    split; [reflexivity|]. split; [reflexivity|]. split.
    + intros k. unfold ranks_131. destruct (k =? 1); discriminate.
    + split; reflexivity.
  - split; [|reflexivity].
    split; [reflexivity|]. split; [reflexivity|]. split.
    + intros k. unfold ranks_131. destruct (k =? 1); discriminate.
    + split; reflexivity.
  - split; [exact H1|]. apply H2. cbn. lia.
Defined.

(** The 2 x 2 identity matrix and the matrix with ones in its first row,
    as networks of two TT cores, and the truth values they hold. *)
Definition eye22 : Tensor Z :=
  mkTensor [mkT [1; 2; 2] [1; 0; 0; 1]%Z; mkT [2; 2; 1] [1; 0; 0; 1]%Z]
    [None; None].

Definition row22 : Tensor Z :=
  mkTensor [mkT [1; 2; 1] [1; 0]%Z; mkT [1; 2; 1] [1; 1]%Z] [None; None].

Definition on_diagonal (idx : list nat) : bool :=
  nth 0 idx 0 =? nth 1 idx 0.

Definition on_first_row (idx : list nat) : bool := nth 0 idx 0 =? 0.

Definition ranks_121 (k : nat) : nat := if k =? 1 then 2 else 1.

Lemma logic_tt_spec_witness :
  (exists t rk,
     __invert__ 0%Z 1%Z Z.add Z.mul Z.opp eye22 = Ok t
     /\ Ztt_array t [2; 2] rk
          (fun idx => of_bool 0%Z 1%Z (negb (on_diagonal idx))))
  /\ (exists t rk,
        __and__ 0%Z 1%Z Z.add Z.mul eye22 (OTensor row22) = Ok t
        /\ Ztt_array t [2; 2] rk
             (fun idx => of_bool 0%Z 1%Z
                           (on_diagonal idx && on_first_row idx)))
  /\ (exists t rk,
        __or__ 0%Z 1%Z Z.add Z.mul Z.opp eye22 (OTensor row22) = Ok t
        /\ Ztt_array t [2; 2] rk
             (fun idx => of_bool 0%Z 1%Z
                           (on_diagonal idx || on_first_row idx)))
  /\ (exists t rk,
        __xor__ 0%Z 1%Z Z.add Z.mul Z.opp eye22 (OTensor row22) = Ok t
        /\ Ztt_array t [2; 2] rk
             (fun idx => of_bool 0%Z 1%Z
                           (xorb (on_diagonal idx) (on_first_row idx)))).
Proof.
  apply (@logic_tt_spec Z 0%Z 1%Z Z.add Z.mul Z.sub Z.opp Zth eye22 row22
           [2; 2] ranks_121 (fun _ => 1) on_diagonal on_first_row).
  - split; [|reflexivity].
    split; [reflexivity|]. split; [reflexivity|]. split.
    + intros k. unfold ranks_121. destruct (k =? 1); discriminate.
    + split; reflexivity.
  - split; [|reflexivity].
    split; [reflexivity|]. split; [reflexivity|]. split.
    + discriminate.
    + split; reflexivity.
  - cbn. lia.
Defined.

(** A network of one TT core with a Tucker factor of 3 rows, and what is
    left of it without the factor. *)
Definition tucker3 : Tensor Z :=
  mkTensor [mkT [1; 2; 1] [1; 2]%Z] [Some (mkT [3; 2] [1; 0; 0; 1; 1; 1]%Z)].

Definition tucker3_plain : Tensor Z :=
  mkTensor [mkT [1; 3; 1] [1; 2; 3]%Z] [None].

Lemma decompress_tucker_factors_spec_witness :
  dim tucker3_plain = dim tucker3
  /\ Us tucker3_plain = repeat None (dim tucker3)
  /\ shape tucker3_plain = shape tucker3
  /\ Ztorch tucker3_plain = Ztorch tucker3
  /\ decompress_tucker_factors 0%Z Z.add Z.mul tucker3_plain
     = Ok tucker3_plain.
Proof.
  apply (@decompress_tucker_factors_spec Z 0%Z 1%Z Z.add Z.mul
           tucker3 tucker3_plain).
  reflexivity.
Defined.

(** Two CP factors of rank 2, the first under a Tucker factor, and the
    array they stand for. *)
Definition cp_tucker : Tensor Z :=
  mkTensor [mkT [2; 2] [1; 0; 0; 1]%Z; mkT [3; 2] [1; 2; 3; 4; 5; 6]%Z]
    [Some (mkT [2; 2] [1; 1; 0; 1]%Z); None].

Definition A23_cp : tensor Z := mkT [2; 3] [3; 7; 11; 2; 4; 6]%Z.

Lemma tt_spec_witness :
  exists t',
    Tensor_tt 0%Z Z.add Z.mul cp_tucker = Ok t'
    /\ dim t' = dim cp_tucker
    /\ Forall (fun c => tdim c = 3) (cores t')
    /\ Us t' = repeat None (dim cp_tucker)
    /\ Ztorch t' = Ok A23_cp.
Proof.
  apply (@tt_spec Z 0%Z 1%Z Z.add Z.mul Z.sub Z.opp Zth cp_tucker A23_cp).
  - reflexivity.
  - intros n. discriminate.
Defined.

(** ** Exact factorizations on integer arrays *)

(** Two matrices agree on the indices below [(a, b)]. *)
Definition mat_eqb (a b : nat) (f g : nat -> nat -> Z) : bool :=
  forallb (fun i => forallb (fun j => (f i j =? g i j)%Z) (seq 0 b)) (seq 0 a).

Lemma mat_eqb_spec (a b : nat) (f g : nat -> nat -> Z) :
  mat_eqb a b f g = true ->
  forall i j, i < a -> j < b -> f i j = g i j.
Proof.
  unfold mat_eqb. intros H i j Hi Hj. rewrite forallb_forall in H.
  specialize (H i ltac:(apply in_seq; lia)). rewrite forallb_forall in H.
  specialize (H j ltac:(apply in_seq; lia)). apply Z.eqb_eq, H.
Qed.

(** The product of two matrices at an index. *)
Definition zprod (k : nat) (x y : tensor Z) (i j : nat) : Z :=
  rsum 0%Z Z.add k (fun l => (get 0 x [i; l] * get 0 y [l; j])%Z).

(** [zqr_thin] and [zsvd_diag] where they factorize exactly; they raise
    elsewhere. *)
Definition zqr_checked (m : tensor Z) : result (tensor Z * tensor Z) :=
  match tshape m with
  | [a; b] =>
      '(Q, Rf) <- zqr_thin m ;;
      if mat_eqb a b (zprod (Nat.min a b) Q Rf) (fun i j => get 0%Z m [i; j])
      then Ok (Q, Rf) else Raise RuntimeError
  | _ => Raise RuntimeError
  end.

Definition zsvd_checked (M : tensor Z) (bud : budget Z) (rmax : option nat)
  (left_ortho : bool) : result (tensor Z * tensor Z) :=
  match tshape M with
  | [a; b] =>
      '(lft, rgt) <- zsvd_diag M bud rmax left_ortho ;;
      if negb (sh lft 1 =? 0)
         && mat_eqb a b (zprod (sh lft 1) lft rgt)
              (fun i j => get 0%Z M [i; j])
      then Ok (lft, rgt) else Raise RuntimeError
  | _ => Raise RuntimeError
  end.

Lemma zqr_checked_thin (m Q Rf : tensor Z) (a b : nat) :
  tshape m = [a; b] -> zqr_checked m = Ok (Q, Rf) ->
  tshape Q = [a; Nat.min a b] /\ tshape Rf = [Nat.min a b; b].
Proof.
  intros E H. unfold zqr_checked in H. rewrite E in H.
  destruct (zqr_thin m) as [[Q' R']|] eqn:Hq; [|discriminate H].
  cbn [bind] in H. destruct (mat_eqb _ _ _ _); [|discriminate H].
  inversion H. subst. apply (@zqr_thin_shape _ _ _ _ _ E Hq).
Qed.

Lemma zqr_checked_exact (m Q Rf : tensor Z) (a b : nat) :
  tshape m = [a; b] -> zqr_checked m = Ok (Q, Rf) ->
  forall i j, i < a -> j < b ->
    rsum 0%Z Z.add (Nat.min a b)
      (fun l => (get 0 Q [i; l] * get 0 Rf [l; j])%Z)
    = get 0%Z m [i; j].
Proof.
  intros E H. unfold zqr_checked in H. rewrite E in H.
  destruct (zqr_thin m) as [[Q' R']|] eqn:Hq; [|discriminate H].
  cbn [bind] in H. destruct (mat_eqb _ _ _ _) eqn:Hc; [|discriminate H].
  inversion H. subst. apply (@mat_eqb_spec _ _ _ _ Hc).
Qed.

Lemma zrdiv_zero (x : Z) : zrdiv 0 x = 0%Z.
Proof. unfold zrdiv. destruct x; reflexivity. Qed.

Lemma zsvd_checked_exact (M lft rgt : tensor Z) (a b : nat) :
  tshape M = [a; b] ->
  zsvd_checked M (BDelta 0%Z) None false = Ok (lft, rgt) ->
  exists k, k <> 0 /\ k <= Nat.min a b
            /\ tshape lft = [a; k] /\ tshape rgt = [k; b]
            /\ forall i j, i < a -> j < b ->
                 rsum 0%Z Z.add k
                   (fun l => (get 0 lft [i; l] * get 0 rgt [l; j])%Z)
                 = get 0%Z M [i; j].
Proof.
  intros E H. unfold zsvd_checked in H. rewrite E in H.
  destruct (zsvd_diag M (BDelta 0%Z) None false) as [[l r]|] eqn:Hs;
    [|discriminate H].
  cbn [bind] in H.
  destruct (negb (sh l 1 =? 0) && mat_eqb _ _ _ _) eqn:Hc; [|discriminate H].
  inversion H. subst l r. clear H.
  apply andb_true_iff in Hc. destruct Hc as (Hk & Hc).
  destruct (@zsvd_diag_shape _ _ _ _ _ _ _ _ E Hs) as (k & Hle & Sl & Sr).
  unfold sh in Hk, Hc. rewrite Sl in Hk, Hc. cbn [nth] in Hk, Hc.
  exists k. split.
  - apply negb_true_iff, Nat.eqb_neq in Hk. exact Hk.
  - split; [exact Hle|]. split; [exact Sl|]. split; [exact Sr|].
    apply (@mat_eqb_spec _ _ _ _ Hc).
Qed.

Lemma orthogonalize_keeps_array_witness :
  exists rk',
    (forall n, rk' n <= ranks_131 n)
    /\ tt_network diag430 [3; 3] rk'
    /\ Ztorch diag430 = Ztorch diag430.
Proof.
  destruct (@orthogonalize_keeps_array Z 0%Z 1%Z Z.add Z.mul Z.sub Z.opp
              Zth zqr_checked zqr_checked_thin zqr_checked_exact
              diag430 [3; 3] ranks_131 1%Z) as (_ & _ & H).
  - split; [reflexivity|]. split; [reflexivity|]. split.
    + intros k. unfold ranks_131. destruct (k =? 1); discriminate.
    + split; reflexivity.
  - repeat constructor.
  - apply (H diag430 (mkT [3; 3] [1; 0; 0; 0; 1; 0; 0; 0; 1]%Z,
                      ones 1%Z [1; 1])).
    vm_compute. reflexivity.
Defined.

Lemma round_tt_exact_witness :
  exists rk',
    (forall n, rk' n <= ranks_131 n)
    /\ tt_network diag430_rounded [3; 3] rk'
    /\ Ztorch diag430_rounded = Ztorch diag430.
Proof.
  apply (@round_tt_exact Z 0%Z 1%Z Z.add Z.mul Z.sub Z.opp Zth
           zrdiv zrsqrt zrltb zqr_checked zsvd_checked
           zqr_checked_thin zqr_checked_exact zrdiv_zero zsvd_checked_exact
           diag430 diag430_rounded [3; 3] ranks_131).
  - split; [reflexivity|]. split; [reflexivity|]. split.
    + intros k. unfold ranks_131. destruct (k =? 1); discriminate.
    + split; reflexivity.
  - repeat constructor.
  - vm_compute. reflexivity.
Defined.

(** ** Keys that [__getitem__] refuses *)

(** The network of three cores of shape 1 x 2 x 1 with entries 1 and 2:
    the array of shape 2 x 2 x 2 with entries [(1 + i)(1 + j)(1 + k)]. *)
Definition chain222 : Tensor Z :=
  mkTensor (repeat (mkT [1; 2; 1] [1; 2]%Z) 3) (repeat None 3).

(** [t[[0, 1], :, [1, 0]]] and [t[:, [0, 1], [1]]] *)
Definition key_apart : list key_item :=
  [KIndex [0; 1]%Z; full_slice; KIndex [1; 0]%Z].
Definition key_lengths : list key_item :=
  [full_slice; KIndex [0; 1]%Z; KIndex [1]%Z].

Lemma getitem_arrays_apart_witness :
  Zgetitem chain222 key_apart = Raise IndexError.
Proof.
  refine (@getitem_arrays_apart Z 0%Z 1%Z Z.add Z.mul Z.sub Z.opp Zth
            chain222 [2; 2; 2] (fun _ => 1) _ _ key_apart
            [SArr [0; 1]; STake [0; 1]; SArr [1; 0]] _ _ _).
  - split; [reflexivity|]. split; [reflexivity|].
    split; [intros k; discriminate|]. split; reflexivity.
  - discriminate.
  - reflexivity.
  - reflexivity.
  - reflexivity.
Defined.

Lemma getitem_array_lengths_witness :
  Zgetitem chain222 key_lengths = Raise ValueError.
Proof.
  refine (@getitem_array_lengths Z 0%Z 1%Z Z.add Z.mul Z.sub Z.opp Zth
            chain222 [2; 2; 2] (fun _ => 1) _ _ key_lengths key_lengths
            [STake [0; 1]; SArr [0; 1]; SArr [1]] _ _ _ _ _).
  - split; [reflexivity|]. split; [reflexivity|].
    split; [intros k; discriminate|]. split; reflexivity.
  - discriminate.
  - reflexivity.
  - reflexivity.
  - reflexivity.
  - reflexivity.
  - reflexivity.
Defined.

(** ** Networks with Tucker factors on integer arrays *)

(** A factorization that is exact whatever the budget: the matrix itself
    and an identity, the identity on the side of the smaller size. *)
Definition zsvd_any (M : tensor Z) (bud : budget Z) (rmax : option nat)
  (left_ortho : bool) : result (tensor Z * tensor Z) :=
  match tshape M with
  | [a; b] =>
      if (a =? 0) || (b =? 0) then Raise RuntimeError
      else if a <=? b then Ok (eye 0%Z 1%Z a, M) else Ok (M, eye 0%Z 1%Z b)
  | _ => Raise RuntimeError
  end.

Lemma zsvd_any_exact (bud : budget Z) (rmax : option nat) (lo : bool)
  (M lft rgt : tensor Z) (a b : nat) :
  tshape M = [a; b] ->
  zsvd_any M bud rmax lo = Ok (lft, rgt) ->
  exists k, k <> 0 /\ k <= Nat.min a b
            /\ tshape lft = [a; k] /\ tshape rgt = [k; b]
            /\ forall i j, i < a -> j < b ->
                 rsum 0%Z Z.add k
                   (fun l => (get 0 lft [i; l] * get 0 rgt [l; j])%Z)
                 = get 0%Z M [i; j].
Proof.
  intros E H. unfold zsvd_any in H. rewrite E in H.
  destruct ((a =? 0) || (b =? 0)) eqn:Hz; [discriminate H|].
  apply orb_false_iff in Hz. destruct Hz as (Ha & Hb).
  apply Nat.eqb_neq in Ha. apply Nat.eqb_neq in Hb.
  destruct (a <=? b) eqn:Hab; inversion H; subst lft rgt; clear H.
  - apply Nat.leb_le in Hab. exists a. split; [exact Ha|]. split; [lia|].
    split; [reflexivity|]. split; [exact E|].
    intros i j Hi Hj.
    rewrite (@rsum_ext Z 0%Z Z.add a _
               (fun l => (delta 0 1 i l * get 0 M [l; j])%Z))
      by (intros l Hl; rewrite get_eye by assumption; reflexivity).
    apply (@rsum_delta_l Z 0%Z 1%Z Z.add Z.mul Z.sub Z.opp Zth a i
             (fun l => get 0%Z M [l; j]) Hi).
  - apply Nat.leb_gt in Hab. exists b. split; [exact Hb|]. split; [lia|].
    split; [exact E|]. split; [reflexivity|].
    intros i j Hi Hj.
    rewrite (@rsum_ext Z 0%Z Z.add b _
               (fun l => (get 0 M [i; l] * delta 0 1 l j)%Z))
      by (intros l Hl; rewrite get_eye by assumption; reflexivity).
    apply (@rsum_delta_r Z 0%Z 1%Z Z.add Z.mul Z.sub Z.opp Zth b j
             (fun l => get 0%Z M [i; l]) Hj).
Qed.

(** Two TT cores of rank 2 that hold an identity and [diag(4, 3)], with a
    Tucker factor of 3 rows on the first axis: the array
    [[4, 6], [0, 3], [0, 0]]. *)
Definition tk2 : Tensor Z :=
  mkTensor [mkT [1; 2; 2] [1; 0; 0; 1]%Z; mkT [2; 2; 1] [4; 0; 0; 3]%Z]
    [Some (mkT [3; 2] [1; 2; 0; 1; 0; 0]%Z); None].

(** What [orthogonalize(1)] and [round_tt(0)] make of it, and what
    [round_tucker(0)] makes of it. *)
Definition tk2_orthogonal : Tensor Z :=
  mkTensor [mkT [1; 2; 2] [1; 0; 0; 1]%Z; mkT [2; 2; 1] [4; 6; 0; 3]%Z]
    [Some (mkT [3; 2] [1; 0; 0; 1; 0; 0]%Z); None].

Definition tk2_rounded : Tensor Z :=
  mkTensor [mkT [1; 2; 2] [1; 0; 0; 1]%Z; mkT [2; 2; 1] [1; 0; 0; 1]%Z]
    [Some (mkT [3; 2] [4; 6; 0; 3; 0; 0]%Z);
     Some (mkT [2; 2] [1; 0; 0; 1]%Z)].

Definition Ztucker_kept : list nat -> (nat -> nat) -> (nat -> nat)
                          -> Tensor Z -> Tensor Z -> Prop :=
  tucker_kept 0%Z 1%Z Z.add Z.mul.

Lemma tucker_core_spec_witness :
  exists A C,
    Ztorch tk2 = Ok A /\ tucker_core 0%Z 1%Z Z.add Z.mul tk2 = Ok C
    /\ tshape A = [3; 2] /\ tshape C = mids (fun _ => 2) 2
    /\ forall idx,
         in_range [3; 2] idx = true ->
         get 0%Z A idx
         = msum 0%Z Z.add (tshape C)
             (fun pos => (weight 0%Z 1%Z Z.mul (Us tk2) idx pos
                          * get 0%Z C pos)%Z).
Proof.
  apply (@tucker_core_spec Z 0%Z 1%Z Z.add Z.mul Z.sub Z.opp Zth tk2 [3; 2]
           ranks_121 (fun _ => 2)).
  - split; [reflexivity|]. split; [reflexivity|]. split.
    + intros k Hk. destruct k as [|[|k]]; [reflexivity|reflexivity|].
      simpl in Hk. lia.
    + split; [intros k; unfold ranks_121; destruct (k =? 1); discriminate|].
      split; [discriminate|]. split; reflexivity.
  - discriminate.
Defined.

Lemma orthogonalize_tucker_keeps_array_witness :
  Ztucker_kept [3; 2] ranks_121 (fun _ => 2) tk2 tk2_orthogonal.
Proof.
  destruct (@orthogonalize_tucker_keeps_array Z 0%Z 1%Z Z.add Z.mul Z.sub
              Z.opp Zth zqr_checked zqr_checked_thin zqr_checked_exact
              tk2 [3; 2] ranks_121 (fun _ => 2) 1%Z) as (_ & _ & _ & H).
  - split; [reflexivity|]. split; [reflexivity|]. split.
    + intros k Hk. destruct k as [|[|k]]; [reflexivity|reflexivity|].
      simpl in Hk. lia.
    + split; [intros k; unfold ranks_121; destruct (k =? 1); discriminate|].
      split; [discriminate|]. split; reflexivity.
  - repeat constructor.
  - apply (H tk2_orthogonal (mkT [2; 2] [1; 2; 0; 1]%Z, ones 1%Z [1; 1])).
    vm_compute. reflexivity.
Defined.

Lemma round_tucker_exact_witness :
  exists rk' tr',
    (forall n, rk' n <= ranks_121 n) /\ (forall n, tr' n <= 2)
    /\ tucker_network tk2_rounded [3; 2] rk' tr'
    /\ Ztorch tk2_rounded = Ztorch tk2
    /\ forall k, k < 2 -> has_factor tk2_rounded k = true.
Proof.
  apply (@round_tucker_exact Z 0%Z 1%Z Z.add Z.mul Z.sub Z.opp Zth
           zrdiv zrsqrt zqr_checked zsvd_any
           zqr_checked_thin zqr_checked_exact zrdiv_zero
           (zsvd_any_exact (BEps 0%Z) None true)
           tk2 tk2_rounded [3; 2] ranks_121 (fun _ => 2)).
  - split; [reflexivity|]. split; [reflexivity|]. split.
    + intros k Hk. destruct k as [|[|k]]; [reflexivity|reflexivity|].
      simpl in Hk. lia.
    + split; [intros k; unfold ranks_121; destruct (k =? 1); discriminate|].
      split; [discriminate|]. split; reflexivity.
  - repeat constructor.
  - vm_compute. reflexivity.
Defined.

Lemma round_tt_tucker_exact_witness :
  Ztucker_kept [3; 2] ranks_121 (fun _ => 2) tk2 tk2_orthogonal.
Proof.
  apply (@round_tt_tucker_exact Z 0%Z 1%Z Z.add Z.mul Z.sub Z.opp Zth
           zrdiv zrsqrt zrltb zqr_checked zsvd_any
           zqr_checked_thin zqr_checked_exact zrdiv_zero
           (zsvd_any_exact (BDelta 0%Z) None false)
           tk2 tk2_orthogonal [3; 2] ranks_121 (fun _ => 2)).
  - split; [reflexivity|]. split; [reflexivity|]. split.
    + intros k Hk. destruct k as [|[|k]]; [reflexivity|reflexivity|].
      simpl in Hk. lia.
    + split; [intros k; unfold ranks_121; destruct (k =? 1); discriminate|].
      split; [discriminate|]. split; reflexivity.
  - repeat constructor.
  - vm_compute. reflexivity.
Defined.

Lemma tucker_properties_witness :
  dim tk2 = 2 /\ shape tk2 = Ok [3; 2]
  /\ ranks_tt tk2 = Ok (map ranks_121 (seq 0 3))
  /\ ranks_tucker tk2 = mids (fun _ => 2) 2.
Proof.
  apply (@tucker_properties Z 0%Z 1%Z Z.add Z.mul Z.sub Z.opp Zth tk2 [3; 2]
           ranks_121 (fun _ => 2)).
  - split; [reflexivity|]. split; [reflexivity|]. split.
    + intros k Hk. destruct k as [|[|k]]; [reflexivity|reflexivity|].
      simpl in Hk. lia.
    + split; [intros k; unfold ranks_121; destruct (k =? 1); discriminate|].
      split; [discriminate|]. split; reflexivity.
  - discriminate.
Defined.

(** A relative error that is always zero. *)
Definition zrelerr_zero (a b : Tensor Z) : result Z := Ok 0%Z.

Lemma round_exact_witness :
  round_tt 0%Z 1%Z Z.add Z.mul zrdiv zrsqrt zrltb zqr_checked zsvd_any
    tk2 0%Z None = Ok tk2_orthogonal
  /\ Ztucker_kept [3; 2] ranks_121 (fun _ => 2) tk2 tk2_orthogonal.
Proof.
  apply (@round_exact Z 0%Z 1%Z Z.add Z.mul Z.sub Z.opp Zth
           zrdiv zrsqrt zrltb zqr_checked zsvd_any zrelerr_zero
           zqr_checked_thin zqr_checked_exact zrdiv_zero
           (zsvd_any_exact (BDelta 0%Z) None false)
           (fun a b e H => ltac:(unfold zrelerr_zero in H; inversion H;
                                 reflexivity))
           tk2 tk2_orthogonal [3; 2] ranks_121 (fun _ => 2)).
  - split; [reflexivity|]. split; [reflexivity|]. split.
    + intros k Hk. destruct k as [|[|k]]; [reflexivity|reflexivity|].
      simpl in Hk. lia.
    + split; [intros k; unfold ranks_121; destruct (k =? 1); discriminate|].
      split; [discriminate|]. split; reflexivity.
  - repeat constructor.
  - vm_compute. reflexivity.
Defined.

(** ** The sum of two networks with Tucker factors on integer arrays *)

Lemma add_tucker_spec_witness :
  exists t A B,
    Ztorch tk2 = Ok A /\ Ztorch tk2_rounded = Ok B
    /\ __add__ 0%Z 1%Z Z.add Z.mul tk2 (OTensor tk2_rounded) = Ok t
    /\ tucker_network t [3; 2] (add_ranks 2 ranks_121 ranks_121)
         (add_mids tk2 tk2_rounded [3; 2] (fun _ => 2) (fun _ => 2))
    /\ (forall k, k < 2 ->
          has_factor t k = has_factor tk2 k && has_factor tk2_rounded k)
    /\ Ztorch t
       = Ok (build [3; 2] (fun idx => (get 0 A idx + get 0 B idx)%Z)).
Proof.
  apply (@add_tucker_spec Z 0%Z 1%Z Z.add Z.mul Z.sub Z.opp Zth
           tk2 tk2_rounded [3; 2] ranks_121 ranks_121
           (fun _ => 2) (fun _ => 2)).
  - split; [reflexivity|]. split; [reflexivity|]. split.
    + intros k Hk. destruct k as [|[|k]]; [reflexivity|reflexivity|].
      simpl in Hk. lia.
    + split; [intros k; unfold ranks_121; destruct (k =? 1); discriminate|].
      split; [discriminate|]. split; reflexivity.
  - split; [reflexivity|]. split; [reflexivity|]. split.
    + intros k Hk. destruct k as [|[|k]]; [reflexivity|reflexivity|].
      simpl in Hk. lia.
    + split; [intros k; unfold ranks_121; destruct (k =? 1); discriminate|].
      split; [discriminate|]. split; reflexivity.
  - simpl. lia.
Defined.

(** ** The product of two networks with Tucker factors on integer arrays *)

(** The cores of [tk2] with a Tucker factor of 5 rows on the first axis,
    so that the product of two Tucker ranks, 4, stays below the size. *)
Definition tk5 : Tensor Z :=
  mkTensor [mkT [1; 2; 2] [1; 0; 0; 1]%Z; mkT [2; 2; 1] [4; 0; 0; 3]%Z]
    [Some (mkT [5; 2] [1; 2; 0; 1; 0; 0; 1; 1; 2; 0]%Z); None].

Lemma mul_tucker_spec_witness :
  exists t A B,
    Ztorch tk5 = Ok A /\ Ztorch tk5 = Ok B
    /\ __mul__ 0%Z 1%Z Z.add Z.mul tk5 (OTensor tk5) = Ok t
    /\ tucker_network t [5; 2] (fun k => ranks_121 k * ranks_121 k)
         (mul_mids tk5 tk5 [5; 2] (fun _ => 2) (fun _ => 2))
    /\ (forall k, k < 2 ->
          has_factor t k
          = has_factor tk5 k && has_factor tk5 k && (2 * 2 <? nth k [5; 2] 0))
    /\ Ztorch t
       = Ok (build [5; 2] (fun idx => (get 0 A idx * get 0 B idx)%Z)).
Proof.
  apply (@mul_tucker_spec Z 0%Z 1%Z Z.add Z.mul Z.sub Z.opp Zth
           tk5 tk5 [5; 2] ranks_121 ranks_121 (fun _ => 2) (fun _ => 2)).
  - split; [reflexivity|]. split; [reflexivity|]. split.
    + intros k Hk. destruct k as [|[|k]]; [reflexivity|reflexivity|].
      simpl in Hk. lia.
    + split; [intros k; unfold ranks_121; destruct (k =? 1); discriminate|].
      split; [discriminate|]. split; reflexivity.
  - split; [reflexivity|]. split; [reflexivity|]. split.
    + intros k Hk. destruct k as [|[|k]]; [reflexivity|reflexivity|].
      simpl in Hk. lia.
    + split; [intros k; unfold ranks_121; destruct (k =? 1); discriminate|].
      split; [discriminate|]. split; reflexivity.
  - repeat constructor.
  - discriminate.
Defined.

(** ** Broadcasting on integer arrays *)

(** A TT network of the shape [(1, 2)]: the array [[1, 2]]. *)
Definition row12 : Tensor Z :=
  mkTensor [mkT [1; 1; 2] [1; 2]%Z; mkT [2; 2; 1] [1; 0; 0; 1]%Z]
    [None; None].

Lemma broadcast_spec_witness :
  exists a' b' A' B',
    _broadcast 0%Z 1%Z row12 tk2 = Ok (a', b')
    /\ Ztorch a' = Ok A' /\ Ztorch b' = Ok B'
    /\ tshape A' = [3; 2] /\ tshape B' = [3; 2]
    /\ forall idx,
         in_range [3; 2] idx = true ->
         get 0%Z A' idx
         = get 0%Z (mkT [1; 2] [1; 2]%Z) (zip_with Nat.modulo idx [1; 2])
         /\ get 0%Z B' idx
            = get 0%Z (mkT [3; 2] [4; 6; 0; 3; 0; 0]%Z)
                (zip_with Nat.modulo idx [3; 2]).
Proof.
  apply (@broadcast_spec Z 0%Z 1%Z Z.add Z.mul Z.sub Z.opp Zth row12 tk2
           (mkT [1; 2] [1; 2]%Z) (mkT [3; 2] [4; 6; 0; 3; 0; 0]%Z)).
  - vm_compute. reflexivity.
  - vm_compute. reflexivity.
  - repeat constructor.
  - repeat constructor.
  - reflexivity.
Defined.
